(* ===== verification/_CoqProject ===== *)
-Q . S2P
Prelude.v
CxxLib.v
Ownership.v
ByteOrder.v
Bencode.v
Hash.v
Evp.v
Addr.v
SockAddr.v
LruCache.v
NodeId.v
RoutingTable.v
RoutingTableStore.v
KademliaLookup.v
TokenRotator.v
DhtPeerStore.v
AnnounceCoordinator.v
Krpc.v
LookupManager.v
DhtClient.v
DhtKeeps.v
DhtRefresh.v
KrpcSummary.v
PeerMessage.v
TorrentFile.v
Utils.v
Logger.v
LogFiles.v
Double.v
TorrentLoad.v
Json.v
DiskWriter.v
PieceManager.v
PeerConnection.v
PieceExchange.v
Swarm.v
SwarmDownload.v
Net.v
Dns.v
Tracker.v
UdpTracker.v
HttpTracker.v
TrackerFactory.v
TorrentManager.v
RunSummary.v
DhtReport.v
SessionManager.v
SessionSummaries.v
Locking.v
SessionThreads.v
Upnp.v
SessionNode.v
DhtExchange.v
Socket.v
Gateway.v
SslSocket.v
HttpExchange.v
