(* ===== verification/Prelude.v ===== *)
(** * A verification library for the BitTorrent client

    The repository is a C++17 BitTorrent client: bencoded torrent files, HTTP and UDP
    trackers, the peer wire protocol over TCP, and a Kademlia DHT node.  This library
    translates its own logic into executable definitions and proves what makes each
    component correct.  Paths below are relative to src/; [inc/x.h] and [src/x.cpp]
    belong together.

    ** Conventions

    A byte is an integer in [0, 256) ([bytes], [byte_ok]); fixed-width integers are [Z]
    with their wrap-around written out ([u8] ... [u64], [to_i32], [to_i64]).  A function
    that may throw returns [result]; [exn] tells the exception's class, [Undefined] an
    execution C++ gives no meaning to, [Sigpipe] the signal that ends the process,
    [OutOfFuel] the model's own bound.  State is
    passed explicitly; the clock is an argument; random draws, system calls, SHA-1 and
    the address conversions of the C library are parameters (type classes [Sha1],
    [Inet], [InetPton], [DhtEnv], [DiskEnv], records [Socket], [UpnpEnv], and functions)
    with the laws the client relies on as named hypotheses.  The calls that write a log
    line are left out of the functions that make them; what a logger does with a line, and
    the lines with content of their own, have files of their own.

    ** Files

    - Prelude, CxxLib: integers, results, loops, tactics; the standard-library functions
      the client computes with (std::stoul, std::to_string, find ...).  Double: binary64
      arithmetic and its output, over the Standard Library's SpecFloat.  Json: a JSON
      parser, the reference that reads the summaries back.
    - ByteOrder (inc/byte_order.h), Hash (inc/crypto.h, inc/info_hash.h), Evp (the SHA-1 of
      inc/crypto.h over OpenSSL's calls), Addr (inc/peer_address.h), SockAddr
      (inc/net/socket_addresses.h): encodings shared by all protocols.
    - Bencode (inc/bencode/, src/bencode/): values, encoder, recursive-descent parser.
    - LruCache (inc/lru_cache.h): the linked list with its index.
    - NodeId, RoutingTable, RoutingTableStore, KademliaLookup, TokenRotator, DhtPeerStore,
      AnnounceCoordinator, Krpc, LookupManager, DhtClient (inc/dht/, src/dht/, each file
      by its source's name; TokenRotator is token_secret_rotator, LookupManager
      get_peers_lookup_manager): the DHT node, from identifiers to the two threads'
      handlers, whose state is the record [DhtClient]; a run ends with the event that ends
      the process.  DhtKeeps: what every step of the node leaves alone.  DhtRefresh: the
      maintenance passes of a run and the buckets they refresh.  KrpcSummary: messages as the log shows them.  DhtReport: the
      node's run summary.
    - PeerMessage (peer_wire/peer_message), TorrentFile (torrent_file, trackers/tracker_*,
      utils.h), DiskWriter (peer_wire/disk_writer), PieceManager
      (peer_wire/piece_manager), PeerConnection (peer_wire/peer_connection): the download.
      The disk is a map of the files the operating system resolves paths to ([DiskEnv]
      has the resolution, and which directories and files can be made, opened, written).
      TorrentLoad composes Bencode and TorrentFile: from the bytes of a file to a torrent.
      PieceManager cuts the operations into their atomic accesses ([thread_step]);
      PeerConnection is a monad of actions on the connection, the piece manager, the disk
      and the sent buffers.  PieceExchange composes two connections; Swarm and
      SwarmDownload let a client download a whole torrent over several.
    - Ownership: what the move-only classes have in common, a type class of objects that own
      a resource with the theorem that each resource is given back once.
    - Socket (net/socket), SslSocket (net/ssl_socket): loops over partial reads and writes,
      deadlines and descriptors, over type classes of system calls ([Sys]) and OpenSSL calls
      ([Ssl]).  HttpExchange: the loop of HttpTracker on these sockets.  PeerConnection uses a socket as the list of bytes that [TcpOk] relates it to.
    - Net, Dns (net/socket: name resolution; Dns with the addresses it makes), Tracker
      (trackers/tracker_communicator: the interface, a record of operations), UdpTracker, HttpTracker, TrackerFactory
      (trackers/): the two tracker protocols behind it.
    - TorrentManager (peer_wire/torrent_manager): the worker pool of one torrent as a step
      relation over its threads; it uses the tracker interface and PieceManager.  RunSummary:
      the metrics of a run and its JSON file.
    - SessionManager (peer_wire/session_manager): the torrents of one process, the routing
      of the DHT's peers to them, speeds, the status display.  SessionSummaries: the files
      it leaves behind.  SessionNode: start_all and stop_all, with the DHT node, its
      callback and the port mapping; it composes SessionManager, DhtClient and Upnp.
      DhtExchange: two DHT nodes and the torrents of a session.
    - Locking, SessionThreads: the threads of a session with their mutexes, as programs of
      lock, spawn and join commands with the data left out, and the theory of deadlocks
      they are instances of.
    - Upnp, Gateway (net/upnp): the port mapping; the default route and the local address.
    - Utils (inc/utils.h): names, texts and JSON strings, and the log directory that the
      constructor of TorrentManager empties.
    - Logger (inc/logger.h), LogFiles: a logger and its file; the loggers of torrents,
      peers, session and DHT node with their paths.

    ** Theorems

    - Encodings (C1, C21, C22, [peer_wire_roundtrip]; C7: a run summary): what is written is read back,
      whatever follows.  C4: a .torrent file is read as the torrent it describes.
    - Untrusted input (C2, C23, C34, C39): the parsers end on every input and accept only
      values that satisfy the bounds their clients rely on, and the bencode parser's read
      out of bounds takes a run of twenty decimal digits ([long_number]); a connection has
      no undefined behaviour on any byte stream.
    - Data structures against abstract ones (C6, C12, C15, C19, C20, C35), their files read
      back (C13), and the piece manager's operations against their contracts, as functions
      and as runs of atomic steps (C9).
    - Invariants over all histories (C10, C16, C24, C27, [replies_routed]) and over all interleavings
      of threads (C26, C29: the worker pool; C37: the pieces; C5: the locks of a whole
      session, which never deadlock).
    - Resources: the request that deletes a port mapping is sent exactly once (C33);
      descriptors and TLS objects are closed and freed once ([descriptors_closed_once], [ssl_resources_freed_once],
      [constructors_do_not_leak], [local_ip_socket_closed], [sha1_evp_correct]).
    - Refinement of the stream the peer wire uses by sockets (C8), with their deadlines
      ([timeouts_kept]) and modes ([connect_restores_mode]), and of the exchanges the HTTP
      tracker uses (C40), without a leak.
    - Progress and composition (C14, C18: an announce delivers the tracker's peers through
      failing addresses and lost datagrams, under the conditions each states; C17, C28: a
      token is accepted; C31: every stale bucket is refreshed; C30: the DHT's peers reach the
      torrents of the session; C25: a peer stored by one client's node reaches the torrents
      of another; [piece_exchange]: a piece travels between two clients; C3: under every fair schedule
      of whole message handlings a client downloads a torrent whose pieces are spread over
      several others).
    - Files: what adding a torrent deletes (C32), what a session leaves behind, over changes of directory and repeated stops (C11), which
      log lines end up where ([log_file_complete], [logs_independent]).
    - Errors and surprises, each with a concrete execution: C36, C38, and the lemmas
      [parse_byte_string_wraps], [load_throws_on_bad_hex],
      [token_refused_after_two_rotations], [txn_reuse_loses_reply],
      [announce_reply_misdirected], [deserialize_length_wraps], [short_error_undefined],
      [passkey_hides_info_hash], [chunked_body_refused], [second_lease_unused],
      [unanswered_mapping_succeeds], [sample_complete_frozen], [send_closed_kills],
      [ssl_timeout_leaves_nonblocking], [ssl_timeout_restarts], [json_escape_control],
      [batch_json_unescaped], [error_text_raw], [private_flag_ignored],
      [default_route_mask_ignored], [colliding_files],
      [summary_out_of_date].

    ** Fuel

    The bencode parser has one unit of fuel more than there are bytes (C2 shows it is
    enough); the loops over buckets, candidates, files, addresses, leases and
    retransmissions are structural; the request loop has 15 units, the pipeline's width
    (C39 covers its exhaustion); C3 bounds the rounds of a download; [PeerConnection.run] has one unit more than the stream has
    bytes, of which every message takes at least four.  A loop that sends or reads so many
    bytes has one unit for each; how long [recv_all] and the TLS calls with a time-out run
    is decided by the other side, and their fuel is an argument.  The lines of the route
    table are at most as many as its bytes ([default_gateway_found]).

    ** Not modelled

    The UDP tracker, the DHT node and the port mapping use sockets as what they carry: a
    datagram socket is the list of datagrams sent and what the network answers to them, an
    exchange over TCP a function from the request to the response (HttpExchange derives it
    for the HTTP tracker).  A send of
    PeerConnection is taken, refused or ends the process by SIGPIPE, as a parameter says;
    Socket shows when.  In Swarm the handling of a message is one step; the interleaving of
    the atomic accesses inside is that of PieceManager.  A remote gateway's obedience, the
    native stack and what follows undefined behaviour are not modelled.  The
    threads of SessionThreads carry no data, and the data of SessionNode is that of one
    step at a time.  Left out are the calls that log inside the handlers, what upnp.cpp
    prints on the terminal, getters that return a member, the declarations of the classes
    (their members are the records, their functions the definitions), and the programs and
    tests.  Memory ordering of the atomics is taken as sequentially consistent, and
    mutex-protected sections as single steps, except in TorrentManager where the sections
    that read atomics are cut at those reads. *)

From stdpp Require Export base option list gmap sets strings sorting.
From Stdlib Require Export ZArith Lia.
From Stdlib Require Import Ascii.
Export Ascii.AsciiSyntax.

#[global] Open Scope Z_scope.

(** ** Bytes and machine integers *)

(** A [uint8_t], [char] or [std::string] element is an integer in [0, 256). *)
Abbreviation bytes := (list Z).

Definition byte_ok (b : Z) : Prop := 0 <= b < 256.
Definition bytes_ok (s : bytes) : Prop := Forall byte_ok s.

#[global] Instance byte_ok_dec b : Decision (byte_ok b).
Proof. unfold byte_ok. apply _. Defined.
#[global] Instance bytes_ok_dec s : Decision (bytes_ok s).
Proof. unfold bytes_ok. apply _. Defined.

(** Conversions to the fixed-width unsigned types wrap around, as
    [static_cast] does; [to_i64]/[to_i32] give the two's complement value. *)
Definition u8 (z : Z) : Z := z mod 2 ^ 8.
Definition u16 (z : Z) : Z := z mod 2 ^ 16.
Definition u32 (z : Z) : Z := z mod 2 ^ 32.
Definition u64 (z : Z) : Z := z mod 2 ^ 64.
Definition to_signed (w z : Z) : Z :=
  let m := z mod 2 ^ w in if m <? 2 ^ (w - 1) then m else m - 2 ^ w.
Definition to_i32 (z : Z) : Z := to_signed 32 z.
Definition to_i64 (z : Z) : Z := to_signed 64 z.

(** A string literal of the source as its bytes. *)
Fixpoint str (s : string) : bytes :=
  match s with
  | EmptyString => []
  | String c s' => Z.of_N (N_of_ascii c) :: str s'
  end.

(** A character literal of the source as its byte. *)
Definition chr (c : ascii) : Z := Z.of_N (N_of_ascii c).
Arguments chr c%_char_scope.

Lemma str_bytes_ok s : bytes_ok (str s).
Proof.
  induction s as [|c s IH]; constructor; [|exact IH].
  unfold byte_ok. pose proof (N_ascii_bounded c). lia.
Qed.

Lemma bytes_ok_app s t : bytes_ok (s ++ t) <-> bytes_ok s /\ bytes_ok t.
Proof. apply Forall_app. Qed.

Lemma bytes_ok_take n s : bytes_ok s -> bytes_ok (take n s).
Proof. apply Forall_take. Qed.

Lemma bytes_ok_drop n s : bytes_ok s -> bytes_ok (drop n s).
Proof. apply Forall_drop. Qed.

(** ** Exceptions as values *)

(** What a function that may throw returns.  [Undefined] marks an execution the
    C++ standard gives no meaning to; [Sigpipe] is no exception either, but the signal,
    which nothing in the program handles, that ends the process when it writes to a
    stream socket that is shut down; [OutOfFuel] is the model's own bound and is proved
    unreachable wherever a definition uses fuel. *)
Inductive exn :=
  | RuntimeError (what : string)
  | InvalidArgument (what : string)
  | OutOfRange (what : string)
  | Undefined (what : string)
  | Sigpipe
  | OutOfFuel.

Inductive result (A : Type) :=
  | Ok (a : A)
  | Throw (e : exn).
Arguments Ok {A} a.
Arguments Throw {A} e.

#[global] Instance exn_eq_dec : EqDecision exn.
Proof. solve_decision. Defined.
#[global] Instance result_eq_dec `{EqDecision A} : EqDecision (result A).
Proof. solve_decision. Defined.

#[global] Instance result_ret : MRet result := fun A a => Ok a.
#[global] Instance result_bind : MBind result := fun A B f r =>
  match r with Ok a => f a | Throw e => Throw e end.

(** [if (b) throw e;] *)
Definition throw_if (b : bool) (e : exn) : result unit :=
  if b then Throw e else Ok ().

Definition is_ok {A} (r : result A) : bool :=
  match r with Ok _ => true | Throw _ => false end.

(** [try { ... } catch (...) { return nullopt; }] *)
Definition to_option {A} (r : result A) : option A :=
  match r with Ok a => Some a | Throw _ => None end.

Lemma bind_Ok {A B} (f : A -> result B) r b :
  (r ≫= f) = Ok b <-> exists a, r = Ok a /\ f a = Ok b.
Proof.
  destruct r as [a|e]; simpl; split; [eauto| |done|].
  - intros (? & [= ->] & ?). done.
  - intros (? & ? & ?). done.
Qed.

Lemma throw_if_Ok b e u : throw_if b e = Ok u <-> b = false.
Proof. destruct b, u; simpl; split; done. Qed.

(** A loop over a list whose body may throw. *)
Fixpoint foldM {A B} (f : A -> B -> result A) (a : A) (l : list B) : result A :=
  match l with
  | [] => Ok a
  | x :: l' => a' ← f a x; foldM f a' l'
  end.

(** ** Timed histories *)

(** The clock does not run backwards. *)
Fixpoint clocked {A} (t : Z) (cs : list (Z * A)) : Prop :=
  match cs with
  | [] => True
  | c :: cs' => t <= fst c /\ clocked (fst c) cs'
  end.

Definition end_time {A} (t : Z) (cs : list (Z * A)) : Z := fold_left (fun _ c => fst c) cs t.

Lemma end_time_cons {A} t (c : Z * A) cs : end_time t (c :: cs) = end_time (fst c) cs.
Proof. done. Qed.

Lemma clocked_end {A} t (cs : list (Z * A)) : clocked t cs -> t <= end_time t cs.
Proof.
  revert t. induction cs as [|c cs IH]; intros t Hc; [cbn; lia|].
  destruct Hc as [? Hc]. rewrite end_time_cons. specialize (IH _ Hc). lia.
Qed.

(** ** Loops *)

(** A property every step keeps holds after the loop. *)
Lemma fold_left_pres {A B} (P : A -> Prop) (f : A -> B -> A) l a :
  P a -> (forall a x, x ∈ l -> P a -> P (f a x)) -> P (fold_left f l a).
Proof.
  revert a. induction l as [|x l IH]; intros a Ha Hf; [done|]. cbn [fold_left].
  apply IH; [apply Hf; [left|done]|]. intros a' y Hy. apply Hf. by right.
Qed.

(** A preorder every step respects relates the two ends of the loop. *)
Lemma fold_left_rel {A B} (R : relation A) `{!PreOrder R} (f : A -> B -> A) l a :
  (forall a x, R a (f a x)) -> R a (fold_left f l a).
Proof.
  intros Hf. apply (fold_left_pres (R a)); [done|]. intros a' x _ Ha. by etransitivity.
Qed.

(** ** Tactics *)

(** Split every monadic equation [_ ≫= _ = Ok _] of the context. *)
Ltac inv_result :=
  repeat match goal with
  | H : mbind _ _ = Ok _ |- _ =>
      apply bind_Ok in H; destruct H as (? & ? & H)
  | H : throw_if _ _ = Ok _ |- _ => apply throw_if_Ok in H
  | H : Throw _ = Ok _ |- _ => discriminate H
  | H : Ok _ = Ok _ |- _ => injection H as H
  | H : mret _ = Ok _ |- _ => injection H as H
  | p : (_ * _)%type |- _ => destruct p; cbn [fst snd] in *
  end; simplify_eq.

(** Turn boolean comparisons of the context and the goal into propositions. *)
Ltac b2p :=
  repeat match goal with
  | H : _ && _ = true |- _ => apply andb_true_iff in H; destruct H
  | H : _ || _ = false |- _ => apply orb_false_iff in H; destruct H
  | H : negb _ = true |- _ => apply negb_true_iff in H
  | H : negb _ = false |- _ => apply negb_false_iff in H
  | H : (_ <? _) = true |- _ => apply Z.ltb_lt in H
  | H : (_ <? _) = false |- _ => apply Z.ltb_ge in H
  | H : (_ <=? _) = true |- _ => apply Z.leb_le in H
  | H : (_ <=? _) = false |- _ => apply Z.leb_gt in H
  | H : (_ =? _) = true |- _ => apply Z.eqb_eq in H
  | H : (_ =? _) = false |- _ => apply Z.eqb_neq in H
  | H : (_ <? _)%nat = true |- _ => apply Nat.ltb_lt in H
  | H : (_ <? _)%nat = false |- _ => apply Nat.ltb_ge in H
  | H : (_ <=? _)%nat = true |- _ => apply Nat.leb_le in H
  | H : (_ <=? _)%nat = false |- _ => apply Nat.leb_gt in H
  | H : (_ =? _)%nat = true |- _ => apply Nat.eqb_eq in H
  | H : (_ =? _)%nat = false |- _ => apply Nat.eqb_neq in H
  | H : bool_decide _ = true |- _ => apply bool_decide_eq_true in H
  | H : bool_decide _ = false |- _ => apply bool_decide_eq_false in H
  end.

(** Case analysis on the scrutinee of the outermost [if] of the goal. *)
Ltac case_if :=
  match goal with
  | |- context [if ?b then _ else _] => destruct b eqn:?
  end.

(** ** Automation *)

Create HintDb bt.
#[export] Hint Resolve str_bytes_ok bytes_ok_take bytes_ok_drop : bt.
#[export] Hint Extern 1 (bytes_ok (_ ++ _)) => apply bytes_ok_app; split : bt.
#[export] Hint Extern 1 (bytes_ok []) => constructor : bt.

(** ** Slices *)

(** [std::vector(v.begin() + a, v.begin() + b)] for [a <= b <= v.size()]. *)
Definition slice {A} (a b : nat) (l : list A) : list A := take (b - a) (drop a l).

Lemma length_slice {A} a b (l : list A) :
  (a <= b <= length l)%nat -> length (slice a b l) = (b - a)%nat.
Proof. intros. unfold slice. rewrite length_take, length_drop. lia. Qed.

Lemma slice_app_mid {A} (p m s : list A) :
  slice (length p) (length p + length m) (p ++ m ++ s) = m.
Proof.
  unfold slice. rewrite drop_app_length.
  replace (length p + length m - length p)%nat with (length m) by lia.
  apply take_app_length.
Qed.

Lemma drop_app_mid {A} (p m s : list A) :
  drop (length p + length m) (p ++ m ++ s) = s.
Proof. rewrite <- drop_drop, drop_app_length. apply drop_app_length. Qed.

(** [v[pos]] past a known prefix. *)
Lemma lookup_app_mid {A} (p : list A) x s : (p ++ x :: s) !! length p = Some x.
Proof. rewrite lookup_app_r by lia. by rewrite Nat.sub_diag. Qed.

(** ** The order of [std::string] keys *)

(** [std::string::operator<] compares unsigned bytes lexicographically. *)
Fixpoint bytes_ltb (s t : bytes) : bool :=
  match s, t with
  | _, [] => false
  | [], _ :: _ => true
  | x :: s', y :: t' => (x <? y) || ((x =? y) && bytes_ltb s' t')
  end.

Lemma bytes_ltb_irrefl s : bytes_ltb s s = false.
Proof. induction s as [|x s IH]; simpl; [done|]. rewrite IH, Z.ltb_irrefl, andb_false_r. done. Qed.

Lemma bytes_ltb_trans s t u :
  bytes_ltb s t = true -> bytes_ltb t u = true -> bytes_ltb s u = true.
Proof.
  revert t u. induction s as [|x s IH]; intros [|y t] [|z u]; simpl; try done.
  rewrite !orb_true_iff, !andb_true_iff, !Z.ltb_lt, !Z.eqb_eq.
  intros [?|[-> ?]] [?|[-> ?]]; [left; lia|left; lia|left; lia|right].
  split; [done|]. eauto.
Qed.

Lemma bytes_ltb_total s t : bytes_ltb s t = true \/ s = t \/ bytes_ltb t s = true.
Proof.
  revert t. induction s as [|x s IH]; intros [|y t]; simpl; auto.
  destruct (Z.lt_trichotomy x y) as [?|[->|?]].
  - left. rewrite (proj2 (Z.ltb_lt x y)) by lia. done.
  - rewrite Z.ltb_irrefl, Z.eqb_refl. simpl.
    destruct (IH t) as [?|[->|?]]; auto.
  - right; right. rewrite (proj2 (Z.ltb_lt y x)) by lia. done.
Qed.

Lemma bytes_ltb_asym s t : bytes_ltb s t = true -> bytes_ltb t s = false.
Proof.
  intros H. destruct (bytes_ltb t s) eqn:E; [|done].
  pose proof (bytes_ltb_trans _ _ _ H E) as C. by rewrite bytes_ltb_irrefl in C.
Qed.

(** ** [std::map] with string keys

    An ordered association list; every operation keeps the keys strictly
    increasing, the iteration order of the container. *)

Abbreviation smap V := (list (bytes * V)).

Definition key_lt {V} (x y : bytes * V) : Prop := bytes_ltb (fst x) (fst y) = true.

Definition smap_ok {V} (m : smap V) : Prop := StronglySorted key_lt m.

(** [m[k] = v] *)
Fixpoint smap_assign {V} (k : bytes) (v : V) (m : smap V) : smap V :=
  match m with
  | [] => [(k, v)]
  | (k', v') :: m' =>
      if bytes_ltb k k' then (k, v) :: m
      else if decide (k = k') then (k, v) :: m'
      else (k', v') :: smap_assign k v m'
  end.

(** [m.find(k)] *)
Fixpoint smap_find {V} (k : bytes) (m : smap V) : option V :=
  match m with
  | [] => None
  | (k', v) :: m' => if decide (k = k') then Some v else smap_find k m'
  end.

(** [std::map{...}] from an initializer list: a later duplicate is ignored. *)
Fixpoint smap_of_list {V} (l : list (bytes * V)) (m : smap V) : smap V :=
  match l with
  | [] => m
  | (k, v) :: l' =>
      smap_of_list l' (match smap_find k m with
                       | Some _ => m
                       | None => smap_assign k v m
                       end)
  end.

Section smap.
Context {V : Type}.
Implicit Types (m : smap V).

Lemma smap_assign_Forall (P : bytes * V -> Prop) k v m :
  P (k, v) -> Forall P m -> Forall P (smap_assign k v m).
Proof.
  intros Hk. induction 1 as [|[k' v'] m Hx Hm IH]; simpl; [auto|].
  case_if; [auto|]. case_decide; auto.
Qed.

Lemma smap_assign_ok k v m : smap_ok m -> smap_ok (smap_assign k v m).
Proof.
  unfold smap_ok. induction 1 as [|[k' v'] m Hm IH Hall]; simpl.
  { repeat constructor. }
  destruct (bytes_ltb k k') eqn:E.
  - constructor; [by constructor|]. constructor; [done|].
    eapply Forall_impl; [exact Hall|]. intros [k2 v2].
    unfold key_lt; simpl. eauto using bytes_ltb_trans.
  - case_decide as Hd; [subst; by constructor|].
    constructor; [done|]. apply smap_assign_Forall; [|done].
    unfold key_lt; simpl. destruct (bytes_ltb_total k k') as [?|[?|?]]; congruence.
Qed.

Lemma smap_find_assign k v k' m :
  smap_find k' (smap_assign k v m) = if decide (k = k') then Some v else smap_find k' m.
Proof.
  induction m as [|[k2 v2] m IH]; simpl.
  { repeat case_decide; congruence. }
  destruct (bytes_ltb k k2); simpl; [repeat case_decide; congruence|].
  destruct (decide (k = k2)); simpl; [repeat case_decide; congruence|].
  rewrite IH. repeat case_decide; congruence.
Qed.

Lemma smap_find_In k v m : smap_find k m = Some v -> (k, v) ∈ m.
Proof.
  induction m as [|[k' v'] m IH]; simpl; [done|].
  case_decide; intros ?; simplify_eq; [left|right; auto].
Qed.

Lemma smap_find_Forall (P : bytes * V -> Prop) k v m :
  Forall P m -> smap_find k m = Some v -> P (k, v).
Proof. intros HF Hf. eapply Forall_forall; [exact HF|]. by apply smap_find_In. Qed.

(** Appending the greatest key is how a sorted input rebuilds the map. *)
Lemma smap_assign_last k v m :
  Forall (fun x => key_lt x (k, v)) m -> smap_assign k v m = m ++ [(k, v)].
Proof.
  induction 1 as [|[k' v'] m Hx Hm IH]; simpl; [done|].
  unfold key_lt in Hx; simpl in Hx. rewrite (bytes_ltb_asym _ _ Hx).
  case_decide; [subst; by rewrite bytes_ltb_irrefl in Hx|]. by rewrite IH.
Qed.
End smap.

#[export] Hint Resolve smap_assign_ok : bt.
