(* ===== verification/CxxLib.v ===== *)
(** * The parts of the C++ standard library the client computes with

    Character classes, [std::to_string], [std::stoul]/[stoll]/[stoi], two-digit
    hexadecimal output and [std::string] searching.  Strings are byte lists;
    the numeric parsers follow [strtoul]/[strtoll] (leading blanks, sign, longest
    digit prefix, trailing characters ignored) and throw as the standard says. *)

From S2P Require Import Prelude.

(** ** Character classes *)

Definition isdigit (b : Z) : bool := (48 <=? b) && (b <=? 57).
Definition isspace (b : Z) : bool := (b =? 32) || ((9 <=? b) && (b <=? 13)).
Definition isupper (b : Z) : bool := (65 <=? b) && (b <=? 90).
Definition islower (b : Z) : bool := (97 <=? b) && (b <=? 122).
Definition isalnum (b : Z) : bool := isdigit b || isupper b || islower b.
Definition tolower (b : Z) : Z := if isupper b then b + 32 else b.

(** ** Decimal output *)

(** The decimal digits of [n >= 0]; [fuel] bounds the number of digits. *)
Fixpoint dec_loop (fuel : nat) (n : Z) (acc : bytes) : bytes :=
  match fuel with
  | O => acc
  | S f => if n <? 10 then (48 + n) :: acc
           else dec_loop f (n / 10) ((48 + n mod 10) :: acc)
  end.

Definition dec_fuel (n : Z) : nat := S (Z.to_nat (Z.log2 n)).

(** [std::to_string] *)
Definition to_string (z : Z) : bytes :=
  if z <? 0 then 45 :: dec_loop (dec_fuel (- z)) (- z) []
  else dec_loop (dec_fuel z) z [].

(** ** Decimal input *)

Definition digits_val_from (a : Z) (s : bytes) : Z :=
  fold_left (fun acc d => 10 * acc + (d - 48)) s a.
Definition digits_val (s : bytes) : Z := digits_val_from 0 s.

(** The longest prefix whose characters satisfy [p]. *)
Fixpoint span (p : Z -> bool) (s : bytes) : bytes :=
  match s with
  | [] => []
  | c :: s' => if p c then c :: span p s' else []
  end.

Fixpoint skip (p : Z -> bool) (s : bytes) : bytes :=
  match s with
  | [] => []
  | c :: s' => if p c then skip p s' else s
  end.

Definition take_sign (s : bytes) : bool * bytes :=
  match s with
  | c :: s' => if c =? 45 then (true, s') else if c =? 43 then (false, s') else (false, s)
  | [] => (false, [])
  end.

(** [strtoul]/[strtoll] in base 10: the sign and the magnitude, [None] when no
    conversion is possible. *)
Definition strto (s : bytes) : option (bool * Z) :=
  let '(neg, s') := take_sign (skip isspace s) in
  match span isdigit s' with
  | [] => None
  | ds => Some (neg, digits_val ds)
  end.

Definition stoul (s : bytes) : result Z :=
  match strto s with
  | None => Throw (InvalidArgument "stoul")
  | Some (neg, m) =>
      if 2 ^ 64 <=? m then Throw (OutOfRange "stoul")
      else Ok (if neg then u64 (- m) else m)
  end.

Definition sto_signed (w : Z) (name : string) (s : bytes) : result Z :=
  match strto s with
  | None => Throw (InvalidArgument name)
  | Some (neg, m) =>
      let v := if neg then - m else m in
      if (v <? - 2 ^ (w - 1)) || (2 ^ (w - 1) <=? v) then Throw (OutOfRange name)
      else Ok v
  end.

Definition stoll (s : bytes) : result Z := sto_signed 64 "stoll" s.
Definition stoi (s : bytes) : result Z := sto_signed 32 "stoi" s.

(** ** Hexadecimal *)

Definition hex_digit (d : Z) : Z := if d <? 10 then 48 + d else 87 + d.
Definition HEX_DIGIT (d : Z) : Z := if d <? 10 then 48 + d else 55 + d.

(** [oss << std::hex << std::setw(2) << std::setfill('0') << unsigned(b)] *)
Definition hex_byte (b : Z) : bytes := [hex_digit (b / 16); hex_digit (b mod 16)].
Definition HEX_BYTE (b : Z) : bytes := [HEX_DIGIT (b / 16); HEX_DIGIT (b mod 16)].

Definition hex_val (c : Z) : option Z :=
  if isdigit c then Some (c - 48)
  else if (97 <=? c) && (c <=? 102) then Some (c - 87)
  else if (65 <=? c) && (c <=? 70) then Some (c - 55)
  else None.

Definition isxdigit (c : Z) : bool := bool_decide (is_Some (hex_val c)).

Definition xdigits_val (s : bytes) : Z :=
  fold_left (fun acc c => 16 * acc + default 0 (hex_val c)) s 0.

(** [std::stoul(s, nullptr, 16)]: an optional [0x] is skipped when a hexadecimal
    digit follows it. *)
Definition skip_0x (s : bytes) : bytes :=
  match s with
  | z :: x :: d :: s' =>
      if (z =? 48) && ((x =? 120) || (x =? 88)) && isxdigit d then d :: s' else s
  | _ => s
  end.

Definition stoul16 (s : bytes) : result Z :=
  let '(neg, s') := take_sign (skip isspace s) in
  match span isxdigit (skip_0x s') with
  | [] => Throw (InvalidArgument "stoul")
  | ds =>
      let m := xdigits_val ds in
      if 2 ^ 64 <=? m then Throw (OutOfRange "stoul")
      else Ok (if neg then u64 (- m) else m)
  end.

(** ** Searching *)

Fixpoint starts_with (pat s : bytes) : bool :=
  match pat, s with
  | [], _ => true
  | _ :: _, [] => false
  | p :: pat', c :: s' => (p =? c) && starts_with pat' s'
  end.

Fixpoint find_at (pat s : bytes) (i : nat) : option nat :=
  if starts_with pat s then Some i
  else match s with
       | [] => None
       | _ :: s' => find_at pat s' (S i)
       end.

(** [s.find(pat, from)]; [None] is [npos]. *)
Definition find (pat s : bytes) (from : nat) : option nat :=
  if (from <=? length s)%nat then find_at pat (drop from s) from else None.

(** ** Facts *)

Lemma dec_loop_app fuel n acc : dec_loop fuel n acc = dec_loop fuel n [] ++ acc.
Proof.
  revert n acc. induction fuel as [|f IH]; intros n acc; simpl; [done|].
  case_if; [done|]. rewrite (IH _ [_]), IH, <- app_assoc. done.
Qed.

Lemma digits_val_from_app a s t :
  digits_val_from a (s ++ t) = digits_val_from (digits_val_from a s) t.
Proof. apply fold_left_app. Qed.

Lemma dec_step n : 10 <= n -> 0 <= n / 10 < n /\ Z.log2 (n / 10) < Z.log2 n.
Proof.
  intros Hn. assert (0 < n / 10 /\ n / 10 * 2 <= n) as [? ?].
  { pose proof (Z.div_mod n 10). pose proof (Z.mod_pos_bound n 10). lia. }
  split; [lia|].
  assert (Z.log2 (n / 10 * 2) <= Z.log2 n) by (apply Z.log2_le_mono; lia).
  rewrite Z.mul_comm, Z.log2_double in * by lia. lia.
Qed.

Lemma dec_loop_spec fuel n :
  0 <= n -> (Z.to_nat (Z.log2 n) < fuel)%nat ->
  digits_val (dec_loop fuel n []) = n /\
  Forall (fun c => isdigit c = true) (dec_loop fuel n []) /\
  dec_loop fuel n [] <> [].
Proof.
  revert n. induction fuel as [|f IH]; intros n Hn Hf; [lia|]. simpl.
  destruct (n <? 10) eqn:E; b2p.
  { split; [unfold digits_val, digits_val_from; simpl; lia|].
    split; [|done]. repeat constructor. unfold isdigit.
    rewrite andb_true_iff, !Z.leb_le. lia. }
  destruct (dec_step n) as [? ?]; [lia|].
  destruct (IH (n / 10)) as (Hv & Hd & Hne); [lia| |].
  { pose proof (Z.log2_nonneg (n / 10)). lia. }
  rewrite dec_loop_app. split; [|split].
  - unfold digits_val in *. rewrite digits_val_from_app, Hv. simpl.
    pose proof (Z.div_mod n 10). lia.
  - apply Forall_app. split; [done|]. repeat constructor. unfold isdigit.
    rewrite andb_true_iff, !Z.leb_le. pose proof (Z.mod_pos_bound n 10). lia.
  - intros [? ?]%app_nil. done.
Qed.

Lemma dec_fuel_enough n : (Z.to_nat (Z.log2 n) < dec_fuel n)%nat.
Proof. unfold dec_fuel. lia. Qed.

(** [to_string] of a natural number is a non-empty digit string of that value. *)
Lemma to_string_digits n :
  0 <= n ->
  digits_val (to_string n) = n /\
  Forall (fun c => isdigit c = true) (to_string n) /\ to_string n <> [].
Proof.
  intros Hn. unfold to_string. rewrite (proj2 (Z.ltb_ge n 0)) by lia.
  apply dec_loop_spec; [lia|apply dec_fuel_enough].
Qed.

Lemma isdigit_byte c : isdigit c = true -> byte_ok c.
Proof. unfold isdigit, byte_ok. intros; b2p. lia. Qed.

Lemma to_string_bytes_ok z : bytes_ok (to_string z).
Proof.
  assert (Hd : forall n, 0 <= n -> bytes_ok (dec_loop (dec_fuel n) n [])).
  { intros n Hn. destruct (dec_loop_spec (dec_fuel n) n Hn (dec_fuel_enough n)) as (_ & H & _).
    eapply Forall_impl; [exact H|]. apply isdigit_byte. }
  unfold to_string. destruct (z <? 0) eqn:E; b2p.
  - constructor; [unfold byte_ok; lia|apply Hd; lia].
  - apply Hd; lia.
Qed.

#[export] Hint Resolve to_string_bytes_ok : bt.

Lemma span_all p s : Forall (fun c => p c = true) s -> span p s = s.
Proof. induction 1 as [|c s Hc Hs IH]; simpl; [done|]. by rewrite Hc, IH. Qed.

Lemma span_app p s c t :
  Forall (fun c => p c = true) s -> p c = false -> span p (s ++ c :: t) = s.
Proof.
  intros Hs Hc. induction Hs as [|x s Hx Hs IH]; simpl; [by rewrite Hc|]. by rewrite Hx, IH.
Qed.

Lemma isdigit_not_blank c :
  isdigit c = true -> isspace c = false /\ (c =? 45) = false /\ (c =? 43) = false.
Proof.
  unfold isdigit, isspace. intros; b2p.
  rewrite orb_false_iff, andb_false_iff, !Z.leb_gt, !Z.eqb_neq. lia.
Qed.

(** A non-empty digit string is read as its value. *)
Lemma strto_digits s :
  Forall (fun c => isdigit c = true) s -> s <> [] -> strto s = Some (false, digits_val s).
Proof.
  intros Hs Hne. destruct s as [|c s]; [done|]. unfold strto.
  inversion Hs as [|? ? Hc ?]; subst.
  destruct (isdigit_not_blank c Hc) as (H1 & H2 & H3).
  cbn [skip take_sign]. rewrite H1. cbn [take_sign]. rewrite H2, H3.
  rewrite span_all by done. done.
Qed.

Lemma strto_minus s :
  Forall (fun c => isdigit c = true) s -> s <> [] ->
  strto (45 :: s) = Some (true, digits_val s).
Proof.
  intros Hs Hne. destruct s as [|c s]; [done|]. unfold strto.
  change (take_sign (skip isspace (45 :: c :: s))) with (true, c :: s).
  cbv beta iota zeta. by rewrite span_all.
Qed.

Lemma stoul_to_string n : 0 <= n < 2 ^ 64 -> stoul (to_string n) = Ok n.
Proof.
  intros Hn. destruct (to_string_digits n) as (Hv & Hd & Hne); [lia|].
  unfold stoul. rewrite strto_digits, Hv by done.
  rewrite (proj2 (Z.leb_gt _ _)) by lia. done.
Qed.

Lemma sto_signed_to_string w name z :
  - 2 ^ (w - 1) <= z < 2 ^ (w - 1) -> sto_signed w name (to_string z) = Ok z.
Proof.
  intros Hz. unfold sto_signed.
  assert (exists neg m, strto (to_string z) = Some (neg, m) /\
            z = if (neg : bool) then - m else m) as (neg & m & -> & <-).
  { destruct (Z.ltb_spec z 0).
    - unfold to_string. rewrite (proj2 (Z.ltb_lt z 0)) by lia.
      destruct (dec_loop_spec (dec_fuel (- z)) (- z)) as (Hv & Hd & Hne);
        [lia|apply dec_fuel_enough|].
      exists true, (- z). rewrite strto_minus, Hv by done. split; [done|lia].
    - destruct (to_string_digits z) as (Hv & Hd & Hne); [lia|].
      exists false, z. rewrite strto_digits, Hv by done. done. }
  rewrite (proj2 (Z.ltb_ge _ _)), (proj2 (Z.leb_gt _ _)) by lia. done.
Qed.

Lemma stoll_to_string z : - 2 ^ 63 <= z < 2 ^ 63 -> stoll (to_string z) = Ok z.
Proof. apply (sto_signed_to_string 64). Qed.

Lemma stoi_to_string z : - 2 ^ 31 <= z < 2 ^ 31 -> stoi (to_string z) = Ok z.
Proof. apply (sto_signed_to_string 32). Qed.

Lemma stoll_range s v : stoll s = Ok v -> - 2 ^ 63 <= v < 2 ^ 63.
Proof.
  unfold stoll, sto_signed. destruct (strto s) as [[neg m]|]; [|done].
  destruct (_ || _) eqn:E; [done|]. intros [= <-]. b2p. lia.
Qed.

Lemma digits_val_from_mono a s :
  0 <= a -> Forall (fun c => isdigit c = true) s -> a <= digits_val_from a s.
Proof.
  intros Ha Hs. revert a Ha. induction Hs as [|c s Hc Hs IH]; intros a Ha; simpl; [lia|].
  unfold isdigit in Hc; b2p. etransitivity; [|apply IH]; lia.
Qed.

Lemma span_Forall p s : Forall (fun c => p c = true) (span p s).
Proof. induction s as [|c s IH]; simpl; [done|]. destruct (p c) eqn:E; auto. Qed.

Lemma stoul_range s v : stoul s = Ok v -> 0 <= v < 2 ^ 64.
Proof.
  unfold stoul, strto. destruct (take_sign _) as [neg s'].
  pose proof (span_Forall isdigit s') as Hd. destruct (span isdigit s') as [|c ds]; [done|].
  destruct (_ <=? _) eqn:E; [done|]. intros [= <-]. b2p.
  pose proof (digits_val_from_mono 0 _ ltac:(lia) Hd) as H0. fold (digits_val (c :: ds)) in H0.
  destruct neg; [|lia]. unfold u64. apply Z.mod_pos_bound. lia.
Qed.

(** Hexadecimal output is read back. *)
Lemma hex_val_digit d : 0 <= d < 16 -> hex_val (hex_digit d) = Some d.
Proof.
  intros Hd. assert (d = 0 \/ d = 1 \/ d = 2 \/ d = 3 \/ d = 4 \/ d = 5 \/ d = 6 \/ d = 7 \/
    d = 8 \/ d = 9 \/ d = 10 \/ d = 11 \/ d = 12 \/ d = 13 \/ d = 14 \/ d = 15) by lia.
  destruct_or?; by subst.
Qed.

Lemma stoul16_hex_byte b : byte_ok b -> stoul16 (hex_byte b) = Ok b.
Proof.
  intros Hb. unfold byte_ok in Hb.
  assert (0 <= b / 16 < 16).
  { split; [apply Z.div_pos; lia|apply Z.div_lt_upper_bound; lia]. }
  assert (Hm : 0 <= b mod 16 < 16) by (apply Z.mod_pos_bound; lia).
  assert (Hx : forall d, 0 <= d < 16 ->
    isspace (hex_digit d) = false /\ (hex_digit d =? 45) = false /\
    (hex_digit d =? 43) = false /\ isxdigit (hex_digit d) = true).
  { intros d Hd. unfold isxdigit. rewrite hex_val_digit by done.
    unfold isspace, hex_digit. destruct (d <? 10) eqn:E; b2p;
      rewrite ?orb_false_iff, ?andb_false_iff, !Z.leb_gt, !Z.eqb_neq, bool_decide_eq_true;
      (split; [lia|split; [lia|split; [lia|eauto]]]). }
  destruct (Hx (b / 16)) as (S1 & M1 & P1 & X1); [done|].
  destruct (Hx (b mod 16)) as (_ & _ & _ & X2); [done|].
  unfold stoul16, hex_byte. cbn [skip]. rewrite S1. cbn [take_sign]. rewrite M1, P1.
  cbn [skip_0x span]. rewrite X1, X2.
  unfold xdigits_val; cbn [fold_left]. rewrite !hex_val_digit by done. simpl default.
  replace (16 * (16 * 0 + b / 16) + b mod 16) with b by (pose proof (Z.div_mod b 16); lia).
  rewrite (proj2 (Z.leb_gt _ _)) by lia. done.
Qed.

Lemma starts_with_app p s : starts_with p (p ++ s) = true.
Proof. induction p as [|x p IH]; simpl; [done|]. by rewrite Z.eqb_refl, IH. Qed.

Lemma starts_with_app_r pat s t : starts_with pat s = true -> starts_with pat (s ++ t) = true.
Proof.
  revert s. induction pat as [|p pat IH]; intros [|c s]; cbn; try done.
  intros [Hp Hs]%andb_true_iff. by rewrite Hp, IH.
Qed.
