(* ===== verification/Ownership.v ===== *)
(** * Objects that own a resource
    (the move-only classes: [TCPSocket], [UDPSocket], [SSLSocket] and [UPnPPortMapping])

    Each of these classes deletes its copy operations; a move hands the resource over and
    leaves the source empty, a move assignment first gives back what the target holds, and
    so does the destructor.  A class says what its objects hold and what giving it back
    does ([Movable], with its laws [MovableOk]); the objects of a program live at addresses
    and every history of constructions, moves and destructions is a list of [ObjectOp].
    Whatever the history, each resource has one owner or was given back once
    ([object_run_owned]). *)

From S2P Require Import Prelude.

(** [give_back] is the object afterwards and what it gave back; [can_close]: whether the
    class has a member function that releases early. *)
Class Movable (O R : Type) := {
  holds : O -> list R;
  give_back : O -> O * list R;
  after_move : O -> O;
  can_close : bool }.

Class MovableOk (O R : Type) {MV : Movable O R} : Prop := {
  release_gives m : (give_back m).2 = holds m;
  released_empty m : holds (give_back m).1 = [];
  moved_empty m : holds (after_move m) = [] }.

Section objects.
Context {O R : Type} {MV : Movable O R} {MO : MovableOk O R}.

Abbreviation Objects := (gmap nat O).

(** An operation on an address that holds no object, or that constructs one where an
    object lives, is not a step of a program. *)
Inductive ObjectOp :=
  | Created (x : nat) (m : O)
  | MoveConstruct (dst src : nat)
  | MoveAssign (dst src : nat)
  | Close (x : nat)
  | Destroy (x : nat).

(** The second component lists what was given back. *)
Definition object_step (st : Objects * list R) (op : ObjectOp) : Objects * list R :=
  let '(o, back) := st in
  match op with
  | Created x m => match o !! x with Some _ => st | None => (<[x := m]> o, back) end
  | MoveConstruct dst src =>
      match o !! dst, o !! src with
      | None, Some s => (<[src := after_move s]> (<[dst := s]> o), back)
      | _, _ => st
      end
  | MoveAssign dst src =>
      if decide (dst = src) then st
      else match o !! dst, o !! src with
           | Some d, Some s => (<[src := after_move s]> (<[dst := s]> o), back ++ (give_back d).2)
           | _, _ => st
           end
  | Close x =>
      match o !! x with
      | Some m => if can_close then (<[x := (give_back m).1]> o, back ++ (give_back m).2) else st
      | None => st
      end
  | Destroy x =>
      match o !! x with
      | Some m => (delete x o, back ++ (give_back m).2)
      | None => st
      end
  end.

Definition object_run (ops : list ObjectOp) : Objects * list R :=
  fold_left object_step ops (∅, []).

(** The resources that came into being: those of the constructions that took place. *)
Definition step_created (st : Objects * list R) (op : ObjectOp) : list R :=
  match op with
  | Created x m => match st.1 !! x with Some _ => [] | None => holds m end
  | _ => []
  end.

Fixpoint created_by (st : Objects * list R) (ops : list ObjectOp) : list R :=
  match ops with
  | [] => []
  | op :: ops' => step_created st op ++ created_by (object_step st op) ops'
  end.

(** What the live objects own. *)
Definition owned (o : Objects) : list R := concat (map holds (map_to_list o).*2).

#[local] Instance concat_map_perm {A B} (f : A -> list B) :
  Proper ((≡ₚ) ==> (≡ₚ)) (fun l => concat (map f l)).
Proof.
  intros l l' H. induction H as [|x l l' _ IH|x y l|l1 l2 l3 _ IH1 _ IH2]; cbn; [done|by rewrite IH| |].
  - by rewrite !app_assoc, (Permutation_app_comm (f y) (f x)).
  - by rewrite IH1.
Qed.

Lemma owned_empty : owned ∅ = [].
Proof. unfold owned. by rewrite map_to_list_empty. Qed.

Lemma owned_insert o x m : o !! x = None -> owned (<[x := m]> o) ≡ₚ holds m ++ owned o.
Proof.
  intros Hx. unfold owned. pose proof (map_to_list_insert o x m Hx) as Hp.
  apply (fmap_Permutation snd) in Hp. exact (concat_map_perm holds _ _ Hp).
Qed.

Lemma owned_delete o x m : o !! x = Some m -> owned o ≡ₚ holds m ++ owned (delete x o).
Proof.
  intros Hx. rewrite <- (insert_delete_id o x m Hx) at 1. apply owned_insert, lookup_delete_eq.
Qed.

Lemma owned_update o x m m' :
  o !! x = Some m -> holds m ++ owned (<[x := m']> o) ≡ₚ holds m' ++ owned o.
Proof.
  intros Hx. rewrite <- insert_delete_eq, (owned_insert (delete x o)) by apply lookup_delete_eq.
  rewrite (owned_delete o x m Hx). rewrite !app_assoc. apply Permutation_app_tail, Permutation_app_comm.
Qed.

(** Moving hands the resource over. *)
Lemma owned_move o dst src d s :
  dst <> src -> o !! dst = d -> o !! src = Some s ->
  from_option holds [] d ++ owned (<[src := after_move s]> (<[dst := s]> o)) ≡ₚ owned o.
Proof.
  intros Hne Hd Hs. apply (Permutation_app_inv_l (holds s)).
  assert (<[dst := s]> o !! src = Some s) as Hs' by (by rewrite lookup_insert_ne).
  rewrite (Permutation_app_swap_app (holds s)), (owned_update _ src s (after_move s) Hs').
  rewrite moved_empty. cbn [app]. destruct d as [d|]; cbn [from_option app].
  - by rewrite (owned_update o dst d s Hd).
  - by apply owned_insert.
Qed.

Lemma object_step_owned st op :
  owned (object_step st op).1 ++ (object_step st op).2
  ≡ₚ step_created st op ++ owned st.1 ++ st.2.
Proof.
  destruct st as [o back]. destruct op as [x m|dst src|dst src|x|x]; cbn [object_step step_created fst snd].
  - destruct (o !! x) as [y|] eqn:Hx; cbn [fst snd app]; [done|].
    by rewrite owned_insert, <- app_assoc.
  - destruct (o !! dst) eqn:Hd; [done|]. destruct (o !! src) as [s|] eqn:Hs; [|done].
    cbn [fst snd app]. assert (dst <> src) by congruence.
    by rewrite <- (owned_move o dst src None s).
  - destruct (decide (dst = src)); [done|].
    destruct (o !! dst) as [d|] eqn:Hd; [|done]. destruct (o !! src) as [s|] eqn:Hs; [|done].
    cbn [fst snd app]. rewrite release_gives.
    rewrite <- (owned_move o dst src (Some d) s) by done. cbn [from_option].
    rewrite <- app_assoc. rewrite (Permutation_app_comm back). apply Permutation_app_swap_app.
  - destruct (o !! x) as [m|] eqn:Hx; [|done]. destruct can_close; [|done]. cbn [fst snd app].
    rewrite release_gives, (Permutation_app_comm back), app_assoc.
    rewrite (Permutation_app_comm _ (holds m)), (owned_update o x m (give_back m).1 Hx).
    by rewrite released_empty.
  - destruct (o !! x) as [m|] eqn:Hx; [|done]. cbn [fst snd app]. rewrite release_gives.
    rewrite (owned_delete o x m Hx). rewrite <- app_assoc, (Permutation_app_comm back).
    apply Permutation_app_swap_app.
Qed.

Lemma object_run_owned_from ops st :
  let st' := fold_left object_step ops st in
  owned st'.1 ++ st'.2 ≡ₚ created_by st ops ++ owned st.1 ++ st.2.
Proof.
  revert st. induction ops as [|op ops IH]; intros st; [done|].
  cbn [fold_left created_by]. rewrite (IH (object_step st op)), object_step_owned.
  rewrite !app_assoc. apply Permutation_app_tail, Permutation_app_tail, Permutation_app_comm.
Qed.

(** Every resource has one owner or was given back once; once no object is left, each was
    given back. *)
Lemma object_run_owned ops :
  let st := object_run ops in
  created_by (∅, []) ops ≡ₚ owned st.1 ++ st.2
  /\ (st.1 = ∅ -> created_by (∅, []) ops ≡ₚ st.2).
Proof.
  intros st. assert (created_by (∅, []) ops ≡ₚ owned st.1 ++ st.2) as Hp.
  { unfold st, object_run. rewrite (object_run_owned_from ops (∅, [])). cbn [fst snd].
    by rewrite owned_empty, app_nil_r. }
  split; [done|]. intros E. by rewrite E, owned_empty in Hp.
Qed.
End objects.

Arguments ObjectOp : clear implicits.
