(* ===== verification/ByteOrder.v ===== *)
(** * Big-endian reads and writes (inc/byte_order.h)

    [write_be*] is the bytes it stores at the pointer it is given; [read_be*]
    reads the first bytes of its argument.  A read past the end of the buffer is
    undefined in C++; every caller checks the length first, and the model returns
    0 there. *)

From S2P Require Import Prelude.

(** ** Definitions *)

Definition write_be16 (val : Z) : bytes := [u8 (Z.shiftr val 8); u8 val].

Definition write_be32 (val : Z) : bytes :=
  [u8 (Z.shiftr val 24); u8 (Z.shiftr val 16); u8 (Z.shiftr val 8); u8 val].

Definition write_be64 (val : Z) : bytes :=
  [u8 (Z.shiftr val 56); u8 (Z.shiftr val 48); u8 (Z.shiftr val 40); u8 (Z.shiftr val 32);
   u8 (Z.shiftr val 24); u8 (Z.shiftr val 16); u8 (Z.shiftr val 8); u8 val].

Definition read_be16 (buf : bytes) : Z :=
  match buf with
  | b0 :: b1 :: _ => Z.lor (Z.shiftl b0 8) b1
  | _ => 0
  end.

Definition read_be32 (buf : bytes) : Z :=
  match buf with
  | b0 :: b1 :: b2 :: b3 :: _ =>
      Z.lor (Z.lor (Z.lor (Z.shiftl b0 24) (Z.shiftl b1 16)) (Z.shiftl b2 8)) b3
  | _ => 0
  end.

Definition read_be64 (buf : bytes) : Z :=
  match buf with
  | b0 :: b1 :: b2 :: b3 :: b4 :: b5 :: b6 :: b7 :: _ =>
      Z.lor (Z.lor (Z.lor (Z.lor (Z.lor (Z.lor (Z.lor
        (Z.shiftl b0 56) (Z.shiftl b1 48)) (Z.shiftl b2 40)) (Z.shiftl b3 32))
        (Z.shiftl b4 24)) (Z.shiftl b5 16)) (Z.shiftl b6 8)) b7
  | _ => 0
  end.

(** ** Shifts and sums *)

Lemma lor_shiftl_add x y n :
  0 <= n -> 0 <= y < 2 ^ n -> Z.lor (Z.shiftl x n) y = x * 2 ^ n + y.
Proof.
  intros Hn Hy. rewrite <- Z.shiftl_mul_pow2 by lia.
  assert (Z.land (Z.shiftl x n) y = 0) as E.
  { apply Z.bits_inj'. intros i Hi. rewrite Z.land_spec, Z.bits_0.
    destruct (Z.ltb_spec i n).
    - rewrite Z.shiftl_spec_low by lia. done.
    - rewrite <- (Z.mod_small y (2 ^ n)) by lia.
      rewrite Z.mod_pow2_bits_high by lia. apply andb_false_r. }
  rewrite Z.add_nocarry_lxor by done. by rewrite Z.lxor_lor.
Qed.

Lemma lor_shiftl_shiftl_add a x n m :
  0 <= m <= n -> 0 <= x < 2 ^ (n - m) ->
  Z.lor (Z.shiftl a n) (Z.shiftl x m) = Z.shiftl (a * 2 ^ (n - m) + x) m.
Proof.
  intros Hm Hx. rewrite <- lor_shiftl_add by lia.
  rewrite Z.shiftl_lor, Z.shiftl_shiftl by lia.
  by replace (n - m + m) with n by lia.
Qed.

Lemma u8_range z : byte_ok (u8 z).
Proof. unfold u8, byte_ok. apply Z.mod_pos_bound. lia. Qed.

Lemma u8_shiftr z n : 0 <= n -> u8 (Z.shiftr z n) = z / 2 ^ n mod 256.
Proof. intros. unfold u8. by rewrite Z.shiftr_div_pow2. Qed.

Lemma write_be16_ok v : bytes_ok (write_be16 v).
Proof. repeat constructor; apply u8_range. Qed.
Lemma write_be32_ok v : bytes_ok (write_be32 v).
Proof. repeat constructor; apply u8_range. Qed.
Lemma write_be64_ok v : bytes_ok (write_be64 v).
Proof. repeat constructor; apply u8_range. Qed.

#[export] Hint Resolve write_be16_ok write_be32_ok write_be64_ok u8_range : bt.

(** The value of big-endian bytes, the reference the reads are compared with. *)
Definition be_val (s : bytes) : Z := fold_left (fun a b => a * 256 + b) s 0.

Lemma read_be16_val b0 b1 s :
  bytes_ok [b0; b1] -> read_be16 (b0 :: b1 :: s) = be_val [b0; b1].
Proof.
  unfold bytes_ok, byte_ok. intros H. decompose_Forall. unfold read_be16, be_val; simpl.
  rewrite lor_shiftl_add by lia. lia.
Qed.

Lemma read_be32_val b0 b1 b2 b3 s :
  bytes_ok [b0; b1; b2; b3] ->
  read_be32 (b0 :: b1 :: b2 :: b3 :: s) = be_val [b0; b1; b2; b3].
Proof.
  unfold bytes_ok, byte_ok. intros H. decompose_Forall. unfold read_be32, be_val; cbn [fold_left].
  rewrite !lor_shiftl_shiftl_add, lor_shiftl_add by (simpl; lia).
  simpl; lia.
Qed.

Lemma read_be64_val b0 b1 b2 b3 b4 b5 b6 b7 s :
  bytes_ok [b0; b1; b2; b3; b4; b5; b6; b7] ->
  read_be64 (b0 :: b1 :: b2 :: b3 :: b4 :: b5 :: b6 :: b7 :: s)
  = be_val [b0; b1; b2; b3; b4; b5; b6; b7].
Proof.
  unfold bytes_ok, byte_ok. intros H. decompose_Forall. unfold read_be64, be_val; cbn [fold_left].
  rewrite !lor_shiftl_shiftl_add, lor_shiftl_add by (simpl; lia).
  simpl; lia.
Qed.

(** ** Round trips *)

Lemma read_write_be16 v s : 0 <= v < 2 ^ 16 -> read_be16 (write_be16 v ++ s) = v.
Proof.
  intros Hv. unfold write_be16. simpl app.
  rewrite read_be16_val by apply write_be16_ok.
  unfold be_val; cbn [fold_left]. rewrite u8_shiftr by lia. unfold u8.
  Z.to_euclidean_division_equations; lia.
Qed.

Lemma read_write_be32 v s : 0 <= v < 2 ^ 32 -> read_be32 (write_be32 v ++ s) = v.
Proof.
  intros Hv. unfold write_be32. simpl app.
  rewrite read_be32_val by apply write_be32_ok.
  unfold be_val; cbn [fold_left]. rewrite !u8_shiftr by lia. unfold u8.
  Z.to_euclidean_division_equations; lia.
Qed.

Lemma div_div_256 v m n : 0 <= n -> m = n + 8 -> v / 2 ^ m = v / 2 ^ n / 256.
Proof. intros ? ->. rewrite Z.pow_add_r by lia. rewrite Z.div_div by lia. done. Qed.

Lemma read_write_be64 v s : 0 <= v < 2 ^ 64 -> read_be64 (write_be64 v ++ s) = v.
Proof.
  intros Hv. unfold write_be64. simpl app.
  rewrite read_be64_val by apply write_be64_ok.
  unfold be_val; cbn [fold_left]. rewrite !u8_shiftr by lia. unfold u8.
  rewrite (div_div_256 v 56 48), (div_div_256 v 48 40), (div_div_256 v 40 32),
    (div_div_256 v 32 24), (div_div_256 v 24 16), (div_div_256 v 16 8),
    (div_div_256 v 8 0) by lia.
  rewrite Z.pow_0_r, Z.div_1_r.
  Z.to_euclidean_division_equations; lia.
Qed.

Lemma read_be32_range buf : bytes_ok buf -> 0 <= read_be32 buf < 2 ^ 32.
Proof.
  intros H. destruct buf as [|b0 [|b1 [|b2 [|b3 s]]]]; [simpl; lia..|].
  unfold bytes_ok in H. rewrite !Forall_cons in H.
  destruct H as (? & ? & ? & ? & _).
  rewrite read_be32_val by (repeat (apply Forall_cons; split; [done|]); done).
  unfold byte_ok in *. unfold be_val; simpl. lia.
Qed.

Lemma read_be16_range buf : bytes_ok buf -> 0 <= read_be16 buf < 2 ^ 16.
Proof.
  intros H. destruct buf as [|b0 [|b1 s]]; [simpl; lia..|].
  unfold bytes_ok in H. rewrite !Forall_cons in H. destruct H as (? & ? & _).
  rewrite read_be16_val by (repeat (apply Forall_cons; split; [done|]); done).
  unfold byte_ok in *. unfold be_val; simpl. lia.
Qed.

(** Reading four bytes and writing them back restores them. *)
Lemma write_read_be32 b0 b1 b2 b3 s :
  bytes_ok [b0; b1; b2; b3] ->
  write_be32 (read_be32 (b0 :: b1 :: b2 :: b3 :: s)) = [b0; b1; b2; b3].
Proof.
  intros H. rewrite read_be32_val by done. unfold write_be32, be_val; cbn [fold_left].
  unfold bytes_ok, byte_ok in H. decompose_Forall.
  rewrite !u8_shiftr by lia. unfold u8.
  repeat f_equal; Z.to_euclidean_division_equations; lia.
Qed.

Lemma write_read_be16 b0 b1 s :
  bytes_ok [b0; b1] -> write_be16 (read_be16 (b0 :: b1 :: s)) = [b0; b1].
Proof.
  intros H. rewrite read_be16_val by done. unfold write_be16, be_val; cbn [fold_left].
  unfold bytes_ok, byte_ok in H. decompose_Forall.
  rewrite !u8_shiftr by lia. unfold u8.
  repeat f_equal; Z.to_euclidean_division_equations; lia.
Qed.
