(* ===== verification/Bencode.v ===== *)
(** * Bencode: values, encoder and parser

    inc/bencode/bencode_types.h, src/bencode/bencode_encoder.cpp and
    src/bencode/bencode_parser.cpp.  A parser object is its byte vector
    [metadata] and its position [pos]; each member function takes both and
    returns the new position, or the exception it throws.  The recursive descent
    runs on fuel; [parse_value] gives it one unit more than there are bytes, and
    [parse_no_out_of_fuel] shows that this is always enough.  The depth of the native
    stack is not modelled, nor that [std::isdigit] is called on a char that may be
    negative (here it answers false). *)

From S2P Require Import Prelude CxxLib.

(** ** Values (bencode_types.h) *)

Unset Elimination Schemes.
Inductive BType :=
  | BInteger (value : Z)
  | BString (content : bytes)
  | BList (content : list BType)
  | BDict (content : list (bytes * BType)).
Set Elimination Schemes.

(** The induction principle that reaches into lists and dictionaries. *)
Section BType_induction.
Variable P : BType -> Prop.
Hypothesis HI : forall z, P (BInteger z).
Hypothesis HS : forall s, P (BString s).
Hypothesis HL : forall l, Forall P l -> P (BList l).
Hypothesis HD : forall d, Forall (fun x => P (snd x)) d -> P (BDict d).

Fixpoint BType_ind (v : BType) : P v :=
  match v with
  | BInteger z => HI z
  | BString s => HS s
  | BList l => HL l ((fix go l : Forall P l :=
      match l with
      | [] => Forall_nil_2 P
      | x :: l' => Forall_cons_2 P x l' (BType_ind x) (go l')
      end) l)
  | BDict d => HD d ((fix go d : Forall (fun x => P (snd x)) d :=
      match d with
      | [] => Forall_nil_2 _
      | x :: d' => Forall_cons_2 _ x d' (BType_ind (snd x)) (go d')
      end) d)
  end.
End BType_induction.

(** [BDict::has_key] *)
Definition has_key (d : smap BType) (key : bytes) : bool :=
  match smap_find key d with Some _ => true | None => false end.

Definition no_key : exn := RuntimeError "The dictionary doesn't contain the key".
Definition wrong_type : exn := RuntimeError "Wrong type of the value for key".

(** [BDict::get_val<T>], one definition per instance of the template. *)
Definition get_val_string (d : smap BType) (key : bytes) : result bytes :=
  match smap_find key d with
  | None => Throw no_key
  | Some (BString s) => Ok s
  | Some _ => Throw wrong_type
  end.

Definition get_val_integer (d : smap BType) (key : bytes) : result Z :=
  match smap_find key d with
  | None => Throw no_key
  | Some (BInteger z) => Ok z
  | Some _ => Throw wrong_type
  end.

Definition get_val_list (d : smap BType) (key : bytes) : result (list BType) :=
  match smap_find key d with
  | None => Throw no_key
  | Some (BList l) => Ok l
  | Some _ => Throw wrong_type
  end.

Definition get_val_dict (d : smap BType) (key : bytes) : result (smap BType) :=
  match smap_find key d with
  | None => Throw no_key
  | Some (BDict m) => Ok m
  | Some _ => Throw wrong_type
  end.

(** [as<T>] *)
Definition as_string (v : BType) : result bytes :=
  match v with BString s => Ok s | _ => Throw (RuntimeError "Unexpected BType") end.
Definition as_list (v : BType) : result (list BType) :=
  match v with BList l => Ok l | _ => Throw (RuntimeError "Unexpected BType") end.
Definition as_dict (v : BType) : result (smap BType) :=
  match v with BDict d => Ok d | _ => Throw (RuntimeError "Unexpected BType") end.

(** ** Encoder (bencode_encoder.cpp) *)

Definition enc_integer (v : Z) : bytes := chr "i" :: to_string v ++ [chr "e"].

Definition enc_string (s : bytes) : bytes :=
  to_string (Z.of_nat (length s)) ++ chr ":" :: s.

Definition enc_list (items : list bytes) : bytes := chr "l" :: concat items ++ [chr "e"].

Definition enc_dict (entries : smap bytes) : bytes :=
  chr "d" :: concat (map (fun '(k, v) => enc_string k ++ v) entries) ++ [chr "e"].

(** ** Parser (bencode_parser.cpp) *)

Definition get (metadata : bytes) (pos : nat) : result (Z * nat) :=
  match metadata !! pos with
  | Some b => Ok (b, S pos)
  | None => Throw (RuntimeError "No more metadata left.")
  end.

Definition peek (metadata : bytes) (pos : nat) : result Z :=
  match metadata !! pos with
  | Some b => Ok b
  | None => Throw (RuntimeError "No more metadata left (peek).")
  end.

(** The [for] loop of [parse_byte_string]: the index of the first [':'], or the
    end of the data. *)
Fixpoint scan_length (rest : bytes) (i : nat) : result nat :=
  match rest with
  | [] => Ok i
  | c :: rest' =>
      if c =? chr ":" then Ok i
      else if negb (isdigit c) then
        Throw (RuntimeError "Error parsing the length of the string")
      else scan_length rest' (S i)
  end.

(** The end-of-data test adds two [size_t] values, so the sum wraps; when it
    wraps below the size the string constructor gets an iterator range that
    leaves the vector. *)
Definition parse_byte_string (metadata : bytes) (pos : nat) : result (bytes * nat) :=
  i ← scan_length (drop pos metadata) pos;
  len ← stoul (slice pos i metadata);
  '(c, pos) ← get metadata i;
  _ ← throw_if (negb (c =? chr ":")) (RuntimeError "Missing ':'");
  _ ← throw_if (Z.of_nat (length metadata) <? u64 (Z.of_nat pos + len))
        (RuntimeError "String at the end of the file wasn't finished");
  _ ← throw_if (Z.of_nat (length metadata) <? Z.of_nat pos + len)
        (Undefined "iterator past the end of metadata");
  Ok (slice pos (pos + Z.to_nat len) metadata, (pos + Z.to_nat len)%nat).

(** The [while (peek() != 'e')] loop of [parse_integer]. *)
Fixpoint scan_integer (rest : bytes) (pos : nat) : result nat :=
  match rest with
  | [] => Throw (RuntimeError "No more metadata left (peek).")
  | c :: rest' =>
      if c =? chr "e" then Ok pos
      else if negb (isdigit c) && negb (c =? chr "-") then
        Throw (RuntimeError "Invalid character in integer")
      else scan_integer rest' (S pos)
  end.

Definition parse_integer (metadata : bytes) (pos : nat) : result (Z * nat) :=
  '(c, start) ← get metadata pos;
  _ ← throw_if (negb (c =? chr "i")) (RuntimeError "Integer must start with 'i'");
  stop ← scan_integer (drop start metadata) start;
  '(_, pos) ← get metadata stop;
  value ← stoll (slice start stop metadata);
  Ok (value, pos).

(** The loops of [parse_list] and [parse_dictionary]; [parse] stands for the
    recursive call [parse_bencoding_type()]. *)
Fixpoint list_loop (parse : nat -> result (BType * nat)) (fuel : nat)
    (metadata : bytes) (pos : nat) (content : list BType) : result (list BType * nat) :=
  match fuel with
  | O => Throw OutOfFuel
  | S f =>
      c ← peek metadata pos;
      if c =? chr "e" then Ok (content, pos)
      else
        '(v, pos) ← parse pos;
        list_loop parse f metadata pos (content ++ [v])
  end.

Fixpoint dict_loop (parse : nat -> result (BType * nat)) (fuel : nat)
    (metadata : bytes) (pos : nat) (content : smap BType) : result (smap BType * nat) :=
  match fuel with
  | O => Throw OutOfFuel
  | S f =>
      c ← peek metadata pos;
      if c =? chr "e" then Ok (content, pos)
      else
        '(key, pos) ← parse_byte_string metadata pos;
        '(value, pos) ← parse pos;
        dict_loop parse f metadata pos (smap_assign key value content)
  end.

Definition parse_list (parse : nat -> result (BType * nat)) (fuel : nat)
    (metadata : bytes) (pos : nat) : result (list BType * nat) :=
  '(c, pos) ← get metadata pos;
  _ ← throw_if (negb (c =? chr "l")) (RuntimeError "List must start with 'l'");
  '(content, pos) ← list_loop parse fuel metadata pos [];
  '(c, pos) ← get metadata pos;
  _ ← throw_if (negb (c =? chr "e")) (RuntimeError "List not properly terminated.");
  Ok (content, pos).

Definition parse_dictionary (parse : nat -> result (BType * nat)) (fuel : nat)
    (metadata : bytes) (pos : nat) : result (smap BType * nat) :=
  '(c, pos) ← get metadata pos;
  _ ← throw_if (negb (c =? chr "d")) (RuntimeError "Dictionary must start with 'd'");
  '(content, pos) ← dict_loop parse fuel metadata pos [];
  '(c, pos) ← get metadata pos;
  _ ← throw_if (negb (c =? chr "e")) (RuntimeError "Dictionary not properly terminated.");
  Ok (content, pos).

Fixpoint parse_bencoding_type (fuel : nat) (metadata : bytes) (pos : nat)
    : result (BType * nat) :=
  match fuel with
  | O => Throw OutOfFuel
  | S f =>
      nextChar ← peek metadata pos;
      if nextChar =? chr "i" then
        '(z, pos) ← parse_integer metadata pos; Ok (BInteger z, pos)
      else if nextChar =? chr "l" then
        '(l, pos) ← parse_list (parse_bencoding_type f metadata) f metadata pos;
        Ok (BList l, pos)
      else if nextChar =? chr "d" then
        '(d, pos) ← parse_dictionary (parse_bencoding_type f metadata) f metadata pos;
        Ok (BDict d, pos)
      else if isdigit nextChar then
        '(s, pos) ← parse_byte_string metadata pos; Ok (BString s, pos)
      else Throw (RuntimeError "Unable to parse type")
  end.

(** [Parser(data, ...).parse_value()] on a fresh parser, with the final position. *)
Definition parse_value (metadata : bytes) : result (BType * nat) :=
  parse_bencoding_type (S (length metadata)) metadata 0.

(** The loop of [Parser::parse]: like [dict_loop], and it keeps the raw bytes of
    the last value stored under ["info"]. *)
Fixpoint torrent_loop (fuel : nat) (metadata : bytes) (pos : nat)
    (metadata_dict : smap BType) (info_dict_raw_bytes : bytes)
    : result (smap BType * bytes * nat) :=
  match fuel with
  | O => Throw OutOfFuel
  | S f =>
      c ← peek metadata pos;
      if c =? chr "e" then Ok (metadata_dict, info_dict_raw_bytes, pos)
      else
        '(bs, start) ← parse_byte_string metadata pos;
        '(bt, stop) ← parse_bencoding_type (S (length metadata)) metadata start;
        torrent_loop f metadata stop (smap_assign bs bt metadata_dict)
          (if decide (bs = str "info") then slice start stop metadata
           else info_dict_raw_bytes)
  end.

(** [Parser::parse] up to the [TorrentFile] constructor: its two arguments. *)
Definition parse_torrent (metadata : bytes) : result (smap BType * bytes) :=
  '(c, pos) ← get metadata 0;
  _ ← throw_if (negb (c =? chr "d"))
        (RuntimeError "The content of the .torrent file must be a bencoded dictionary.");
  '(dict, raw, pos) ← torrent_loop (S (length metadata)) metadata pos [] [];
  '(c, _) ← get metadata pos;
  _ ← throw_if (negb (c =? chr "e")) (RuntimeError "Dictionary not properly terminated.");
  Ok (dict, raw).

(** ** Reference encoding *)

(** A value encoded with the encoder functions, dictionaries in key order. *)
Fixpoint encode (v : BType) : bytes :=
  match v with
  | BInteger z => enc_integer z
  | BString s => enc_string s
  | BList l => enc_list (map encode l)
  | BDict d => enc_dict (map (fun '(k, v) => (k, encode v)) d)
  end.

(** Values a parser can return: 64-bit integers, dictionaries ordered by key. *)
Fixpoint wf_btype (v : BType) : Prop :=
  match v with
  | BInteger z => - 2 ^ 63 <= z < 2 ^ 63
  | BString _ => True
  | BList l => (fix all l := match l with [] => True | x :: l' => wf_btype x /\ all l' end) l
  | BDict d =>
      smap_ok d /\
      (fix all d := match d with
                    | [] => True
                    | (_, x) :: d' => wf_btype x /\ all d'
                    end) d
  end.

Lemma wf_BList l : wf_btype (BList l) <-> Forall wf_btype l.
Proof. simpl. induction l as [|x l IH]; [by rewrite Forall_nil|]. by rewrite Forall_cons, IH. Qed.

Lemma wf_BDict d : wf_btype (BDict d) <-> smap_ok d /\ Forall (fun x => wf_btype (snd x)) d.
Proof.
  simpl. apply and_iff_compat_l.
  induction d as [|[k x] d IH]; [by rewrite Forall_nil|]. by rewrite Forall_cons, IH.
Qed.

(** ** Positions *)

Lemma get_Ok md pos c pos' :
  get md pos = Ok (c, pos') <-> md !! pos = Some c /\ pos' = S pos.
Proof. unfold get. destruct (md !! pos); split; [by intros [= <- <-]|by intros [[= <-] ->]|done|by intros []]. Qed.

Lemma peek_Ok md pos c : peek md pos = Ok c <-> md !! pos = Some c.
Proof. unfold peek. destruct (md !! pos); split; congruence. Qed.

Lemma scan_length_bounds rest i j :
  scan_length rest i = Ok j -> (i <= j <= i + length rest)%nat.
Proof.
  revert i. induction rest as [|c rest IH]; intros i; simpl; [intros [= ->]; lia|].
  case_if; [intros [= ->]; lia|]. case_if; [done|]. intros H%IH. lia.
Qed.

Lemma parse_byte_string_progress md pos s pos' :
  parse_byte_string md pos = Ok (s, pos') -> (pos < pos' <= length md)%nat.
Proof.
  unfold parse_byte_string. intros H. inv_result.
  match goal with H : get _ _ = Ok _ |- _ => apply get_Ok in H as [? ->] end.
  match goal with H : scan_length _ _ = Ok _ |- _ => apply scan_length_bounds in H end.
  match goal with H : stoul _ = Ok _ |- _ => apply stoul_range in H end.
  b2p. lia.
Qed.

Lemma scan_integer_bounds rest i j :
  scan_integer rest i = Ok j -> (i <= j < i + length rest)%nat.
Proof.
  revert i. induction rest as [|c rest IH]; intros i; simpl; [done|].
  case_if; [intros [= ->]; lia|]. case_if; [done|]. intros H%IH. lia.
Qed.

Lemma parse_integer_progress md pos z pos' :
  parse_integer md pos = Ok (z, pos') -> (pos < pos' <= length md)%nat.
Proof.
  unfold parse_integer. intros H. inv_result.
  repeat match goal with H : get _ _ = Ok _ |- _ => apply get_Ok in H as [?%lookup_lt_Some ?] end.
  match goal with H : scan_integer _ _ = Ok _ |- _ => apply scan_integer_bounds in H end.
  subst. lia.
Qed.

(** A sub-parser that returns moves forward and stays inside the data. *)
Definition progresses (md : bytes) (parse : nat -> result (BType * nat)) : Prop :=
  forall pos v pos', parse pos = Ok (v, pos') -> (pos < pos' <= length md)%nat.

Lemma list_loop_progress md parse fuel pos acc l pos' :
  progresses md parse ->
  list_loop parse fuel md pos acc = Ok (l, pos') -> (pos <= pos')%nat.
Proof.
  intros Hp. revert pos acc. induction fuel as [|f IH]; intros pos acc; simpl; [done|].
  intros H. inv_result. case_match; inv_result; [lia|].
  match goal with H : parse _ = Ok _ |- _ => apply Hp in H end.
  match goal with H : list_loop _ _ _ _ _ = Ok _ |- _ => apply IH in H end. lia.
Qed.

Lemma dict_loop_progress md parse fuel pos acc d pos' :
  progresses md parse ->
  dict_loop parse fuel md pos acc = Ok (d, pos') -> (pos <= pos')%nat.
Proof.
  intros Hp. revert pos acc. induction fuel as [|f IH]; intros pos acc; simpl; [done|].
  intros H. inv_result. case_match; inv_result; [lia|].
  match goal with H : parse _ = Ok _ |- _ => apply Hp in H end.
  match goal with H : parse_byte_string _ _ = Ok _ |- _ => apply parse_byte_string_progress in H end.
  match goal with H : dict_loop _ _ _ _ _ = Ok _ |- _ => apply IH in H end. lia.
Qed.

Lemma parse_list_progress md parse fuel pos l pos' :
  progresses md parse ->
  parse_list parse fuel md pos = Ok (l, pos') -> (pos < pos' <= length md)%nat.
Proof.
  unfold parse_list. intros Hp H. inv_result.
  repeat match goal with H : get _ _ = Ok _ |- _ => apply get_Ok in H as [?%lookup_lt_Some ?] end.
  match goal with H : list_loop _ _ _ _ _ = Ok _ |- _ => apply list_loop_progress in H; [|done] end.
  subst. lia.
Qed.

Lemma parse_dictionary_progress md parse fuel pos d pos' :
  progresses md parse ->
  parse_dictionary parse fuel md pos = Ok (d, pos') -> (pos < pos' <= length md)%nat.
Proof.
  unfold parse_dictionary. intros Hp H. inv_result.
  repeat match goal with H : get _ _ = Ok _ |- _ => apply get_Ok in H as [?%lookup_lt_Some ?] end.
  match goal with H : dict_loop _ _ _ _ _ = Ok _ |- _ => apply dict_loop_progress in H; [|done] end.
  subst. lia.
Qed.

Lemma parse_progress fuel md : progresses md (parse_bencoding_type fuel md).
Proof.
  induction fuel as [|f IH]; intros pos v pos'; simpl; [done|]. intros H. inv_result.
  repeat case_match; inv_result;
    eauto using parse_integer_progress, parse_byte_string_progress,
      parse_list_progress, parse_dictionary_progress.
Qed.

(** ** Enough fuel *)

Create HintDb no_fuel.

Definition no_fuel {A} (r : result A) : Prop := r <> Throw OutOfFuel.

Lemma no_fuel_bind {A B} (r : result A) (f : A -> result B) :
  no_fuel r -> (forall a, r = Ok a -> no_fuel (f a)) -> no_fuel (r ≫= f).
Proof. unfold no_fuel. destruct r; simpl; [auto|congruence]. Qed.

Lemma no_fuel_throw_if b e : e <> OutOfFuel -> no_fuel (throw_if b e).
Proof. unfold no_fuel. destruct b; simpl; congruence. Qed.

Lemma no_fuel_get md pos : no_fuel (get md pos).
Proof. unfold get, no_fuel. by destruct (md !! pos). Qed.

Lemma no_fuel_peek md pos : no_fuel (peek md pos).
Proof. unfold peek, no_fuel. by destruct (md !! pos). Qed.

Lemma no_fuel_stoul s : no_fuel (stoul s).
Proof. unfold no_fuel, stoul. destruct (strto s) as [[??]|]; [|done]. by case_match. Qed.

Lemma no_fuel_stoll s : no_fuel (stoll s).
Proof. unfold no_fuel, stoll, sto_signed. destruct (strto s) as [[??]|]; [|done]. by case_match. Qed.

Lemma no_fuel_scan_length rest i : no_fuel (scan_length rest i).
Proof. revert i. induction rest as [|c r IH]; intros i; simpl; [done|]. repeat case_match; done. Qed.

Lemma no_fuel_scan_integer rest i : no_fuel (scan_integer rest i).
Proof. revert i. induction rest as [|c r IH]; intros i; simpl; [done|]. repeat case_match; done. Qed.

#[export] Hint Resolve no_fuel_throw_if no_fuel_get no_fuel_peek no_fuel_stoul no_fuel_stoll
  no_fuel_scan_length no_fuel_scan_integer : no_fuel.

(** Walk down a chain of binds, closing the leaves with the hints. *)
Ltac no_fuel_tac :=
  repeat first
    [ apply no_fuel_bind; [solve [eauto with no_fuel]|intros]
    | apply no_fuel_throw_if; discriminate
    | match goal with p : (_ * _)%type |- _ => destruct p end
    | progress cbv beta iota
    | progress unfold mret, result_ret ];
  try solve [eauto with no_fuel]; try (unfold no_fuel; discriminate).

#[export] Hint Extern 2 (no_fuel (throw_if _ _)) => apply no_fuel_throw_if; discriminate : no_fuel.

Lemma no_fuel_parse_byte_string md pos : no_fuel (parse_byte_string md pos).
Proof. unfold parse_byte_string. no_fuel_tac. Qed.

Lemma no_fuel_parse_integer md pos : no_fuel (parse_integer md pos).
Proof. unfold parse_integer. no_fuel_tac. Qed.

#[export] Hint Resolve no_fuel_parse_byte_string no_fuel_parse_integer : no_fuel.

Section fuel.
Context (md : bytes) (parse : nat -> result (BType * nat)) (lim : nat).
Hypothesis Hprog : progresses md parse.
Hypothesis Hsafe : forall pos, (lim <= pos)%nat -> no_fuel (parse pos).

Lemma no_fuel_list_loop fuel pos acc :
  (lim <= pos)%nat -> (length md - pos < fuel)%nat ->
  no_fuel (list_loop parse fuel md pos acc).
Proof.
  revert pos acc. induction fuel as [|f IH]; intros pos acc Hl Hf; [lia|]. simpl.
  apply no_fuel_bind; [auto with no_fuel|]. intros c _. case_if; [no_fuel_tac|].
  apply no_fuel_bind; [auto|]. intros [v pos'] Hv%Hprog. apply IH; lia.
Qed.

Lemma no_fuel_dict_loop fuel pos acc :
  (lim <= pos)%nat -> (length md - pos < fuel)%nat ->
  no_fuel (dict_loop parse fuel md pos acc).
Proof.
  revert pos acc. induction fuel as [|f IH]; intros pos acc Hl Hf; [lia|]. simpl.
  apply no_fuel_bind; [auto with no_fuel|]. intros c _. case_if; [no_fuel_tac|].
  apply no_fuel_bind; [auto with no_fuel|]. intros [k p1] Hk%parse_byte_string_progress.
  apply no_fuel_bind; [apply Hsafe; lia|]. intros [v p2] Hv%Hprog. apply IH; lia.
Qed.
End fuel.

Lemma parse_no_out_of_fuel fuel md pos :
  (length md - pos < fuel)%nat -> no_fuel (parse_bencoding_type fuel md pos).
Proof.
  revert pos. induction fuel as [|f IH]; intros pos Hf; [lia|]. cbn [parse_bencoding_type].
  apply no_fuel_bind; [auto with no_fuel|]. intros c Hc%peek_Ok.
  apply lookup_lt_Some in Hc.
  assert (Hsafe : forall p, (S pos <= p)%nat -> no_fuel (parse_bencoding_type f md p)).
  { intros p Hp. apply IH. lia. }
  case_if; [no_fuel_tac|]. case_if; [|case_if; [|case_if; no_fuel_tac]].
  all: apply no_fuel_bind; [|intros [? ?] _; no_fuel_tac].
  all: unfold parse_list, parse_dictionary;
    apply no_fuel_bind; [auto with no_fuel|]; intros [c' p'] [_ ->]%get_Ok;
    apply no_fuel_bind; [auto with no_fuel|]; intros _ _;
    apply no_fuel_bind; [|intros [? ?] _; no_fuel_tac].
  - eapply (no_fuel_list_loop md _ (S pos)); [apply parse_progress|done|lia|lia].
  - eapply (no_fuel_dict_loop md _ (S pos)); [apply parse_progress|done|lia|lia].
Qed.

(** ** Where the bounds check can be bypassed

    The only undefined behaviour of the parser is the read past the end of
    [parse_byte_string], and it takes a length prefix near 2^64: a run of at least
    twenty decimal digits in the data. *)

Create HintDb harmless.

Definition long_number (md : bytes) : Prop :=
  exists a ds b, md = a ++ ds ++ b /\ Forall (fun c => isdigit c = true) ds /\ (20 <= length ds)%nat.

Lemma digits_val_from_bound a s n :
  0 <= a < 10 ^ n -> 0 <= n -> Forall (fun c => isdigit c = true) s ->
  digits_val_from a s < 10 ^ (n + Z.of_nat (length s)).
Proof.
  intros Ha Hn Hs. revert a n Ha Hn. induction Hs as [|c s Hc Hs IH]; intros a n Ha Hn.
  - cbn [length digits_val_from fold_left]. rewrite Z.add_0_r. lia.
  - unfold isdigit in Hc; b2p. cbn [length digits_val_from fold_left].
    replace (n + Z.of_nat (S (length s))) with ((n + 1) + Z.of_nat (length s)) by lia.
    apply (IH (10 * a + (c - 48))); [|lia]. rewrite Z.pow_add_r, Z.pow_1_r by lia. lia.
Qed.

(** A digit string of at most nineteen digits is a number below 10^19. *)
Lemma stoul_short ds len :
  Forall (fun c => isdigit c = true) ds -> (length ds < 20)%nat -> stoul ds = Ok len ->
  0 <= len < 10 ^ 19.
Proof.
  intros Hd Hl E. pose proof (stoul_range _ _ E) as Hr. split; [lia|]. destruct ds as [|c ds]; [done|].
  unfold stoul in E. rewrite strto_digits in E by done. case_match; simplify_eq.
  eapply Z.lt_le_trans; [by apply (digits_val_from_bound 0 _ 0)|].
  apply Z.pow_le_mono_r; lia.
Qed.

Lemma scan_length_prefix rest i j :
  scan_length rest i = Ok j -> Forall (fun c => isdigit c = true) (take (j - i) rest).
Proof.
  revert i. induction rest as [|c rest IH]; intros i; simpl; [intros _; by rewrite take_nil|].
  case_if; [intros [= ->]; by rewrite Nat.sub_diag|]. case_if; [done|]. intros E.
  pose proof (scan_length_bounds _ _ _ E). apply IH in E.
  replace (j - i)%nat with (S (j - S i)) by lia. constructor; [by destruct (isdigit c)|done].
Qed.

Section harmless.
Context (md : bytes).
Hypothesis Hsize : Z.of_nat (length md) < 2 ^ 62.

Definition harmless {A} (r : result A) : Prop :=
  forall w, r = Throw (Undefined w) -> long_number md.

Lemma harmless_bind {A B} (r : result A) (f : A -> result B) :
  harmless r -> (forall a, r = Ok a -> harmless (f a)) -> harmless (r ≫= f).
Proof. unfold harmless. destruct r as [a|e]; simpl; intros Hr Hf w; [by apply Hf|]. intros [= ->]. eauto. Qed.

Lemma harmless_Ok {A} (a : A) : harmless (Ok a).
Proof. by intros ?. Qed.

Lemma harmless_throw_if b s : harmless (throw_if b (RuntimeError s)).
Proof. intros w. by destruct b. Qed.

Lemma harmless_get pos : harmless (get md pos).
Proof. intros w. unfold get. by destruct (md !! pos). Qed.

Lemma harmless_peek pos : harmless (peek md pos).
Proof. intros w. unfold peek. by destruct (md !! pos). Qed.

Lemma harmless_stoul s : harmless (stoul s).
Proof. intros w. unfold stoul. destruct (strto s) as [[??]|]; [|done]. by case_match. Qed.

Lemma harmless_stoll s : harmless (stoll s).
Proof. intros w. unfold stoll, sto_signed. destruct (strto s) as [[??]|]; [|done]. by case_match. Qed.

Lemma harmless_scan_length rest i : harmless (scan_length rest i).
Proof. revert i. induction rest as [|c r IH]; intros i; simpl; [by intros ?|]. repeat case_match; [by intros ?|by intros ?|done]. Qed.

Lemma harmless_scan_integer rest i : harmless (scan_integer rest i).
Proof. revert i. induction rest as [|c r IH]; intros i; simpl; [by intros ?|]. repeat case_match; [by intros ?|by intros ?|done]. Qed.

Hint Resolve harmless_Ok harmless_throw_if harmless_get harmless_peek harmless_stoul harmless_stoll
  harmless_scan_length harmless_scan_integer : harmless.

Ltac harmless_tac :=
  repeat first
    [ solve [eauto with harmless]
    | apply harmless_bind; [solve [eauto with harmless]|intros [? ?] _]
    | apply harmless_bind; [solve [eauto with harmless]|intros ? _] ].

Lemma harmless_parse_byte_string pos : harmless (parse_byte_string md pos).
Proof.
  unfold parse_byte_string. apply harmless_bind; [auto with harmless|]. intros i Hi.
  apply harmless_bind; [auto with harmless|]. intros len Hlen.
  apply harmless_bind; [auto with harmless|]. intros [c p] [Hc%lookup_lt_Some ->]%get_Ok.
  apply harmless_bind; [auto with harmless|]. intros ? _.
  apply harmless_bind; [auto with harmless|]. intros ? Hw.
  apply harmless_bind; [|intros ? _; auto with harmless]. intros w Hu.
  pose proof (scan_length_bounds _ _ _ Hi). apply scan_length_prefix in Hi.
  unfold slice in Hlen. destruct (decide (length (take (i - pos) (drop pos md)) < 20)%nat) as [Hs|Hs].
  - exfalso. pose proof (stoul_short _ _ Hi Hs Hlen) as Hr. inv_result. b2p.
    unfold u64 in *. destruct (Z.of_nat (length md) <? Z.of_nat (S i) + len) eqn:E; [|done]. b2p.
    rewrite Z.mod_small in * by lia. lia.
  - exists (take pos md), (take (i - pos) (drop pos md)), (drop (i - pos) (drop pos md)).
    rewrite !take_drop. split; [done|]. split; [done|lia].
Qed.

Lemma harmless_parse_integer pos : harmless (parse_integer md pos).
Proof. unfold parse_integer. harmless_tac. Qed.

Hint Resolve harmless_parse_byte_string harmless_parse_integer : harmless.

Lemma harmless_list_loop parse fuel pos acc :
  (forall p, harmless (parse p)) -> harmless (list_loop parse fuel md pos acc).
Proof.
  intros Hp. revert pos acc. induction fuel as [|f IH]; intros pos acc; simpl; [by intros ?|].
  apply harmless_bind; [auto with harmless|]. intros c _. case_if; [auto with harmless|].
  apply harmless_bind; [done|]. by intros [v p'] _.
Qed.

Lemma harmless_dict_loop parse fuel pos acc :
  (forall p, harmless (parse p)) -> harmless (dict_loop parse fuel md pos acc).
Proof.
  intros Hp. revert pos acc. induction fuel as [|f IH]; intros pos acc; simpl; [by intros ?|].
  apply harmless_bind; [auto with harmless|]. intros c _. case_if; [auto with harmless|].
  apply harmless_bind; [auto with harmless|]. intros [k p1] _.
  apply harmless_bind; [done|]. by intros [v p2] _.
Qed.

Hint Resolve harmless_list_loop harmless_dict_loop : harmless.

Lemma harmless_parse_list parse fuel pos :
  (forall p, harmless (parse p)) -> harmless (parse_list parse fuel md pos).
Proof. intros Hp. unfold parse_list. harmless_tac. Qed.

Lemma harmless_parse_dictionary parse fuel pos :
  (forall p, harmless (parse p)) -> harmless (parse_dictionary parse fuel md pos).
Proof. intros Hp. unfold parse_dictionary. harmless_tac. Qed.

Hint Resolve harmless_parse_list harmless_parse_dictionary : harmless.

Lemma harmless_parse fuel pos : harmless (parse_bencoding_type fuel md pos).
Proof.
  revert pos. induction fuel as [|f IH]; intros pos; [by intros ?|]. cbn [parse_bencoding_type].
  apply harmless_bind; [auto with harmless|]. intros c _.
  repeat case_if; try (by intros ?); harmless_tac.
Qed.
End harmless.

(** ** Well-formed results *)

Lemma list_loop_wf md parse fuel pos acc l pos' :
  (forall p v p', parse p = Ok (v, p') -> wf_btype v) ->
  Forall wf_btype acc -> list_loop parse fuel md pos acc = Ok (l, pos') -> Forall wf_btype l.
Proof.
  intros Hp. revert pos acc. induction fuel as [|f IH]; intros pos acc Ha H; simpl in H; [done|].
  inv_result. case_match; inv_result; [done|]. eapply IH; [|done].
  apply Forall_app. eauto.
Qed.

Lemma dict_loop_wf md parse fuel pos acc d pos' :
  (forall p v p', parse p = Ok (v, p') -> wf_btype v) ->
  wf_btype (BDict acc) -> dict_loop parse fuel md pos acc = Ok (d, pos') -> wf_btype (BDict d).
Proof.
  intros Hp. revert pos acc. induction fuel as [|f IH]; intros pos acc Ha H; simpl in H; [done|].
  inv_result. case_match; inv_result; [done|]. eapply IH; [|done].
  apply wf_BDict in Ha as [? ?]. apply wf_BDict.
  split; [auto with bt|]. apply smap_assign_Forall; eauto.
Qed.

Lemma parse_wf fuel md pos v pos' :
  parse_bencoding_type fuel md pos = Ok (v, pos') -> wf_btype v.
Proof.
  revert pos v pos'. induction fuel as [|f IH]; intros pos v pos' H; [done|].
  cbn [parse_bencoding_type] in H. inv_result. repeat case_match; inv_result.
  - match goal with H : parse_integer _ _ = Ok _ |- _ => unfold parse_integer in H end.
    inv_result. simpl. by eapply stoll_range.
  - match goal with H : parse_list _ _ _ _ = Ok _ |- _ => unfold parse_list in H end.
    inv_result. apply wf_BList. by eapply list_loop_wf.
  - match goal with H : parse_dictionary _ _ _ _ = Ok _ |- _ => unfold parse_dictionary in H end.
    inv_result. eapply dict_loop_wf; [done| |done]. apply wf_BDict. repeat constructor.
  - done.
Qed.

(** The strings of a value are made of bytes when the input is. *)
Fixpoint bytes_btype (v : BType) : Prop :=
  match v with
  | BInteger _ => True
  | BString s => bytes_ok s
  | BList l => (fix all l := match l with [] => True | x :: l' => bytes_btype x /\ all l' end) l
  | BDict d =>
      (fix all d := match d with
                    | [] => True
                    | (_, x) :: d' => bytes_btype x /\ all d'
                    end) d
  end.

Lemma bytes_BList l : bytes_btype (BList l) <-> Forall bytes_btype l.
Proof. simpl. induction l as [|x l IH]; [by rewrite Forall_nil|]. by rewrite Forall_cons, IH. Qed.

Lemma bytes_BDict d : bytes_btype (BDict d) <-> Forall (fun x => bytes_btype (snd x)) d.
Proof.
  simpl. induction d as [|[k x] d IH]; [by rewrite Forall_nil|]. by rewrite Forall_cons, IH.
Qed.

Lemma list_loop_bytes md parse fuel pos acc l pos' :
  (forall p v p', parse p = Ok (v, p') -> bytes_btype v) ->
  Forall bytes_btype acc -> list_loop parse fuel md pos acc = Ok (l, pos') -> Forall bytes_btype l.
Proof.
  intros Hp. revert pos acc. induction fuel as [|f IH]; intros pos acc Ha H; simpl in H; [done|].
  inv_result. case_match; inv_result; [done|]. eapply IH; [|done].
  apply Forall_app. eauto.
Qed.

Lemma dict_loop_bytes md parse fuel pos acc d pos' :
  (forall p v p', parse p = Ok (v, p') -> bytes_btype v) ->
  bytes_btype (BDict acc) -> dict_loop parse fuel md pos acc = Ok (d, pos') -> bytes_btype (BDict d).
Proof.
  intros Hp. revert pos acc. induction fuel as [|f IH]; intros pos acc Ha H; simpl in H; [done|].
  inv_result. case_match; inv_result; [done|]. eapply IH; [|done].
  apply bytes_BDict. apply bytes_BDict in Ha. apply smap_assign_Forall; eauto.
Qed.

Lemma parse_bytes fuel md pos v pos' :
  bytes_ok md -> parse_bencoding_type fuel md pos = Ok (v, pos') -> bytes_btype v.
Proof.
  intros Hmd. revert pos v pos'. induction fuel as [|f IH]; intros pos v pos' H; [done|].
  cbn [parse_bencoding_type] in H. inv_result. repeat case_match; inv_result.
  - done.
  - match goal with H : parse_list _ _ _ _ = Ok _ |- _ => unfold parse_list in H end.
    inv_result. apply bytes_BList. by eapply list_loop_bytes.
  - match goal with H : parse_dictionary _ _ _ _ = Ok _ |- _ => unfold parse_dictionary in H end.
    inv_result. eapply dict_loop_bytes; [done| |done]. done.
  - match goal with H : parse_byte_string _ _ = Ok _ |- _ => unfold parse_byte_string in H end.
    inv_result. simpl. unfold slice. auto with bt.
Qed.

(** ** Round trip *)

(** A [std::vector] cannot be larger than half the address space. *)
Definition fits (md : bytes) : Prop := Z.of_nat (length md) < 2 ^ 63.

Lemma scan_length_digits ds rest i :
  Forall (fun c => isdigit c = true) ds ->
  scan_length (ds ++ chr ":" :: rest) i = Ok (i + length ds)%nat.
Proof.
  intros Hds. revert i. induction Hds as [|c ds Hc Hds IH]; intros i; simpl.
  { f_equal. lia. }
  assert ((c =? chr ":") = false) as ->.
  { unfold isdigit in Hc. b2p. apply Z.eqb_neq. change (chr ":") with 58. lia. }
  rewrite Hc. simpl. rewrite IH. f_equal. lia.
Qed.

Lemma get_app p c t : get (p ++ c :: t) (length p) = Ok (c, S (length p)).
Proof. unfold get. by rewrite lookup_app_mid. Qed.

Lemma peek_app p c t : peek (p ++ c :: t) (length p) = Ok c.
Proof. unfold peek. by rewrite lookup_app_mid. Qed.

Lemma parse_byte_string_encode p s t :
  fits (p ++ enc_string s ++ t) ->
  parse_byte_string (p ++ enc_string s ++ t) (length p)
  = Ok (s, (length p + length (enc_string s))%nat).
Proof.
  unfold fits, enc_string. set (ds := to_string (Z.of_nat (length s))).
  destruct (to_string_digits (Z.of_nat (length s))) as (Hv & Hd & Hne); [lia|].
  fold ds in Hv, Hd, Hne. rewrite !length_app. cbn [length]. intros Hfit.
  unfold parse_byte_string. rewrite drop_app_length, <- app_assoc. simpl app.
  rewrite scan_length_digits by done. cbn [mbind result_bind].
  rewrite slice_app_mid.
  replace (stoul ds) with (Ok (Z.of_nat (length s))) by (symmetry; apply stoul_to_string; lia).
  cbn [mbind result_bind].
  rewrite app_assoc, <- length_app, get_app. cbn [mbind result_bind].
  rewrite Z.eqb_refl. cbn [negb throw_if mbind result_bind].
  rewrite (proj2 (Z.ltb_ge _ _)), (proj2 (Z.ltb_ge _ _)).
  2,3: rewrite ?length_app in *; unfold u64; rewrite ?Z.mod_small; cbn [length] in *;
       rewrite ?length_app; lia.
  cbn [throw_if mbind result_bind]. rewrite Nat2Z.id. f_equal.
  replace (S (length (p ++ ds))) with (length ((p ++ ds) ++ [chr ":"]))
    by (rewrite length_app; simpl; lia).
  replace ((p ++ ds) ++ chr ":" :: s ++ t) with (((p ++ ds) ++ [chr ":"]) ++ s ++ t)
    by (by rewrite <- !app_assoc).
  rewrite slice_app_mid. f_equal. rewrite !length_app. simpl. lia.
Qed.

Lemma scan_integer_all ds rest i :
  Forall (fun c => isdigit c || (c =? chr "-") = true) ds ->
  scan_integer (ds ++ chr "e" :: rest) i = Ok (i + length ds)%nat.
Proof.
  intros Hds. revert i. induction Hds as [|c ds Hc Hds IH]; intros i; simpl.
  { f_equal. lia. }
  assert ((c =? chr "e") = false) as ->.
  { apply Z.eqb_neq. change (chr "e") with 101. apply orb_true_iff in Hc as [Hc|Hc].
    - unfold isdigit in Hc. b2p. lia.
    - b2p. change (chr "-") with 45 in Hc. lia. }
  rewrite <- negb_orb, Hc. simpl. rewrite IH. f_equal. lia.
Qed.

Lemma to_string_int_chars z :
  Forall (fun c => isdigit c || (c =? chr "-") = true) (to_string z).
Proof.
  assert (Hd : forall n, 0 <= n ->
    Forall (fun c => isdigit c || (c =? chr "-") = true) (dec_loop (dec_fuel n) n [])).
  { intros n Hn. destruct (dec_loop_spec (dec_fuel n) n Hn (dec_fuel_enough n)) as (_ & H & _).
    eapply Forall_impl; [exact H|]. simpl. intros c ->. done. }
  unfold to_string. destruct (z <? 0) eqn:E; b2p; [constructor; [done|]|]; apply Hd; lia.
Qed.

Lemma parse_integer_encode p z t :
  - 2 ^ 63 <= z < 2 ^ 63 ->
  parse_integer (p ++ enc_integer z ++ t) (length p)
  = Ok (z, (length p + length (enc_integer z))%nat).
Proof.
  intros Hz. unfold parse_integer, enc_integer. simpl app. rewrite get_app.
  cbn [mbind result_bind]. rewrite Z.eqb_refl. cbn [negb throw_if mbind result_bind].
  replace (p ++ chr "i" :: (to_string z ++ [chr "e"]) ++ t)
    with ((p ++ [chr "i"]) ++ to_string z ++ chr "e" :: t) by (by rewrite <- !app_assoc).
  replace (S (length p)) with (length (p ++ [chr "i"])) by (rewrite length_app; simpl; lia).
  rewrite drop_app_length, scan_integer_all by apply to_string_int_chars.
  cbn [mbind result_bind]. rewrite slice_app_mid.
  rewrite app_assoc, <- length_app, get_app. cbn [mbind result_bind].
  rewrite stoll_to_string by done. cbn [mbind result_bind]. f_equal. f_equal.
  rewrite !length_app. simpl. rewrite length_app. simpl. lia.
Qed.

(** What the round trip needs of a sub-parser on the encoding of one value. *)
Definition reads_back (parse : bytes -> nat -> result (BType * nat)) (v : BType) : Prop :=
  forall p t, fits (p ++ encode v ++ t) ->
    parse (p ++ encode v ++ t) (length p) = Ok (v, (length p + length (encode v))%nat).

Lemma encode_head v : exists c s, encode v = c :: s /\ (c =? chr "e") = false.
Proof.
  destruct v as [z|s|l|d]; simpl; [by do 2 eexists| |by do 2 eexists..].
  unfold enc_string.
  destruct (to_string_digits (Z.of_nat (length s))) as (_ & Hd & Hne); [lia|].
  destruct (to_string _) as [|c ds]; [done|]. exists c, (ds ++ chr ":" :: s).
  split; [done|]. inversion Hd as [|? ? Hc ?]; subst. unfold isdigit in Hc. b2p.
  apply Z.eqb_neq. change (chr "e") with 101. lia.
Qed.

Lemma list_loop_encode parse fuel p l t acc :
  let body := concat (map encode l) in
  let md := p ++ body ++ chr "e" :: t in
  fits md -> (length l < fuel)%nat -> Forall (reads_back parse) l ->
  list_loop (parse md) fuel md (length p) acc
  = Ok (acc ++ l, (length p + length body)%nat).
Proof.
  revert fuel p acc. induction l as [|v l IH]; intros fuel p acc body md Hfit Hf HP.
  - destruct fuel as [|f]; [simpl in Hf; lia|]. unfold md, body. simpl.
    rewrite peek_app. simpl. rewrite app_nil_r. do 2 f_equal. lia.
  - destruct fuel as [|f]; [simpl in Hf; lia|]. inversion HP as [|? ? Hv Hl]; subst.
    destruct (encode_head v) as (c & s & Ev & Hc).
    assert (Emd : md = p ++ encode v ++ concat (map encode l) ++ chr "e" :: t).
    { unfold md, body. simpl. by rewrite <- app_assoc. }
    cbn [list_loop]. rewrite Emd at 1. rewrite Ev. simpl app. rewrite peek_app.
    cbn [mbind result_bind]. rewrite Hc. rewrite Emd at 1. rewrite Hv by (by rewrite <- Emd).
    cbn [mbind result_bind]. rewrite <- length_app.
    replace md with ((p ++ encode v) ++ concat (map encode l) ++ chr "e" :: t)
      in * by (rewrite Emd; by rewrite <- app_assoc).
    rewrite IH; [|done|simpl in Hf; lia|done].
    rewrite <- app_assoc. simpl app. do 2 f_equal. unfold body. simpl.
    rewrite !length_app. lia.
Qed.

Lemma dict_loop_encode parse fuel p d t acc :
  let body := concat (map (fun '(k, v) => enc_string k ++ v)
                          (map (fun '(k, v) => (k, encode v)) d)) in
  let md := p ++ body ++ chr "e" :: t in
  fits md -> (length d < fuel)%nat -> smap_ok (acc ++ d) ->
  Forall (fun x => reads_back parse (snd x)) d ->
  dict_loop (parse md) fuel md (length p) acc
  = Ok (acc ++ d, (length p + length body)%nat).
Proof.
  revert fuel p acc. induction d as [|[k v] d IH]; intros fuel p acc body md Hfit Hf Hs HP.
  - destruct fuel as [|f]; [simpl in Hf; lia|]. unfold md, body. simpl.
    rewrite peek_app. simpl. rewrite app_nil_r. do 2 f_equal. lia.
  - destruct fuel as [|f]; [simpl in Hf; lia|]. inversion HP as [|? ? Hv Hl]; subst. simpl in Hv.
    destruct (encode_head (BString k)) as (c & s & Ek & Hc). simpl in Ek.
    set (tl := concat (map (fun '(k, v) => enc_string k ++ v)
                          (map (fun '(k, v) => (k, encode v)) d))) in *.
    assert (Emd : md = p ++ enc_string k ++ encode v ++ tl ++ chr "e" :: t).
    { unfold md, body. simpl. by rewrite <- !app_assoc. }
    cbn [dict_loop]. rewrite Emd at 1. rewrite Ek. simpl app. rewrite peek_app.
    cbn [mbind result_bind]. rewrite Hc. rewrite Emd at 1.
    rewrite parse_byte_string_encode by (by rewrite <- Emd).
    cbn [mbind result_bind]. rewrite <- length_app.
    replace md with ((p ++ enc_string k) ++ encode v ++ tl ++ chr "e" :: t)
      in * by (rewrite Emd; by rewrite <- !app_assoc).
    rewrite Hv by done. cbn [mbind result_bind]. rewrite <- length_app.
    replace ((p ++ enc_string k) ++ encode v ++ tl ++ chr "e" :: t)
      with (((p ++ enc_string k) ++ encode v) ++ tl ++ chr "e" :: t)
      in * by (by rewrite <- !app_assoc).
    rewrite smap_assign_last.
    2: { apply Forall_forall. intros x Hx.
         eapply StronglySorted_app_1_elem_of; [exact Hs|done|left]. }
    rewrite IH; [|done|simpl in Hf; lia|by rewrite <- app_assoc|done].
    rewrite <- app_assoc. simpl app. do 2 f_equal. unfold body. simpl.
    fold tl. rewrite !length_app. lia.
Qed.

Lemma encode_length_pos v : (0 < length (encode v))%nat.
Proof. destruct (encode_head v) as (c & s & -> & _). simpl. lia. Qed.

Lemma concat_encode_length l :
  (length l <= length (concat (map encode l)))%nat /\
  Forall (fun v => (length (encode v) <= length (concat (map encode l)))%nat) l.
Proof.
  induction l as [|v l [IH1 IH2]]; simpl; [auto|]. rewrite length_app.
  pose proof (encode_length_pos v). split; [lia|]. constructor; [lia|].
  eapply Forall_impl; [exact IH2|]. simpl. lia.
Qed.

Lemma concat_dict_length (d : smap BType) :
  let body := concat (map (fun '(k, v) => enc_string k ++ v)
                          (map (fun '(k, v) => (k, encode v)) d)) in
  (length d <= length body)%nat /\
  Forall (fun x => (length (encode (snd x)) <= length body)%nat) d.
Proof.
  induction d as [|[k v] d [IH1 IH2]]; simpl; [auto|]. rewrite !length_app.
  pose proof (encode_length_pos v). split; [simpl in IH1; lia|].
  constructor; [simpl; lia|]. eapply Forall_impl; [exact IH2|]. simpl. intros ? ?. lia.
Qed.

Lemma parse_list_encode parse f l p t :
  let s := enc_list (map encode l) in
  fits (p ++ s ++ t) -> (length s <= S f)%nat -> Forall (reads_back parse) l ->
  parse_list (parse (p ++ s ++ t)) f (p ++ s ++ t) (length p)
  = Ok (l, (length p + length s)%nat).
Proof.
  intros s. unfold s, enc_list. destruct (concat_encode_length l) as [Hl1 _].
  set (body := concat (map encode l)) in *. cbn [app].
  intros Hfit Hf HP. cbn [length] in Hf. rewrite length_app in Hf. cbn [length] in Hf.
  unfold parse_list. rewrite get_app. cbn [mbind result_bind]. rewrite Z.eqb_refl.
  cbn [negb throw_if mbind result_bind].
  replace (p ++ chr "l" :: (body ++ [chr "e"]) ++ t)
    with ((p ++ [chr "l"]) ++ body ++ chr "e" :: t) in * by (by rewrite <- !app_assoc).
  replace (S (length p)) with (length (p ++ [chr "l"])) by (rewrite length_app; simpl; lia).
  unfold body. rewrite (list_loop_encode parse) by (done || lia). fold body.
  cbn [mbind result_bind]. rewrite app_assoc, <- length_app, get_app.
  cbn [mbind result_bind]. rewrite Z.eqb_refl. simpl.
  do 2 f_equal. rewrite !length_app. simpl. lia.
Qed.

Lemma parse_dictionary_encode parse f d p t :
  let s := enc_dict (map (fun '(k, v) => (k, encode v)) d) in
  fits (p ++ s ++ t) -> (length s <= S f)%nat -> smap_ok d ->
  Forall (fun x => reads_back parse (snd x)) d ->
  parse_dictionary (parse (p ++ s ++ t)) f (p ++ s ++ t) (length p)
  = Ok (d, (length p + length s)%nat).
Proof.
  intros s. unfold s, enc_dict. destruct (concat_dict_length d) as [Hl1 _].
  set (body := concat _) in *. cbn [app].
  intros Hfit Hf Hok HP. cbn [length] in Hf. rewrite length_app in Hf. cbn [length] in Hf.
  unfold parse_dictionary. rewrite get_app. cbn [mbind result_bind]. rewrite Z.eqb_refl.
  cbn [negb throw_if mbind result_bind].
  replace (p ++ chr "d" :: (body ++ [chr "e"]) ++ t)
    with ((p ++ [chr "d"]) ++ body ++ chr "e" :: t) in * by (by rewrite <- !app_assoc).
  replace (S (length p)) with (length (p ++ [chr "d"])) by (rewrite length_app; simpl; lia).
  unfold body. rewrite (dict_loop_encode parse) by (done || lia). fold body.
  cbn [mbind result_bind]. rewrite app_assoc, <- length_app, get_app.
  cbn [mbind result_bind]. rewrite Z.eqb_refl. simpl.
  do 2 f_equal. rewrite !length_app. simpl. lia.
Qed.

Lemma enc_string_head s t : exists c s', enc_string s ++ t = c :: s' /\ isdigit c = true.
Proof.
  unfold enc_string.
  destruct (to_string_digits (Z.of_nat (length s))) as (_ & Hd & Hne); [lia|].
  destruct (to_string _) as [|c ds]; [done|]. inversion Hd; subst. by do 2 eexists.
Qed.

Lemma isdigit_not_tag c :
  isdigit c = true ->
  (c =? chr "i") = false /\ (c =? chr "l") = false /\ (c =? chr "d") = false.
Proof.
  unfold isdigit. intros; b2p. rewrite !Z.eqb_neq.
  change (chr "i") with 105; change (chr "l") with 108; change (chr "d") with 100. lia.
Qed.

Lemma parse_encode v : wf_btype v -> forall f, (length (encode v) <= f)%nat ->
  reads_back (parse_bencoding_type f) v.
Proof.
  induction v as [z|s|l IH|d IH] using BType_ind; intros Hwf f Hf;
    (destruct f as [|f];
     [match type of Hf with (length (encode ?v) <= _)%nat =>
        pose proof (encode_length_pos v); lia end|]);
    intros p t Hfit;
    cbn [parse_bencoding_type].
  - change (peek _ _) with (peek (p ++ chr "i" :: (to_string z ++ [chr "e"]) ++ t) (length p)).
    rewrite peek_app. cbn [mbind result_bind]. rewrite Z.eqb_refl.
    cbn [encode]. by rewrite parse_integer_encode.
  - cbn [encode] in *. destruct (enc_string_head s t) as (c & s' & Es & Hc).
    assert (peek (p ++ enc_string s ++ t) (length p) = Ok c) as ->
      by (rewrite Es; apply peek_app).
    cbn [mbind result_bind].
    destruct (isdigit_not_tag c Hc) as (-> & -> & ->).
    rewrite Hc. by rewrite parse_byte_string_encode.
  - apply wf_BList in Hwf. cbn [encode] in *.
    assert (peek (p ++ enc_list (map encode l) ++ t) (length p) = Ok (chr "l")) as ->
      by apply peek_app.
    cbn [mbind result_bind].
    change (chr "l" =? chr "i") with false. rewrite Z.eqb_refl. cbn iota.
    rewrite (parse_list_encode (parse_bencoding_type f)); [done..|].
    destruct (concat_encode_length l) as [_ Hl]. unfold enc_list in Hf.
    cbn [length] in Hf. rewrite length_app in Hf. simpl in Hf.
    rewrite Forall_forall in IH, Hwf, Hl |- *. intros v Hv.
    apply IH; [done|auto|]. specialize (Hl v Hv). simpl in Hl. lia.
  - apply wf_BDict in Hwf as [Hok Hwf]. cbn [encode] in *.
    match goal with |- context [peek ?md _] =>
      assert (peek md (length p) = Ok (chr "d")) as -> by apply peek_app end.
    cbn [mbind result_bind].
    change (chr "d" =? chr "i") with false. change (chr "d" =? chr "l") with false.
    rewrite Z.eqb_refl. cbn iota.
    rewrite (parse_dictionary_encode (parse_bencoding_type f)); [done..|].
    destruct (concat_dict_length d) as [_ Hl]. unfold enc_dict in Hf.
    cbn [length] in Hf. rewrite length_app in Hf. simpl in Hf.
    rewrite Forall_forall in IH, Hwf, Hl |- *. intros x Hx.
    apply IH; [done|auto|]. specialize (Hl x Hx). simpl in Hl. lia.
Qed.

(** ** Torrent files *)

(** The raw bytes [torrent_loop] holds after the entries [d]. *)
Definition info_raw (raw : bytes) (d : smap BType) : bytes :=
  fold_left (fun raw '(k, v) => if decide (k = str "info") then encode v else raw) d raw.

Lemma torrent_loop_encode fuel p d t acc raw :
  let body := concat (map (fun '(k, v) => enc_string k ++ v)
                          (map (fun '(k, v) => (k, encode v)) d)) in
  let md := p ++ body ++ chr "e" :: t in
  fits md -> (length d < fuel)%nat -> smap_ok (acc ++ d) ->
  Forall (fun x => wf_btype (snd x)) d ->
  torrent_loop fuel md (length p) acc raw
  = Ok (acc ++ d, info_raw raw d, (length p + length body)%nat).
Proof.
  revert fuel p acc raw.
  induction d as [|[k v] d IH]; intros fuel p acc raw body md Hfit Hf Hs HP.
  - destruct fuel as [|f]; [simpl in Hf; lia|]. unfold md, body. simpl.
    rewrite peek_app. simpl. rewrite app_nil_r. do 2 f_equal. lia.
  - destruct fuel as [|f]; [simpl in Hf; lia|]. inversion HP as [|? ? Hv Hl]; subst. simpl in Hv.
    destruct (encode_head (BString k)) as (c & s & Ek & Hc). simpl in Ek.
    set (tl := concat (map (fun '(k, v) => enc_string k ++ v)
                          (map (fun '(k, v) => (k, encode v)) d))) in *.
    assert (Emd : md = p ++ enc_string k ++ encode v ++ tl ++ chr "e" :: t).
    { unfold md, body. simpl. by rewrite <- !app_assoc. }
    cbn [torrent_loop]. rewrite Emd at 1. rewrite Ek. simpl app. rewrite peek_app.
    cbn [mbind result_bind]. rewrite Hc. rewrite Emd at 1.
    rewrite parse_byte_string_encode by (by rewrite <- Emd).
    cbn [mbind result_bind]. rewrite <- length_app.
    replace md with ((p ++ enc_string k) ++ encode v ++ tl ++ chr "e" :: t)
      in * by (rewrite Emd; by rewrite <- !app_assoc).
    rewrite (parse_encode v Hv) by (done || rewrite !length_app; lia).
    cbn [mbind result_bind]. rewrite slice_app_mid. rewrite <- length_app.
    replace ((p ++ enc_string k) ++ encode v ++ tl ++ chr "e" :: t)
      with (((p ++ enc_string k) ++ encode v) ++ tl ++ chr "e" :: t)
      in * by (by rewrite <- !app_assoc).
    rewrite smap_assign_last.
    2: { apply Forall_forall. intros x Hx.
         eapply StronglySorted_app_1_elem_of; [exact Hs|done|left]. }
    rewrite IH; [|done|simpl in Hf; lia|by rewrite <- app_assoc|done].
    rewrite <- app_assoc. simpl app. do 2 f_equal. unfold body. simpl.
    fold tl. rewrite !length_app. lia.
Qed.

Lemma info_raw_absent raw d :
  Forall (fun x => fst x <> str "info") d -> info_raw raw d = raw.
Proof.
  intros Hd. revert raw. induction Hd as [|[k v] d Hk Hd IH]; intros raw; simpl; [done|].
  by rewrite decide_False.
Qed.

Lemma info_raw_find raw d v :
  smap_ok d -> smap_find (str "info") d = Some v -> info_raw raw d = encode v.
Proof.
  intros Hok. revert raw. induction Hok as [|[k x] d Hd IH Hall]; intros raw Hf; cbn [smap_find] in Hf; [done|].
  cbn [info_raw fold_left]. case_decide as Ek; simplify_eq.
  - rewrite decide_True by done. apply info_raw_absent.
    eapply Forall_impl; [exact Hall|]. intros [k' x'] Hlt E. cbn [fst] in E. subst.
    unfold key_lt in Hlt; cbn [fst] in Hlt. by rewrite bytes_ltb_irrefl in Hlt.
  - rewrite decide_False by done. by apply IH.
Qed.

(** ** Properties *)

(** C1: decoding inverts encoding.  For every well-formed value, the parser run on
    its encoding followed by arbitrary further bytes returns exactly that value
    and stops right after it. *)
Theorem parse_value_encode v t :
  wf_btype v -> fits (encode v ++ t) ->
  parse_value (encode v ++ t) = Ok (v, length (encode v)).
Proof.
  intros Hwf Hfit. unfold parse_value.
  assert (length (encode v) <= S (length (encode v ++ t)))%nat as Hf
    by (rewrite length_app; lia).
  exact (parse_encode v Hwf _ Hf [] t Hfit).
Qed.

Definition sample_value : BType :=
  BDict [(str "k", BList [BInteger (-42); BString (str "ab")]); (str "z", BDict [])].

Lemma parse_value_encode_witness :
  parse_value (encode sample_value ++ str "rest")
  = Ok (sample_value, length (encode sample_value)).
Proof.
  apply (parse_value_encode sample_value (str "rest")).
  - cbn; unfold smap_ok; repeat (split || constructor); lia.
  - vm_compute. reflexivity.
Defined.

(** C2: the parser is total and stays inside its input.  On every byte string the
    descent ends by itself (the fuel of the model is never exhausted), and a value
    it returns is well formed and was read from a non-empty prefix of the input. *)
Theorem parse_value_total md :
  parse_value md <> Throw OutOfFuel /\
  (forall v pos, parse_value md = Ok (v, pos) ->
     (0 < pos <= length md)%nat /\ wf_btype v).
Proof.
  unfold parse_value. split; [apply parse_no_out_of_fuel; lia|].
  intros v pos H. split; [by eapply parse_progress|by eapply parse_wf].
Qed.

(** The bounds check of a byte string can be bypassed.  The check adds the
    position and the announced length as 64-bit unsigned integers; a length close
    enough to 2^64 makes the sum wrap to a small number, the check passes, and the
    string is built from an iterator range outside the input (undefined
    behaviour) instead of being rejected. *)
Theorem parse_byte_string_wraps len t :
  2 ^ 63 <= len < 2 ^ 64 ->
  2 ^ 64 <= Z.of_nat (S (length (to_string len))) + len ->
  fits (to_string len ++ chr ":" :: t) ->
  parse_byte_string (to_string len ++ chr ":" :: t) 0
  = Throw (Undefined "iterator past the end of metadata").
Proof.
  unfold fits. rewrite length_app. intros Hlen Hwrap Hfit. simpl in Hfit.
  destruct (to_string_digits len) as (_ & Hd & _); [lia|].
  unfold parse_byte_string. rewrite drop_0, scan_length_digits by done.
  cbn [mbind result_bind]. cbn [Nat.add].
  replace (slice 0 _ _) with (to_string len)
    by (symmetry; apply (slice_app_mid [] (to_string len) (chr ":" :: t))).
  rewrite stoul_to_string by lia. cbn [mbind result_bind].
  rewrite get_app. cbn [mbind result_bind]. rewrite Z.eqb_refl.
  cbn [negb throw_if mbind result_bind]. rewrite length_app. cbn [length].
  rewrite (proj2 (Z.ltb_ge _ (u64 _))).
  2: { unfold u64. rewrite <- (Z_mod_plus_full _ (-1)), Z.mod_small; lia. }
  cbn [throw_if mbind result_bind]. rewrite (proj2 (Z.ltb_lt _ _)) by lia. done.
Qed.

Lemma parse_byte_string_wraps_witness :
  parse_byte_string (to_string (2 ^ 64 - 1) ++ chr ":" :: []) 0
  = Throw (Undefined "iterator past the end of metadata").
Proof.
  apply (parse_byte_string_wraps (2 ^ 64 - 1) []); [lia|vm_compute; discriminate|reflexivity].
Defined.

(** The info-dictionary bytes are exact.  Parsing the encoding of a metadata
    dictionary as a .torrent file returns that dictionary together with, byte for
    byte, the encoding of the value stored under "info" (the bytes whose SHA-1
    identifies the torrent). *)
Theorem parse_torrent_info_bytes d info t :
  wf_btype (BDict d) -> smap_find (str "info") d = Some info ->
  fits (encode (BDict d) ++ t) ->
  parse_torrent (encode (BDict d) ++ t) = Ok (d, encode info).
Proof.
  intros [Hok Hwf]%wf_BDict Hinfo. cbn [encode]. unfold enc_dict.
  destruct (concat_dict_length d) as [Hl _].
  pose proof (torrent_loop_encode (S (length (encode (BDict d) ++ t))) [chr "d"] d t [] []) as HL.
  cbn [encode] in HL. unfold enc_dict in HL. set (body := concat _) in *. cbn [app] in *.
  replace ((body ++ [chr "e"]) ++ t) with (body ++ chr "e" :: t) in * by (by rewrite <- app_assoc).
  intros Hfit. unfold parse_torrent.
  change (get (chr "d" :: body ++ chr "e" :: t) 0) with (@Ok (Z * nat) (chr "d", 1%nat)).
  cbn [mbind result_bind]. rewrite Z.eqb_refl. cbn [negb throw_if mbind result_bind].
  cbn [length] in HL. cbn [length].
  rewrite HL; [|done|rewrite length_app; simpl; lia|done|done].
  cbn [mbind result_bind]. rewrite (info_raw_find _ _ info) by done.
  change (chr "d" :: body ++ chr "e" :: t) with ((chr "d" :: body) ++ chr "e" :: t).
  change (1 + length body)%nat with (length (chr "d" :: body)). rewrite get_app.
  cbn [mbind result_bind]. by rewrite Z.eqb_refl.
Qed.

Definition sample_torrent : smap BType :=
  [(str "announce", BString (str "udp://t:1")); (str "info", BDict [(str "n", BInteger 7)])].

Lemma parse_torrent_info_bytes_witness :
  parse_torrent (encode (BDict sample_torrent) ++ [])
  = Ok (sample_torrent, str "d1:ni7ee").
Proof.
  apply (parse_torrent_info_bytes sample_torrent (BDict [(str "n", BInteger 7)]) []).
  - cbn; unfold smap_ok; repeat (split || constructor); lia.
  - reflexivity.
  - vm_compute. reflexivity.
Defined.
