(* ===== verification/Hash.v ===== *)
(** * Hashes and torrent identities (inc/crypto.h, inc/info_hash.h)

    SHA-1 itself is OpenSSL's and a parameter ([Sha1]); what the client relies on
    is that a digest is twenty bytes.  Hexadecimal and URL encodings are modelled
    as the source writes them. *)

From S2P Require Import Prelude CxxLib.

(** The digest function of OpenSSL's EVP interface. *)
Class Sha1 := sha1 : bytes -> bytes.

Class Sha1Ok `{Sha1} : Prop := {
  sha1_length s : length (sha1 s) = 20%nat;
  sha1_bytes_ok s : bytes_ok (sha1 s);
}.

(** [crypto::to_hex] (and [NodeId::hex], [bytes_to_hex], which print the same way) *)
Definition to_hex (hash : bytes) : bytes := concat (map hex_byte hash).

Definition url_unreserved (b : Z) : bool :=
  isalnum b || (b =? chr "-") || (b =? chr "_") || (b =? chr ".") || (b =? chr "~").

(** [crypto::url_encode] *)
Definition url_encode_byte (b : Z) : bytes :=
  if url_unreserved b then [b] else chr "%" :: HEX_BYTE b.
Definition url_encode (hash : bytes) : bytes := concat (map url_encode_byte hash).

(** [struct InfoHash] *)
Record InfoHash := mkInfoHash { ih_bytes : bytes }.

#[global] Instance InfoHash_eq_dec : EqDecision InfoHash.
Proof. solve_decision. Defined.
#[global] Program Instance InfoHash_countable : Countable InfoHash :=
  inj_countable' ih_bytes mkInfoHash _.
Next Obligation. by intros []. Qed.

Definition ih_ok (h : InfoHash) : Prop := length (ih_bytes h) = 20%nat /\ bytes_ok (ih_bytes h).

#[global] Instance ih_ok_dec h : Decision (ih_ok h).
Proof. unfold ih_ok. apply _. Defined.

Definition from_sha1 (hash : bytes) : InfoHash := mkInfoHash hash.

(** [InfoHash::try_from_raw] *)
Definition try_from_raw (raw : bytes) : option InfoHash :=
  if negb (length raw =? 20)%nat then None else Some (mkInfoHash raw).

(** [InfoHash::to_raw] copies twenty bytes. *)
Definition to_raw (h : InfoHash) : bytes := take 20 (ih_bytes h).

Definition ih_hex (h : InfoHash) : bytes := to_hex (ih_bytes h).
Definition url_encoded (h : InfoHash) : bytes := url_encode (ih_bytes h).

(** ** Facts *)

Lemma to_raw_ok h : ih_ok h -> to_raw h = ih_bytes h.
Proof. intros [Hl _]. unfold to_raw. by rewrite take_ge by lia. Qed.

Lemma try_from_raw_to_raw h : ih_ok h -> try_from_raw (to_raw h) = Some h.
Proof.
  intros Hh. rewrite to_raw_ok by done. destruct Hh as [Hl _].
  unfold try_from_raw. rewrite Hl. by destruct h.
Qed.

Lemma try_from_raw_ok raw h :
  bytes_ok raw -> try_from_raw raw = Some h -> ih_ok h /\ ih_bytes h = raw.
Proof.
  unfold try_from_raw, ih_ok. case_if; [done|]. intros ? [= <-]. b2p. done.
Qed.

Lemma length_to_hex s : length (to_hex s) = (2 * length s)%nat.
Proof.
  induction s as [|b s IH]; [done|].
  change (to_hex (b :: s)) with (hex_byte b ++ to_hex s). rewrite length_app, IH. simpl. lia.
Qed.

Lemma hex_digit_inj a b : 0 <= a < 16 -> 0 <= b < 16 -> hex_digit a = hex_digit b -> a = b.
Proof.
  intros Ha Hb E. pose proof (hex_val_digit a Ha) as H1.
  rewrite E, (hex_val_digit b Hb) in H1. by injection H1.
Qed.

Lemma byte_nibbles b : byte_ok b -> 0 <= b / 16 < 16 /\ 0 <= b mod 16 < 16 /\ b = 16 * (b / 16) + b mod 16.
Proof.
  unfold byte_ok. intros Hb. pose proof (Z.div_mod b 16). pose proof (Z.mod_pos_bound b 16).
  repeat split; lia.
Qed.

(** Distinct byte strings of one length have distinct hexadecimal names: the
    DHT callback can identify a torrent by its hex info hash. *)
Lemma to_hex_inj s t : bytes_ok s -> bytes_ok t -> to_hex s = to_hex t -> s = t.
Proof.
  intros Hs. revert t. induction Hs as [|a s Ha Hs IH]; intros [|b t] Ht E; try done.
  inversion Ht as [|? ? Hb Ht']; subst.
  change (hex_byte a ++ to_hex s = hex_byte b ++ to_hex t) in E.
  unfold hex_byte in E. simpl in E. injection E as E1 E2 E3.
  destruct (byte_nibbles a Ha) as (? & ? & ?), (byte_nibbles b Hb) as (? & ? & ?).
  apply hex_digit_inj in E1; [|done..]. apply hex_digit_inj in E2; [|done..].
  f_equal; [lia|]. by apply IH.
Qed.

Lemma to_hex_app s t : to_hex (s ++ t) = to_hex s ++ to_hex t.
Proof. unfold to_hex. by rewrite map_app, concat_app. Qed.

(** A function of the right type, for evaluating the definitions. *)
Definition sample_sha1 : Sha1 := fun s => take 20 (s ++ replicate 20 0).
