(* ===== verification/Evp.v ===== *)
(** * SHA-1 through OpenSSL's EVP interface (inc/crypto.h: sha1)

    The rest of the development takes SHA-1 as a function ([Sha1]); here is the code that
    computes it, over a class of the EVP calls it makes.  Two things matter: the digest is
    that of the bytes given, and the context is freed once whatever call fails. *)

From S2P Require Import Prelude CxxLib Hash.

(** ** The calls *)

(** [C]: a context; [K]: the state of the library.  A [bool] tells whether 1 was returned. *)
Class Evp (C K : Type) := {
  EVP_MD_CTX_new : K -> option C * K;
  EVP_DigestInit_ex : C -> K -> bool * K;       (* with EVP_sha1() *)
  EVP_DigestUpdate : C -> bytes -> K -> bool * K;
  EVP_DigestFinal_ex : C -> K -> option bytes * K;   (* what it wrote to the buffer *)
  EVP_MD_CTX_free : C -> K -> K;
}.

Section sha1.
Context {C K : Type} {EV : Evp C K}.

(** Freeing the context before an exception leaves the function. *)
Definition free_and_throw (ctx : C) (what : string) (k : K) : result bytes * K :=
  (Throw (RuntimeError what), EVP_MD_CTX_free ctx k).

(** [crypto::sha1] *)
Definition sha1_evp (data : bytes) (k : K) : result bytes * K :=
  match EVP_MD_CTX_new k with
  | (None, k) => (Throw (RuntimeError "Failed to create EVP_MD_CTX"), k)
  | (Some ctx, k) =>
      match EVP_DigestInit_ex ctx k with
      | (false, k) => free_and_throw ctx "EVP_DigestInit_ex failed" k
      | (true, k) =>
          match EVP_DigestUpdate ctx data k with
          | (false, k) => free_and_throw ctx "EVP_DigestUpdate failed" k
          | (true, k) =>
              match EVP_DigestFinal_ex ctx k with
              | (None, k) => free_and_throw ctx "EVP_DigestFinal_ex failed" k
              | (Some hash, k) => (Ok hash, EVP_MD_CTX_free ctx k)
              end
          end
      end
  end.
End sha1.

(** ** What OpenSSL promises *)

(** [live]: the contexts allocated and not freed; [fed]: the bytes a context was given
    since its last initialization.  A call that fails says nothing about [fed]. *)
Class EvpOk {C K : Type} (EV : Evp C K) (digest : bytes -> bytes) (live : K -> list C) (fed : C -> K -> option bytes)
  : Prop := {
  new_live k : match EVP_MD_CTX_new k with
    | (Some c, k') => live k' = c :: live k | (None, k') => live k' = live k end;
  init_ok c k : let '(ok, k') := EVP_DigestInit_ex c k in
    live k' = live k /\ (ok = true -> fed c k' = Some []);
  update_ok c s k : let '(ok, k') := EVP_DigestUpdate c s k in
    live k' = live k /\ (ok = true -> forall t, fed c k = Some t -> fed c k' = Some (t ++ s));
  final_ok c k : let '(h, k') := EVP_DigestFinal_ex c k in
    live k' = live k /\ (forall x t, h = Some x -> fed c k = Some t -> x = digest t);
  free_live c k l : live k = c :: l -> live (EVP_MD_CTX_free c k) = l;
}.

(** The contexts are as before the call, and a value returned is the digest of the data. *)
Lemma sha1_evp_correct {C K} {EV : Evp C K} {digest live fed} `{!EvpOk EV digest live fed} data k :
  live (snd (sha1_evp data k)) = live k
  /\ match fst (sha1_evp data k) with
     | Ok hash => hash = digest data
     | Throw e => exists what, e = RuntimeError what
     end.
Proof.
  unfold sha1_evp, free_and_throw. pose proof (new_live k) as Hn.
  destruct (EVP_MD_CTX_new k) as [[c|] k1]; [|by split; [|eexists]].
  pose proof (init_ok c k1) as Hi. destruct (EVP_DigestInit_ex c k1) as [[] k2]; destruct Hi as [Li Hi].
  2:{ split; [apply free_live; congruence|by eexists]. }
  pose proof (update_ok c data k2) as Hu. destruct (EVP_DigestUpdate c data k2) as [[] k3]; destruct Hu as [Lu Hu].
  2:{ split; [apply free_live; congruence|by eexists]. }
  pose proof (final_ok c k3) as Hf. destruct (EVP_DigestFinal_ex c k3) as [[h|] k4]; destruct Hf as [Lf Hf].
  2:{ split; [apply free_live; congruence|by eexists]. }
  split; [apply free_live; congruence|]. cbn. apply (Hf h data); [done|]. apply (Hu eq_refl []). by apply Hi.
Qed.

(** ** A library that keeps one context at a time and fails when it is told to *)

Record Lib := mkLib { lib_ctx : list nat; lib_fed : option bytes; lib_fail : nat }.

(** One call less until the failure *)
Definition lib_tick (l : Lib) : bool * Lib :=
  match lib_fail l with
  | 1%nat => (false, mkLib (lib_ctx l) None 0)
  | n => (true, mkLib (lib_ctx l) (lib_fed l) (n - 1))
  end.

#[global] Instance sample_evp : Evp nat Lib := {|
  EVP_MD_CTX_new l := (Some (length (lib_ctx l)), mkLib (length (lib_ctx l) :: lib_ctx l) None (lib_fail l));
  EVP_DigestInit_ex _ l := let '(ok, l) := lib_tick l in (ok, mkLib (lib_ctx l) (Some []) (lib_fail l));
  EVP_DigestUpdate _ s l :=
    let '(ok, l) := lib_tick l in (ok, mkLib (lib_ctx l) (option_map (fun t => t ++ s) (lib_fed l)) (lib_fail l));
  EVP_DigestFinal_ex _ l := let '(ok, l) := lib_tick l in (if ok then sample_sha1 <$> lib_fed l else None, l);
  EVP_MD_CTX_free _ l := mkLib (tail (lib_ctx l)) None (lib_fail l) |}.

#[global] Instance sample_evp_ok : EvpOk sample_evp sample_sha1 lib_ctx (fun _ => lib_fed).
Proof.
  split; unfold EVP_MD_CTX_new, EVP_DigestInit_ex, EVP_DigestUpdate, EVP_DigestFinal_ex, EVP_MD_CTX_free, sample_evp, lib_tick.
  - done.
  - intros c [ctx f [|[|n]]]; by split.
  - intros c s [ctx f [|[|n]]]; (split; [done|]); intros E t Et; cbn in *; subst; done.
  - intros c [ctx f [|[|n]]]; (split; [done|]); intros x t Ex Et; cbn in *; subst; cbn in *; congruence.
  - intros c [ctx f n] l E. cbn in *. by subst.
Qed.

(** A failure in the middle frees the context as success does. *)
Example sha1_evp_runs :
  sha1_evp [1; 2; 3] (mkLib [] None 0) = (Ok (sample_sha1 [1; 2; 3]), mkLib [] None 0)
  /\ sha1_evp [1; 2; 3] (mkLib [] None 2) = (Throw (RuntimeError "EVP_DigestUpdate failed"), mkLib [] None 0).
Proof. by vm_compute. Qed.
