(* ===== verification/Addr.v ===== *)
(** * Peer addresses and their compact form
    (inc/peer_address.h, src/peer_address.cpp)

    The dotted-decimal conversions [inet_aton] and [inet_ntoa] belong to the C
    library and are parameters ([Inet]); what the client relies on is that
    [inet_aton] reads back what [inet_ntoa] prints ([InetOk]). *)

From S2P Require Import Prelude CxxLib ByteOrder.

Class Inet := {
  (** the four address bytes in network order, or failure *)
  inet_aton : bytes -> option bytes;
  inet_ntoa : bytes -> bytes;
}.

Definition ipv4_ok (b : bytes) : Prop := length b = 4%nat /\ bytes_ok b.

#[global] Instance ipv4_ok_dec b : Decision (ipv4_ok b).
Proof. unfold ipv4_ok. apply _. Defined.

Class InetOk `{Inet} : Prop := {
  aton_ntoa b : ipv4_ok b -> inet_aton (inet_ntoa b) = Some b;
  aton_ok s b : inet_aton s = Some b -> ipv4_ok b;
}.

(** [struct PeerAddress] *)
Record PeerAddress := mkPeer { ip : bytes; port : Z }.

#[global] Instance PeerAddress_eq_dec : EqDecision PeerAddress.
Proof. solve_decision. Defined.
#[global] Program Instance PeerAddress_countable : Countable PeerAddress :=
  inj_countable' (fun p => (ip p, port p)) (fun '(i, p) => mkPeer i p) _.
Next Obligation. by intros []. Qed.

(** [PeerAddress::to_string] *)
Definition peer_to_string (p : PeerAddress) : bytes := ip p ++ chr ":" :: to_string (port p).

Section compact.
Context `{Inet}.

(** [peer_to_compact]: when [inet_aton] fails the zero-initialised address is sent. *)
Definition peer_to_compact (ip : bytes) (port : Z) : bytes :=
  default [0; 0; 0; 0] (inet_aton ip) ++ write_be16 port.

(** [compact_to_peer]: [None] is the [false] return. *)
Definition compact_to_peer (data : bytes) (offset : nat) : option (bytes * Z) :=
  if (length data <? offset + 6)%nat then None
  else Some (inet_ntoa (slice offset (offset + 4) data),
             read_be16 (drop (offset + 4) data)).

(** The loop of [parse_compact_peers] from index [i]; each round advances by
    six bytes, so the length of the data bounds the rounds. *)
Fixpoint compact_loop (fuel : nat) (data : bytes) (i : nat) : list PeerAddress :=
  match fuel with
  | O => []
  | S f =>
      if (i + 6 <=? length data)%nat then
        match compact_to_peer data i with
        | Some (ip, port) => mkPeer ip port :: compact_loop f data (i + 6)
        | None => compact_loop f data (i + 6)
        end
      else []
  end.

Definition parse_compact_peers (data : bytes) : list PeerAddress :=
  compact_loop (S (length data)) data 0.

(** ** Round trips *)

(** An address as the client holds it: printed by [inet_ntoa], 16-bit port. *)
Definition peer_ok (p : PeerAddress) : Prop :=
  (exists b, ipv4_ok b /\ ip p = inet_ntoa b) /\ 0 <= port p < 2 ^ 16.

Context `{!InetOk}.

Lemma peer_to_compact_length ip port : length (peer_to_compact ip port) = 6%nat.
Proof.
  unfold peer_to_compact. rewrite length_app. simpl.
  destruct (inet_aton ip) as [b|] eqn:E; simpl; [|done].
  apply aton_ok in E as [-> _]. done.
Qed.

Lemma peer_to_compact_bytes_ok ip port : bytes_ok (peer_to_compact ip port).
Proof.
  unfold peer_to_compact. apply bytes_ok_app. split; [|auto with bt].
  destruct (inet_aton ip) as [b|] eqn:E; simpl; [by apply aton_ok in E as [_ ?]|].
  repeat constructor; unfold byte_ok; lia.
Qed.

Lemma compact_to_peer_app p a t :
  peer_ok a ->
  compact_to_peer (p ++ peer_to_compact (ip a) (port a) ++ t) (length p)
  = Some (ip a, port a).
Proof.
  intros [(b & Hb & Hip) Hport]. pose proof (peer_to_compact_length (ip a) (port a)) as Hl.
  unfold compact_to_peer. rewrite !length_app, Hl.
  rewrite (proj2 (Nat.ltb_ge _ _)) by lia.
  unfold peer_to_compact in *. rewrite Hip, aton_ntoa in * by done. simpl default in *.
  rewrite <- (proj1 Hb), <- app_assoc, slice_app_mid, drop_app_mid.
  by rewrite read_write_be16.
Qed.

Lemma compact_loop_concat fuel p ps :
  (length ps < fuel)%nat -> Forall peer_ok ps ->
  compact_loop fuel (p ++ concat (map (fun a => peer_to_compact (ip a) (port a)) ps)) (length p)
  = ps.
Proof.
  revert fuel p. induction ps as [|a ps IH]; intros fuel p Hf Hps;
    (destruct fuel as [|f]; [simpl in Hf; lia|]); cbn [compact_loop map concat].
  - rewrite app_nil_r, (proj2 (Nat.leb_gt _ _)) by lia. done.
  - inversion Hps as [|? ? Ha Hps']; subst.
    pose proof (peer_to_compact_length (ip a) (port a)) as Hl.
    rewrite !length_app, Hl, (proj2 (Nat.leb_le _ _)) by lia.
    rewrite compact_to_peer_app by done. destruct a as [i q]; cbn [ip port] in *. f_equal.
    rewrite <- Hl, <- length_app, app_assoc. apply IH; [simpl in Hf; lia|done].
Qed.

Lemma concat_compact_length ps :
  length (concat (map (fun a => peer_to_compact (ip a) (port a)) ps)) = (6 * length ps)%nat.
Proof.
  induction ps as [|a ps IH]; simpl; [done|].
  rewrite length_app, peer_to_compact_length, IH. lia.
Qed.
End compact.

(** ** A concrete instance *)

(** Dotted decimal, the form [inet_ntoa] prints. *)
Definition dotted (b : bytes) : bytes :=
  match b with
  | [a; b; c; d] =>
      to_string a ++ chr "." :: to_string b ++ chr "." :: to_string c ++ chr "." :: to_string d
  | _ => []
  end.

(** Splits at the dots. *)
Fixpoint split_dots (s : bytes) (cur : bytes) : list bytes :=
  match s with
  | [] => [cur]
  | c :: s' => if c =? chr "." then cur :: split_dots s' [] else split_dots s' (cur ++ [c])
  end.

Definition undotted (s : bytes) : option bytes :=
  let b := map digits_val (split_dots s []) in
  if bool_decide (ipv4_ok b) then Some b else None.

Definition dotted_inet : Inet := {| inet_aton := undotted; inet_ntoa := dotted |}.

Lemma split_dots_digits ds t cur :
  Forall (fun c => isdigit c = true) ds ->
  split_dots (ds ++ t) cur = split_dots t (cur ++ ds).
Proof.
  intros Hds. revert cur. induction Hds as [|c ds Hc Hds IH]; intros cur; simpl.
  - by rewrite app_nil_r.
  - assert ((c =? chr ".") = false) as ->.
    { unfold isdigit in Hc. b2p. apply Z.eqb_neq. change (chr ".") with 46. lia. }
    rewrite IH, <- app_assoc. done.
Qed.

Lemma dotted_inet_ok : @InetOk dotted_inet.
Proof.
  constructor.
  - intros b [Hl Hb]. destruct b as [|b0 [|b1 [|b2 [|b3 [|]]]]]; try discriminate.
    unfold bytes_ok in Hb. rewrite !Forall_cons in Hb. destruct Hb as (H0 & H1 & H2 & H3 & _).
    destruct (to_string_digits b0) as (V0 & D0 & _); [unfold byte_ok in *; lia|].
    destruct (to_string_digits b1) as (V1 & D1 & _); [unfold byte_ok in *; lia|].
    destruct (to_string_digits b2) as (V2 & D2 & _); [unfold byte_ok in *; lia|].
    destruct (to_string_digits b3) as (V3 & D3 & _); [unfold byte_ok in *; lia|].
    simpl inet_aton. unfold undotted, dotted.
    rewrite split_dots_digits by done. cbn [split_dots]. rewrite Z.eqb_refl.
    rewrite split_dots_digits by done. cbn [split_dots]. rewrite Z.eqb_refl.
    rewrite split_dots_digits by done. cbn [split_dots]. rewrite Z.eqb_refl.
    rewrite <- (app_nil_r (to_string b3)), split_dots_digits by done.
    rewrite ?app_nil_r. simpl app. cbn [split_dots map]. rewrite V0, V1, V2, V3.
    rewrite bool_decide_eq_true_2; [done|]. split; [done|].
    repeat (apply Forall_cons_2; [done|]). apply Forall_nil_2.
  - simpl. unfold undotted. intros s b. case_match eqn:E; [|done].
    intros [= <-]. by b2p.
Qed.

(** ** Properties *)

(** Compact peer lists survive the wire.  Concatenating the six-byte forms of
    any list of peers and parsing the result gives the same peers in the same
    order, whatever the C library's address functions, as long as they are
    inverse to each other. *)
Theorem parse_compact_peers_roundtrip (I : Inet) (OK : @InetOk I) (ps : list PeerAddress) :
  Forall peer_ok ps ->
  parse_compact_peers (concat (map (fun a => peer_to_compact (ip a) (port a)) ps)) = ps.
Proof.
  intros Hps. unfold parse_compact_peers.
  apply (compact_loop_concat _ []); [rewrite concat_compact_length; lia|done].
Qed.

Lemma parse_compact_peers_roundtrip_witness :
  let I := dotted_inet in
  let ps := [mkPeer (str "192.168.1.7") 6881; mkPeer (str "10.0.0.255") 65535] in
  parse_compact_peers (concat (map (fun a => peer_to_compact (ip a) (port a)) ps)) = ps.
Proof.
  intros I ps. apply (parse_compact_peers_roundtrip dotted_inet dotted_inet_ok ps).
  repeat apply Forall_cons_2; [..|apply Forall_nil_2].
  - split; [|vm_compute; intuition discriminate].
    exists [192; 168; 1; 7]. split; [apply (bool_decide_unpack _); reflexivity|reflexivity].
  - split; [|vm_compute; intuition discriminate].
    exists [10; 0; 0; 255]. split; [apply (bool_decide_unpack _); reflexivity|reflexivity].
Defined.
