(* ===== verification/SockAddr.v ===== *)
(** * Socket addresses (inc/net/socket_addresses.h)

    The classes around the C library's sockaddr structures, with the values the structures
    hold.  The addresses' texts are the C library's (inet_pton, inet_ntop): [Inet] for IPv4,
    [Inet6] for IPv6.  The constructors from a [sockaddr] are called for its own family. *)

From S2P Require Import Prelude CxxLib ByteOrder Addr.

(** Address families and socket types of Linux *)
Definition AF_UNIX : Z := 1.
Definition AF_INET : Z := 2.
Definition AF_INET6 : Z := 10.
Definition SOCK_STREAM : Z := 1.
Definition SOCK_DGRAM : Z := 2.

Definition socket_type_to_string (socket_type : Z) : bytes :=
  if socket_type =? SOCK_STREAM then str "SOCK_STREAM"
  else if socket_type =? SOCK_DGRAM then str "SOCK_DGRAM"
  else str "UNKNOWN SOCKET TYPE (" ++ to_string socket_type ++ str ")".

Definition domain_to_string (domain : Z) : result bytes :=
  if domain =? AF_UNIX then Ok (str "UNIX")
  else if domain =? AF_INET then Ok (str "IPv4")
  else if domain =? AF_INET6 then Ok (str "IPv6")
  else Throw (RuntimeError "Unknown domain").

(** [htons], [ntohs] on a little-endian machine: the two bytes change places. *)
Definition htons (x : Z) : Z := Z.lor (Z.shiftl (Z.land x 255) 8) (Z.shiftr x 8).
Abbreviation ntohs := htons.

(** What [c_str] shows to C: the text up to its first zero. *)
Definition c_str (s : bytes) : bytes := span (fun c => negb (c =? 0)) s.

(** ** The structures *)

Record sockaddr_un := mkUn { sun_path : bytes }.                       (* 108 bytes *)
Record sockaddr_in := mkIn { sin_port : Z; sin_addr : bytes }.         (* network order *)
Record sockaddr_in6 := mkIn6 { sin6_port : Z; sin6_flowinfo : Z; sin6_addr : bytes; sin6_scope_id : Z }.

Inductive sockaddr := SaUn (a : sockaddr_un) | SaIn (a : sockaddr_in) | SaIn6 (a : sockaddr_in6).

Class Inet6 := {
  inet_pton6 : bytes -> option bytes;
  inet_ntop6 : bytes -> bytes;
}.

(** ** The classes *)

(** [addrStr] of an IPv6 address made from a text is never written. *)
Inductive Address :=
  | UnixAddress (addr : sockaddr_un) (identifier : bytes)
  | IPv4Address (addr : sockaddr_in) (addrStr identifier : bytes)
  | IPv6Address (addr : sockaddr_in6) (addrStr : option bytes) (identifier : bytes).

Definition identifier (a : Address) : bytes :=
  match a with UnixAddress _ i | IPv4Address _ _ i | IPv6Address _ _ i => i end.

Definition sockaddr_ptr (a : Address) : sockaddr :=
  match a with UnixAddress s _ => SaUn s | IPv4Address s _ _ => SaIn s | IPv6Address s _ _ => SaIn6 s end.

(** [sizeof] of the structures *)
Definition size (a : Address) : Z :=
  match a with UnixAddress _ _ => 110 | IPv4Address _ _ _ => 16 | IPv6Address _ _ _ => 28 end.

Definition domain (a : Address) : Z :=
  match a with UnixAddress _ _ => AF_UNIX | IPv4Address _ _ _ => AF_INET | IPv6Address _ _ _ => AF_INET6 end.

(** [std::strncpy] into the zeroed array, which keeps its last zero. *)
Definition unix_of_path (path : bytes) : result Address :=
  if (108 <=? length path)%nat then Throw (RuntimeError "Unix path too long")
  else
    let p := take 107 (c_str path) in
    Ok (UnixAddress (mkUn (p ++ replicate (108 - length p) 0)) path).

Definition unix_of_sockaddr (s : sockaddr_un) : Address := UnixAddress s (c_str (sun_path s)).

Section addresses.
Context `{Inet, Inet6}.

Definition with_port (text : bytes) (port : Z) : bytes := text ++ str ":" ++ to_string port.

(** [IPv4Address(ip, port)] with a text *)
Definition ipv4_of_text (ip : bytes) (port : Z) : result Address :=
  match inet_aton (c_str ip) with
  | None => Throw (RuntimeError "Invalid IPv4 address")
  | Some a => Ok (IPv4Address (mkIn (htons port) a) (inet_ntoa a) (with_port ip port))
  end.

(** ... with an [in_addr_t] *)
Definition ipv4_of_addr (ip : bytes) (port : Z) : Address :=
  IPv4Address (mkIn (htons port) ip) (inet_ntoa ip) (with_port (inet_ntoa ip) (ntohs (htons port))).

Definition ipv4_of_sockaddr (s : sockaddr_in) : Address :=
  IPv4Address s (inet_ntoa (sin_addr s)) (str "IPv4: " ++ with_port (inet_ntoa (sin_addr s)) (ntohs (sin_port s))).

(** [ip()] and [port()] of an IPv4 address *)
Definition ip4 (a : Address) : option bytes := match a with IPv4Address _ s _ => Some s | _ => None end.
Definition port4 (a : Address) : option Z := match a with IPv4Address s _ _ => Some (ntohs (sin_port s)) | _ => None end.

Definition bracketed (text : bytes) (port : Z) : bytes := str "[" ++ text ++ str "]:" ++ to_string port.

Definition ipv6_of_text (ip : bytes) (port : Z) : result Address :=
  match inet_pton6 (c_str ip) with
  | None => Throw (RuntimeError "Invalid IPv6 address")
  | Some a => Ok (IPv6Address (mkIn6 (htons port) 0 a 0) None (with_port ip port))
  end.

Definition ipv6_of_addr (ip : bytes) (port : Z) : Address :=
  IPv6Address (mkIn6 (htons port) 0 ip 0) (Some (inet_ntop6 ip)) (bracketed (inet_ntop6 ip) (ntohs (htons port))).

Definition ipv6_of_sockaddr (s : sockaddr_in6) : Address :=
  IPv6Address s (Some (inet_ntop6 (sin6_addr s)))
    (str "IPv6: " ++ bracketed (inet_ntop6 (sin6_addr s)) (ntohs (sin6_port s))).

(** The class that [dns_lookup], [recvfrom] and [local_address] choose. *)
Definition address_of (s : sockaddr) : Address :=
  match s with
  | SaUn u => unix_of_sockaddr u
  | SaIn i => ipv4_of_sockaddr i
  | SaIn6 i => ipv6_of_sockaddr i
  end.

(** ** Facts *)

Lemma htons_bytes hi lo : byte_ok hi -> byte_ok lo -> htons (256 * hi + lo) = 256 * lo + hi.
Proof.
  intros Hh Hl. unfold htons, byte_ok in *. change 255 with (Z.ones 8). rewrite Z.land_ones by lia.
  change (2 ^ 8) with 256.
  assert ((256 * hi + lo) mod 256 = lo) as -> by (rewrite Z.add_comm, Z.mul_comm, Z.mod_add, Z.mod_small by lia; lia).
  assert (Z.shiftr (256 * hi + lo) 8 = hi) as ->.
  { rewrite Z.shiftr_div_pow2 by lia. change (2 ^ 8) with 256.
    rewrite Z.add_comm, Z.mul_comm, Z.div_add, Z.div_small by lia. lia. }
  rewrite lor_shiftl_add by (try change (2 ^ 8) with 256; lia). change (2 ^ 8) with 256. lia.
Qed.

Lemma ntohs_htons p : 0 <= p < 2 ^ 16 -> ntohs (htons p) = p /\ 0 <= htons p < 2 ^ 16.
Proof.
  intros Hp. pose proof (Z.div_mod p 256 ltac:(lia)) as E. pose proof (Z.mod_pos_bound p 256 ltac:(lia)).
  assert (0 <= p / 256 < 256) by (split; [apply Z.div_pos; lia|apply Z.div_lt_upper_bound; lia]).
  rewrite E. rewrite htons_bytes by (unfold byte_ok; lia). rewrite htons_bytes by (unfold byte_ok; lia). lia.
Qed.

(** What arrives from the kernel goes back to it: the sender of a datagram, reduced to the
    texts of a [PeerAddress], is the address the reply is sent to. *)
Lemma reply_goes_back `{!InetOk} s :
  ipv4_ok (sin_addr s) -> 0 <= sin_port s < 2 ^ 16 -> Forall (fun c => c <> 0) (inet_ntoa (sin_addr s)) ->
  let from := address_of (SaIn s) in
  exists i p a, ip4 from = Some i /\ port4 from = Some p /\ 0 <= p < 2 ^ 16
    /\ ipv4_of_text i p = Ok a /\ sockaddr_ptr a = SaIn s /\ domain a = AF_INET.
Proof.
  intros Ha Hp Hz. cbv zeta. cbn [address_of ipv4_of_sockaddr ip4 port4].
  destruct (ntohs_htons _ Hp) as [E Hr]. eexists _, _, _. split; [reflexivity|]. split; [reflexivity|]. split; [exact Hr|].
  unfold ipv4_of_text, c_str. rewrite span_all.
  - rewrite aton_ntoa by done. split; [reflexivity|]. cbn [sockaddr_ptr domain]. split; [|done].
    rewrite E. by destruct s.
  - eapply Forall_impl; [exact Hz|]. intros c Hc. cbn. by rewrite (proj2 (Z.eqb_neq _ _)).
Qed.

(** An address made from a text keeps the port, and its [ip()] names the same host. *)
Lemma ipv4_of_text_spec `{!InetOk} i p a :
  0 <= p < 2 ^ 16 -> ipv4_of_text i p = Ok a ->
  exists b, inet_aton (c_str i) = Some b /\ port4 a = Some p /\ ip4 a = Some (inet_ntoa b)
    /\ inet_aton (inet_ntoa b) = Some b /\ identifier a = with_port i p.
Proof.
  intros Hp. unfold ipv4_of_text. destruct (inet_aton (c_str i)) as [b|] eqn:Eb; [|done]. intros [= <-].
  exists b. split; [done|]. cbn. destruct (ntohs_htons p Hp) as [-> _]. split; [done|]. split; [done|].
  split; [|done]. apply aton_ntoa. by eapply aton_ok.
Qed.

(** The three constructors differ in the identifier only. *)
Lemma ipv4_identifiers a p :
  0 <= p < 2 ^ 16 ->
  sockaddr_ptr (ipv4_of_addr a p) = sockaddr_ptr (ipv4_of_sockaddr (mkIn (htons p) a))
  /\ identifier (ipv4_of_sockaddr (mkIn (htons p) a)) = str "IPv4: " ++ identifier (ipv4_of_addr a p).
Proof. intros Hp. by split. Qed.
End addresses.

(** A path without zeros survives, if it fits. *)
Lemma unix_path_kept path a :
  Forall (fun c => c <> 0) path -> unix_of_path path = Ok a ->
  (length path < 108)%nat /\ identifier (address_of (H0 := {| inet_pton6 := fun _ => None; inet_ntop6 := id |})
    (H := dotted_inet) (sockaddr_ptr a)) = path.
Proof.
  intros Hz. unfold unix_of_path. destruct (108 <=? length path)%nat eqn:El; b2p; [done|]. intros [= <-].
  split; [done|]. cbn [sockaddr_ptr address_of unix_of_sockaddr identifier sun_path].
  assert (Forall (fun c => negb (c =? 0) = true) path) as Hp.
  { eapply Forall_impl; [exact Hz|]. intros c Hc. cbn. by rewrite (proj2 (Z.eqb_neq _ _)). }
  assert (c_str path = path) as -> by (unfold c_str; by rewrite span_all). rewrite take_ge by lia.
  unfold c_str. destruct (108 - length path)%nat as [|k] eqn:Ek; [lia|]. cbn [replicate].
  by apply span_app.
Qed.

Example address_texts :
  let I := dotted_inet in
  match ipv4_of_text (str "10.0.0.1") 6881 with
  | Ok a => sockaddr_ptr a = SaIn (mkIn 57626 [10; 0; 0; 1]) /\ ip4 a = Some (str "10.0.0.1") /\ port4 a = Some 6881
            /\ identifier a = str "10.0.0.1:6881"
            /\ identifier (ipv4_of_sockaddr (mkIn 57626 [10; 0; 0; 1])) = str "IPv4: 10.0.0.1:6881"
  | Throw _ => False
  end.
Proof. vm_compute. repeat split; reflexivity. Qed.
