(* ===== verification/LruCache.v ===== *)
(** * The LRU cache (inc/lru_cache.h)

    The class keeps a doubly linked list in recency order and a hash map from
    keys to list iterators.  Both are modelled: a list node is a pair of a node
    identity (what an iterator denotes) and its key/value pair, [index] maps a
    key to a node identity.  [lru_ok] ties the two together; the abstract view
    [view] is the list of key/value pairs, most recently used first, and every
    operation is proved to implement a plain list operation on it. *)

From S2P Require Import Prelude.

(** ** The implementation *)

Record LruCache (K V : Type) `{Countable K} := mkLru {
  capacity : nat;
  items : list (nat * (K * V));  (* front = most recently used *)
  index : gmap K nat;
  next_node : nat;               (* supply of node identities *)
}.
Arguments mkLru {K V _ _} _ _ _ _.
Arguments capacity {K V _ _} _.
Arguments items {K V _ _} _.
Arguments index {K V _ _} _.
Arguments next_node {K V _ _} _.

Section lru.
Context {K V : Type} `{Countable K}.
Implicit Types (c : LruCache K V) (k : K) (v : V).

(** [LruCache(capacity)] *)
Definition lru_new (cap : nat) : LruCache K V := mkLru cap [] ∅ 0.

Definition lru_size c : nat := size (index c).
Definition lru_empty c : bool := (lru_size c =? 0)%nat.
Definition lru_contains c k : bool := bool_decide (is_Some (index c !! k)).

(** Dereferencing the iterator [it]. *)
Fixpoint deref (it : nat) (l : list (nat * (K * V))) : option (K * V) :=
  match l with
  | [] => None
  | (n, kv) :: l' => if decide (n = it) then Some kv else deref it l'
  end.

(** [items_.erase(it)] *)
Definition unlink (it : nat) (l : list (nat * (K * V))) : list (nat * (K * V)) :=
  filter (fun n => fst n ≠ it) l.

(** [items_.splice(items_.begin(), items_, it)] *)
Definition splice_front (it : nat) (l : list (nat * (K * V))) : list (nat * (K * V)) :=
  match deref it l with
  | Some kv => (it, kv) :: unlink it l
  | None => l
  end.

(** [it->second = v] *)
Definition set_node (it : nat) (v : V) (l : list (nat * (K * V))) : list (nat * (K * V)) :=
  map (fun n => if decide (fst n = it) then (fst n, (fst (snd n), v)) else n) l.

(** [get]: the value, and the node moved to the front. *)
Definition lru_get k c : option V * LruCache K V :=
  match index c !! k with
  | None => (None, c)
  | Some it =>
      (snd <$> deref it (items c),
       mkLru (capacity c) (splice_front it (items c)) (index c) (next_node c))
  end.

(** [evict_lru] *)
Definition evict_lru c : LruCache K V :=
  match last (items c) with
  | None => c
  | Some (_, (k, _)) =>
      mkLru (capacity c) (take (length (items c) - 1) (items c))
            (delete k (index c)) (next_node c)
  end.

(** [put] *)
Definition lru_put k v c : LruCache K V :=
  match index c !! k with
  | Some it =>
      mkLru (capacity c) (splice_front it (set_node it v (items c))) (index c) (next_node c)
  | None =>
      let c := if (capacity c <=? lru_size c)%nat then evict_lru c else c in
      mkLru (capacity c) ((next_node c, (k, v)) :: items c)
            (<[k := next_node c]> (index c)) (S (next_node c))
  end.

(** [erase(key)] *)
Definition lru_erase k c : bool * LruCache K V :=
  match index c !! k with
  | None => (false, c)
  | Some it =>
      (true, mkLru (capacity c) (unlink it (items c)) (delete k (index c)) (next_node c))
  end.

(** [clear] *)
Definition lru_clear c : LruCache K V := mkLru (capacity c) [] ∅ (next_node c).

(** [lru_key] *)
Definition lru_key c : option K :=
  match last (items c) with Some (_, (k, _)) => Some k | None => None end.

(** A loop over the cache that erases (with [erase(iterator)]) the entries
    satisfying [p] and keeps the others in place. *)
Definition erase_if (p : K -> V -> bool) c : LruCache K V :=
  let dead := filter (fun n => p (fst (snd n)) (snd (snd n)) = true) (items c) in
  mkLru (capacity c)
    (filter (fun n => p (fst (snd n)) (snd (snd n)) = false) (items c))
    (foldr (fun n m => delete (fst (snd n)) m) (index c) dead)
    (next_node c).

(** A write through the reference or pointer [put] and [get] return. *)
Definition lru_set k v c : LruCache K V :=
  match index c !! k with
  | None => c
  | Some it => mkLru (capacity c) (set_node it v (items c)) (index c) (next_node c)
  end.

(** ** Invariant and abstract view *)

Definition view c : list (K * V) := map snd (items c).

(** The index holds exactly the nodes of the list, under their keys; node
    identities are unique and below the supply; the capacity is respected. *)
Record lru_ok c : Prop := {
  ok_cap : (0 < capacity c)%nat;
  ok_ids : NoDup (map fst (items c));
  ok_keys : NoDup (map fst (view c));
  ok_index : forall k it, index c !! k = Some it <-> exists v, (it, (k, v)) ∈ items c;
  ok_fresh : forall it kv, (it, kv) ∈ items c -> (it < next_node c)%nat;
  ok_size : (length (items c) <= capacity c)%nat;
}.

(** The abstract operations. *)
Definition assoc_del k (l : list (K * V)) : list (K * V) := filter (fun x => fst x ≠ k) l.

Fixpoint assoc k (l : list (K * V)) : option V :=
  match l with
  | [] => None
  | (k', v) :: l' => if decide (k' = k) then Some v else assoc k l'
  end.

Definition spec_get k (l : list (K * V)) : option V * list (K * V) :=
  match assoc k l with
  | None => (None, l)
  | Some v => (Some v, (k, v) :: assoc_del k l)
  end.

Definition spec_put (cap : nat) k v (l : list (K * V)) : list (K * V) :=
  match assoc k l with
  | Some _ => (k, v) :: assoc_del k l
  | None => (k, v) :: (if (cap <=? length l)%nat then take (length l - 1) l else l)
  end.

Definition spec_set k v (l : list (K * V)) : list (K * V) :=
  map (fun x => if decide (fst x = k) then (k, v) else x) l.

(** ** The list and the index agree *)

Lemma elem_ids l (it : nat) (kv : K * V) : (it, kv) ∈ l -> it ∈ map fst l.
Proof. intros Hin. apply (list_elem_of_fmap_2 fst) in Hin. done. Qed.

Lemma elem_keys l (it : nat) k v : (it, (k, v)) ∈ l -> k ∈ map fst (map snd l).
Proof.
  intros Hin. apply (list_elem_of_fmap_2 snd) in Hin.
  apply (list_elem_of_fmap_2 fst) in Hin. done.
Qed.

Lemma assoc_None k (l : list (K * V)) : assoc k l = None <-> k ∉ map fst l.
Proof.
  induction l as [|[k' v] l IH]; simpl; [split; [intros _; apply not_elem_of_nil|done]|].
  rewrite not_elem_of_cons. case_decide; [split; [done|intros [? ?]; congruence]|].
  rewrite IH. split; [intros; split; congruence|by intros [? ?]].
Qed.

Lemma assoc_Some_in k v (l : list (K * V)) : assoc k l = Some v -> (k, v) ∈ l.
Proof.
  induction l as [|[k' v'] l IH]; simpl; [done|].
  case_decide; intros; simplify_eq; [left|right; auto].
Qed.

Lemma assoc_in k v (l : list (K * V)) :
  NoDup (map fst l) -> (k, v) ∈ l -> assoc k l = Some v.
Proof.
  induction l as [|[k' v'] l IH]; simpl; [by intros _ ?%not_elem_of_nil|].
  rewrite NoDup_cons, elem_of_cons. intros [Hnot Hnd] [E|Hin]; simplify_eq.
  - by rewrite decide_True.
  - rewrite decide_False; [auto|]. intros ->. apply Hnot.
    apply (list_elem_of_fmap_2 fst) in Hin. done.
Qed.

Lemma deref_in l (it : nat) (kv : K * V) :
  NoDup (map fst l) -> (it, kv) ∈ l -> deref it l = Some kv.
Proof.
  induction l as [|[n kv'] l IH]; simpl; [by intros _ ?%not_elem_of_nil|].
  rewrite NoDup_cons, elem_of_cons. intros [Hnot Hnd] [E|Hin]; simplify_eq.
  - by rewrite decide_True.
  - rewrite decide_False; [auto|]. intros ->. apply Hnot. by eapply elem_ids.
Qed.

Lemma filter_id {A} (P : A -> Prop) `{!forall x, Decision (P x)} l : Forall P l -> filter P l = l.
Proof.
  induction 1 as [|x l Hx Hl IH]; [done|]. by rewrite filter_cons_True, IH.
Qed.

Lemma view_unlink l (it : nat) k v :
  NoDup (map fst l) -> NoDup (map fst (map snd l)) -> (it, (k, v)) ∈ l ->
  map snd (unlink it l) = assoc_del k (map snd l).
Proof.
  unfold unlink, assoc_del. induction l as [|[n [k' v']] l IH]; [by intros _ _ ?%not_elem_of_nil|].
  cbn [map fst snd]. rewrite !NoDup_cons, elem_of_cons. intros [Hn Hnd] [Hk Hkd] [E|Hin].
  - simplify_eq. rewrite !filter_cons_False by (simpl; tauto).
    rewrite !filter_id; [done|..].
    + apply Forall_forall. intros x Hx E. apply Hk. rewrite <- E. by apply (list_elem_of_fmap_2 fst) in Hx.
    + apply Forall_forall. intros x Hx E. apply Hn. rewrite <- E. by apply (list_elem_of_fmap_2 fst) in Hx.
  - rewrite !filter_cons_True; simpl.
    + by rewrite IH.
    + intros ->. apply Hk. by eapply elem_keys.
    + intros ->. apply Hn. by eapply elem_ids.
Qed.

Lemma view_set_node l (it : nat) k v v' :
  NoDup (map fst l) -> NoDup (map fst (map snd l)) -> (it, (k, v)) ∈ l ->
  map snd (set_node it v' l) = spec_set k v' (map snd l).
Proof.
  intros Hid Hkd Hin. unfold set_node, spec_set. rewrite !map_map.
  apply map_ext_in. intros [n [k1 v1]] Hn%list_elem_of_In. simpl.
  destruct (decide (n = it)) as [->|Hne].
  - pose proof (deref_in _ _ _ Hid Hin) as E1. pose proof (deref_in _ _ _ Hid Hn) as E2.
    rewrite E1 in E2. simplify_eq. by rewrite decide_True.
  - rewrite decide_False; [done|]. intros ->. apply Hne.
    clear -Hid Hkd Hin Hn. induction l as [|[m [k2 v2]] l IH]; [by apply not_elem_of_nil in Hin|].
    cbn [map fst snd] in *. rewrite !NoDup_cons in *. destruct Hid, Hkd.
    rewrite elem_of_cons in Hin, Hn.
    destruct Hin as [?|Hin], Hn as [?|Hn]; simplify_eq; [done| | |by apply IH];
      exfalso; match goal with H : _ ∉ map fst (map snd _) |- _ => apply H end;
      by eapply elem_keys.
Qed.

Lemma set_node_ids it v l : map fst (set_node it v l) = map fst l.
Proof.
  unfold set_node. rewrite map_map. apply map_ext. intros [n [k v']]. simpl. by case_decide.
Qed.

Lemma set_node_in it v l n k v' :
  (n, (k, v')) ∈ set_node it v l <->
  (n = it /\ v' = v /\ exists w, (n, (k, w)) ∈ l) \/ (n <> it /\ (n, (k, v')) ∈ l).
Proof.
  unfold set_node. rewrite list_elem_of_fmap. split.
  - intros ([m [k1 v1]] & E & Hin). simpl in E. case_decide; simplify_eq; [left|right]; eauto.
  - intros [(-> & -> & w & Hin)|(Hne & Hin)].
    + exists (it, (k, w)). simpl. by rewrite decide_True.
    + exists (n, (k, v')). simpl. by rewrite decide_False.
Qed.

Lemma spec_set_keys k v (l : list (K * V)) : map fst (spec_set k v l) = map fst l.
Proof.
  unfold spec_set. rewrite map_map. apply map_ext. intros [k' v']. simpl. by case_decide.
Qed.

Lemma unlink_in it l n (kv : K * V) : (n, kv) ∈ unlink it l <-> n <> it /\ (n, kv) ∈ l.
Proof. unfold unlink. by rewrite list_elem_of_filter. Qed.

Lemma NoDup_map_filter {A B} (f : A -> B) (P : A -> Prop) `{!forall x, Decision (P x)} l :
  NoDup (map f l) -> NoDup (map f (filter P l)).
Proof.
  induction l as [|x l IH]; [done|]. cbn [map]. rewrite NoDup_cons. intros [Hx Hl].
  destruct (decide (P x)); [rewrite filter_cons_True by done|rewrite filter_cons_False by done; auto].
  cbn [map]. apply NoDup_cons. split; [|auto]. intros (y & E & Hy)%list_elem_of_fmap.
  apply Hx. rewrite E. apply list_elem_of_filter in Hy as [_ Hy]. by apply (list_elem_of_fmap_2 f).
Qed.

(** ** Each operation preserves the invariant and implements its abstract
    counterpart *)

Lemma lru_new_ok cap : (0 < cap)%nat -> lru_ok (lru_new cap).
Proof.
  intros Hc. constructor; simpl; [done|constructor|constructor| |by intros ? ? ?%not_elem_of_nil|lia].
  intros k it. rewrite lookup_empty. split; [done|]. by intros [v ?%not_elem_of_nil].
Qed.

Lemma index_None c k : lru_ok c -> index c !! k = None <-> assoc k (view c) = None.
Proof.
  intros Hok. rewrite assoc_None. split.
  - intros E Hin. unfold view in Hin. apply list_elem_of_fmap in Hin as ([k' v] & Ek & Hin).
    apply list_elem_of_fmap in Hin as ([it [k2 v2]] & E2 & Hin). simpl in *. simplify_eq.
    assert (index c !! k2 = Some it) by (apply (ok_index _ Hok); eauto). congruence.
  - intros Hnot. destruct (index c !! k) as [it|] eqn:E; [|done].
    apply (ok_index _ Hok) in E as [v Hin]. exfalso. apply Hnot. by eapply elem_keys.
Qed.

Lemma index_Some c k it :
  lru_ok c -> index c !! k = Some it ->
  exists v, (it, (k, v)) ∈ items c /\ assoc k (view c) = Some v /\
            deref it (items c) = Some (k, v).
Proof.
  intros Hok E. apply (ok_index _ Hok) in E as [v Hin]. exists v. split; [done|].
  split; [|apply deref_in; [apply (ok_ids _ Hok)|done]].
  apply assoc_in; [apply (ok_keys _ Hok)|].
  by apply (list_elem_of_fmap_2 snd) in Hin.
Qed.

(** Replacing the list by one with the same nodes (identities and keys). *)
Lemma lru_ok_same_nodes c l :
  lru_ok c -> NoDup (map fst l) -> NoDup (map fst (map snd l)) ->
  (length l <= length (items c))%nat ->
  (forall n k, (exists v, (n, (k, v)) ∈ l) <-> exists v, (n, (k, v)) ∈ items c) ->
  lru_ok (mkLru (capacity c) l (index c) (next_node c)).
Proof.
  intros Hok Hid Hkd Hlen Heq. destruct Hok. constructor; simpl; try done.
  - intros k it. by rewrite ok_index0, Heq.
  - intros it [k v] Hin. destruct (proj1 (Heq it k)) as [w Hw]; eauto.
  - lia.
Qed.

Lemma unlink_length it l (kv : K * V) :
  (it, kv) ∈ l -> (length (unlink it l) < length l)%nat.
Proof.
  intros Hin. unfold unlink. induction l as [|[n kv'] l IH]; [by apply not_elem_of_nil in Hin|].
  destruct (decide (n = it)) as [->|Hne].
  - rewrite filter_cons_False by (simpl; tauto). simpl.
    pose proof (length_filter (fun n : nat * (K * V) => fst n ≠ it) l). lia.
  - rewrite filter_cons_True by done. simpl.
    apply elem_of_cons in Hin as [?|Hin]; [simplify_eq|]. specialize (IH Hin). lia.
Qed.

Lemma splice_front_ok c it k v :
  lru_ok c -> (it, (k, v)) ∈ items c ->
  lru_ok (mkLru (capacity c) (splice_front it (items c)) (index c) (next_node c)) /\
  map snd (splice_front it (items c)) = (k, v) :: assoc_del k (view c).
Proof.
  intros Hok Hin. pose proof (ok_ids _ Hok) as Hid. pose proof (ok_keys _ Hok) as Hkd.
  unfold splice_front. rewrite (deref_in _ _ _ Hid Hin). cbn [map snd].
  split; [|by erewrite view_unlink].
  apply lru_ok_same_nodes; [done|..]; cbn [map fst snd].
  - apply NoDup_cons. split; [|by apply NoDup_map_filter].
    intros ([n kv] & E & [Hn _]%unlink_in)%list_elem_of_fmap. by simpl in E.
  - erewrite view_unlink by done. apply NoDup_cons. split; [|by apply NoDup_map_filter].
    intros ([k' v'] & E & Hf)%list_elem_of_fmap. unfold assoc_del in Hf.
    apply list_elem_of_filter in Hf as [Hne _]. by simpl in *.
  - cbn [length]. pose proof (unlink_length _ _ _ Hin). lia.
  - intros n k'. setoid_rewrite elem_of_cons. setoid_rewrite unlink_in. split.
    + intros [w [E|[_ Hw]]]; simplify_eq; eauto.
    + intros [w Hw]. destruct (decide (n = it)) as [->|Hne]; [|by eauto].
      pose proof (deref_in _ _ _ Hid Hin) as E1. rewrite (deref_in _ _ _ Hid Hw) in E1.
      simplify_eq. eauto.
Qed.

Lemma lru_get_refines c k :
  lru_ok c ->
  lru_ok (snd (lru_get k c)) /\
  (fst (lru_get k c), view (snd (lru_get k c))) = spec_get k (view c).
Proof.
  intros Hok. unfold lru_get, spec_get. destruct (index c !! k) as [it|] eqn:E.
  - destruct (index_Some _ _ _ Hok E) as (v & Hin & -> & ->). simpl.
    destruct (splice_front_ok _ _ _ _ Hok Hin) as [Hok' Hv]. split; [done|].
    unfold view at 1. simpl. by rewrite Hv.
  - rewrite (proj1 (index_None _ _ Hok) E). done.
Qed.

Lemma lru_set_refines c k v :
  lru_ok c -> lru_ok (lru_set k v c) /\ view (lru_set k v c) = spec_set k v (view c).
Proof.
  intros Hok. unfold lru_set. destruct (index c !! k) as [it|] eqn:E.
  - destruct (index_Some _ _ _ Hok E) as (w & Hin & _ & _).
    pose proof (ok_ids _ Hok) as Hid. pose proof (ok_keys _ Hok) as Hkd.
    split; [|unfold view; simpl; by erewrite view_set_node].
    apply lru_ok_same_nodes; [done|..].
    + by rewrite set_node_ids.
    + erewrite view_set_node by done. by rewrite spec_set_keys.
    + unfold set_node. by rewrite length_map.
    + intros n k'. setoid_rewrite set_node_in. split.
      * intros [w' [(_ & _ & ?)|(_ & ?)]]; eauto.
      * intros [w' Hw]. destruct (decide (n = it)); eauto 7.
  - split; [done|]. apply (index_None _ _ Hok), assoc_None in E.
    unfold spec_set. rewrite <- (map_id (view c)) at 1. apply map_ext_in.
    intros [k' v'] Hin%list_elem_of_In. simpl. rewrite decide_False; [done|].
    intros ->. apply E. by apply (list_elem_of_fmap_2 fst) in Hin.
Qed.

Lemma index_size c : lru_ok c -> lru_size c = length (items c).
Proof.
  intros Hok. unfold lru_size.
  assert (index c = list_to_map (map (fun n => (fst (snd n), fst n)) (items c))) as ->.
  { apply map_eq. intros k. destruct (index c !! k) as [it|] eqn:E; symmetry.
    - apply (ok_index _ Hok) in E as [v Hin]. apply elem_of_list_to_map_1.
      + rewrite <- list_fmap_compose.
        pose proof (ok_keys _ Hok) as Hkd. unfold view in Hkd. by rewrite map_map in Hkd.
      + apply (list_elem_of_fmap_2' _ _ (it, (k, v))); done.
    - apply not_elem_of_list_to_map_1. intros Hin.
      rewrite <- list_fmap_compose in Hin.
      apply list_elem_of_fmap in Hin as ([n [k' v]] & -> & Hin). simpl in E.
      assert (index c !! k' = Some n) by (apply (ok_index _ Hok); eauto). congruence. }
  rewrite <- (length_map (fun n => (fst (snd n), fst n)) (items c)).
  apply map_size_list_to_map. rewrite <- list_fmap_compose.
  pose proof (ok_keys _ Hok) as Hkd. unfold view in Hkd. by rewrite map_map in Hkd.
Qed.

Lemma last_take {A} (l : list A) x :
  last l = Some x -> l = take (length l - 1) l ++ [x].
Proof.
  intros (l' & ->)%last_Some. rewrite length_app. simpl.
  replace (length l' + 1 - 1)%nat with (length l') by lia. by rewrite take_app_length.
Qed.

Lemma map_take_view (l : list (nat * (K * V))) n : map snd (take n l) = take n (map snd l).
Proof. revert l. induction n; intros [|x l]; simpl; [done..|]. by rewrite IHn. Qed.

(** Removing one node and its index entry keeps the two in step. *)
Lemma lru_ok_remove c l it k v :
  lru_ok c -> (it, (k, v)) ∈ items c -> sublist l (items c) ->
  (forall n kv, (n, kv) ∈ l <-> n <> it /\ (n, kv) ∈ items c) ->
  lru_ok (mkLru (capacity c) l (delete k (index c)) (next_node c)).
Proof.
  intros Hok Hin Hsub Heq. pose proof (ok_ids _ Hok) as Hid. pose proof (ok_keys _ Hok) as Hkd.
  constructor; simpl.
  - apply (ok_cap _ Hok).
  - eapply sublist_NoDup; [exact Hid|apply (fmap_sublist fst), Hsub].
  - eapply sublist_NoDup; [exact Hkd|apply (fmap_sublist fst), (fmap_sublist snd), Hsub].
  - intros k' it'. rewrite lookup_delete_Some, (ok_index _ Hok). setoid_rewrite Heq. split.
    + intros [Hne [w Hw]]. exists w. split; [|done]. intros ->.
      pose proof (deref_in _ _ _ Hid Hw) as E.
      rewrite (deref_in _ _ _ Hid Hin) in E. simplify_eq.
    + intros (w & Hne & Hw). split; [|by eauto]. intros <-.
      assert (index c !! k = Some it) as E1 by (apply (ok_index _ Hok); eauto).
      assert (index c !! k = Some it') as E2 by (apply (ok_index _ Hok); eauto). congruence.
  - intros n kv [_ Hw]%Heq. by eapply (ok_fresh _ Hok).
  - pose proof (sublist_length _ _ Hsub). pose proof (ok_size _ Hok). lia.
Qed.

Lemma evict_lru_refines c :
  lru_ok c ->
  lru_ok (evict_lru c) /\ view (evict_lru c) = take (length (view c) - 1) (view c) /\
  capacity (evict_lru c) = capacity c /\ next_node (evict_lru c) = next_node c /\
  forall k, index c !! k = None -> index (evict_lru c) !! k = None.
Proof.
  intros Hok. unfold evict_lru. destruct (last (items c)) as [[it [k v]]|] eqn:E.
  - pose proof (last_take _ _ E) as Hl. unfold view. simpl.
    rewrite map_take_view, length_map.
    split; [|split; [done|split; [done|split; [done|]]]].
    + apply (lru_ok_remove _ _ it k v); [done|..].
      * rewrite Hl. apply elem_of_app. right. by apply list_elem_of_singleton.
      * apply sublist_take.
      * intros n kv. pose proof (ok_ids _ Hok) as Hid.
        remember (take (length (items c) - 1) (items c)) as l0 eqn:El.
        rewrite Hl in Hid |- *. rewrite map_app, NoDup_app in Hid. destruct Hid as (_ & Hd & _).
        rewrite elem_of_app, list_elem_of_singleton. split.
        -- intros Hin. split; [|by left]. intros ->. apply (Hd it); [by eapply elem_ids|left].
        -- intros [Hne [?|?]]; [done|]. exfalso. apply Hne. congruence.
    + intros k' E'. apply lookup_delete_None. by right.
  - apply last_None in E. unfold view. rewrite E. split; [done|]. split; [done|]. auto.
Qed.

Lemma lru_push_ok c k v :
  lru_ok c -> index c !! k = None -> (length (items c) < capacity c)%nat ->
  lru_ok (mkLru (capacity c) ((next_node c, (k, v)) :: items c)
            (<[k := next_node c]> (index c)) (S (next_node c))).
Proof.
  intros Hok E Hlt. constructor; simpl.
  - apply (ok_cap _ Hok).
  - apply NoDup_cons. split; [|apply (ok_ids _ Hok)].
    intros ([n kv] & En & Hin)%list_elem_of_fmap. apply (ok_fresh _ Hok) in Hin. simpl in *. lia.
  - apply NoDup_cons. split; [|apply (ok_keys _ Hok)].
    apply assoc_None. by apply (index_None _ _ Hok).
  - intros k' it. setoid_rewrite elem_of_cons. destruct (decide (k = k')) as [<-|Hne].
    + rewrite lookup_insert_eq. split; [intros [= <-]; eauto|].
      intros [w [?|Hw]]; simplify_eq; [done|].
      assert (index c !! k = Some it) by (apply (ok_index _ Hok); eauto). congruence.
    + rewrite lookup_insert_ne, (ok_index _ Hok) by done. split; [intros [w ?]; eauto|].
      intros [w [?|?]]; simplify_eq; eauto.
  - intros it kv. rewrite elem_of_cons. intros [?|Hin]; simplify_eq; [lia|].
    apply (ok_fresh _ Hok) in Hin. lia.
  - lia.
Qed.

Lemma assoc_del_set k v (l : list (K * V)) : assoc_del k (spec_set k v l) = assoc_del k l.
Proof.
  unfold assoc_del, spec_set. induction l as [|[k' v'] l IH]; [done|]. cbn [map fst].
  destruct (decide (k' = k)) as [->|Hne].
  - rewrite !filter_cons_False by (simpl; tauto). done.
  - rewrite !filter_cons_True by done. by rewrite IH.
Qed.

Lemma lru_put_refines c k v :
  lru_ok c ->
  lru_ok (lru_put k v c) /\ view (lru_put k v c) = spec_put (capacity c) k v (view c) /\
  capacity (lru_put k v c) = capacity c.
Proof.
  intros Hok. unfold lru_put, spec_put. destruct (index c !! k) as [it|] eqn:E.
  - destruct (index_Some _ _ _ Hok E) as (w & Hin & -> & _).
    destruct (lru_set_refines c k v Hok) as [Hok' Hv]. unfold lru_set in Hok', Hv.
    rewrite E in Hok', Hv.
    assert ((it, (k, v)) ∈ set_node it v (items c)) as Hin'.
    { apply set_node_in. left. eauto. }
    destruct (splice_front_ok _ it k v Hok' Hin') as [? Hs]. simpl in *.
    split; [done|]. split; [|done]. unfold view at 1. simpl. rewrite Hs.
    unfold view in *. simpl in *. rewrite Hv. by rewrite assoc_del_set.
  - rewrite (proj1 (index_None _ _ Hok) E), (index_size _ Hok).
    assert (length (view c) = length (items c)) as Hlen by apply length_map.
    rewrite Hlen. destruct (capacity c <=? length (items c))%nat eqn:Hc; b2p.
    + destruct (evict_lru_refines c Hok) as (Hok' & Hv & Hcap & Hnext & Hix).
      assert (length (view (evict_lru c)) = (length (items c) - 1)%nat) as Hle.
      { rewrite Hv, length_take, Hlen. lia. }
      unfold view in Hle at 1. rewrite length_map in Hle.
      pose proof (ok_cap _ Hok). pose proof (ok_size _ Hok).
      split; [|split; [|done]].
      * apply lru_push_ok; [done|by apply Hix|]. rewrite Hcap. lia.
      * unfold view at 1. simpl. fold (view (evict_lru c)). rewrite Hv. by rewrite Hlen.
    + split; [by apply lru_push_ok|]. done.
Qed.

Lemma lru_erase_refines c k :
  lru_ok c ->
  lru_ok (snd (lru_erase k c)) /\ view (snd (lru_erase k c)) = assoc_del k (view c) /\
  (fst (lru_erase k c) = true <-> k ∈ map fst (view c)).
Proof.
  intros Hok. unfold lru_erase. destruct (index c !! k) as [it|] eqn:E; simpl.
  - destruct (index_Some _ _ _ Hok E) as (v & Hin & _ & _). split; [|split; [|split]].
    + apply (lru_ok_remove _ _ it k v); [done..| |intros; apply unlink_in].
      unfold unlink. apply sublist_filter.
    + unfold view. simpl. eapply view_unlink; [apply (ok_ids _ Hok)|apply (ok_keys _ Hok)|done].
    + intros _. by eapply elem_keys.
    + done.
  - apply (index_None _ _ Hok), assoc_None in E. split; [done|]. split; [|split; done].
    unfold assoc_del. rewrite filter_id; [done|]. apply Forall_forall. intros x Hx Ek.
    apply E. rewrite <- Ek. by apply (list_elem_of_fmap_2 fst).
Qed.

Lemma foldr_delete_None (m : gmap K nat) (dead : list (nat * (K * V))) k :
  foldr (fun n m => delete (fst (snd n)) m) m dead !! k =
  if decide (k ∈ map fst (map snd dead)) then None else m !! k.
Proof.
  induction dead as [|[n [k' v]] dead IH]; cbn [foldr map fst snd].
  { case_decide as Hx; [by apply not_elem_of_nil in Hx|done]. }
  destruct (decide (k = k')) as [->|Hne].
  - rewrite lookup_delete_eq. rewrite (decide_True _ _); [done|left].
  - rewrite lookup_delete_ne, IH by done.
    repeat case_decide; rewrite ->?elem_of_cons in *; tauto.
Qed.

Lemma view_erase_if p c :
  view (erase_if p c) = filter (fun x => p (fst x) (snd x) = false) (view c).
Proof.
  unfold view, erase_if. simpl. induction (items c) as [|[n kv] l IH]; [done|]. cbn [map snd].
  destruct (p (fst kv) (snd kv)) eqn:E.
  - rewrite !filter_cons_False by (simpl; congruence). done.
  - rewrite !filter_cons_True by done. cbn [map snd]. by rewrite IH.
Qed.

Lemma erase_if_refines p c :
  lru_ok c ->
  lru_ok (erase_if p c) /\
  view (erase_if p c) = filter (fun x => p (fst x) (snd x) = false) (view c).
Proof.
  intros Hok. pose proof (ok_ids _ Hok) as Hid. pose proof (ok_keys _ Hok) as Hkd.
  pose proof (view_erase_if p c) as Hv.
  split; [|done]. constructor; [..|rewrite Hv; by apply NoDup_map_filter| | |]; simpl.
    + apply (ok_cap _ Hok).
    + by apply NoDup_map_filter.
    + intros k it. rewrite foldr_delete_None. case_decide as Hd.
      * split; [done|]. intros (v & [Hp Hin]%list_elem_of_filter).
        apply list_elem_of_fmap in Hd as ([k' w] & -> & Hd).
        apply list_elem_of_fmap in Hd as ([n kv] & E & [Hp' Hd]%list_elem_of_filter).
        simpl in *. subst kv. simpl in *.
        assert (assoc k' (view c) = Some v) as E1.
        { apply assoc_in; [done|]. by apply (list_elem_of_fmap_2 snd) in Hin. }
        assert (assoc k' (view c) = Some w) as E2.
        { apply assoc_in; [done|]. by apply (list_elem_of_fmap_2 snd) in Hd. }
        congruence.
      * rewrite (ok_index _ Hok). setoid_rewrite list_elem_of_filter. simpl. split.
        -- intros [v Hin]. exists v. split; [|done].
           destruct (p k v) eqn:Ep; [|done]. exfalso. apply Hd.
           eapply elem_keys, list_elem_of_filter. split; [|exact Hin]. done.
        -- intros (v & _ & Hin). eauto.
    + intros it kv [_ Hin]%list_elem_of_filter. by eapply (ok_fresh _ Hok).
    + etransitivity; [apply length_filter|apply (ok_size _ Hok)].
Qed.

Lemma lru_clear_refines c : lru_ok c -> lru_ok (lru_clear c) /\ view (lru_clear c) = [].
Proof.
  intros Hok. split; [|done]. destruct (lru_new_ok _ (ok_cap _ Hok)) as [? ? ? ? ? ?].
  constructor; simpl in *; try done. by intros ? ? ?%not_elem_of_nil.
Qed.

(** ** Traces of calls *)

Inductive lru_op :=
  | OpGet (k : K)
  | OpPut (k : K) (v : V)
  | OpErase (k : K)
  | OpEraseIf (p : K -> V -> bool)
  | OpClear.

(** The effect of one call, with what [get] returns. *)
Definition lru_step (c : LruCache K V) (o : lru_op) : LruCache K V * option V :=
  match o with
  | OpGet k => (snd (lru_get k c), fst (lru_get k c))
  | OpPut k v => (lru_put k v c, None)
  | OpErase k => (snd (lru_erase k c), None)
  | OpEraseIf p => (erase_if p c, None)
  | OpClear => (lru_clear c, None)
  end.

Definition spec_step (cap : nat) (l : list (K * V)) (o : lru_op) : list (K * V) * option V :=
  match o with
  | OpGet k => (snd (spec_get k l), fst (spec_get k l))
  | OpPut k v => (spec_put cap k v l, None)
  | OpErase k => (assoc_del k l, None)
  | OpEraseIf p => (filter (fun x => p (fst x) (snd x) = false) l, None)
  | OpClear => ([], None)
  end.

Definition run_trace {S} (step : S -> lru_op -> S * option V) (s : S) (t : list lru_op)
    : S * list (option V) :=
  fold_left (fun a o => let '(s', r) := step (fst a) o in (s', snd a ++ [r])) t (s, []).

Lemma lru_get_capacity k c : capacity (snd (lru_get k c)) = capacity c.
Proof. unfold lru_get. by destruct (index c !! k). Qed.

Lemma lru_erase_capacity k c : capacity (snd (lru_erase k c)) = capacity c.
Proof. unfold lru_erase. by destruct (index c !! k). Qed.

Lemma lru_step_refines c o :
  lru_ok c ->
  lru_ok (fst (lru_step c o)) /\ capacity (fst (lru_step c o)) = capacity c /\
  (view (fst (lru_step c o)), snd (lru_step c o)) = spec_step (capacity c) (view c) o.
Proof.
  intros Hok. destruct o as [k|k v|k|p|]; simpl.
  - destruct (lru_get_refines c k Hok) as [? E]. split; [done|].
    split; [apply lru_get_capacity|]. by rewrite <- E.
  - destruct (lru_put_refines c k v Hok) as (? & -> & ?). done.
  - destruct (lru_erase_refines c k Hok) as (? & -> & _). split; [done|].
    split; [apply lru_erase_capacity|done].
  - destruct (erase_if_refines p c Hok) as (? & ->). done.
  - destruct (lru_clear_refines c Hok) as (? & ->). done.
Qed.

Lemma run_trace_refines_gen t c l rs :
  lru_ok c -> view c = l ->
  let r := fold_left (fun a o => let '(s', r) := lru_step (fst a) o in (s', snd a ++ [r])) t (c, rs) in
  lru_ok (fst r) /\ capacity (fst r) = capacity c /\
  (view (fst r), snd r) =
    fold_left (fun a o => let '(s', r) := spec_step (capacity c) (fst a) o in (s', snd a ++ [r]))
      t (l, rs).
Proof.
  revert c l rs. induction t as [|o t IH]; intros c l rs Hok Hv; simpl; [by rewrite Hv|].
  destruct (lru_step_refines c o Hok) as (Hok' & Hcap & E). rewrite Hv in E.
  destruct (lru_step c o) as [c' r]. destruct (spec_step (capacity c) l o) as [l' r'].
  simpl in *. injection E as E <-. rewrite <- Hcap. by apply IH.
Qed.

(** ** Retention *)

(** The keys a call moves to the front. *)
Definition touched (o : lru_op) : list K :=
  match o with OpGet k => [k] | OpPut k _ => [k] | _ => [] end.

(** The calls that neither write nor erase [k]. *)
Definition spares (k : K) (o : lru_op) : Prop :=
  match o with
  | OpGet k' => k' <> k | OpPut k' _ => k' <> k | OpErase k' => k' <> k
  | _ => False
  end.

(** [k] is held with value [v] behind entries whose keys are all in [T]. *)
Definition held_behind (T : list K) (k : K) (v : V) (l : list (K * V)) : Prop :=
  exists l1 l2, l = l1 ++ (k, v) :: l2 /\ map fst l1 ⊆ T.

Lemma held_assoc_del T k v k' l :
  k' <> k -> held_behind T k v l -> held_behind T k v (assoc_del k' l).
Proof.
  intros Hne (l1 & l2 & -> & HT). unfold assoc_del. rewrite filter_app, filter_cons_True by (simpl; congruence).
  eexists _, _. split; [done|]. intros x (y & -> & [_ Hy]%list_elem_of_filter)%list_elem_of_fmap.
  apply HT. by apply (list_elem_of_fmap_2 fst).
Qed.

Lemma held_push T k v k' v' l :
  held_behind T k v l -> held_behind (T ++ [k']) k v ((k', v') :: l).
Proof.
  intros (l1 & l2 & -> & HT). exists ((k', v') :: l1), l2. split; [done|].
  intros x. simpl. rewrite elem_of_cons, elem_of_app, list_elem_of_singleton. intros [->|?]; auto.
Qed.

Lemma held_weaken T k v k' l : held_behind T k v l -> held_behind (T ++ [k']) k v l.
Proof.
  intros (l1 & l2 & -> & HT). exists l1, l2. split; [done|].
  intros x Hx. apply elem_of_app. left. by apply HT.
Qed.

Lemma NoDup_subset_length (l T : list K) :
  NoDup l -> l ⊆ T -> (length l <= size (list_to_set T : gset K))%nat.
Proof.
  intros Hnd Hsub. rewrite <- (size_list_to_set (C := gset K) l) by done.
  apply subseteq_size. intros x. rewrite !elem_of_list_to_set. apply Hsub.
Qed.

(** Evicting the last entry spares [k] while fewer than [cap] keys precede it. *)
Lemma held_evict T k v k' l cap :
  NoDup (map fst l) -> assoc k' l = None -> k' <> k ->
  held_behind T k v l -> (size (list_to_set (T ++ [k']) : gset K) < cap)%nat ->
  (cap <= length l)%nat -> held_behind T k v (take (length l - 1) l).
Proof.
  intros Hnd Hk' Hne (l1 & l2 & -> & HT) Hlt Hlen.
  apply assoc_None in Hk'. rewrite map_app in Hnd, Hk'.
  rewrite not_elem_of_app in Hk'. destruct Hk' as [Hk' _].
  apply NoDup_app in Hnd as (Hnd & _ & _).
  assert (length l1 + 1 < cap \/ length l1 + 1 >= cap)%nat as [Hc|Hc] by lia.
  - rewrite length_app in *. simpl in *.
    replace (length l1 + S (length l2) - 1)%nat with (length l1 + length l2)%nat by lia.
    rewrite take_app_add. destruct (length l2) as [|n] eqn:El; [lia|]. simpl.
    eexists _, _. split; [done|done].
  - exfalso. assert (length (map fst l1 ++ [k']) <= size (list_to_set (T ++ [k']) : gset K))%nat.
    { apply NoDup_subset_length.
      - apply NoDup_app. split; [done|]. split; [|apply NoDup_singleton].
        intros x Hx ->%list_elem_of_singleton. done.
      - intros x. rewrite !elem_of_app. intros [?|?]; auto. }
    rewrite length_app, length_map in *. simpl in *. lia.
Qed.

Lemma spec_step_keys cap l o :
  NoDup (map fst l) -> NoDup (map fst (fst (spec_step cap l o))).
Proof.
  assert (forall k v l0, NoDup (map fst l0) -> NoDup (map fst ((k, v) :: assoc_del k l0))) as Hmv.
  { intros k v l0 Hnd. cbn [map fst]. apply NoDup_cons. split; [|by apply NoDup_map_filter].
    intros ([k' v'] & E & [Hne _]%list_elem_of_filter)%list_elem_of_fmap. by simpl in *. }
  intros Hnd. destruct o as [k|k v|k|p|]; simpl; try by apply NoDup_map_filter.
  - unfold spec_get. destruct (assoc k l); [by apply Hmv|done].
  - unfold spec_put. destruct (assoc k l) eqn:E; [by apply Hmv|].
    apply assoc_None in E. cbn [map fst]. apply NoDup_cons. case_if; [|done]. split.
    + intros Hin. apply E. change (map fst) with (fmap (M := list) (@fst K V)) in *.
      rewrite fmap_take in Hin. eapply elem_of_sublist; [exact Hin|apply sublist_take].
    + change (map fst) with (fmap (M := list) (@fst K V)) in *. rewrite fmap_take.
      eapply sublist_NoDup; [exact Hnd|apply sublist_take].
  - constructor.
Qed.

Lemma spec_step_retains cap T k v l o :
  NoDup (map fst l) -> spares k o -> held_behind T k v l ->
  (size (list_to_set (T ++ touched o) : gset K) < cap)%nat ->
  held_behind (T ++ touched o) k v (fst (spec_step cap l o)).
Proof.
  intros Hnd Hsp Hh Hlt. destruct o as [k'|k' v'|k'|p|]; simpl in *; try done.
  - unfold spec_get. destruct (assoc k' l); simpl.
    + by apply held_push, held_assoc_del.
    + by apply held_weaken.
  - unfold spec_put. destruct (assoc k' l) eqn:E.
    + by apply held_push, held_assoc_del.
    + apply held_push. case_if; b2p; [|done]. by eapply held_evict.
  - rewrite app_nil_r. by apply held_assoc_del.
Qed.

Lemma spec_trace_retains cap t T k v l rs :
  NoDup (map fst l) -> Forall (spares k) t -> held_behind T k v l ->
  (size (list_to_set (T ++ flat_map touched t) : gset K) < cap)%nat ->
  held_behind (T ++ flat_map touched t) k v
    (fst (fold_left (fun a o => let '(s', r) := spec_step cap (fst a) o in (s', snd a ++ [r]))
            t (l, rs))).
Proof.
  revert T l rs. induction t as [|o t IH]; intros T l rs Hnd Hsp Hh Hlt; simpl in *.
  { by rewrite app_nil_r. }
  apply Forall_cons in Hsp as [Ho Hsp]. rewrite app_assoc in *.
  pose proof (spec_step_keys cap l o Hnd) as Hnd'.
  assert (held_behind (T ++ touched o) k v (fst (spec_step cap l o))) as Hh'.
  { apply spec_step_retains; [done..|]. eapply Nat.le_lt_trans; [|exact Hlt].
    apply subseteq_size. intros x. rewrite !elem_of_list_to_set, !elem_of_app. tauto. }
  destruct (spec_step cap l o) as [l' r]. simpl in *. by apply IH.
Qed.

Lemma held_assoc T k v l : NoDup (map fst l) -> held_behind T k v l -> assoc k l = Some v.
Proof.
  intros Hnd (l1 & l2 & -> & _). apply assoc_in; [done|]. apply elem_of_app. right. left.
Qed.

Lemma assoc_head k v (l : list (K * V)) : assoc k ((k, v) :: l) = Some v.
Proof. simpl. by rewrite decide_True. Qed.
End lru.
Arguments lru_op : clear implicits.

(** C6: whatever sequence of calls is made on a fresh cache, the linked list and
    the index stay consistent, the cache never holds more than its capacity, and
    the results of [get] and the contents in recency order are those of the plain
    list specification. *)
Theorem lru_refines {K V} `{Countable K} (cap : nat) (t : list (lru_op K V)) :
  (0 < cap)%nat ->
  let c := fst (run_trace lru_step (lru_new cap) t) in
  lru_ok c /\ (lru_size c <= cap)%nat /\
  (view c, snd (run_trace lru_step (lru_new cap) t)) = run_trace (spec_step cap) [] t.
Proof.
  intros Hcap. pose proof (lru_new_ok (K := K) (V := V) cap Hcap) as Hok.
  destruct (run_trace_refines_gen t (lru_new cap) [] [] Hok eq_refl) as (Hok' & Hc & E).
  split; [done|]. split; [|exact E]. unfold run_trace.
  rewrite (index_size _ Hok'). etransitivity; [apply (ok_size _ Hok')|]. by rewrite Hc.
Qed.

Lemma lru_refines_witness :
  let t := [OpPut 1 10; OpPut 2 20; OpGet 1; OpPut 3 30; OpGet 2] : list (lru_op Z Z) in
  (0 < 2)%nat /\ view (fst (run_trace lru_step (lru_new 2) t)) = [(3, 30); (1, 10)].
Proof.
  split; [lia|].
  destruct (lru_refines 2 ([OpPut 1 10; OpPut 2 20; OpGet 1; OpPut 3 30; OpGet 2] : list (lru_op Z Z))
              ltac:(lia)) as (_ & _ & E).
  vm_compute in E |- *. congruence.
Defined.

(** An entry is evicted only after [capacity] distinct other keys were used:
    whatever happened before, a value [put] under [k] is returned by [get] as long
    as the calls in between touch fewer than [capacity] distinct keys and neither
    overwrite nor erase [k]. *)
Theorem lru_retains {K V} `{Countable K} (cap : nat) (t1 t2 : list (lru_op K V)) (k : K) (v : V) :
  (0 < cap)%nat -> Forall (spares k) t2 ->
  (size (list_to_set (flat_map touched t2) : gset K) < cap)%nat ->
  fst (lru_get k (fst (run_trace lru_step (lru_new cap) (t1 ++ OpPut k v :: t2)))) = Some v.
Proof.
  intros Hcap Hsp Hlt. pose proof (lru_new_ok (K := K) (V := V) cap Hcap) as Hok.
  unfold run_trace. rewrite fold_left_app.
  destruct (run_trace_refines_gen t1 (lru_new cap) [] [] Hok eq_refl) as (Hok1 & Hc1 & _).
  destruct (fold_left _ t1 (lru_new cap, [])) as [c1 r1]. simpl in *.
  destruct (lru_put_refines c1 k v Hok1) as (Hok2 & Hv2 & Hc2).
  destruct (run_trace_refines_gen t2 _ _ (r1 ++ [None]) Hok2 eq_refl) as (Hok3 & _ & E).
  destruct (fold_left _ t2 (lru_put k v c1, _)) as [c3 r3]. simpl in *.
  destruct (lru_get_refines c3 k Hok3) as (_ & Eg). unfold spec_get in Eg.
  assert (assoc k (view c3) = Some v) as Ea.
  { apply (held_assoc (flat_map touched t2)); [apply (ok_keys _ Hok3)|].
    apply (f_equal fst) in E. simpl in E. rewrite E, Hc2, Hc1.
    apply (spec_trace_retains cap t2 []); [apply (ok_keys _ Hok2)|done| |done].
    rewrite Hv2. unfold spec_put. destruct (assoc k (view c1)); exists []; eexists; (split; [reflexivity|apply list_subseteq_nil]). }
  rewrite Ea in Eg. congruence.
Qed.

Lemma lru_retains_witness :
  (0 < 2)%nat /\
  fst (lru_get 1 (fst (run_trace lru_step (lru_new 2)
    ([OpPut 5 50; OpPut 6 60] ++ OpPut 1 10 :: [OpPut 2 20; OpGet 2; OpPut 2 21]
       : list (lru_op Z Z))))) = Some 10.
Proof.
  split; [lia|].
  apply (lru_retains 2 [OpPut 5 50; OpPut 6 60] [OpPut 2 20; OpGet 2; OpPut 2 21] 1 10).
  - lia.
  - repeat constructor; simpl; lia.
  - vm_compute. lia.
Defined.
