(* ===== verification/NodeId.v ===== *)
(** * Kademlia node identifiers (inc/dht/node_id.h, src/dht/node_id.cpp)

    An identifier is twenty bytes, read as a 160-bit big-endian number by [nid_val].
    The byte-wise operations of the source are related to that number: [operator^]
    is bitwise exclusive or and [operator<] the numeric order, which gives the XOR
    metric its laws. *)

From S2P Require Import Prelude CxxLib ByteOrder Hash.

(** [struct NodeId] *)
Record NodeId := mkNodeId { nid_bytes : bytes }.

#[global] Instance NodeId_eq_dec : EqDecision NodeId.
Proof. solve_decision. Defined.
#[global] Program Instance NodeId_countable : Countable NodeId :=
  inj_countable' nid_bytes mkNodeId _.
Next Obligation. by intros []. Qed.

Definition nid_ok (i : NodeId) : Prop := length (nid_bytes i) = 20%nat /\ bytes_ok (nid_bytes i).

#[global] Instance nid_ok_dec i : Decision (nid_ok i).
Proof. unfold nid_ok. apply _. Defined.

(** The default member initialiser [bytes{}]. *)
Definition nid_zero : NodeId := mkNodeId (replicate 20 0).

(** [NodeId::random], the draws of the generator being the argument. *)
Definition nid_random (dist : nat -> Z) : NodeId :=
  mkNodeId (map (fun i => u8 (dist i)) (seq 0 20)).

Definition from_string (s : bytes) : NodeId :=
  if negb (length s =? 20)%nat then nid_zero else mkNodeId s.

Definition from_info_hash (hash : InfoHash) : NodeId := mkNodeId (take 20 (ih_bytes hash)).

Definition nid_to_string (i : NodeId) : bytes := nid_bytes i.

Definition nid_xor (a b : NodeId) : NodeId :=
  mkNodeId (zip_with Z.lxor (nid_bytes a) (nid_bytes b)).

(** [std::array::operator<] is lexicographic. *)
Definition nid_ltb (a b : NodeId) : bool := bytes_ltb (nid_bytes a) (nid_bytes b).

Definition nid_hex (i : NodeId) : bytes := to_hex (nid_bytes i).

Definition is_zero (i : NodeId) : bool := forallb (fun b => b =? 0) (nid_bytes i).

Definition nid_val (i : NodeId) : Z := be_val (nid_bytes i).

(** ** Byte strings as numbers *)

Definition be_from (a : Z) (s : bytes) : Z := fold_left (fun a b => a * 256 + b) s a.

Lemma be_from_shift a s : be_from a s = a * 256 ^ Z.of_nat (length s) + be_val s.
Proof.
  unfold be_from, be_val. revert a. induction s as [|x s IH]; intros a; cbn [fold_left length]; [lia|].
  rewrite IH, (IH (0 * 256 + x)). rewrite Nat2Z.inj_succ, Z.pow_succ_r by lia. lia.
Qed.

Lemma be_val_cons x s : be_val (x :: s) = x * 256 ^ Z.of_nat (length s) + be_val s.
Proof. apply (be_from_shift (0 * 256 + x) s). Qed.

Lemma be_val_range s : bytes_ok s -> 0 <= be_val s < 256 ^ Z.of_nat (length s).
Proof.
  unfold bytes_ok, byte_ok. induction 1 as [|x s Hx Hs IH]; [done|].
  rewrite be_val_cons. cbn [length]. rewrite Nat2Z.inj_succ, Z.pow_succ_r by lia. nia.
Qed.

Lemma pow256 n : 0 <= n -> 256 ^ n = 2 ^ (8 * n).
Proof. intros. change 256 with (2 ^ 8). by rewrite <- Z.pow_mul_r by lia. Qed.

(** Bit [n] of a number split at bit [m]. *)
Lemma testbit_split x y m n :
  0 <= m -> 0 <= n -> 0 <= y < 2 ^ m ->
  Z.testbit (x * 2 ^ m + y) n = if n <? m then Z.testbit y n else Z.testbit x (n - m).
Proof.
  intros Hm Hn Hy. destruct (Z.ltb_spec n m).
  - rewrite <- (Z.mod_pow2_bits_low (x * 2 ^ m + y) m n) by lia.
    rewrite Z.add_comm, Z.mod_add, Z.mod_small by lia. done.
  - replace n with ((n - m) + m) at 1 by lia. rewrite <- Z.div_pow2_bits by lia.
    rewrite Z.div_add_l, Z.div_small, Z.add_0_r by lia. done.
Qed.

(** Bit [n] of a byte string, counted from its most significant end. *)
Definition bit_at (s : bytes) (n : nat) : bool :=
  match s !! (n / 8)%nat with
  | Some b => Z.testbit b (7 - Z.of_nat (n mod 8))
  | None => false
  end.

Lemma bit_at_cons_lt x s n : (n < 8)%nat -> bit_at (x :: s) n = Z.testbit x (7 - Z.of_nat n).
Proof.
  intros. unfold bit_at. rewrite Nat.div_small, Nat.mod_small by lia. done.
Qed.

Lemma bit_at_cons_ge x s n : bit_at (x :: s) (8 + n) = bit_at s n.
Proof.
  unfold bit_at. replace (8 + n)%nat with (n + 1 * 8)%nat by lia.
  rewrite Nat.div_add, Nat.Div0.mod_add by lia.
  replace (n / 8 + 1)%nat with (S (n / 8)) by lia. done.
Qed.

Lemma be_val_testbit s n :
  bytes_ok s -> (n < 8 * length s)%nat ->
  Z.testbit (be_val s) (8 * Z.of_nat (length s) - 1 - Z.of_nat n) = bit_at s n.
Proof.
  intros Hs. revert n. induction Hs as [|x s Hx Hs IH]; intros n Hn; [simpl in Hn; lia|].
  rewrite be_val_cons. cbn [length] in *. pose proof (be_val_range s Hs) as Hr.
  rewrite pow256 in * by lia. rewrite testbit_split by lia.
  destruct (Nat.lt_ge_cases n 8) as [Hlt|Hge].
  - rewrite bit_at_cons_lt, (proj2 (Z.ltb_ge _ _)) by lia. f_equal. lia.
  - assert (exists m, n = (8 + m)%nat) as [m ->] by (exists (n - 8)%nat; lia).
    rewrite bit_at_cons_ge, <- IH by lia.
    rewrite (proj2 (Z.ltb_lt _ _)) by lia. f_equal. lia.
Qed.

Lemma lxor_byte_ok x y : byte_ok x -> byte_ok y -> byte_ok (Z.lxor x y).
Proof.
  unfold byte_ok. intros Hx Hy. split; [apply Z.lxor_nonneg; lia|].
  destruct (Z.eq_dec (Z.lxor x y) 0) as [->|Hne]; [lia|].
  apply (Z.log2_lt_cancel _ 256). change (Z.log2 256) with 8.
  pose proof (Z.log2_lxor x y ltac:(lia) ltac:(lia)).
  assert (forall z, 0 <= z < 256 -> Z.log2 z < 8) as Hl.
  { intros z Hz. destruct (Z.eq_dec z 0) as [->|?]; [done|]. apply Z.log2_lt_pow2; lia. }
  pose proof (Hl x Hx). pose proof (Hl y Hy). lia.
Qed.

Lemma zip_lxor_ok s t : bytes_ok s -> bytes_ok t -> bytes_ok (zip_with Z.lxor s t).
Proof.
  intros Hs. revert t. induction Hs as [|x s Hx Hs IH]; intros [|y t] Ht; simpl; try constructor.
  - inversion Ht. by apply lxor_byte_ok.
  - inversion Ht. by apply IH.
Qed.

(** The byte-wise exclusive or is the exclusive or of the numbers. *)
Lemma be_val_lxor s t :
  length s = length t -> bytes_ok s -> bytes_ok t ->
  be_val (zip_with Z.lxor s t) = Z.lxor (be_val s) (be_val t).
Proof.
  intros Hlen Hs. revert t Hlen. induction Hs as [|x s Hx Hs IH]; intros [|y t] Hlen Ht; try done.
  inversion Ht as [|? ? Hy Ht']; subst. cbn [zip_with]. injection Hlen as Hlen.
  rewrite !be_val_cons, IH by done. rewrite length_zip_with, <- Hlen, Nat.min_id, pow256 by lia.
  pose proof (be_val_range s Hs) as Rs. pose proof (be_val_range t Ht') as Rt.
  rewrite <- Hlen in Rt. rewrite pow256 in Rs, Rt by lia.
  set (m := 8 * Z.of_nat (length s)) in *.
  assert (0 <= Z.lxor (be_val s) (be_val t) < 2 ^ m) as Rx.
  { rewrite <- IH by done. pose proof (be_val_range _ (zip_lxor_ok s t Hs Ht')) as R.
    rewrite length_zip_with, <- Hlen, Nat.min_id, pow256 in R by lia. done. }
  apply Z.bits_inj'. intros n Hn.
  rewrite Z.lxor_spec, !testbit_split by lia. destruct (n <? m); by rewrite Z.lxor_spec.
Qed.

(** Lexicographic order on strings of one length is the numeric order. *)
Lemma be_val_ltb s t :
  length s = length t -> bytes_ok s -> bytes_ok t ->
  bytes_ltb s t = (be_val s <? be_val t).
Proof.
  intros Hlen Hs. revert t Hlen. induction Hs as [|x s Hx Hs IH]; intros [|y t] Hlen Ht; try done.
  inversion Ht as [|? ? Hy Ht']; subst. injection Hlen as Hlen. cbn [bytes_ltb].
  rewrite !be_val_cons, IH by done. rewrite <- Hlen.
  pose proof (be_val_range s Hs). pose proof (be_val_range t Ht').
  rewrite <- Hlen in *. set (B := 256 ^ Z.of_nat (length s)) in *.
  apply eq_true_iff_eq. rewrite orb_true_iff, andb_true_iff, !Z.ltb_lt, Z.eqb_eq.
  split; [intros [?|[-> ?]]; nia|]. intros Hlt.
  destruct (Z.lt_trichotomy x y) as [?|[?|?]]; [by left|right; split; nia|nia].
Qed.

Lemma be_val_inj s t :
  length s = length t -> bytes_ok s -> bytes_ok t -> be_val s = be_val t -> s = t.
Proof.
  intros Hlen Hs. revert t Hlen. induction Hs as [|x s Hx Hs IH]; intros [|y t] Hlen Ht; try done.
  inversion Ht as [|? ? Hy Ht']; subst. injection Hlen as Hlen.
  rewrite !be_val_cons, <- Hlen. intros E.
  pose proof (be_val_range s Hs). pose proof (be_val_range t Ht'). rewrite <- Hlen in *.
  set (B := 256 ^ Z.of_nat (length s)) in *.
  assert (x = y) as -> by nia. f_equal. apply IH; [done..|]. nia.
Qed.

(** ** Identifiers *)

Lemma nid_xor_ok a b : nid_ok a -> nid_ok b -> nid_ok (nid_xor a b).
Proof.
  intros [La Ha] [Lb Hb]. split; simpl; [rewrite length_zip_with; lia|by apply zip_lxor_ok].
Qed.

Lemma nid_val_range a : nid_ok a -> 0 <= nid_val a < 2 ^ 160.
Proof.
  intros [La Ha]. unfold nid_val. pose proof (be_val_range _ Ha) as R.
  rewrite La, pow256 in R by lia. exact R.
Qed.

Lemma nid_val_xor a b : nid_ok a -> nid_ok b -> nid_val (nid_xor a b) = Z.lxor (nid_val a) (nid_val b).
Proof. intros [La Ha] [Lb Hb]. unfold nid_val. simpl. apply be_val_lxor; [congruence|done..]. Qed.

Lemma nid_ltb_val a b : nid_ok a -> nid_ok b -> nid_ltb a b = (nid_val a <? nid_val b).
Proof. intros [La Ha] [Lb Hb]. apply be_val_ltb; [congruence|done..]. Qed.

Lemma nid_val_inj a b : nid_ok a -> nid_ok b -> nid_val a = nid_val b -> a = b.
Proof.
  intros [La Ha] [Lb Hb] E. destruct a, b. simpl in *. f_equal. by apply be_val_inj; [congruence|..].
Qed.

Lemma nid_zero_ok : nid_ok nid_zero.
Proof. split; [done|]. apply Forall_replicate. unfold byte_ok. lia. Qed.

Lemma from_string_ok s : bytes_ok s -> nid_ok (from_string s).
Proof.
  intros Hs. unfold from_string. destruct (length s =? 20)%nat eqn:E; simpl.
  - by apply Nat.eqb_eq in E.
  - apply nid_zero_ok.
Qed.

Lemma from_string_to_string i : nid_ok i -> from_string (nid_to_string i) = i.
Proof. intros [Hl _]. unfold from_string, nid_to_string. rewrite Hl. simpl. by destruct i. Qed.

Lemma from_info_hash_ok h : ih_ok h -> nid_ok (from_info_hash h).
Proof.
  intros [Hl Hb]. split; simpl; [rewrite length_take; lia|]. by apply bytes_ok_take.
Qed.

Lemma is_zero_val a : nid_ok a -> is_zero a = (nid_val a =? 0).
Proof.
  intros Ha. apply eq_true_iff_eq. rewrite Z.eqb_eq. unfold is_zero.
  rewrite forallb_forall. split.
  - intros Hz. assert (a = nid_zero) as ->; [|done].
    destruct a as [s], Ha as [Hl Hb]. unfold nid_zero. cbn [nid_bytes] in *. f_equal.
    rewrite <- Hl. clear Hl. induction s as [|x s IH]; [done|]. cbn [length replicate].
    rewrite <- IH.
    + f_equal. apply Z.eqb_eq, Hz. by left.
    + by inversion Hb.
    + intros y Hy. apply Hz. by right.
  - intros Hv x Hx. assert (a = nid_zero) as ->.
    { apply nid_val_inj; [done|apply nid_zero_ok|by rewrite Hv]. }
    apply list_elem_of_In, elem_of_replicate in Hx as [-> _]. done.
Qed.

Lemma xor_is_zero a b : nid_ok a -> nid_ok b -> is_zero (nid_xor a b) = bool_decide (a = b).
Proof.
  intros Ha Hb. rewrite is_zero_val, nid_val_xor by eauto using nid_xor_ok.
  apply eq_true_iff_eq. rewrite Z.eqb_eq, Z.lxor_eq_0_iff, bool_decide_eq_true.
  split; [by apply nid_val_inj|congruence].
Qed.

Lemma lxor_le_add x y : 0 <= x -> 0 <= y -> Z.lxor x y <= x + y.
Proof.
  intros. assert (Z.lxor x y + 2 * Z.land x y = x + y) as <- by apply Z.add_lxor_2land.
  assert (0 <= Z.land x y) by (apply Z.land_nonneg; lia). lia.
Qed.

#[export] Hint Resolve nid_xor_ok nid_zero_ok from_string_ok from_info_hash_ok : bt.

(** The distance the DHT orders nodes by is a metric on identifiers, as
    Kademlia requires: it is symmetric, zero exactly between equal identifiers,
    obeys the triangle inequality, determines the second point from the first,
    and comparing two distances with [operator<] compares the 160-bit numbers
    [target xor a] and [target xor b]. *)
Theorem xor_metric a b c :
  nid_ok a -> nid_ok b -> nid_ok c ->
  nid_xor a b = nid_xor b a /\
  (is_zero (nid_xor a b) = true <-> a = b) /\
  nid_val (nid_xor a c) <= nid_val (nid_xor a b) + nid_val (nid_xor b c) /\
  (nid_xor a b = nid_xor a c -> b = c) /\
  nid_ltb (nid_xor a b) (nid_xor a c) =
    (Z.lxor (nid_val a) (nid_val b) <? Z.lxor (nid_val a) (nid_val c)).
Proof.
  intros Ha Hb Hc. split; [|split; [|split; [|split]]].
  - apply nid_val_inj; auto with bt. rewrite !nid_val_xor by done. apply Z.lxor_comm.
  - rewrite xor_is_zero by done. apply bool_decide_eq_true.
  - rewrite !nid_val_xor by done.
    replace (Z.lxor (nid_val a) (nid_val c))
      with (Z.lxor (Z.lxor (nid_val a) (nid_val b)) (Z.lxor (nid_val b) (nid_val c))).
    + pose proof (nid_val_range a Ha). pose proof (nid_val_range b Hb). pose proof (nid_val_range c Hc).
      apply lxor_le_add; apply Z.lxor_nonneg; lia.
    + rewrite Z.lxor_assoc, <- (Z.lxor_assoc (nid_val b) (nid_val b)), Z.lxor_nilpotent, Z.lxor_0_l. done.
  - intros E. apply nid_val_inj; [done..|]. apply (f_equal nid_val) in E.
    rewrite !nid_val_xor in E by done. apply (f_equal (Z.lxor (nid_val a))) in E.
    by rewrite <- !Z.lxor_assoc, Z.lxor_nilpotent, !Z.lxor_0_l in E.
  - rewrite nid_ltb_val by auto with bt. by rewrite !nid_val_xor.
Qed.

(** An identifier with the given last byte. *)
Definition sample_id (b : Z) : NodeId := mkNodeId (replicate 19 0 ++ [u8 b]).

Lemma sample_id_ok b : nid_ok (sample_id b).
Proof.
  split; [done|]. unfold sample_id. cbn [nid_bytes]. apply bytes_ok_app. split.
  - apply Forall_replicate. unfold byte_ok. lia.
  - apply Forall_singleton, u8_range.
Qed.

Lemma xor_metric_witness :
  nid_ok (sample_id 1) /\ nid_ok (sample_id 2) /\ nid_ok (sample_id 7) /\
  nid_val (nid_xor (sample_id 1) (sample_id 7)) = 6 /\
  nid_ltb (nid_xor (sample_id 1) (sample_id 2)) (nid_xor (sample_id 1) (sample_id 7)) = true.
Proof.
  split; [apply sample_id_ok|]. split; [apply sample_id_ok|]. split; [apply sample_id_ok|].
  split; [vm_compute; reflexivity|].
  destruct (xor_metric (sample_id 1) (sample_id 2) (sample_id 7)
              (sample_id_ok 1) (sample_id_ok 2) (sample_id_ok 7)) as (_ & _ & _ & _ & ->).
  vm_compute. reflexivity.
Defined.
