(* ===== verification/RoutingTable.v ===== *)
(** * The Kademlia routing table
    (inc/dht/routing_table.h, src/dht/routing_table.cpp)

    The table is three arrays of 160 cells: the buckets, each an array of [K] slots
    of which a prefix is in use, the bucket sizes and the per-bucket counters of
    received peers.  The operations are the array loops of the source;
    [bucket_entries] is the abstract bucket (the used prefix, least recently seen
    first), and every operation is proved to act on it as a short list operation.
    A time point is a number of nanoseconds of the steady clock; the operations that
    read the clock take it as the argument [now]. *)

From S2P Require Import Prelude CxxLib ByteOrder Hash Addr NodeId.

Definition NUM_BUCKETS : nat := 160.
Definition K : nat := 8.

Definition minutes (n : Z) : Z := n * 60 * 10 ^ 9.
Definition NODE_GOOD_TIMEOUT : Z := minutes 15.

(** ** Entries *)

Record RoutingEntry := mkEntry { re_id : NodeId; re_pa : PeerAddress; last_seen : Z }.

#[global] Instance RoutingEntry_eq_dec : EqDecision RoutingEntry.
Proof. solve_decision. Defined.

(** A value-initialised entry. *)
Definition entry_default : RoutingEntry := mkEntry nid_zero (mkPeer [] 0) 0.

Definition is_good (now : Z) (e : RoutingEntry) : bool := now - last_seen e <? NODE_GOOD_TIMEOUT.

Section compact_node.
Context `{Inet}.

(** [RoutingEntry::compact] *)
Definition compact (e : RoutingEntry) : bytes :=
  nid_bytes (re_id e) ++ peer_to_compact (ip (re_pa e)) (port (re_pa e)).

(** [RoutingEntry::from_compact] *)
Definition from_compact (now : Z) (data : bytes) (offset : nat) : RoutingEntry :=
  if (length data <? offset + 26)%nat then entry_default
  else mkEntry (from_string (slice offset (offset + 20) data))
         (mkPeer (inet_ntoa (slice (offset + 20) (offset + 24) data))
                 (read_be16 (drop (offset + 24) data)))
         now.
End compact_node.

(** ** The table *)

Record RoutingTable := mkTable {
  self_id : NodeId;
  buckets : list (list RoutingEntry);
  bucket_sizes : list nat;
  peers_received : list Z;
}.

Definition rt_new (self : NodeId) : RoutingTable :=
  mkTable self (replicate NUM_BUCKETS (replicate K entry_default))
    (replicate NUM_BUCKETS 0%nat) (replicate NUM_BUCKETS 0).

(** [bucket_sizes_[b]] and [buckets_[b]] *)
Definition size_of (t : RoutingTable) (b : nat) : nat := default 0%nat (bucket_sizes t !! b).
Definition slots_of (t : RoutingTable) (b : nat) : list RoutingEntry := default [] (buckets t !! b).
Definition slot (l : list RoutingEntry) (i : nat) : RoutingEntry := default entry_default (l !! i).

Definition set_slots (t : RoutingTable) (b : nat) (l : list RoutingEntry) : RoutingTable :=
  mkTable (self_id t) (<[b := l]> (buckets t)) (bucket_sizes t) (peers_received t).
Definition set_size (t : RoutingTable) (b n : nat) : RoutingTable :=
  mkTable (self_id t) (buckets t) (<[b := n]> (bucket_sizes t)) (peers_received t).
Definition count_received (t : RoutingTable) (b : nat) : RoutingTable :=
  mkTable (self_id t) (buckets t) (bucket_sizes t)
    (<[b := u64 (default 0 (peers_received t !! b) + 1)]> (peers_received t)).

(** [for (int bit = 7; bit >= 0; --bit) if (b & (1u << bit)) return bit] *)
Fixpoint msb_bit (b : Z) (n : nat) : option nat :=
  match n with
  | O => None
  | S bit =>
      if negb (Z.land b (Z.shiftl 1 (Z.of_nat bit)) =? 0) then Some bit else msb_bit b bit
  end.

(** The byte loop of [bucket_index]. *)
Fixpoint bucket_loop (dist : bytes) (byte_idx : nat) : nat :=
  match dist with
  | [] => 0%nat
  | b :: dist' =>
      if b =? 0 then bucket_loop dist' (S byte_idx)
      else match msb_bit b 8 with
           | Some bit => (NUM_BUCKETS - 1 - (byte_idx * 8 + (7 - bit)))%nat
           | None => bucket_loop dist' (S byte_idx)
           end
  end.

Definition bucket_index (self id : NodeId) : nat :=
  let dist := nid_xor self id in
  if is_zero dist then NUM_BUCKETS else bucket_loop (nid_bytes dist) 0.

(** The scan of [find_in_bucket], from slot [i] with [n] slots left. *)
Fixpoint find_loop (l : list RoutingEntry) (id : NodeId) (i n : nat) : option nat :=
  match n with
  | O => None
  | S n' => if decide (re_id (slot l i) = id) then Some i else find_loop l id (S i) n'
  end.

Definition find_in_bucket (t : RoutingTable) (bucket : nat) (id : NodeId) : option nat :=
  if (NUM_BUCKETS <=? bucket)%nat then None
  else find_loop (slots_of t bucket) id 0 (size_of t bucket).

(** [for (i = idx; i + 1 < size; ++i) b[i] = b[i + 1]], [n] rounds *)
Fixpoint shift_loop (l : list RoutingEntry) (i n : nat) : list RoutingEntry :=
  match n with
  | O => l
  | S n' => shift_loop (<[i := slot l (S i)]> l) (S i) n'
  end.

Definition touch_bucket_entry (t : RoutingTable) (bucket idx : nat) (entry : RoutingEntry)
    : RoutingTable :=
  let size := size_of t bucket in
  if (size <=? idx)%nat then t else
  let l := <[idx := entry]> (slots_of t bucket) in
  if (idx + 1 <? size)%nat then
    let updated := slot l idx in
    let l := shift_loop l idx (size - 1 - idx) in
    set_slots t bucket (<[(size - 1)%nat := updated]> l)
  else set_slots t bucket l.

(** The scan for the least recently seen slot, from slot [i] with [n] left. *)
Fixpoint oldest_loop (l : list RoutingEntry) (i n : nat) (oldest : Z) (replace_idx : nat) : nat :=
  match n with
  | O => replace_idx
  | S n' =>
      if last_seen (slot l i) <? oldest
      then oldest_loop l (S i) n' (last_seen (slot l i)) i
      else oldest_loop l (S i) n' oldest replace_idx
  end.

(** A full bucket: replace the least recently seen entry unless it is good. *)
Definition replace_stale (now : Z) (t : RoutingTable) (bucket : nat) (entry : RoutingEntry)
    : RoutingTable :=
  let l := slots_of t bucket in
  let replace_idx := oldest_loop l 1 (size_of t bucket - 1) (last_seen (slot l 0)) 0 in
  if negb (is_good now (slot l replace_idx))
  then set_slots t bucket (<[replace_idx := entry]> l)
  else t.

(** [RoutingTable::add] *)
Definition add (now : Z) (t : RoutingTable) (entry : RoutingEntry) (count_as_received : bool)
    : RoutingTable :=
  if bool_decide (re_id entry = self_id t) || is_zero (re_id entry) then t else
  let bucket := bucket_index (self_id t) (re_id entry) in
  if (NUM_BUCKETS <=? bucket)%nat then t else
  let t := if count_as_received then count_received t bucket else t in
  match find_in_bucket t bucket (re_id entry) with
  | Some idx =>
      touch_bucket_entry (set_slots t bucket (<[idx := entry]> (slots_of t bucket))) bucket idx entry
  | None =>
      let size := size_of t bucket in
      if (size <? K)%nat then
        set_size (set_slots t bucket (<[size := entry]> (slots_of t bucket))) bucket (S size)
      else replace_stale now t bucket entry
  end.

(** [RoutingTable::remove] *)
Definition remove (t : RoutingTable) (id : NodeId) : RoutingTable :=
  let bucket := bucket_index (self_id t) id in
  if (NUM_BUCKETS <=? bucket)%nat then t else
  let size := size_of t bucket in
  match find_loop (slots_of t bucket) id 0 size with
  | None => t
  | Some i =>
      set_size (set_slots t bucket (shift_loop (slots_of t bucket) i (size - 1 - i)))
        bucket (size - 1)
  end.

(** The entries in use of a bucket, oldest contact first. *)
Definition bucket_entries (t : RoutingTable) (b : nat) : list RoutingEntry :=
  take (size_of t b) (slots_of t b).

(** [all]: for each bucket the slots in use. *)
Definition all (t : RoutingTable) : list RoutingEntry :=
  flat_map (bucket_entries t) (seq 0 NUM_BUCKETS).

Definition rt_size (t : RoutingTable) : nat := foldr Nat.add 0%nat (bucket_sizes t).

Definition bucket_occupancy (t : RoutingTable) : list nat := bucket_sizes t.
Definition peers_received_per_bucket (t : RoutingTable) : list Z := peers_received t.

(** The comparator of [closest]. *)
Definition closer (target : NodeId) (a b : RoutingEntry) : Prop :=
  nid_ltb (nid_xor target (re_id b)) (nid_xor target (re_id a)) = false.

#[global] Instance closer_dec target a b : Decision (closer target a b).
Proof. unfold closer. apply _. Defined.

(** [RoutingTable::closest] *)
Definition closest (t : RoutingTable) (target : NodeId) (k : nat) : list RoutingEntry :=
  let sorted := merge_sort (closer target) (all t) in
  if (k <? length sorted)%nat then take k sorted else sorted.

(** [id.bytes[i] = f(id.bytes[i])] *)
Definition upd_byte (f : Z -> Z) (s : bytes) (i : nat) : bytes := alter f i s.

(** The loop of [random_id_in_bucket] from bit index [idx] with [n] bits left;
    [coin] is the sequence of draws. *)
Fixpoint random_bits (coin : nat -> bool) (s : bytes) (idx n : nat) : bytes :=
  match n with
  | O => s
  | S n' =>
      let mask := u8 (Z.shiftl 1 (7 - Z.of_nat (idx mod 8))) in
      let s' := if coin idx then upd_byte (fun b => Z.lor b mask) s (idx / 8)
                else upd_byte (fun b => Z.land b (u8 (Z.lnot mask))) s (idx / 8) in
      random_bits coin s' (S idx) n'
  end.

Definition random_id_in_bucket (self : NodeId) (bucket : nat) (coin : nat -> bool) : NodeId :=
  let bucket := if (NUM_BUCKETS <=? bucket)%nat then (NUM_BUCKETS - 1)%nat else bucket in
  let msb_index := (NUM_BUCKETS - 1 - bucket)%nat in
  let byte_idx := (msb_index / 8)%nat in
  let bit_in_byte := 7 - Z.of_nat (msb_index mod 8) in
  let s := upd_byte (fun b => Z.lxor b (u8 (Z.shiftl 1 bit_in_byte))) (nid_bytes self) byte_idx in
  mkNodeId (random_bits coin s (S msb_index) (NUM_BUCKETS - S msb_index)).

(** [RoutingTable::buckets_needing_refresh] *)
Definition buckets_needing_refresh (t : RoutingTable) (now max_age : Z) : list nat :=
  filter (fun b =>
    (if (size_of t b =? 0)%nat then true
     else negb (existsb (fun e => now - last_seen e <? max_age) (bucket_entries t b))) = true)
    (seq 0 NUM_BUCKETS).

(** ** Bits and bucket numbers *)

Lemma land_bit b n : 0 <= n -> (Z.land b (Z.shiftl 1 n) =? 0) = negb (Z.testbit b n).
Proof.
  intros Hn. rewrite Z.shiftl_1_l. destruct (Z.testbit b n) eqn:E; simpl.
  - apply Z.eqb_neq. intros H0. apply (f_equal (fun z => Z.testbit z n)) in H0.
    rewrite Z.land_spec, E, Z.pow2_bits_true, Z.bits_0 in H0 by lia. done.
  - apply Z.eqb_eq, Z.bits_inj'. intros k Hk. rewrite Z.land_spec, Z.bits_0.
    destruct (Z.eq_dec k n) as [->|Hne]; [by rewrite E|].
    rewrite Z.pow2_bits_false, andb_false_r by lia. done.
Qed.

Lemma msb_bit_spec b n bit :
  (bit < n)%nat -> Z.testbit b (Z.of_nat bit) = true ->
  (forall j, (bit < j < n)%nat -> Z.testbit b (Z.of_nat j) = false) ->
  msb_bit b n = Some bit.
Proof.
  induction n as [|n IH]; intros Hlt Hb Hhi; [lia|]. simpl. rewrite land_bit, negb_involutive by lia.
  destruct (decide (n = bit)) as [->|Hne]; [by rewrite Hb|].
  rewrite Hhi by lia. apply IH; [lia|done|]. intros j Hj. apply Hhi. lia.
Qed.

Lemma byte_bits_zero x : byte_ok x -> (forall j, (j < 8)%nat -> Z.testbit x (Z.of_nat j) = false) -> x = 0.
Proof.
  intros Hx Hb. apply Z.bits_inj'. intros n Hn. rewrite Z.bits_0.
  destruct (Z.lt_ge_cases n 8) as [Hlt|Hge].
  - specialize (Hb (Z.to_nat n)). rewrite Z2Nat.id in Hb by lia. apply Hb. lia.
  - unfold byte_ok in Hx. destruct (Z.eq_dec x 0) as [->|Hne]; [apply Z.bits_0|].
    apply Z.bits_above_log2; [lia|]. assert (Z.log2 x < 8) by (apply Z.log2_lt_pow2; lia). lia.
Qed.

Lemma bucket_loop_spec s i m :
  bytes_ok s -> (m < 8 * length s)%nat -> bit_at s m = true ->
  (forall j, (j < m)%nat -> bit_at s j = false) ->
  bucket_loop s i = (NUM_BUCKETS - 1 - (i * 8 + m))%nat.
Proof.
  intros Hs. revert i m. induction Hs as [|x s Hx Hs IH]; intros i m Hm Hb Hlow; [simpl in Hm; lia|].
  cbn [bucket_loop length] in *. destruct (Nat.lt_ge_cases m 8) as [Hlt|Hge].
  - rewrite bit_at_cons_lt in Hb by lia.
    rewrite (proj2 (Z.eqb_neq x 0)) by (intros ->; by rewrite Z.bits_0 in Hb).
    rewrite (msb_bit_spec x 8 (7 - m)); [do 2 f_equal; lia|lia| |].
    + rewrite <- Hb. f_equal. lia.
    + intros j Hj. specialize (Hlow (7 - j)%nat). rewrite bit_at_cons_lt in Hlow by lia.
      rewrite <- Hlow by lia. f_equal. lia.
  - assert (exists m', m = (8 + m')%nat) as [m' ->] by (exists (m - 8)%nat; lia).
    assert (x = 0) as ->.
    { apply byte_bits_zero; [done|]. intros j Hj. specialize (Hlow (7 - j)%nat).
      rewrite bit_at_cons_lt in Hlow by lia. rewrite <- Hlow by lia. f_equal. lia. }
    simpl Z.eqb. cbv iota. rewrite bit_at_cons_ge in Hb.
    rewrite (IH (S i) m'); [lia|lia|done|].
    intros j Hj. specialize (Hlow (8 + j)%nat). rewrite bit_at_cons_ge in Hlow. apply Hlow. lia.
Qed.

Lemma bit_at_xor s t n :
  length s = length t -> bit_at (zip_with Z.lxor s t) n = xorb (bit_at s n) (bit_at t n).
Proof.
  intros Hl. unfold bit_at. rewrite lookup_zip_with.
  destruct (s !! (n / 8)%nat) as [x|] eqn:Es, (t !! (n / 8)%nat) as [y|] eqn:Et; simpl.
  - apply Z.lxor_spec.
  - apply lookup_lt_Some in Es. apply lookup_ge_None in Et. lia.
  - apply lookup_lt_Some in Et. apply lookup_ge_None in Es. lia.
  - done.
Qed.

(** The bucket number is fixed by the first bit in which the identifiers differ. *)
Lemma bucket_index_bits self id m :
  nid_ok self -> nid_ok id -> (m < 160)%nat ->
  (forall j, (j < m)%nat -> bit_at (nid_bytes self) j = bit_at (nid_bytes id) j) ->
  bit_at (nid_bytes self) m <> bit_at (nid_bytes id) m ->
  bucket_index self id = (159 - m)%nat.
Proof.
  intros Hs Hi Hm Hlow Hne. unfold bucket_index. rewrite xor_is_zero by done.
  rewrite bool_decide_false by (intros ->; done).
  pose proof (nid_xor_ok _ _ Hs Hi) as [Hl Hok]. destruct Hs as [Ls Hs], Hi as [Li Hi].
  rewrite (bucket_loop_spec _ 0 m); [done|done|lia|..].
  - simpl. rewrite bit_at_xor by congruence. by destruct (bit_at (nid_bytes self) m), (bit_at (nid_bytes id) m).
  - intros j Hj. simpl. rewrite bit_at_xor by congruence. rewrite Hlow by lia. apply xorb_nilpotent.
Qed.

(** It is the position of the highest bit of the distance. *)
Lemma bucket_index_log2 self id :
  nid_ok self -> nid_ok id -> self <> id ->
  Z.of_nat (bucket_index self id) = Z.log2 (nid_val (nid_xor self id)).
Proof.
  intros Hs Hi Hne. unfold bucket_index. rewrite xor_is_zero, bool_decide_false by done.
  pose proof (nid_xor_ok _ _ Hs Hi) as [Hl Hok].
  pose proof (nid_val_range _ (nid_xor_ok _ _ Hs Hi)) as Hr.
  assert (nid_val (nid_xor self id) <> 0) as Hnz.
  { intros E. pose proof (xor_is_zero _ _ Hs Hi) as Ez.
    rewrite is_zero_val, E, bool_decide_false in Ez; auto with bt. done. }
  set (v := nid_val (nid_xor self id)) in *.
  assert (0 <= Z.log2 v < 160) as Hlog.
  { split; [apply Z.log2_nonneg|]. apply Z.log2_lt_pow2; lia. }
  assert (forall n, (n < 160)%nat ->
    bit_at (nid_bytes (nid_xor self id)) n = Z.testbit v (159 - Z.of_nat n)) as Hbit.
  { intros n Hn. rewrite <- be_val_testbit by (rewrite ?Hl; auto with lia). rewrite Hl. done. }
  rewrite (bucket_loop_spec _ 0 (Z.to_nat (159 - Z.log2 v))); [unfold NUM_BUCKETS; lia|done|lia|..].
  - rewrite Hbit by lia. rewrite Z2Nat.id by lia.
    replace (159 - (159 - Z.log2 v)) with (Z.log2 v) by lia. apply Z.bit_log2. lia.
  - intros j Hj. rewrite Hbit by lia. apply Z.bits_above_log2; lia.
Qed.

Lemma bucket_index_lt self id :
  nid_ok self -> nid_ok id -> (bucket_index self id < 160)%nat <-> self <> id.
Proof.
  intros Hs Hi. split.
  - intros Hlt ->. unfold bucket_index in Hlt. rewrite xor_is_zero, bool_decide_true in Hlt by done.
    unfold NUM_BUCKETS in Hlt. lia.
  - intros Hne. pose proof (bucket_index_log2 _ _ Hs Hi Hne) as E.
    pose proof (nid_val_range _ (nid_xor_ok _ _ Hs Hi)).
    destruct (Z.eq_dec (nid_val (nid_xor self id)) 0) as [E0|]; [rewrite E0 in E; simpl in E; lia|].
    assert (Z.log2 (nid_val (nid_xor self id)) < 160) by (apply Z.log2_lt_pow2; lia). lia.
Qed.

(** ** Random identifiers of a bucket *)

Lemma bit_at_upd f s i n :
  bit_at (upd_byte f s i) n =
  match s !! i with
  | Some b => if decide (n / 8 = i)%nat then Z.testbit (f b) (7 - Z.of_nat (n mod 8)) else bit_at s n
  | None => bit_at s n
  end.
Proof.
  unfold bit_at, upd_byte. destruct (decide (n / 8 = i)%nat) as [->|Hne].
  - rewrite list_lookup_alter_eq. destruct (s !! i); done.
  - rewrite list_lookup_alter_ne by done. destruct (s !! i); done.
Qed.

Lemma mask_bit k n : 0 <= k < 8 -> 0 <= n < 8 -> Z.testbit (u8 (Z.shiftl 1 k)) n = bool_decide (n = k).
Proof.
  intros Hk Hn. unfold u8. rewrite Z.mod_pow2_bits_low, Z.shiftl_1_l, Z.pow2_bits_eqb by lia.
  destruct (Z.eqb_spec k n); symmetry; [by apply bool_decide_true|apply bool_decide_false; congruence].
Qed.

Lemma div_mod_8 j n : (j / 8 = n / 8 -> j mod 8 = n mod 8 -> j = n)%nat.
Proof. pose proof (Nat.div_mod_eq j 8). pose proof (Nat.div_mod_eq n 8). lia. Qed.

(** One round writes bit [idx] and no other. *)
Lemma bit_write (c : bool) s idx j :
  (idx < 8 * length s)%nat ->
  let mask := u8 (Z.shiftl 1 (7 - Z.of_nat (idx mod 8))) in
  bit_at (if c then upd_byte (fun b => Z.lor b mask) s (idx / 8)
          else upd_byte (fun b => Z.land b (u8 (Z.lnot mask))) s (idx / 8)) j =
  if decide (j = idx) then c else bit_at s j.
Proof.
  intros Hidx mask. pose proof (Nat.mod_upper_bound idx 8). pose proof (Nat.mod_upper_bound j 8).
  assert (idx / 8 < length s)%nat as Hl by (apply Nat.Div0.div_lt_upper_bound; lia).
  destruct (lookup_lt_is_Some_2 s (idx / 8)%nat Hl) as [b Eb].
  assert (Z.testbit mask (7 - Z.of_nat (j mod 8)) = bool_decide (j mod 8 = idx mod 8)%nat) as Hmask.
  { unfold mask. rewrite mask_bit by lia. apply bool_decide_ext. lia. }
  assert (Z.testbit (u8 (Z.lnot mask)) (7 - Z.of_nat (j mod 8))
          = negb (bool_decide (j mod 8 = idx mod 8)%nat)) as Hmask'.
  { unfold u8 at 1. rewrite Z.mod_pow2_bits_low, Z.lnot_spec, Hmask by lia. done. }
  assert (bit_at s j = Z.testbit b (7 - Z.of_nat (j mod 8)) \/ (j / 8 <> idx / 8)%nat) as Hj.
  { destruct (decide (j / 8 = idx / 8)%nat) as [E|]; [left|by right]. unfold bit_at. by rewrite E, Eb. }
  destruct c; rewrite bit_at_upd, Eb;
    (destruct (decide (j / 8 = idx / 8)%nat) as [E|E];
     [|rewrite decide_False by (intros ->; done); done]);
    (destruct Hj as [->|?]; [|done]).
  - rewrite Z.lor_spec, Hmask. destruct (decide (j mod 8 = idx mod 8)%nat) as [Em|Em].
    + rewrite bool_decide_true, orb_true_r, decide_True by auto using div_mod_8. done.
    + rewrite bool_decide_false, orb_false_r, decide_False by (congruence || done). done.
  - rewrite Z.land_spec, Hmask'. destruct (decide (j mod 8 = idx mod 8)%nat) as [Em|Em].
    + rewrite bool_decide_true, andb_false_r, decide_True by auto using div_mod_8. done.
    + rewrite bool_decide_false, andb_true_r, decide_False by (congruence || done). done.
Qed.

Lemma upd_byte_length f s i : length (upd_byte f s i) = length s.
Proof. apply length_alter. Qed.

Lemma upd_byte_ok f s i : (forall b, byte_ok b -> byte_ok (f b)) -> bytes_ok s -> bytes_ok (upd_byte f s i).
Proof. intros Hf Hs. apply Forall_alter; [done|]. intros b _. apply Hf. Qed.

Lemma byte_ok_bits b : byte_ok b <-> 0 <= b /\ forall n, 8 <= n -> Z.testbit b n = false.
Proof.
  unfold byte_ok. split.
  - intros Hb. split; [lia|]. intros n Hn. destruct (Z.eq_dec b 0) as [->|?]; [apply Z.bits_0|].
    apply Z.bits_above_log2; [lia|]. assert (Z.log2 b < 8) by (apply Z.log2_lt_pow2; lia). lia.
  - intros [Hb Hn]. split; [done|]. destruct (Z.eq_dec b 0) as [->|?]; [lia|].
    apply (Z.log2_lt_pow2 b 8); [lia|]. destruct (Z.lt_ge_cases (Z.log2 b) 8); [done|].
    specialize (Hn (Z.log2 b) ltac:(lia)). rewrite Z.bit_log2 in Hn by lia. done.
Qed.

Lemma lor_byte_ok a b : byte_ok a -> byte_ok b -> byte_ok (Z.lor a b).
Proof.
  rewrite !byte_ok_bits. intros [? Ha] [? Hb]. split; [apply Z.lor_nonneg; lia|].
  intros n Hn. rewrite Z.lor_spec, Ha, Hb by lia. done.
Qed.

Lemma land_byte_ok a b : byte_ok a -> byte_ok b -> byte_ok (Z.land a b).
Proof.
  rewrite !byte_ok_bits. intros [? Ha] [? Hb]. split; [apply Z.land_nonneg; lia|].
  intros n Hn. rewrite Z.land_spec, Ha, Hb by lia. done.
Qed.

Lemma random_bits_spec coin s idx n :
  bytes_ok s -> (idx + n <= 8 * length s)%nat ->
  let r := random_bits coin s idx n in
  length r = length s /\ bytes_ok r /\
  forall j, bit_at r j = if decide (idx <= j < idx + n)%nat then coin j else bit_at s j.
Proof.
  revert s idx. induction n as [|n IH]; intros s idx Hs Hn; cbn [random_bits].
  { split; [done|]. split; [done|]. intros j. by rewrite decide_False by lia. }
  set (s' := if coin idx then _ else _).
  assert (length s' = length s) as Hl by (unfold s'; case_if; apply upd_byte_length).
  assert (bytes_ok s') as Hs'.
  { unfold s'. case_if; apply upd_byte_ok; try done; intros b Hb;
      [apply lor_byte_ok|apply land_byte_ok]; auto using u8_range. }
  destruct (IH s' (S idx) Hs' ltac:(lia)) as (Hl' & Hok & Hb).
  split; [lia|]. split; [done|]. intros j. rewrite Hb.
  unfold s'. rewrite bit_write by lia.
  repeat case_decide; subst; try lia; done.
Qed.

Lemma bit_at_ext s t :
  length s = length t -> bytes_ok s -> bytes_ok t ->
  (forall j, (j < 8 * length s)%nat -> bit_at s j = bit_at t j) -> s = t.
Proof.
  intros Hl Hs Ht Hb. apply be_val_inj; [done..|]. apply Z.bits_inj'. intros n Hn.
  pose proof (be_val_range s Hs) as Rs. pose proof (be_val_range t Ht) as Rt.
  rewrite <- Hl in Rt. rewrite pow256 in Rs, Rt by lia.
  destruct (Z.lt_ge_cases n (8 * Z.of_nat (length s))) as [Hlt|Hge].
  - specialize (Hb (Z.to_nat (8 * Z.of_nat (length s) - 1 - n)) ltac:(lia)).
    rewrite <- !be_val_testbit in Hb by (auto; lia). rewrite <- Hl, Z2Nat.id in Hb by lia.
    by replace (8 * Z.of_nat (length s) - 1 - (8 * Z.of_nat (length s) - 1 - n)) with n in Hb by lia.
  - assert (forall v, 0 <= v < 2 ^ (8 * Z.of_nat (length s)) -> Z.testbit v n = false) as Hz.
    { intros v Hv. rewrite <- (Z.mod_small v (2 ^ (8 * Z.of_nat (length s)))) by lia.
      apply Z.mod_pow2_bits_high. lia. }
    by rewrite !Hz.
Qed.

Lemma random_id_spec self b coin :
  nid_ok self -> (b < 160)%nat ->
  let r := random_id_in_bucket self b coin in
  nid_ok r /\
  forall j, bit_at (nid_bytes r) j =
    if decide (j < 159 - b)%nat then bit_at (nid_bytes self) j
    else if decide (j = 159 - b)%nat then negb (bit_at (nid_bytes self) j)
    else if decide (j < 160)%nat then coin j else bit_at (nid_bytes self) j.
Proof.
  intros [Hl Hs] Hb. unfold random_id_in_bucket, NUM_BUCKETS.
  rewrite (proj2 (Nat.leb_gt _ _)) by lia.
  replace (160 - 1 - b)%nat with (159 - b)%nat by lia. set (m := (159 - b)%nat).
  set (s := upd_byte _ _ _).
  assert (length s = 20%nat) as Ls by (unfold s; rewrite upd_byte_length; done).
  assert (bytes_ok s) as Hok.
  { apply upd_byte_ok; [|done]. intros x Hx. apply lxor_byte_ok; [done|apply u8_range]. }
  destruct (random_bits_spec coin s (S m) (160 - S m) Hok ltac:(lia)) as (Hlr & Hr & Hbits).
  cbn [nid_bytes]. split; [split; cbn [nid_bytes]; [lia|done]|]. intros j. rewrite Hbits.
  pose proof (Nat.mod_upper_bound j 8). pose proof (Nat.mod_upper_bound m 8).
  assert (m / 8 < length (nid_bytes self))%nat as Hm by (rewrite Hl; apply Nat.Div0.div_lt_upper_bound; lia).
  destruct (lookup_lt_is_Some_2 _ _ Hm) as [x Ex].
  assert (bit_at s j = if decide (j = m) then negb (bit_at (nid_bytes self) j) else bit_at (nid_bytes self) j) as Hsj.
  { unfold s. rewrite bit_at_upd, Ex. case_decide as E.
    - rewrite Z.lxor_spec, mask_bit by lia. unfold bit_at. rewrite E, Ex.
      case_decide as E'; [subst; rewrite bool_decide_true by done; by rewrite xorb_true_r|].
      rewrite bool_decide_false, xorb_false_r; [done|]. intros Hx. apply E', div_mod_8; [done|lia].
    - rewrite decide_False; [done|congruence]. }
  rewrite Hsj. repeat case_decide; lia || done.
Qed.

(** The bits that a bucket number fixes. *)
Lemma bucket_index_bits_inv self id b :
  nid_ok self -> nid_ok id -> (b < 160)%nat -> bucket_index self id = b ->
  (forall j, (j < 159 - b)%nat -> bit_at (nid_bytes self) j = bit_at (nid_bytes id) j) /\
  bit_at (nid_bytes id) (159 - b) = negb (bit_at (nid_bytes self) (159 - b)).
Proof.
  intros Hs Hid Hb Hix.
  pose proof (proj1 (bucket_index_lt self id Hs Hid) ltac:(lia)) as Hne.
  pose proof (bucket_index_log2 self id Hs Hid Hne) as Hlog. rewrite Hix in Hlog.
  pose proof (nid_val_range _ (nid_xor_ok _ _ Hs Hid)) as Hr.
  assert (nid_val (nid_xor self id) <> 0) as Hnz.
  { intros E. pose proof (xor_is_zero self id Hs Hid) as Ez.
    rewrite is_zero_val, E, bool_decide_false in Ez by auto with bt. done. }
  assert (forall j, (j < 160)%nat ->
    xorb (bit_at (nid_bytes self) j) (bit_at (nid_bytes id) j)
    = Z.testbit (nid_val (nid_xor self id)) (159 - Z.of_nat j)) as Hx.
  { intros j Hj. destruct (nid_xor_ok _ _ Hs Hid) as [Lx Hxok].
    rewrite <- bit_at_xor by (destruct Hs, Hid; congruence).
    change (zip_with Z.lxor (nid_bytes self) (nid_bytes id)) with (nid_bytes (nid_xor self id)).
    rewrite <- be_val_testbit by (auto; lia). by rewrite Lx. }
  split.
  - intros j Hj. apply xorb_eq. rewrite Hx by lia. apply Z.bits_above_log2; lia.
  - specialize (Hx (159 - b)%nat ltac:(lia)).
    replace (159 - Z.of_nat (159 - b)) with (Z.of_nat b) in Hx by lia.
    rewrite Hlog, Z.bit_log2 in Hx by lia.
    by destruct (bit_at (nid_bytes self) _), (bit_at (nid_bytes id) _).
Qed.

(** An argument out of range is clamped to the last bucket. *)
Lemma random_id_clamp self b coin :
  random_id_in_bucket self b coin = random_id_in_bucket self (Nat.min b 159) coin.
Proof.
  unfold random_id_in_bucket, NUM_BUCKETS. rewrite (proj2 (Nat.leb_gt 160 (Nat.min b 159))) by lia.
  destruct (160 <=? b)%nat eqn:E; b2p; [by replace (Nat.min b 159) with 159%nat by lia|].
  by replace (Nat.min b 159) with b by lia.
Qed.

Lemma random_id_bucket self b coin :
  nid_ok self -> (b < 160)%nat -> bucket_index self (random_id_in_bucket self b coin) = b.
Proof.
  intros Hs Hb. destruct (random_id_spec self b coin Hs Hb) as [Hok Hbits].
  rewrite (bucket_index_bits self _ (159 - b)); [lia|done..|lia| |].
  - intros j Hj. by rewrite Hbits, decide_True by lia.
  - rewrite Hbits, decide_False, decide_True by lia. by destruct (bit_at _ _).
Qed.

(** Refreshing a bucket looks up an identifier of that very bucket: whatever
    the random draws, [random_id_in_bucket] returns one whose [bucket_index] is the
    bucket asked for (the last one when the argument is out of range), and every
    identifier of the bucket is returned for some draws. *)
Theorem random_id_in_bucket_correct self b :
  nid_ok self ->
  (forall coin, bucket_index self (random_id_in_bucket self b coin) = Nat.min b 159) /\
  (forall id, nid_ok id -> bucket_index self id = Nat.min b 159 ->
     exists coin, random_id_in_bucket self b coin = id).
Proof.
  intros Hs. setoid_rewrite (random_id_clamp self b). assert (Nat.min b 159 < 160)%nat as Hb by lia.
  revert Hb. generalize (Nat.min b 159). clear b. intros b Hb. split.
  - intros coin. by apply random_id_bucket.
  - intros id Hid Hix. exists (bit_at (nid_bytes id)).
    destruct (random_id_spec self b (bit_at (nid_bytes id)) Hs Hb) as [[Lr Hr] Hbits].
    destruct (bucket_index_bits_inv self id b Hs Hid Hb Hix) as [Hlow Hm].
    destruct (random_id_in_bucket self b _) as [rs], id as [s], Hid as [Li Hi].
    cbn [nid_bytes] in *. f_equal. apply bit_at_ext; [congruence|done..|].
    intros j Hj. rewrite Lr in Hj. rewrite Hbits.
    repeat case_decide; subst; [by apply Hlow|by rewrite Hm|done|lia].
Qed.

Lemma random_id_in_bucket_correct_witness :
  nid_ok (sample_id 1) /\
  bucket_index (sample_id 1) (random_id_in_bucket (sample_id 1) 12 Nat.even) = 12%nat.
Proof.
  split; [apply sample_id_ok|].
  apply (random_id_in_bucket_correct (sample_id 1) 12 (sample_id_ok 1)).
Defined.

(** ** The slots of one bucket *)

Lemma slot_take l i n : (i < n)%nat -> slot (take n l) i = slot l i.
Proof. intros. unfold slot. by rewrite lookup_take_lt. Qed.

Lemma slot_lookup l i : (i < length l)%nat -> l !! i = Some (slot l i).
Proof. intros Hi. unfold slot. by destruct (lookup_lt_is_Some_2 l i Hi) as [x ->]. Qed.

Lemma shift_loop_spec l i n :
  (i + n < length l)%nat ->
  shift_loop l i n = take i l ++ slice (S i) (S i + n) l ++ drop (i + n) l.
Proof.
  revert l i. induction n as [|n IH]; intros l i Hlt; cbn [shift_loop].
  { unfold slice. replace (S i + 0 - S i)%nat with 0%nat by lia.
    rewrite Nat.add_0_r. simpl. by rewrite take_drop. }
  rewrite IH by (rewrite length_insert; lia).
  rewrite (take_S_r _ _ (slot l (S i))) by (rewrite list_lookup_insert_eq; [done|lia]).
  rewrite take_insert_ge by lia. rewrite <- app_assoc. f_equal. unfold slice.
  rewrite !drop_insert_lt by lia.
  replace (S i + S n - S i)%nat with (S n) by lia.
  rewrite (drop_S l (slot l (S i)) (S i)) by (apply slot_lookup; lia).
  cbn [take app]. do 2 f_equal; [f_equal; lia|f_equal; lia].
Qed.

Lemma shift_loop_length l i n : length (shift_loop l i n) = length l.
Proof.
  revert l i. induction n as [|n IH]; intros l i; cbn [shift_loop]; [done|].
  by rewrite IH, length_insert.
Qed.

(** Removing slot [i] from the used prefix. *)
Lemma shift_remove l i sz :
  (i < sz <= length l)%nat ->
  take (sz - 1) (shift_loop l i (sz - 1 - i)) = take i (take sz l) ++ drop (S i) (take sz l).
Proof.
  intros Hi. rewrite shift_loop_spec by lia. rewrite app_assoc.
  assert (slice (S i) (S i + (sz - 1 - i)) l = drop (S i) (take sz l)) as ->.
  { unfold slice. rewrite skipn_firstn_comm. f_equal. lia. }
  rewrite take_app_le by (rewrite length_app, length_take, length_drop, length_take; lia).
  rewrite take_ge by (rewrite length_app, length_take, length_drop, length_take; lia).
  f_equal. rewrite take_take. f_equal. lia.
Qed.

Definition move_to_end (i : nat) (e : RoutingEntry) (es : list RoutingEntry) : list RoutingEntry :=
  take i es ++ drop (S i) es ++ [e].

Lemma find_loop_Some l id i n j :
  find_loop l id i n = Some j ->
  (i <= j < i + n)%nat /\ re_id (slot l j) = id.
Proof.
  revert i. induction n as [|n IH]; intros i; cbn [find_loop]; [done|].
  case_decide; [intros [= <-]; split; [lia|done]|]. intros [? ?]%IH. split; [lia|done].
Qed.

Lemma find_loop_None l id i n :
  find_loop l id i n = None -> forall j, (i <= j < i + n)%nat -> re_id (slot l j) <> id.
Proof.
  revert i. induction n as [|n IH]; intros i; cbn [find_loop]; [lia|].
  case_decide; [done|]. intros Hn j Hj. destruct (decide (j = i)) as [->|]; [done|].
  apply (IH (S i)); [done|lia].
Qed.

Lemma oldest_loop_spec l i n r :
  (r < i)%nat ->
  (forall j, (j < i)%nat -> last_seen (slot l r) <= last_seen (slot l j)) ->
  (forall j, (j < r)%nat -> last_seen (slot l r) < last_seen (slot l j)) ->
  let m := oldest_loop l i n (last_seen (slot l r)) r in
  (m < i + n)%nat /\
  (forall j, (j < i + n)%nat -> last_seen (slot l m) <= last_seen (slot l j)) /\
  (forall j, (j < m)%nat -> last_seen (slot l m) < last_seen (slot l j)).
Proof.
  revert i r. induction n as [|n IH]; intros i r Hr Hmin Hfirst; cbn [oldest_loop].
  { rewrite Nat.add_0_r. done. }
  replace (i + S n)%nat with (S i + n)%nat by lia.
  destruct (last_seen (slot l i) <? last_seen (slot l r)) eqn:E; b2p; apply IH; try lia.
  - intros j Hj. destruct (decide (j = i)) as [->|]; [lia|]. specialize (Hmin j). lia.
  - intros j Hj. specialize (Hmin j ltac:(lia)). lia.
  - intros j Hj. destruct (decide (j = i)) as [->|]; [lia|]. apply Hmin. lia.
  - done.
Qed.

(** ** The table as a family of buckets *)

Record rt_shape (t : RoutingTable) : Prop := {
  shape_buckets : length (buckets t) = NUM_BUCKETS;
  shape_sizes : length (bucket_sizes t) = NUM_BUCKETS;
  shape_received : length (peers_received t) = NUM_BUCKETS;
  shape_slots : forall b, (b < NUM_BUCKETS)%nat -> length (slots_of t b) = K;
  shape_size : forall b, (size_of t b <= K)%nat;
}.

Lemma size_of_set_size t b n b' :
  rt_shape t -> (b < NUM_BUCKETS)%nat ->
  size_of (set_size t b n) b' = if decide (b' = b) then n else size_of t b'.
Proof.
  intros Hs Hb. unfold size_of. simpl. case_decide as E.
  - subst. by rewrite list_lookup_insert_eq by (rewrite (shape_sizes _ Hs); lia).
  - by rewrite list_lookup_insert_ne.
Qed.

Lemma slots_of_set_slots t b l b' :
  rt_shape t -> (b < NUM_BUCKETS)%nat ->
  slots_of (set_slots t b l) b' = if decide (b' = b) then l else slots_of t b'.
Proof.
  intros Hs Hb. unfold slots_of. simpl. case_decide as E.
  - subst. by rewrite list_lookup_insert_eq by (rewrite (shape_buckets _ Hs); lia).
  - by rewrite list_lookup_insert_ne.
Qed.

Lemma rt_shape_set_slots t b l :
  rt_shape t -> (b < NUM_BUCKETS)%nat -> length l = K -> rt_shape (set_slots t b l).
Proof.
  intros Hs Hb Hl. pose proof (fun b' => slots_of_set_slots t b l b' Hs Hb) as E.
  destruct Hs. constructor; simpl; try done.
  - by rewrite length_insert.
  - intros b' Hb'. rewrite E. case_decide; auto.
Qed.

Lemma rt_shape_set_size t b n :
  rt_shape t -> (b < NUM_BUCKETS)%nat -> (n <= K)%nat -> rt_shape (set_size t b n).
Proof.
  intros Hs Hb Hl. pose proof (fun b' => size_of_set_size t b n b' Hs Hb) as E.
  destruct Hs. constructor; simpl; try done.
  - by rewrite length_insert.
  - intros b'. rewrite E. case_decide; auto.
Qed.

Lemma rt_shape_count t b : rt_shape t -> rt_shape (count_received t b).
Proof. intros []. constructor; simpl; try done. by rewrite length_insert. Qed.

(** Writing bucket [b] with [l] and size [n] leaves the other buckets alone. *)
Lemma bucket_entries_write t b l n :
  rt_shape t -> (b < NUM_BUCKETS)%nat -> length l = K -> (n <= K)%nat ->
  let t' := set_size (set_slots t b l) b n in
  rt_shape t' /\ self_id t' = self_id t /\
  forall b', bucket_entries t' b' = if decide (b' = b) then take n l else bucket_entries t b'.
Proof.
  intros Hs Hb Hl Hn t'. pose proof (rt_shape_set_slots t b l Hs Hb Hl) as Hs1.
  split; [by apply rt_shape_set_size|]. split; [done|]. intros b'. unfold bucket_entries.
  unfold t'. rewrite size_of_set_size by done.
  change (slots_of (set_size (set_slots t b l) b n) b') with (slots_of (set_slots t b l) b').
  rewrite slots_of_set_slots by done. change (size_of (set_slots t b l) b') with (size_of t b').
  by case_decide.
Qed.

Lemma set_size_same t b :
  rt_shape t -> (b < NUM_BUCKETS)%nat -> set_size t b (size_of t b) = t.
Proof.
  intros Hs Hb. unfold set_size, size_of. destruct t as [i bs sz pr]. simpl. f_equal.
  apply list_insert_id. destruct (lookup_lt_is_Some_2 sz b) as [x Hx].
  - pose proof (shape_sizes _ Hs). simpl in *. lia.
  - by rewrite Hx.
Qed.

Lemma bucket_entries_set_slots t b l :
  rt_shape t -> (b < NUM_BUCKETS)%nat -> length l = K ->
  rt_shape (set_slots t b l) /\
  forall b', bucket_entries (set_slots t b l) b' =
    if decide (b' = b) then take (size_of t b) l else bucket_entries t b'.
Proof.
  intros Hs Hb Hl.
  destruct (bucket_entries_write t b l (size_of t b) Hs Hb Hl (shape_size _ Hs b)) as (Hs' & _ & E).
  change (size_of t b) with (size_of (set_slots t b l) b) in Hs', E.
  rewrite set_size_same in Hs', E by (done || by apply rt_shape_set_slots). done.
Qed.

Lemma length_bucket_entries t b :
  rt_shape t -> (b < NUM_BUCKETS)%nat -> length (bucket_entries t b) = size_of t b.
Proof.
  intros Hs Hb. unfold bucket_entries. rewrite length_take, (shape_slots _ Hs) by done.
  pose proof (shape_size _ Hs b). lia.
Qed.

(** ** What [add] and [remove] do to a bucket *)

(** The four outcomes of [add] for the bucket of the entry's identifier. *)
Inductive add_bucket (now : Z) (e : RoutingEntry) : list RoutingEntry -> list RoutingEntry -> Prop :=
  | add_known l1 old l2 :
      re_id old = re_id e -> add_bucket now e (l1 ++ old :: l2) (l1 ++ l2 ++ [e])
  | add_room es :
      Forall (fun x => re_id x <> re_id e) es -> (length es < K)%nat ->
      add_bucket now e es (es ++ [e])
  | add_replace l1 old l2 :
      Forall (fun x => re_id x <> re_id e) (l1 ++ old :: l2) -> length (l1 ++ old :: l2) = K ->
      Forall (fun x => last_seen old < last_seen x) l1 ->
      Forall (fun x => last_seen old <= last_seen x) l2 ->
      is_good now old = false ->
      add_bucket now e (l1 ++ old :: l2) (l1 ++ e :: l2)
  | add_drop es :
      Forall (fun x => re_id x <> re_id e) es -> length es = K ->
      Forall (fun x => is_good now x = true) es -> add_bucket now e es es.

Lemma touch_mid l i sz e :
  (i + 1 < sz <= length l)%nat ->
  take sz (<[(sz - 1)%nat := e]> (shift_loop (<[i := e]> l) i (sz - 1 - i)))
  = move_to_end i e (take sz l).
Proof.
  intros Hi. rewrite take_insert_lt by lia. set (l1 := <[i:=e]> l).
  assert (length l1 = length l) as Hl1 by (unfold l1; by rewrite length_insert).
  pose proof (shift_remove l1 i sz ltac:(lia)) as Hr.
  replace sz with (S (sz - 1))%nat at 2 by lia.
  set (l2 := shift_loop l1 i (sz - 1 - i)) in *.
  assert (length l2 = length l) as Hl2 by (unfold l2; by rewrite shift_loop_length).
  rewrite (take_S_r l2 (sz - 1) (slot l2 (sz - 1))) by (apply slot_lookup; lia).
  rewrite insert_app_r_alt by (rewrite length_take; lia).
  rewrite length_take, Nat.min_l, Nat.sub_diag by lia. cbn [insert list_insert].
  rewrite Hr. unfold move_to_end, l1.
  rewrite take_insert_lt, take_insert_ge, drop_insert_lt by lia. by rewrite app_assoc.
Qed.

Lemma touch_last l sz e :
  (0 < sz <= length l)%nat ->
  take sz (<[(sz - 1)%nat := e]> l) = move_to_end (sz - 1) e (take sz l).
Proof.
  intros Hsz. unfold move_to_end. rewrite take_insert_lt by lia.
  replace (S (sz - 1)) with sz by lia. rewrite drop_ge by (rewrite length_take; lia). cbn [app].
  rewrite <- (take_drop (sz - 1) (take sz l)) at 1. rewrite !take_take, !Nat.min_l by lia.
  rewrite insert_app_r_alt by (rewrite length_take; lia).
  rewrite length_take, Nat.min_l, Nat.sub_diag by lia. f_equal.
  rewrite (drop_S _ (slot l (sz - 1))) by (rewrite lookup_take_lt by lia; apply slot_lookup; lia).
  by rewrite drop_ge by (rewrite length_take; lia).
Qed.

Lemma touch_bucket_entry_spec t b i e :
  rt_shape t -> (b < NUM_BUCKETS)%nat -> (i < size_of t b)%nat ->
  let t' := touch_bucket_entry t b i e in
  rt_shape t' /\ self_id t' = self_id t /\
  forall b', bucket_entries t' b' =
    if decide (b' = b) then move_to_end i e (bucket_entries t b) else bucket_entries t b'.
Proof.
  intros Hs Hb Hi t'. pose proof (shape_size _ Hs b) as Hsz. pose proof (shape_slots _ Hs b Hb) as Hl.
  assert (exists l', length l' = K /\
    take (size_of t b) l' = move_to_end i e (take (size_of t b) (slots_of t b)) /\
    t' = set_slots t b l') as (l' & Hl' & Htake & ->).
  { unfold t', touch_bucket_entry. rewrite (proj2 (Nat.leb_gt _ i)) by lia.
    destruct (i + 1 <? size_of t b)%nat eqn:Elt; b2p; eexists; (split; [|split; [|reflexivity]]).
    - by rewrite length_insert, shift_loop_length, length_insert.
    - assert (slot (<[i:=e]> (slots_of t b)) i = e) as ->.
      { unfold slot. by rewrite list_lookup_insert_eq by lia. }
      apply touch_mid. lia.
    - by rewrite length_insert.
    - replace i with (size_of t b - 1)%nat by lia. apply touch_last. lia. }
  destruct (bucket_entries_set_slots t b l' Hs Hb Hl') as [Hs' Hb'].
  split; [done|]. split; [done|]. intros b'. rewrite Hb'. case_decide; [|done]. exact Htake.
Qed.

Lemma split_at (l : list RoutingEntry) i :
  (i < length l)%nat -> l = take i l ++ slot l i :: drop (S i) l.
Proof. intros Hi. by rewrite <- drop_S, take_drop by (by apply slot_lookup). Qed.

(** The table [t'] differs from [t] only in bucket [b], by one outcome of [add]. *)
Definition added (now : Z) (t : RoutingTable) (b : nat) (e : RoutingEntry) (t' : RoutingTable) : Prop :=
  rt_shape t' /\ self_id t' = self_id t /\
  add_bucket now e (bucket_entries t b) (bucket_entries t' b) /\
  forall b', b' <> b -> bucket_entries t' b' = bucket_entries t b'.

Lemma add_known_spec now t b e idx :
  rt_shape t -> (b < NUM_BUCKETS)%nat -> find_in_bucket t b (re_id e) = Some idx ->
  added now t b e (touch_bucket_entry (set_slots t b (<[idx := e]> (slots_of t b))) b idx e).
Proof.
  intros Hs Hb. unfold find_in_bucket. rewrite (proj2 (Nat.leb_gt _ _)) by lia.
  intros [Hidx Hid]%find_loop_Some.
  pose proof (shape_size _ Hs b) as Hsz. pose proof (shape_slots _ Hs b Hb) as Hl.
  pose proof (length_bucket_entries t b Hs Hb) as Hle.
  destruct (bucket_entries_set_slots t b (<[idx:=e]> (slots_of t b)) Hs Hb) as [Hs2 He2];
    [by rewrite length_insert|].
  destruct (touch_bucket_entry_spec _ b idx e Hs2 Hb ltac:(apply Hidx)) as (Hs3 & Hid3 & He3).
  split; [done|]. split; [done|]. split.
  - rewrite He3, decide_True, He2, decide_True by done. unfold move_to_end.
    rewrite take_insert_lt, take_insert_ge, drop_insert_lt by lia.
    fold (bucket_entries t b). rewrite (split_at (bucket_entries t b) idx) at 1 by lia.
    apply add_known. unfold bucket_entries. by rewrite slot_take by lia.
  - intros b' Hne. by rewrite He3, decide_False, He2, decide_False.
Qed.

Lemma find_in_bucket_fresh t b id :
  rt_shape t -> (b < NUM_BUCKETS)%nat -> find_in_bucket t b id = None ->
  Forall (fun x => re_id x <> id) (bucket_entries t b).
Proof.
  intros Hs Hb. unfold find_in_bucket. rewrite (proj2 (Nat.leb_gt _ _)) by lia. intros Hf.
  pose proof (length_bucket_entries t b Hs Hb) as Hle.
  apply Forall_lookup. intros j x Hj. pose proof (lookup_lt_Some _ _ _ Hj) as Hlt.
  unfold bucket_entries in Hj. rewrite lookup_take_lt in Hj by lia.
  pose proof (find_loop_None _ _ _ _ Hf j ltac:(lia)) as Hne. unfold slot in Hne. by rewrite Hj in Hne.
Qed.

Lemma add_room_spec now t b e :
  rt_shape t -> (b < NUM_BUCKETS)%nat -> (size_of t b < K)%nat ->
  Forall (fun x => re_id x <> re_id e) (bucket_entries t b) ->
  added now t b e
    (set_size (set_slots t b (<[size_of t b := e]> (slots_of t b))) b (S (size_of t b))).
Proof.
  intros Hs Hb Hroom Hfresh. pose proof (shape_slots _ Hs b Hb) as Hl.
  pose proof (length_bucket_entries t b Hs Hb) as Hle.
  destruct (bucket_entries_write t b (<[size_of t b := e]> (slots_of t b)) (S (size_of t b)) Hs Hb)
    as (Hs2 & Hid2 & He2); [by rewrite length_insert|lia|].
  split; [done|]. split; [done|]. split.
  - rewrite He2, decide_True by done.
    rewrite (take_S_r _ _ e) by (rewrite list_lookup_insert_eq; [done|lia]).
    rewrite take_insert_ge by lia. fold (bucket_entries t b). apply add_room; [done|lia].
  - intros b' Hne. by rewrite He2, decide_False.
Qed.

Lemma replace_stale_spec now t b e :
  rt_shape t -> (b < NUM_BUCKETS)%nat -> size_of t b = K ->
  Forall (fun x => re_id x <> re_id e) (bucket_entries t b) ->
  added now t b e (replace_stale now t b e).
Proof.
  intros Hs Hb Hsz Hfresh. unfold replace_stale. pose proof (shape_slots _ Hs b Hb) as Hl.
  set (l := slots_of t b) in *. rewrite Hsz.
  destruct (oldest_loop_spec l 1 (K - 1) 0) as (Hm & Hmin & Hfirst); [lia| |intros j Hj; lia|].
  { intros j Hj. by replace j with 0%nat by lia. }
  set (m := oldest_loop _ _ _ _ _) in *. change (1 + (K - 1))%nat with K in *.
  assert (bucket_entries t b = l) as Hbl by (unfold bucket_entries; apply take_ge; fold l; lia).
  destruct (is_good now (slot l m)) eqn:Hg; cbn [negb].
  - split; [done|]. split; [done|]. split; [|done]. rewrite Hbl in *. apply add_drop; [done..|].
    apply Forall_lookup. intros j x Hj. pose proof (lookup_lt_Some _ _ _ Hj) as Hlt.
    specialize (Hmin j ltac:(lia)). unfold slot in Hmin at 2. rewrite Hj in Hmin. simpl in Hmin.
    unfold is_good in *. b2p. apply Z.ltb_lt. lia.
  - destruct (bucket_entries_set_slots t b (<[m:=e]> l) Hs Hb) as [Hs2 He2]; [by rewrite length_insert|].
    split; [done|]. split; [done|]. split; [|intros b' Hne; by rewrite He2, decide_False].
    rewrite He2, decide_True by done. rewrite Hbl in *.
    rewrite take_ge by (rewrite length_insert; lia).
    rewrite insert_take_drop by lia. pose proof (split_at l m ltac:(lia)) as El. rewrite El at 1.
    apply add_replace; [by rewrite <- El|by rewrite <- El|..|done].
    + apply Forall_lookup. intros j x [Hj Hlt]%lookup_take_Some.
      specialize (Hfirst j Hlt). unfold slot in Hfirst at 2. by rewrite Hj in Hfirst.
    + apply Forall_lookup. intros j x Hj. rewrite lookup_drop in Hj.
      pose proof (lookup_lt_Some _ _ _ Hj) as Hlt.
      specialize (Hmin (S m + j)%nat ltac:(lia)). unfold slot in Hmin at 2. by rewrite Hj in Hmin.
Qed.

(** [add] in a bucket that exists: one of the four outcomes there, and no other
    bucket changes. *)
Lemma add_spec now t e count :
  rt_shape t -> re_id e <> self_id t -> is_zero (re_id e) = false ->
  (bucket_index (self_id t) (re_id e) < NUM_BUCKETS)%nat ->
  added now t (bucket_index (self_id t) (re_id e)) e (add now t e count).
Proof.
  intros Hs Hself Hz Hb. unfold add. rewrite bool_decide_false, Hz by done. cbn [orb].
  set (b := bucket_index (self_id t) (re_id e)) in *. rewrite (proj2 (Nat.leb_gt _ _)) by lia.
  set (t1 := if count then count_received t b else t).
  assert (rt_shape t1) as Hs1 by (unfold t1; destruct count; [by apply rt_shape_count|done]).
  assert (forall t', added now t1 b e t' -> added now t b e t') as Hadd
    by (intros t'; unfold t1, added, bucket_entries; by destruct count).
  apply Hadd. destruct (find_in_bucket t1 b (re_id e)) as [idx|] eqn:Hf; [by apply add_known_spec|].
  apply find_in_bucket_fresh in Hf; [|done..]. pose proof (shape_size _ Hs1 b).
  destruct (size_of t1 b <? K)%nat eqn:Hroom; b2p; [by apply add_room_spec|].
  apply replace_stale_spec; [done..|lia|done].
Qed.

(** [remove] takes the entry out of its bucket and keeps the order of the others. *)
Lemma remove_spec t id :
  rt_shape t -> (bucket_index (self_id t) id < NUM_BUCKETS)%nat ->
  let b := bucket_index (self_id t) id in
  let t' := remove t id in
  rt_shape t' /\ self_id t' = self_id t /\
  (forall b', b' <> b -> bucket_entries t' b' = bucket_entries t b') /\
  ((Forall (fun x => re_id x <> id) (bucket_entries t b) /\ t' = t) \/
   exists l1 old l2, re_id old = id /\ bucket_entries t b = l1 ++ old :: l2 /\
     bucket_entries t' b = l1 ++ l2).
Proof.
  intros Hs Hb b t'. fold b in Hb. unfold t', remove. fold b. rewrite (proj2 (Nat.leb_gt _ _)) by lia.
  pose proof (shape_size _ Hs b) as Hsz. pose proof (shape_slots _ Hs b Hb) as Hl.
  pose proof (length_bucket_entries t b Hs Hb) as Hle.
  destruct (find_loop (slots_of t b) id 0 (size_of t b)) as [i|] eqn:Hf.
  - apply find_loop_Some in Hf as [Hi Hid].
    destruct (bucket_entries_write t b (shift_loop (slots_of t b) i (size_of t b - 1 - i))
                (size_of t b - 1) Hs Hb) as (Hs2 & Hid2 & He2);
      [by rewrite shift_loop_length|lia|].
    split; [done|]. split; [done|]. split; [intros b' Hne; by rewrite He2, decide_False|].
    right. exists (take i (bucket_entries t b)), (slot (bucket_entries t b) i), (drop (S i) (bucket_entries t b)).
    split; [unfold bucket_entries; by rewrite slot_take by lia|].
    split; [apply split_at; lia|]. rewrite He2, decide_True by done. apply shift_remove. lia.
  - split; [done|]. split; [done|]. split; [done|]. left. split; [|done].
    apply find_in_bucket_fresh; [done..|]. unfold find_in_bucket.
    by rewrite (proj2 (Nat.leb_gt _ _)) by lia.
Qed.

(** ** The invariant *)

(** Every entry sits in the bucket of its identifier, identifiers are well formed,
    non-zero and occur once, and no bucket exceeds [K]. *)
Definition entry_in (self : NodeId) (b : nat) (e : RoutingEntry) : Prop :=
  nid_ok (re_id e) /\ bucket_index self (re_id e) = b /\ is_zero (re_id e) = false.

Record rt_ok (t : RoutingTable) : Prop := {
  ok_shape : rt_shape t;
  ok_self : nid_ok (self_id t);
  ok_place : forall b, (b < NUM_BUCKETS)%nat -> Forall (entry_in (self_id t) b) (bucket_entries t b);
  ok_nodup : forall b, (b < NUM_BUCKETS)%nat -> NoDup (map re_id (bucket_entries t b));
}.

Lemma rt_new_ok self : nid_ok self -> rt_ok (rt_new self).
Proof.
  intros Hs. assert (forall b, size_of (rt_new self) b = 0%nat) as Hz.
  { intros b. unfold size_of, rt_new. cbn [bucket_sizes].
    destruct (replicate NUM_BUCKETS 0%nat !! b) as [x|] eqn:E; [|done].
    by apply lookup_replicate in E as [-> _]. }
  constructor; [constructor| |..]; try done.
  - intros b Hb. unfold slots_of, rt_new. cbn [buckets]. by rewrite lookup_replicate_2.
  - intros b. rewrite Hz. lia.
  - intros b _. unfold bucket_entries. rewrite Hz. constructor.
  - intros b _. unfold bucket_entries. rewrite Hz. constructor.
Qed.

Lemma add_bucket_place (P : RoutingEntry -> Prop) now e es es' :
  add_bucket now e es es' -> P e -> Forall P es -> Forall P es'.
Proof. intros []; intros He HP; decompose_Forall; repeat apply Forall_app_2; auto. Qed.

Lemma NoDup_ids_drop l1 (x : RoutingEntry) l2 :
  NoDup (map re_id (l1 ++ x :: l2)) -> NoDup (map re_id (l1 ++ l2)).
Proof.
  intros Hnd. eapply sublist_NoDup; [exact Hnd|].
  apply (fmap_sublist re_id). apply sublist_app; [done|by apply sublist_cons].
Qed.

Lemma NoDup_ids_insert l1 (e : RoutingEntry) l2 :
  NoDup (map re_id (l1 ++ l2)) -> Forall (fun x => re_id x <> re_id e) (l1 ++ l2) ->
  NoDup (map re_id (l1 ++ e :: l2)).
Proof.
  intros Hnd Hf. change (map re_id) with (fmap (M := list) re_id) in *.
  rewrite <- (Permutation_middle l1 l2 e). cbn. apply NoDup_cons. split; [|done].
  intros (x & E & Hx)%list_elem_of_fmap. rewrite Forall_forall in Hf. by apply (Hf x Hx).
Qed.

Lemma add_bucket_nodup now e es es' :
  add_bucket now e es es' -> NoDup (map re_id es) -> NoDup (map re_id es').
Proof.
  intros Hadd Hnd. destruct Hadd as [l1 old l2 Hid|es Hf _|l1 old l2 Hf _ _ _ _|es _ _ _]; [| | |done].
  - rewrite app_assoc. apply NoDup_ids_insert; rewrite app_nil_r.
    + by eapply NoDup_ids_drop.
    + change (map re_id) with (fmap (M := list) re_id) in *.
      rewrite <- (Permutation_middle l1 l2 old) in Hnd. cbn in Hnd. apply NoDup_cons in Hnd as [Hn _].
      apply Forall_forall. intros x Hx E. apply Hn. rewrite Hid, <- E. by apply (list_elem_of_fmap_2 re_id).
  - apply NoDup_ids_insert; by rewrite app_nil_r.
  - apply NoDup_ids_insert; [by eapply NoDup_ids_drop|].
    apply Forall_app in Hf as [? Hf]. inversion Hf. by apply Forall_app_2.
Qed.

Lemma add_ok now t e count : rt_ok t -> nid_ok (re_id e) -> rt_ok (add now t e count).
Proof.
  intros Hok He. destruct (bool_decide (re_id e = self_id t) || is_zero (re_id e)) eqn:Hskip.
  { unfold add. by rewrite Hskip. }
  b2p. assert (bucket_index (self_id t) (re_id e) < NUM_BUCKETS)%nat as Hb.
  { apply bucket_index_lt; [apply (ok_self _ Hok)|done|congruence]. }
  destruct (add_spec now t e count (ok_shape _ Hok)) as (Hs & Hid & Hadd & Hother); [done..|].
  constructor; [done|by rewrite Hid; apply (ok_self _ Hok)|..]; intros b' Hb'.
  - rewrite Hid. destruct (decide (b' = bucket_index (self_id t) (re_id e))) as [->|Hne].
    + eapply add_bucket_place; [exact Hadd|done|]. by apply (ok_place _ Hok).
    + rewrite Hother by done. by apply (ok_place _ Hok).
  - destruct (decide (b' = bucket_index (self_id t) (re_id e))) as [->|Hne].
    + eapply add_bucket_nodup; [exact Hadd|]. by apply (ok_nodup _ Hok).
    + rewrite Hother by done. by apply (ok_nodup _ Hok).
Qed.

Lemma remove_ok t id : rt_ok t -> rt_ok (remove t id).
Proof.
  intros Hok. destruct (Nat.lt_ge_cases (bucket_index (self_id t) id) NUM_BUCKETS) as [Hb|Hb].
  2: { unfold remove. by rewrite (proj2 (Nat.leb_le _ _)). }
  destruct (remove_spec t id (ok_shape _ Hok) Hb) as (Hs & Hid & Hother & [[_ ->]|(l1 & old & l2 & _ & E & E')]);
    [done|].
  pose proof (ok_place _ Hok _ Hb) as Hp. pose proof (ok_nodup _ Hok _ Hb) as Hn. rewrite E in Hp, Hn.
  constructor; [done|by rewrite Hid; apply (ok_self _ Hok)|..]; intros b' Hb'.
  - rewrite Hid. destruct (decide (b' = bucket_index (self_id t) id)) as [->|Hne].
    + rewrite E'. apply Forall_app in Hp as [? Hp]. inversion Hp. by apply Forall_app_2.
    + rewrite Hother by done. by apply (ok_place _ Hok).
  - destruct (decide (b' = bucket_index (self_id t) id)) as [->|Hne].
    + rewrite E'. by eapply NoDup_ids_drop.
    + rewrite Hother by done. by apply (ok_nodup _ Hok).
Qed.

(** A history of calls. *)
Inductive rt_op :=
  | RAdd (now : Z) (e : RoutingEntry) (count_as_received : bool)
  | RRemove (id : NodeId).

Definition rt_step (t : RoutingTable) (o : rt_op) : RoutingTable :=
  match o with
  | RAdd now e c => add now t e c
  | RRemove id => remove t id
  end.

Definition op_ok (o : rt_op) : Prop := match o with RAdd _ e _ => nid_ok (re_id e) | RRemove _ => True end.

#[global] Instance op_ok_dec o : Decision (op_ok o).
Proof. unfold op_ok. destruct o; apply _. Defined.

Lemma rt_step_ok t o : rt_ok t -> op_ok o -> rt_ok (rt_step t o).
Proof. intros Hok Ho. destruct o; [by apply add_ok|by apply remove_ok]. Qed.

Lemma rt_run_ok ops t : rt_ok t -> Forall op_ok ops -> rt_ok (fold_left rt_step ops t).
Proof.
  revert t. induction ops as [|o ops IH]; intros t Hok Hops; [done|]. simpl.
  inversion Hops. apply IH; [by apply rt_step_ok|done].
Qed.

(** ** The table as one list *)

Lemma elem_of_all t e :
  e ∈ all t <-> exists b, (b < NUM_BUCKETS)%nat /\ e ∈ bucket_entries t b.
Proof.
  unfold all. rewrite list_elem_of_In, in_flat_map. setoid_rewrite in_seq.
  setoid_rewrite <- list_elem_of_In. split; intros (b & ? & ?); exists b; (split; [lia|done]).
Qed.

Lemma NoDup_flat_map_ids (f : nat -> list RoutingEntry) self bs :
  NoDup bs -> (forall b, b ∈ bs -> NoDup (map re_id (f b)) /\ Forall (entry_in self b) (f b)) ->
  NoDup (map re_id (flat_map f bs)).
Proof.
  induction 1 as [|b bs Hb Hnd IH]; intros Hf; simpl; [constructor|].
  rewrite map_app. apply NoDup_app. split; [apply Hf; left|]. split.
  - intros i (x & -> & Hx)%list_elem_of_fmap (y & E & Hy)%list_elem_of_fmap.
    apply list_elem_of_In, in_flat_map in Hy as (b' & Hb' & Hy).
    rewrite <- !list_elem_of_In in *.
    destruct (Hf b ltac:(left)) as [_ Fx]. destruct (Hf b' ltac:(by right)) as [_ Fy].
    rewrite Forall_forall in Fx, Fy. destruct (Fx x Hx) as (_ & Ex & _), (Fy y Hy) as (_ & Ey & _).
    rewrite E in Ex. congruence.
  - apply IH. intros b' Hb'. apply Hf. by right.
Qed.

Lemma all_ids_nodup t : rt_ok t -> NoDup (map re_id (all t)).
Proof.
  intros Hok. apply (NoDup_flat_map_ids _ (self_id t)); [apply NoDup_seq|].
  intros b Hb. apply elem_of_seq in Hb. split; [apply (ok_nodup _ Hok)|apply (ok_place _ Hok)]; lia.
Qed.

Lemma sum_lookup (l : list nat) :
  foldr Nat.add 0%nat l = foldr Nat.add 0%nat (map (fun b => default 0%nat (l !! b)) (seq 0 (length l))).
Proof.
  induction l as [|x l IH]; [done|]. cbn [length seq map foldr]. simpl default at 1. f_equal.
  rewrite IH, <- seq_shift, map_map. done.
Qed.

Lemma length_flat_map {A B} (f : A -> list B) (l : list A) :
  length (flat_map f l) = foldr Nat.add 0%nat (map (fun x => length (f x)) l).
Proof. induction l as [|x l IH]; simpl; [done|]. by rewrite length_app, IH. Qed.

Lemma length_all t : rt_shape t -> length (all t) = rt_size t.
Proof.
  intros Hs. unfold all, rt_size. rewrite length_flat_map, (sum_lookup (bucket_sizes t)).
  rewrite (shape_sizes _ Hs). f_equal. apply map_ext_in. intros b Hb%in_seq.
  rewrite length_bucket_entries by (done || lia). done.
Qed.

(** ** Sorting by distance *)

Lemma bytes_ltb_false s t : bytes_ltb t s = false <-> s = t \/ bytes_ltb s t = true.
Proof.
  split.
  - intros E. destruct (bytes_ltb_total s t) as [?|[?|?]]; [by right|by left|congruence].
  - intros [->|?]; [apply bytes_ltb_irrefl|by apply bytes_ltb_asym].
Qed.

#[global] Instance closer_total target : Total (closer target).
Proof.
  intros a b. unfold closer, nid_ltb.
  destruct (bytes_ltb_total (nid_bytes (nid_xor target (re_id a))) (nid_bytes (nid_xor target (re_id b))))
    as [?|[->|?]]; [left|left|right]; auto using bytes_ltb_asym, bytes_ltb_irrefl.
Qed.

#[global] Instance closer_trans target : Transitive (closer target).
Proof.
  intros a b c. unfold closer, nid_ltb. rewrite !bytes_ltb_false.
  intros [E1|L1] [E2|L2]; [left; congruence|right; by rewrite E1|right; by rewrite <- E2|right].
  by eapply bytes_ltb_trans.
Qed.

Lemma all_id_ok t e : rt_ok t -> e ∈ all t -> nid_ok (re_id e).
Proof.
  intros Hok (bk & Hbk & He)%elem_of_all. pose proof (ok_place _ Hok bk Hbk) as F.
  rewrite Forall_forall in F. by apply F.
Qed.

(** At equal distance the identifiers are equal, so in the table the entries are. *)
Lemma closer_antisym t target a b :
  rt_ok t -> nid_ok target -> a ∈ all t -> b ∈ all t ->
  closer target a b -> closer target b a -> a = b.
Proof.
  intros Hok Ht Ha Hb. unfold closer, nid_ltb. rewrite !bytes_ltb_false. intros H1 H2.
  assert (nid_bytes (nid_xor target (re_id a)) = nid_bytes (nid_xor target (re_id b))) as E.
  { destruct H1 as [?|H1]; [done|]. destruct H2 as [?|H2]; [done|].
    rewrite (bytes_ltb_asym _ _ H1) in H2. done. }
  assert (re_id a = re_id b) as Eid.
  { apply nid_val_inj; eauto using all_id_ok. apply (f_equal (fun s => Z.lxor (nid_val target) (be_val s))) in E.
    fold (nid_val (nid_xor target (re_id a))) (nid_val (nid_xor target (re_id b))) in E.
    rewrite !nid_val_xor, <- !Z.lxor_assoc, Z.lxor_nilpotent, !Z.lxor_0_l in E;
      eauto using all_id_ok. }
  pose proof (all_ids_nodup t Hok) as Hnd. clear -Ha Hb Eid Hnd.
  induction (all t) as [|x l IH]; [by apply not_elem_of_nil in Ha|].
  cbn [map] in Hnd. apply NoDup_cons in Hnd as [Hx Hnd].
  rewrite elem_of_cons in Ha, Hb. destruct Ha as [->|Ha], Hb as [->|Hb]; auto; exfalso; apply Hx.
  - rewrite Eid. by apply (list_elem_of_fmap_2 re_id).
  - rewrite <- Eid. by apply (list_elem_of_fmap_2 re_id).
Qed.

Lemma closest_take t target k : closest t target k = take k (merge_sort (closer target) (all t)).
Proof.
  unfold closest. destruct (k <? _)%nat eqn:E; b2p; [done|]. by rewrite take_ge.
Qed.

Lemma closest_subseteq t target k e : e ∈ closest t target k -> e ∈ all t.
Proof.
  rewrite closest_take. intros He. rewrite <- (merge_sort_Permutation (closer target) (all t)).
  by eapply elem_of_sublist; [|apply sublist_take].
Qed.

Lemma StronglySorted_app_ord {A} (R : A -> A -> Prop) l1 l2 x y :
  StronglySorted R (l1 ++ l2) -> x ∈ l1 -> y ∈ l2 -> R x y.
Proof.
  induction l1 as [|a l1 IH]; intros Hs Hx Hy; [by apply not_elem_of_nil in Hx|].
  inversion Hs as [|? ? Hs' Hall]; subst. rewrite elem_of_cons in Hx. destruct Hx as [->|Hx]; [|auto].
  rewrite Forall_forall in Hall. apply Hall, elem_of_app. by right.
Qed.

Lemma closer_strict t target a b :
  rt_ok t -> nid_ok target -> a ∈ all t -> b ∈ all t -> closer target a b -> a <> b ->
  nid_val (nid_xor target (re_id a)) < nid_val (nid_xor target (re_id b)).
Proof.
  intros Hok Ht Ha Hb Hab Hne. pose proof (all_id_ok t a Hok Ha). pose proof (all_id_ok t b Hok Hb).
  pose proof Hab as Hab'. unfold closer in Hab'. rewrite nid_ltb_val in Hab' by auto with bt. b2p.
  destruct (Z.eq_dec (nid_val (nid_xor target (re_id a))) (nid_val (nid_xor target (re_id b))))
    as [E|]; [|lia].
  exfalso. apply Hne. apply (closer_antisym t target); [done..|].
  unfold closer. rewrite nid_ltb_val by auto with bt. apply Z.ltb_ge. lia.
Qed.

(** A sorted list without repetitions, under a relation strict on its elements. *)
Lemma StronglySorted_strict {A} (R S : A -> A -> Prop) l :
  (forall a b, a ∈ l -> b ∈ l -> R a b -> a <> b -> S a b) ->
  NoDup l -> StronglySorted R l -> StronglySorted S l.
Proof.
  intros HS Hnd. induction 1 as [|x s Hs IH Hall]; [constructor|].
  apply NoDup_cons in Hnd as [Hx Hnd]. constructor.
  - apply IH; [|done]. intros a b Ha Hb. apply HS; by right.
  - rewrite Forall_forall in Hall. apply Forall_forall. intros y Hy.
    apply HS; [left|by right|by apply Hall|]. intros ->. done.
Qed.

Lemma StronglySorted_take {A} (R : A -> A -> Prop) k l :
  StronglySorted R l -> StronglySorted R (take k l).
Proof.
  intros Hs. rewrite <- (take_drop k l) in Hs. induction (take k l) as [|x s IH]; [constructor|].
  inversion Hs as [|? ? Hs' Hall]. apply Forall_app in Hall as [Hall _]. constructor; auto.
Qed.

(** A node's bucket is the position of the highest set bit of its distance to
    this node: bucket [b] holds exactly the distances in [2^b, 2^(b+1)), every other
    identifier has one of the 160 buckets, and this node itself has none. *)
Theorem bucket_index_correct self id b :
  nid_ok self -> nid_ok id -> (b < NUM_BUCKETS)%nat ->
  (bucket_index self id = b <->
     2 ^ Z.of_nat b <= nid_val (nid_xor self id) < 2 ^ (Z.of_nat b + 1)) /\
  (bucket_index self id = NUM_BUCKETS <-> id = self) /\
  (bucket_index self id <= NUM_BUCKETS)%nat.
Proof.
  intros Hs Hi Hb. assert (bucket_index self self = NUM_BUCKETS) as Hself.
  { unfold bucket_index. by rewrite xor_is_zero, bool_decide_true. }
  destruct (decide (id = self)) as [->|Hne].
  - rewrite Hself, nid_val_xor, Z.lxor_nilpotent by done.
    split; [|done]. split; [lia|]. pose proof (Z.pow_pos_nonneg 2 (Z.of_nat b)). lia.
  - pose proof (bucket_index_log2 self id Hs Hi ltac:(congruence)) as Hlog.
    pose proof (proj2 (bucket_index_lt self id Hs Hi) ltac:(congruence)) as Hlt.
    assert (0 < nid_val (nid_xor self id)) as Hpos.
    { pose proof (nid_val_range _ (nid_xor_ok _ _ Hs Hi)). pose proof (xor_is_zero _ _ Hs Hi) as Ez.
      rewrite is_zero_val, bool_decide_false in Ez by (auto with bt; congruence). b2p. lia. }
    unfold NUM_BUCKETS in *. split; [|split; [split; [lia|done]|lia]].
    rewrite Z.add_1_r. split.
    + intros <-. rewrite Hlog. apply Z.log2_spec. lia.
    + intros Hr. apply Nat2Z.inj. rewrite Hlog. apply Z.log2_unique; lia.
Qed.

Lemma bucket_index_correct_witness :
  nid_ok (sample_id 1) /\ nid_ok (sample_id 9) /\ bucket_index (sample_id 1) (sample_id 9) = 3%nat.
Proof.
  split; [apply sample_id_ok|]. split; [apply sample_id_ok|].
  apply (bucket_index_correct (sample_id 1) (sample_id 9) 3 (sample_id_ok 1) (sample_id_ok 9)).
  - unfold NUM_BUCKETS. lia.
  - vm_compute. split; [discriminate|reflexivity].
Defined.

(** C10: whatever calls of [add] and [remove] were made since construction, every
    entry is in the bucket its distance dictates, no identifier occurs twice in the
    whole table, this node and the zero identifier are absent, no bucket holds more
    than [K] entries, [size] counts the entries of [all], and one more [add] changes
    only the entry's bucket, by exactly one of the four outcomes of [add_bucket]:
    refreshed to most recent, appended, replacing the least recently seen entry when
    that one is no longer good, or dropped because all are good. *)
Theorem routing_table_invariant self ops now e count :
  nid_ok self -> Forall op_ok ops -> nid_ok (re_id e) ->
  let t := fold_left rt_step ops (rt_new self) in
  rt_ok t /\
  NoDup (map re_id (all t)) /\
  (forall x, x ∈ all t -> re_id x <> self_id t /\ is_zero (re_id x) = false) /\
  (forall b, (b < NUM_BUCKETS)%nat -> (length (bucket_entries t b) <= K)%nat) /\
  rt_size t = length (all t) /\
  (re_id e <> self_id t -> is_zero (re_id e) = false ->
     added now t (bucket_index (self_id t) (re_id e)) e (add now t e count)).
Proof.
  intros Hs Hops He t. assert (rt_ok t) as Hok by (apply rt_run_ok; [by apply rt_new_ok|done]).
  split; [done|]. split; [by apply all_ids_nodup|]. split; [|split; [|split]].
  - intros x (b & Hb & Hx)%elem_of_all. pose proof (ok_place _ Hok b Hb) as F.
    rewrite Forall_forall in F. destruct (F x Hx) as (Hid & Hbx & Hz). split; [|done]. intros E.
    apply (bucket_index_lt (self_id t) (re_id x)); [apply (ok_self _ Hok)|done| |done].
    by rewrite Hbx.
  - intros b Hb. rewrite length_bucket_entries by (apply Hok || done). apply (shape_size _ (ok_shape _ Hok)).
  - symmetry. apply length_all, Hok.
  - intros Hne Hz. apply add_spec; [apply Hok|done..|].
    apply bucket_index_lt; [apply (ok_self _ Hok)|done|congruence].
Qed.

Definition sample_entry (b seen : Z) : RoutingEntry := mkEntry (sample_id b) (mkPeer [] b) seen.

Lemma routing_table_invariant_witness :
  nid_ok (sample_id 1) /\
  let t := fold_left rt_step
    [RAdd 0 (sample_entry 2 5) true; RAdd 0 (sample_entry 3 6) true;
     RAdd 0 (sample_entry 2 7) true; RRemove (sample_id 3)] (rt_new (sample_id 1)) in
  all t = [sample_entry 2 7] /\ NoDup (map re_id (all t)).
Proof.
  split; [apply sample_id_ok|]. split; [vm_compute; reflexivity|].
  apply (routing_table_invariant (sample_id 1)
    [RAdd 0 (sample_entry 2 5) true; RAdd 0 (sample_entry 3 6) true;
     RAdd 0 (sample_entry 2 7) true; RRemove (sample_id 3)] 0 (sample_entry 4 8) true).
  - apply sample_id_ok.
  - repeat (apply Forall_cons_2; [exact I || apply sample_id_ok|]). apply Forall_nil_2.
  - apply sample_id_ok.
Defined.

(** C12: [closest] returns the [k] nearest nodes of the table: as many as there are
    up to [k], in strictly increasing distance from the target, each of them strictly
    closer than every node left out; and any ordering of the table a correct sort may
    produce gives the same answer. *)
Theorem closest_correct t target k :
  rt_ok t -> nid_ok target ->
  let r := closest t target k in
  let d e := nid_val (nid_xor target (re_id e)) in
  length r = Nat.min k (rt_size t) /\
  StronglySorted (fun a b => d a < d b) r /\
  r ⊆ all t /\
  (forall x y, x ∈ r -> y ∈ all t -> y ∉ r -> d x < d y) /\
  (forall l, l ≡ₚ all t -> Sorted (closer target) l -> take k l = r).
Proof.
  intros Hok Ht r d. unfold r. rewrite closest_take. set (l := merge_sort (closer target) (all t)).
  assert (l ≡ₚ all t) as Hp by apply merge_sort_Permutation.
  assert (Sorted (closer target) l) as Hsd by (apply Sorted_merge_sort; apply _).
  assert (NoDup l) as Hnd.
  { rewrite Hp. pose proof (all_ids_nodup t Hok) as Hids. by apply NoDup_fmap_1 in Hids. }
  assert (forall a b, a ∈ l -> b ∈ l -> closer target a b -> a <> b -> d a < d b) as Hlt.
  { intros a b. rewrite Hp. apply closer_strict; done. }
  apply Sorted_StronglySorted in Hsd as Hss; [|apply _].
  split; [|split; [|split; [|split]]].
  - rewrite length_take, Hp, (length_all t (ok_shape _ Hok)). done.
  - apply (StronglySorted_strict (closer target)); [|eapply sublist_NoDup; [exact Hnd|apply sublist_take]|
      by apply StronglySorted_take].
    intros a b Ha Hb. apply Hlt; by eapply elem_of_sublist; [|apply sublist_take].
  - intros x Hx. rewrite <- Hp. eapply sublist_subseteq; [apply sublist_take|exact Hx].
  - intros x y Hx Hy Hny. rewrite <- Hp in Hy. rewrite <- (take_drop k l) in Hy.
    apply elem_of_app in Hy as [?|Hy]; [done|]. apply Hlt.
    + eapply sublist_subseteq; [apply sublist_take|exact Hx].
    + eapply sublist_subseteq; [apply sublist_drop|exact Hy].
    + rewrite <- (take_drop k l) in Hss. by eapply StronglySorted_app_ord.
    + intros ->. done.
  - intros l' Hp' Hs'. f_equal. apply (Sorted_unique_strong (closer target)); [|done..|by rewrite Hp', Hp].
    intros x y Hx Hy. apply (closer_antisym t target); [done..| |]; [by rewrite <- Hp'|by rewrite <- Hp].
Qed.

Lemma closest_correct_witness :
  let t := fold_left rt_step
    [RAdd 0 (sample_entry 9 5) true; RAdd 0 (sample_entry 3 6) true; RAdd 0 (sample_entry 2 7) true]
    (rt_new (sample_id 1)) in
  rt_ok t /\ closest t (sample_id 8) 2 = [sample_entry 9 5; sample_entry 2 7] /\
  length (closest t (sample_id 8) 2) = 2%nat.
Proof.
  set (ops := [RAdd 0 (sample_entry 9 5) true; RAdd 0 (sample_entry 3 6) true; RAdd 0 (sample_entry 2 7) true]).
  cbv zeta.
  assert (rt_ok (fold_left rt_step ops (rt_new (sample_id 1)))) as Hok.
  { apply rt_run_ok; [apply rt_new_ok, sample_id_ok|].
    repeat (apply Forall_cons_2; [apply sample_id_ok|]). apply Forall_nil_2. }
  split; [exact Hok|]. split; [vm_compute; reflexivity|].
  destruct (closest_correct _ (sample_id 8) 2 Hok (sample_id_ok 8)) as [-> _]. vm_compute. reflexivity.
Defined.

(** ** Compact node information *)

Section compact_roundtrip.
Context `{Inet} `{!InetOk}.

Definition entry_ok (e : RoutingEntry) : Prop := nid_ok (re_id e) /\ peer_ok (re_pa e).

Lemma compact_length e : entry_ok e -> length (compact e) = 26%nat.
Proof. intros [[Hl _] _]. unfold compact. by rewrite length_app, Hl, peer_to_compact_length. Qed.

Lemma from_compact_app now p e s :
  entry_ok e ->
  from_compact now (p ++ compact e ++ s) (length p) = mkEntry (re_id e) (re_pa e) now.
Proof.
  intros He. pose proof (compact_length e He) as Hl. destruct He as [Hid Hpa].
  unfold from_compact. rewrite !length_app, Hl, (proj2 (Nat.ltb_ge _ _)) by lia.
  pose proof (proj1 Hid) as Hl20. unfold compact. rewrite <- app_assoc.
  pose proof (slice_app_mid p (nid_bytes (re_id e))
                (peer_to_compact (ip (re_pa e)) (port (re_pa e)) ++ s)) as Es.
  rewrite Hl20 in Es. rewrite Es.
  change (from_string (nid_bytes (re_id e))) with (from_string (nid_to_string (re_id e))).
  rewrite from_string_to_string by done.
  pose proof (compact_to_peer_app (p ++ nid_bytes (re_id e)) (re_pa e) s Hpa) as E.
  unfold compact_to_peer in E. rewrite !length_app, !Hl20 in E.
  destruct (_ <? _)%nat; [done|]. rewrite <- !app_assoc in E.
  replace (length p + 20 + 4)%nat with (length p + 24)%nat in E by lia.
  injection E as E1 E2. rewrite E1, E2. by destruct (re_pa e).
Qed.
End compact_roundtrip.
