(* ===== verification/RoutingTableStore.v ===== *)
(** * Persistence of the routing table
    (inc/dht/routing_table_store.h, src/dht/routing_table_store.cpp)

    The text format, its writer and its reader.  The file system is the map from
    paths to contents plus an environment [FsEnv] that says which system calls
    succeed; the stream extractions [>>] are modelled on the bytes of the line. *)

From S2P Require Import Prelude CxxLib ByteOrder Hash Addr NodeId RoutingTable.

Definition nl : Z := 10.

(** Which calls of the operating system succeed. *)
Record FsEnv := mkFs {
  fs_stat : bytes -> bool;   (* stat(dir) == 0 *)
  fs_mkdir : bytes -> bool;  (* mkdir(dir) == 0 *)
  fs_open : bytes -> bool;   (* the output stream opens *)
  fs_write : bytes -> bool;  (* ... and takes every byte written to it *)
  fs_good : bytes -> bool;   (* when it does not: whether it still is good before it is closed *)
  fs_kept : bytes -> nat;    (* ... and how many bytes it has taken in the end *)
  fs_unlink : bytes -> bool; (* remove(path) succeeds or the file is absent *)
}.

Abbreviation files := (gmap bytes bytes).

Record RoutingTableSnapshot := mkSnapshot { snap_self : NodeId; snap_entries : list RoutingEntry }.

Record StoreResult := mkStoreResult { sr_ok : bool; sr_error : bytes; sr_snapshot : RoutingTableSnapshot }.

Definition empty_snapshot : RoutingTableSnapshot := mkSnapshot nid_zero [].

(** [path.find_last_of('/')] *)
Fixpoint find_last_slash (s : bytes) (i : nat) : option nat :=
  match s with
  | [] => None
  | c :: s' =>
      match find_last_slash s' (S i) with
      | Some j => Some j
      | None => if c =? chr "/" then Some i else None
      end
  end.

(** [ensure_parent_dir]: [inr] carries the error text. *)
Definition ensure_parent_dir (env : FsEnv) (path : bytes) : unit + bytes :=
  match find_last_slash path 0 with
  | None => inl ()
  | Some pos =>
      let dir := take pos path in
      if (length dir =? 0)%nat then inl ()
      else if fs_stat env dir then inl ()
      else if negb (fs_mkdir env dir) then inr (str "failed to create directory: " ++ dir)
      else inl ()
  end.

(** The byte loop of [node_id_from_hex]; [i] counts the bytes done. *)
Fixpoint hex_bytes_loop (hex : bytes) (i n : nat) : result bytes :=
  match n with
  | O => Ok []
  | S n' =>
      byte ← stoul16 (slice (i * 2) (i * 2 + 2) hex);
      rest ← hex_bytes_loop hex (S i) n';
      Ok (u8 byte :: rest)
  end.

(** [node_id_from_hex]: [None] is the [false] return; [std::stoul] may throw. *)
Definition node_id_from_hex (hex : bytes) : result (option NodeId) :=
  if negb (length hex =? 40)%nat then Ok None
  else bs ← hex_bytes_loop hex 0 20; Ok (Some (mkNodeId bs)).

(** [iss >> word]: the next blank-delimited word and the rest, [None] on failure. *)
Definition not_space (c : Z) : bool := negb (isspace c).

Definition read_word (s : bytes) : option (bytes * bytes) :=
  let s := skip isspace s in
  match span not_space s with
  | [] => None
  | w => Some (w, drop (length w) s)
  end.

(** [iss >> port] for a [uint16_t] *)
Definition read_u16 (s : bytes) : option Z :=
  match strto s with
  | None => None
  | Some (neg, m) => if 65535 <? m then None else Some (if neg then u16 (- m) else m)
  end.

Definition parse_entry_line (line : bytes) : result (option RoutingEntry) :=
  if (length line <? 6)%nat || negb (starts_with (str "entry=") line) then Ok None else
  match read_word (drop 6 line) with
  | None => Ok None
  | Some (id_hex, s) =>
      match read_word s with
      | None => Ok None
      | Some (ip, s) =>
          match read_u16 s with
          | None => Ok None
          | Some port =>
              id ← node_id_from_hex id_hex;
              match id with
              | None => Ok None
              | Some id => Ok (Some (mkEntry id (mkPeer ip port) 0))
              end
          end
      end
  end.

(** The lines [std::getline] delivers. *)
Fixpoint lines_of (cur s : bytes) : list bytes :=
  match s with
  | [] => match cur with [] => [] | _ => [cur] end
  | c :: s' => if c =? nl then cur :: lines_of [] s' else lines_of (cur ++ [c]) s'
  end.

(** One round of the loop of [load]: go on with a new snapshot, or return. *)
Definition load_line (snap : RoutingTableSnapshot) (line : bytes)
    : result (RoutingTableSnapshot + StoreResult) :=
  match line with
  | [] => Ok (inl snap)
  | c :: _ =>
      if c =? chr "#" then Ok (inl snap)
      else if starts_with (str "version=") line then
        if negb (bool_decide (line = str "version=1"))
        then Ok (inr (mkStoreResult false (str "unsupported routing table version: " ++ line) snap))
        else Ok (inl snap)
      else if starts_with (str "self_id=") line then
        id ← node_id_from_hex (drop 8 line);
        match id with
        | Some id => Ok (inl (mkSnapshot id (snap_entries snap)))
        | None => Ok (inl snap)
        end
      else if starts_with (str "entry=") line then
        e ← parse_entry_line line;
        match e with
        | None => Ok (inr (mkStoreResult false (str "malformed entry line: " ++ line) snap))
        | Some e => Ok (inl (mkSnapshot (snap_self snap) (snap_entries snap ++ [e])))
        end
      else Ok (inl snap)
  end.

Fixpoint load_loop (snap : RoutingTableSnapshot) (ls : list bytes) : result StoreResult :=
  match ls with
  | [] =>
      match snap_entries snap with
      | [] => Ok (mkStoreResult false (str "no entries in routing table file") snap)
      | _ => Ok (mkStoreResult true [] snap)
      end
  | line :: ls' =>
      r ← load_line snap line;
      match r with
      | inl snap' => load_loop snap' ls'
      | inr res => Ok res
      end
  end.

(** [RoutingTableStore::load] *)
Definition load (fs : files) (path : bytes) : result StoreResult :=
  match fs !! path with
  | None => Ok (mkStoreResult false (str "file not found: " ++ path) empty_snapshot)
  | Some content => load_loop empty_snapshot (lines_of [] content)
  end.

(** The text [save] writes. *)
Definition entry_line (e : RoutingEntry) : bytes :=
  str "entry=" ++ nid_hex (re_id e) ++ str " " ++ ip (re_pa e) ++ str " " ++ to_string (port (re_pa e)).

Definition store_lines (self : NodeId) (entries : list RoutingEntry) : list bytes :=
  str "# DHT routing table (auto-generated)" :: str "version=1" ::
  (str "self_id=" ++ nid_hex self) :: map entry_line entries.

Definition store_text (self : NodeId) (entries : list RoutingEntry) : bytes :=
  concat (map (fun l => l ++ [nl]) (store_lines self entries)).

(** [RoutingTableStore::save]: the return value, the error text and the files.  The stream
    is asked whether it is good before its buffer is flushed, so a full disk can leave
    the beginning of the text behind the answer [true]. *)
Definition save (env : FsEnv) (fs : files) (t : RoutingTable) (self : NodeId) (path : bytes)
    : bool * option bytes * files :=
  match ensure_parent_dir env path with
  | inr err => (false, Some err, fs)
  | inl _ =>
      match all t with
      | [] => (true, None, fs)
      | entries =>
          if negb (fs_open env path)
          then (false, Some (str "failed to open for write: " ++ path), fs)
          else
            let text := store_text self entries in
            if fs_write env path then (true, None, <[path := text]> fs)
            else (fs_good env path, None, <[path := take (fs_kept env path) text]> fs)
      end
  end.

(** [RoutingTableStore::remove_file] *)
Definition remove_file (env : FsEnv) (fs : files) (path : bytes) : bool * option bytes * files :=
  match path with
  | [] => (true, None, fs)
  | _ => if negb (fs_unlink env path) then (false, Some (str "failed to remove: " ++ path), fs)
         else (true, None, delete path fs)
  end.

(** ** Hexadecimal identifiers *)

Lemma hex_bytes_loop_to_hex p s t :
  bytes_ok s -> (length p mod 2 = 0)%nat ->
  hex_bytes_loop (p ++ to_hex s ++ t) (length p / 2) (length s) = Ok s.
Proof.
  intros Hs. revert p. induction Hs as [|b s Hb Hs IH]; intros p Hp; [done|].
  cbn [length hex_bytes_loop].
  assert (length p / 2 * 2 = length p)%nat as Hlen.
  { pose proof (Nat.div_mod_eq (length p) 2). lia. }
  change (to_hex (b :: s)) with (hex_byte b ++ to_hex s). rewrite <- app_assoc.
  rewrite Hlen. pose proof (slice_app_mid p (hex_byte b) (to_hex s ++ t)) as Es.
  change (length (hex_byte b)) with 2%nat in Es. rewrite Es, stoul16_hex_byte by done. cbn [mbind result_bind].
  assert (S (length p / 2) = length (p ++ hex_byte b) / 2)%nat as ->.
  { rewrite length_app. change (length (hex_byte b)) with (1 * 2)%nat.
    rewrite Nat.div_add by lia. lia. }
  rewrite app_assoc, IH.
  - cbn. unfold u8. by rewrite Z.mod_small by apply Hb.
  - rewrite length_app. change (length (hex_byte b)) with (1 * 2)%nat. by rewrite Nat.Div0.mod_add.
Qed.

Lemma node_id_from_hex_hex id : nid_ok id -> node_id_from_hex (nid_hex id) = Ok (Some id).
Proof.
  intros [Hl Hb]. unfold node_id_from_hex, nid_hex. rewrite length_to_hex, Hl. cbn [negb Nat.eqb Nat.mul Nat.add].
  pose proof (hex_bytes_loop_to_hex [] (nid_bytes id) [] Hb eq_refl) as E.
  rewrite app_nil_r, Hl in E. simpl app in E. simpl length in E. change (0 / 2)%nat with 0%nat in E.
  rewrite E. cbn. by destruct id.
Qed.

(** ** Lines *)

Definition no_nl (l : bytes) : Prop := Forall (fun c => (c =? nl) = false) l.

Lemma lines_of_app cur l s : no_nl l -> lines_of cur (l ++ nl :: s) = (cur ++ l) :: lines_of [] s.
Proof.
  intros Hl. revert cur. induction Hl as [|c l Hc Hl IH]; intros cur; simpl.
  - by rewrite app_nil_r.
  - rewrite Hc, IH, <- app_assoc. done.
Qed.

Lemma lines_of_concat ls :
  Forall no_nl ls -> lines_of [] (concat (map (fun l => l ++ [nl]) ls)) = ls.
Proof.
  induction 1 as [|l ls Hl Hls IH]; [done|]. cbn [map concat].
  rewrite <- app_assoc. cbn [app]. rewrite lines_of_app by done. by rewrite IH.
Qed.

(** Characters that can be part of a word. *)
Definition plain (s : bytes) : Prop := Forall (fun c => not_space c = true) s.

Lemma plain_no_nl s : plain s -> no_nl s.
Proof.
  intros Hs. eapply Forall_impl; [exact Hs|]. intros c. unfold not_space, isspace, nl. intros Hc.
  destruct (c =? 10) eqn:E; [|done]. b2p. by subst.
Qed.

Lemma read_word_app w s : plain w -> w <> [] ->
  read_word (w ++ 32 :: s) = Some (w, 32 :: s).
Proof.
  intros Hw Hne. unfold read_word. destruct w as [|c w]; [done|].
  inversion Hw as [|? ? Hc _]; subst. unfold not_space in Hc. b2p.
  cbn [app skip]. rewrite Hc. change (c :: w ++ 32 :: s) with ((c :: w) ++ 32 :: s).
  rewrite (span_app not_space (c :: w) 32 s Hw eq_refl). by rewrite drop_app_length.
Qed.

Lemma read_word_blank s : read_word (32 :: s) = read_word s.
Proof. done. Qed.

Lemma hex_digit_plain d : 0 <= d < 16 -> not_space (hex_digit d) = true.
Proof.
  intros Hd. unfold not_space, isspace, hex_digit. apply negb_true_iff.
  destruct (d <? 10) eqn:E; b2p; rewrite orb_false_iff, andb_false_iff, !Z.leb_gt, Z.eqb_neq; lia.
Qed.

Lemma to_hex_plain s : bytes_ok s -> plain (to_hex s).
Proof.
  induction 1 as [|b s Hb Hs IH]; [constructor|].
  change (to_hex (b :: s)) with (hex_byte b ++ to_hex s). destruct (byte_nibbles b Hb) as (? & ? & _).
  repeat (apply Forall_cons_2; [by apply hex_digit_plain|]). done.
Qed.

Lemma to_string_plain n : 0 <= n -> plain (to_string n).
Proof.
  intros Hn. destruct (to_string_digits n Hn) as (_ & Hd & _). eapply Forall_impl; [exact Hd|].
  intros c Hc. destruct (isdigit_not_blank c Hc) as [E _]. unfold not_space. by rewrite E.
Qed.

Lemma read_u16_to_string n : 0 <= n < 2 ^ 16 -> read_u16 (32 :: to_string n) = Some n.
Proof.
  intros Hn. destruct (to_string_digits n) as (Hv & Hd & Hne); [lia|]. unfold read_u16.
  change (strto (32 :: to_string n)) with (strto (to_string n)).
  rewrite strto_digits, Hv by done. by rewrite (proj2 (Z.ltb_ge _ _)) by lia.
Qed.

(** ** Round trip *)

(** An entry whose address prints as one word. *)
Definition storable (e : RoutingEntry) : Prop :=
  nid_ok (re_id e) /\ plain (ip (re_pa e)) /\ ip (re_pa e) <> [] /\ 0 <= port (re_pa e) < 2 ^ 16.

#[global] Instance storable_dec e : Decision (storable e).
Proof. unfold storable, plain. apply _. Defined.

(** What is left of an entry after a restart. *)
Definition restored (e : RoutingEntry) : RoutingEntry := mkEntry (re_id e) (re_pa e) 0.

Lemma nid_hex_nonempty id : nid_ok id -> nid_hex id <> [].
Proof.
  intros [Hl _] E. apply (f_equal length) in E. unfold nid_hex in E.
  rewrite length_to_hex, Hl in E. done.
Qed.

Lemma parse_entry_line_entry e : storable e -> parse_entry_line (entry_line e) = Ok (Some (restored e)).
Proof.
  intros (Hid & Hip & Hne & Hport). unfold parse_entry_line, entry_line.
  rewrite length_app, starts_with_app. cbn [length str Nat.add Nat.ltb Nat.leb orb negb].
  rewrite drop_app_length' by done.
  assert (forall x, str " " ++ x = 32 :: x) as Hblank by done. rewrite !Hblank.
  rewrite read_word_app by (apply to_hex_plain, Hid || by apply nid_hex_nonempty).
  rewrite read_word_blank, read_word_app by done.
  rewrite read_u16_to_string, node_id_from_hex_hex by done. cbn. unfold restored. by destruct (re_pa e).
Qed.

Lemma load_line_entry snap e :
  storable e ->
  load_line snap (entry_line e) = Ok (inl (mkSnapshot (snap_self snap) (snap_entries snap ++ [restored e]))).
Proof.
  intros He. pose proof (parse_entry_line_entry e He) as Hp. unfold load_line, entry_line in *.
  cbn [str app] in *. rewrite Hp. done.
Qed.

Lemma load_loop_entries snap es :
  Forall storable es -> snap_entries snap ++ es <> [] ->
  load_loop snap (map entry_line es)
  = Ok (mkStoreResult true [] (mkSnapshot (snap_self snap) (snap_entries snap ++ map restored es))).
Proof.
  intros Hes. revert snap. induction Hes as [|e es He Hes IH]; intros snap Hne.
  - cbn. rewrite app_nil_r in *. destruct snap as [i l]. simpl in *. by destruct l.
  - cbn [map load_loop]. rewrite load_line_entry by done. cbn [mbind result_bind].
    rewrite IH; cbn [snap_self snap_entries]; [by rewrite <- app_assoc|].
    rewrite <- app_assoc. intros [_ E]%app_eq_nil. discriminate.
Qed.

Lemma store_lines_no_nl self es :
  nid_ok self -> Forall storable es -> Forall no_nl (store_lines self es).
Proof.
  intros Hs Hes. unfold store_lines.
  assert (forall s : string, forallb (fun c => negb (c =? nl)) (str s) = true -> no_nl (str s)) as Hlit.
  { intros s. rewrite forallb_forall. intros Hf. apply Forall_forall. intros c Hc%list_elem_of_In.
    by apply negb_true_iff, Hf. }
  apply Forall_cons_2; [by apply Hlit|]. apply Forall_cons_2; [by apply Hlit|].
  apply Forall_cons_2.
  - apply Forall_app_2; [by apply Hlit|]. apply plain_no_nl, to_hex_plain, Hs.
  - apply Forall_map. eapply Forall_impl; [exact Hes|]. intros e ([? Hid] & Hip & _ & Hport). simpl.
    unfold entry_line. repeat apply Forall_app_2; try by apply Hlit.
    + by apply plain_no_nl, to_hex_plain.
    + by apply plain_no_nl.
    + apply plain_no_nl, to_string_plain. lia.
Qed.

Lemma load_store_text self es :
  nid_ok self -> Forall storable es -> es <> [] ->
  load_loop empty_snapshot (lines_of [] (store_text self es))
  = Ok (mkStoreResult true [] (mkSnapshot self (map restored es))).
Proof.
  intros Hs Hes Hne. unfold store_text. rewrite lines_of_concat by by apply store_lines_no_nl.
  unfold store_lines. cbn [load_loop].
  assert (load_line empty_snapshot (str "# DHT routing table (auto-generated)") = Ok (inl empty_snapshot)) as -> by done.
  assert (load_line empty_snapshot (str "version=1") = Ok (inl empty_snapshot)) as E by (vm_compute; done).
  cbn [mbind result_bind load_loop]. rewrite E. cbn [mbind result_bind load_loop].
  assert (load_line empty_snapshot (str "self_id=" ++ nid_hex self) = Ok (inl (mkSnapshot self []))) as ->.
  { unfold load_line. cbn [str app]. 
    change (drop 8 _) with (nid_hex self). rewrite node_id_from_hex_hex by done. done. }
  cbn [mbind result_bind]. rewrite load_loop_entries by done. done.
Qed.

(** C13: what [save] writes, [load] reads back: when the directory, the open and the
    writes succeed and the table is not empty, loading the saved file gives this
    node's identifier and every entry of the table in order, with its identifier and
    address and the last-contact time reset to the clock's epoch; such an entry
    counts as good exactly while the clock is within fifteen minutes of its epoch. *)
Theorem store_roundtrip env fs t self path :
  ensure_parent_dir env path = inl () -> fs_open env path = true -> fs_write env path = true ->
  nid_ok self -> Forall storable (all t) -> all t <> [] ->
  exists fs', save env fs t self path = (true, None, fs') /\
    load fs' path = Ok (mkStoreResult true [] (mkSnapshot self (map restored (all t)))) /\
    (forall p, p <> path -> fs' !! p = fs !! p) /\
    (forall now e, is_good now (restored e) = (now <? NODE_GOOD_TIMEOUT)).
Proof.
  intros Hdir Hopen Hwrite Hs Hes Hne. exists (<[path := store_text self (all t)]> fs).
  split; [|split; [|split]].
  - unfold save. rewrite Hdir, Hopen, Hwrite. by destruct (all t).
  - unfold load. rewrite lookup_insert_eq. by apply load_store_text.
  - intros p Hp. by rewrite lookup_insert_ne.
  - intros now e. unfold is_good, restored. simpl. by rewrite Z.sub_0_r.
Qed.

Definition sample_env : FsEnv :=
  mkFs (fun _ => false) (fun _ => true) (fun _ => true) (fun _ => true) (fun _ => true) (fun _ => 0%nat) (fun _ => true).

Definition sample_table : RoutingTable :=
  add 0 (rt_new (sample_id 1)) (mkEntry (sample_id 77) (mkPeer (str "10.0.0.9") 6881) 123) true.

Lemma store_roundtrip_witness :
  ensure_parent_dir sample_env (str "d/rt.txt") = inl () /\
  exists fs', save sample_env ∅ sample_table (sample_id 1) (str "d/rt.txt") = (true, None, fs') /\
    load fs' (str "d/rt.txt")
    = Ok (mkStoreResult true [] (mkSnapshot (sample_id 1)
            [mkEntry (sample_id 77) (mkPeer (str "10.0.0.9") 6881) 0])).
Proof.
  split; [reflexivity|].
  assert (all sample_table = [mkEntry (sample_id 77) (mkPeer (str "10.0.0.9") 6881) 123]) as Eall
    by (vm_compute; reflexivity).
  destruct (store_roundtrip sample_env ∅ sample_table (sample_id 1) (str "d/rt.txt"))
    as (fs' & Hsave & Hload & _); [reflexivity..|apply sample_id_ok| | |].
  - rewrite Eall. apply Forall_singleton. apply (bool_decide_unpack _). vm_compute. reflexivity.
  - rewrite Eall. discriminate.
  - exists fs'. split; [exact Hsave|]. rewrite Hload, Eall. reflexivity.
Defined.


(** A file with an entry whose identifier has forty characters that are not all
    hexadecimal does not end in the "malformed entry line" result [load] has for bad
    entries: the exception of [std::stoul] leaves [load]. *)
Theorem load_throws_on_bad_hex fs path hex ip port e :
  plain hex -> length hex = 40%nat -> stoul16 (take 2 hex) = Throw e ->
  plain ip -> ip <> [] -> 0 <= port < 2 ^ 16 ->
  load (<[path := str "entry=" ++ hex ++ str " " ++ ip ++ str " " ++ to_string port ++ [nl]]> fs) path
  = Throw e.
Proof.
  intros Hhex Hlen Hthrow Hip Hne Hport. unfold load. rewrite lookup_insert_eq.
  set (line := str "entry=" ++ hex ++ str " " ++ ip ++ str " " ++ to_string port).
  assert (str "entry=" ++ hex ++ str " " ++ ip ++ str " " ++ to_string port ++ [nl]
          = line ++ nl :: []) as -> by (unfold line; rewrite <- !app_assoc; done).
  assert (no_nl line) as Hnl.
  { unfold line. repeat apply Forall_app_2; try (by apply plain_no_nl);
      try (repeat (apply Forall_cons_2; [reflexivity|]); apply Forall_nil_2).
    apply plain_no_nl, to_string_plain. lia. }
  rewrite lines_of_app by done. cbn [app load_loop].
  assert (parse_entry_line line = Throw e) as Hp.
  { unfold parse_entry_line, line.
    rewrite length_app, starts_with_app. cbn [length str Nat.add Nat.ltb Nat.leb orb negb].
    rewrite drop_app_length' by done.
    assert (forall x, str " " ++ x = 32 :: x) as Hblank by done. rewrite !Hblank.
    rewrite read_word_app by (done || by intros ->).
    rewrite read_word_blank, read_word_app, read_u16_to_string by done.
    unfold node_id_from_hex. rewrite Hlen. cbn [negb Nat.eqb hex_bytes_loop Nat.mul Nat.add].
    change (slice 0 2 hex) with (take 2 hex). by rewrite Hthrow. }
  assert (load_line empty_snapshot line = Throw e) as ->; [|done].
  unfold load_line. unfold line in *. cbn [str app] in *. by rewrite Hp.
Qed.

Lemma load_throws_on_bad_hex_witness :
  load {[str "rt" := str "entry=" ++ replicate 40 (chr "z") ++ str " " ++ str "1.2.3.4" ++ str " " ++ to_string 1 ++ [nl]]}
    (str "rt") = Throw (InvalidArgument "stoul").
Proof.
  apply (load_throws_on_bad_hex ∅ (str "rt") (replicate 40 (chr "z")) (str "1.2.3.4") 1
           (InvalidArgument "stoul")).
  - apply (bool_decide_unpack _). vm_compute. reflexivity.
  - reflexivity.
  - vm_compute. reflexivity.
  - apply (bool_decide_unpack _). vm_compute. reflexivity.
  - discriminate.
  - lia.
Defined.

(** ** Identifiers read from a file *)

Lemma hex_bytes_loop_ok hex i n bs :
  hex_bytes_loop hex i n = Ok bs -> length bs = n /\ bytes_ok bs.
Proof.
  revert i bs. induction n as [|n IH]; intros i bs E; cbn [hex_bytes_loop] in E.
  { injection E as <-. split; [done|constructor]. }
  inv_result.
  destruct (IH _ _ H0) as [Hl Hb]. split; [cbn [length]; congruence|].
  constructor; [|done]. unfold byte_ok, u8. apply Z.mod_pos_bound. lia.
Qed.

Lemma node_id_from_hex_ok hex id : node_id_from_hex hex = Ok (Some id) -> nid_ok id.
Proof. unfold node_id_from_hex. case_if; [done|]. intros E. inv_result. by eapply hex_bytes_loop_ok. Qed.

Lemma parse_entry_line_ok line e : parse_entry_line line = Ok (Some e) -> nid_ok (re_id e).
Proof.
  unfold parse_entry_line. repeat case_match; try done. intros E. inv_result.
  case_match; simplify_eq. by eapply node_id_from_hex_ok.
Qed.

(** Whatever the file holds, a loaded entry has a proper identifier. *)
Lemma load_ids_ok fs path r :
  load fs path = Ok r -> Forall (fun e => nid_ok (re_id e)) (snap_entries (sr_snapshot r)).
Proof.
  unfold load. destruct (fs !! path) as [content|]; [|intros [= <-]; constructor].
  assert (Forall (fun e => nid_ok (re_id e)) (snap_entries empty_snapshot)) as H0 by constructor.
  revert H0. generalize empty_snapshot. induction (lines_of [] content) as [|line ls IH]; intros snap Hs.
  { cbn [load_loop]. destruct (snap_entries snap) eqn:E; intros [= <-]; cbn; by rewrite E. }
  cbn [load_loop]. intros E. inv_result. destruct x as [snap'|res]; simplify_eq.
  - apply (IH snap'); [|done]. unfold load_line in H. repeat case_match; simplify_eq; try done; inv_result;
      case_match; simplify_eq; [done..|]. cbn. apply Forall_app_2; [done|]. apply Forall_singleton.
    by eapply parse_entry_line_ok.
  - unfold load_line in H. repeat case_match; simplify_eq; try done; inv_result; case_match; simplify_eq; done.
Qed.
