(* ===== verification/KademliaLookup.v ===== *)
(** * One iterative lookup (inc/dht/kademlia_lookup.h, src/dht/kademlia_lookup.cpp)

    The candidate list may hold several entries of one identifier, whose relative
    order [std::sort] leaves open; the sort is therefore the operation of a class
    [DistanceSort] with the law the standard gives it, and every theorem holds for
    any such sort.  [merge_sort] is the instance the examples run. *)

From S2P Require Import Prelude CxxLib ByteOrder Hash Addr NodeId RoutingTable.

Class DistanceSort := sort_by_distance : NodeId -> list RoutingEntry -> list RoutingEntry.

Class DistanceSortOk `{DistanceSort} : Prop := {
  sort_perm target l : sort_by_distance target l ≡ₚ l;
  sort_sorted target l : Sorted (closer target) (sort_by_distance target l);
}.

Definition merge_distance_sort : DistanceSort := fun target l => merge_sort (closer target) l.

Lemma merge_distance_sort_ok : @DistanceSortOk merge_distance_sort.
Proof.
  constructor; intros; [apply merge_sort_Permutation|apply Sorted_merge_sort; apply _].
Qed.

Record KademliaLookup := mkLookup {
  info_hash : InfoHash;
  target : NodeId;
  candidates : list RoutingEntry;
  queried : gset PeerAddress;
  pending_txns : gset bytes;
  started : Z;
}.

(** The constructor. *)
Definition lookup_new (now : Z) (h : InfoHash) (seed_candidates : list RoutingEntry) : KademliaLookup :=
  mkLookup h (from_info_hash h) seed_candidates ∅ ∅ now.

Definition all_candidates_queried (k : KademliaLookup) : bool :=
  forallb (fun node => bool_decide (re_pa node ∈ queried k)) (candidates k).

Definition has_pending (k : KademliaLookup) : bool := negb (bool_decide (pending_txns k = ∅)).
Definition pending_count (k : KademliaLookup) : nat := size (pending_txns k).

Definition add_pending_txn (txn : bytes) (k : KademliaLookup) : KademliaLookup :=
  mkLookup (info_hash k) (target k) (candidates k) (queried k) ({[txn]} ∪ pending_txns k) (started k).
Definition remove_pending_txn (txn : bytes) (k : KademliaLookup) : KademliaLookup :=
  mkLookup (info_hash k) (target k) (candidates k) (queried k) (pending_txns k ∖ {[txn]}) (started k).

(** [merge_nodes] *)
Definition merge_nodes `{DistanceSort} (nodes : list RoutingEntry) (self_id : NodeId)
    (k : KademliaLookup) : KademliaLookup :=
  let cs := candidates k ++ filter (fun n => re_id n <> self_id) nodes in
  let cs := sort_by_distance (target k) cs in
  let cs := if (RoutingTable.K <? length cs)%nat then take RoutingTable.K cs else cs in
  mkLookup (info_hash k) (target k) cs (queried k) (pending_txns k) (started k).

(** The loop of [select_next_candidates]. *)
Fixpoint select_loop (nodes : list RoutingEntry) (count : nat) (q : gset PeerAddress)
    (selected : list RoutingEntry) : list RoutingEntry * gset PeerAddress :=
  match nodes with
  | [] => (selected, q)
  | node :: nodes' =>
      if (count <=? length selected)%nat then (selected, q)
      else if bool_decide (re_pa node ∈ q) then select_loop nodes' count q selected
      else select_loop nodes' count ({[re_pa node]} ∪ q) (selected ++ [node])
  end.

Definition select_next_candidates (count : nat) (k : KademliaLookup)
    : list RoutingEntry * KademliaLookup :=
  let '(selected, q) := select_loop (candidates k) count (queried k) [] in
  (selected, mkLookup (info_hash k) (target k) (candidates k) q (pending_txns k) (started k)).

(** ** Selection *)

Lemma select_loop_spec nodes count q sel sel' q' :
  select_loop nodes count q sel = (sel', q') ->
  (length sel <= count)%nat ->
  exists new, sel' = sel ++ new /\ sublist new nodes /\ (length sel' <= count)%nat /\
    NoDup (map re_pa new) /\ (forall e, e ∈ new -> re_pa e ∉ q) /\
    q' = list_to_set (map re_pa new) ∪ q /\
    ((length sel' < count)%nat -> forall e, e ∈ nodes -> re_pa e ∈ q').
Proof.
  revert q sel. induction nodes as [|n nodes IH]; intros q sel E Hle; cbn [select_loop] in E.
  { injection E as <- <-. exists []. rewrite app_nil_r. split; [done|]. split; [constructor|].
    split; [done|]. split; [constructor|]. split; [by intros e ?%not_elem_of_nil|].
    split; [set_solver|]. by intros _ e ?%not_elem_of_nil. }
  destruct (count <=? length sel)%nat eqn:Ec; b2p.
  { injection E as <- <-. exists []. rewrite app_nil_r. split; [done|]. split; [apply sublist_nil_l|].
    split; [done|]. split; [constructor|]. split; [by intros e ?%not_elem_of_nil|].
    split; [set_solver|]. lia. }
  destruct (bool_decide (re_pa n ∈ q)) eqn:Eq; b2p.
  - destruct (IH q sel E Hle) as (new & -> & Hsub & Hlen & Hnd & Hnq & -> & Hall).
    exists new. split; [done|]. split; [by apply sublist_cons|]. split; [done|]. split; [done|].
    split; [done|]. split; [done|]. intros Hlt e. rewrite elem_of_cons. intros [->|He]; [set_solver|by apply Hall].
  - apply IH in E; [|rewrite length_app; simpl; lia].
    destruct E as (new & -> & Hsub & Hlen & Hnd & Hnq & -> & Hall).
    exists (n :: new). rewrite <- app_assoc in *. split; [done|]. split; [by apply sublist_skip|].
    split; [done|]. split.
    { cbn [map]. apply NoDup_cons. split; [|done]. intros (e & E & He)%list_elem_of_fmap.
      apply (Hnq e He). set_solver. }
    split. { intros e. rewrite elem_of_cons. intros [->|He]; [done|]. specialize (Hnq e He). set_solver. }
    split; [cbn [map list_to_set]; set_solver|].
    intros Hlt e. rewrite elem_of_cons. intros [->|He]; [set_solver|by apply Hall].
Qed.

(** One call picks new addresses only, in candidate order, as many as asked for
    unless the candidates run out. *)
Lemma select_next_spec count k sel k' :
  select_next_candidates count k = (sel, k') ->
  sublist sel (candidates k) /\ (length sel <= count)%nat /\
  NoDup (map re_pa sel) /\ (forall e, e ∈ sel -> re_pa e ∉ queried k) /\
  queried k' = list_to_set (map re_pa sel) ∪ queried k /\
  candidates k' = candidates k /\
  ((length sel < count)%nat -> all_candidates_queried k' = true).
Proof.
  unfold select_next_candidates. destruct (select_loop _ _ _ _) as [s q] eqn:E.
  intros [= <- <-]. apply select_loop_spec in E; [|simpl; lia].
  destruct E as (new & -> & Hsub & Hlen & Hnd & Hnq & -> & Hall). cbn [app] in *.
  split; [done|]. split; [done|]. split; [done|]. split; [done|]. split; [done|]. split; [done|].
  intros Hlt. unfold all_candidates_queried. cbn [candidates queried]. apply forallb_forall.
  intros e He%list_elem_of_In. apply bool_decide_eq_true. by apply Hall.
Qed.

(** ** Merging *)

Section merge.
Context `{DistanceSort} `{!DistanceSortOk}.

Lemma merge_candidates nodes self k :
  candidates (merge_nodes nodes self k)
  = take RoutingTable.K (sort_by_distance (target k)
      (candidates k ++ filter (fun n => re_id n <> self) nodes)).
Proof.
  unfold merge_nodes. cbn [candidates]. destruct (_ <? _)%nat eqn:E; b2p; [done|]. by rewrite take_ge.
Qed.

Lemma Sorted_take {A} (R : A -> A -> Prop) n l : Sorted R l -> Sorted R (take n l).
Proof.
  intros Hs. revert n. induction Hs as [|x l Hs IH Hd]; intros [|n]; simpl; try constructor; auto.
  destruct Hd; destruct n; simpl; constructor; done.
Qed.

(** C15: merging keeps the [K] candidates closest to the target among the old
    candidates and the new nodes other than this node: at most [K] of them, sorted by
    distance, and nothing dropped is closer than something kept. *)
Theorem merge_nodes_keeps_closest nodes self k :
  let pool := candidates k ++ filter (fun n => re_id n <> self) nodes in
  let kept := candidates (merge_nodes nodes self k) in
  length kept = Nat.min RoutingTable.K (length pool) /\
  Sorted (closer (target k)) kept /\
  exists dropped, pool ≡ₚ kept ++ dropped /\
    forall x y, x ∈ kept -> y ∈ dropped -> closer (target k) x y.
Proof.
  intros pool kept. unfold kept. rewrite merge_candidates. fold pool.
  pose proof (sort_perm (target k) pool) as Hp. pose proof (sort_sorted (target k) pool) as Hs.
  split; [by rewrite length_take, Hp|]. split; [by apply Sorted_take|].
  exists (drop RoutingTable.K (sort_by_distance (target k) pool)).
  split; [by rewrite take_drop, Hp|]. intros x y Hx Hy.
  apply Sorted_StronglySorted in Hs; [|apply _].
  rewrite <- (take_drop RoutingTable.K (sort_by_distance (target k) pool)) in Hs.
  by eapply StronglySorted_app_ord.
Qed.
End merge.

(** ** A whole lookup *)

(** What the manager does with a lookup over its life. *)
Inductive lookup_op :=
  | LMerge (nodes : list RoutingEntry)
  | LSelect (count : nat)
  | LSent (txn : bytes)
  | LDone (txn : bytes).

Definition lookup_step `{DistanceSort} (self : NodeId) (st : KademliaLookup * list RoutingEntry)
    (o : lookup_op) : KademliaLookup * list RoutingEntry :=
  match o with
  | LMerge nodes => (merge_nodes nodes self (fst st), snd st)
  | LSelect count =>
      let '(sel, k') := select_next_candidates count (fst st) in (k', snd st ++ sel)
  | LSent txn => (add_pending_txn txn (fst st), snd st)
  | LDone txn => (remove_pending_txn txn (fst st), snd st)
  end.

(** Every address queried so far was queried once and is in the set. *)
Definition asked_ok (st : KademliaLookup * list RoutingEntry) : Prop :=
  NoDup (map re_pa (snd st)) /\ queried (fst st) = list_to_set (map re_pa (snd st)).

Lemma lookup_step_ok `{DistanceSort} self st o : asked_ok st -> asked_ok (lookup_step self st o).
Proof.
  destruct st as [k asked]. intros [Hnd Hq]. destruct o as [nodes|count|txn|txn]; cbn [lookup_step fst snd] in *;
    [done| |done|done].
  destruct (select_next_candidates count k) as [sel k'] eqn:E.
  apply select_next_spec in E as (_ & _ & Hsel & Hnew & Hq' & _ & _).
  split; cbn [fst snd]; rewrite map_app.
  - apply NoDup_app. split; [done|]. split; [|done].
    intros a Ha (e & -> & He)%list_elem_of_fmap. apply (Hnew e He). rewrite Hq.
    by apply elem_of_list_to_set.
  - rewrite Hq', Hq, list_to_set_app_L. set_solver.
Qed.

(** C16: over the whole life of a lookup, whatever nodes are merged and however many
    candidates are asked for, no address is ever queried twice, and a call that finds
    fewer candidates than asked for leaves every candidate queried, which is when the
    manager ends the lookup. *)
Theorem lookup_queries_once `{DistanceSort} self now h seed ops count :
  let st := fold_left (lookup_step self) ops (lookup_new now h seed, []) in
  NoDup (map re_pa (snd st)) /\
  queried (fst st) = list_to_set (map re_pa (snd st)) /\
  let '(sel, k') := select_next_candidates count (fst st) in
  (length sel <= count)%nat /\
  (forall e, e ∈ sel -> e ∈ candidates (fst st) /\ re_pa e ∉ map re_pa (snd st)) /\
  ((length sel < count)%nat -> all_candidates_queried k' = true).
Proof.
  intros st. assert (asked_ok st) as [Hnd Hq].
  { unfold st. assert (asked_ok (lookup_new now h seed, [])) as Hok by (split; [constructor|done]).
    revert Hok. generalize (lookup_new now h seed, @nil RoutingEntry).
    induction ops as [|o ops IH]; intros s Hok; [done|]. by apply IH, lookup_step_ok. }
  split; [done|]. split; [done|].
  destruct (select_next_candidates count (fst st)) as [sel k'] eqn:E.
  apply select_next_spec in E as (Hsub & Hlen & _ & Hnew & _ & _ & Hall).
  split; [done|]. split; [|done]. intros e He. split; [by eapply elem_of_sublist|].
  specialize (Hnew e He). rewrite Hq, elem_of_list_to_set in Hnew. done.
Qed.

Lemma merge_nodes_keeps_closest_witness :
  @DistanceSortOk merge_distance_sort /\
  let k := lookup_new 0 (mkInfoHash (replicate 20 0)) [sample_entry 9 0] in
  Sorted (closer (target k))
    (candidates (@merge_nodes merge_distance_sort [sample_entry 3 0; sample_entry 1 0] (sample_id 1) k)) /\
  map re_id (candidates (@merge_nodes merge_distance_sort [sample_entry 3 0; sample_entry 1 0] (sample_id 1) k))
  = [sample_id 3; sample_id 9].
Proof.
  split; [exact merge_distance_sort_ok|]. split; [|vm_compute; reflexivity].
  apply (@merge_nodes_keeps_closest merge_distance_sort merge_distance_sort_ok
           [sample_entry 3 0; sample_entry 1 0] (sample_id 1)).
Defined.
