(* ===== verification/TokenRotator.v ===== *)
(** * Announce tokens (inc/dht/token_secret_rotator.h, src/dht/token_secret_rotator.cpp)

    The rotating secrets behind the tokens of [get_peers] replies.  The clock is the
    argument [now], a draw of [RAND_bytes] the argument [draw] ([None]: the call
    failed), [inet_pton] and SHA-1 are parameters. *)

From S2P Require Import Prelude CxxLib Hash Addr RoutingTable.

(** [inet_pton] for the two address families. *)
Class InetPton := {
  pton4 : bytes -> option bytes;
  pton6 : bytes -> option bytes;
}.

Definition ip_address_bytes `{InetPton} (ip : bytes) : bytes :=
  match pton4 ip with
  | Some v4 => v4
  | None => match pton6 ip with Some v6 => v6 | None => [] end
  end.

Definition DEFAULT_ROTATION_INTERVAL : Z := minutes 5.
Definition PREV_SECRET_TTL : Z := minutes 10.

Record TokenSecretRotator := mkRotator {
  rotation_interval : Z;
  current_secret : bytes;
  prev_secret : bytes;
  last_rotation : Z;
  prev_secret_expires : Z;
}.

(** [random_secret] *)
Definition random_secret (draw : option bytes) : result bytes :=
  match draw with
  | Some s => Ok s
  | None => Throw (RuntimeError "RAND_bytes failed")
  end.

(** The constructor. *)
Definition rotator_new (now interval : Z) (draw : option bytes) : result TokenSecretRotator :=
  s ← random_secret draw; Ok (mkRotator interval s [] now 0).

Definition compute_token `{Sha1, InetPton} (secret ip : bytes) : bytes :=
  sha1 (secret ++ ip_address_bytes ip).

(** [rotate_if_needed]: the new state, and whether an exception left the call
    after the state had changed. *)
Definition rotate_if_needed (now : Z) (draw : option bytes) (r : TokenSecretRotator)
    : TokenSecretRotator * result unit :=
  if now - last_rotation r <? rotation_interval r then (r, Ok ()) else
  let r1 := mkRotator (rotation_interval r) (current_secret r) (current_secret r)
              (last_rotation r) (now + PREV_SECRET_TTL) in
  match random_secret draw with
  | Throw e => (r1, Throw e)
  | Ok s => (mkRotator (rotation_interval r) s (current_secret r) now (now + PREV_SECRET_TTL), Ok ())
  end.

Definition issue_token `{Sha1, InetPton} (r : TokenSecretRotator) (ip : bytes) : bytes :=
  compute_token (current_secret r) ip.

Definition verify_token `{Sha1, InetPton} (now : Z) (r : TokenSecretRotator) (token ip : bytes) : bool :=
  if bool_decide (token = compute_token (current_secret r) ip) then true
  else if negb (length (prev_secret r) =? 0)%nat && (now <? prev_secret_expires r) &&
          bool_decide (token = compute_token (prev_secret r) ip) then true
  else false.

(** ** The life of a token *)

(** Calls of [rotate_if_needed], each with its time and its draw. *)
Definition rotations (r : TokenSecretRotator) (calls : list (Z * option bytes)) : TokenSecretRotator :=
  fold_left (fun r c => fst (rotate_if_needed (fst c) (snd c) r)) calls r.

(** [s] is still accepted until [t_end]: it is the current secret, last rotated
    before the issue time or later, or the previous one, not yet expired, and the
    current one is too young to be rotated before [t_end]. *)
Definition usable (s : bytes) (issued t_end : Z) (r : TokenSecretRotator) : Prop :=
  current_secret r = s \/
  (prev_secret r = s /\ t_end <= prev_secret_expires r /\
   t_end <= last_rotation r + rotation_interval r /\ issued <= last_rotation r).

Lemma rotate_interval now draw r : rotation_interval (fst (rotate_if_needed now draw r)) = rotation_interval r.
Proof. unfold rotate_if_needed. case_if; [done|]. by destruct draw. Qed.

Lemma rotate_usable s issued t_end now draw r :
  usable s issued t_end r -> issued <= now -> now < t_end ->
  t_end <= issued + Z.min (rotation_interval r) PREV_SECRET_TTL ->
  usable s issued t_end (fst (rotate_if_needed now draw r)).
Proof.
  intros Hu Hi Hlt Hend. unfold rotate_if_needed.
  destruct (now - last_rotation r <? rotation_interval r) eqn:E; [done|]. b2p.
  destruct Hu as [Hc|(Hp & He & Hl & His)].
  - destruct draw as [s'|]; cbn [random_secret fst]; [right|left; done].
    cbn. split; [done|]. lia.
  - lia.
Qed.

Lemma rotations_usable s issued t_end calls r :
  usable s issued t_end r -> Forall (fun c => issued <= fst c < t_end) calls ->
  t_end <= issued + Z.min (rotation_interval r) PREV_SECRET_TTL ->
  usable s issued t_end (rotations r calls).
Proof.
  unfold rotations. revert r. induction calls as [|c calls IH]; intros r Hu Hc Hend; [done|].
  inversion Hc as [|? ? Hc1 Hc2]; subst. cbn [fold_left]. apply IH; [|done|by rewrite rotate_interval].
  apply rotate_usable; [done|lia..].
Qed.

(** A usable secret's token is accepted. *)
Lemma usable_verify `{Sha1, InetPton} s issued now r ip :
  s <> [] -> usable s issued (now + 1) r -> verify_token now r (compute_token s ip) ip = true.
Proof.
  intros Hne Hu. unfold verify_token. destruct Hu as [->|(-> & He & _ & _)].
  - by rewrite bool_decide_true.
  - case_if; [done|]. rewrite (bool_decide_true (compute_token _ _ = _)) by done.
    destruct s eqn:E; [done|]. cbn [length Nat.eqb negb andb].
    by rewrite (proj2 (Z.ltb_lt _ _)) by lia.
Qed.

(** C17: a token is accepted from the address it was issued to for the shorter of the
    rotation interval and the previous secret's ten minutes after it was issued, whatever
    rotation calls happen in between, also when a draw fails. *)
Theorem token_accepted `{Sha1, InetPton} (r : TokenSecretRotator) issued calls now ip :
  current_secret r <> [] ->
  Forall (fun c => issued <= fst c <= now) calls ->
  issued <= now < issued + Z.min (rotation_interval r) PREV_SECRET_TTL ->
  verify_token now (rotations r calls) (issue_token r ip) ip = true.
Proof.
  intros Hne Hcalls Hnow.
  apply (usable_verify _ issued); [done|].
  apply rotations_usable; [by left| |lia]. eapply Forall_impl; [exact Hcalls|]. simpl. lia.
Qed.

Definition sample_pton : InetPton := {| pton4 := fun s => Some (take 4 s); pton6 := fun _ => None |}.

Lemma token_accepted_witness :
  let r := mkRotator DEFAULT_ROTATION_INTERVAL (str "secret-one") [] 0 0 in
  current_secret r <> [] /\
  @verify_token sample_sha1 sample_pton (minutes 4)
    (rotations (mkRotator DEFAULT_ROTATION_INTERVAL (str "secret-one") [] (minutes (-4)) 0)
       [(minutes 2, Some (str "secret-two"))])
    (@issue_token sample_sha1 sample_pton
       (mkRotator DEFAULT_ROTATION_INTERVAL (str "secret-one") [] (minutes (-4)) 0) (str "abcd")) (str "abcd") = true.
Proof.
  split; [discriminate|].
  apply (@token_accepted sample_sha1 sample_pton
    (mkRotator DEFAULT_ROTATION_INTERVAL (str "secret-one") [] (minutes (-4)) 0) 0
    [(minutes 2, Some (str "secret-two"))] (minutes 4) (str "abcd")).
  - discriminate.
  - apply Forall_singleton. vm_compute. split; discriminate.
  - vm_compute. split; [discriminate|reflexivity].
Defined.

(** The ten minutes the previous secret is said to stay valid are cut short by
    the next rotation: once two rotations happened, a token of the older secret is
    refused at every time, even before [PREV_SECRET_TTL] has passed since the secret
    was replaced (unless the newer secrets happen to give the same token). *)
Theorem token_refused_after_two_rotations `{Sha1, InetPton} (r : TokenSecretRotator) t1 s1 t2 s2 now ip :
  rotation_interval r <= t1 - last_rotation r ->
  rotation_interval r <= t2 - t1 ->
  compute_token (current_secret r) ip <> compute_token s1 ip ->
  compute_token (current_secret r) ip <> compute_token s2 ip ->
  verify_token now (rotations r [(t1, Some s1); (t2, Some s2)]) (issue_token r ip) ip = false.
Proof.
  intros H1 H2 N1 N2. unfold rotations. cbn [fold_left fst snd]. unfold rotate_if_needed at 2.
  rewrite (proj2 (Z.ltb_ge _ _)) by lia. cbn [random_secret fst].
  unfold rotate_if_needed. cbn [last_rotation rotation_interval].
  rewrite (proj2 (Z.ltb_ge _ _)) by lia. cbn [random_secret fst current_secret].
  unfold verify_token, issue_token. cbn [current_secret prev_secret prev_secret_expires].
  rewrite !bool_decide_false by done. by rewrite andb_false_r.
Qed.

(** With the default interval the refusal comes five minutes after the first
    rotation, half of [PREV_SECRET_TTL]. *)
Lemma token_refused_after_two_rotations_witness :
  minutes 10 + minutes 1 < minutes 5 + PREV_SECRET_TTL /\
  let r := mkRotator DEFAULT_ROTATION_INTERVAL (str "secret-one") [] 0 0 in
  @verify_token sample_sha1 sample_pton (minutes 10 + minutes 1)
    (rotations r [(minutes 5, Some (str "secret-two")); (minutes 10, Some (str "secret-three"))])
    (@issue_token sample_sha1 sample_pton r (str "abcd")) (str "abcd") = false.
Proof.
  split; [vm_compute; reflexivity|].
  apply (@token_refused_after_two_rotations sample_sha1 sample_pton).
  - vm_compute. discriminate.
  - vm_compute. discriminate.
  - vm_compute. discriminate.
  - vm_compute. discriminate.
Defined.
