(* ===== verification/DhtPeerStore.v ===== *)
(** * The store of announced peers (inc/dht/dht_peer_store.h, src/dht/dht_peer_store.cpp)

    Two levels of [LruCache]: info hashes to buckets, and in a bucket peer addresses
    to the time they were last seen.  A pointer into a bucket is a key whose value
    [lru_set] writes.  [now] is the steady clock. *)

From S2P Require Import Prelude CxxLib Hash Addr RoutingTable LruCache.

Definition PEER_ENTRY_TTL : Z := minutes 30.
Definition MAX_PEERS_PER_HASH : nat := 50.
Definition MAX_INFO_HASHES : nat := Z.to_nat 10000.

Abbreviation HashBucket := (LruCache PeerAddress Z).
Abbreviation PeerStore := (LruCache InfoHash HashBucket).

Definition bucket_new : HashBucket := lru_new MAX_PEERS_PER_HASH.
Definition store_new : PeerStore := lru_new MAX_INFO_HASHES.

(** [peers.empty() || now - peers.begin()->second >= PEER_ENTRY_TTL] *)
Definition bucket_is_dead (now : Z) (b : HashBucket) : bool :=
  match items b with
  | [] => true
  | (_, (_, seen)) :: _ => PEER_ENTRY_TTL <=? now - seen
  end.

Definition expire_stale (now : Z) (st : PeerStore) : PeerStore :=
  erase_if (fun _ b => bucket_is_dead now b) st.

Definition ensure_bucket (h : InfoHash) (st : PeerStore) : PeerStore :=
  let '(r, st) := lru_get h st in
  match r with
  | Some _ => st
  | None => lru_put h bucket_new st
  end.

Definition upsert (now : Z) (h : InfoHash) (pa : PeerAddress) (st : PeerStore) : PeerStore :=
  let '(r, st) := lru_get h st in
  let '(bucket, st) :=
    match r with
    | Some b => (b, st)
    | None => (bucket_new, lru_put h bucket_new st)
    end in
  lru_set h (lru_put pa now bucket) st.

Definition live_peers (now : Z) (h : InfoHash) (st : PeerStore) : list PeerAddress * PeerStore :=
  let '(r, st) := lru_get h st in
  match r with
  | None => ([], st)
  | Some b => (map fst (filter (fun x => now - snd x < PEER_ENTRY_TTL) (view b)), st)
  end.

(** ** Invariant *)

(** In a bucket, most recently seen first and nothing from the future. *)
Record bucket_ok (now : Z) (b : HashBucket) : Prop := {
  bok_lru : lru_ok b;
  bok_cap : capacity b = MAX_PEERS_PER_HASH;
  bok_order : StronglySorted (fun x y => snd y <= snd x) (view b);
  bok_past : Forall (fun x => snd x <= now) (view b);
}.

Record store_ok (now : Z) (st : PeerStore) : Prop := {
  sok_lru : lru_ok st;
  sok_cap : capacity st = MAX_INFO_HASHES;
  sok_buckets : Forall (fun x => bucket_ok now (snd x)) (view st);
}.

Lemma bucket_ok_later now now' b : now <= now' -> bucket_ok now b -> bucket_ok now' b.
Proof.
  intros Hle []. constructor; try done. eapply Forall_impl; [eassumption|]. simpl. lia.
Qed.

Lemma store_ok_later now now' st : now <= now' -> store_ok now st -> store_ok now' st.
Proof.
  intros Hle []. constructor; try done. eapply Forall_impl; [eassumption|].
  intros x. by apply bucket_ok_later.
Qed.

Lemma bucket_new_ok now : bucket_ok now bucket_new.
Proof. constructor; [apply lru_new_ok; unfold MAX_PEERS_PER_HASH; lia|done|constructor..]. Qed.

Lemma store_new_ok now : store_ok now store_new.
Proof. constructor; [apply lru_new_ok; unfold MAX_INFO_HASHES; lia|done|constructor]. Qed.

Lemma Forall_assoc_del {K V} `{Countable K} (P : K * V -> Prop) k l :
  Forall P l -> Forall P (assoc_del k l).
Proof.
  intros HF. apply Forall_forall. intros x [_ Hx]%list_elem_of_filter. by eapply Forall_forall in HF.
Qed.

Lemma Sorted_assoc_del {K V} `{Countable K} (R : K * V -> K * V -> Prop) k l :
  StronglySorted R l -> StronglySorted R (assoc_del k l).
Proof.
  unfold assoc_del. induction 1 as [|x l Hl IH Hx]; [constructor|].
  destruct (decide (fst x <> k)).
  - rewrite filter_cons_True by done. constructor; [done|]. by apply (Forall_assoc_del _ k).
  - by rewrite filter_cons_False.
Qed.

(** Seeing a peer puts it in front with the current time. *)
Lemma bucket_put_ok now pa b : bucket_ok now b -> bucket_ok now (lru_put pa now b).
Proof.
  intros [Hl Hc Hs Hp]. destruct (lru_put_refines b pa now Hl) as (Hl' & Hv & Hc').
  assert (exists rest, view (lru_put pa now b) = (pa, now) :: rest /\
    StronglySorted (fun x y => snd y <= snd x) rest /\ Forall (fun x => snd x <= now) rest)
    as (rest & E & Hs' & Hp').
  { rewrite Hv. unfold spec_put. destruct (assoc pa (view b)).
    - eexists. split; [done|]. split; [by apply Sorted_assoc_del|by apply Forall_assoc_del].
    - case_if; (eexists; split; [done|]; split; [|]); auto using StronglySorted_take, Forall_take. }
  constructor; [done|congruence|..]; rewrite E.
  - by constructor.
  - constructor; [simpl; lia|done].
Qed.

Section views.
Context {K V : Type} `{Countable K}.

Lemma spec_set_head k v v' (l : list (K * V)) :
  k ∉ map fst l -> spec_set k v' ((k, v) :: l) = (k, v') :: l.
Proof.
  intros Hk. unfold spec_set. cbn [map fst]. rewrite decide_True by done. f_equal.
  rewrite <- (map_id l) at 2. apply map_ext_in. intros [k' w] Hin%list_elem_of_In. cbn [fst].
  rewrite decide_False; [done|]. intros ->. apply Hk. by apply (list_elem_of_fmap_2 fst) in Hin.
Qed.

Lemma assoc_del_notin k (l : list (K * V)) : k ∉ map fst (assoc_del k l).
Proof. intros (x & E & [Hx _]%list_elem_of_filter)%list_elem_of_fmap. congruence. Qed.
End views.

(** [lru_set] never changes the capacity. *)
Lemma lru_set_capacity {K V} `{Countable K} (k : K) (v : V) c : capacity (lru_set k v c) = capacity c.
Proof. unfold lru_set. by destruct (index c !! k). Qed.

(** [upsert] in one step on the abstract view: the bucket of the hash, with the peer
    put in it, is first; other buckets are unchanged, or one of them is evicted. *)
Lemma upsert_view now h pa st :
  store_ok now st ->
  exists rest, store_ok now (upsert now h pa st) /\
    view (upsert now h pa st) = (h, lru_put pa now (default bucket_new (assoc h (view st)))) :: rest /\
    sublist rest (assoc_del h (view st)).
Proof.
  intros [Hl Hc Hb]. unfold upsert. destruct (lru_get_refines st h Hl) as [Hl1 Hv1].
  pose proof (lru_get_capacity h st) as Hc1.
  destruct (lru_get h st) as [r st1]. cbn [fst snd] in *. unfold spec_get in Hv1.
  assert (exists b rest st2, (match r with Some b => (b, st1) | None => (bucket_new, lru_put h bucket_new st1) end)
            = (b, st2) /\ lru_ok st2 /\ capacity st2 = MAX_INFO_HASHES /\ b = default bucket_new (assoc h (view st)) /\
            view st2 = (h, b) :: rest /\ sublist rest (assoc_del h (view st)) /\ bucket_ok now b)
    as (b & rest & st2 & -> & Hl2 & Hc2 & -> & Hv2 & Hsub & Hbok).
  { destruct (assoc h (view st)) as [b|] eqn:Ea.
    - injection Hv1 as -> Hv1. eexists _, _, _. split; [done|]. split; [done|]. split; [congruence|].
      split; [done|]. split; [exact Hv1|]. split; [done|].
      apply assoc_Some_in in Ea. by eapply (Forall_forall _ _) in Ea; [|exact Hb].
    - injection Hv1 as -> Hv1. destruct (lru_put_refines st1 h bucket_new Hl1) as (Hl2 & Hv2 & Hc2).
      rewrite Hv1 in Hv2. unfold spec_put in Hv2. rewrite Ea in Hv2.
      eexists _, _, _. split; [done|]. split; [done|]. split; [congruence|]. split; [done|].
      split; [exact Hv2|]. split; [|apply bucket_new_ok].
      assert (assoc_del h (view st) = view st) as ->.
      { unfold assoc_del. apply filter_id. apply Forall_forall. intros x Hx E.
        apply assoc_None in Ea. apply Ea. rewrite <- E. by apply (list_elem_of_fmap_2 fst). }
      case_if; [apply sublist_take|done]. }
  cbv iota beta. set (b := default bucket_new (assoc h (view st))) in *.
  destruct (lru_set_refines st2 h (lru_put pa now b) Hl2) as [Hl3 Hv3].
  pose proof (ok_keys _ Hl2) as Hnd. rewrite Hv2 in Hnd, Hv3. cbn [map fst] in Hnd.
  apply NoDup_cons in Hnd as [Hnot _]. rewrite spec_set_head in Hv3 by done.
  exists rest. split; [|done]. constructor; [done|by rewrite lru_set_capacity|]. rewrite Hv3.
  constructor; [by apply bucket_put_ok|]. apply Forall_forall. intros x Hx.
  pose proof (Forall_assoc_del _ h _ Hb) as Hb'. rewrite Forall_forall in Hb'.
  apply Hb'. by eapply elem_of_sublist.
Qed.

Lemma ensure_bucket_ok now h st : store_ok now st -> store_ok now (ensure_bucket h st).
Proof.
  intros [Hl Hc Hb]. unfold ensure_bucket. destruct (lru_get_refines st h Hl) as [Hl1 Hv1].
  pose proof (lru_get_capacity h st) as Hc1.
  destruct (lru_get h st) as [r st1]. cbn [fst snd] in *. unfold spec_get in Hv1.
  destruct (assoc h (view st)) as [b|] eqn:Ea; injection Hv1 as -> Hv1.
  - constructor; [done|congruence|]. rewrite Hv1. constructor; [|by apply Forall_assoc_del].
    apply assoc_Some_in in Ea. by eapply (Forall_forall _ _) in Ea; [|exact Hb].
  - destruct (lru_put_refines st1 h bucket_new Hl1) as (Hl2 & Hv2 & Hc2).
    constructor; [done|congruence|]. rewrite Hv2, Hv1. unfold spec_put. rewrite Ea.
    constructor; [apply bucket_new_ok|]. case_if; [by apply Forall_take|done].
Qed.

Lemma live_peers_ok now now' h st : store_ok now st -> store_ok now (snd (live_peers now' h st)).
Proof.
  intros [Hl Hc Hb]. unfold live_peers. destruct (lru_get_refines st h Hl) as [Hl1 Hv1].
  pose proof (lru_get_capacity h st) as Hc1.
  destruct (lru_get h st) as [r st1]. cbn [fst snd] in *. unfold spec_get in Hv1.
  destruct (assoc h (view st)) as [b|] eqn:Ea; injection Hv1 as -> Hv1; cbn [snd].
  - constructor; [done|congruence|]. rewrite Hv1. constructor; [|by apply Forall_assoc_del].
    apply assoc_Some_in in Ea. by eapply (Forall_forall _ _) in Ea; [|exact Hb].
  - constructor; [done|congruence|]. by rewrite Hv1.
Qed.

(** What [live_peers] returns, on the abstract view. *)
Lemma live_peers_view now h st :
  lru_ok st ->
  fst (live_peers now h st) =
  match assoc h (view st) with
  | Some b => map fst (filter (fun x => now - snd x < PEER_ENTRY_TTL) (view b))
  | None => []
  end.
Proof.
  intros Hl. unfold live_peers. destruct (lru_get_refines st h Hl) as [_ Hv].
  destruct (lru_get h st) as [r st1]. cbn [fst snd] in Hv. unfold spec_get in Hv.
  destruct (assoc h (view st)); by injection Hv as -> _.
Qed.

Lemma view_head (b : HashBucket) :
  match items b with [] => view b = [] | (_, x) :: l => view b = x :: map snd l end.
Proof. unfold view. by destruct (items b) as [|[n x] l]. Qed.

(** The front of a bucket decides whether any peer in it is alive. *)
Lemma bucket_is_dead_spec now now' b :
  bucket_ok now b ->
  bucket_is_dead now' b = false <->
  filter (fun x => now' - snd x < PEER_ENTRY_TTL) (view b) <> [].
Proof.
  intros [_ _ Hs _]. unfold bucket_is_dead. pose proof (view_head b) as Hh.
  destruct (items b) as [|[n [pa seen]] l]; [rewrite Hh; done|]. rewrite Hh in *.
  inversion Hs as [|? ? Hs' Hall]; subst. rewrite Z.leb_gt. split.
  - intros Hlt. rewrite filter_cons_True by done. discriminate.
  - intros Hne. destruct (Z.lt_ge_cases (now' - seen) PEER_ENTRY_TTL) as [?|Hge]; [done|].
    exfalso. apply Hne. rewrite filter_cons_False by (simpl; lia).
    clear -Hall Hge. induction Hall as [|x l' Hx Hl IH]; [done|].
    rewrite filter_cons_False; [done|]. simpl in *. lia.
Qed.

Definition live_of (now : Z) (b : option HashBucket) : list PeerAddress :=
  match b with
  | Some b => map fst (filter (fun x => now - snd x < PEER_ENTRY_TTL) (view b))
  | None => []
  end.

(** Dropping the dead buckets keeps the live peers of every hash. *)
Lemma live_of_erase now later h (l : list (InfoHash * HashBucket)) :
  Forall (fun x => bucket_ok now (snd x)) l -> NoDup (map fst l) ->
  live_of later (assoc h (filter (fun x => bucket_is_dead later (snd x) = false) l))
  = live_of later (assoc h l).
Proof.
  induction 1 as [|[k b] l Hb Hl IH]; intros Hnd; [done|]. cbn [map fst snd] in *.
  apply NoDup_cons in Hnd as [Hk Hnd]. destruct (bucket_is_dead later b) eqn:Ed.
  - rewrite filter_cons_False by (simpl; congruence). cbn [assoc].
    destruct (decide (k = h)) as [->|Hne]; [|by apply IH]. rewrite IH by done.
    apply assoc_None in Hk. rewrite Hk. cbn [live_of].
    destruct (filter _ (view b)) eqn:Ef; [done|]. exfalso.
    assert (bucket_is_dead later b = false); [|congruence].
    apply (bucket_is_dead_spec now later b Hb). rewrite Ef. discriminate.
  - rewrite filter_cons_True by done. cbn [assoc]. case_decide; [done|by apply IH].
Qed.

Lemma expire_stale_ok now now' st : store_ok now st -> store_ok now (expire_stale now' st).
Proof.
  intros [Hl Hc Hb]. destruct (erase_if_refines (fun _ b => bucket_is_dead now' b) st Hl) as [Hl' Hv].
  constructor; [done|done|]. unfold expire_stale. rewrite Hv. apply Forall_forall.
  intros x [_ Hx]%list_elem_of_filter. rewrite Forall_forall in Hb. by apply Hb.
Qed.

(** A recorded peer comes first among the live peers until it times out. *)
Lemma upsert_live now later h pa st :
  store_ok now st -> now <= later < now + PEER_ENTRY_TTL ->
  head (fst (live_peers later h (upsert now h pa st))) = Some pa.
Proof.
  intros Hok Hlater. destruct (upsert_view now h pa st Hok) as (rest & Hok' & Hv & _).
  rewrite live_peers_view by apply Hok'. rewrite Hv, assoc_head.
  set (b := default bucket_new (assoc h (view st))).
  assert (bucket_ok now b) as Hb.
  { unfold b. destruct (assoc h (view st)) as [b'|] eqn:Ea; [|apply bucket_new_ok].
    apply assoc_Some_in in Ea. by eapply (Forall_forall _ _) in Ea; [|apply (sok_buckets _ _ Hok)]. }
  destruct (lru_put_refines b pa now (bok_lru _ _ Hb)) as (_ & Hvb & _). rewrite Hvb.
  unfold spec_put. destruct (assoc pa (view b)); rewrite filter_cons_True by (simpl; lia); done.
Qed.

(** Expiry is invisible to [live_peers]. *)
Lemma expire_stale_live now later h st :
  store_ok now st -> fst (live_peers later h (expire_stale later st)) = fst (live_peers later h st).
Proof.
  intros Hok. rewrite !live_peers_view by (apply (expire_stale_ok now later st Hok) || apply Hok).
  unfold expire_stale. rewrite view_erase_if. fold (live_of later (assoc h (view st))).
  apply (live_of_erase now); [apply (sok_buckets _ _ Hok)|apply (ok_keys _ (sok_lru _ _ Hok))].
Qed.

Lemma upsert_ok now h pa st : store_ok now st -> store_ok now (upsert now h pa st).
Proof. intros Hok. by destruct (upsert_view now h pa st Hok) as (rest & ? & _). Qed.

Lemma store_ok_size now st : store_ok now st -> (lru_size st <= MAX_INFO_HASHES)%nat.
Proof.
  intros Hok. rewrite index_size by apply Hok. rewrite <- (sok_cap _ _ Hok). apply (ok_size _ (sok_lru _ _ Hok)).
Qed.

Lemma store_ok_buckets now st :
  store_ok now st -> Forall (fun x => lru_size (snd x) <= MAX_PEERS_PER_HASH)%nat (view st).
Proof.
  intros Hok. eapply Forall_impl; [apply (sok_buckets _ _ Hok)|]. intros x Hx. simpl.
  rewrite index_size by apply Hx. rewrite <- (bok_cap _ _ Hx). apply (ok_size _ (bok_lru _ _ Hx)).
Qed.

(** ** Histories *)

Inductive store_op :=
  | SUpsert (h : InfoHash) (pa : PeerAddress)
  | SEnsure (h : InfoHash)
  | SLive (h : InfoHash)
  | SExpire.

Definition store_step (st : PeerStore) (c : Z * store_op) : PeerStore :=
  match snd c with
  | SUpsert h pa => upsert (fst c) h pa st
  | SEnsure h => ensure_bucket h st
  | SLive h => snd (live_peers (fst c) h st)
  | SExpire => expire_stale (fst c) st
  end.

Lemma store_step_ok t st c : store_ok t st -> t <= fst c -> store_ok (fst c) (store_step st c).
Proof.
  intros Hok Hle. apply (store_ok_later _ _ _ Hle) in Hok. destruct c as [now o]. unfold store_step.
  cbn [fst snd] in *. destruct o.
  - by apply upsert_ok.
  - by apply ensure_bucket_ok.
  - by apply live_peers_ok.
  - by apply expire_stale_ok.
Qed.

Lemma store_run_ok t st cs :
  store_ok t st -> clocked t cs -> store_ok (end_time t cs) (fold_left store_step cs st).
Proof.
  revert t st. induction cs as [|c cs IH]; intros t st Hok Hc; [done|]. destruct Hc as [Hle Hc].
  cbn [fold_left end_time]. apply IH; [|done]. by eapply store_step_ok.
Qed.

(** ** How long a recorded peer is kept *)

(** The other hashes a call looks up, and the other peers it records under [h]: what may
    push a hash or a peer out. *)
Definition other_hashes (h : InfoHash) (o : store_op) : list InfoHash :=
  match o with
  | SUpsert h' _ | SEnsure h' | SLive h' => if decide (h' = h) then [] else [h']
  | SExpire => []
  end.

Definition other_peers (h : InfoHash) (pa : PeerAddress) (o : store_op) : list PeerAddress :=
  match o with
  | SUpsert h' p => if decide (h' = h /\ p <> pa) then [p] else []
  | _ => []
  end.

Section kept.
Context (since : Z) (h : InfoHash) (pa : PeerAddress).

(** The bucket of [h] is behind hashes of [T] only, and in it [pa], seen since then, is
    behind peers of [P] only. *)
Definition kept (T : list InfoHash) (P : list PeerAddress) (st : PeerStore) : Prop :=
  exists b seen, held_behind T h b (view st) /\ since <= seen /\ held_behind P pa seen (view b).

Lemma held_mono {K V} `{Countable K} (T T' : list K) k (v : V) l :
  T ⊆ T' -> held_behind T k v l -> held_behind T' k v l.
Proof. intros HT (l1 & l2 & -> & Hl). exists l1, l2. split; [done|]. by etrans. Qed.

Lemma held_set {K V} `{Countable K} (T : list K) k (v : V) k' v' l :
  k' <> k -> held_behind T k v l -> held_behind T k v (spec_set k' v' l).
Proof.
  intros Hne (l1 & l2 & -> & Hl). unfold spec_set. rewrite map_app. cbn [map fst]. rewrite decide_False by done.
  eexists _, _. split; [done|]. pose proof (spec_set_keys k' v' l1) as E. unfold spec_set in E. by rewrite E.
Qed.

Lemma held_filter {K V} `{Countable K} (T : list K) k (v : V) p l :
  p k v = false -> held_behind T k v l -> held_behind T k v (filter (fun x => p (fst x) (snd x) = false) l).
Proof.
  intros Hp (l1 & l2 & -> & Hl). rewrite filter_app, filter_cons_True by done. eexists _, _. split; [done|].
  intros x (y & -> & [_ Hy]%list_elem_of_filter)%list_elem_of_fmap. apply Hl. by apply (list_elem_of_fmap_2 fst).
Qed.

Lemma held_front {K V} `{Countable K} (T : list K) k (v : V) l : held_behind T k v ((k, v) :: l).
Proof. exists [], l. split; [done|]. apply list_subseteq_nil. Qed.

Abbreviation fits T cap := (size (list_to_set T : gset _) < cap)%nat.

Lemma fits_mono {K} `{Countable K} (T T' : list K) cap : T ⊆ T' -> fits T' cap -> fits T cap.
Proof.
  intros HT Hf. eapply Nat.le_lt_trans; [|exact Hf]. apply subseteq_size. intros x.
  rewrite !elem_of_list_to_set. apply HT.
Qed.

(** Recording a peer in the bucket. *)
Lemma bucket_put_kept now P seen p b :
  bucket_ok now b -> since <= now -> since <= seen -> held_behind P pa seen (view b) ->
  fits (P ++ (if decide (p <> pa) then [p] else [])) MAX_PEERS_PER_HASH ->
  exists seen', since <= seen' /\
    held_behind (P ++ (if decide (p <> pa) then [p] else [])) pa seen' (view (lru_put p now b)).
Proof.
  intros Hb Hnow Hseen Hh Hfit. destruct (lru_put_refines b p now (bok_lru _ _ Hb)) as (_ & -> & _).
  rewrite (bok_cap _ _ Hb). destruct (decide (p <> pa)) as [Hne|Hne].
  - exists seen. split; [done|].
    by apply (spec_step_retains _ P pa seen (view b) (OpPut p now) (ok_keys _ (bok_lru _ _ Hb))).
  - exists now. split; [done|]. assert (p = pa) as -> by (by destruct (decide (p = pa))).
    unfold spec_put. destruct (assoc pa (view b)); apply held_front.
Qed.

(** What a call does to another hash. *)
Lemma other_hash_kept t T b st c h' :
  store_ok t st -> h' <> h -> (exists p, snd c = SUpsert h' p) \/ snd c = SEnsure h' \/ snd c = SLive h' ->
  held_behind T h b (view st) -> fits (T ++ [h']) MAX_INFO_HASHES ->
  held_behind (T ++ [h']) h b (view (store_step st c)).
Proof.
  intros Hok Hne Hc Hh Hfit. destruct Hok as [Hl Hcap _].
  destruct (lru_get_refines st h' Hl) as [Hl1 Hv1]. pose proof (lru_get_capacity h' st) as Hc1.
  assert (held_behind (T ++ [h']) h b (view (snd (lru_get h' st)))) as Hg.
  { replace (view (snd (lru_get h' st))) with (snd (spec_get h' (view st))) by (by rewrite <- Hv1).
    apply (spec_step_retains MAX_INFO_HASHES T h b (view st) (OpGet h')); [apply (ok_keys _ Hl)|done..]. }
  assert (forall x, lru_ok (lru_put h' x (snd (lru_get h' st))) /\
      held_behind (T ++ [h']) h b (view (lru_put h' x (snd (lru_get h' st))))) as Hput.
  { intros x. destruct (lru_put_refines _ h' x Hl1) as (Hl2 & -> & _). split; [done|]. rewrite Hc1, Hcap.
    apply (held_mono ((T ++ [h']) ++ [h'])); [intros y; rewrite !elem_of_app; tauto|].
    apply (spec_step_retains MAX_INFO_HASHES _ h b _ (OpPut h' x)); [apply (ok_keys _ Hl1)|done..|].
    eapply fits_mono; [|exact Hfit]. intros y. cbn [touched]. rewrite !elem_of_app. tauto. }
  unfold store_step, upsert, ensure_bucket, live_peers.
  destruct Hc as [[p ->]|[->| ->]]; cbv beta iota; destruct (lru_get h' st) as [r st1]; cbn [snd] in *.
  - destruct r as [b'|].
    + destruct (lru_set_refines st1 h' (lru_put p (fst c) b') Hl1) as [_ ->]. by apply held_set.
    + destruct (Hput bucket_new) as [Hl2 Hh2].
      destruct (lru_set_refines _ h' (lru_put p (fst c) bucket_new) Hl2) as [_ ->]. by apply held_set.
  - destruct r; [done|]. apply Hput.
  - by destruct r.
Qed.

Lemma store_step_kept t T P st c :
  store_ok t st -> t <= fst c -> since <= fst c < since + PEER_ENTRY_TTL -> kept T P st ->
  fits (T ++ other_hashes h (snd c)) MAX_INFO_HASHES -> fits (P ++ other_peers h pa (snd c)) MAX_PEERS_PER_HASH ->
  kept (T ++ other_hashes h (snd c)) (P ++ other_peers h pa (snd c)) (store_step st c).
Proof.
  intros Hok Ht Hc (b & seen & Hh & Hs & Hp) HfT HfP.
  assert (forall h', h' <> h -> (exists p, snd c = SUpsert h' p) \/ snd c = SEnsure h' \/ snd c = SLive h' ->
    kept (T ++ other_hashes h (snd c)) (P ++ other_peers h pa (snd c)) (store_step st c)) as Hother.
  { intros h' Hne Hcase. assert (other_hashes h (snd c) = [h']) as E.
    { by destruct Hcase as [[p ->]|[->| ->]]; cbn [other_hashes]; rewrite decide_False. }
    rewrite E in *. exists b, seen. split; [by apply (other_hash_kept t)|]. split; [done|].
    apply (held_mono P); [|done]. intros x Hx. apply elem_of_app. by left. }
  assert (held_assoc' : assoc h (view st) = Some b) by (apply (held_assoc T); [apply (ok_keys _ (sok_lru _ _ Hok))|done]).
  assert (bucket_ok (fst c) b) as Hb.
  { apply assoc_Some_in in held_assoc'. apply (store_ok_later _ _ _ Ht) in Hok.
    by eapply (Forall_forall _ _) in held_assoc'; [|apply (sok_buckets _ _ Hok)]. }
  destruct (lru_get_refines st h (sok_lru _ _ Hok)) as [_ Hg]. unfold spec_get in Hg. rewrite held_assoc' in Hg.
  destruct c as [now o]. cbn [fst snd] in *. destruct o as [h' p|h'|h'|].
  - destruct (decide (h' = h)) as [->|Hne]; [|by eapply Hother; eauto].
    cbn [other_hashes other_peers] in *. rewrite decide_True in * by done.
    rewrite (decide_ext _ (p <> pa)) in HfP by tauto. rewrite (decide_ext _ (p <> pa)) by tauto.
    destruct (bucket_put_kept now P seen p b Hb ltac:(lia) Hs Hp HfP) as (seen' & Hs' & Hp').
    exists (lru_put p now b), seen'. split; [|done]. unfold store_step. cbn [fst snd].
    destruct (upsert_view now h p st) as (rest & _ & -> & _); [by eapply store_ok_later|].
    rewrite held_assoc'. apply held_front.
  - destruct (decide (h' = h)) as [->|Hne]; [|by eapply Hother; eauto].
    exists b, seen. cbn [other_hashes other_peers] in *. rewrite decide_True in * by done. rewrite !app_nil_r.
    split; [|done]. unfold store_step, ensure_bucket. cbn [snd]. destruct (lru_get h st) as [r st1].
    injection Hg as -> Hg. cbn [snd] in Hg. rewrite Hg. apply held_front.
  - destruct (decide (h' = h)) as [->|Hne]; [|by eapply Hother; eauto].
    exists b, seen. cbn [other_hashes other_peers] in *. rewrite decide_True in * by done. rewrite !app_nil_r.
    split; [|done]. unfold store_step, live_peers. cbn [fst snd]. destruct (lru_get h st) as [r st1].
    injection Hg as -> Hg. cbn [snd] in *. rewrite Hg. apply held_front.
  - exists b, seen. cbn [other_hashes other_peers] in *. rewrite !app_nil_r. split; [|done].
    unfold store_step, expire_stale. cbn [fst snd]. rewrite view_erase_if.
    apply (held_filter T h b (fun _ b => bucket_is_dead now b)); [|done].
    apply (bucket_is_dead_spec now); [done|]. destruct Hp as (l1 & l2 & -> & _).
    intros E. assert ((pa, seen) ∈ filter (fun x => now - snd x < PEER_ENTRY_TTL) (l1 ++ (pa, seen) :: l2)) as Hin.
    { apply list_elem_of_filter. split; [simpl; lia|]. apply elem_of_app. right. left. }
    rewrite E in Hin. by apply elem_of_nil in Hin.
Qed.

Lemma store_run_kept t T P st cs :
  store_ok t st -> since <= t -> clocked t cs -> end_time t cs < since + PEER_ENTRY_TTL -> kept T P st ->
  fits (T ++ concat (map (fun c => other_hashes h (snd c)) cs)) MAX_INFO_HASHES ->
  fits (P ++ concat (map (fun c => other_peers h pa (snd c)) cs)) MAX_PEERS_PER_HASH ->
  kept (T ++ concat (map (fun c => other_hashes h (snd c)) cs))
       (P ++ concat (map (fun c => other_peers h pa (snd c)) cs)) (fold_left store_step cs st).
Proof.
  revert t T P st. induction cs as [|c cs IH]; intros t T P st Hok Ht Hc Hend Hk HfT HfP.
  { cbn. by rewrite !app_nil_r. }
  destruct Hc as [Hle Hc]. rewrite end_time_cons in Hend. pose proof (clocked_end _ _ Hc) as He.
  cbn [map concat fold_left] in *. rewrite !app_assoc in *.
  apply (IH (fst c)); [by eapply store_step_ok|lia|done|done| |done..].
  apply (store_step_kept t); [done|done|lia|done| |].
  - eapply fits_mono; [|exact HfT]. intros x. rewrite !elem_of_app. tauto.
  - eapply fits_mono; [|exact HfP]. intros x. rewrite !elem_of_app. tauto.
Qed.

Lemma kept_live t T P st later :
  store_ok t st -> later < since + PEER_ENTRY_TTL -> kept T P st -> pa ∈ fst (live_peers later h st).
Proof.
  intros Hok Hlater (b & seen & Hh & Hs & (l1 & l2 & Hv & _)).
  rewrite live_peers_view by apply Hok. rewrite (held_assoc T h b) by (done || apply (ok_keys _ (sok_lru _ _ Hok))).
  apply (list_elem_of_fmap_2' fst _ (pa, seen)); [|done]. apply list_elem_of_filter. split; [simpl; lia|].
  rewrite Hv. apply elem_of_app. right. left.
Qed.
End kept.

Lemma upsert_kept now h pa st : store_ok now st -> kept now h pa [] [] (upsert now h pa st).
Proof.
  intros Hok. destruct (upsert_view now h pa st Hok) as (rest & _ & Hv & _).
  eexists _, now. rewrite Hv. split; [apply held_front|]. split; [done|].
  set (b := default bucket_new (assoc h (view st))). assert (lru_ok b) as Hb.
  { unfold b. destruct (assoc h (view st)) as [b'|] eqn:Ea; [|apply (bucket_new_ok now)].
    apply assoc_Some_in in Ea. by eapply (Forall_forall _ _) in Ea; [|apply (sok_buckets _ _ Hok)]; apply Ea. }
  destruct (lru_put_refines b pa now Hb) as (_ & -> & _). unfold spec_put. destruct (assoc pa (view b)); apply held_front.
Qed.

(** C19: in every state the store can reach there are at most 50 peers per hash and 10000
    hashes.  A recorded peer is the first live peer of its hash, and it is among them for
    thirty minutes whatever calls follow, unless the limits push it out: as long as the
    calls since then record fewer than 50 other peers under its hash and look up fewer
    than 10000 other hashes.  [expire_stale], which looks only at the front of each
    bucket, drops exactly the hashes none of whose peers is still alive: what
    [live_peers] returns for any hash is unchanged by it. *)
Theorem peer_store_correct t cs now h pa cs' later h' :
  clocked t cs -> end_time t cs <= now -> clocked now cs' -> end_time now cs' <= later < now + PEER_ENTRY_TTL ->
  let st := fold_left store_step cs store_new in
  (lru_size st <= MAX_INFO_HASHES)%nat /\
  Forall (fun x => lru_size (snd x) <= MAX_PEERS_PER_HASH)%nat (view st) /\
  head (fst (live_peers later h (upsert now h pa st))) = Some pa /\
  ((size (list_to_set (concat (map (fun c => other_hashes h (snd c)) cs')) : gset InfoHash) < MAX_INFO_HASHES)%nat ->
   (size (list_to_set (concat (map (fun c => other_peers h pa (snd c)) cs')) : gset PeerAddress) < MAX_PEERS_PER_HASH)%nat ->
   pa ∈ fst (live_peers later h (fold_left store_step cs' (upsert now h pa st)))) /\
  fst (live_peers later h' (expire_stale later st)) = fst (live_peers later h' st).
Proof.
  intros Hc Hend Hc' Hlater st. pose proof (clocked_end _ _ Hc') as Hnow.
  assert (store_ok now st) as Hok.
  { eapply store_ok_later; [exact Hend|]. apply store_run_ok; [apply store_new_ok|done]. }
  split; [|split; [|split; [|split]]].
  - by eapply store_ok_size.
  - by eapply store_ok_buckets.
  - apply upsert_live; [done|lia].
  - intros HfT HfP. eapply (kept_live now h pa (end_time now cs')); [|apply Hlater|].
    + apply store_run_ok; [by apply upsert_ok|done].
    + apply (store_run_kept now h pa now [] []); [by apply upsert_ok|done|done|lia|by apply upsert_kept|done..].
  - by apply (expire_stale_live now).
Qed.

(** The peer outlives an expiry pass and another peer. *)
Lemma peer_store_correct_witness :
  let h := mkInfoHash (replicate 20 7) in
  let p := mkPeer (str "10.0.0.1") 6881 in
  let q := mkPeer (str "10.0.0.2") 6882 in
  let cs := [(5, SEnsure h); (6, SUpsert h p); (minutes 31, SExpire)] in
  let cs' := [(minutes 41, SUpsert h p); (minutes 59, SExpire)] in
  clocked 0 cs /\ clocked (minutes 40) cs' /\
  q ∈ fst (live_peers (minutes 60) h (fold_left store_step cs' (upsert (minutes 40) h q (fold_left store_step cs store_new)))).
Proof.
  intros h p q cs cs'. assert (clocked 0 cs) as Hc by (vm_compute; intuition discriminate).
  assert (clocked (minutes 40) cs') as Hc' by (vm_compute; intuition discriminate).
  split; [exact Hc|]. split; [exact Hc'|].
  apply (peer_store_correct 0 cs (minutes 40) h q cs' (minutes 60) h Hc).
  - vm_compute. discriminate.
  - exact Hc'.
  - vm_compute. split; [discriminate|reflexivity].
  - vm_compute. lia.
  - vm_compute. lia.
Defined.
