(* ===== verification/AnnounceCoordinator.v ===== *)
(** * Announcing torrents on the DHT
    (inc/dht/announce_coordinator.h, src/dht/announce_coordinator.cpp)

    Two hash maps: the torrents registered for announcing and the last token each
    node returned.  The iteration order of an unordered map is unspecified;
    [map_to_list] stands for it and the theorems do not depend on it. *)

From S2P Require Import Prelude CxxLib Hash Addr RoutingTable.

Definition kAnnounceRefreshInterval : Z := minutes 12.

Record AnnounceRequest := mkAnnounce {
  an_pa : PeerAddress; an_hash : InfoHash; an_port : Z; an_token : bytes }.

Record RegisteredTorrent := mkReg {
  listen_port : Z; last_refresh : Z; initial_lookup_pending : bool }.

Record AnnounceCoordinator := mkCoord {
  registered : gmap InfoHash RegisteredTorrent;
  received_tokens : gmap PeerAddress bytes;
}.

Definition coord_new : AnnounceCoordinator := mkCoord ∅ ∅.

Definition register_torrent (now : Z) (h : InfoHash) (port : Z) (c : AnnounceCoordinator) :=
  mkCoord (<[h := mkReg port now true]> (registered c)) (received_tokens c).

Definition unregister_torrent (h : InfoHash) (c : AnnounceCoordinator) :=
  mkCoord (delete h (registered c)) (received_tokens c).

Definition coord_clear (c : AnnounceCoordinator) : AnnounceCoordinator := mkCoord ∅ ∅.

Definition on_get_peers_response (h : InfoHash) (pa : PeerAddress) (token : bytes)
    (out : list AnnounceRequest) (c : AnnounceCoordinator) : list AnnounceRequest * AnnounceCoordinator :=
  if (length token =? 0)%nat then (out, c) else
  let c := mkCoord (registered c) (<[pa := token]> (received_tokens c)) in
  match registered c !! h with
  | None => (out, c)
  | Some reg => (out ++ [mkAnnounce pa h (listen_port reg) token], c)
  end.

Definition collect_announce_all (h : InfoHash) (port : Z) (out : list AnnounceRequest)
    (c : AnnounceCoordinator) : list AnnounceRequest :=
  out ++ map (fun x => mkAnnounce (fst x) h port (snd x)) (map_to_list (received_tokens c)).

Definition torrents_needing_refresh (now : Z) (c : AnnounceCoordinator) : list InfoHash :=
  map fst (filter (fun x => kAnnounceRefreshInterval <= now - last_refresh (snd x))
             (map_to_list (registered c))).

Definition mark_refreshed (h : InfoHash) (now : Z) (c : AnnounceCoordinator) :=
  match registered c !! h with
  | None => c
  | Some reg =>
      mkCoord (<[h := mkReg (listen_port reg) now (initial_lookup_pending reg)]> (registered c))
        (received_tokens c)
  end.

Definition torrents_needing_initial_lookup (c : AnnounceCoordinator) : list InfoHash :=
  map fst (filter (fun x => initial_lookup_pending (snd x) = true) (map_to_list (registered c))).

Definition mark_initial_lookup_started (h : InfoHash) (c : AnnounceCoordinator) :=
  match registered c !! h with
  | None => c
  | Some reg =>
      mkCoord (<[h := mkReg (listen_port reg) (last_refresh reg) false]> (registered c))
        (received_tokens c)
  end.

(** ** Histories *)

Inductive coord_op :=
  | CRegister (now : Z) (h : InfoHash) (port : Z)
  | CUnregister (h : InfoHash)
  | CClear
  | CToken (h : InfoHash) (pa : PeerAddress) (token : bytes)
  | CRefreshed (h : InfoHash) (now : Z)
  | CStarted (h : InfoHash).

Definition coord_step (c : AnnounceCoordinator) (o : coord_op) : AnnounceCoordinator :=
  match o with
  | CRegister now h port => register_torrent now h port c
  | CUnregister h => unregister_torrent h c
  | CClear => coord_clear c
  | CToken h pa token => snd (on_get_peers_response h pa token [] c)
  | CRefreshed h now => mark_refreshed h now c
  | CStarted h => mark_initial_lookup_started h c
  end.

(** The port a torrent is registered with, read off the history (newest first). *)
Fixpoint port_of (h : InfoHash) (hist : list coord_op) : option Z :=
  match hist with
  | [] => None
  | CRegister _ h' port :: hist' => if decide (h' = h) then Some port else port_of h hist'
  | CUnregister h' :: hist' => if decide (h' = h) then None else port_of h hist'
  | CClear :: _ => None
  | _ :: hist' => port_of h hist'
  end.

(** The last non-empty token a node returned, for whatever torrent. *)
Fixpoint token_of (pa : PeerAddress) (hist : list coord_op) : option bytes :=
  match hist with
  | [] => None
  | CToken _ pa' token :: hist' =>
      if decide (pa' = pa /\ token <> []) then Some token else token_of pa hist'
  | CClear :: _ => None
  | _ :: hist' => token_of pa hist'
  end.

(** When a torrent was last refreshed. *)
Fixpoint refresh_of (h : InfoHash) (hist : list coord_op) : option Z :=
  match hist with
  | [] => None
  | CRegister now h' _ :: hist' => if decide (h' = h) then Some now else refresh_of h hist'
  | CUnregister h' :: hist' => if decide (h' = h) then None else refresh_of h hist'
  | CClear :: _ => None
  | CRefreshed h' now :: hist' =>
      if decide (h' = h) then (match refresh_of h hist' with Some _ => Some now | None => None end)
      else refresh_of h hist'
  | _ :: hist' => refresh_of h hist'
  end.

(** Whether a torrent still waits for its first lookup. *)
Fixpoint pending_of (h : InfoHash) (hist : list coord_op) : bool :=
  match hist with
  | [] => false
  | CRegister _ h' _ :: hist' => if decide (h' = h) then true else pending_of h hist'
  | CUnregister h' :: hist' => if decide (h' = h) then false else pending_of h hist'
  | CClear :: _ => false
  | CStarted h' :: hist' => if decide (h' = h) then false else pending_of h hist'
  | _ :: hist' => pending_of h hist'
  end.

Definition run_hist (hist : list coord_op) : AnnounceCoordinator :=
  foldr (fun o c => coord_step c o) coord_new hist.

Lemma run_hist_tokens hist pa : received_tokens (run_hist hist) !! pa = token_of pa hist.
Proof.
  induction hist as [|o hist IH]; [done|]. destruct o as [now h port|h| |h pa' token|h now|h]; simpl; try done.
  - unfold on_get_peers_response. destruct (length token =? 0)%nat eqn:E; b2p.
    + destruct token; [|done]. rewrite decide_False by tauto. done.
    + assert (token <> []) by (intros ->; done). cbn [registered].
      destruct (registered (run_hist hist) !! h); cbn [snd received_tokens];
        (destruct (decide (pa' = pa)) as [->|Hne];
          [rewrite lookup_insert_eq, decide_True by done; done
          |rewrite lookup_insert_ne, decide_False by (done || tauto); done]).
  - unfold mark_refreshed. by destruct (registered (run_hist hist) !! h).
  - unfold mark_initial_lookup_started. by destruct (registered (run_hist hist) !! h).
Qed.

(** The registration of a torrent as the history determines it. *)
Definition reg_of (h : InfoHash) (hist : list coord_op) : option RegisteredTorrent :=
  match port_of h hist, refresh_of h hist with
  | Some p, Some t => Some (mkReg p t (pending_of h hist))
  | _, _ => None
  end.

Lemma port_refresh h hist : is_Some (port_of h hist) <-> is_Some (refresh_of h hist).
Proof.
  induction hist as [|o hist IH]; [done|].
  destruct o as [now h' port|h'| |h' pa' token|h' now|h']; simpl; try done; case_decide; try done.
  rewrite IH. destruct (refresh_of h hist); split; intros [? ?]; eauto; done.
Qed.

Lemma run_hist_registered hist h : registered (run_hist hist) !! h = reg_of h hist.
Proof.
  induction hist as [|o hist IH]; [done|]. unfold reg_of in *.
  pose proof (port_refresh h hist) as Hpr.
  destruct o as [now h' port|h'| |h' pa' token|h' now|h']; simpl.
  - destruct (decide (h' = h)) as [->|Hne]; [by rewrite lookup_insert_eq|by rewrite lookup_insert_ne].
  - destruct (decide (h' = h)) as [->|Hne]; [by rewrite lookup_delete_eq|by rewrite lookup_delete_ne].
  - done.
  - unfold on_get_peers_response. destruct (_ =? _)%nat; [done|]. cbn [registered].
    by destruct (registered (run_hist hist) !! h').
  - unfold mark_refreshed. destruct (decide (h' = h)) as [->|Hne].
    + rewrite IH. destruct (port_of h hist), (refresh_of h hist); cbn [registered]; try done.
      by rewrite lookup_insert_eq.
    + destruct (registered (run_hist hist) !! h'); cbn [registered]; [|done]. by rewrite lookup_insert_ne.
  - unfold mark_initial_lookup_started. destruct (decide (h' = h)) as [->|Hne].
    + rewrite IH. destruct (port_of h hist), (refresh_of h hist); cbn [registered]; try done.
      by rewrite lookup_insert_eq.
    + destruct (registered (run_hist hist) !! h'); cbn [registered]; [|done]. by rewrite lookup_insert_ne.
Qed.

(** C20: after any history of calls, a reply with a token makes the client announce
    at once exactly when the torrent is registered, with the port of its latest
    registration; announcing to everybody sends one request to each node that ever
    returned a token, with the latest token of that node; and the torrents due for a
    refresh or a first lookup are exactly those the history says. *)
Theorem announce_correct hist h pa token port now :
  let c := run_hist hist in
  fst (on_get_peers_response h pa token [] c) =
    (if decide (token = []) then []
     else match port_of h hist with Some p => [mkAnnounce pa h p token] | None => [] end) /\
  (forall r, r ∈ collect_announce_all h port [] c <->
     an_hash r = h /\ an_port r = port /\ token_of (an_pa r) hist = Some (an_token r)) /\
  NoDup (map an_pa (collect_announce_all h port [] c)) /\
  (forall h', h' ∈ torrents_needing_refresh now c <->
     exists t, refresh_of h' hist = Some t /\ kAnnounceRefreshInterval <= now - t) /\
  (forall h', h' ∈ torrents_needing_initial_lookup c <->
     is_Some (port_of h' hist) /\ pending_of h' hist = true).
Proof.
  intros c. split; [|split; [|split; [|split]]].
  - unfold on_get_peers_response. destruct token as [|b token]; [done|].
    cbn [length Nat.eqb registered]. rewrite decide_False by done.
    unfold c. rewrite run_hist_registered. unfold reg_of. pose proof (port_refresh h hist) as Hpr.
    destruct (port_of h hist) as [p|], (refresh_of h hist) as [t|]; simpl; try done.
    destruct (proj1 Hpr ltac:(eauto)) as [? ?]. done.
  - intros r. unfold collect_announce_all. cbn [app]. rewrite list_elem_of_fmap. split.
    + intros ([pa' tok] & -> & Hin%elem_of_map_to_list). cbn. unfold c in Hin. by rewrite run_hist_tokens in Hin.
    + intros (<- & <- & Ht). exists (an_pa r, an_token r). split; [by destruct r|].
      apply elem_of_map_to_list. unfold c. by rewrite run_hist_tokens.
  - unfold collect_announce_all. cbn [app]. rewrite map_map. cbn [an_pa]. apply NoDup_fst_map_to_list.
  - intros h'. unfold torrents_needing_refresh. rewrite list_elem_of_fmap. split.
    + intros ([h2 reg] & -> & [Ht Hin%elem_of_map_to_list]%list_elem_of_filter). cbn in *.
      unfold c in Hin. rewrite run_hist_registered in Hin. unfold reg_of in Hin.
      destruct (port_of h2 hist), (refresh_of h2 hist) as [t|]; try done. exists t.
      injection Hin as <-. done.
    + intros (t & Ht & Hle). destruct (proj2 (port_refresh h' hist)) as [p Hp]; [eauto|].
      exists (h', mkReg p t (pending_of h' hist)). split; [done|].
      apply list_elem_of_filter. split; [done|]. apply elem_of_map_to_list.
      unfold c. rewrite run_hist_registered. unfold reg_of. by rewrite Hp, Ht.
  - intros h'. unfold torrents_needing_initial_lookup. rewrite list_elem_of_fmap. split.
    + intros ([h2 reg] & -> & [Ht Hin%elem_of_map_to_list]%list_elem_of_filter). cbn in *.
      unfold c in Hin. rewrite run_hist_registered in Hin. unfold reg_of in Hin.
      destruct (port_of h2 hist), (refresh_of h2 hist) as [t|]; try done.
      injection Hin as <-. split; [eauto|done].
    + intros ([p Hp] & Hpend). destruct (proj1 (port_refresh h' hist)) as [t Ht]; [eauto|].
      exists (h', mkReg p t true). split; [done|].
      apply list_elem_of_filter. split; [done|]. apply elem_of_map_to_list.
      unfold c. rewrite run_hist_registered. unfold reg_of. by rewrite Hp, Ht, Hpend.
Qed.
