(* ===== verification/Krpc.v ===== *)
(** * KRPC messages (inc/dht/krpc.h, src/dht/krpc.cpp)

    The builders produce bencoded datagrams with [Bencode]'s encoder; [parse_krpc]
    runs the parser and reads the fields.  A node list stamps its entries with the
    clock, the argument [now]. *)

From S2P Require Import Prelude CxxLib ByteOrder Bencode Hash Addr NodeId RoutingTable.

Inductive KrpcType := Query | Response | Error.
Inductive KrpcQuery := Ping | FindNode | GetPeers | AnnouncePeer.

Record KrpcMessage := mkMsg {
  m_type : KrpcType;
  m_txn : bytes;
  m_query_type : option KrpcQuery;
  m_sender_id : NodeId;
  m_target : NodeId;
  m_info_hash : option InfoHash;
  m_peer_port : Z;
  m_token : bytes;
  m_implied_port : bool;
  m_nodes : list RoutingEntry;
  m_node_counts : list nat;
  m_values : list bytes;
  m_error_code : Z;
  m_error_msg : bytes;
}.

(** A message with the default member initialisers. *)
Definition msg_default : KrpcMessage :=
  mkMsg Response [] None nid_zero nid_zero None 0 [] false [] [] [] 0 [].

(** [std::map{...}] built from an initialiser list, then encoded. *)
Definition dict_of (l : list (bytes * bytes)) : bytes := enc_dict (smap_of_list l []).

(** ** Builders *)

Definition make_ping (txn : bytes) (self_id : NodeId) : bytes :=
  let args := dict_of [(str "id", enc_string (nid_to_string self_id))] in
  dict_of [(str "a", args); (str "q", enc_string (str "ping"));
           (str "t", enc_string txn); (str "y", enc_string (str "q"))].

Definition make_find_node (txn : bytes) (self_id target : NodeId) : bytes :=
  let args := dict_of [(str "id", enc_string (nid_to_string self_id));
                       (str "target", enc_string (nid_to_string target))] in
  dict_of [(str "a", args); (str "q", enc_string (str "find_node"));
           (str "t", enc_string txn); (str "y", enc_string (str "q"))].

Definition make_get_peers (txn : bytes) (self_id : NodeId) (info_hash : InfoHash) : bytes :=
  let args := dict_of [(str "id", enc_string (nid_to_string self_id));
                       (str "info_hash", enc_string (to_raw info_hash))] in
  dict_of [(str "a", args); (str "q", enc_string (str "get_peers"));
           (str "t", enc_string txn); (str "y", enc_string (str "q"))].

Definition make_announce_peer (txn : bytes) (self_id : NodeId) (info_hash : InfoHash) (port : Z)
    (token : bytes) (implied_port : bool) : bytes :=
  let a_map := smap_assign (str "id") (enc_string (nid_to_string self_id)) [] in
  let a_map := smap_assign (str "implied_port") (enc_integer (if implied_port then 1 else 0)) a_map in
  let a_map := smap_assign (str "info_hash") (enc_string (to_raw info_hash)) a_map in
  let a_map := smap_assign (str "port") (enc_integer port) a_map in
  let a_map := smap_assign (str "token") (enc_string token) a_map in
  dict_of [(str "a", enc_dict a_map); (str "q", enc_string (str "announce_peer"));
           (str "t", enc_string txn); (str "y", enc_string (str "q"))].

(** The envelope of the replies. *)
Definition response_of (txn r : bytes) : bytes :=
  dict_of [(str "r", r); (str "t", enc_string txn); (str "y", enc_string (str "r"))].

Definition make_response (txn : bytes) (self_id : NodeId) : bytes :=
  response_of txn (dict_of [(str "id", enc_string (nid_to_string self_id))]).

Section builders.
Context `{Inet}.

Definition nodes_to_compact (nodes : list RoutingEntry) : bytes := concat (map compact nodes).

Definition make_nodes_response (txn : bytes) (self_id : NodeId) (nodes : list RoutingEntry) : bytes :=
  response_of txn (dict_of [(str "id", enc_string (nid_to_string self_id));
                            (str "nodes", enc_string (nodes_to_compact nodes))]).

Definition make_peers_response (txn : bytes) (self_id : NodeId) (token : bytes)
    (pas : list PeerAddress) : bytes :=
  let encoded := map (fun p => enc_string (peer_to_compact (ip p) (port p))) pas in
  response_of txn (dict_of [(str "id", enc_string (nid_to_string self_id));
                            (str "token", enc_string token);
                            (str "values", enc_list encoded)]).

Definition make_nodes_response_gp (txn : bytes) (self_id : NodeId) (token : bytes)
    (nodes : list RoutingEntry) : bytes :=
  response_of txn (dict_of [(str "id", enc_string (nid_to_string self_id));
                            (str "nodes", enc_string (nodes_to_compact nodes));
                            (str "token", enc_string token)]).
End builders.

Definition make_error (txn : bytes) (code : Z) (msg : bytes) : bytes :=
  dict_of [(str "e", enc_list [enc_integer code; enc_string msg]);
           (str "t", enc_string txn); (str "y", enc_string (str "e"))].

(** [random_txn], from two draws of the generator. *)
Definition random_txn (d0 d1 : Z) : bytes := [u8 d0; u8 d1].

(** ** Parser *)

Definition bstring (d : smap BType) (key : bytes) : bytes :=
  match smap_find key d with Some (BString s) => s | _ => [] end.

Definition binteger (d : smap BType) (key : bytes) (def : Z) : Z :=
  match smap_find key d with Some (BInteger z) => z | _ => def end.

Definition bdict (d : smap BType) (key : bytes) : option (smap BType) :=
  match smap_find key d with Some (BDict m) => Some m | _ => None end.

Definition blist (d : smap BType) (key : bytes) : option (list BType) :=
  match smap_find key d with Some (BList l) => Some l | _ => None end.

Section parser.
Context `{Inet}.

(** The loop of [parse_nodes] from offset [i]: the unique nodes, their repeat
    counts and the index of the 26-byte strings seen. *)
Fixpoint nodes_loop (fuel : nat) (now : Z) (data : bytes) (i : nat) (index : gmap bytes nat)
    (nodes : list RoutingEntry) (counts : list nat) : list RoutingEntry * list nat :=
  match fuel with
  | O => (nodes, counts)
  | S f =>
      if (i + 26 <=? length data)%nat then
        let key := slice i (i + 26) data in
        match index !! key with
        | Some j => nodes_loop f now data (i + 26) index nodes (alter S j counts)
        | None =>
            nodes_loop f now data (i + 26) (<[key := length nodes]> index)
              (nodes ++ [from_compact now data i]) (counts ++ [1%nat])
        end
      else (nodes, counts)
  end.

Definition parse_nodes (now : Z) (data : bytes) : list RoutingEntry * list nat :=
  nodes_loop (S (length data)) now data 0 ∅ [] [].

Definition parse_peers (lst : option (list BType)) : list bytes :=
  match lst with
  | None => []
  | Some l =>
      flat_map (fun item =>
        match item with
        | BString s => if (length s =? 6)%nat then [s] else []
        | _ => []
        end) l
  end.

(** The branch [y == "q"]. *)
Definition parse_query (root : smap BType) (txn : bytes) : option KrpcMessage :=
  let q := bstring root (str "q") in
  match bdict root (str "a") with
  | None => None
  | Some a =>
      let sender := from_string (bstring a (str "id")) in
      let msg qt tgt ih port token implied :=
        mkMsg Query txn (Some qt) sender tgt ih port token implied [] [] [] 0 [] in
      if bool_decide (q = str "ping") then Some (msg Ping nid_zero None 0 [] false)
      else if bool_decide (q = str "find_node") then
        Some (msg FindNode (from_string (bstring a (str "target"))) None 0 [] false)
      else if bool_decide (q = str "get_peers") then
        match try_from_raw (bstring a (str "info_hash")) with
        | None => None
        | Some ih => Some (msg GetPeers nid_zero (Some ih) 0 [] false)
        end
      else if bool_decide (q = str "announce_peer") then
        match try_from_raw (bstring a (str "info_hash")) with
        | None => None
        | Some ih =>
            Some (msg AnnouncePeer nid_zero (Some ih) (u16 (binteger a (str "port") 0))
                    (bstring a (str "token")) (negb (binteger a (str "implied_port") 0 =? 0)))
        end
      else None
  end.

(** The branch [y == "r"]. *)
Definition parse_response (now : Z) (root : smap BType) (txn : bytes) : option KrpcMessage :=
  match bdict root (str "r") with
  | None => None
  | Some r =>
      let sender := from_string (bstring r (str "id")) in
      let nodes_raw := bstring r (str "nodes") in
      let '(nodes, counts) :=
        if negb (length nodes_raw =? 0)%nat then parse_nodes now nodes_raw else ([], []) in
      Some (mkMsg Response txn None sender nid_zero None 0 (bstring r (str "token")) false
              nodes counts (parse_peers (blist r (str "values"))) 0 [])
  end.

(** The branch [y == "e"]. *)
Definition parse_error (root : smap BType) (txn : bytes) : KrpcMessage :=
  let '(code, text) :=
    match blist root (str "e") with
    | Some (c :: t :: _) =>
        (match c with BInteger z => to_i32 z | _ => 0 end,
         match t with BString s => s | _ => [] end)
    | _ => (0, [])
    end in
  mkMsg Error txn None nid_zero nid_zero None 0 [] false [] [] [] code text.

Definition read_message (now : Z) (v : BType) : option KrpcMessage :=
  match v with
  | BDict root =>
      let txn := bstring root (str "t") in
      let y := bstring root (str "y") in
      if bool_decide (y = str "q") then parse_query root txn
      else if bool_decide (y = str "r") then parse_response now root txn
      else if bool_decide (y = str "e") then Some (parse_error root txn)
      else None
  | _ => None
  end.

(** [parse_krpc]: [catch (...)] turns every exception into [nullopt]; undefined
    behaviour is not an exception. *)
Definition parse_krpc (now : Z) (data : bytes) : result (option KrpcMessage) :=
  match parse_value data with
  | Ok (v, _) => Ok (read_message now v)
  | Throw (Undefined w) => Throw (Undefined w)
  | Throw OutOfFuel => Throw OutOfFuel
  | Throw _ => Ok None
  end.
End parser.

(** [bytes_to_hex] *)
Definition bytes_to_hex (s : bytes) : bytes := to_hex s.

(** ** The datagrams as bencoded values *)

Definition q_value (args : smap BType) (q : string) (txn : bytes) : BType :=
  BDict [(str "a", BDict args); (str "q", BString (str q)); (str "t", BString txn); (str "y", BString (str "q"))].

Definition r_value (r : smap BType) (txn : bytes) : BType :=
  BDict [(str "r", BDict r); (str "t", BString txn); (str "y", BString (str "r"))].

Definition announce_args (self : NodeId) (h : InfoHash) (port : Z) (token : bytes) (implied : bool) : smap BType :=
  [(str "id", BString (nid_to_string self)); (str "implied_port", BInteger (if implied then 1 else 0));
   (str "info_hash", BString (to_raw h)); (str "port", BInteger port); (str "token", BString token)].

Lemma make_ping_value txn self :
  make_ping txn self = encode (q_value [(str "id", BString (nid_to_string self))] "ping" txn).
Proof. reflexivity. Qed.

Lemma make_find_node_value txn self t :
  make_find_node txn self t
  = encode (q_value [(str "id", BString (nid_to_string self)); (str "target", BString (nid_to_string t))]
              "find_node" txn).
Proof. reflexivity. Qed.

Lemma make_get_peers_value txn self h :
  make_get_peers txn self h
  = encode (q_value [(str "id", BString (nid_to_string self)); (str "info_hash", BString (to_raw h))]
              "get_peers" txn).
Proof. reflexivity. Qed.

Lemma make_announce_peer_value txn self h port token implied :
  make_announce_peer txn self h port token implied
  = encode (q_value (announce_args self h port token implied) "announce_peer" txn).
Proof. reflexivity. Qed.

(** ** Reading a datagram back *)

(** A literal dictionary in key order is well formed when its values are. *)
Ltac wf_literal :=
  repeat match goal with
  | |- wf_btype (BDict _) => apply wf_BDict; split
  | |- wf_btype (BList _) => apply wf_BList
  | |- smap_ok _ => unfold smap_ok; repeat constructor
  | |- Forall _ (_ :: _) => apply Forall_cons_2
  | |- Forall _ [] => apply Forall_nil_2
  | |- wf_btype (BString _) => exact I
  | |- wf_btype (BInteger _) => simpl; lia
  | |- _ => progress cbn [snd]
  end.

Section roundtrip.
Context `{Inet}.

Lemma parse_krpc_encode now v :
  wf_btype v -> fits (encode v) -> parse_krpc now (encode v) = Ok (read_message now v).
Proof.
  intros Hwf Hfit. unfold parse_krpc, parse_value.
  pose proof (parse_encode v Hwf (S (length (encode v))) ltac:(lia) [] []) as E.
  unfold fits in Hfit. rewrite app_nil_r in E. cbn [app length] in E. by rewrite E.
Qed.

(** ** Node lists *)

Definition stamped (now : Z) (e : RoutingEntry) : RoutingEntry := mkEntry (re_id e) (re_pa e) now.

Context `{!InetOk}.

Lemma nodes_loop_concat fuel now p ns index nodes counts :
  (length ns < fuel)%nat -> Forall entry_ok ns -> NoDup (map compact ns) ->
  (forall e, e ∈ ns -> index !! compact e = None) ->
  nodes_loop fuel now (p ++ nodes_to_compact ns) (length p) index nodes counts
  = (nodes ++ map (stamped now) ns, counts ++ map (fun _ => 1%nat) ns).
Proof.
  revert fuel p index nodes counts. induction ns as [|e ns IH]; intros fuel p index nodes counts Hf Hok Hnd Hix;
    (destruct fuel as [|f]; [simpl in Hf; lia|]); cbn [nodes_loop map].
  - unfold nodes_to_compact. cbn [map concat]. rewrite app_nil_r, (proj2 (Nat.leb_gt _ _)) by lia.
    by rewrite !app_nil_r.
  - inversion Hok as [|? ? He Hok']; subst. cbn [map] in Hnd. apply NoDup_cons in Hnd as [Hfresh Hnd].
    pose proof (compact_length e He) as Hl.
    change (nodes_to_compact (e :: ns)) with (compact e ++ nodes_to_compact ns).
    rewrite !length_app, Hl, (proj2 (Nat.leb_le _ _)) by lia.
    pose proof (slice_app_mid p (compact e) (nodes_to_compact ns)) as Es. rewrite Hl in Es.
    rewrite Es, (Hix e ltac:(left)). rewrite from_compact_app by done.
    replace (length p + 26)%nat with (length (p ++ compact e)) by (rewrite length_app, Hl; done).
    rewrite app_assoc, IH; [|simpl in Hf; lia|done|done|].
    + by rewrite <- !app_assoc.
    + intros e' He'. rewrite lookup_insert_ne; [apply Hix; by right|].
      intros E. apply Hfresh. rewrite E. by apply (list_elem_of_fmap_2 compact).
Qed.

Lemma length_nodes_to_compact ns :
  Forall entry_ok ns -> length (nodes_to_compact ns) = (26 * length ns)%nat.
Proof.
  unfold nodes_to_compact. induction 1 as [|e ns He Hns IH]; [done|]. cbn [map concat length].
  rewrite length_app, compact_length, IH by done. lia.
Qed.

Lemma parse_nodes_compact now ns :
  Forall entry_ok ns -> NoDup (map compact ns) ->
  parse_nodes now (nodes_to_compact ns) = (map (stamped now) ns, map (fun _ => 1%nat) ns).
Proof.
  intros Hok Hnd. unfold parse_nodes. pose proof (length_nodes_to_compact ns Hok) as Hl.
  pose proof (nodes_loop_concat (S (length (nodes_to_compact ns))) now [] ns ∅ [] []) as E.
  cbn [app length] in E. rewrite E; [done|lia|done|done|]. intros e _. apply lookup_empty.
Qed.

Lemma parse_peers_compact pas :
  parse_peers (Some (map (fun p => BString (peer_to_compact (ip p) (port p))) pas))
  = map (fun p => peer_to_compact (ip p) (port p)) pas.
Proof.
  unfold parse_peers. induction pas as [|p pas IH]; [done|]. cbn [map flat_map].
  rewrite peer_to_compact_length. cbn [Nat.eqb app]. by rewrite IH.
Qed.

(** ** Messages this client sends *)

Inductive SentQuery :=
  | SQPing
  | SQFindNode (target : NodeId)
  | SQGetPeers (h : InfoHash)
  | SQAnnounce (h : InfoHash) (port : Z) (token : bytes) (implied : bool).

Definition query_ok (q : SentQuery) : Prop :=
  match q with
  | SQPing => True
  | SQFindNode t => nid_ok t
  | SQGetPeers h => ih_ok h
  | SQAnnounce h port _ _ => ih_ok h /\ 0 <= port < 2 ^ 16
  end.

Definition query_bytes (txn : bytes) (self : NodeId) (q : SentQuery) : bytes :=
  match q with
  | SQPing => make_ping txn self
  | SQFindNode t => make_find_node txn self t
  | SQGetPeers h => make_get_peers txn self h
  | SQAnnounce h port token implied => make_announce_peer txn self h port token implied
  end.

(** What the receiver of the query should see. *)
Definition query_msg (txn : bytes) (self : NodeId) (q : SentQuery) : KrpcMessage :=
  let msg qt tgt ih port token implied :=
    mkMsg Query txn (Some qt) self tgt ih port token implied [] [] [] 0 [] in
  match q with
  | SQPing => msg Ping nid_zero None 0 [] false
  | SQFindNode t => msg FindNode t None 0 [] false
  | SQGetPeers h => msg GetPeers nid_zero (Some h) 0 [] false
  | SQAnnounce h port token implied => msg AnnouncePeer nid_zero (Some h) port token implied
  end.

Inductive SentReply :=
  | SRPong
  | SRNodes (nodes : list RoutingEntry)
  | SRPeers (token : bytes) (pas : list PeerAddress)
  | SRNodesGp (token : bytes) (nodes : list RoutingEntry)
  | SRError (code : Z) (text : bytes).

Definition nodes_ok (ns : list RoutingEntry) : Prop := Forall entry_ok ns /\ NoDup (map compact ns).

Definition reply_ok (r : SentReply) : Prop :=
  match r with
  | SRNodes ns | SRNodesGp _ ns => nodes_ok ns
  | SRError code _ => - 2 ^ 31 <= code < 2 ^ 31
  | _ => True
  end.

Definition reply_bytes (txn : bytes) (self : NodeId) (r : SentReply) : bytes :=
  match r with
  | SRPong => make_response txn self
  | SRNodes ns => make_nodes_response txn self ns
  | SRPeers token pas => make_peers_response txn self token pas
  | SRNodesGp token ns => make_nodes_response_gp txn self token ns
  | SRError code text => make_error txn code text
  end.

Definition reply_msg (now : Z) (txn : bytes) (self : NodeId) (r : SentReply) : KrpcMessage :=
  let msg token ns values :=
    mkMsg Response txn None self nid_zero None 0 token false
      (map (stamped now) ns) (map (fun _ => 1%nat) ns) values 0 [] in
  match r with
  | SRPong => msg [] [] []
  | SRNodes ns => msg [] ns []
  | SRPeers token pas => msg token [] (map (fun p => peer_to_compact (ip p) (port p)) pas)
  | SRNodesGp token ns => msg token ns []
  | SRError code text => mkMsg Error txn None nid_zero nid_zero None 0 [] false [] [] [] code text
  end.

Lemma parse_query_bytes now txn self q :
  nid_ok self -> query_ok q -> fits (query_bytes txn self q) ->
  parse_krpc now (query_bytes txn self q) = Ok (Some (query_msg txn self q)).
Proof.
  intros Hs Hq. pose proof (from_string_to_string self Hs) as Eself.
  destruct q as [|t|h|h port token implied]; cbn [query_bytes query_ok] in *.
  - rewrite make_ping_value. intros Hf. rewrite parse_krpc_encode by (try done; unfold q_value; wf_literal).
    rewrite <- Eself at 2. reflexivity.
  - rewrite make_find_node_value. intros Hf. rewrite parse_krpc_encode by (try done; unfold q_value; wf_literal).
    rewrite <- Eself at 2. rewrite <- (from_string_to_string t Hq) at 2. reflexivity.
  - rewrite make_get_peers_value. intros Hf. rewrite parse_krpc_encode by (try done; unfold q_value; wf_literal).
    rewrite <- Eself at 2.
    change (Ok match try_from_raw (to_raw h) with
               | Some ih => Some (mkMsg Query txn (Some GetPeers) (from_string (nid_to_string self)) nid_zero
                                    (Some ih) 0 [] false [] [] [] 0 [])
               | None => None
               end = Ok (Some (query_msg txn (from_string (nid_to_string self)) (SQGetPeers h)))).
    by rewrite try_from_raw_to_raw.
  - destruct Hq as [Hh Hport].
    rewrite make_announce_peer_value. intros Hf.
    rewrite parse_krpc_encode by (try done; unfold q_value, announce_args; wf_literal; destruct implied; simpl; lia).
    rewrite <- Eself at 2.
    change (Ok match try_from_raw (to_raw h) with
               | Some ih => Some (mkMsg Query txn (Some AnnouncePeer) (from_string (nid_to_string self)) nid_zero
                                    (Some ih) (u16 port) token (negb ((if implied then 1 else 0) =? 0)) [] [] [] 0 [])
               | None => None
               end = Ok (Some (query_msg txn (from_string (nid_to_string self)) (SQAnnounce h port token implied)))).
    rewrite try_from_raw_to_raw by done. unfold u16. rewrite Z.mod_small by done. by destruct implied.
Qed.

(** The dictionary under "r" of each reply. *)
Definition reply_args (self : NodeId) (r : SentReply) : smap BType :=
  let id := (str "id", BString (nid_to_string self)) in
  match r with
  | SRPong | SRError _ _ => [id]
  | SRNodes ns => [id; (str "nodes", BString (nodes_to_compact ns))]
  | SRPeers token pas =>
      [id; (str "token", BString token);
       (str "values", BList (map (fun p => BString (peer_to_compact (ip p) (port p))) pas))]
  | SRNodesGp token ns =>
      [id; (str "nodes", BString (nodes_to_compact ns)); (str "token", BString token)]
  end.

Definition reply_value (txn : bytes) (self : NodeId) (r : SentReply) : BType :=
  match r with
  | SRError code text =>
      BDict [(str "e", BList [BInteger code; BString text]); (str "t", BString txn); (str "y", BString (str "e"))]
  | _ => r_value (reply_args self r) txn
  end.

Lemma reply_bytes_value txn self r : reply_bytes txn self r = encode (reply_value txn self r).
Proof.
  destruct r as [|ns|token pas|token ns|code text]; try reflexivity.
  unfold reply_bytes, make_peers_response. cbn [reply_value]. unfold r_value, reply_args.
  replace (map (fun p => enc_string (peer_to_compact (ip p) (port p))) pas)
    with (map encode (map (fun p => BString (peer_to_compact (ip p) (port p))) pas)) by (by rewrite map_map).
  reflexivity.
Qed.

Lemma reply_value_wf txn self r : reply_ok r -> wf_btype (reply_value txn self r).
Proof.
  destruct r as [|ns|token pas|token ns|code text]; cbn [reply_ok]; intros Hr;
    unfold reply_value, r_value, reply_args; wf_literal.
  apply Forall_map, Forall_true. done.
Qed.

(** The branch "r" of the parser on such a dictionary. *)
Lemma read_reply now txn self token ns pas r :
  nid_ok self -> nodes_ok ns ->
  bstring r (str "id") = nid_to_string self ->
  bstring r (str "nodes") = nodes_to_compact ns ->
  bstring r (str "token") = token ->
  parse_peers (blist r (str "values")) = pas ->
  read_message now (r_value r txn)
  = Some (mkMsg Response txn None self nid_zero None 0 token false
            (map (stamped now) ns) (map (fun _ => 1%nat) ns) pas 0 []).
Proof.
  intros Hs [Hok Hnd] Hid Hnodes Htok Hpas.
  change (read_message now (r_value r txn)) with (parse_response now
    [(str "r", BDict r); (str "t", BString txn); (str "y", BString (str "r"))] txn).
  unfold parse_response. change (bdict _ (str "r")) with (Some r). cbv iota beta.
  rewrite Hid, Hnodes, Htok, Hpas, from_string_to_string by done.
  rewrite parse_nodes_compact by done.
  destruct ns as [|e ns]; [done|]. pose proof (length_nodes_to_compact (e :: ns) Hok) as Hl.
  rewrite Hl. done.
Qed.

Lemma parse_reply_bytes now txn self r :
  nid_ok self -> reply_ok r -> fits (reply_bytes txn self r) ->
  parse_krpc now (reply_bytes txn self r) = Ok (Some (reply_msg now txn self r)).
Proof.
  intros Hs Hr Hf. rewrite reply_bytes_value in *.
  rewrite parse_krpc_encode by (done || by apply reply_value_wf).
  assert (nodes_ok []) as Hnil by (split; constructor). f_equal.
  destruct r as [|ns|token pas|token ns|code text]; cbn [reply_value reply_ok] in *.
  - by apply (read_reply now txn self [] [] []).
  - by apply (read_reply now txn self [] ns []).
  - apply (read_reply now txn self token []); [done..|]. apply parse_peers_compact.
  - by apply (read_reply now txn self token ns []).
  - change (Some (mkMsg Error txn None nid_zero nid_zero None 0 [] false [] [] [] (to_i32 code) text)
            = Some (reply_msg now txn self (SRError code text))).
    assert (to_i32 code = code) as ->; [|done]. unfold to_i32, to_signed.
    destruct (Z.lt_ge_cases code 0).
    + rewrite <- (Z.mod_add code 1), Z.mod_small by lia.
      rewrite (proj2 (Z.ltb_ge _ _)) by lia. lia.
    + rewrite Z.mod_small, (proj2 (Z.ltb_lt _ _)) by lia. done.
Qed.
End roundtrip.

(** C21: every query this client sends is read back, by the parser it runs on
    incoming datagrams, as that query: kind, transaction, sender, target, info hash,
    port, token and implied-port flag. *)
Theorem krpc_query_roundtrip `{Inet} now txn self q :
  nid_ok self -> query_ok q -> fits (query_bytes txn self q) ->
  parse_krpc now (query_bytes txn self q) = Ok (Some (query_msg txn self q)).
Proof. apply parse_query_bytes. Qed.

Lemma krpc_query_roundtrip_witness :
  let q := SQAnnounce (mkInfoHash (replicate 20 9)) 6881 (str "tok") true in
  query_ok q /\
  @parse_krpc dotted_inet 0 (query_bytes (str "aa") (sample_id 5) q)
  = Ok (Some (query_msg (str "aa") (sample_id 5) q)).
Proof.
  assert (query_ok (SQAnnounce (mkInfoHash (replicate 20 9)) 6881 (str "tok") true)) as Hq.
  { split; [|lia]. apply (bool_decide_unpack _). vm_compute. reflexivity. }
  split; [exact Hq|].
  apply (@krpc_query_roundtrip dotted_inet 0 (str "aa") (sample_id 5)
           (SQAnnounce (mkInfoHash (replicate 20 9)) 6881 (str "tok") true)).
  - apply sample_id_ok.
  - exact Hq.
  - vm_compute. reflexivity.
Defined.

(** C22: every reply this client sends is read back as that reply: the node list with
    each entry's identifier and address, the peer list, the token, or the error code
    and text; entries are stamped with the receiver's clock. *)
Theorem krpc_reply_roundtrip (I : Inet) (OK : InetOk) now txn self r :
  nid_ok self -> reply_ok r -> fits (reply_bytes txn self r) ->
  parse_krpc now (reply_bytes txn self r) = Ok (Some (reply_msg now txn self r)).
Proof. apply parse_reply_bytes. Qed.

Definition sample_node : RoutingEntry := mkEntry (sample_id 3) (mkPeer (dotted [10; 0; 0; 1]) 6881) 5.

Lemma sample_node_ok : @entry_ok dotted_inet sample_node.
Proof.
  split; [apply sample_id_ok|]. split; [|simpl; lia]. exists [10; 0; 0; 1]. split; [|done].
  apply (bool_decide_unpack _). vm_compute. done.
Qed.

Lemma krpc_reply_roundtrip_witness :
  @reply_ok dotted_inet (SRNodesGp (str "tok") [sample_node]) /\
  @parse_krpc dotted_inet 77 (@reply_bytes dotted_inet (str "aa") (sample_id 5) (SRNodesGp (str "tok") [sample_node]))
  = Ok (Some (@reply_msg dotted_inet 77 (str "aa") (sample_id 5) (SRNodesGp (str "tok") [sample_node]))).
Proof.
  assert (@reply_ok dotted_inet (SRNodesGp (str "tok") [sample_node])) as Hr.
  { split; [apply Forall_singleton, sample_node_ok|apply NoDup_singleton]. }
  split; [exact Hr|].
  apply (@krpc_reply_roundtrip dotted_inet dotted_inet_ok 77 (str "aa") (sample_id 5)).
  - apply sample_id_ok.
  - exact Hr.
  - vm_compute. reflexivity.
Defined.

(** ** What a received message can contain *)

Section received.
Context `{Inet}.

Lemma sum_alter j (cs : list nat) :
  (j < length cs)%nat -> foldr Nat.add 0%nat (alter S j cs) = S (foldr Nat.add 0%nat cs).
Proof.
  revert j. induction cs as [|c cs IH]; intros j Hj; [simpl in Hj; lia|].
  destruct j as [|j]; [done|]. change (alter S (S j) (c :: cs)) with (c :: alter S j cs).
  cbn [foldr length] in *. rewrite IH by lia. lia.
Qed.

Lemma sum_from a (cs : list nat) : foldr Nat.add a cs = (a + foldr Nat.add 0 cs)%nat.
Proof. induction cs as [|c cs IH]; simpl; lia. Qed.

Lemma nodes_loop_shape fuel now data i index nodes counts :
  (length data < i + 26 * fuel)%nat -> bytes_ok data ->
  length nodes = length counts -> Forall (fun e => nid_ok (re_id e) /\ last_seen e = now) nodes ->
  (forall k j, index !! k = Some j -> (j < length nodes)%nat) ->
  let r := nodes_loop fuel now data i index nodes counts in
  length (fst r) = length (snd r) /\
  Forall (fun e => nid_ok (re_id e) /\ last_seen e = now) (fst r) /\
  foldr Nat.add 0%nat (snd r) = (foldr Nat.add 0 counts + (length data - i) / 26)%nat.
Proof.
  revert i index nodes counts. induction fuel as [|f IH]; intros i index nodes counts Hf Hd Hl Hok Hix;
    cbn [nodes_loop].
  { cbn [fst snd]. split; [done|]. split; [done|].
    replace (length data - i)%nat with 0%nat by lia. simpl. lia. }
  destruct (i + 26 <=? length data)%nat eqn:E; b2p; cbn [fst snd].
  - assert ((length data - i) / 26 = S ((length data - (i + 26)) / 26))%nat as Ediv.
    { replace (length data - i)%nat with ((length data - (i + 26)) + 1 * 26)%nat by lia.
      rewrite Nat.div_add by lia. lia. }
    destruct (index !! slice i (i + 26) data) as [j|] eqn:Ej.
    + destruct (IH (i + 26)%nat index nodes (alter S j counts)) as (H1 & H2 & H3);
        [lia|done|by rewrite length_alter|done|done|].
      split; [done|]. split; [done|]. cbv zeta in H3. rewrite H3, Ediv.
      assert (foldr Nat.add 0 (alter S j counts) = S (foldr Nat.add 0 counts))%nat as ->; [|lia].
      apply Hix in Ej. apply sum_alter. lia.
    + destruct (IH (i + 26)%nat (<[slice i (i + 26) data := length nodes]> index)
                  (nodes ++ [from_compact now data i]) (counts ++ [1%nat])) as (H1 & H2 & H3).
      * lia.
      * done.
      * rewrite !length_app, Hl. done.
      * apply Forall_app_2; [done|]. apply Forall_singleton. unfold from_compact.
        rewrite (proj2 (Nat.ltb_ge _ _)) by lia. cbn [re_id last_seen]. split; [|done].
        apply from_string_ok. unfold slice. auto with bt.
      * intros k j. rewrite length_app. cbn [length]. destruct (decide (slice i (i + 26) data = k)) as [->|Hne].
        -- rewrite lookup_insert_eq. intros [= <-]. lia.
        -- rewrite lookup_insert_ne by done. intros ?%Hix. lia.
      * split; [done|]. split; [done|]. cbv zeta in H3. rewrite H3, Ediv, foldr_app. cbn [foldr].
        rewrite sum_from. lia.
  - split; [done|]. split; [done|].
    rewrite Nat.div_small by lia. lia.
Qed.

(** The fields of a message that are safe to use. *)
Record msg_ok (now : Z) (m : KrpcMessage) : Prop := {
  mok_sender : nid_ok (m_sender_id m);
  mok_target : nid_ok (m_target m);
  mok_hash : forall h, m_info_hash m = Some h -> ih_ok h;
  mok_needs_hash : m_query_type m = Some GetPeers \/ m_query_type m = Some AnnouncePeer ->
    is_Some (m_info_hash m);
  mok_query : m_type m = Query <-> is_Some (m_query_type m);
  mok_port : 0 <= m_peer_port m < 2 ^ 16;
  mok_nodes : Forall (fun e => nid_ok (re_id e) /\ last_seen e = now) (m_nodes m);
  mok_counts : length (m_node_counts m) = length (m_nodes m);
  mok_values : Forall (fun v => length v = 6%nat /\ bytes_ok v) (m_values m);
}.

Lemma bstring_bytes d k : Forall (fun x => bytes_btype (snd x)) d -> bytes_ok (bstring d k).
Proof.
  intros Hd. unfold bstring. destruct (smap_find k d) as [v|] eqn:E; [|constructor].
  apply (smap_find_Forall _ _ _ _ Hd) in E. cbn [snd] in E.
  destruct v; try constructor. exact E.
Qed.

Lemma bdict_bytes d k m :
  Forall (fun x => bytes_btype (snd x)) d -> bdict d k = Some m -> Forall (fun x => bytes_btype (snd x)) m.
Proof.
  intros Hd. unfold bdict. destruct (smap_find k d) as [v|] eqn:E; [|done].
  apply (smap_find_Forall _ _ _ _ Hd) in E. destruct v; try done. intros [= <-]. by apply bytes_BDict.
Qed.

Lemma parse_peers_bytes d k :
  Forall (fun x => bytes_btype (snd x)) d ->
  Forall (fun v => length v = 6%nat /\ bytes_ok v) (parse_peers (blist d k)).
Proof.
  intros Hd. unfold parse_peers, blist. destruct (smap_find k d) as [v|] eqn:E; [|constructor].
  apply (smap_find_Forall _ _ _ _ Hd) in E. destruct v as [| |l|]; try constructor.
  cbn [snd] in E. apply bytes_BList in E. induction E as [|x l Hx Hl IH]; [constructor|].
  cbn [flat_map]. apply Forall_app_2; [|done]. destruct x; try constructor.
  destruct (length content =? 6)%nat eqn:E6; b2p; [|constructor]. by apply Forall_singleton.
Qed.

Lemma parse_query_ok now root txn m :
  Forall (fun x => bytes_btype (snd x)) root -> parse_query root txn = Some m -> msg_ok now m.
Proof.
  intros Hr. unfold parse_query. destruct (bdict root (str "a")) as [a|] eqn:Ea; [|done].
  pose proof (bdict_bytes _ _ _ Hr Ea) as Ha.
  assert (forall k, bytes_ok (bstring a k)) as Hb by (intros k; by apply bstring_bytes).
  assert (forall z, 0 <= u16 z < 2 ^ 16) as Hu by (intros z; apply Z.mod_pos_bound; lia).
  assert (forall h, try_from_raw (bstring a (str "info_hash")) = Some h -> ih_ok h) as Hih.
  { intros h Eh. apply try_from_raw_ok in Eh; [|apply Hb]. by destruct Eh. }
  repeat case_match; intros [= <-]; constructor; cbn -[u16]; auto with bt; try done; try lia;
    try (intros [?|?]; done || eauto); try (intros ? [= <-]; by apply Hih); try (split; eauto; done).
Qed.

Lemma parse_response_ok now root txn m :
  Forall (fun x => bytes_btype (snd x)) root -> parse_response now root txn = Some m -> msg_ok now m.
Proof.
  intros Hr. unfold parse_response. destruct (bdict root (str "r")) as [r|] eqn:Er; [|done].
  pose proof (bdict_bytes _ _ _ Hr Er) as Hb.
  set (raw := bstring r (str "nodes")).
  assert (let p := if negb (length raw =? 0)%nat then parse_nodes now raw else ([], []) in
          length (snd p) = length (fst p) /\ Forall (fun e => nid_ok (re_id e) /\ last_seen e = now) (fst p)) as Hp.
  { destruct (negb (length raw =? 0)%nat); cbn [fst snd]; [|split; [done|constructor]].
    destruct (nodes_loop_shape (S (length raw)) now raw 0 ∅ [] []) as (? & ? & _);
      [lia|by apply bstring_bytes|done|constructor|by intros ? ? ?%lookup_empty_Some|]. done. }
  destruct (if negb (length raw =? 0)%nat then _ else _) as [nodes counts]. cbn [fst snd] in Hp.
  destruct Hp as [Hlen Hnodes]. pose proof (bstring_bytes r (str "id") Hb).
  intros [= <-]. constructor; cbn; auto with bt; try done; try lia;
    try (by intros [?|?]); try (by split; [|intros [? ?]]). by apply parse_peers_bytes.
Qed.

Lemma parse_error_ok now root txn : msg_ok now (parse_error root txn).
Proof.
  unfold parse_error. destruct (match blist root (str "e") with Some _ => _ | None => _ end) as [code text].
  constructor; cbn; auto with bt; try done; try lia; try constructor; try (by intros [?|?]); try (by intros [? ?]); try done.
Qed.

Lemma parse_krpc_ok now data m :
  bytes_ok data -> parse_krpc now data = Ok (Some m) -> msg_ok now m.
Proof.
  intros Hd. unfold parse_krpc, parse_value.
  destruct (parse_bencoding_type _ _ _) as [[v pos]|[]] eqn:E; try done.
  apply parse_bytes in E; [|done]. intros [= Hm]. unfold read_message in Hm.
  destruct v as [| | |root]; try done. apply bytes_BDict in E.
  repeat case_match; simplify_eq; eauto using parse_query_ok, parse_response_ok, parse_error_ok.
Qed.

Lemma parse_krpc_throw now data e :
  Z.of_nat (length data) < 2 ^ 62 -> parse_krpc now data = Throw e ->
  (exists w, e = Undefined w) /\ long_number data.
Proof.
  intros Hl. unfold parse_krpc, parse_value. intros E.
  pose proof (parse_no_out_of_fuel (S (length data)) data 0 ltac:(lia)) as Hf.
  pose proof (harmless_parse data Hl (S (length data)) 0) as Hh.
  destruct (parse_bencoding_type _ _ _) as [[v pos]|[]]; simplify_eq; eauto. by destruct Hf.
Qed.
End received.

(** C23: whatever datagram arrives, parsing it ends with a message or a refusal,
    unless the datagram contains a run of twenty or more decimal digits: only then
    can the parser read out of bounds (the wrapped end-of-data test of
    [parse_byte_string]).  An accepted message is safe to use: identifiers and info
    hashes are twenty bytes, a [get_peers] or [announce_peer] query has its info
    hash, the port fits sixteen bits, every node has a proper identifier and the
    current time, every peer value is six bytes. *)
Theorem parse_krpc_safe `{Inet} now data :
  bytes_ok data -> Z.of_nat (length data) < 2 ^ 62 ->
  match parse_krpc now data with
  | Ok (Some m) => msg_ok now m
  | Ok None => True
  | Throw e => (exists w, e = Undefined w) /\ long_number data
  end.
Proof.
  intros Hd Hl. destruct (parse_krpc now data) as [[m|]|e] eqn:E;
    [by eapply parse_krpc_ok|done|by eapply parse_krpc_throw].
Qed.

Lemma parse_krpc_safe_witness :
  bytes_ok (str "d1:rd2:id3:abce1:t1:x1:y1:re") /\
  match @parse_krpc dotted_inet 7 (str "d1:rd2:id3:abce1:t1:x1:y1:re") with
  | Ok (Some m) => m_type m = Response /\ nid_ok (m_sender_id m)
  | _ => False
  end.
Proof.
  split; [apply str_bytes_ok|].
  pose proof (@parse_krpc_safe dotted_inet 7 (str "d1:rd2:id3:abce1:t1:x1:y1:re") (str_bytes_ok _)
    ltac:(vm_compute; reflexivity)) as Hs.
  vm_compute parse_krpc in Hs |- *. split; [reflexivity|]. exact (mok_sender _ _ Hs).
Defined.
