(* ===== verification/LookupManager.v ===== *)
(** * Orchestration of get_peers lookups
    (inc/dht/get_peers_lookup_manager.h, src/dht/get_peers_lookup_manager.cpp)

    One [KademliaLookup] per info hash and the table that routes transaction
    identifiers to lookups.  [random_txn] draws from the stream [draw], of which the
    state keeps the position; [now] is the clock during a call.  Iteration over an
    unordered map is [map_to_list]; the theorems do not depend on its order. *)

From S2P Require Import Prelude CxxLib ByteOrder Bencode Hash Addr NodeId RoutingTable Krpc KademliaLookup.

Definition seconds (n : Z) : Z := n * 10 ^ 9.
Definition GET_PEERS_TXN_TTL : Z := seconds 30.
Definition GET_PEERS_LOOKUP_TTL : Z := minutes 5.
Definition LOOKUP_ALPHA : nat := 6.

Record OutboundKrpc := mkOut { out_msg : bytes; out_pa : PeerAddress }.

Record StartResult := mkStart {
  st_outbound : list OutboundKrpc; started_new : bool; skipped_pending : bool;
  cleared_exhausted : bool; no_candidates : bool; st_completed : bool }.

Record ResponseResult := mkResp {
  txn_known : bool; rr_info_hash : option InfoHash; rr_outbound : list OutboundKrpc; rr_completed : bool }.

Record AdvanceResult := mkAdv { adv_outbound : list OutboundKrpc; adv_completed : bool }.

Record LookupManager := mkMgr {
  pending_lookups : gmap bytes (InfoHash * Z);
  kademlia_lookups : gmap InfoHash KademliaLookup;
  rng_pos : nat;
}.

Definition mgr_new (pos : nat) : LookupManager := mkMgr ∅ ∅ pos.

Section manager.
Context `{DistanceSort} (draw : nat -> Z) (self_id : NodeId).

Definition set_lookup (h : InfoHash) (k : KademliaLookup) (m : LookupManager) : LookupManager :=
  mkMgr (pending_lookups m) (<[h := k]> (kademlia_lookups m)) (rng_pos m).

(** The [n]-th transaction identifier of the stream. *)
Definition txn_at (n : nat) : bytes := random_txn (draw n) (draw (S n)).

(** [lookup_should_finish]: it may merge routing-table nodes into the lookup. *)
Definition lookup_should_finish (rt : RoutingTable) (k : KademliaLookup) (h : InfoHash)
    : bool * KademliaLookup :=
  if has_pending k || negb (all_candidates_queried k) then (false, k) else
  let cs := closest rt (from_info_hash h) RoutingTable.K in
  match cs with
  | [] => (true, k)
  | _ =>
      let k := merge_nodes cs self_id k in
      if negb (all_candidates_queried k) then (false, k) else (true, k)
  end.

(** [finish_lookup] *)
Definition finish_lookup (h : InfoHash) (m : LookupManager) : LookupManager :=
  match kademlia_lookups m !! h with
  | None => m
  | Some k =>
      mkMgr (set_fold delete (pending_lookups m) (pending_txns k))
        (delete h (kademlia_lookups m)) (rng_pos m)
  end.

(** The loop of [advance_lookup] that sends the queries. *)
Fixpoint send_loop (now : Z) (h : InfoHash) (next : list RoutingEntry) (k : KademliaLookup)
    (pend : gmap bytes (InfoHash * Z)) (pos : nat) (out : list OutboundKrpc)
    : KademliaLookup * gmap bytes (InfoHash * Z) * nat * list OutboundKrpc :=
  match next with
  | [] => (k, pend, pos, out)
  | node :: next' =>
      let txn := txn_at pos in
      send_loop now h next' (add_pending_txn txn k) (<[txn := (h, now)]> pend) (pos + 2)
        (out ++ [mkOut (make_get_peers txn self_id h) (re_pa node)])
  end.

(** [advance_lookup] *)
Definition advance_lookup (now : Z) (rt : RoutingTable) (h : InfoHash) (m : LookupManager)
    : AdvanceResult * LookupManager :=
  match kademlia_lookups m !! h with
  | None => (mkAdv [] false, m)
  | Some k =>
      let '(fin, k) := lookup_should_finish rt k h in
      if fin then (mkAdv [] true, finish_lookup h (set_lookup h k m)) else
      let in_flight := pending_count k in
      if (LOOKUP_ALPHA <=? in_flight)%nat then (mkAdv [] false, set_lookup h k m) else
      let '(next, k) := select_next_candidates (LOOKUP_ALPHA - in_flight) k in
      let '(k, pend, pos, out) := send_loop now h next k (pending_lookups m) (rng_pos m) [] in
      let m := mkMgr pend (<[h := k]> (kademlia_lookups m)) pos in
      match out with
      | [] =>
          let '(fin, k) := lookup_should_finish rt k h in
          let m := set_lookup h k m in
          if fin then (mkAdv [] true, finish_lookup h m) else (mkAdv [] false, m)
      | _ => (mkAdv out false, m)
      end
  end.

(** [expire_pending_lookups_locked] *)
Definition expire_pending_lookups (now : Z) (m : LookupManager) : LookupManager :=
  let expired := filter (fun x => GET_PEERS_TXN_TTL <= now - snd (snd x)) (map_to_list (pending_lookups m)) in
  mkMgr (foldr (fun x p => delete (fst x) p) (pending_lookups m) expired)
    (foldr (fun x ls => alter (remove_pending_txn (fst x)) (fst (snd x)) ls) (kademlia_lookups m) expired)
    (rng_pos m).

(** [expire_active_lookups_locked] *)
Definition expire_active_lookups (now : Z) (m : LookupManager) : LookupManager :=
  let expired := filter (fun x => GET_PEERS_LOOKUP_TTL <= now - started (snd x)) (map_to_list (kademlia_lookups m)) in
  mkMgr (foldr (fun x p => set_fold delete p (pending_txns (snd x))) (pending_lookups m) expired)
    (foldr (fun x ls => delete (fst x) ls) (kademlia_lookups m) expired)
    (rng_pos m).

(** [start_or_advance] *)
Definition start_or_advance (now : Z) (rt : RoutingTable) (h : InfoHash) (m : LookupManager)
    : StartResult * LookupManager :=
  let cs := closest rt (from_info_hash h) RoutingTable.K in
  match cs with
  | [] => (mkStart [] false false false true false, m)
  | _ =>
      let m := expire_active_lookups now (expire_pending_lookups now m) in
      let '(res, m) :=
        match kademlia_lookups m !! h with
        | None => (mkStart [] false false false false false, m)
        | Some k =>
            if has_pending k then (mkStart [] false true false false false, m) else
            let '(fin, k) := lookup_should_finish rt k h in
            let m := set_lookup h k m in
            if fin then (mkStart [] false false true false true, finish_lookup h m)
            else let '(adv, m) := advance_lookup now rt h m in
                 (mkStart (adv_outbound adv) false false false false (adv_completed adv), m)
        end in
      if (length (st_outbound res) =? 0)%nat && negb (bool_decide (is_Some (kademlia_lookups m !! h))) then
        let m := set_lookup h (lookup_new now h cs) m in
        let '(adv, m) := advance_lookup now rt h m in
        (mkStart (adv_outbound adv) true (skipped_pending res) (cleared_exhausted res) false
           (adv_completed adv), m)
      else (res, m)
  end.

Definition info_hash_for_txn (txn : bytes) (m : LookupManager) : option InfoHash :=
  fst <$> pending_lookups m !! txn.

(** [on_lookup_response] *)
Definition on_lookup_response (rt : RoutingTable) (msg : KrpcMessage) (h : InfoHash) (m : LookupManager)
    : LookupManager :=
  match kademlia_lookups m !! h with
  | None => m
  | Some k =>
      let k := merge_nodes (m_nodes msg) self_id (remove_pending_txn (m_txn msg) k) in
      let '(fin, k) := lookup_should_finish rt k h in
      let m := set_lookup h k m in
      if fin then finish_lookup h m else m
  end.

(** [on_response].  The source erases the answered binding at the end through the iterator
    it found at the start, which a rehash on the insertions of [advance_lookup] may have
    invalidated; here it is erased by its key. *)
Definition on_response (now : Z) (rt : RoutingTable) (msg : KrpcMessage) (m : LookupManager)
    : ResponseResult * LookupManager :=
  match pending_lookups m !! m_txn msg with
  | None => (mkResp false None [] false, m)
  | Some (h, _) =>
      let '(out, completed, m) :=
        if bool_decide (is_Some (kademlia_lookups m !! h)) then
          let m := on_lookup_response rt msg h m in
          if bool_decide (is_Some (kademlia_lookups m !! h)) then
            let '(adv, m) := advance_lookup now rt h m in
            (adv_outbound adv, adv_completed adv, m)
          else ([], true, m)
        else ([], false, m) in
      (mkResp true (Some h) out completed,
       mkMgr (delete (m_txn msg) (pending_lookups m)) (kademlia_lookups m) (rng_pos m))
  end.

Definition has_pending_lookup (h : InfoHash) (m : LookupManager) : bool :=
  match kademlia_lookups m !! h with
  | Some k => has_pending k
  | None => false
  end || existsb (fun x => bool_decide (fst (snd x) = h)) (map_to_list (pending_lookups m)).

(** [tick]: the hashes active at its start, each advanced in turn. *)
Definition tick (now : Z) (rt : RoutingTable) (m : LookupManager) : list OutboundKrpc * LookupManager :=
  let m := expire_pending_lookups now m in
  let hashes := map fst (map_to_list (kademlia_lookups m)) in
  fold_left (fun acc h => let '(adv, m) := advance_lookup now rt h (snd acc) in
                          (fst acc ++ adv_outbound adv, m)) hashes ([], m).
End manager.

(** ** Updates of the two maps *)

Lemma lookup_set_fold_delete {A} (m : gmap bytes A) (X : gset bytes) t :
  (t ∈ X -> set_fold delete m X !! t = None) /\ (t ∉ X -> set_fold delete m X !! t = m !! t).
Proof.
  apply (set_fold_ind_L (fun (r : gmap bytes A) (X : gset bytes) =>
           (t ∈ X -> r !! t = None) /\ (t ∉ X -> r !! t = m !! t))).
  - split; [set_solver|done].
  - intros x Y r Hx [IH1 IH2]. destruct (decide (t = x)) as [->|Hne].
    + rewrite lookup_delete_eq. split; [done|set_solver].
    + rewrite lookup_delete_ne by done. split; intros Ht; [apply IH1|apply IH2]; set_solver.
Qed.

Lemma foldr_delete_keys {K V W} `{Countable K} (m : gmap K V) (l : list (K * W)) t :
  (t ∈ map fst l -> foldr (fun x p => delete (fst x) p) m l !! t = None) /\
  (t ∉ map fst l -> foldr (fun x p => delete (fst x) p) m l !! t = m !! t).
Proof.
  induction l as [|[k w] l [IH1 IH2]]; cbn [foldr map fst].
  { split; [by intros ?%not_elem_of_nil|done]. }
  rewrite elem_of_cons. destruct (decide (t = k)) as [->|Hne].
  - rewrite lookup_delete_eq. split; [done|tauto].
  - rewrite lookup_delete_ne by done. split; intros Ht; [apply IH1|apply IH2]; tauto.
Qed.

Section facts.
Context `{DistanceSort} (draw : nat -> Z) (self_id : NodeId).

(** What does not change when a lookup is merged, replenished or selects. *)
Definition same_flight (k k' : KademliaLookup) : Prop :=
  info_hash k' = info_hash k /\ pending_txns k' = pending_txns k.

Lemma should_finish_flight rt k h : same_flight k (snd (lookup_should_finish self_id rt k h)).
Proof.
  unfold lookup_should_finish, same_flight. repeat (case_match; cbn [snd]; try done).
Qed.

Lemma should_finish_no_pending rt k h :
  fst (lookup_should_finish self_id rt k h) = true -> pending_txns k = ∅.
Proof.
  unfold lookup_should_finish. destruct (has_pending k || _) eqn:E; [done|]. intros _. b2p.
  unfold has_pending in *. by b2p.
Qed.

Lemma select_flight count k :
  same_flight k (snd (select_next_candidates count k)) /\
  (length (fst (select_next_candidates count k)) <= count)%nat.
Proof.
  destruct (select_next_candidates count k) as [sel k'] eqn:E.
  pose proof (select_next_spec _ _ _ _ E) as (_ & Hl & _). split; [|done].
  unfold select_next_candidates in E. destruct (select_loop _ _ _ _). by injection E as <- <-.
Qed.

(** The identifiers drawn for [n] queries from position [pos] on. *)
Definition drawn (pos n : nat) : list bytes := map (fun i => txn_at draw (pos + 2 * i)) (seq 0 n).

Lemma drawn_cons pos n : drawn pos (S n) = txn_at draw pos :: drawn (pos + 2) n.
Proof.
  unfold drawn. cbn [seq map]. f_equal; [f_equal; lia|]. rewrite <- seq_shift, map_map.
  apply map_ext. intros i. f_equal. lia.
Qed.

Lemma send_loop_spec now h next k pend pos out :
  let '(k', pend', pos', out') := send_loop draw self_id now h next k pend pos out in
  info_hash k' = info_hash k /\
  pending_txns k' = list_to_set (drawn pos (length next)) ∪ pending_txns k /\
  (forall t, (t ∈ drawn pos (length next) -> pend' !! t = Some (h, now)) /\
             (t ∉ drawn pos (length next) -> pend' !! t = pend !! t)) /\
  pos' = (pos + 2 * length next)%nat /\
  map out_pa out' = map out_pa out ++ map re_pa next /\ length out' = (length out + length next)%nat.
Proof.
  revert k pend pos out. induction next as [|n next IH]; intros k pend pos out; cbn [send_loop].
  { cbn [length]. split; [done|]. split; [unfold drawn; cbn; set_solver|]. split.
    - intros t. split; [|done]. unfold drawn. by intros ?%not_elem_of_nil.
    - split; [lia|]. rewrite app_nil_r. split; [done|lia]. }
  specialize (IH (add_pending_txn (txn_at draw pos) k) (<[txn_at draw pos := (h, now)]> pend) (pos + 2)%nat
                (out ++ [mkOut (make_get_peers (txn_at draw pos) self_id h) (re_pa n)])).
  destruct (send_loop _ _ _ _ _ _ _ _ _) as [[[k' pend'] pos'] out'].
  destruct IH as (H1 & H2 & H3 & H4 & H5 & H6). cbn [length]. rewrite drawn_cons.
  split; [done|]. split; [rewrite H2; cbn [add_pending_txn pending_txns list_to_set]; set_solver|]. split.
  - intros t. destruct (H3 t) as [H3a H3b]. rewrite elem_of_cons.
    destruct (decide (t ∈ drawn (pos + 2) (length next))) as [Hin|Hin]; [split; [by intros _; apply H3a|tauto]|].
    rewrite H3b by done. destruct (decide (t = txn_at draw pos)) as [->|Hne].
    + rewrite lookup_insert_eq. split; [done|tauto].
    + rewrite lookup_insert_ne by done. split; [tauto|done].
  - split; [lia|]. rewrite map_app in H5. rewrite H5, <- app_assoc. split; [done|].
    rewrite length_app in H6. cbn [length] in H6. lia.
Qed.

(** ** At most [LOOKUP_ALPHA] queries in flight *)

Definition lookup_bounded (h : InfoHash) (k : KademliaLookup) : Prop :=
  info_hash k = h /\ (pending_count k <= LOOKUP_ALPHA)%nat.

Definition bounded (m : LookupManager) : Prop :=
  map_Forall lookup_bounded (kademlia_lookups m).

Lemma bounded_set h k m : lookup_bounded h k -> bounded m -> bounded (set_lookup h k m).
Proof. intros Hk Hm. by apply map_Forall_insert_2. Qed.

Lemma bounded_finish h m : bounded m -> bounded (finish_lookup h m).
Proof.
  intros Hm. unfold finish_lookup. destruct (kademlia_lookups m !! h); [|done].
  by apply map_Forall_delete.
Qed.

Lemma same_flight_bounded h k k' : same_flight k k' -> lookup_bounded h k -> lookup_bounded h k'.
Proof. intros [H1 H2] [H3 H4]. unfold lookup_bounded, pending_count in *. by rewrite H1, H2. Qed.

Lemma size_union_list (l : list bytes) (X : gset bytes) :
  (size (list_to_set l ∪ X) <= length l + size X)%nat.
Proof.
  induction l as [|x l IH]; cbn [list_to_set length]; [replace (∅ ∪ X) with X by set_solver; lia|].
  replace ({[x]} ∪ list_to_set l ∪ X) with ({[x]} ∪ (list_to_set l ∪ X)) by set_solver.
  pose proof (size_union_alt {[x]} (list_to_set l ∪ X)) as E.
  assert (size ((list_to_set l ∪ X) ∖ {[x]}) <= size (list_to_set l ∪ X))%nat
    by (apply subseteq_size; set_solver).
  rewrite size_singleton in E. lia.
Qed.

Lemma advance_bounded now rt h m :
  bounded m -> bounded (snd (advance_lookup draw self_id now rt h m)).
Proof.
  intros Hm. unfold advance_lookup. destruct (kademlia_lookups m !! h) as [k|] eqn:Ek; [|done].
  pose proof (Hm h k Ek) as Hk.
  pose proof (should_finish_flight rt k h) as Hf. destruct (lookup_should_finish self_id rt k h) as [fin k1].
  cbn [snd] in Hf. apply (same_flight_bounded h) in Hf; [|done].
  destruct fin; [by apply bounded_finish, bounded_set|].
  destruct (LOOKUP_ALPHA <=? pending_count k1)%nat eqn:Ea; [by apply bounded_set|]. b2p.
  pose proof (select_flight (LOOKUP_ALPHA - pending_count k1) k1) as [Hs Hlen].
  destruct (select_next_candidates _ k1) as [next k2]. cbn [fst snd] in *.
  pose proof (send_loop_spec now h next k2 (pending_lookups m) (rng_pos m) []) as Hsend.
  destruct (send_loop _ _ _ _ _ _ _ _ _) as [[[k3 pend] pos] out].
  destruct Hsend as (H1 & H2 & _ & _ & _ & _).
  assert (lookup_bounded h k3) as Hk3.
  { destruct Hs as [Hs1 Hs2], Hf as [Hf1 Hf2]. split; [congruence|]. unfold pending_count in *.
    rewrite H2, Hs2. pose proof (size_union_list (drawn (rng_pos m) (length next)) (pending_txns k1)) as Hu.
    unfold drawn in Hu at 2. rewrite length_map, length_seq in Hu. lia. }
  assert (bounded (mkMgr pend (<[h:=k3]> (kademlia_lookups m)) pos)) as Hm'
    by (by apply map_Forall_insert_2).
  destruct out; [|done].
  pose proof (should_finish_flight rt k3 h) as Hf'. destruct (lookup_should_finish self_id rt k3 h) as [fin k4].
  cbn [snd] in Hf'. apply (same_flight_bounded h) in Hf'; [|done].
  destruct fin; cbn [snd]; [apply bounded_finish|]; by apply bounded_set.
Qed.

Lemma remove_bounded h t k : lookup_bounded h k -> lookup_bounded h (remove_pending_txn t k).
Proof.
  intros [H1 H2]. split; [done|]. etransitivity; [|exact H2]. unfold pending_count. cbn.
  apply subseteq_size. set_solver.
Qed.

Lemma expire_pending_bounded now m : bounded m -> bounded (expire_pending_lookups now m).
Proof.
  intros Hm. unfold expire_pending_lookups, bounded. cbn [kademlia_lookups].
  induction (filter _ _) as [|[t [h ts]] l IH]; [done|]. cbn [foldr fst snd].
  intros h' k. destruct (decide (h = h')) as [<-|Hne].
  - rewrite lookup_alter_eq. intros (k0 & E & ->)%fmap_Some_1. apply remove_bounded. by apply IH.
  - rewrite lookup_alter_ne by done. apply IH.
Qed.

Lemma expire_active_bounded now m : bounded m -> bounded (expire_active_lookups now m).
Proof.
  intros Hm h k. unfold expire_active_lookups. cbn [kademlia_lookups].
  destruct (foldr_delete_keys (kademlia_lookups m) (filter (fun x => GET_PEERS_LOOKUP_TTL <= now - started (snd x))
              (map_to_list (kademlia_lookups m))) h) as [H1 H2].
  destruct (decide (h ∈ map fst (filter (fun x => GET_PEERS_LOOKUP_TTL <= now - started (snd x))
              (map_to_list (kademlia_lookups m))))) as [Hin|Hin].
  - by rewrite H1.
  - rewrite H2 by done. apply Hm.
Qed.

Lemma on_lookup_response_bounded rt msg h m :
  bounded m -> bounded (on_lookup_response self_id rt msg h m).
Proof.
  intros Hm. unfold on_lookup_response. destruct (kademlia_lookups m !! h) as [k|] eqn:Ek; [|done].
  set (k1 := merge_nodes _ _ _). assert (lookup_bounded h k1) as Hk1 by (apply (remove_bounded h (m_txn msg)), Hm, Ek).
  pose proof (should_finish_flight rt k1 h) as Hf. destruct (lookup_should_finish self_id rt k1 h) as [fin k2].
  cbn [snd] in Hf. apply (same_flight_bounded h) in Hf; [|done].
  destruct fin; [apply bounded_finish|]; by apply bounded_set.
Qed.

Lemma on_response_bounded now rt msg m :
  bounded m -> bounded (snd (on_response draw self_id now rt msg m)).
Proof.
  intros Hm. unfold on_response. destruct (pending_lookups m !! m_txn msg) as [[h t]|]; [|done].
  pose proof (on_lookup_response_bounded rt msg h m Hm) as Hm1.
  case_bool_decide; [|done]. case_bool_decide; [|done].
  pose proof (advance_bounded now rt h _ Hm1) as Hm2.
  by destruct (advance_lookup _ _ _ _ _ _) as [adv m2].
Qed.

Lemma lookup_new_bounded now h cs : lookup_bounded h (lookup_new now h cs).
Proof. split; [done|]. unfold pending_count. cbn. rewrite size_empty. lia. Qed.

Lemma start_bounded now rt h m :
  bounded m -> bounded (snd (start_or_advance draw self_id now rt h m)).
Proof.
  intros Hm. unfold start_or_advance. destruct (closest _ _ _) as [|c cs]; [done|].
  apply (expire_pending_bounded now), (expire_active_bounded now) in Hm.
  set (m1 := expire_active_lookups now (expire_pending_lookups now m)) in *.
  assert (forall res m2, bounded m2 -> bounded (snd (
    if (length (st_outbound res) =? 0)%nat && negb (bool_decide (is_Some (kademlia_lookups m2 !! h))) then
        let m := set_lookup h (lookup_new now h (c :: cs)) m2 in
        let '(adv, m) := advance_lookup draw self_id now rt h m in
        (mkStart (adv_outbound adv) true (skipped_pending res) (cleared_exhausted res) false
           (adv_completed adv), m)
      else (res, m2)))) as Hnew.
  { intros res m2 Hm2. case_if; [|done]. cbv zeta.
    pose proof (advance_bounded now rt h _ (bounded_set h _ m2 (lookup_new_bounded now h (c :: cs)) Hm2)) as Hb.
    by destruct (advance_lookup _ _ _ _ _ _). }
  destruct (kademlia_lookups m1 !! h) as [k|] eqn:Ek; [|by apply Hnew].
  destruct (has_pending k); [by apply Hnew|].
  pose proof (should_finish_flight rt k h) as Hf. destruct (lookup_should_finish self_id rt k h) as [fin k2].
  cbn [snd] in Hf. apply (same_flight_bounded h) in Hf; [|by apply Hm].
  pose proof (bounded_set h k2 m1 Hf Hm) as Hset.
  destruct fin; [by apply Hnew, bounded_finish|].
  pose proof (advance_bounded now rt h _ Hset) as Hadv.
  destruct (advance_lookup _ _ _ _ _ _) as [adv m2]. by apply Hnew.
Qed.

Lemma tick_bounded now rt m : bounded m -> bounded (snd (tick draw self_id now rt m)).
Proof.
  intros Hm. unfold tick. apply (expire_pending_bounded now) in Hm.
  generalize (map fst (map_to_list (kademlia_lookups (expire_pending_lookups now m)))).
  assert (bounded (snd (@nil OutboundKrpc, expire_pending_lookups now m))) as Hm0 by done.
  revert Hm0. generalize (@nil OutboundKrpc, expire_pending_lookups now m). intros acc Hacc hs. revert acc Hacc.
  induction hs as [|h hs IH]; intros acc Hacc; [done|]. cbn [fold_left]. apply IH.
  pose proof (advance_bounded now rt h _ Hacc) as Hb. by destruct (advance_lookup _ _ _ _ _ _).
Qed.

(** The public calls that change the state, each with the clock and the routing
    table at that moment. *)
Inductive mgr_op :=
  | MStart (now : Z) (rt : RoutingTable) (h : InfoHash)
  | MResponse (now : Z) (rt : RoutingTable) (msg : KrpcMessage)
  | MTick (now : Z) (rt : RoutingTable)
  | MExpirePending (now : Z)
  | MExpireActive (now : Z).

Definition mgr_step (m : LookupManager) (o : mgr_op) : LookupManager :=
  match o with
  | MStart now rt h => snd (start_or_advance draw self_id now rt h m)
  | MResponse now rt msg => snd (on_response draw self_id now rt msg m)
  | MTick now rt => snd (tick draw self_id now rt m)
  | MExpirePending now => expire_pending_lookups now m
  | MExpireActive now => expire_active_lookups now m
  end.

Lemma mgr_step_bounded m o : bounded m -> bounded (mgr_step m o).
Proof.
  destruct o; cbn [mgr_step]; auto using start_bounded, on_response_bounded, tick_bounded,
    expire_pending_bounded, expire_active_bounded.
Qed.

Lemma mgr_run_bounded ops m : bounded m -> bounded (fold_left mgr_step ops m).
Proof. revert m. induction ops as [|o ops IH]; intros m Hm; [done|]. by apply IH, mgr_step_bounded. Qed.

(** ** Routing of replies *)

(** Every query a lookup waits for is routed to it. *)
Definition routed (m : LookupManager) : Prop :=
  forall h k t, kademlia_lookups m !! h = Some k -> t ∈ pending_txns k ->
    exists ts, pending_lookups m !! t = Some (h, ts).

(** The next [n] identifiers are distinct and none of them is in use. *)
Definition fresh (n : nat) (m : LookupManager) : Prop :=
  NoDup (drawn (rng_pos m) n) /\ forall t, t ∈ drawn (rng_pos m) n -> pending_lookups m !! t = None.

(** [m'] follows from [m] by drawing at most [used] identifiers: it binds none but
    those, and no lookup waits for an identifier it did not wait for before but
    those. *)
Definition evolves (used : nat) (m m' : LookupManager) : Prop :=
  exists s, (s <= used)%nat /\ rng_pos m' = (rng_pos m + 2 * s)%nat /\
    (forall t, is_Some (pending_lookups m' !! t) ->
       is_Some (pending_lookups m !! t) \/ t ∈ drawn (rng_pos m) s) /\
    (forall h k t, kademlia_lookups m' !! h = Some k -> t ∈ pending_txns k ->
       t ∈ drawn (rng_pos m) s \/ exists k0, kademlia_lookups m !! h = Some k0 /\ t ∈ pending_txns k0).

Lemma drawn_split pos s n : drawn pos (s + n) = drawn pos s ++ drawn (pos + 2 * s)%nat n.
Proof.
  revert pos. induction s as [|s IH]; intros pos; [by rewrite Nat.mul_0_r, Nat.add_0_r|].
  cbn [Nat.add]. rewrite !drawn_cons, IH. cbn [app]. do 3 f_equal. lia.
Qed.

Lemma drawn_le pos n n' t : (n <= n')%nat -> t ∈ drawn pos n -> t ∈ drawn pos n'.
Proof.
  intros Hle. replace n' with (n + (n' - n))%nat by lia. rewrite drawn_split.
  intros Ht. apply elem_of_app. by left.
Qed.

Lemma evolves_refl m : evolves 0 m m.
Proof. exists 0%nat. split; [lia|]. split; [lia|]. split; [auto|]. intros h k t Hk Ht. right. eauto. Qed.

Lemma evolves_weaken a b m m' : (a <= b)%nat -> evolves a m m' -> evolves b m m'.
Proof. intros Hle (s & ? & ?). exists s. split; [lia|done]. Qed.

Lemma evolves_trans a b m m1 m2 : evolves a m m1 -> evolves b m1 m2 -> evolves (a + b) m m2.
Proof.
  intros (s & Hs & Hp & Hb & Hw) (s' & Hs' & Hp' & Hb' & Hw'). exists (s + s')%nat.
  split; [lia|]. split; [lia|]. rewrite drawn_split, <- Hp. split.
  - intros t Ht. rewrite elem_of_app. destruct (Hb' t Ht) as [Ht1|Hin]; [destruct (Hb t Ht1)|]; tauto.
  - intros h k t Hk Ht. rewrite elem_of_app. destruct (Hw' h k t Hk Ht) as [?|(k0 & Hk0 & Ht0)]; [tauto|].
    destruct (Hw h k0 t Hk0 Ht0); tauto.
Qed.

(** A fresh window minus the identifiers used is a fresh window. *)
Lemma evolves_fresh used n m m' : evolves used m m' -> fresh (used + n) m -> fresh n m'.
Proof.
  intros (s & Hs & Hpos & Hp & _) [Hnd Hf]. unfold fresh. rewrite Hpos.
  assert (drawn (rng_pos m) (used + n) = drawn (rng_pos m) s ++ drawn (rng_pos m + 2 * s)%nat n ++
            drawn (rng_pos m + 2 * s + 2 * n)%nat (used - s)) as E.
  { rewrite <- !drawn_split. f_equal. lia. }
  rewrite E in Hnd, Hf. apply NoDup_app in Hnd as (_ & Hdisj & Hnd). apply NoDup_app in Hnd as (Hnd & _ & _).
  split; [done|]. intros t Ht. destruct (pending_lookups m' !! t) eqn:Et; [|done]. exfalso.
  destruct (Hp t) as [[? Hold]|Hin]; [eauto| |].
  - rewrite Hf in Hold; [done|]. apply elem_of_app. right. apply elem_of_app. by left.
  - apply (Hdisj t Hin). apply elem_of_app. by left.
Qed.

(** An identifier bound and waited for by nobody stays so. *)
Definition idle (t : bytes) (m : LookupManager) : Prop :=
  forall h k, kademlia_lookups m !! h = Some k -> t ∉ pending_txns k.

Lemma evolves_idle used t m m' :
  evolves used m m' -> fresh used m -> is_Some (pending_lookups m !! t) -> idle t m -> idle t m'.
Proof.
  intros (s & Hs & _ & _ & Hw) [_ Hf] [b Hb] Hi h k Hk Ht.
  destruct (Hw h k t Hk Ht) as [Hd|(k0 & Hk0 & Ht0)]; [|by apply (Hi h k0)].
  rewrite Hf in Hb; [done|]. by eapply drawn_le.
Qed.

(** ** Each step keeps the routing *)

Definition keeps (used : nat) (m m' : LookupManager) : Prop := routed m' /\ evolves used m m'.

Lemma set_lookup_keeps h k k' m :
  routed m -> kademlia_lookups m !! h = Some k -> pending_txns k' ⊆ pending_txns k ->
  keeps 0 m (set_lookup h k' m).
Proof.
  intros Hr Hk Hf. split.
  - intros h2 k2 t. unfold set_lookup. cbn. destruct (decide (h = h2)) as [<-|Hne].
    + rewrite lookup_insert_eq. intros [= <-] Ht. apply (Hr h k t Hk). by apply Hf.
    + rewrite lookup_insert_ne by done. apply Hr.
  - exists 0%nat. split; [lia|]. split; [unfold set_lookup; cbn; lia|]. split; [auto|].
    intros h2 k2 t. unfold set_lookup. cbn. destruct (decide (h = h2)) as [<-|Hne].
    + rewrite lookup_insert_eq. intros [= <-] Ht. right. exists k. split; [done|by apply Hf].
    + rewrite lookup_insert_ne by done. right. eauto.
Qed.

Lemma finish_keeps h m : routed m -> keeps 0 m (finish_lookup h m).
Proof.
  intros Hr. unfold finish_lookup. destruct (kademlia_lookups m !! h) as [k|] eqn:Ek;
    [|split; [done|apply evolves_refl]].
  split.
  - intros h2 k2 t. cbn. rewrite lookup_delete_Some. intros [Hne Hk2] Ht.
    destruct (Hr h2 k2 t Hk2 Ht) as [ts Hts]. exists ts.
    rewrite (proj2 (lookup_set_fold_delete _ _ _)); [done|]. intros Htk.
    destruct (Hr h k t Ek Htk) as [ts' Hts']. congruence.
  - exists 0%nat. split; [lia|]. split; [cbn; lia|]. split.
    + intros t. cbn. destruct (lookup_set_fold_delete (pending_lookups m) (pending_txns k) t) as [H1 H2].
      destruct (decide (t ∈ pending_txns k)); [rewrite H1 by done; by intros [? ?]|rewrite H2 by done; auto].
    + intros h2 k2 t. cbn. rewrite lookup_delete_Some. intros [_ Hk2] Ht. right. eauto.
Qed.

Lemma keeps_trans a b m m1 m2 : keeps a m m1 -> keeps b m1 m2 -> keeps (a + b) m m2.
Proof. intros [_ H1] [H2 H3]. split; [done|by eapply evolves_trans]. Qed.

(** Sending queries with fresh identifiers. *)
Lemma send_keeps now h next k m :
  routed m -> fresh (length next) m -> kademlia_lookups m !! h = Some k ->
  let '(k', pend, pos, _) := send_loop draw self_id now h next k (pending_lookups m) (rng_pos m) [] in
  keeps (length next) m (mkMgr pend (<[h := k']> (kademlia_lookups m)) pos).
Proof.
  intros Hr [_ Hfresh] Hk.
  pose proof (send_loop_spec now h next k (pending_lookups m) (rng_pos m) []) as Hs.
  destruct (send_loop _ _ _ _ _ _ _ _ _) as [[[k' pend] pos] out]. destruct Hs as (_ & H2 & H3 & H4 & _ & _).
  assert (forall t ts h', pending_lookups m !! t = Some (h', ts) -> pend !! t = Some (h', ts)) as Hold.
  { intros t ts h' Ht. rewrite (proj2 (H3 t)); [done|]. intros Hd. rewrite Hfresh in Ht; done. }
  split.
  - intros h2 k2 t. cbn. destruct (decide (h = h2)) as [<-|Hne].
    + rewrite lookup_insert_eq. intros [= <-]. rewrite H2, elem_of_union, elem_of_list_to_set.
      intros [Hd|Ht]; [exists now; by apply H3|]. destruct (Hr h k t Hk Ht) as [ts Hts]. eauto.
    + rewrite lookup_insert_ne by done. intros Hk2 Ht. destruct (Hr h2 k2 t Hk2 Ht) as [ts Hts]. eauto.
  - exists (length next). split; [lia|]. split; [done|]. split; cbn.
    + intros t Ht. destruct (decide (t ∈ drawn (rng_pos m) (length next))) as [?|Hn]; [by right|].
      rewrite (proj2 (H3 t)) in Ht by done. by left.
    + intros h2 k2 t. destruct (decide (h = h2)) as [<-|Hne].
      * rewrite lookup_insert_eq. intros [= <-]. rewrite H2, elem_of_union, elem_of_list_to_set.
        intros [?|?]; [by left|right; eauto].
      * rewrite lookup_insert_ne by done. right. eauto.
Qed.

Lemma fresh_le a b m : (a <= b)%nat -> fresh b m -> fresh a m.
Proof.
  intros Hle [Hnd Hf]. replace b with (a + (b - a))%nat in Hnd by lia. rewrite drawn_split in Hnd.
  apply NoDup_app in Hnd as (Hnd & _ & _). split; [done|]. intros t Ht. apply Hf. by eapply drawn_le.
Qed.

Lemma should_finish_keeps rt k h m :
  routed m -> kademlia_lookups m !! h = Some k ->
  let '(fin, k') := lookup_should_finish self_id rt k h in
  keeps 0 m (if fin : bool then finish_lookup h (set_lookup h k' m) else set_lookup h k' m).
Proof.
  intros Hr Hk. pose proof (should_finish_flight rt k h) as [_ Hf].
  destruct (lookup_should_finish self_id rt k h) as [fin k']. cbn [snd] in Hf.
  assert (keeps 0 m (set_lookup h k' m)) as Hs by (eapply set_lookup_keeps; [done..|by rewrite Hf]).
  destruct fin; [|done]. apply (keeps_trans 0 0 _ (set_lookup h k' m)); [done|]. apply finish_keeps, Hs.
Qed.

(** One query per fresh identifier, at most [LOOKUP_ALPHA] of them. *)
Lemma advance_keeps_exact now rt h m :
  routed m -> fresh LOOKUP_ALPHA m ->
  let r := advance_lookup draw self_id now rt h m in
  keeps (length (adv_outbound (fst r))) m (snd r) /\ (length (adv_outbound (fst r)) <= LOOKUP_ALPHA)%nat.
Proof.
  intros Hr Hfr. unfold advance_lookup.
  destruct (kademlia_lookups m !! h) as [k|] eqn:Ek; [|split; [split; [done|apply evolves_refl]|cbn; lia]].
  pose proof (should_finish_keeps rt k h m Hr Ek) as Hs1.
  destruct (lookup_should_finish self_id rt k h) as [fin k1]. destruct fin; [split; [done|cbn; lia]|].
  destruct (LOOKUP_ALPHA <=? pending_count k1)%nat eqn:Ea; [split; [done|cbn; lia]|]. b2p.
  set (m1 := set_lookup h k1 m) in *.
  pose proof (select_flight (LOOKUP_ALPHA - pending_count k1) k1) as [[_ Hsel] Hlen].
  destruct (select_next_candidates _ k1) as [next k2]. cbn [fst snd] in *.
  set (m2 := set_lookup h k2 m1).
  assert (keeps 0 m1 m2) as Hs2.
  { eapply set_lookup_keeps; [apply Hs1|unfold m1, set_lookup; cbn; apply lookup_insert_eq|by rewrite Hsel]. }
  pose proof (keeps_trans 0 0 _ _ _ Hs1 Hs2) as Hs12.
  assert (fresh (length next) m2) as Hfr3.
  { eapply fresh_le; [|eapply (evolves_fresh 0 LOOKUP_ALPHA); [apply Hs12|done]]. lia. }
  pose proof (send_keeps now h next k2 m2 (proj1 Hs12) Hfr3) as Hsend.
  pose proof (send_loop_spec now h next k2 (pending_lookups m) (rng_pos m) []) as Hspec.
  change (pending_lookups m2) with (pending_lookups m) in Hsend.
  change (rng_pos m2) with (rng_pos m) in Hsend.
  destruct (send_loop _ _ _ _ _ _ _ _ _) as [[[k3 pend] pos] out].
  destruct Hspec as (_ & _ & _ & _ & _ & Hout). cbn [length Nat.add] in Hout.
  assert (keeps (length next) m2 (mkMgr pend (<[h:=k3]> (kademlia_lookups m)) pos)) as Hs3.
  { assert (<[h:=k3]> (kademlia_lookups m2) = <[h:=k3]> (kademlia_lookups m)) as E
      by (unfold m2, m1, set_lookup; cbn; by rewrite !insert_insert_eq).
    rewrite <- E. apply Hsend. apply lookup_insert_eq. }
  pose proof (keeps_trans _ _ _ _ _ Hs12 Hs3) as Hs13. cbn [Nat.add] in Hs13.
  destruct out as [|o out]; [|cbn [fst snd adv_outbound]; rewrite Hout; split; [done|lia]].
  rewrite <- Hout in Hs13.
  pose proof (should_finish_keeps rt k3 h _ (proj1 Hs13) (lookup_insert_eq _ _ _)) as Hs4.
  destruct (lookup_should_finish self_id rt k3 h) as [fin k4].
  pose proof (keeps_trans _ _ _ _ _ Hs13 Hs4) as Hs14. destruct fin; (split; [done|cbn; lia]).
Qed.

Lemma advance_keeps now rt h m :
  routed m -> fresh LOOKUP_ALPHA m -> keeps LOOKUP_ALPHA m (snd (advance_lookup draw self_id now rt h m)).
Proof.
  intros Hr Hf. destruct (advance_keeps_exact now rt h m Hr Hf) as [[? He] Hle]. split; [done|].
  by eapply evolves_weaken.
Qed.

(** ** Expiry *)

Lemma foldr_alter_lookup (l : list (bytes * (InfoHash * Z))) (ls : gmap InfoHash KademliaLookup) h k :
  foldr (fun x ls => alter (remove_pending_txn (fst x)) (fst (snd x)) ls) ls l !! h = Some k ->
  exists k0, ls !! h = Some k0 /\ pending_txns k ⊆ pending_txns k0 /\
    forall t ts, (t, (h, ts)) ∈ l -> t ∉ pending_txns k.
Proof.
  revert k. induction l as [|[t [h' ts]] l IH]; intros k; cbn [foldr fst snd].
  { intros Hk. exists k. split; [done|]. split; [done|]. by intros ? ? ?%not_elem_of_nil. }
  destruct (decide (h' = h)) as [->|Hne].
  - rewrite lookup_alter_eq. intros (k1 & Hk1 & ->)%fmap_Some_1.
    destruct (IH k1 Hk1) as (k0 & Hk0 & Hsub & Hrem). exists k0. split; [done|]. cbn.
    split; [set_solver|]. intros t2 ts2. rewrite elem_of_cons. intros [[= -> ->]|Hin]; [set_solver|].
    specialize (Hrem _ _ Hin). set_solver.
  - rewrite lookup_alter_ne by done. intros Hk. destruct (IH k Hk) as (k0 & Hk0 & Hsub & Hrem).
    exists k0. split; [done|]. split; [done|]. intros t2 ts2. rewrite elem_of_cons.
    intros [[= -> -> ->]|Hin]; [done|]. by eapply Hrem.
Qed.

Lemma expire_pending_keeps now m : routed m -> keeps 0 m (expire_pending_lookups now m).
Proof.
  intros Hr. unfold expire_pending_lookups.
  set (l := filter _ (map_to_list (pending_lookups m))).
  split.
  - intros h k t Hk Ht. cbn in *. destruct (foldr_alter_lookup l _ h k Hk) as (k0 & Hk0 & Hsub & Hrem).
    destruct (Hr h k0 t Hk0 (Hsub t Ht)) as [ts Hts]. exists ts.
    rewrite (proj2 (foldr_delete_keys _ _ _)); [done|].
    intros ([t' [h' ts']] & E & [Hexp Hin%elem_of_map_to_list]%list_elem_of_filter)%list_elem_of_fmap.
    cbn in *. subst t'. rewrite Hts in Hin. injection Hin as <- <-.
    apply (Hrem t ts); [|done]. apply list_elem_of_filter. split; [done|]. by apply elem_of_map_to_list.
  - exists 0%nat. split; [lia|]. split; [cbn; lia|]. split; cbn.
    + intros t. destruct (foldr_delete_keys (pending_lookups m) l t) as [H1 H2].
      destruct (decide (t ∈ map fst l)); [rewrite H1 by done; by intros [? ?]|rewrite H2 by done; auto].
    + intros h k t Hk Ht. destruct (foldr_alter_lookup l _ h k Hk) as (k0 & Hk0 & Hsub & _). right. eauto.
Qed.

Lemma foldr_delete_txns (l : list (InfoHash * KademliaLookup)) (p : gmap bytes (InfoHash * Z)) t :
  (foldr (fun x p => set_fold delete p (pending_txns (snd x))) p l !! t = p !! t \/
   foldr (fun x p => set_fold delete p (pending_txns (snd x))) p l !! t = None) /\
  ((forall x, x ∈ l -> t ∉ pending_txns (snd x)) ->
   foldr (fun x p => set_fold delete p (pending_txns (snd x))) p l !! t = p !! t).
Proof.
  induction l as [|x l [IH1 IH2]]; cbn [foldr]; [auto|].
  set (r := foldr _ p l) in *. destruct (lookup_set_fold_delete r (pending_txns (snd x)) t) as [H1 H2].
  destruct (decide (t ∈ pending_txns (snd x))) as [Hin|Hin].
  - rewrite H1 by done. split; [by right|]. intros Hall. exfalso. apply (Hall x); [left|done].
  - rewrite H2 by done. split; [done|]. intros Hall. apply IH2. intros y Hy. apply Hall. by right.
Qed.

Lemma expire_active_keeps now m : routed m -> keeps 0 m (expire_active_lookups now m).
Proof.
  intros Hr. unfold expire_active_lookups.
  set (l := filter _ (map_to_list (kademlia_lookups m))).
  assert (forall h k, foldr (fun x ls => delete (fst x) ls) (kademlia_lookups m) l !! h = Some k ->
            kademlia_lookups m !! h = Some k /\ h ∉ map fst l) as Hleft.
  { intros h k. destruct (foldr_delete_keys (kademlia_lookups m) l h) as [H1 H2].
    destruct (decide (h ∈ map fst l)); [by rewrite H1|by rewrite H2]. }
  split.
  - intros h k t Hk Ht. cbn in *. apply Hleft in Hk as [Hk Hn].
    destruct (Hr h k t Hk Ht) as [ts Hts]. exists ts.
    rewrite (proj2 (foldr_delete_txns l _ t)); [done|].
    intros [h2 k2] Hl2 Ht2. pose proof Hl2 as [_ Hin%elem_of_map_to_list]%list_elem_of_filter. cbn in Ht2.
    destruct (Hr h2 k2 t Hin Ht2) as [ts2 Hts2]. rewrite Hts in Hts2. injection Hts2 as <- <-.
    apply Hn. by apply (list_elem_of_fmap_2 fst) in Hl2.
  - exists 0%nat. split; [lia|]. split; [cbn; lia|]. split; cbn.
    + intros t. destruct (proj1 (foldr_delete_txns l (pending_lookups m) t)) as [->| ->]; [auto|by intros [? ?]].
    + intros h k t Hk Ht. apply Hleft in Hk as [Hk _]. right. eauto.
Qed.

(** ** The public calls *)

Lemma on_lookup_response_keeps rt msg h ts m :
  routed m -> pending_lookups m !! m_txn msg = Some (h, ts) ->
  keeps 0 m (on_lookup_response self_id rt msg h m) /\ idle (m_txn msg) (on_lookup_response self_id rt msg h m).
Proof.
  intros Hr Hp. unfold on_lookup_response.
  assert (forall h' k', kademlia_lookups m !! h' = Some k' -> m_txn msg ∈ pending_txns k' -> h' = h) as Honly.
  { intros h' k' Hk' Ht. destruct (Hr h' k' _ Hk' Ht) as [ts' Hts']. congruence. }
  destruct (kademlia_lookups m !! h) as [k|] eqn:Ek.
  2: { split; [split; [done|apply evolves_refl]|]. intros h' k' Hk' Ht.
       rewrite (Honly h' k' Hk' Ht) in Hk'. congruence. }
  set (k1 := merge_nodes _ _ _). assert (pending_txns k1 = pending_txns k ∖ {[m_txn msg]}) as Hk1 by done.
  assert (keeps 0 m (set_lookup h k1 m)) as Hs1 by (eapply set_lookup_keeps; [done..|set_solver]).
  assert (idle (m_txn msg) (set_lookup h k1 m)) as Hi1.
  { intros h' k'. unfold set_lookup. cbn. destruct (decide (h = h')) as [<-|Hne].
    - rewrite lookup_insert_eq. intros [= <-]. set_solver.
    - rewrite lookup_insert_ne by done. intros Hk' Ht. by rewrite (Honly h' k' Hk' Ht) in Hne. }
  pose proof (should_finish_keeps rt k1 h (set_lookup h k1 m) (proj1 Hs1) (lookup_insert_eq _ _ _)) as Hs2.
  destruct (lookup_should_finish self_id rt k1 h) as [fin k2].
  assert (set_lookup h k2 (set_lookup h k1 m) = set_lookup h k2 m) as E
    by (unfold set_lookup; cbn; by rewrite insert_insert_eq).
  rewrite E in Hs2. assert (fresh 0 (set_lookup h k1 m)) as Hf0
    by (split; [constructor|by intros ? ?%not_elem_of_nil]).
  assert (is_Some (pending_lookups (set_lookup h k1 m) !! m_txn msg)) as Hb by (cbn; eauto).
  destruct fin; (split; [exact (keeps_trans 0 0 _ _ _ Hs1 Hs2)|]);
    exact (evolves_idle 0 _ _ _ (proj2 Hs2) Hf0 Hb Hi1).
Qed.

Lemma fresh_evolves0 n m m' : evolves 0 m m' -> fresh n m -> fresh n m'.
Proof. intros He Hf. by apply (evolves_fresh 0 n m m'). Qed.

Lemma on_response_keeps now rt msg m :
  routed m -> fresh LOOKUP_ALPHA m -> keeps LOOKUP_ALPHA m (snd (on_response draw self_id now rt msg m)).
Proof.
  intros Hr Hf. unfold on_response.
  destruct (pending_lookups m !! m_txn msg) as [[h ts]|] eqn:Ep.
  2: { split; [done|]. eapply evolves_weaken; [|apply evolves_refl]. lia. }
  assert (forall m', keeps LOOKUP_ALPHA m m' -> idle (m_txn msg) m' ->
    keeps LOOKUP_ALPHA m (mkMgr (delete (m_txn msg) (pending_lookups m')) (kademlia_lookups m') (rng_pos m'))) as Hdel.
  { intros m' [Hr' (s & Hs & Hp & Hb & Hw)] Hi. split.
    - intros h' k' t Hk' Ht. destruct (Hr' h' k' t Hk' Ht) as [ts' Hts']. exists ts'. cbn.
      rewrite lookup_delete_ne; [done|]. intros <-. by apply (Hi h' k').
    - exists s. split; [done|]. split; [done|]. split; [|done]. cbn. intros t [x Hx].
      apply lookup_delete_Some in Hx as [_ Hx]. apply Hb. eauto. }
  destruct (on_lookup_response_keeps rt msg h ts m Hr Ep) as [Hk1 Hi1].
  assert (forall m', keeps 0 m m' -> keeps LOOKUP_ALPHA m m') as Hw.
  { intros m' [? He]. split; [done|]. eapply evolves_weaken; [|exact He]. lia. }
  case_bool_decide as Hex; cbn [snd].
  2: { apply Hdel; [apply Hw; split; [done|apply evolves_refl]|].
       intros h' k' Hk' Ht. destruct (Hr h' k' _ Hk' Ht) as [ts' Hts']. rewrite Ep in Hts'.
       injection Hts' as <- <-. apply Hex. eauto. }
  case_bool_decide as Hex'; cbn [snd]; [|by apply Hdel; [apply Hw|]].
  set (m1 := on_lookup_response self_id rt msg h m) in *.
  pose proof (fresh_evolves0 _ _ _ (proj2 Hk1) Hf) as Hf1.
  pose proof (advance_keeps now rt h m1 (proj1 Hk1) Hf1) as Hk2.
  destruct (advance_lookup _ _ _ _ _ _) as [adv m2]. cbn [snd] in *.
  apply Hdel; [exact (keeps_trans 0 _ _ _ _ Hk1 Hk2)|].
  destruct (pending_lookups m1 !! m_txn msg) as [b|] eqn:Eb.
  - eapply evolves_idle; [apply Hk2|done|eauto|done].
  - (* the binding was dropped with a finished lookup, so the lookup is gone *)
    exfalso. destruct Hex' as [k' Hk']. unfold m1, on_lookup_response in Eb, Hk'.
    destruct (kademlia_lookups m !! h) as [k|] eqn:Ek; [|cbn in *; congruence].
    destruct (lookup_should_finish _ _ _ _) as [[] k2]; [|cbn in Eb; congruence].
    unfold finish_lookup in Hk'. cbn in Hk'. rewrite lookup_insert_eq in Hk'. cbn in Hk'.
    by rewrite lookup_delete_eq in Hk'.
Qed.

(** Entering a new lookup for a hash that has none. *)
Lemma new_lookup_keeps now h cs m :
  routed m -> keeps 0 m (set_lookup h (lookup_new now h cs) m).
Proof.
  intros Hr. split.
  - intros h2 k2 t. unfold set_lookup. cbn. destruct (decide (h = h2)) as [<-|Hne].
    + rewrite lookup_insert_eq. intros [= <-]. cbn. set_solver.
    + rewrite lookup_insert_ne by done. apply Hr.
  - exists 0%nat. split; [lia|]. split; [unfold set_lookup; cbn; lia|]. split; [auto|].
    intros h2 k2 t. unfold set_lookup. cbn. destruct (decide (h = h2)) as [<-|Hne].
    + rewrite lookup_insert_eq. intros [= <-]. cbn. set_solver.
    + rewrite lookup_insert_ne by done. right. eauto.
Qed.

Lemma start_keeps now rt h m :
  routed m -> fresh LOOKUP_ALPHA m -> keeps LOOKUP_ALPHA m (snd (start_or_advance draw self_id now rt h m)).
Proof.
  intros Hr Hf. unfold start_or_advance. destruct (closest _ _ _) as [|c cs].
  { split; [done|]. eapply evolves_weaken; [|apply evolves_refl]. lia. }
  pose proof (keeps_trans 0 0 _ _ _ (expire_pending_keeps now m Hr)
                (expire_active_keeps now _ (proj1 (expire_pending_keeps now m Hr)))) as Hk1.
  set (m1 := expire_active_lookups now (expire_pending_lookups now m)) in *.
  pose proof (fresh_evolves0 _ _ _ (proj2 Hk1) Hf) as Hf1.
  assert (forall res m2, keeps (length (st_outbound res)) m1 m2 -> (length (st_outbound res) <= LOOKUP_ALPHA)%nat ->
    keeps LOOKUP_ALPHA m (snd (
    if (length (st_outbound res) =? 0)%nat && negb (bool_decide (is_Some (kademlia_lookups m2 !! h))) then
        let m := set_lookup h (lookup_new now h (c :: cs)) m2 in
        let '(adv, m) := advance_lookup draw self_id now rt h m in
        (mkStart (adv_outbound adv) true (skipped_pending res) (cleared_exhausted res) false
           (adv_completed adv), m)
      else (res, m2)))) as Hnew.
  { intros res m2 Hk2 Hle. pose proof (keeps_trans 0 _ _ _ _ Hk1 Hk2) as Hk12. cbn [Nat.add] in Hk12.
    destruct (_ && _) eqn:Ec; [|split; [apply Hk12|by eapply evolves_weaken; [|apply Hk12]]].
    apply andb_true_iff in Ec as [E0 _]. apply Nat.eqb_eq in E0. rewrite E0 in Hk12. cbv zeta.
    pose proof (new_lookup_keeps now h (c :: cs) m2 (proj1 Hk12)) as Hk3.
    pose proof (keeps_trans _ _ _ _ _ Hk12 Hk3) as Hk13.
    pose proof (advance_keeps now rt h _ (proj1 Hk13) (fresh_evolves0 _ _ _ (proj2 Hk13) Hf)) as Hk4.
    pose proof (keeps_trans _ _ _ _ _ Hk13 Hk4) as Hk14.
    by destruct (advance_lookup _ _ _ _ _ _). }
  assert (forall res m2, st_outbound res = [] -> keeps 0 m1 m2 -> keeps LOOKUP_ALPHA m (snd (
    if (length (st_outbound res) =? 0)%nat && negb (bool_decide (is_Some (kademlia_lookups m2 !! h))) then
        let m := set_lookup h (lookup_new now h (c :: cs)) m2 in
        let '(adv, m) := advance_lookup draw self_id now rt h m in
        (mkStart (adv_outbound adv) true (skipped_pending res) (cleared_exhausted res) false
           (adv_completed adv), m)
      else (res, m2)))) as Hnew0 by (intros res m2 E Hk; apply Hnew; rewrite E; [done|cbn; lia]).
  assert (keeps 0 m1 m1) as Hrefl by (split; [apply Hk1|apply evolves_refl]).
  destruct (kademlia_lookups m1 !! h) as [k|] eqn:Ek; [|by apply Hnew0].
  destruct (has_pending k); [by apply Hnew0|].
  pose proof (should_finish_keeps rt k h m1 (proj1 Hk1) Ek) as Hk2.
  destruct (lookup_should_finish self_id rt k h) as [fin k2]. destruct fin; [by apply Hnew0|].
  destruct (advance_keeps_exact now rt h _ (proj1 Hk2) (fresh_evolves0 _ _ _ (proj2 Hk2) Hf1)) as [Hk3 Hle].
  pose proof (keeps_trans _ _ _ _ _ Hk2 Hk3) as Hk23.
  destruct (advance_lookup _ _ _ _ _ _) as [adv m2]. cbn [fst snd Nat.add] in *. by apply Hnew.
Qed.

Lemma tick_keeps now rt m :
  routed m -> fresh (LOOKUP_ALPHA * size (kademlia_lookups (expire_pending_lookups now m))) m ->
  routed (snd (tick draw self_id now rt m)).
Proof.
  intros Hr Hf. unfold tick. pose proof (expire_pending_keeps now m Hr) as Hk.
  pose proof (fresh_evolves0 _ _ _ (proj2 Hk) Hf) as Hf1. destruct Hk as [Hr1 _].
  set (m1 := expire_pending_lookups now m) in *.
  rewrite <- (length_map_to_list (kademlia_lookups m1)), <- (length_map fst) in Hf1.
  generalize dependent (map fst (map_to_list (kademlia_lookups m1))). intros hs Hf1.
  assert (routed (snd (@nil OutboundKrpc, m1))) as Hr0 by done.
  assert (fresh (LOOKUP_ALPHA * length hs) (snd (@nil OutboundKrpc, m1))) as Hf0 by done.
  revert Hr0 Hf0. generalize (@nil OutboundKrpc, m1). clear.
  induction hs as [|h hs IH]; intros acc Hr Hf; [done|]. cbn [fold_left length] in *.
  replace (LOOKUP_ALPHA * S (length hs))%nat with (LOOKUP_ALPHA + LOOKUP_ALPHA * length hs)%nat in Hf by lia.
  assert (fresh LOOKUP_ALPHA (snd acc)) as Hf' by (eapply fresh_le; [|exact Hf]; lia).
  pose proof (advance_keeps now rt h (snd acc) Hr Hf') as [Hr' He].
  destruct (advance_lookup _ _ _ _ _ _) as [adv m2]. cbn [snd] in *.
  apply IH; [done|]. by eapply evolves_fresh.
Qed.
End facts.

(** How many identifiers a call may draw. *)
Definition draws (m : LookupManager) (o : mgr_op) : nat :=
  match o with
  | MStart _ _ _ | MResponse _ _ _ => LOOKUP_ALPHA
  | MTick now _ => (LOOKUP_ALPHA * size (kademlia_lookups (expire_pending_lookups now m)))%nat
  | _ => 0%nat
  end.

Lemma mgr_step_routed `{DistanceSort} draw self m o :
  routed m -> fresh draw (draws m o) m -> routed (mgr_step draw self m o).
Proof.
  intros Hr Hf. destruct o; cbn [mgr_step draws] in *.
  - by apply (start_keeps draw self).
  - by apply (on_response_keeps draw self).
  - by apply (tick_keeps draw self).
  - by apply (expire_pending_keeps draw).
  - by apply (expire_active_keeps draw).
Qed.

(** C24: whatever sequence of calls, replies and clock readings, every active lookup
    is the one of its info hash and has at most [LOOKUP_ALPHA] queries in flight. *)
Theorem lookup_in_flight_bounded `{DistanceSort} draw self pos ops h k :
  kademlia_lookups (fold_left (mgr_step draw self) ops (mgr_new pos)) !! h = Some k ->
  info_hash k = h /\ (pending_count k <= LOOKUP_ALPHA)%nat.
Proof.
  intros Hk. assert (bounded (fold_left (mgr_step draw self) ops (mgr_new pos))) as Hb.
  { apply mgr_run_bounded. apply map_Forall_empty. }
  exact (Hb h k Hk).
Qed.

Definition sample_hash : InfoHash := mkInfoHash (replicate 20 0).
Definition sample_rt : RoutingTable :=
  fold_left rt_step [RAdd 0 (sample_entry 9 0) true; RAdd 0 (sample_entry 3 0) true] (rt_new (sample_id 1)).

Lemma lookup_in_flight_bounded_witness :
  exists k, kademlia_lookups (fold_left (@mgr_step merge_distance_sort Z.of_nat (sample_id 1))
      [MStart 5 sample_rt sample_hash] (mgr_new 0)) !! sample_hash = Some k /\
    pending_count k = 2%nat /\ (pending_count k <= LOOKUP_ALPHA)%nat.
Proof.
  eexists. split; [vm_compute; reflexivity|]. split; [vm_compute; reflexivity|].
  apply (@lookup_in_flight_bounded merge_distance_sort Z.of_nat (sample_id 1) 0
           [MStart 5 sample_rt sample_hash] sample_hash). vm_compute. reflexivity.
Defined.

(** Replies find their lookup: as long as the identifiers drawn are distinct and
    not in use, after any call each query a lookup waits for is bound to that
    lookup's info hash, so the reply to it is delivered there; and two lookups never
    wait for the same identifier. *)
Theorem replies_routed `{DistanceSort} draw self m o :
  routed m -> fresh draw (draws m o) m ->
  let m' := mgr_step draw self m o in
  routed m' /\
  (forall h k t, kademlia_lookups m' !! h = Some k -> t ∈ pending_txns k ->
     info_hash_for_txn t m' = Some h /\
     forall h' k', kademlia_lookups m' !! h' = Some k' -> t ∈ pending_txns k' -> h' = h).
Proof.
  intros Hr Hf m'. assert (routed m') as Hr' by (by apply mgr_step_routed). split; [done|].
  intros h k t Hk Ht. destruct (Hr' h k t Hk Ht) as [ts Hts]. split.
  - unfold info_hash_for_txn. by rewrite Hts.
  - intros h' k' Hk' Ht'. destruct (Hr' h' k' t Hk' Ht') as [ts' Hts']. congruence.
Qed.

Lemma replies_routed_witness :
  let m := mgr_new 0 in
  let m' := @mgr_step merge_distance_sort Z.of_nat (sample_id 1) m (MStart 5 sample_rt sample_hash) in
  routed m /\ fresh Z.of_nat 6 m /\ routed m' /\ info_hash_for_txn [0; 1] m' = Some sample_hash.
Proof.
  assert (routed (mgr_new 0)) as Hr by (intros h k t Hk; discriminate Hk).
  assert (fresh Z.of_nat 6 (mgr_new 0)) as Hf.
  { split; [|reflexivity]. apply (bool_decide_unpack _). vm_compute. reflexivity. }
  split; [exact Hr|]. split; [exact Hf|].
  split; [|vm_compute; reflexivity].
  apply (@replies_routed merge_distance_sort Z.of_nat (sample_id 1) (mgr_new 0) (MStart 5 sample_rt sample_hash) Hr Hf).
Defined.

(** The freshness the routing theorem needs is not ensured by the code: [on_response] erases the
    binding of the answered identifier after it has sent the next queries, so when
    the first of those draws that same identifier, the new query's binding is
    erased: the lookup waits for a reply that can no longer be delivered to it. *)
Theorem txn_reuse_loses_reply `{DistanceSort} draw self now rt msg m h ts k node rest :
  pending_lookups m !! m_txn msg = Some (h, ts) ->
  kademlia_lookups m !! h = Some k ->
  let k1 := merge_nodes (m_nodes msg) self (remove_pending_txn (m_txn msg) k) in
  let k2 := snd (lookup_should_finish self rt k1 h) in
  let k3 := snd (lookup_should_finish self rt k2 h) in
  fst (lookup_should_finish self rt k1 h) = false ->
  fst (lookup_should_finish self rt k2 h) = false ->
  (pending_count k3 < LOOKUP_ALPHA)%nat ->
  fst (select_next_candidates (LOOKUP_ALPHA - pending_count k3) k3) = node :: rest ->
  txn_at draw (rng_pos m) = m_txn msg ->
  let m' := snd (on_response draw self now rt msg m) in
  (exists k', kademlia_lookups m' !! h = Some k' /\ m_txn msg ∈ pending_txns k') /\
  info_hash_for_txn (m_txn msg) m' = None.
Proof.
  intros Hp Hk k1 k2 k3 Hf1 Hf2 Hlt Hsel Htxn m'.
  assert (exists k5 pend ls pos, m' = mkMgr (delete (m_txn msg) pend) (<[h := k5]> ls) pos /\
            m_txn msg ∈ pending_txns k5) as (k5 & pend & ls & pos & -> & Hin).
  { unfold m', on_response. rewrite Hp. rewrite bool_decide_true by eauto.
    unfold on_lookup_response. rewrite Hk. fold k1.
    destruct (lookup_should_finish self rt k1 h) as [fin k2'] eqn:E1. cbn [fst snd] in *. subst fin.
    subst k2. rewrite bool_decide_true by (unfold set_lookup; cbn; rewrite lookup_insert_eq; eauto).
    unfold advance_lookup. unfold set_lookup at 1. cbn [kademlia_lookups]. rewrite lookup_insert_eq.
    destruct (lookup_should_finish self rt k2' h) as [fin k3'] eqn:E2. cbn [fst snd] in *. subst fin k3.
    rewrite (proj2 (Nat.leb_gt _ _)) by done.
    destruct (select_next_candidates _ k3') as [next k4]. cbn [fst] in Hsel. subst next.
    pose proof (send_loop_spec draw self now h (node :: rest) k4 (pending_lookups (set_lookup h k2' m))
                  (rng_pos (set_lookup h k2' m)) []) as Hs.
    destruct (send_loop _ _ _ _ _ _ _ _ _) as [[[k5 pend] pos] out].
    destruct Hs as (_ & H2 & _ & _ & _ & Hout). destruct out as [|o out]; [cbn in Hout; lia|].
    eexists _, _, _, _. split; [reflexivity|]. rewrite H2. cbn [length]. rewrite drawn_cons.
    cbn [rng_pos set_lookup list_to_set]. rewrite Htxn. set_solver. }
  split.
  - exists k5. split; [apply lookup_insert_eq|done].
  - unfold info_hash_for_txn. cbn [pending_lookups]. by rewrite lookup_delete_eq.
Qed.

Lemma txn_reuse_loses_reply_witness :
  let draw := fun _ : nat => 7 in
  let rt := add 0 (rt_new (sample_id 1)) (sample_entry 9 0) true in
  let m := @mgr_step merge_distance_sort draw (sample_id 1) (mgr_new 0) (MStart 5 rt sample_hash) in
  let msg := mkMsg Response [7; 7] None (sample_id 9) nid_zero None 0 [] false
               [sample_entry 3 0] [1%nat] [] 0 [] in
  info_hash_for_txn [7; 7] m = Some sample_hash /\
  info_hash_for_txn [7; 7] (snd (@on_response merge_distance_sort draw (sample_id 1) 6 rt msg m)) = None.
Proof.
  split; [vm_compute; reflexivity|].
  eapply (@txn_reuse_loses_reply merge_distance_sort (fun _ : nat => 7) (sample_id 1) 6
            (add 0 (rt_new (sample_id 1)) (sample_entry 9 0) true)
            (mkMsg Response [7; 7] None (sample_id 9) nid_zero None 0 [] false [sample_entry 3 0] [1%nat] [] 0 []));
    [vm_compute; reflexivity|vm_compute; reflexivity|vm_compute; reflexivity|vm_compute; reflexivity
    |vm_compute; lia|vm_compute; reflexivity|vm_compute; reflexivity].
Defined.
