(* ===== verification/DhtClient.v ===== *)
(** * The DHT node (inc/dht/dht_client.h, src/dht/dht_client.cpp)

    The state of [DhtClient] and one definition per handler of its two threads and
    per call of its interface.  A handler sees one reading [now] of the steady clock
    (nanoseconds).  What the operating system and the random generators supply is
    the class [DhtEnv]; [random_txn] shares its generator with the lookup manager,
    whose state preserves the position.  [sent] is the sequence of datagrams handed to
    the socket and [callbacks] the calls of the registered peer callback.  [start]
    waits while the receiving thread runs, so it is two steps: [start_begin] up to
    the pings of the loaded nodes, [start_finish] after the wait. *)

From S2P Require Import Prelude CxxLib Hash Addr NodeId RoutingTable RoutingTableStore KademliaLookup.
From S2P Require Import TokenRotator LruCache DhtPeerStore AnnounceCoordinator Krpc LookupManager.

Definition MAINT_INTERVAL : Z := seconds 60.
Definition MAX_BUCKETS_REFRESH_PER_TICK : nat := 3.
Definition LOOKUP_TICK_INTERVAL : Z := seconds 5.
Definition kMinGoodEntriesToSkipBootstrap : nat := 4.
Definition ROUTING_TABLE_SAVE_INTERVAL : Z := minutes 5.
Definition BOOTSTRAP_RETRY_INTERVAL : Z := minutes 2.

Definition BOOTSTRAP_NODES : list (bytes * Z) :=
  [ (str "dht.libtorrent.org", 25401);
    (str "dht.libtorrent.org", 6881);
    (str "dht.transmissionbt.com", 6881);
    (str "router.bittorrent.com", 6881);
    (str "router.utorrent.com", 6881) ].

Class DhtEnv := mkDhtEnv {
  txn_draw : nat -> Z;              (* the generator of random_txn *)
  secret_draw : nat -> option bytes; (* RAND_bytes in the n-th rotate_if_needed *)
  bucket_coin : nat -> nat -> bool; (* the draws of the n-th random_id_in_bucket *)
  dns_ipv4 : bytes -> option bytes; (* the first IPv4 address dns_lookup returns *)
  fs_env : FsEnv;
}.

Record Boot := mkBoot {
  last_bootstrap_attempt : Z;
  bootstrap_start_time : Z;
  node_start_time : Z;
  loaded_entries_at_start : nat;
  bootstrap_skipped : bool;
  bootstrap_complete : bool;
  bootstrap_latency : Z; (* nanoseconds; the source preserves seconds in a double *)
  bootstrap_connectivity_warned : bool;
}.

Record Config := mkConfig {
  bootstrap_on_start : bool;
  routing_table_path : bytes;
  persist_routing_table : bool;
  clear_persisted_on_start : bool;
  has_peer_cb : bool; (* a peer callback is registered *)
}.

Record DhtClient := mkClient {
  dc_self : NodeId;
  dc_port : Z;
  dc_config : Config;
  running : bool;
  socket_open : bool; (* socket_ is set and its descriptor is not -1 *)
  dc_rt : RoutingTable;
  dc_mgr : LookupManager;
  dc_store : PeerStore;
  dc_rotator : TokenSecretRotator;
  dc_coord : AnnounceCoordinator;
  dc_boot : Boot;
  last_lookup_tick : Z;
  last_routing_table_save : Z;
  refresh_bucket_cursor : nat;
  dc_files : files;
  rotate_calls : nat;
  target_draws : nat;
  sent : list OutboundKrpc;
  callbacks : list (bytes * PeerAddress);
}.

Definition boot_default : Boot := mkBoot 0 0 0 0 false false (- seconds 1) false.

(** The constructor; the rotator's own constructor has drawn the first secret. *)
Definition client_new (self : NodeId) (port : Z) (path : bytes) (r : TokenSecretRotator) (fs : files)
    (pos : nat) : DhtClient :=
  mkClient self port (mkConfig true path true false false) false false (rt_new self) (mgr_new pos)
    store_new r coord_new boot_default 0 0 0 fs 0 0 [] [].

(** ** Updates of one field *)

Definition set_config (x : Config) (d : DhtClient) : DhtClient :=
  mkClient (dc_self d) (dc_port d) x (running d) (socket_open d) (dc_rt d) (dc_mgr d) (dc_store d)
    (dc_rotator d) (dc_coord d) (dc_boot d) (last_lookup_tick d) (last_routing_table_save d)
    (refresh_bucket_cursor d) (dc_files d) (rotate_calls d) (target_draws d) (sent d) (callbacks d).
Definition set_run (port : Z) (r s : bool) (d : DhtClient) : DhtClient :=
  mkClient (dc_self d) port (dc_config d) r s (dc_rt d) (dc_mgr d) (dc_store d)
    (dc_rotator d) (dc_coord d) (dc_boot d) (last_lookup_tick d) (last_routing_table_save d)
    (refresh_bucket_cursor d) (dc_files d) (rotate_calls d) (target_draws d) (sent d) (callbacks d).
Definition set_rt (x : RoutingTable) (d : DhtClient) : DhtClient :=
  mkClient (dc_self d) (dc_port d) (dc_config d) (running d) (socket_open d) x (dc_mgr d) (dc_store d)
    (dc_rotator d) (dc_coord d) (dc_boot d) (last_lookup_tick d) (last_routing_table_save d)
    (refresh_bucket_cursor d) (dc_files d) (rotate_calls d) (target_draws d) (sent d) (callbacks d).
Definition set_mgr (x : LookupManager) (d : DhtClient) : DhtClient :=
  mkClient (dc_self d) (dc_port d) (dc_config d) (running d) (socket_open d) (dc_rt d) x (dc_store d)
    (dc_rotator d) (dc_coord d) (dc_boot d) (last_lookup_tick d) (last_routing_table_save d)
    (refresh_bucket_cursor d) (dc_files d) (rotate_calls d) (target_draws d) (sent d) (callbacks d).
Definition set_store (x : PeerStore) (d : DhtClient) : DhtClient :=
  mkClient (dc_self d) (dc_port d) (dc_config d) (running d) (socket_open d) (dc_rt d) (dc_mgr d) x
    (dc_rotator d) (dc_coord d) (dc_boot d) (last_lookup_tick d) (last_routing_table_save d)
    (refresh_bucket_cursor d) (dc_files d) (rotate_calls d) (target_draws d) (sent d) (callbacks d).
Definition set_rotator (x : TokenSecretRotator) (n : nat) (d : DhtClient) : DhtClient :=
  mkClient (dc_self d) (dc_port d) (dc_config d) (running d) (socket_open d) (dc_rt d) (dc_mgr d) (dc_store d)
    x (dc_coord d) (dc_boot d) (last_lookup_tick d) (last_routing_table_save d)
    (refresh_bucket_cursor d) (dc_files d) n (target_draws d) (sent d) (callbacks d).
Definition set_coord (x : AnnounceCoordinator) (d : DhtClient) : DhtClient :=
  mkClient (dc_self d) (dc_port d) (dc_config d) (running d) (socket_open d) (dc_rt d) (dc_mgr d) (dc_store d)
    (dc_rotator d) x (dc_boot d) (last_lookup_tick d) (last_routing_table_save d)
    (refresh_bucket_cursor d) (dc_files d) (rotate_calls d) (target_draws d) (sent d) (callbacks d).
Definition set_boot (x : Boot) (d : DhtClient) : DhtClient :=
  mkClient (dc_self d) (dc_port d) (dc_config d) (running d) (socket_open d) (dc_rt d) (dc_mgr d) (dc_store d)
    (dc_rotator d) (dc_coord d) x (last_lookup_tick d) (last_routing_table_save d)
    (refresh_bucket_cursor d) (dc_files d) (rotate_calls d) (target_draws d) (sent d) (callbacks d).
Definition set_times (tick save : Z) (d : DhtClient) : DhtClient :=
  mkClient (dc_self d) (dc_port d) (dc_config d) (running d) (socket_open d) (dc_rt d) (dc_mgr d) (dc_store d)
    (dc_rotator d) (dc_coord d) (dc_boot d) tick save
    (refresh_bucket_cursor d) (dc_files d) (rotate_calls d) (target_draws d) (sent d) (callbacks d).
Definition set_cursor (cursor draws : nat) (d : DhtClient) : DhtClient :=
  mkClient (dc_self d) (dc_port d) (dc_config d) (running d) (socket_open d) (dc_rt d) (dc_mgr d) (dc_store d)
    (dc_rotator d) (dc_coord d) (dc_boot d) (last_lookup_tick d) (last_routing_table_save d)
    cursor (dc_files d) (rotate_calls d) draws (sent d) (callbacks d).
Definition set_files (x : files) (d : DhtClient) : DhtClient :=
  mkClient (dc_self d) (dc_port d) (dc_config d) (running d) (socket_open d) (dc_rt d) (dc_mgr d) (dc_store d)
    (dc_rotator d) (dc_coord d) (dc_boot d) (last_lookup_tick d) (last_routing_table_save d)
    (refresh_bucket_cursor d) x (rotate_calls d) (target_draws d) (sent d) (callbacks d).
Definition set_logs (out : list OutboundKrpc) (cbs : list (bytes * PeerAddress)) (d : DhtClient) : DhtClient :=
  mkClient (dc_self d) (dc_port d) (dc_config d) (running d) (socket_open d) (dc_rt d) (dc_mgr d) (dc_store d)
    (dc_rotator d) (dc_coord d) (dc_boot d) (last_lookup_tick d) (last_routing_table_save d)
    (refresh_bucket_cursor d) (dc_files d) (rotate_calls d) (target_draws d) out cbs.

Section client.
Context {IN : Inet} {SH : Sha1} {PT : InetPton} {DS : DistanceSort} {EN : DhtEnv}.

(** ** Sending *)

(** [send_krpc]: an address that [IPv4Address] refuses, like a failing [sendto],
    is caught and logged. *)
Definition send_krpc (msg : bytes) (pa : PeerAddress) (d : DhtClient) : DhtClient :=
  if negb (socket_open d) then d
  else match pton4 (ip pa) with
       | None => d
       | Some _ => set_logs (sent d ++ [mkOut msg pa]) (callbacks d) d
       end.

(** [for (const auto& o : outbound) send_krpc(o.msg, o.pa);] *)
Definition send_all (out : list OutboundKrpc) (d : DhtClient) : DhtClient :=
  fold_left (fun d o => send_krpc (out_msg o) (out_pa o) d) out d.

(** [random_txn()] outside the lookup manager. *)
Definition next_txn (d : DhtClient) : bytes * DhtClient :=
  let m := dc_mgr d in
  (txn_at txn_draw (rng_pos m),
   set_mgr (mkMgr (pending_lookups m) (kademlia_lookups m) (rng_pos m + 2)) d).

Definition invoke_peer_callback (info_hash_hex : bytes) (pa : PeerAddress) (d : DhtClient) : DhtClient :=
  if has_peer_cb (dc_config d) then set_logs (sent d) (callbacks d ++ [(info_hash_hex, pa)]) d else d.

Definition ping (pa : PeerAddress) (d : DhtClient) : DhtClient :=
  let '(txn, d) := next_txn d in send_krpc (make_ping txn (dc_self d)) pa d.

Definition send_announce_request (d : DhtClient) (req : AnnounceRequest) : DhtClient :=
  if (length (an_token req) =? 0)%nat then d
  else let '(txn, d) := next_txn d in
       send_krpc (make_announce_peer txn (dc_self d) (an_hash req) (an_port req) (an_token req) true)
         (an_pa req) d.

Definition send_announce_requests (requests : list AnnounceRequest) (d : DhtClient) : DhtClient :=
  fold_left send_announce_request requests d.

Definition announce (h : InfoHash) (port : Z) (d : DhtClient) : DhtClient :=
  send_announce_requests (collect_announce_all h port [] (dc_coord d)) d.

(** ** Bootstrap state *)

Definition count_good_routing_entries (now : Z) (d : DhtClient) : nat :=
  length (filter (fun e => is_good now e = true) (all (dc_rt d))).

Definition maybe_mark_bootstrap_complete (now : Z) (d : DhtClient) : DhtClient :=
  let b := dc_boot d in
  if bootstrap_complete b then d
  else if (count_good_routing_entries now d =? 0)%nat then d
  else
    let latency :=
      if bootstrap_skipped b then 0
      else if negb (bootstrap_start_time b =? 0) then now - bootstrap_start_time b
      else 0 in
    set_boot (mkBoot (last_bootstrap_attempt b) (bootstrap_start_time b) (node_start_time b)
                (loaded_entries_at_start b) (bootstrap_skipped b) true latency
                (bootstrap_connectivity_warned b)) d.

Definition ping_bootstrap (d : DhtClient) (node : bytes * Z) : DhtClient :=
  match dns_ipv4 (fst node) with
  | None => d
  | Some ip =>
      if (length ip =? 0)%nat then d else
      let pa := mkPeer ip (snd node) in
      let '(txn, d) := next_txn d in
      let d := send_krpc (make_ping txn (dc_self d)) pa d in
      let '(txn, d) := next_txn d in
      send_krpc (make_find_node txn (dc_self d) (dc_self d)) pa d
  end.

Definition bootstrap (now : Z) (d : DhtClient) : DhtClient :=
  let b := dc_boot d in
  let d := set_boot (mkBoot now now (node_start_time b) (loaded_entries_at_start b) (bootstrap_skipped b)
                       (bootstrap_complete b) (bootstrap_latency b) (bootstrap_connectivity_warned b)) d in
  fold_left ping_bootstrap BOOTSTRAP_NODES d.

(** ** Lookups *)

Definition live_peer_count (now : Z) (h : InfoHash) (d : DhtClient) : nat * DhtClient :=
  let '(ps, st) := live_peers now h (dc_store d) in (length ps, set_store st d).

(** [log_get_peers_lookup_completed] counts the live peers, which touches the store. *)
Definition log_get_peers_lookup_completed (now : Z) (h : InfoHash) (d : DhtClient) : DhtClient :=
  snd (live_peer_count now h d).

Definition get_peers (now : Z) (h : InfoHash) (d : DhtClient) : DhtClient :=
  let d := set_store (ensure_bucket h (dc_store d)) d in
  let '(r, m) := start_or_advance txn_draw (dc_self d) now (dc_rt d) h (dc_mgr d) in
  let d := set_mgr m d in
  if no_candidates r then d else
  let d := set_coord (mark_initial_lookup_started h (dc_coord d)) d in
  let d := send_all (st_outbound r) d in
  if st_completed r then log_get_peers_lookup_completed now h d else d.

Definition client_register (now : Z) (h : InfoHash) (port : Z) (d : DhtClient) : DhtClient :=
  let d := set_coord (register_torrent now h port (dc_coord d)) d in
  if running d then get_peers now h d else d.

Definition client_unregister (h : InfoHash) (d : DhtClient) : DhtClient :=
  set_coord (unregister_torrent h (dc_coord d)) d.

Definition try_pending_initial_lookups (now : Z) (d : DhtClient) : DhtClient :=
  if (rt_size (dc_rt d) =? 0)%nat then d
  else fold_left (fun d h => if has_pending_lookup h (dc_mgr d) then d else get_peers now h d)
         (torrents_needing_initial_lookup (dc_coord d)) d.

Definition maintain_registered_torrents (now : Z) (d : DhtClient) : DhtClient :=
  let d := try_pending_initial_lookups now d in
  fold_left (fun d h =>
      if has_pending_lookup h (dc_mgr d) then d
      else let d := get_peers now h d in set_coord (mark_refreshed h now (dc_coord d)) d)
    (torrents_needing_refresh now (dc_coord d)) d.

(** ** Bucket refresh *)

(** The queries of one bucket: at most three of the nodes closest to [target]. *)
Definition send_find_nodes (target : NodeId) (nodes : list RoutingEntry) (d : DhtClient) : DhtClient :=
  fold_left (fun d node => let '(txn, d) := next_txn d in
                           send_krpc (make_find_node txn (dc_self d) target) (re_pa node) d)
    (take 3 nodes) d.

Definition refresh_bucket (d : DhtClient) (b : nat) : DhtClient :=
  let target := random_id_in_bucket (self_id (dc_rt d)) b (bucket_coin (target_draws d)) in
  let d := set_cursor (refresh_bucket_cursor d) (S (target_draws d)) d in
  send_find_nodes target (closest (dc_rt d) target RoutingTable.K) d.

(** The buckets one tick refreshes and the cursor it leaves. *)
Definition refresh_plan (buckets : list nat) (cursor : nat) : list nat * nat :=
  let bucket_count := length buckets in
  let start := (cursor mod bucket_count)%nat in
  let to_refresh := Nat.min MAX_BUCKETS_REFRESH_PER_TICK bucket_count in
  (map (fun i => default 0%nat (buckets !! ((start + i) mod bucket_count)%nat)) (seq 0 to_refresh),
   ((start + to_refresh) mod bucket_count)%nat).

Definition refresh_buckets (now : Z) (d : DhtClient) : DhtClient :=
  let buckets := buckets_needing_refresh (dc_rt d) now (minutes 15) in
  match buckets with
  | [] => d
  | _ =>
      let '(chosen, cursor) := refresh_plan buckets (refresh_bucket_cursor d) in
      let d := fold_left refresh_bucket chosen d in
      set_cursor cursor (target_draws d) d
  end.

(** ** Handlers of the receiving thread *)

(** [token_rotator_.rotate_if_needed()] *)
Definition client_rotate (now : Z) (d : DhtClient) : DhtClient * result unit :=
  let '(r, res) := rotate_if_needed now (secret_draw (rotate_calls d)) (dc_rotator d) in
  (set_rotator r (S (rotate_calls d)) d, res).

Definition on_ping (msg : KrpcMessage) (pa : PeerAddress) (d : DhtClient) : DhtClient :=
  send_krpc (make_response (m_txn msg) (dc_self d)) pa d.

Definition on_find_node (msg : KrpcMessage) (pa : PeerAddress) (d : DhtClient) : DhtClient :=
  send_krpc (make_nodes_response (m_txn msg) (dc_self d) (closest (dc_rt d) (m_target msg) 8)) pa d.

Definition on_get_peers (now : Z) (msg : KrpcMessage) (pa : PeerAddress) (d : DhtClient)
    : DhtClient * result unit :=
  match m_info_hash msg with
  | None => (d, Ok ())
  | Some h =>
      let '(d, res) := client_rotate now d in
      match res with
      | Throw e => (d, Throw e)
      | Ok _ =>
          let token := issue_token (dc_rotator d) (ip pa) in
          let '(known_peers, st) := live_peers now h (expire_stale now (dc_store d)) in
          let d := set_store st d in
          match known_peers with
          | [] => (send_krpc (make_nodes_response_gp (m_txn msg) (dc_self d) token
                                (closest (dc_rt d) (from_info_hash h) 8)) pa d, Ok ())
          | _ => (send_krpc (make_peers_response (m_txn msg) (dc_self d) token known_peers) pa d, Ok ())
          end
      end
  end.

(** The parameter [pa] is assigned to before it is stored, reported and replied to. *)
Definition on_announce_peer (now : Z) (msg : KrpcMessage) (pa : PeerAddress) (d : DhtClient)
    : DhtClient * result unit :=
  match m_info_hash msg with
  | None => (d, Ok ())
  | Some h =>
      let '(d, res) := client_rotate now d in
      match res with
      | Throw e => (d, Throw e)
      | Ok _ =>
          if negb (verify_token now (dc_rotator d) (m_token msg) (ip pa))
          then (send_krpc (make_error (m_txn msg) 203 (str "Bad token")) pa d, Ok ())
          else
            let pa := if m_implied_port msg then pa else mkPeer (ip pa) (m_peer_port msg) in
            let d := set_store (upsert now h pa (dc_store d)) d in
            let d := invoke_peer_callback (ih_hex h) pa d in
            (send_krpc (make_response (m_txn msg) (dc_self d)) pa d, Ok ())
      end
  end.

(** One compact peer of a reply's [values]. *)
Definition on_value (now : Z) (h : InfoHash) (d : DhtClient) (compact : bytes) : DhtClient :=
  match compact_to_peer compact 0 with
  | None => d
  | Some (peer_ip, peer_port) =>
      let pa := mkPeer peer_ip peer_port in
      invoke_peer_callback (ih_hex h) pa (set_store (upsert now h pa (dc_store d)) d)
  end.

Definition add_nodes (now : Z) (nodes : list RoutingEntry) (d : DhtClient) : DhtClient :=
  fold_left (fun d n => set_rt (add now (dc_rt d) n true) d) nodes d.

(** The announces a reply with a token gives rise to, before the lookup sees it. *)
Definition collect_announces (msg : KrpcMessage) (pa : PeerAddress) (d : DhtClient)
    : list AnnounceRequest * DhtClient :=
  if (length (m_token msg) =? 0)%nat then ([], d)
  else match info_hash_for_txn (m_txn msg) (dc_mgr d) with
       | None => ([], d)
       | Some h =>
           let '(reqs, c) := on_get_peers_response h pa (m_token msg) [] (dc_coord d) in
           (reqs, set_coord c d)
       end.

Definition client_on_response (now : Z) (msg : KrpcMessage) (pa : PeerAddress) (d : DhtClient) : DhtClient :=
  let d := add_nodes now (m_nodes msg) d in
  let d := match m_nodes msg with [] => d | _ => maybe_mark_bootstrap_complete now d end in
  let '(requests, d) := collect_announces msg pa d in
  let '(r, m) := LookupManager.on_response txn_draw (dc_self d) now (dc_rt d) msg (dc_mgr d) in
  let d := set_mgr m d in
  if negb (txn_known r) then send_announce_requests requests d
  else
    let d := match rr_info_hash r with
             | Some h => fold_left (on_value now h) (m_values msg) d
             | None => d
             end in
    let d := send_all (rr_outbound r) d in
    let d := match rr_info_hash r with
             | Some h => if rr_completed r then log_get_peers_lookup_completed now h d else d
             | None => d
             end in
    let d := send_announce_requests requests d in
    try_pending_initial_lookups now d.

Definition note_sender (now : Z) (msg : KrpcMessage) (pa : PeerAddress) (d : DhtClient) : DhtClient :=
  if is_zero (m_sender_id msg) then d
  else maybe_mark_bootstrap_complete now
         (set_rt (add now (dc_rt d) (mkEntry (m_sender_id msg) pa now) true) d).

Definition handle_message (now : Z) (msg : KrpcMessage) (pa : PeerAddress) (d : DhtClient)
    : DhtClient * result unit :=
  let d := note_sender now msg pa d in
  match m_type msg with
  | Query =>
      match m_query_type msg with
      | None => (d, Ok ())
      | Some Ping => (on_ping msg pa d, Ok ())
      | Some FindNode => (on_find_node msg pa d, Ok ())
      | Some GetPeers => on_get_peers now msg pa d
      | Some AnnouncePeer => on_announce_peer now msg pa d
      end
  | Response => (client_on_response now msg pa d, Ok ())
  | Error => (d, Ok ())
  end.

(** What [recvfrom_with_timeout] gives one iteration of [recv_loop]. *)
Inductive RecvEvent :=
  | Datagram (data : bytes) (pa : PeerAddress)
  | NotIPv4
  | RecvFailed.

Definition lookup_tick (now : Z) (d : DhtClient) : DhtClient :=
  if LOOKUP_TICK_INTERVAL <=? now - last_lookup_tick d then
    let d := set_times now (last_routing_table_save d) d in
    let '(out, m) := tick txn_draw (dc_self d) now (dc_rt d) (dc_mgr d) in
    send_all out (set_mgr m d)
  else d.

(** One iteration of [recv_loop]: exceptions of the handlers are caught, a datagram
    that does not parse skips the tick. *)
Definition recv_iteration (now : Z) (ev : RecvEvent) (d : DhtClient) : DhtClient * result unit :=
  if negb (running d) || negb (socket_open d) then (d, Ok ()) else
  match ev with
  | NotIPv4 => (d, Ok ())
  | RecvFailed => (lookup_tick now d, Ok ())
  | Datagram data pa =>
      match parse_krpc now data with
      | Throw e => (d, Throw e)
      | Ok None => (d, Ok ())
      | Ok (Some msg) => (lookup_tick now (fst (handle_message now msg pa d)), Ok ())
      end
  end.

(** ** Persistence, maintenance, start and stop *)

Definition load_persisted_routing_table (now : Z) (d : DhtClient) : DhtClient * result unit :=
  match load (dc_files d) (routing_table_path (dc_config d)) with
  | Throw e => (d, Throw e)
  | Ok r =>
      if negb (sr_ok r) then (d, Ok ())
      else (fold_left (fun d e => set_rt (add now (dc_rt d) e false) d) (snap_entries (sr_snapshot r)) d, Ok ())
  end.

(** [verify_loaded_routing_entries] up to its wait. *)
Definition verify_loaded_routing_entries (d : DhtClient) : DhtClient :=
  fold_left (fun d e => ping (re_pa e) d) (all (dc_rt d)) d.

Definition save_persisted_routing_table (d : DhtClient) : DhtClient :=
  if negb (persist_routing_table (dc_config d)) || (rt_size (dc_rt d) =? 0)%nat then d
  else set_files (snd (save fs_env (dc_files d) (dc_rt d) (dc_self d) (routing_table_path (dc_config d)))) d.

Definition save_if_due (now : Z) (d : DhtClient) : DhtClient :=
  if persist_routing_table (dc_config d) && negb (rt_size (dc_rt d) =? 0)%nat &&
     ((last_routing_table_save d =? 0) || (ROUTING_TABLE_SAVE_INTERVAL <=? now - last_routing_table_save d))
  then let d := save_persisted_routing_table d in set_times (last_lookup_tick d) now d
  else d.

Definition bootstrap_if_alone (now : Z) (d : DhtClient) : DhtClient :=
  if bootstrap_on_start (dc_config d) && (count_good_routing_entries now d =? 0)%nat &&
     (BOOTSTRAP_RETRY_INTERVAL <=? now - last_bootstrap_attempt (dc_boot d))
  then
    let d := bootstrap now d in
    let b := dc_boot d in
    set_boot (mkBoot (last_bootstrap_attempt b) (bootstrap_start_time b) (node_start_time b)
                (loaded_entries_at_start b) (bootstrap_skipped b) (bootstrap_complete b)
                (bootstrap_latency b) true) d
  else d.

(** One iteration of [maintenance_loop] after its wait timed out.  An exception of
    [rotate_if_needed] is not caught and ends the process. *)
Definition maintenance_iteration (now : Z) (d : DhtClient) : DhtClient * result unit :=
  if negb (running d) then (d, Ok ()) else
  let '(d, res) := client_rotate now d in
  match res with
  | Throw e => (d, Throw e)
  | Ok _ =>
      let d := set_mgr (expire_active_lookups now (dc_mgr d)) d in
      let '(out, m) := tick txn_draw (dc_self d) now (dc_rt d) (dc_mgr d) in
      let d := send_all out (set_mgr m d) in
      let d := set_store (expire_stale now (dc_store d)) d in
      let d := refresh_buckets now d in
      let d := maintain_registered_torrents now d in
      let d := save_if_due now d in
      (bootstrap_if_alone now d, Ok ())
  end.

(** [start] up to the wait for the loaded nodes.  [bound] is what the system does:
    creating the socket fails, or it succeeds and [bind] fails (the new socket then
    stays in [socket_], open, although the node does not run), or it binds to a
    port. *)
Definition start_begin (now : Z) (bound : result (result Z)) (d : DhtClient) : DhtClient * result unit :=
  if running d then (d, Ok ()) else
  match bound with
  | Throw e => (d, Throw e)
  | Ok (Throw e) => (set_run (dc_port d) false true d, Throw e)
  | Ok (Ok port) =>
      let b := dc_boot d in
      let d := set_run port true true d in
      let d := set_times now (last_routing_table_save d) d in
      let d := set_boot (mkBoot (last_bootstrap_attempt b) 0 now 0 false false (- seconds 1)
                           (bootstrap_connectivity_warned b)) d in
      if negb (persist_routing_table (dc_config d)) then (d, Ok ())
      else if clear_persisted_on_start (dc_config d) then
        (set_files (snd (remove_file fs_env (dc_files d) (routing_table_path (dc_config d)))) d, Ok ())
      else
        let '(d, res) := load_persisted_routing_table now d in
        match res with
        | Throw e => (d, Throw e)
        | Ok _ =>
            let b := dc_boot d in
            let d := set_boot (mkBoot (last_bootstrap_attempt b) (bootstrap_start_time b) (node_start_time b)
                                 (rt_size (dc_rt d)) (bootstrap_skipped b) (bootstrap_complete b)
                                 (bootstrap_latency b) (bootstrap_connectivity_warned b)) d in
            (if (rt_size (dc_rt d) =? 0)%nat then d else verify_loaded_routing_entries d, Ok ())
        end
  end.

(** [start] after the wait. *)
Definition start_finish (now : Z) (d : DhtClient) : DhtClient :=
  let c := dc_config d in
  let skip := persist_routing_table c && negb (clear_persisted_on_start c) &&
              (kMinGoodEntriesToSkipBootstrap <=? count_good_routing_entries now d)%nat in
  let b := dc_boot d in
  let d := if skip then set_boot (mkBoot (last_bootstrap_attempt b) (bootstrap_start_time b)
                                    (node_start_time b) (loaded_entries_at_start b) true true 0
                                    (bootstrap_connectivity_warned b)) d
           else d in
  if bootstrap_on_start c && negb skip then bootstrap now d
  else if negb (bootstrap_complete (dc_boot d)) && (0 <? count_good_routing_entries now d)%nat
       then maybe_mark_bootstrap_complete now d
       else d.

Definition stop (d : DhtClient) : DhtClient :=
  if negb (running d) then d else
  let d := set_run (dc_port d) false (socket_open d) d in
  let d := save_persisted_routing_table d in
  let d := set_run (dc_port d) false false d in
  set_coord (coord_clear (dc_coord d)) d.

(** [performance_snapshot]; the uptime in nanoseconds. *)
Record DhtPerformanceSnapshot := mkPerf {
  ps_bootstrap_skipped : bool; ps_bootstrap_complete : bool; ps_bootstrap_latency : Z;
  ps_loaded_entries_at_start : nat; ps_total : nat; ps_good : nat; ps_uptime : Z }.

Definition performance_snapshot (now : Z) (d : DhtClient) : DhtPerformanceSnapshot :=
  let b := dc_boot d in
  mkPerf (bootstrap_skipped b) (bootstrap_complete b) (bootstrap_latency b) (loaded_entries_at_start b)
    (rt_size (dc_rt d)) (count_good_routing_entries now d)
    (if negb (node_start_time b =? 0) then now - node_start_time b else 0).

(** ** The events of a running node *)

Inductive dht_op :=
  | ORecv (ev : RecvEvent)
  | OMaintenance
  | OStartBegin (bound : result (result Z))
  | OStartFinish
  | OStop
  | OGetPeers (h : InfoHash)
  | ORegister (h : InfoHash) (port : Z)
  | OUnregister (h : InfoHash)
  | OPing (pa : PeerAddress)
  | OAnnounce (h : InfoHash) (port : Z)
  | OLivePeerCount (h : InfoHash)
  | OConfigure (c : Config).

Definition dht_step (now : Z) (o : dht_op) (d : DhtClient) : DhtClient * result unit :=
  match o with
  | ORecv ev => recv_iteration now ev d
  | OMaintenance => maintenance_iteration now d
  | OStartBegin bound => start_begin now bound d
  | OStartFinish => (start_finish now d, Ok ())
  | OStop => (stop d, Ok ())
  | OGetPeers h => (get_peers now h d, Ok ())
  | ORegister h port => (client_register now h port d, Ok ())
  | OUnregister h => (client_unregister h d, Ok ())
  | OPing pa => (ping pa d, Ok ())
  | OAnnounce h port => (announce h port d, Ok ())
  | OLivePeerCount h => (snd (live_peer_count now h d), Ok ())
  | OConfigure c => (set_config c d, Ok ())
  end.

(** An exception of an interface call is the caller's and the node goes on; undefined
    behaviour, or an exception that leaves the maintenance thread, ends the process. *)
Definition ends_process (o : dht_op) (r : result unit) : bool :=
  match r, o with
  | Throw (Undefined _), _ => true
  | Throw _, OMaintenance => true
  | _, _ => false
  end.

(** A run: the events with the clock at each, up to the one that ends the process. *)
Fixpoint dht_run (d : DhtClient) (es : list (Z * dht_op)) : DhtClient :=
  match es with
  | [] => d
  | (now, o) :: es' =>
      let '(d', r) := dht_step now o d in
      if ends_process o r then d' else dht_run d' es'
  end.
End client.

(** ** What sending does to the state *)

Section facts.
Context {IN : Inet} {SH : Sha1} {PT : InetPton} {DS : DistanceSort} {EN : DhtEnv}.

(** [d'] is [d] after some datagrams were sent and identifiers drawn. *)
Definition sends (d d' : DhtClient) : Prop :=
  exists pos out, d' = set_logs (sent d ++ out) (callbacks d)
    (set_mgr (mkMgr (pending_lookups (dc_mgr d)) (kademlia_lookups (dc_mgr d)) pos) d).

#[global] Instance sends_preorder : PreOrder sends.
Proof.
  split.
  - intros d. exists (rng_pos (dc_mgr d)), []. rewrite app_nil_r. by destruct d as [?????? [] ].
  - intros d d' d'' (p & o & ->) (p' & o' & ->). exists p', (o ++ o'). cbn. by rewrite app_assoc.
Qed.

Lemma send_krpc_sends msg pa d : sends d (send_krpc msg pa d).
Proof.
  unfold send_krpc. case_if; [done|]. destruct (pton4 (ip pa)); [|done].
  exists (rng_pos (dc_mgr d)), [mkOut msg pa]. by destruct d as [?????? [] ].
Qed.

Lemma next_txn_sends d : sends d (snd (next_txn d)).
Proof. exists (rng_pos (dc_mgr d) + 2)%nat, []. rewrite app_nil_r. by destruct d as [?????? [] ]. Qed.

Lemma send_fresh_sends f pa d :
  sends d (let '(txn, d) := next_txn d in send_krpc (f txn (dc_self d)) pa d).
Proof. etransitivity; [apply next_txn_sends|]. apply send_krpc_sends. Qed.

Lemma send_all_sends out d : sends d (send_all out d).
Proof. apply (fold_left_rel sends). intros. apply send_krpc_sends. Qed.

Lemma ping_sends pa d : sends d (ping pa d).
Proof. apply (send_fresh_sends make_ping). Qed.

Lemma send_announce_requests_sends reqs d : sends d (send_announce_requests reqs d).
Proof.
  apply (fold_left_rel sends). intros d' r. unfold send_announce_request. case_if; [done|].
  apply (send_fresh_sends (fun txn self => make_announce_peer txn self _ _ _ _)).
Qed.

Lemma ping_bootstrap_sends d node : sends d (ping_bootstrap d node).
Proof.
  unfold ping_bootstrap. destruct (dns_ipv4 _) as [ip|]; [|done]. case_if; [done|].
  etransitivity; [apply (send_fresh_sends make_ping (mkPeer ip (snd node)))|].
  apply (send_fresh_sends (fun txn self => make_find_node txn self self)).
Qed.

Lemma send_find_nodes_sends target nodes d : sends d (send_find_nodes target nodes d).
Proof.
  apply (fold_left_rel sends). intros d' n. apply (send_fresh_sends (fun txn self => make_find_node txn self target)).
Qed.

(** ** The invariant of the node *)

Record dht_ok (now : Z) (d : DhtClient) : Prop := {
  dok_self : nid_ok (dc_self d);
  dok_rt : rt_ok (dc_rt d);
  dok_rt_self : self_id (dc_rt d) = dc_self d;
  dok_store : store_ok now (dc_store d);
  dok_mgr : bounded (dc_mgr d);
}.

Lemma dht_ok_later now now' d : now <= now' -> dht_ok now d -> dht_ok now' d.
Proof. intros Hle []. constructor; try done. by eapply store_ok_later. Qed.

(** Steps that leave the token secrets alone and keep the invariant. *)
Record preserves (now : Z) (d d' : DhtClient) : Prop := {
  kp_self : dc_self d' = dc_self d;
  kp_rotator : dc_rotator d' = dc_rotator d;
  kp_ok : dht_ok now d -> dht_ok now d';
}.

#[global] Instance preserves_preorder now : PreOrder (preserves now).
Proof.
  split; [by constructor|]. intros d d' d'' [] []. constructor; [congruence..|auto].
Qed.

Lemma sends_preserves now d d' : sends d d' -> preserves now d d'.
Proof. intros (pos & out & ->). by constructor; [..|intros []; constructor]. Qed.

Lemma preserves_rt now d t :
  (dht_ok now d -> rt_ok t /\ self_id t = self_id (dc_rt d)) -> preserves now d (set_rt t d).
Proof. intros Ht. constructor; [done..|]. intros []. constructor; try done; cbn; [|rewrite <- dok_rt_self0]; by apply Ht. Qed.

Lemma preserves_mgr now d m : (dht_ok now d -> bounded m) -> preserves now d (set_mgr m d).
Proof. intros Hm. constructor; [done..|]. intros []. constructor; try done. by apply Hm. Qed.

Lemma preserves_store now d st : (dht_ok now d -> store_ok now st) -> preserves now d (set_store st d).
Proof. intros Hst. constructor; [done..|]. intros []. constructor; try done. by apply Hst. Qed.

(** The other fields do not matter. *)
Lemma preserves_coord now d c : preserves now d (set_coord c d).
Proof. by constructor; [..|intros []; constructor]. Qed.
Lemma preserves_boot now d b : preserves now d (set_boot b d).
Proof. by constructor; [..|intros []; constructor]. Qed.
Lemma preserves_times now d a b : preserves now d (set_times a b d).
Proof. by constructor; [..|intros []; constructor]. Qed.
Lemma preserves_cursor now d a b : preserves now d (set_cursor a b d).
Proof. by constructor; [..|intros []; constructor]. Qed.
Lemma preserves_files now d fs : preserves now d (set_files fs d).
Proof. by constructor; [..|intros []; constructor]. Qed.
Lemma preserves_config now d c : preserves now d (set_config c d).
Proof. by constructor; [..|intros []; constructor]. Qed.
Lemma preserves_run now d p r s : preserves now d (set_run p r s d).
Proof. by constructor; [..|intros []; constructor]. Qed.
Lemma preserves_callback now d h pa : preserves now d (invoke_peer_callback h pa d).
Proof. unfold invoke_peer_callback. case_if; [|done]. by constructor; [..|intros []; constructor]. Qed.
End facts.

Create HintDb dht.
#[export] Hint Resolve send_krpc_sends next_txn_sends send_all_sends ping_sends
  send_announce_requests_sends ping_bootstrap_sends send_find_nodes_sends : dht.
#[export] Hint Resolve preserves_coord preserves_boot preserves_times preserves_cursor preserves_files preserves_config preserves_run
  preserves_callback sends_preserves : dht.
#[export] Hint Extern 5 (preserves _ ?d ?d) => reflexivity : dht.

Section invariant.
Context {IN : Inet} {SH : Sha1} {PT : InetPton} {DS : DistanceSort} {EN : DhtEnv}.

Lemma add_self_id now t e c : rt_ok t -> self_id (add now t e c) = self_id t.
Proof.
  intros Hok. unfold add. case_if; [done|]. case_if; [done|].
  unfold touch_bucket_entry, replace_stale. repeat (case_match; try done).
Qed.

Lemma preserves_add now d e c : nid_ok (re_id e) -> preserves now d (set_rt (add now (dc_rt d) e c) d).
Proof.
  intros He. apply preserves_rt. intros []. split; [by apply add_ok|by apply add_self_id].
Qed.

Lemma add_nodes_preserves now nodes d :
  Forall (fun e => nid_ok (re_id e)) nodes -> preserves now d (add_nodes now nodes d).
Proof.
  intros Hn. apply (fold_left_pres (preserves now d)); [done|]. intros d' e He Hd.
  etransitivity; [exact Hd|]. apply preserves_add. by eapply Forall_forall in Hn.
Qed.

Lemma maybe_mark_preserves now d : preserves now d (maybe_mark_bootstrap_complete now d).
Proof. unfold maybe_mark_bootstrap_complete. repeat case_if; auto with dht. Qed.

Lemma note_sender_fields now msg pa d :
  let d' := note_sender now msg pa d in
  sent d' = sent d /\ callbacks d' = callbacks d /\ dc_self d' = dc_self d /\ socket_open d' = socket_open d /\
  dc_config d' = dc_config d /\ dc_store d' = dc_store d.
Proof.
  unfold note_sender, maybe_mark_bootstrap_complete. by repeat case_if.
Qed.

Lemma note_sender_preserves now msg pa d : msg_ok now msg -> preserves now d (note_sender now msg pa d).
Proof.
  intros Hm. unfold note_sender. case_if; [done|].
  etransitivity; [|apply maybe_mark_preserves]. apply preserves_add. apply (mok_sender _ _ Hm).
Qed.

Lemma bootstrap_preserves now d : preserves now d (bootstrap now d).
Proof.
  unfold bootstrap. etransitivity; [apply preserves_boot|]. apply (fold_left_rel (preserves now)).
  auto with dht.
Qed.

Lemma log_completed_preserves now h d : preserves now d (log_get_peers_lookup_completed now h d).
Proof.
  unfold log_get_peers_lookup_completed, live_peer_count.
  pose proof (live_peers_ok now now h (dc_store d)) as Hl. destruct (live_peers _ _ _) as [ps st].
  apply preserves_store. intros []. by apply Hl.
Qed.

Lemma get_peers_preserves now h d : preserves now d (get_peers now h d).
Proof.
  unfold get_peers. set (d1 := set_store _ d).
  assert (preserves now d d1) as H1 by (apply preserves_store; intros []; by apply ensure_bucket_ok).
  pose proof (start_bounded txn_draw (dc_self d1) now (dc_rt d1) h (dc_mgr d1)) as Hb.
  destruct (start_or_advance _ _ _ _ _ _) as [r m]. cbn [snd] in Hb.
  assert (preserves now d1 (set_mgr m d1)) as H2 by (apply preserves_mgr; intros []; by apply Hb).
  etransitivity; [exact H1|]. etransitivity; [exact H2|]. case_if; [done|].
  etransitivity; [apply preserves_coord|]. etransitivity; [apply sends_preserves, send_all_sends|].
  case_if; [apply log_completed_preserves|done].
Qed.

Lemma try_pending_preserves now d : preserves now d (try_pending_initial_lookups now d).
Proof.
  unfold try_pending_initial_lookups. case_if; [done|]. apply (fold_left_rel (preserves now)).
  intros d' h. case_if; [done|]. apply get_peers_preserves.
Qed.

Lemma maintain_preserves now d : preserves now d (maintain_registered_torrents now d).
Proof.
  unfold maintain_registered_torrents. etransitivity; [apply try_pending_preserves|].
  apply (fold_left_rel (preserves now)). intros d' h. case_if; [done|].
  etransitivity; [apply get_peers_preserves|]. apply preserves_coord.
Qed.

Lemma refresh_bucket_preserves now d b : preserves now d (refresh_bucket d b).
Proof. unfold refresh_bucket. etransitivity; [apply preserves_cursor|]. auto with dht. Qed.

Lemma refresh_buckets_preserves now d : preserves now d (refresh_buckets now d).
Proof.
  unfold refresh_buckets. destruct (buckets_needing_refresh _ _ _) as [|b bs]; [done|].
  destruct (refresh_plan _ _) as [chosen cursor]. etransitivity; [|apply preserves_cursor].
  apply (fold_left_rel (preserves now)). intros. apply refresh_bucket_preserves.
Qed.

Lemma tick_preserves now d :
  preserves now d (let '(out, m) := tick txn_draw (dc_self d) now (dc_rt d) (dc_mgr d) in
               send_all out (set_mgr m d)).
Proof.
  pose proof (tick_bounded txn_draw (dc_self d) now (dc_rt d) (dc_mgr d)) as Hb.
  destruct (tick _ _ _ _ _) as [out m]. cbn [snd] in Hb.
  etransitivity; [apply (preserves_mgr now d m); intros []; by apply Hb|]. auto with dht.
Qed.

Lemma lookup_tick_preserves now d : preserves now d (lookup_tick now d).
Proof.
  unfold lookup_tick. case_if; [|done]. etransitivity; [apply preserves_times|]. apply tick_preserves.
Qed.

Lemma on_value_preserves now h d v : preserves now d (on_value now h d v).
Proof.
  unfold on_value. destruct (compact_to_peer v 0) as [[ip port]|]; [|done].
  etransitivity; [|apply preserves_callback]. apply preserves_store. intros []. by apply upsert_ok.
Qed.

Lemma on_response_preserves now msg pa d : msg_ok now msg -> preserves now d (client_on_response now msg pa d).
Proof.
  intros Hm. unfold client_on_response.
  assert (preserves now d (add_nodes now (m_nodes msg) d)) as H1.
  { apply add_nodes_preserves. eapply Forall_impl; [apply (mok_nodes _ _ Hm)|]. by intros e []. }
  set (d1 := match m_nodes msg with [] => _ | _ => _ end).
  assert (preserves now d d1) as H2.
  { unfold d1. destruct (m_nodes msg); [done|]. etransitivity; [exact H1|apply maybe_mark_preserves]. }
  destruct (collect_announces msg pa d1) as [reqs d2] eqn:E2.
  assert (preserves now d d2) as H3.
  { unfold collect_announces in E2. repeat case_match; simplify_eq; try done.
    etransitivity; [exact H2|apply preserves_coord]. }
  pose proof (on_response_bounded txn_draw (dc_self d2) now (dc_rt d2) msg (dc_mgr d2)) as Hb.
  destruct (LookupManager.on_response _ _ _ _ _ _) as [r m]. cbn [snd] in Hb.
  assert (preserves now d (set_mgr m d2)) as H4.
  { etransitivity; [exact H3|]. apply preserves_mgr. intros []. by apply Hb. }
  case_if; [etransitivity; [exact H4|]; auto with dht|].
  etransitivity; [|apply try_pending_preserves]. etransitivity; [|apply sends_preserves, send_announce_requests_sends].
  destruct (rr_info_hash r) as [h|].
  - set (d3 := fold_left _ _ _). assert (preserves now d d3) as H5.
    { etransitivity; [exact H4|]. apply (fold_left_rel (preserves now)). intros. apply on_value_preserves. }
    assert (preserves now d (send_all (rr_outbound r) d3)) as H6 by (etransitivity; [exact H5|]; auto with dht).
    case_if; [etransitivity; [exact H6|apply log_completed_preserves]|done].
  - etransitivity; [exact H4|]. auto with dht.
Qed.

Lemma load_preserves now d : preserves now d (fst (load_persisted_routing_table now d)).
Proof.
  unfold load_persisted_routing_table. destruct (load _ _) as [r|e] eqn:E; [|done]. case_if; [done|]. cbn [fst].
  apply load_ids_ok in E. apply (fold_left_pres (preserves now d)); [done|]. intros d' x Hx Hd.
  etransitivity; [exact Hd|]. apply preserves_add. by eapply Forall_forall in E.
Qed.

Lemma save_preserves now d : preserves now d (save_persisted_routing_table d).
Proof. unfold save_persisted_routing_table. case_if; auto with dht. Qed.

Lemma start_begin_preserves now bound d : preserves now d (fst (start_begin now bound d)).
Proof.
  unfold start_begin. case_if; [done|].
  destruct bound as [[port|]|]; [|apply preserves_run|done].
  set (d1 := set_boot _ _). assert (preserves now d d1) as H1.
  { etransitivity; [apply preserves_run|]. etransitivity; [apply preserves_times|]. apply preserves_boot. }
  case_if; [done|]. case_if; [etransitivity; [exact H1|apply preserves_files]|].
  pose proof (load_preserves now d1) as H2. destruct (load_persisted_routing_table now d1) as [d2 []]; cbn [fst] in *.
  - assert (preserves now d d2) as H3 by (by etransitivity).
    case_if; [etransitivity; [exact H3|apply preserves_boot]|]. etransitivity; [exact H3|].
    etransitivity; [apply preserves_boot|]. apply (fold_left_rel (preserves now)). auto with dht.
  - by etransitivity.
Qed.

Lemma start_finish_preserves now d : preserves now d (start_finish now d).
Proof.
  unfold start_finish. set (d1 := if _ && _ then _ else d).
  assert (preserves now d d1) as H1 by (unfold d1; case_if; auto with dht).
  repeat case_if; [etransitivity; [exact H1|apply bootstrap_preserves]|..];
    [etransitivity; [exact H1|apply maybe_mark_preserves]|done].
Qed.

Lemma stop_preserves now d : preserves now d (stop d).
Proof.
  unfold stop. case_if; [done|]. etransitivity; [apply preserves_run|]. etransitivity; [apply save_preserves|].
  etransitivity; [apply preserves_run|]. apply preserves_coord.
Qed.
End invariant.

(** ** Every event keeps the invariant *)

Section node.
Context {IN : Inet} {SH : Sha1} {PT : InetPton} {DS : DistanceSort} {EN : DhtEnv}.

(** A datagram is a sequence of bytes. *)
Definition event_ok (o : dht_op) : Prop :=
  match o with ORecv (Datagram data _) => bytes_ok data | _ => True end.

(** [Q] holds of the secrets after a step when it holds before, whether the step
    leaves them alone or rotates them at time [now]. *)
Definition rotation_stable (now : Z) (Q : TokenSecretRotator -> Prop) : Prop :=
  forall n r, Q r -> Q (fst (rotate_if_needed now (secret_draw n) r)).

(** The invariant and a property of the secrets, together. *)
Definition node_inv (now : Z) (self : NodeId) (Q : TokenSecretRotator -> Prop) (d : DhtClient) : Prop :=
  dht_ok now d /\ dc_self d = self /\ Q (dc_rotator d).

Lemma preserves_inv now self Q d d' : preserves now d d' -> node_inv now self Q d -> node_inv now self Q d'.
Proof. intros [Es E Hok] (? & ? & ?). split; [auto|]. split; [by rewrite Es|by rewrite E]. Qed.

Lemma rotate_inv now self Q d :
  rotation_stable now Q -> node_inv now self Q d -> node_inv now self Q (fst (client_rotate now d)).
Proof.
  intros HQ ([] & Hs & HR). unfold client_rotate. specialize (HQ (rotate_calls d) _ HR).
  destruct (rotate_if_needed _ _ _) as [r res]. split; [by constructor|by split].
Qed.

(** [rotate_if_needed] and, when it succeeds, the rest of a handler. *)
Lemma after_rotate_inv now self Q d (f : DhtClient -> DhtClient * result unit) :
  rotation_stable now Q -> (forall d, preserves now d (fst (f d))) -> node_inv now self Q d ->
  node_inv now self Q (fst (let '(d, res) := client_rotate now d in
                       match res with Throw e => (d, Throw e) | Ok _ => f d end)).
Proof.
  intros HQ Hf Hd. apply (rotate_inv _ _ _ _ HQ) in Hd. destruct (client_rotate now d) as [d' [|]]; [|done].
  apply (preserves_inv now self Q d'); [apply Hf|exact Hd].
Qed.

Lemma on_get_peers_inv now self Q msg pa d :
  rotation_stable now Q -> node_inv now self Q d -> node_inv now self Q (fst (on_get_peers now msg pa d)).
Proof.
  intros HQ Hd. unfold on_get_peers. destruct (m_info_hash msg) as [h|]; [|done].
  eapply (after_rotate_inv now self Q d (fun d => _)); [done| |done]. clear d Hd. intros d.
  pose proof (live_peers_ok now now h (expire_stale now (dc_store d))) as Hl.
  destruct (live_peers _ _ _) as [known st]. cbn [snd] in Hl.
  assert (preserves now d (set_store st d)) as Hst
    by (apply preserves_store; intros []; by apply Hl, expire_stale_ok).
  destruct known; cbn [fst]; (etransitivity; [exact Hst|]); auto with dht.
Qed.

Lemma on_announce_inv now self Q msg pa d :
  rotation_stable now Q -> node_inv now self Q d -> node_inv now self Q (fst (on_announce_peer now msg pa d)).
Proof.
  intros HQ Hd. unfold on_announce_peer. destruct (m_info_hash msg) as [h|]; [|done].
  eapply (after_rotate_inv now self Q d (fun d => _)); [done| |done]. clear d Hd. intros d.
  case_if; cbn [fst]; [auto with dht|].
  etransitivity; [|apply sends_preserves, send_krpc_sends]. etransitivity; [|apply preserves_callback].
  apply preserves_store. intros []. by apply upsert_ok.
Qed.

Lemma handle_message_inv now self Q msg pa d :
  rotation_stable now Q -> msg_ok now msg -> node_inv now self Q d ->
  node_inv now self Q (fst (handle_message now msg pa d)).
Proof.
  intros HQ Hm Hd. unfold handle_message.
  assert (node_inv now self Q (note_sender now msg pa d)) as Hn.
  { eapply preserves_inv; [by apply note_sender_preserves|exact Hd]. }
  destruct (m_type msg); [destruct (m_query_type msg) as [[]|]| |]; cbn [fst];
    auto using on_get_peers_inv, on_announce_inv; (eapply preserves_inv; [|exact Hn]);
    auto using on_response_preserves with dht.
  - unfold on_ping. auto with dht.
  - unfold on_find_node. auto with dht.
Qed.

Lemma maintenance_inv now self Q d :
  rotation_stable now Q -> node_inv now self Q d -> node_inv now self Q (fst (maintenance_iteration now d)).
Proof.
  intros HQ Hd. unfold maintenance_iteration. case_if; [done|].
  eapply (after_rotate_inv now self Q d (fun d => _)); [done| |done]. clear d Hd Heqb. intros d.
  set (d1 := set_mgr _ d). assert (preserves now d d1) as H1.
  { apply preserves_mgr. intros []. by apply expire_active_bounded. }
  pose proof (tick_preserves now d1) as H2. destruct (tick _ _ _ _ _) as [out m]. cbn [fst].
  set (d2 := send_all _ _) in *. set (d3 := set_store _ d2).
  assert (preserves now d2 d3) as H3 by (apply preserves_store; intros []; by apply expire_stale_ok).
  etransitivity; [exact H1|]. etransitivity; [exact H2|]. etransitivity; [exact H3|].
  etransitivity; [apply refresh_buckets_preserves|]. etransitivity; [apply maintain_preserves|].
  set (d4 := maintain_registered_torrents _ _). etransitivity.
  - instantiate (1 := save_if_due now d4). unfold save_if_due. case_if; [|done].
    etransitivity; [apply save_preserves|]. apply preserves_times.
  - unfold bootstrap_if_alone. case_if; [|done].
    etransitivity; [apply bootstrap_preserves|]. apply preserves_boot.
Qed.

Lemma dht_step_inv now self Q o d :
  rotation_stable now Q -> event_ok o -> node_inv now self Q d -> node_inv now self Q (fst (dht_step now o d)).
Proof.
  intros HQ Ho Hd. destruct o as [ev| |bound| | |h|h port|h|pa|h port|h|c]; cbn [dht_step fst];
    [|by apply maintenance_inv|..].
  { unfold recv_iteration. case_if; [done|]. destruct ev as [data pa| |]; [|done|].
    + destruct (parse_krpc now data) as [[m|]|e] eqn:E; [|done..]. cbn [fst].
      eapply preserves_inv; [apply lookup_tick_preserves|].
      apply handle_message_inv; [done| |done]. by eapply parse_krpc_ok.
    + eapply preserves_inv; [apply lookup_tick_preserves|done]. }
  all: eapply preserves_inv; [|exact Hd];
    auto using start_begin_preserves, start_finish_preserves, stop_preserves, get_peers_preserves with dht.
  - unfold client_register. case_if; [|apply preserves_coord].
    etransitivity; [apply preserves_coord|]. apply get_peers_preserves.
  - apply preserves_coord.
  - unfold announce. auto with dht.
  - apply (log_completed_preserves now h).
Qed.

Lemma dht_run_inv t self Q d es :
  (forall now, t <= now <= end_time t es -> rotation_stable now Q) ->
  clocked t es -> Forall (fun e => event_ok (snd e)) es ->
  node_inv t self Q d -> node_inv (end_time t es) self Q (dht_run d es).
Proof.
  revert t d. induction es as [|[now o] es IH]; intros t d HQ Hc He Hd; [done|].
  cbn [clocked fst] in Hc. destruct Hc as [Ht Hc]. inversion He as [|? ? Ho He']; subst.
  pose proof (clocked_end now es Hc) as Hend. rewrite end_time_cons in *. cbn [fst] in *.
  assert (node_inv now self Q (fst (dht_step now o d))) as Hs.
  { apply dht_step_inv; [apply HQ; lia|done|]. destruct Hd. split; [|done]. by eapply dht_ok_later. }
  cbn [dht_run]. destruct (dht_step now o d) as [d' r]. cbn [fst] in Hs. case_if.
  - destruct Hs. split; [|done]. by eapply dht_ok_later.
  - apply IH; [intros n Hn; apply HQ; lia|done..].
Qed.
End node.

(** C27: whatever datagrams arrive and however the interface is used, the node stays
    sound: it keeps its identity, its routing table is well formed with at most [K]
    nodes in each bucket, the peer store stays within its two bounds, no lookup has
    more than [LOOKUP_ALPHA] queries in flight, and no exception leaves the receiving
    thread, unless a datagram contains a run of twenty or more decimal digits (whose
    handling can be the out-of-bounds read of the bencode parser, which ends the
    run). *)
Theorem dht_node_invariant (IN : Inet) (SH : Sha1) (PT : InetPton) (DS : DistanceSort) (EN : DhtEnv)
    self port path r fs pos t es :
  nid_ok self -> clocked t es -> Forall (fun e => event_ok (snd e)) es ->
  let d := dht_run (client_new self port path r fs pos) es in
  dc_self d = self /\ rt_ok (dc_rt d) /\ self_id (dc_rt d) = self /\
  (forall b, (b < NUM_BUCKETS)%nat -> (length (bucket_entries (dc_rt d) b) <= RoutingTable.K)%nat) /\
  (lru_size (dc_store d) <= MAX_INFO_HASHES)%nat /\
  Forall (fun x => lru_size (snd x) <= MAX_PEERS_PER_HASH)%nat (view (dc_store d)) /\
  (forall h k, kademlia_lookups (dc_mgr d) !! h = Some k -> (pending_count k <= LOOKUP_ALPHA)%nat) /\
  (forall now ev e, snd (dht_step now (ORecv ev) d) = Throw e ->
     exists data pa, ev = Datagram data pa /\ (Z.of_nat (length data) < 2 ^ 62 -> Bencode.long_number data)).
Proof.
  intros Hself Hc He d. set (d0 := client_new self port path r fs pos).
  assert (node_inv t self (fun _ => True) d0) as H0.
  { split; [|done]. constructor; [done|by apply rt_new_ok|done|apply store_new_ok|]. intros h k. cbn. done. }
  destruct (dht_run_inv t self (fun _ => True) d0 es) as (Hok & Hid & _); [done..|].
  change (dht_run d0 es) with d in Hok, Hid.
  split; [done|]. split; [apply Hok|]. split; [by rewrite (dok_rt_self _ _ Hok)|]. split.
  { intros b Hb. rewrite length_bucket_entries; [|apply Hok|done]. apply (shape_size _ (ok_shape _ (dok_rt _ _ Hok))). }
  split; [eapply store_ok_size, Hok|]. split; [eapply store_ok_buckets, Hok|]. split.
  - intros h k Hk. by apply (dok_mgr _ _ Hok) in Hk as [_ ?].
  - intros now ev e. cbn [dht_step]. unfold recv_iteration. case_if; [done|]. destruct ev as [data pa| |]; [|done..].
    destruct (parse_krpc now data) as [[m|]|e'] eqn:E; cbn [snd]; [done..|]. intros _.
    exists data, pa. split; [done|]. intros Hl. by eapply parse_krpc_throw.
Qed.

Definition sample_client_env : DhtEnv :=
  {| txn_draw := fun n => Z.of_nat n;
     secret_draw := fun n => Some [Z.of_nat n; 1];
     bucket_coin := fun _ _ => false;
     dns_ipv4 := fun _ => Some (str "10.0.0.9");
     fs_env := sample_env |}.

Definition sample_client : DhtClient :=
  client_new (sample_id 1) 6881 (str "table.txt")
    (mkRotator DEFAULT_ROTATION_INTERVAL (str "secret") [] 0 0) ∅ 0.

Lemma sample_client_ok : dht_ok 1 sample_client.
Proof.
  constructor; [apply sample_id_ok|apply rt_new_ok, sample_id_ok|done|apply store_new_ok|]. intros h k. cbn. done.
Qed.

(** A ping from another node, a maintenance pass and a registration. *)
Lemma dht_node_invariant_witness :
  let es := [(1, OStartBegin (Ok (Ok 6881)));
             (2, ORecv (Datagram (make_ping (str "aa") (sample_id 2)) (mkPeer (str "10.0.0.2") 6881)));
             (3, ORegister (mkInfoHash (replicate 20 7)) 7000);
             (seconds 60, OMaintenance)] in
  let d := @dht_run dotted_inet sample_sha1 sample_pton merge_distance_sort sample_client_env sample_client es in
  clocked 0 es /\ rt_ok (dc_rt d) /\ self_id (dc_rt d) = sample_id 1.
Proof.
  intros es d. assert (clocked 0 es) as Hc by (vm_compute; intuition discriminate). split; [exact Hc|].
  pose proof (dht_node_invariant dotted_inet sample_sha1 sample_pton merge_distance_sort sample_client_env
    (sample_id 1) 6881 (str "table.txt") (mkRotator DEFAULT_ROTATION_INTERVAL (str "secret") [] 0 0) ∅ 0 0 es)
    as (_ & Hrt & Hself & _).
  - apply sample_id_ok.
  - exact Hc.
  - apply Forall_cons_2; [exact I|]. apply Forall_cons_2; [|by repeat apply Forall_cons_2].
    unfold event_ok; cbn [snd]. refine (bool_decide_unpack _ _). vm_compute. exact I.
  - split; [exact Hrt|exact Hself].
Defined.

(** ** Tokens through the life of the node *)

Section tokens.
Context {IN : Inet} {SH : Sha1} {PT : InetPton} {DS : DistanceSort} {EN : DhtEnv}.

(** The address an announce is recorded under. *)
Definition announced (msg : KrpcMessage) (pa : PeerAddress) : PeerAddress :=
  if m_implied_port msg then pa else mkPeer (ip pa) (m_peer_port msg).

Lemma rotate_fields now d :
  dc_store (fst (client_rotate now d)) = dc_store d /\ sent (fst (client_rotate now d)) = sent d /\
  callbacks (fst (client_rotate now d)) = callbacks d /\ dc_self (fst (client_rotate now d)) = dc_self d /\
  socket_open (fst (client_rotate now d)) = socket_open d /\
  dc_config (fst (client_rotate now d)) = dc_config d /\ dc_rt (fst (client_rotate now d)) = dc_rt d.
Proof. unfold client_rotate. by destruct (rotate_if_needed _ _ _). Qed.

Lemma send_krpc_open msg pa d b :
  socket_open d = true -> pton4 (ip pa) = Some b -> sent (send_krpc msg pa d) = sent d ++ [mkOut msg pa].
Proof. intros Ho Hp. unfold send_krpc. by rewrite Ho, Hp. Qed.

(** The accepting path of [on_announce_peer]. *)
Lemma on_announce_accepted now msg pa d h :
  m_info_hash msg = Some h -> snd (client_rotate now d) = Ok () ->
  verify_token now (dc_rotator (fst (client_rotate now d))) (m_token msg) (ip pa) = true ->
  on_announce_peer now msg pa d =
  (send_krpc (make_response (m_txn msg) (dc_self d)) (announced msg pa)
     (invoke_peer_callback (ih_hex h) (announced msg pa)
        (set_store (upsert now h (announced msg pa) (dc_store d)) (fst (client_rotate now d)))), Ok ()).
Proof.
  intros Hh Hr Hv. unfold on_announce_peer, announced. rewrite Hh.
  destruct (rotate_fields now d) as (<- & _ & _ & <- & _). destruct (client_rotate now d) as [d1 res].
  cbn [fst snd] in *. rewrite Hr, Hv. cbn [negb]. unfold invoke_peer_callback. by destruct (has_peer_cb _).
Qed.

(** The secrets as long as every draw succeeds: never empty, rotated every five
    minutes. *)
Definition secrets_ok (r : TokenSecretRotator) : Prop :=
  current_secret r <> [] /\ rotation_interval r = DEFAULT_ROTATION_INTERVAL.

Context (draws_ok : forall n, exists s, secret_draw n = Some s /\ s <> []).

Lemma client_rotate_Ok now d : snd (client_rotate now d) = Ok ().
Proof.
  unfold client_rotate, rotate_if_needed. case_if; [done|].
  destruct (draws_ok (rotate_calls d)) as (s & -> & _). done.
Qed.

Lemma secrets_stable now : rotation_stable now secrets_ok.
Proof.
  intros n r [H1 H2]. split; [|by rewrite rotate_interval]. unfold rotate_if_needed. case_if; [done|].
  destruct (draws_ok n) as (s & -> & ?). done.
Qed.

Lemma usable_stable s issued t_end now :
  issued <= now < t_end -> t_end <= issued + DEFAULT_ROTATION_INTERVAL ->
  rotation_stable now (fun r => usable s issued t_end r /\ rotation_interval r = DEFAULT_ROTATION_INTERVAL).
Proof.
  intros Hn Hend n r [Hu Hi]. split; [|by rewrite rotate_interval].
  apply rotate_usable; [done|lia|lia|]. rewrite Hi.
  change (Z.min DEFAULT_ROTATION_INTERVAL PREV_SECRET_TTL) with DEFAULT_ROTATION_INTERVAL. lia.
Qed.
(** The reply to a [get_peers] query carries a token of the current secret. *)
Lemma get_peers_reply_token now q pa d v :
  socket_open d = true -> pton4 (ip pa) = Some v -> msg_ok now q ->
  m_type q = Query -> m_query_type q = Some GetPeers ->
  let d1 := fst (handle_message now q pa d) in
  let token := issue_token (dc_rotator d1) (ip pa) in
  exists reply, sent d1 = sent d ++ [mkOut reply pa] /\
     ((exists peers, reply = make_peers_response (m_txn q) (dc_self d) token peers) \/
      (exists nodes, reply = make_nodes_response_gp (m_txn q) (dc_self d) token nodes)).
Proof.
  intros Ho Hv Hq Ht Hqt d1 token. subst token d1. unfold handle_message. rewrite Ht, Hqt.
  destruct (note_sender_fields now q pa d) as (Fs & Fc & Fself & Fo & _).
  set (dn := note_sender now q pa d) in *.
  destruct (mok_needs_hash _ _ Hq) as [h Hh]; [by left|]. unfold on_get_peers. rewrite Hh.
  pose proof (client_rotate_Ok now dn) as Hr. destruct (rotate_fields now dn) as (_ & Rs & _ & Rself & Ro & _).
  destruct (client_rotate now dn) as [dr res]. cbn [fst snd] in *. rewrite Hr.
  destruct (live_peers _ _ _) as [known st].
  destruct known as [|p known]; cbn [fst];
    (rewrite (send_krpc_open _ _ _ v) by (cbn; congruence)); eexists; (split; [cbn; by rewrite Rs, Fs|]);
    [right|left]; unfold send_krpc; cbn [socket_open set_store];
    rewrite Ro, Fo, Ho, Hv; cbn; rewrite Rself, Fself; eauto.
Qed.

(** Accepting an announce whose token is of a usable secret. *)
Lemma announce_accepted_after now a pa d self s issued h later :
  node_inv now self (fun r => usable s issued (now + 1) r /\ rotation_interval r = DEFAULT_ROTATION_INTERVAL) d ->
  s <> [] -> issued <= now < issued + DEFAULT_ROTATION_INTERVAL ->
  msg_ok now a -> m_type a = Query -> m_query_type a = Some AnnouncePeer -> m_info_hash a = Some h ->
  m_token a = compute_token s (ip pa) -> now <= later < now + PEER_ENTRY_TTL ->
  let d3 := fst (handle_message now a pa d) in
  head (fst (live_peers later h (dc_store d3))) = Some (announced a pa) /\
  (has_peer_cb (dc_config d) = true -> callbacks d3 = callbacks d ++ [(ih_hex h, announced a pa)]).
Proof.
  intros Hinv Hne Hiss Ha Hat Haq Hah Htok Hl d3. subst d3. unfold handle_message. rewrite Hat, Haq.
  destruct (note_sender_fields now a pa d) as (Fs & Fc & Fself & Fo & Fcfg & Fst).
  apply (preserves_inv _ _ _ _ _ (note_sender_preserves now a pa d Ha)) in Hinv.
  set (dn := note_sender now a pa d) in *. pose proof Hinv as (Hokn & _ & _).
  apply (rotate_inv _ _ _ _ (usable_stable s issued (now + 1) now ltac:(lia) ltac:(lia))) in Hinv.
  destruct Hinv as (Hok' & _ & Hu & _).
  rewrite (on_announce_accepted now a pa dn h Hah (client_rotate_Ok now dn))
    by (rewrite Htok; by apply (usable_verify _ issued)).
  cbn [fst]. destruct (send_krpc_sends (make_response (m_txn a) (dc_self dn)) (announced a pa)
    (invoke_peer_callback (ih_hex h) (announced a pa)
       (set_store (upsert now h (announced a pa) (dc_store dn)) (fst (client_rotate now dn))))) as (p & o & ->).
  destruct (rotate_fields now dn) as (Rst & _ & Rc & _ & _ & Rcfg & _). split.
  - assert (forall x y z, dc_store (invoke_peer_callback x y z) = dc_store z) as Hcb
      by (intros; unfold invoke_peer_callback; by case_if).
    cbn. rewrite Hcb. apply upsert_live; [apply Hokn|done].
  - intros Hcb. cbn. unfold invoke_peer_callback. cbn. rewrite Rcfg, Fcfg, Hcb. cbn. by rewrite Rc, Fc.
Qed.
End tokens.

(** C28: the token handshake works across the whole node.  A node that asks for
    peers is answered with a token; if it announces itself with that token from the
    same address within five minutes, then, whatever events the node handled in
    between, the announce is accepted: the peer is recorded, stays first among the
    live peers of the torrent for thirty minutes as far as the announce is the
    latest, and the torrent layer is told. *)
Theorem announce_handshake (IN : Inet) (SH : Sha1) (PT : InetPton) (DS : DistanceSort) (EN : DhtEnv)
    d t0 q pa es t1 a pa' h v later :
  (forall n, exists s, secret_draw n = Some s /\ s <> []) ->
  dht_ok t0 d -> secrets_ok (dc_rotator d) -> socket_open d = true -> pton4 (ip pa) = Some v ->
  msg_ok t0 q -> m_type q = Query -> m_query_type q = Some GetPeers ->
  clocked t0 es -> Forall (fun e => event_ok (snd e)) es ->
  end_time t0 es <= t1 < t0 + DEFAULT_ROTATION_INTERVAL ->
  let d1 := fst (handle_message t0 q pa d) in
  let token := issue_token (dc_rotator d1) (ip pa) in
  let d2 := dht_run d1 es in
  msg_ok t1 a -> m_type a = Query -> m_query_type a = Some AnnouncePeer -> m_info_hash a = Some h ->
  m_token a = token -> ip pa' = ip pa -> t1 <= later < t1 + PEER_ENTRY_TTL ->
  let d3 := fst (handle_message t1 a pa' d2) in
  (exists reply, sent d1 = sent d ++ [mkOut reply pa] /\
     ((exists peers, reply = make_peers_response (m_txn q) (dc_self d) token peers) \/
      (exists nodes, reply = make_nodes_response_gp (m_txn q) (dc_self d) token nodes))) /\
  head (fst (live_peers later h (dc_store d3))) = Some (announced a pa') /\
  (has_peer_cb (dc_config d2) = true -> callbacks d3 = callbacks d2 ++ [(ih_hex h, announced a pa')]).
Proof.
  intros Hdraws Hok Hsec Hopen Hv Hq Hqt Hqq Hc He Ht d1 token d2 Ha Hat Haq Hah Htok Hip Hl d3.
  assert (node_inv t0 (dc_self d) secrets_ok d1) as H1
    by (apply handle_message_inv; [by apply secrets_stable|done|by split]).
  destruct H1 as (Hok1 & Hs1 & [Hne Hint]).
  set (Q r := usable (current_secret (dc_rotator d1)) t0 (t1 + 1) r /\
              rotation_interval r = DEFAULT_ROTATION_INTERVAL).
  assert (node_inv (end_time t0 es) (dc_self d) Q d2) as H2.
  { apply dht_run_inv; [|done..|]; [|split; [done|split; [done|split; [by left|done]]]].
    intros now Hn. apply usable_stable; lia. }
  split; [by apply (get_peers_reply_token Hdraws t0 q pa d v)|].
  apply (announce_accepted_after Hdraws t1 a pa' d2 (dc_self d) (current_secret (dc_rotator d1)) t0 h later); try done.
  - destruct H2 as (? & ? & ?). split; [|done]. eapply dht_ok_later; [|done]. lia.
  - pose proof (clocked_end _ _ Hc). lia.
  - rewrite Htok. unfold token, issue_token. by rewrite Hip.
Qed.

Definition sample_asker : KrpcMessage :=
  mkMsg Query (str "aa") (Some GetPeers) (sample_id 2) nid_zero (Some (mkInfoHash (replicate 20 7))) 0 [] false
    [] [] [] 0 [].

Definition sample_announcer (token : bytes) : KrpcMessage :=
  mkMsg Query (str "bb") (Some AnnouncePeer) (sample_id 2) nid_zero (Some (mkInfoHash (replicate 20 7))) 7000
    token false [] [] [] 0 [].

Lemma sample_query_ok now txn qt tok port implied :
  bytes_ok tok -> 0 <= port < 2 ^ 16 ->
  msg_ok now (mkMsg Query txn (Some qt) (sample_id 2) nid_zero (Some (mkInfoHash (replicate 20 7))) port
                tok implied [] [] [] 0 []).
Proof.
  intros Ht Hp. assert (nid_ok nid_zero) by (apply (bool_decide_unpack (nid_ok nid_zero)); vm_compute; exact I).
  assert (ih_ok (mkInfoHash (replicate 20 7))) as Hh
    by (apply (bool_decide_unpack (ih_ok (mkInfoHash (replicate 20 7)))); vm_compute; exact I).
  constructor; cbn -[replicate]; auto using sample_id_ok; try done; try (by intros ? [= <-]); try constructor; done.
Qed.

(** A get_peers query at time 10, two maintenance passes, the announce four minutes
    later. *)
Lemma announce_handshake_witness :
  let env := sample_client_env in
  let IN := dotted_inet in let SH := sample_sha1 in let PT := sample_pton in let DS := merge_distance_sort in
  let d := fst (dht_step 1 (OStartBegin (Ok (Ok 6881))) sample_client) in
  let pa := mkPeer (str "10.0.0.2") 6881 in
  let es := [(minutes 1, OMaintenance); (minutes 3, OMaintenance)] in
  let d1 := fst (handle_message 10 sample_asker pa d) in
  let a := sample_announcer (issue_token (dc_rotator d1) (ip pa)) in
  head (fst (live_peers (minutes 20) (mkInfoHash (replicate 20 7))
               (dc_store (fst (handle_message (minutes 4) a pa (dht_run d1 es)))))) =
  Some (mkPeer (str "10.0.0.2") 7000).
Proof.
  intros env IN SH PT DS d pa es d1 a.
  apply (announce_handshake IN SH PT DS env d 10 sample_asker pa es (minutes 4) a pa
           (mkInfoHash (replicate 20 7)) (take 4 (str "10.0.0.2")) (minutes 20)); try done.
  - intros n. exists [Z.of_nat n; 1]. done.
  - assert (node_inv 1 (sample_id 1) (fun _ => True) d) as [Hok _].
    { apply dht_step_inv; [done|done|]. split; [|done]. apply sample_client_ok. }
    eapply dht_ok_later; [|exact Hok]. lia.
  - apply sample_query_ok; [constructor|lia].
  - by repeat apply Forall_cons_2.
  - apply sample_query_ok; [|lia]. refine (bool_decide_unpack _ _). vm_compute. exact I.
Defined.

(** The reply to an accepted announce does not go back to the node that sent it.
    Unless [implied_port] is set, [on_announce_peer] overwrites the port of the
    sender's address with the announced one before it replies, so the reply is sent
    to the announced port (usually a TCP listening port), and the querying node,
    when its UDP port is another one, gets none; a refusal does go to the sender. *)
Theorem announce_reply_misdirected (IN : Inet) (SH : Sha1) (PT : InetPton) (DS : DistanceSort) (EN : DhtEnv)
    now msg pa d h v :
  m_info_hash msg = Some h -> m_implied_port msg = false -> m_peer_port msg <> port pa ->
  snd (client_rotate now d) = Ok () -> socket_open d = true -> pton4 (ip pa) = Some v ->
  let d' := fst (on_announce_peer now msg pa d) in
  if verify_token now (dc_rotator (fst (client_rotate now d))) (m_token msg) (ip pa)
  then sent d' = sent d ++ [mkOut (make_response (m_txn msg) (dc_self d)) (mkPeer (ip pa) (m_peer_port msg))] /\
       mkPeer (ip pa) (m_peer_port msg) <> pa
  else sent d' = sent d ++ [mkOut (make_error (m_txn msg) 203 (str "Bad token")) pa].
Proof.
  intros Hh Hi Hne Hr Ho Hv d'. subst d'. destruct (rotate_fields now d) as (_ & Rs & _ & _ & Ro & _).
  destruct (verify_token _ _ _ _) eqn:E.
  - rewrite (on_announce_accepted now msg pa d h Hh Hr E). unfold announced. rewrite Hi. cbn [fst].
    rewrite (send_krpc_open _ _ _ v); [|unfold invoke_peer_callback; case_if; cbn; congruence|done].
    split; [|intros Heq; apply (f_equal port) in Heq; done].
    unfold invoke_peer_callback. case_if; cbn; by rewrite Rs.
  - unfold on_announce_peer. rewrite Hh. destruct (client_rotate now d) as [d1 res]. cbn [fst snd] in *.
    rewrite Hr, E. cbn [negb fst]. rewrite (send_krpc_open _ _ _ v) by (congruence || done).
    by rewrite Rs.
Qed.

Lemma announce_reply_misdirected_witness :
  let IN := dotted_inet in let SH := sample_sha1 in let PT := sample_pton in let DS := merge_distance_sort in
  let EN := sample_client_env in
  let d := fst (dht_step 1 (OStartBegin (Ok (Ok 6881))) sample_client) in
  let pa := mkPeer (str "10.0.0.2") 6881 in
  let a := sample_announcer (issue_token (dc_rotator d) (ip pa)) in
  let d' := fst (on_announce_peer 10 a pa d) in
  map out_pa (sent d') = [mkPeer (str "10.0.0.2") 7000] /\
  sent d' = sent d ++ [mkOut (make_response (str "bb") (sample_id 1)) (mkPeer (ip pa) 7000)] /\
  mkPeer (ip pa) 7000 <> pa.
Proof.
  intros IN SH PT DS EN d pa a d'. split; [vm_compute; reflexivity|].
  apply (announce_reply_misdirected IN SH PT DS EN 10 a pa d (mkInfoHash (replicate 20 7)) (take 4 (str "10.0.0.2")));
    try reflexivity; vm_compute; discriminate.
Defined.

(** ** Peers of replies *)

Section delivery.
Context {IN : Inet} {SH : Sha1} {PT : InetPton} {DS : DistanceSort} {EN : DhtEnv}.

(** Steps that call no peer callback. *)
Definition silent (d d' : DhtClient) : Prop :=
  callbacks d' = callbacks d /\ dc_config d' = dc_config d.

#[global] Instance silent_preorder : PreOrder silent.
Proof. split; [by split|]. intros d d' d'' [] []. split; congruence. Qed.

Lemma sends_silent d d' : sends d d' -> silent d d'.
Proof. by intros (p & o & ->). Qed.

Lemma log_completed_silent now h d : silent d (log_get_peers_lookup_completed now h d).
Proof. unfold log_get_peers_lookup_completed, live_peer_count. by destruct (live_peers _ _ _). Qed.

Lemma get_peers_silent now h d : silent d (get_peers now h d).
Proof.
  unfold get_peers. destruct (start_or_advance _ _ _ _ _ _) as [r m]. case_if; [done|].
  transitivity (send_all (st_outbound r)
    (set_coord (mark_initial_lookup_started h (dc_coord d)) (set_mgr m (set_store (ensure_bucket h (dc_store d)) d)))).
  - etransitivity; [|apply sends_silent, send_all_sends]. done.
  - case_if; [apply log_completed_silent|done].
Qed.

Lemma try_pending_silent now d : silent d (try_pending_initial_lookups now d).
Proof.
  unfold try_pending_initial_lookups. case_if; [done|]. apply (fold_left_rel silent).
  intros d' h. case_if; [done|]. apply get_peers_silent.
Qed.

(** The peers a reply lists. *)
Definition reply_peers (msg : KrpcMessage) : list PeerAddress :=
  omap (fun v => match compact_to_peer v 0 with Some (i, p) => Some (mkPeer i p) | None => None end) (m_values msg).

Lemma values_callbacks now h vs d :
  let d' := fold_left (on_value now h) vs d in
  callbacks d' = callbacks d ++
    (if has_peer_cb (dc_config d)
     then map (fun p => (ih_hex h, p))
            (omap (fun v => match compact_to_peer v 0 with Some (i, p) => Some (mkPeer i p) | None => None end) vs)
     else []) /\
  dc_config d' = dc_config d.
Proof.
  revert d. induction vs as [|v vs IH]; intros d; cbn [fold_left omap list_omap].
  { split; [|done]. by case_if; rewrite app_nil_r. }
  specialize (IH (on_value now h d v)). destruct IH as [IHc IHf]. cbv zeta. rewrite IHc, IHf.
  unfold on_value. destruct (compact_to_peer v 0) as [[i p]|]; [|done].
  unfold invoke_peer_callback. cbn [dc_config set_store].
  destruct (has_peer_cb (dc_config d)) eqn:E; cbn [callbacks dc_config set_logs set_store]; rewrite E;
    [|done]. by rewrite <- app_assoc.
Qed.

(** ... and leave the lookups and the store alone. *)
Definition quiet (d d' : DhtClient) : Prop :=
  dc_mgr d' = dc_mgr d /\ dc_store d' = dc_store d /\ silent d d'.

#[global] Instance quiet_preorder : PreOrder quiet.
Proof.
  split; [intros d; unfold quiet; split_and!; done|]. intros d1 d2 d3 (? & ? & [? ?]) (? & ? & [? ?]).
  unfold quiet, silent. split_and!; congruence.
Qed.

Lemma add_nodes_quiet now ns d : quiet d (add_nodes now ns d).
Proof. by apply (fold_left_rel quiet). Qed.

Lemma maybe_mark_quiet now d : quiet d (maybe_mark_bootstrap_complete now d).
Proof. unfold maybe_mark_bootstrap_complete. by repeat case_if. Qed.

Lemma note_sender_quiet now msg pa d : quiet d (note_sender now msg pa d).
Proof. unfold note_sender. case_if; [done|]. etransitivity; [|apply maybe_mark_quiet]. done. Qed.

Lemma collect_announces_quiet msg pa d : quiet d (snd (collect_announces msg pa d)).
Proof. unfold collect_announces. by repeat case_match. Qed.

Lemma on_response_txn draw self now rt msg m :
  let r := fst (LookupManager.on_response draw self now rt msg m) in
  rr_info_hash r = info_hash_for_txn (m_txn msg) m /\
  txn_known r = bool_decide (is_Some (info_hash_for_txn (m_txn msg) m)).
Proof.
  unfold LookupManager.on_response, info_hash_for_txn. destruct (pending_lookups m !! m_txn msg) as [[h t]|]; [|done].
  cbn [fmap option_fmap option_map fst]. destruct (if bool_decide _ then _ else _) as [[out completed] m'].
  by split.
Qed.
End delivery.

(** The torrent layer learns exactly the peers the network was asked for.  The
    callback is called once per readable peer of a reply, in order, with the info
    hash of the lookup the reply's transaction belongs to; a reply nobody waits for
    (or a forged one with a wrong transaction) delivers no peer and leaves the peer
    store untouched. *)
Theorem reply_peers_delivered (IN : Inet) (SH : Sha1) (PT : InetPton) (DS : DistanceSort) (EN : DhtEnv)
    now msg pa d :
  m_type msg = Response ->
  let d' := fst (handle_message now msg pa d) in
  match info_hash_for_txn (m_txn msg) (dc_mgr d) with
  | Some h =>
      callbacks d' = callbacks d ++
        (if has_peer_cb (dc_config d) then map (fun p => (ih_hex h, p)) (reply_peers msg) else [])
  | None => callbacks d' = callbacks d /\ dc_store d' = dc_store d
  end.
Proof.
  intros Ht d'. subst d'. unfold handle_message. rewrite Ht. cbn [fst]. unfold client_on_response.
  set (d1 := match m_nodes msg with [] => _ | _ => _ end).
  assert (quiet d d1) as H1.
  { etransitivity; [apply (note_sender_quiet now msg pa)|]. unfold d1. destruct (m_nodes msg); [done|].
    etransitivity; [apply add_nodes_quiet|apply maybe_mark_quiet]. }
  pose proof (collect_announces_quiet msg pa d1) as H2. destruct (collect_announces msg pa d1) as [reqs d2].
  cbn [snd] in H2. assert (quiet d d2) as (Em & Es & Ec & Ef) by (by etransitivity).
  destruct (on_response_txn txn_draw (dc_self d2) now (dc_rt d2) msg (dc_mgr d2)) as [Hh Hk].
  rewrite Em in Hh, Hk. rewrite Em. destruct (LookupManager.on_response _ _ _ _ _ _) as [r m]. cbn [fst] in *.
  rewrite Hh, Hk. destruct (info_hash_for_txn (m_txn msg) (dc_mgr d)) as [h|].
  - rewrite (bool_decide_true (is_Some (Some h))) by done. cbn [negb].
    set (d3 := fold_left _ _ _). destruct (values_callbacks now h (m_values msg) (set_mgr m d2)) as [Vc Vf].
    fold d3 in Vc, Vf. cbn [callbacks dc_config set_mgr] in Vc, Vf.
    rewrite (proj1 (try_pending_silent now _)).
    rewrite (proj1 (sends_silent _ _ (send_announce_requests_sends reqs _))).
    transitivity (callbacks (send_all (rr_outbound r) d3)).
    + case_if; [apply (log_completed_silent now h)|done].
    + rewrite (proj1 (sends_silent _ _ (send_all_sends _ _))). by rewrite Vc, Ec, Ef.
  - rewrite bool_decide_false by (by intros [? [=]]). cbn [negb].
    destruct (send_announce_requests_sends reqs (set_mgr m d2)) as (p & o & ->). done.
Qed.

(** A lookup is started, its first query is answered with one peer. *)
Lemma reply_peers_delivered_witness :
  let IN := dotted_inet in let SH := sample_sha1 in let PT := sample_pton in let DS := merge_distance_sort in
  let EN := sample_client_env in
  let h := mkInfoHash (replicate 20 7) in
  let pa := mkPeer (str "10.0.0.2") 6881 in
  let d := dht_run sample_client
    [(1, OConfigure (mkConfig false (str "table.txt") true false true)); (2, OStartBegin (Ok (Ok 6881)));
     (3, ORecv (Datagram (make_ping (str "aa") (sample_id 2)) pa)); (4, ORegister h 7000)] in
  let msg := mkMsg Response (txn_at txn_draw 0) None (sample_id 2) nid_zero None 0 [] false [] []
    [[10; 0; 0; 5; 26; 225]] 0 [] in
  info_hash_for_txn (m_txn msg) (dc_mgr d) = Some h /\
  callbacks (fst (handle_message 5 msg pa d)) = [(ih_hex h, mkPeer (str "10.0.0.5") 6881)].
Proof.
  intros IN SH PT DS EN h pa d msg.
  assert (info_hash_for_txn (m_txn msg) (dc_mgr d) = Some h) as E by (vm_compute; reflexivity).
  split; [exact E|]. pose proof (reply_peers_delivered IN SH PT DS EN 5 msg pa d eq_refl) as Hd.
  cbv zeta in Hd. rewrite E in Hd. etransitivity; [exact Hd|]. vm_compute. reflexivity.
Defined.
