(* ===== verification/DhtKeeps.v ===== *)
(** * What every step of the DHT node keeps
    (src/dht/dht_client.cpp)

    Neither thread of the node changes its configuration or the ports its torrents are
    registered with, and the callbacks that were made stay made: a relation [carries] that
    every operation of the two threads respects, for the session that uses the node. *)

From S2P Require Import Prelude CxxLib Hash Addr NodeId RoutingTable RoutingTableStore KademliaLookup.
From S2P Require Import TokenRotator LruCache DhtPeerStore AnnounceCoordinator Krpc LookupManager DhtClient.

Section carries.
Context {IN : Inet} {SH : Sha1} {PT : InetPton} {DS : DistanceSort} {EN : DhtEnv}.

(** The ports under which torrents are registered. *)
Definition ports (d : DhtClient) : gmap InfoHash Z := listen_port <$> registered (dc_coord d).

(** The registrations and the configuration stay, callbacks and datagrams are only
    added. *)
Definition carries (d d' : DhtClient) : Prop :=
  dc_config d' = dc_config d /\ ports d' = ports d /\ callbacks d `prefix_of` callbacks d' /\
  sent d `prefix_of` sent d'.

(** ... and the cursor of the bucket refresh does not move. *)
Definition steady (d d' : DhtClient) : Prop :=
  carries d d' /\ refresh_bucket_cursor d' = refresh_bucket_cursor d.

#[global] Instance carries_preorder : PreOrder carries.
Proof.
  split; [intros d; by split_and!|]. intros d1 d2 d3 (A1 & B1 & C1 & D1) (A2 & B2 & C2 & D2).
  split_and!; [congruence|congruence|by etransitivity..].
Qed.

#[global] Instance steady_preorder : PreOrder steady.
Proof.
  split; [by intros d|]. intros d1 d2 d3 [A1 B1] [A2 B2]. split; [by etransitivity|congruence].
Qed.

Lemma sends_steady d d' : sends d d' -> steady d d'.
Proof. intros (p & o & ->). split; [|done]. split_and!; [done..|]. cbn. by apply prefix_app_r. Qed.

Lemma mark_started_ports h c :
  listen_port <$> registered (mark_initial_lookup_started h c) = listen_port <$> registered c.
Proof.
  unfold mark_initial_lookup_started. destruct (registered c !! h) as [reg|] eqn:E; [|done]. cbn.
  rewrite fmap_insert. cbn. apply insert_id. by rewrite lookup_fmap, E.
Qed.

Lemma mark_refreshed_ports h now c :
  listen_port <$> registered (mark_refreshed h now c) = listen_port <$> registered c.
Proof.
  unfold mark_refreshed. destruct (registered c !! h) as [reg|] eqn:E; [|done]. cbn.
  rewrite fmap_insert. cbn. apply insert_id. by rewrite lookup_fmap, E.
Qed.

Lemma log_completed_steady now h d : steady d (log_get_peers_lookup_completed now h d).
Proof. unfold log_get_peers_lookup_completed, live_peer_count. by destruct (live_peers _ _ _). Qed.

Lemma get_peers_steady now h d : steady d (get_peers now h d).
Proof.
  unfold get_peers. destruct (start_or_advance _ _ _ _ _ _) as [r m]. case_if; [done|].
  set (d1 := set_coord _ _). assert (steady d d1) as H1 by (split; [|done]; split_and!; [done|apply mark_started_ports|done..]).
  assert (steady d (send_all (st_outbound r) d1)) as H2.
  { etransitivity; [exact H1|]. apply sends_steady, send_all_sends. }
  case_if; [|exact H2]. etransitivity; [exact H2|]. apply log_completed_steady.
Qed.

Lemma try_pending_steady now d : steady d (try_pending_initial_lookups now d).
Proof.
  unfold try_pending_initial_lookups. case_if; [done|]. apply (fold_left_rel steady).
  intros d' h. case_if; [done|]. apply get_peers_steady.
Qed.

Lemma maintain_steady now d : steady d (maintain_registered_torrents now d).
Proof.
  unfold maintain_registered_torrents. etransitivity; [apply (try_pending_steady now)|]. apply (fold_left_rel steady).
  intros d' h. case_if; [done|]. etransitivity; [apply (get_peers_steady now h)|].
  split; [|done]; split_and!; [done|apply mark_refreshed_ports|done..].
Qed.

Lemma maybe_mark_steady now d : steady d (maybe_mark_bootstrap_complete now d).
Proof. unfold maybe_mark_bootstrap_complete. by repeat case_if. Qed.

Lemma note_sender_steady now msg pa d : steady d (note_sender now msg pa d).
Proof. unfold note_sender. case_if; [done|]. etransitivity; [|apply maybe_mark_steady]. done. Qed.

Lemma callback_steady h pa d : steady d (invoke_peer_callback h pa d).
Proof. unfold invoke_peer_callback. case_if; [|done].
  split; [|done]. split_and!; [done|done| |done]. cbn. by apply prefix_app_r. Qed.

Lemma rotate_steady now d : steady d (fst (client_rotate now d)).
Proof. unfold client_rotate. by destruct (rotate_if_needed _ _ _). Qed.

Lemma on_value_steady now h d c : steady d (on_value now h d c).
Proof.
  unfold on_value. destruct (compact_to_peer c 0) as [[i p]|]; [|done].
  etransitivity; [|apply callback_steady]. done.
Qed.

Lemma collect_steady msg pa d : steady d (snd (collect_announces msg pa d)).
Proof.
  unfold collect_announces. case_if; [done|]. destruct (info_hash_for_txn _ _) as [h|]; [|done].
  unfold on_get_peers_response. case_if; [done|]. by destruct (registered _ !! h).
Qed.

Lemma on_response_steady now msg pa d : steady d (client_on_response now msg pa d).
Proof.
  unfold client_on_response. set (d1 := match m_nodes msg with [] => _ | _ => _ end).
  assert (steady d d1) as H1.
  { assert (steady d (add_nodes now (m_nodes msg) d)) as H by (by apply (fold_left_rel steady)).
    unfold d1. destruct (m_nodes msg); [done|]. etransitivity; [exact H|]. apply maybe_mark_steady. }
  pose proof (collect_steady msg pa d1) as H2. destruct (collect_announces msg pa d1) as [reqs d2]. cbn [snd] in H2.
  destruct (LookupManager.on_response _ _ _ _ _ _) as [r m].
  assert (steady d (set_mgr m d2)) as H3 by (etransitivity; [exact H1|]; etransitivity; [exact H2|done]).
  case_if; [etransitivity; [exact H3|]; apply sends_steady, send_announce_requests_sends|].
  etransitivity; [|apply try_pending_steady]. etransitivity; [|apply sends_steady, send_announce_requests_sends].
  destruct (rr_info_hash r) as [h|].
  - assert (forall d', steady (send_all (rr_outbound r) d') (if rr_completed r
      then log_get_peers_lookup_completed now h (send_all (rr_outbound r) d') else send_all (rr_outbound r) d')) as H
      by (intros d'; case_if; [apply log_completed_steady|done]).
    etransitivity; [|apply H]. etransitivity; [|apply sends_steady, send_all_sends].
    etransitivity; [exact H3|]. apply (fold_left_rel steady). intros. apply on_value_steady.
  - etransitivity; [exact H3|]. apply sends_steady, send_all_sends.
Qed.

Lemma handle_message_steady now msg pa d : steady d (fst (handle_message now msg pa d)).
Proof.
  unfold handle_message. pose proof (note_sender_steady now msg pa d) as H. set (d1 := note_sender now msg pa d) in *.
  assert (forall d', steady d1 d' -> steady d d') as Ht by (intros d' Hd; by etransitivity).
  destruct (m_type msg); [|apply Ht, on_response_steady|exact H].
  destruct (m_query_type msg) as [[]|]; cbn [fst]; [apply Ht, sends_steady, send_krpc_sends..| | |exact H].
  - unfold on_get_peers. destruct (m_info_hash msg) as [h|]; [|exact H].
    pose proof (rotate_steady now d1) as Hr. destruct (client_rotate now d1) as [d2 [u|e]]; cbn [fst] in *; [|by apply Ht].
    destruct (live_peers _ _ _) as [ps st].
    assert (steady d (set_store st d2)) as H2 by (etransitivity; [by apply Ht|done]).
    destruct ps; (etransitivity; [exact H2|]; apply sends_steady, send_krpc_sends).
  - unfold on_announce_peer. destruct (m_info_hash msg) as [h|]; [|exact H].
    pose proof (rotate_steady now d1) as Hr. destruct (client_rotate now d1) as [d2 [u|e]]; cbn [fst] in *; [|by apply Ht].
    assert (steady d d2) as H2 by (by apply Ht).
    case_if; (etransitivity; [|apply sends_steady, send_krpc_sends]); [exact H2|].
    etransitivity; [|apply callback_steady]. exact H2.
Qed.

Lemma lookup_tick_steady now d : steady d (lookup_tick now d).
Proof.
  unfold lookup_tick. case_if; [|done]. cbv zeta. destruct (tick _ _ _ _ _) as [out m].
  etransitivity; [|apply sends_steady, send_all_sends]. done.
Qed.

Lemma recv_steady now ev d : steady d (fst (recv_iteration now ev d)).
Proof.
  unfold recv_iteration. case_if; [done|]. destruct ev as [data pa| |]; [|done|apply lookup_tick_steady].
  destruct (parse_krpc now data) as [[msg|]|e]; [|done|done]. cbn [fst].
  etransitivity; [|apply lookup_tick_steady]. apply handle_message_steady.
Qed.

Lemma bootstrap_steady now d : steady d (bootstrap now d).
Proof.
  unfold bootstrap. etransitivity; [|apply (fold_left_rel steady); intros; apply sends_steady, ping_bootstrap_sends].
  done.
Qed.

Lemma start_begin_steady now bound d : steady d (fst (start_begin now bound d)).
Proof.
  unfold start_begin. case_if; [done|]. destruct bound as [[port|e]|e]; [|done..]. cbv zeta.
  set (d1 := set_boot _ _). assert (steady d d1) as H1 by done.
  case_if; [exact H1|]. case_if; [exact H1|].
  assert (steady d1 (fst (load_persisted_routing_table now d1))) as H2.
  { unfold load_persisted_routing_table. destruct (load _ _) as [r|e]; [|done]. case_if; [done|].
    by apply (fold_left_rel steady). }
  destruct (load_persisted_routing_table now d1) as [d2 [u|e]]; cbn [fst] in *; [|by etransitivity].
  set (d3 := set_boot _ _). assert (steady d d3) as H3 by (etransitivity; [exact H1|]; etransitivity; [exact H2|done]).
  case_if; [exact H3|]. etransitivity; [exact H3|]. apply (fold_left_rel steady). intros. apply sends_steady, ping_sends.
Qed.

Lemma start_finish_steady now d : steady d (start_finish now d).
Proof.
  unfold start_finish. cbv zeta. set (d1 := if _ && _ && _ then _ else d : DhtClient). assert (steady d d1) as H by (unfold d1; by case_if).
  case_if; [etransitivity; [exact H|apply bootstrap_steady]|].
  case_if; [etransitivity; [exact H|apply maybe_mark_steady]|exact H].
Qed.

(** What the refresh of the buckets reads. *)
Definition same_net (d d' : DhtClient) : Prop :=
  dc_rt d' = dc_rt d /\ dc_self d' = dc_self d /\ socket_open d' = socket_open d.

#[global] Instance same_net_preorder : PreOrder same_net.
Proof. split; [by intros d|]. intros d1 d2 d3 (? & ? & ?) (? & ? & ?). split_and!; congruence. Qed.

Lemma sends_same_net d d' : sends d d' -> same_net d d'.
Proof. by intros (p & o & ->). Qed.

Lemma refresh_buckets_carries now d : carries d (refresh_buckets now d).
Proof.
  unfold refresh_buckets. destruct (buckets_needing_refresh _ _ _) as [|b bs]; [done|].
  destruct (refresh_plan _ _) as [chosen cursor].
  assert (carries d (fold_left refresh_bucket chosen d)) as H; [|etransitivity; [exact H|done]].
  apply (fold_left_rel carries). intros d' x. unfold refresh_bucket.
  etransitivity; [|apply (sends_steady _ _ (send_find_nodes_sends _ _ _))]. done.
Qed.

(** A maintenance pass that was not cut short: what comes before the refresh of the
    buckets, and what comes after it. *)
Lemma maintenance_parts now d :
  running d = true -> snd (client_rotate now d) = Ok () ->
  exists d1, steady d d1 /\ same_net d d1 /\ snd (maintenance_iteration now d) = Ok () /\
    steady (refresh_buckets now d1) (fst (maintenance_iteration now d)).
Proof.
  intros Hrun Hrot. unfold maintenance_iteration. rewrite Hrun. cbn [negb].
  pose proof (rotate_steady now d) as Hr.
  assert (same_net d (fst (client_rotate now d))) as Hn by (unfold client_rotate; by destruct (rotate_if_needed _ _ _)).
  destruct (client_rotate now d) as [d1 res]. cbn [fst snd] in *. rewrite Hrot.
  destruct (tick _ _ _ _ _) as [out m]. cbn [fst snd]. set (d2 := send_all out _).
  assert (sends (set_mgr m (set_mgr (expire_active_lookups now (dc_mgr d1)) d1)) d2) as Hs by apply send_all_sends.
  exists (set_store (expire_stale now (dc_store d2)) d2). split_and!.
  - etransitivity; [exact Hr|]. etransitivity; [|exact (sends_steady _ _ Hs)]. done.
  - etransitivity; [exact Hn|]. etransitivity; [|exact (sends_same_net _ _ Hs)]. done.
  - done.
  - set (d3 := refresh_buckets now _). set (d4 := save_if_due now _). assert (steady d3 d4) as H.
    { etransitivity; [apply (maintain_steady now)|]. unfold d4, save_if_due, save_persisted_routing_table.
      by repeat case_if. }
    unfold bootstrap_if_alone. case_if; [|exact H]. etransitivity; [exact H|].
    etransitivity; [apply (bootstrap_steady now)|]. done.
Qed.

Lemma maintenance_carries now d : carries d (fst (maintenance_iteration now d)).
Proof.
  destruct (running d) eqn:Hrun; [|unfold maintenance_iteration; by rewrite Hrun].
  destruct (snd (client_rotate now d)) as [[]|e] eqn:Hrot.
  - destruct (maintenance_parts now d Hrun Hrot) as (d1 & [H1 _] & _ & _ & [H2 _]).
    etransitivity; [exact H1|]. etransitivity; [apply refresh_buckets_carries|exact H2].
  - unfold maintenance_iteration. rewrite Hrun. pose proof (rotate_steady now d) as [Hr _].
    destruct (client_rotate now d) as [d1 res]. cbn [fst snd negb] in *. by rewrite Hrot.
Qed.
End carries.
