(* ===== verification/DhtRefresh.v ===== *)
(** * The refresh of the stale buckets
    (src/dht/dht_client.cpp: [refresh_buckets], [refresh_bucket],
    [maintenance_iteration])

    Which datagrams one maintenance pass sends for the buckets nothing was heard from,
    and that over the passes of a run, whatever happens between them, no bucket is
    passed over. *)

From S2P Require Import Prelude CxxLib Hash Addr NodeId RoutingTable RoutingTableStore KademliaLookup.
From S2P Require Import TokenRotator LruCache DhtPeerStore AnnounceCoordinator Krpc LookupManager DhtClient DhtKeeps.

(** ** Which buckets are chosen *)

(** The buckets refreshed by [n] ticks while the list of stale buckets stays the same. *)
Fixpoint refresh_run (buckets : list nat) (cursor n : nat) : list nat :=
  match n with
  | O => []
  | S n' => let '(chosen, cursor') := refresh_plan buckets cursor in chosen ++ refresh_run buckets cursor' n'
  end.

Lemma refresh_run_cyclic buckets cursor n :
  buckets <> [] ->
  refresh_run buckets cursor n =
  map (fun j => default 0%nat (buckets !! ((cursor + j) mod length buckets)%nat))
    (seq 0 (n * Nat.min MAX_BUCKETS_REFRESH_PER_TICK (length buckets))).
Proof.
  intros Hne. assert (length buckets <> 0)%nat as Hl by (by destruct buckets).
  revert cursor. induction n as [|n IH]; intros cursor; [done|]. cbn [refresh_run refresh_plan].
  rewrite IH. set (m := Nat.min _ _). replace (S n * m)%nat with (m + n * m)%nat by lia.
  rewrite seq_app, map_app. f_equal.
  - apply map_ext. intros j. do 2 f_equal. by rewrite Nat.Div0.add_mod_idemp_l.
  - rewrite Nat.add_0_l, <- (Nat.add_0_r m), <- fmap_add_seq, map_map. apply map_ext. intros j. do 2 f_equal.
    rewrite Nat.add_0_r, Nat.Div0.add_mod_idemp_l, <- Nat.add_assoc, Nat.Div0.add_mod_idemp_l. done.
Qed.

Lemma refresh_run_fair buckets cursor n b :
  b ∈ buckets -> (length buckets <= MAX_BUCKETS_REFRESH_PER_TICK * n)%nat -> b ∈ refresh_run buckets cursor n.
Proof.
  intros Hb Hn. destruct buckets as [|b0 bs] eqn:Eb; [by apply not_elem_of_nil in Hb|]. rewrite <- Eb in *.
  assert (length buckets <> 0)%nat as Hl by (subst; done).
  apply list_elem_of_lookup in Hb as [x Hx]. pose proof (lookup_lt_Some _ _ _ Hx) as Hxl.
  rewrite refresh_run_cyclic by (by subst). set (len := length buckets) in *.
  apply list_elem_of_fmap. exists ((x + (len - cursor mod len)) mod len)%nat. split.
  - rewrite Nat.Div0.add_mod_idemp_r.
    assert (cursor mod len < len)%nat as Hc by (apply Nat.mod_upper_bound; lia).
    pose proof (Nat.div_mod_eq cursor len) as Hd.
    replace (cursor + (x + (len - cursor mod len)))%nat with (x + (cursor / len + 1) * len)%nat by nia.
    rewrite Nat.Div0.mod_add, Nat.mod_small by lia. by rewrite Hx.
  - apply elem_of_seq. split; [lia|]. rewrite Nat.add_0_l.
    eapply Nat.lt_le_trans; [apply Nat.mod_upper_bound; lia|]. unfold MAX_BUCKETS_REFRESH_PER_TICK in *.
    destruct (Nat.min_spec 3 len) as [[? ->]|[? ->]]; nia.
Qed.

Lemma refresh_plan_chosen buckets cursor b :
  buckets <> [] -> b ∈ fst (refresh_plan buckets cursor) -> b ∈ buckets.
Proof.
  intros Hne (j & -> & _)%list_elem_of_fmap. assert (length buckets <> 0)%nat by (by destruct buckets).
  destruct (lookup_lt_is_Some_2 buckets ((cursor mod length buckets + j) mod length buckets)) as [x Hx].
  { by apply Nat.mod_upper_bound. }
  rewrite Hx. cbn. by eapply list_elem_of_lookup_2.
Qed.

Lemma refresh_plan_length buckets cursor :
  length (fst (refresh_plan buckets cursor)) = Nat.min MAX_BUCKETS_REFRESH_PER_TICK (length buckets).
Proof. unfold refresh_plan. cbn [fst]. by rewrite length_map, length_seq. Qed.

Lemma refresh_plan_NoDup buckets cursor : NoDup buckets -> NoDup (fst (refresh_plan buckets cursor)).
Proof.
  intros Hnd. unfold refresh_plan. cbn [fst]. apply NoDup_fmap_2_strong; [|apply NoDup_seq].
  intros i j Hi%elem_of_seq Hj%elem_of_seq E.
  assert (length buckets <> 0)%nat as Hl by lia. set (len := length buckets) in *.
  set (c := (cursor mod len)%nat) in *. assert (c < len)%nat by (by apply Nat.mod_upper_bound).
  destruct (lookup_lt_is_Some_2 buckets ((c + i) mod len)) as [x Hx]; [by apply Nat.mod_upper_bound|].
  destruct (lookup_lt_is_Some_2 buckets ((c + j) mod len)) as [y Hy]; [by apply Nat.mod_upper_bound|].
  rewrite Hx, Hy in E. cbn in E. subst y. pose proof (NoDup_lookup _ _ _ _ Hnd Hx Hy) as Em.
  pose proof (Nat.div_mod_eq (c + i) len). pose proof (Nat.div_mod_eq (c + j) len). 
  assert ((c + i) / len = (c + j) / len \/ (c + i) / len <> (c + j) / len)%nat as [Eq|Ne] by lia; nia.
Qed.

(** ** What is sent for a bucket *)

Section refresh.
Context {IN : Inet} {SH : Sha1} {PT : InetPton} {DS : DistanceSort} {EN : DhtEnv}.

(** A query for [target] to the node [e]. *)
Definition asks (self target : NodeId) (e : RoutingEntry) (o : OutboundKrpc) : Prop :=
  exists txn, o = mkOut (make_find_node txn self target) (re_pa e).

(** The nodes to ask for [target]: the three closest of the table, those whose
    address is one. *)
Definition to_ask (d : DhtClient) (target : NodeId) : list RoutingEntry :=
  filter (fun e => is_Some (pton4 (ip (re_pa e)))) (take 3 (closest (dc_rt d) target RoutingTable.K)).

(** [out] refreshes the bucket [b]: one query to each of these nodes, for an
    identifier of the bucket. *)
Definition refreshes (d : DhtClient) (b : nat) (out : list OutboundKrpc) : Prop :=
  exists target, nid_ok target /\ bucket_index (dc_self d) target = b /\
    Forall2 (asks (dc_self d) target) (if socket_open d then to_ask d target else []) out.

Lemma refreshes_same d d' b out : same_net d d' -> refreshes d' b out -> refreshes d b out.
Proof. unfold refreshes, to_ask. intros (-> & -> & ->). done. Qed.

Lemma send_find_nodes_asks target nodes d :
  exists out, sent (send_find_nodes target nodes d) = sent d ++ out /\
    Forall2 (asks (dc_self d) target)
      (if socket_open d then filter (fun e => is_Some (pton4 (ip (re_pa e)))) (take 3 nodes) else []) out.
Proof.
  unfold send_find_nodes. induction (take 3 nodes) as [|e l IH] in d |- *; cbn [fold_left].
  { exists []. rewrite app_nil_r. split; [done|]. by case_if. }
  set (d1 := let '(txn, d) := next_txn d in send_krpc (make_find_node txn (dc_self d) target) (re_pa e) d).
  assert (same_net d d1) as (_ & Es & Eo) by (apply sends_same_net, (send_fresh_sends (fun txn self => make_find_node txn self target))).
  destruct (IH d1) as (out & -> & Ho). rewrite Es, Eo in Ho.
  assert (sent d1 = sent d ++ (if socket_open d && bool_decide (is_Some (pton4 (ip (re_pa e))))
    then [mkOut (make_find_node (fst (next_txn d)) (dc_self d) target) (re_pa e)] else [])) as ->.
  { unfold d1, send_krpc. cbn. destruct (socket_open d); cbn; [|by rewrite app_nil_r].
    destruct (pton4 _) as [v|]; [done|]. by rewrite app_nil_r. }
  eexists. split; [by rewrite <- app_assoc|]. destruct (socket_open d); cbn [andb]; [|done].
  rewrite filter_cons. case_bool_decide; case_decide; [|done..]. cbn. constructor; [by eexists|done].
Qed.

Lemma refresh_bucket_refreshes d b :
  nid_ok (dc_self d) -> self_id (dc_rt d) = dc_self d -> (b < 160)%nat ->
  exists out, sent (refresh_bucket d b) = sent d ++ out /\ refreshes d b out.
Proof.
  intros Hs Hid Hb. unfold refresh_bucket. rewrite Hid. set (target := random_id_in_bucket _ _ _). cbv zeta.
  destruct (send_find_nodes_asks target (closest (dc_rt (set_cursor (refresh_bucket_cursor d) (S (target_draws d)) d))
    target RoutingTable.K) (set_cursor (refresh_bucket_cursor d) (S (target_draws d)) d)) as (out & E & Ho).
  exists out. split; [exact E|]. exists target. unfold target.
  split; [by apply random_id_spec|]. split; [by apply random_id_bucket|exact Ho].
Qed.

Lemma refresh_bucket_same_net d b : same_net d (refresh_bucket d b).
Proof.
  unfold refresh_bucket. etransitivity; [|apply sends_same_net, send_find_nodes_sends]. done.
Qed.

Lemma refresh_chosen_refreshes chosen d :
  nid_ok (dc_self d) -> self_id (dc_rt d) = dc_self d -> Forall (fun b => b < 160)%nat chosen ->
  exists outs, sent (fold_left refresh_bucket chosen d) = sent d ++ concat outs /\ Forall2 (refreshes d) chosen outs.
Proof.
  intros Hs Hid Hc. induction Hc as [|b chosen Hb Hc IH] in d, Hs, Hid |- *; cbn [fold_left].
  { exists []. split; [by rewrite app_nil_r|constructor]. }
  destruct (refresh_bucket_refreshes d b Hs Hid Hb) as (out & Eo & Ho).
  pose proof (refresh_bucket_same_net d b) as Hn. destruct Hn as (Er & Es & Eso).
  destruct (IH (refresh_bucket d b)) as (outs & Eos & Hos); [congruence..|].
  exists (out :: outs). split; [by rewrite Eos, Eo, <- app_assoc|]. constructor; [done|].
  eapply Forall2_impl; [exact Hos|]. intros x y. by apply refreshes_same.
Qed.

(** [refresh_buckets]: the chosen buckets are refreshed and nothing else is sent. *)
Lemma refresh_buckets_spec now d :
  nid_ok (dc_self d) -> self_id (dc_rt d) = dc_self d ->
  let stale := buckets_needing_refresh (dc_rt d) now (minutes 15) in
  let plan := refresh_plan stale (refresh_bucket_cursor d) in
  stale <> [] ->
  refresh_bucket_cursor (refresh_buckets now d) = snd plan /\
  exists outs, sent (refresh_buckets now d) = sent d ++ concat outs /\ Forall2 (refreshes d) (fst plan) outs.
Proof.
  intros Hs Hid stale plan Hne.
  assert (Forall (fun b => b < 160)%nat (fst plan)) as Hlt.
  { apply Forall_forall. intros b Hb%refresh_plan_chosen; [|done].
    apply list_elem_of_filter in Hb as [_ Hb]. apply elem_of_seq in Hb. unfold NUM_BUCKETS in Hb. lia. }
  unfold refresh_buckets. fold stale.
  destruct (refresh_chosen_refreshes (fst plan) d Hs Hid Hlt) as (outs & Eo & Ho).
  destruct stale as [|b bs] eqn:Es; [done|]. fold plan. destruct plan as [chosen cursor].
  split; [done|]. by exists outs.
Qed.

(** ** The maintenance passes of a run *)

(** The time of each pass and the node before it. *)
Fixpoint passes (d : DhtClient) (es : list (Z * dht_op)) : list (Z * DhtClient) :=
  match es with
  | [] => []
  | (now, o) :: es' =>
      let later := let '(d', r) := dht_step now o d in if ends_process o r then [] else passes d' es' in
      match o with OMaintenance => (now, d) :: later | _ => later end
  end.

Definition stale_at (p : Z * DhtClient) : list nat :=
  buckets_needing_refresh (dc_rt (snd p)) (fst p) (minutes 15).

(** The datagrams of a pass include, together, those that refresh the buckets of
    [chosen]. *)
Definition pass_refreshes (p : Z * DhtClient) (chosen : list nat) : Prop :=
  exists before outs after,
    sent (fst (maintenance_iteration (fst p) (snd p))) = sent (snd p) ++ before ++ concat outs ++ after /\
    Forall2 (refreshes (snd p)) chosen outs.

Lemma stale_NoDup p : NoDup (stale_at p).
Proof. apply NoDup_filter, NoDup_seq. Qed.

Context (draws_ok : forall n, exists s, secret_draw n = Some s /\ s <> []).

Lemma pass_spec now self Q d :
  node_inv now self Q d -> running d = true ->
  let plan := refresh_plan (stale_at (now, d)) (refresh_bucket_cursor d) in
  snd (maintenance_iteration now d) = Ok () /\
  (stale_at (now, d) <> [] -> refresh_bucket_cursor (fst (maintenance_iteration now d)) = snd plan /\
     pass_refreshes (now, d) (fst plan)).
Proof.
  intros (Hok & _) Hrun plan.
  destruct (maintenance_parts now d Hrun (client_rotate_Ok draws_ok now d)) as (d1 & [H1 Hc1] & Hn & Hr & [H2 Hc2]).
  split; [done|]. intros Hne. pose proof Hn as (Ert & Eself & _).
  destruct (refresh_buckets_spec now d1) as [Hc (outs & Eo & Ho)]; [rewrite Eself; apply Hok|rewrite Ert, Eself; apply Hok|by rewrite Ert|].
  rewrite Ert, Hc1 in *. fold plan in Hc, Ho. split; [by rewrite Hc2|].
  destruct H1 as (_ & _ & _ & [before Eb]), H2 as (_ & _ & _ & [after Ea]).
  exists before, outs, after. cbn [fst snd]. rewrite Ea, Eo, Eb, <- !app_assoc. split; [done|].
  eapply Forall2_impl; [exact Ho|]. intros b out. by apply refreshes_same.
Qed.

Lemma maintenance_sends now d : exists o, sent (fst (maintenance_iteration now d)) = sent d ++ o.
Proof. destruct (maintenance_carries now d) as (_ & _ & _ & [o E]). by exists o. Qed.

(** Only the maintenance thread moves the cursor. *)
Lemma dht_step_cursor now o d :
  o <> OMaintenance -> refresh_bucket_cursor (fst (dht_step now o d)) = refresh_bucket_cursor d.
Proof.
  intros Ho. destruct o as [ev| |bound| | |h|h port|h|pa|h port|h|c]; cbn [dht_step fst]; try done.
  - apply recv_steady.
  - apply start_begin_steady.
  - apply start_finish_steady.
  - unfold stop, save_persisted_routing_table. by repeat case_if.
  - apply get_peers_steady.
  - unfold client_register. case_if; [|done]. by rewrite (proj2 (get_peers_steady _ _ _)).
  - apply (proj2 (sends_steady _ _ (ping_sends _ _))).
  - apply (proj2 (sends_steady _ _ (send_announce_requests_sends _ _))).
  - apply (proj2 (log_completed_steady now h d)).
Qed.

(** Every pass of a run is made by a sound node. *)
Lemma passes_sound t self d es :
  clocked t es -> Forall (fun e => event_ok (snd e)) es -> node_inv t self (fun _ => True) d ->
  Forall (fun p => node_inv (fst p) self (fun _ => True) (snd p)) (passes d es).
Proof.
  induction es as [|[now o] es IH] in t, d |- *; intros Hc He Hd; [constructor|].
  destruct Hc as [Ht Hc]. inversion He as [|? ? Ho He']; subst. cbn [fst snd] in *.
  assert (node_inv now self (fun _ => True) d) as Hd' by (destruct Hd; split; [by eapply dht_ok_later|done]).
  pose proof (dht_step_inv now self (fun _ => True) o d ltac:(done) Ho Hd') as Hs.
  assert (Forall (fun p => node_inv (fst p) self (fun _ => True) (snd p))
    (let '(d', r) := dht_step now o d in if ends_process o r then [] else passes d' es)) as Hl.
  { destruct (dht_step now o d) as [d' r]. case_if; [constructor|]. by apply (IH now). }
  cbn [passes]. destruct o; try exact Hl. by constructor.
Qed.

(** The passes of a run with the same stale buckets go through them cyclically. *)
Lemma passes_cyclic t self d es stale b :
  clocked t es -> Forall (fun e => event_ok (snd e)) es -> node_inv t self (fun _ => True) d ->
  stale <> [] ->
  Forall (fun p => running (snd p) = true /\ stale_at p = stale) (passes d es) ->
  b ∈ refresh_run stale (refresh_bucket_cursor d) (length (passes d es)) ->
  Exists (fun p => exists chosen, b ∈ chosen /\ pass_refreshes p chosen) (passes d es).
Proof.
  induction es as [|[now o] es IH] in t, d |- *; intros Hc He Hd Hne Hp Hb; [by apply not_elem_of_nil in Hb|].
  destruct Hc as [Ht Hc]. inversion He as [|? ? Ho He']; subst. cbn [fst snd] in *.
  assert (node_inv now self (fun _ => True) d) as Hd' by (destruct Hd; split; [by eapply dht_ok_later|done]).
  pose proof (dht_step_inv now self (fun _ => True) o d ltac:(done) Ho Hd') as Hs.
  assert (o = OMaintenance \/ o <> OMaintenance) as [->|Hno] by (destruct o; auto).
  - cbn [passes dht_step] in *. inversion Hp as [|? ? [Hrun Est] Hp']; subst. cbn [fst snd length] in *.
    destruct (pass_spec now self (fun _ => True) d Hd' Hrun) as [Hok Hpass].
    destruct (Hpass Hne) as [Hcur Href]. destruct (maintenance_iteration now d) as [d' r]. cbn [fst snd] in *.
    subst r. cbn [ends_process] in *. cbn [refresh_run] in Hb.
    destruct (refresh_plan _ _) as [chosen cursor'] eqn:Ep. apply elem_of_app in Hb as [Hb|Hb].
    + apply Exists_cons_hd. by exists chosen.
    + apply Exists_cons_tl. apply (IH now); try done. cbn [snd] in Hcur. by rewrite Hcur.
  - pose proof (dht_step_cursor now o d Hno) as Hcur.
    assert (passes d ((now, o) :: es) = let '(d', r) := dht_step now o d in
      if ends_process o r then [] else passes d' es) as E by (by destruct o).
    rewrite E in *. destruct (dht_step now o d) as [d' r]. cbn [fst] in *. case_if.
    + by apply not_elem_of_nil in Hb.
    + apply (IH now); try done. by rewrite Hcur.
Qed.
End refresh.

(** C31: bucket refresh is exact and fair.  In any run of a node, every maintenance pass
    of the running node picks [min 3 n] different ones of the [n] buckets that are stale
    at that moment, and for each of them sends one find_node query, for an identifier
    of that bucket, to each of the three nodes of its table closest to it (those with a
    readable address; none while the socket is closed).  And none is passed over: when
    the same buckets are stale at each pass of the run, whatever else happened between
    the passes, every one of up to [3 k] of them is refreshed in one of [k] passes. *)
Theorem refresh_buckets_fair (IN : Inet) (SH : Sha1) (PT : InetPton) (DS : DistanceSort) (EN : DhtEnv) t d es :
  (forall n, exists s, secret_draw n = Some s /\ s <> []) ->
  dht_ok t d -> clocked t es -> Forall (fun e => event_ok (snd e)) es ->
  Forall (fun p => running (snd p) = true) (passes d es) ->
  Forall (fun p => exists chosen, NoDup chosen /\ chosen ⊆ stale_at p /\
            length chosen = Nat.min 3 (length (stale_at p)) /\ pass_refreshes p chosen) (passes d es) /\
  (forall stale b, Forall (fun p => stale_at p = stale) (passes d es) ->
     (length stale <= 3 * length (passes d es))%nat -> b ∈ stale ->
     Exists (fun p => exists chosen, b ∈ chosen /\ pass_refreshes p chosen) (passes d es)).
Proof.
  intros Hdraws Hok Hc He Hrun.
  assert (node_inv t (dc_self d) (fun _ => True) d) as Hd by (by split).
  split.
  - pose proof (passes_sound _ _ _ _ Hc He Hd) as Hs. apply Forall_forall. intros [now d'] Hin.
    pose proof (proj1 (Forall_forall _ _) Hrun _ Hin) as Hr. pose proof (proj1 (Forall_forall _ _) Hs _ Hin) as Hi.
    destruct (pass_spec Hdraws now _ _ d' Hi Hr) as [_ Hp].
    destruct (stale_at (now, d')) as [|b bs] eqn:Es.
    + exists []. split; [constructor|]. split; [done|]. split; [done|].
      destruct (maintenance_sends now d') as [o Eo]. exists o, [], []. cbn. rewrite app_nil_r. split; [exact Eo|constructor].
    + rewrite <- Es in *. destruct (Hp ltac:(by rewrite Es)) as [_ Href].
      exists (fst (refresh_plan (stale_at (now, d')) (refresh_bucket_cursor d'))).
      split; [apply refresh_plan_NoDup, stale_NoDup|]. split; [|split; [apply refresh_plan_length|exact Href]].
      intros x. apply refresh_plan_chosen. by rewrite Es.
  - intros stale b Hst Hl Hb. apply (passes_cyclic Hdraws t (dc_self d) d es stale b); try done.
    + by destruct stale; [apply not_elem_of_nil in Hb|].
    + by apply Forall_and.
    + by apply refresh_run_fair.
Qed.

(** A node that has heard of one other node, which then keeps silent: 159 stale buckets
    and 53 passes. *)
Definition quiet_events : list (Z * dht_op) :=
  [(1, OStartBegin (Ok (Ok 6881)));
   (2, ORecv (Datagram (make_ping (str "aa") (sample_id 2)) (mkPeer (str "10.0.0.2") 6881)))].

Definition quiet_node : DhtClient :=
  @dht_run dotted_inet sample_sha1 sample_pton merge_distance_sort sample_client_env sample_client quiet_events.

Lemma quiet_node_ok : dht_ok 2 quiet_node.
Proof.
  apply (@dht_run_inv dotted_inet sample_sha1 sample_pton merge_distance_sort sample_client_env
    1 (sample_id 1) (fun _ => True) sample_client quiet_events).
  - done.
  - vm_compute; intuition discriminate.
  - apply Forall_cons_2; [exact I|]. apply Forall_cons_2; [|constructor]. unfold event_ok; cbn [snd].
    refine (bool_decide_unpack _ _). vm_compute. exact I.
  - split; [apply sample_client_ok|done].
Qed.

Definition quiet_passes : list (Z * dht_op) := map (fun i => (Z.of_nat i, OMaintenance)) (seq 3 53).

Lemma quiet_clocked t a n :
  t <= Z.of_nat a -> clocked t (map (fun i => (Z.of_nat i, OMaintenance)) (seq a n)).
Proof. induction n as [|n IH] in t, a |- *; intros Ht; cbn; [done|]. split; [done|]. apply IH. lia. Qed.

Lemma refresh_buckets_fair_witness :
  let IN := dotted_inet in let SH := sample_sha1 in let PT := sample_pton in let DS := merge_distance_sort in
  let EN := sample_client_env in
  let ps := passes quiet_node quiet_passes in
  length ps = 53%nat /\ length (stale_at (3, quiet_node)) = 159%nat /\
  map (fun p => length (sent (snd p))) (take 2 ps) = [1; 4]%nat /\
  Exists (fun p => exists chosen, 77%nat ∈ chosen /\ pass_refreshes p chosen) ps.
Proof.
  intros IN SH PT DS EN ps.
  assert (Hl : length ps = 53%nat) by (vm_compute; reflexivity).
  assert (length (stale_at (3, quiet_node)) = 159%nat) as Hs by (vm_compute; reflexivity).
  split; [exact Hl|]. split; [exact Hs|]. split; [vm_compute; reflexivity|].
  assert (forallb (fun p => running (snd p)) ps = true) as Hrun by (vm_compute; reflexivity).
  assert (forallb (fun p => bool_decide (stale_at p = stale_at (3, quiet_node))) ps = true) as Hst
    by (vm_compute; reflexivity).
  rewrite forallb_forall in Hrun, Hst.
  apply (refresh_buckets_fair IN SH PT DS EN 2 quiet_node quiet_passes) with (stale := stale_at (3, quiet_node)).
  - intros n. exists [Z.of_nat n; 1]. split; [reflexivity|discriminate].
  - apply quiet_node_ok.
  - apply quiet_clocked. lia.
  - apply Forall_forall. intros e (i & -> & _)%list_elem_of_fmap. exact I.
  - apply Forall_forall. intros p Hp%list_elem_of_In. exact (Hrun p Hp).
  - apply Forall_forall. intros p Hp%list_elem_of_In. exact (bool_decide_eq_true_1 _ (Hst p Hp)).
  - fold ps. rewrite Hl, Hs. lia.
  - apply list_elem_of_In. vm_compute. tauto.
Defined.
