(* ===== verification/KrpcSummary.v ===== *)
(** * KRPC messages in the log (src/dht/krpc.cpp: format_krpc_summary; src/dht/dht_client.cpp:
    log_krpc)

    The texts of the DHT's log: what is shown of a message, and how the numbers in it relate
    to what the message held. *)

From S2P Require Import Prelude CxxLib ByteOrder Bencode Hash Addr NodeId RoutingTable Krpc DhtClient.

(** [std::hex], two digits a byte *)
Definition bytes_to_hex (s : bytes) : bytes := match s with [] => [] | _ => to_hex s end.

Definition bytes_hex_prefix (s : bytes) (n : nat) : bytes :=
  match s with
  | [] => []
  | _ => to_hex (take n s) ++ (if (n <? length s)%nat then str "..." else [])
  end.

Definition format_node_id_prefix (id : NodeId) : bytes :=
  let hex := nid_hex id in
  if (length hex <=? 8)%nat then hex else take 8 hex ++ str "...".

(** [oss << i], of a [size_t] *)
Definition show_nat (n : nat) : bytes := to_string (Z.of_nat n).

(** The items with ", " before each but the first. *)
Definition join (l : list bytes) : bytes :=
  concat (imap (fun i x => (if (0 <? i)%nat then str ", " else []) ++ x) l).

Definition format_node (n : RoutingEntry) (repeat : nat) : bytes :=
  str "id=" ++ format_node_id_prefix (re_id n) ++ str " @ " ++ ip (re_pa n) ++ str ":" ++ to_string (port (re_pa n))
  ++ (if (1 <? repeat)%nat then str " x" ++ show_nat repeat else []).

Definition format_nodes (nodes : list RoutingEntry) (counts : list nat) : bytes :=
  str "[" ++ join (imap (fun i n => format_node n (default 1%nat (counts !! i))) nodes) ++ str "]".

Section summary.
Context `{Inet}.

(** The peers that can be read, counted; the others are left out. *)
Definition format_peers (compact_peers : list bytes) : nat * bytes :=
  let shown := omap (fun c => match compact_to_peer c 0 with
                              | Some (i, p) => Some (i ++ str ":" ++ to_string p)
                              | None => None
                              end) compact_peers in
  (length shown, str "[" ++ join shown ++ str "]").

(** [hex().substr(0, 8) + "..."] *)
Definition hex8 (hex : bytes) : bytes := take 8 hex ++ str "...".

Definition hash_text (h : option InfoHash) : bytes :=
  match h with Some h => hex8 (ih_hex h) | None => str "?" end.

Definition query_text (msg : KrpcMessage) : bytes :=
  str " QUERY" ++
  match m_query_type msg with
  | None => str " q=?"
  | Some Ping => str " PING"
  | Some FindNode => str " FIND_NODE target=" ++ hex8 (nid_hex (m_target msg))
  | Some GetPeers => str " GET_PEERS info_hash=" ++ hash_text (m_info_hash msg)
  | Some AnnouncePeer =>
      str " ANNOUNCE_PEERS info_hash=" ++ hash_text (m_info_hash msg) ++ str " port=" ++ to_string (m_peer_port msg)
      ++ (if m_implied_port msg then str " implied_port=1" else [])
  end.

(** The number of nodes on the wire, repeats included. *)
Definition wire_count (msg : KrpcMessage) : nat :=
  match m_node_counts msg with
  | [] => length (m_nodes msg)
  | cs => foldr Nat.add 0%nat cs
  end.

Definition NEWLINE : bytes := 10 :: str "    ".

Definition response_text (msg : KrpcMessage) : bytes :=
  str " RESPONSE"
  ++ match m_nodes msg with
     | [] => []
     | nodes => NEWLINE ++ str "nodes(" ++ show_nat (wire_count msg) ++ str ")=" ++ format_nodes nodes (m_node_counts msg)
     end
  ++ match m_values msg with
     | [] => []
     | values => let '(peer_count, peer_list) := format_peers values in
                 NEWLINE ++ str "values(" ++ show_nat peer_count ++ str ")=" ++ peer_list
     end
  ++ match m_token msg with [] => [] | token => NEWLINE ++ str "token=" ++ bytes_to_hex token end
  ++ (if is_zero (m_sender_id msg) then [] else NEWLINE ++ str "id=" ++ hex8 (nid_hex (m_sender_id msg))).

Definition error_text (msg : KrpcMessage) : bytes :=
  str " ERROR code=" ++ to_string (m_error_code msg) ++ str " msg=" ++ [34] ++ m_error_msg msg ++ [34].

Definition format_krpc_summary (msg : KrpcMessage) : bytes :=
  str "transaction_id=" ++ bytes_to_hex (m_txn msg)
  ++ match m_type msg with
     | Query => query_text msg
     | Response => response_text msg
     | Error => error_text msg
     end
  ++ match m_type msg with
     | Response => []
     | _ => if is_zero (m_sender_id msg) then [] else str " id=" ++ hex8 (nid_hex (m_sender_id msg))
     end.

(** [log_krpc] of a datagram: the line it logs. *)
Definition krpc_line (now : Z) (direction : bytes) (msg : bytes) (pa : PeerAddress) : result bytes :=
  parsed ← parse_krpc now msg;
  Ok (str "[KRPC] " ++ direction ++ str " " ++ peer_to_string pa
      ++ match parsed with
         | Some m => str " " ++ format_krpc_summary m
         | None => str " (unparsed, " ++ show_nat (length msg) ++ str " bytes)"
         end).

(** ** Facts *)

(** The log counts the peers that the callback is called for. *)
Lemma format_peers_count msg : fst (format_peers (m_values msg)) = length (reply_peers msg).
Proof.
  unfold format_peers, reply_peers. cbn [fst]. induction (m_values msg) as [|v vs IH]; [done|].
  cbn [omap list_omap]. destruct (compact_to_peer v 0) as [[i p]|]; cbn [length]; by rewrite IH.
Qed.

(** The number it shows for nodes is that of the 26-byte entries received, also when an
    entry comes several times. *)
Lemma wire_count_received now data msg :
  bytes_ok data -> (m_nodes msg, m_node_counts msg) = parse_nodes now data ->
  wire_count msg = (length data / 26)%nat.
Proof.
  intros Hd E. unfold parse_nodes in E.
  destruct (nodes_loop_shape (S (length data)) now data 0 ∅ [] []) as (H1 & _ & H3);
    [lia|done|done|constructor|by intros ? ? ?%lookup_empty_Some|].
  rewrite <- E in H1, H3. cbn [fst snd foldr] in *. unfold wire_count. rewrite Nat.sub_0_r in H3.
  destruct (m_node_counts msg) as [|c cs]; [|exact H3]. rewrite H1. exact H3.
Qed.

(** A line of a remote node's choosing: the text of an error is shown as it came. *)
Lemma error_text_raw msg : m_type msg = Error -> is_zero (m_sender_id msg) = true ->
  format_krpc_summary msg
  = str "transaction_id=" ++ bytes_to_hex (m_txn msg) ++ str " ERROR code=" ++ to_string (m_error_code msg)
    ++ str " msg=" ++ [34] ++ m_error_msg msg ++ [34].
Proof. intros Ht Hz. unfold format_krpc_summary. rewrite Ht, Hz. unfold error_text. by rewrite app_nil_r. Qed.
End summary.

(** The summary of a response with a token takes several lines. *)
Example summary_lines :
  let I := dotted_inet in
  let msg := mkMsg Response (str "aa") None nid_zero nid_zero None 0 (str "t") false
    [mkEntry (sample_id 3) (mkPeer (str "10.0.0.1") 6881) 0] [2%nat] [[10; 0; 0; 5; 26; 225]; [1]] 0 [] in
  format_krpc_summary msg
  = str "transaction_id=6161 RESPONSE" ++ [10] ++ str "    nodes(2)=[id=00000000... @ 10.0.0.1:6881 x2]" ++ [10]
    ++ str "    values(1)=[10.0.0.5:6881]" ++ [10] ++ str "    token=74".
Proof. vm_compute. reflexivity. Qed.
