(* ===== verification/PeerMessage.v ===== *)
(** * Peer wire messages (inc/peer_wire/peer_message.h, src/peer_wire/peer_message.cpp)

    The handshake, the length-prefixed messages with their typed forms, and the
    framing on a TCP stream ([recv_message_timeout] of
    src/peer_wire/peer_connection.cpp).  A buffer is its bytes; a stream is the bytes
    the peer has sent and the socket has not delivered yet.  [std::vector] sizes are
    lengths; the [uint32_t] arithmetic on them is written out. *)

From S2P Require Import Prelude CxxLib ByteOrder Hash.

Definition PROTOCOL_STRING_LENGTH : Z := 19.
Definition PROTOCOL_STRING : bytes := str "BitTorrent protocol".
Definition HANDSHAKE_LENGTH : nat := 68.

Record Handshake := mkHandshake { hs_reserved : bytes; hs_info_hash : InfoHash; hs_peer_id : bytes }.

Definition handshake_serialize (h : Handshake) : bytes :=
  PROTOCOL_STRING_LENGTH :: PROTOCOL_STRING ++ hs_reserved h ++ ih_bytes (hs_info_hash h) ++ hs_peer_id h.

Definition handshake_deserialize (data : bytes) : result Handshake :=
  if (length data <? HANDSHAKE_LENGTH)%nat
  then Throw (RuntimeError "handshake too short: expected 68 bytes") else
  match data with
  | pstrlen :: rest =>
      if negb (pstrlen =? PROTOCOL_STRING_LENGTH) then Throw (RuntimeError "unexpected protocol string length")
      else if negb (bool_decide (take 19 rest = PROTOCOL_STRING))
      then Throw (RuntimeError "unexpected protocol string")
      else
        let rest := drop 19 rest in
        match try_from_raw (take 20 (drop 8 rest)) with
        | None => Throw (RuntimeError "invalid info_hash length in handshake")
        | Some ih => Ok (mkHandshake (take 8 rest) ih (take 20 (drop 28 rest)))
        end
  | [] => Throw (RuntimeError "handshake too short: expected 68 bytes")
  end.

(** [MessageId]: an enumeration over [uint8_t], so a cast gives every byte value. *)
Inductive MessageId :=
  | Choke | Unchoke | Interested | NotInterested | Have | Bitfield | Request | Piece | Cancel
  | OtherId (b : Z).

#[global] Instance MessageId_eq_dec : EqDecision MessageId.
Proof. solve_decision. Defined.

(** [static_cast<uint8_t>(id)] *)
Definition id_byte (i : MessageId) : Z :=
  match i with
  | Choke => 0 | Unchoke => 1 | Interested => 2 | NotInterested => 3 | Have => 4
  | Bitfield => 5 | Request => 6 | Piece => 7 | Cancel => 8 | OtherId b => b
  end.

(** [static_cast<MessageId>(b)] *)
Definition byte_id (b : Z) : MessageId :=
  match b with
  | 0 => Choke | 1 => Unchoke | 2 => Interested | 3 => NotInterested | 4 => Have
  | 5 => Bitfield | 6 => Request | 7 => Piece | 8 => Cancel | _ => OtherId b
  end.

Record PeerMessage := mkPM { pm_id : MessageId; pm_payload : bytes }.

#[global] Instance PeerMessage_eq_dec : EqDecision PeerMessage.
Proof. solve_decision. Defined.

(** [PeerMessage::serialize]: the size of the buffer is computed in [uint32_t]; a
    write past its end is undefined. *)
Definition serialize (m : PeerMessage) : result bytes :=
  let size := Z.of_nat (length (pm_payload m)) in
  let len := u32 (1 + u32 size) in
  let total := u32 (4 + len) in
  if total <? 5 + size then Throw (Undefined "write past the end of the message buffer")
  else Ok (write_be32 len ++ [id_byte (pm_id m)] ++ pm_payload m).

(** [PeerMessage::deserialize] *)
Definition deserialize (data : bytes) : result PeerMessage :=
  let len := Z.of_nat (length data) in
  if len <? 4 then
    Throw (RuntimeError "peer message too short: need at least 4 bytes for length prefix")
  else
    let l := read_be32 data in
    if l =? 0 then Throw (RuntimeError "keep-alive has no message id; handle at connection layer")
    else if len <? u32 (4 + l) then Throw (RuntimeError "peer message truncated")
    else match data !! 4%nat with
    | None => Throw (Undefined "read past the end of the message")
    | Some b =>
        if 1 <? l then
          if len <? 4 + l then Throw (Undefined "read past the end of the message")
          else Ok (mkPM (byte_id b) (slice 5 (4 + Z.to_nat l) data))
        else Ok (mkPM (byte_id b) [])
    end.

(** ** Typed messages *)

Record HaveMessage := mkHave { piece_index : Z }.

Definition have_to_peer_message (h : HaveMessage) : PeerMessage := mkPM Have (write_be32 (piece_index h)).

Definition have_from_peer_message (m : PeerMessage) : result HaveMessage :=
  _ ← throw_if (negb (bool_decide (pm_id m = Have))) (RuntimeError "expected Have message");
  _ ← throw_if (negb (length (pm_payload m) =? 4)%nat) (RuntimeError "have payload must be exactly 4 bytes");
  Ok (mkHave (read_be32 (pm_payload m))).

Record BitfieldMessage := mkBitfield { bitfield : bytes }.

(** [BitfieldMessage::has_piece] *)
Definition has_piece (bf : BitfieldMessage) (index : Z) : result bool :=
  let byte_idx := index / 8 in
  let bit_idx := 7 - index mod 8 in
  match bitfield bf !! Z.to_nat byte_idx with
  | None => Throw (RuntimeError "bitfield index out of range")
  | Some b => Ok (Z.land (Z.shiftr b bit_idx) 1 =? 1)
  end.

Definition bitfield_to_peer_message (bf : BitfieldMessage) : PeerMessage := mkPM Bitfield (bitfield bf).

Definition bitfield_from_peer_message (m : PeerMessage) : result BitfieldMessage :=
  _ ← throw_if (negb (bool_decide (pm_id m = Bitfield))) (RuntimeError "expected Bitfield message");
  Ok (mkBitfield (pm_payload m)).

(** [RequestMessage] and [CancelMessage] have the same fields. *)
Record RequestMessage := mkRequest { rq_index : Z; rq_begin : Z; rq_length : Z }.

Definition range_payload (r : RequestMessage) : bytes :=
  write_be32 (rq_index r) ++ write_be32 (rq_begin r) ++ write_be32 (rq_length r).

Definition request_to_peer_message (r : RequestMessage) : PeerMessage := mkPM Request (range_payload r).

Definition request_from_peer_message (m : PeerMessage) : result RequestMessage :=
  _ ← throw_if (negb (bool_decide (pm_id m = Request))) (RuntimeError "expected Request message");
  _ ← throw_if (negb (length (pm_payload m) =? 12)%nat) (RuntimeError "request payload must be exactly 12 bytes");
  Ok (mkRequest (read_be32 (pm_payload m)) (read_be32 (drop 4 (pm_payload m))) (read_be32 (drop 8 (pm_payload m)))).

Record PieceMessage := mkPiece { pc_index : Z; pc_begin : Z; pc_block : bytes }.

Definition piece_to_peer_message (p : PieceMessage) : PeerMessage :=
  mkPM Piece (write_be32 (pc_index p) ++ write_be32 (pc_begin p) ++ pc_block p).

Definition piece_from_peer_message (m : PeerMessage) : result PieceMessage :=
  _ ← throw_if (negb (bool_decide (pm_id m = Piece))) (RuntimeError "expected Piece message");
  _ ← throw_if (length (pm_payload m) <? 8)%nat (RuntimeError "piece payload must be at least 8 bytes");
  Ok (mkPiece (read_be32 (pm_payload m)) (read_be32 (drop 4 (pm_payload m))) (drop 8 (pm_payload m))).

Definition cancel_to_peer_message (r : RequestMessage) : PeerMessage := mkPM Cancel (range_payload r).

Definition cancel_from_peer_message (m : PeerMessage) : result RequestMessage :=
  _ ← throw_if (negb (bool_decide (pm_id m = Cancel))) (RuntimeError "expected Cancel message");
  _ ← throw_if (negb (length (pm_payload m) =? 12)%nat) (RuntimeError "cancel payload must be exactly 12 bytes");
  Ok (mkRequest (read_be32 (pm_payload m)) (read_be32 (drop 4 (pm_payload m))) (read_be32 (drop 8 (pm_payload m)))).

(** ** Framing *)

(** [recv_exact_timeout(buf, n)]: the next [n] bytes of the stream; a stream that ends
    or stalls first is an exception. *)
Definition recv_exact (n : nat) (stream : bytes) : result (bytes * bytes) :=
  if (length stream <? n)%nat then Throw (RuntimeError "connection closed or timed out")
  else Ok (take n stream, drop n stream).

(** [recv_message_timeout]: [None] is a keep-alive. *)
Definition recv_message (stream : bytes) : result (option PeerMessage * bytes) :=
  '(len_buf, stream) ← recv_exact 4 stream;
  let l := read_be32 len_buf in
  if l =? 0 then Ok (None, stream) else
  _ ← throw_if (2 ^ 24 <? l) (RuntimeError "message length exceeds sanity limit");
  '(body, stream) ← recv_exact (Z.to_nat l) stream;
  match body with
  | b :: payload => Ok (Some (mkPM (byte_id b) payload), stream)
  | [] => Throw (Undefined "body[0] of an empty vector")
  end.

(** Everything received from a stream until it ends. *)
Fixpoint recv_all (fuel : nat) (stream : bytes) : result (list PeerMessage) :=
  match fuel with
  | O => Throw OutOfFuel
  | S fuel' =>
      match stream with
      | [] => Ok []
      | _ =>
          '(m, stream) ← recv_message stream;
          rest ← recv_all fuel' stream;
          Ok (match m with Some m => m :: rest | None => rest end)
      end
  end.

(** The messages of the protocol, each in its typed form. *)
Inductive Typed :=
  | TSimple (i : MessageId)
  | THave (h : HaveMessage)
  | TBitfield (bf : BitfieldMessage)
  | TRequest (r : RequestMessage)
  | TPiece (p : PieceMessage)
  | TCancel (r : RequestMessage).

Definition to_peer_message (t : Typed) : PeerMessage :=
  match t with
  | TSimple i => mkPM i []
  | THave h => have_to_peer_message h
  | TBitfield bf => bitfield_to_peer_message bf
  | TRequest r => request_to_peer_message r
  | TPiece p => piece_to_peer_message p
  | TCancel r => cancel_to_peer_message r
  end.

(** How a handler of [PeerConnection::run] reads a message. *)
Definition from_peer_message (m : PeerMessage) : result Typed :=
  match pm_id m with
  | Have => h ← have_from_peer_message m; Ok (THave h)
  | Bitfield => bf ← bitfield_from_peer_message m; Ok (TBitfield bf)
  | Request => r ← request_from_peer_message m; Ok (TRequest r)
  | Piece => p ← piece_from_peer_message m; Ok (TPiece p)
  | Cancel => r ← cancel_from_peer_message m; Ok (TCancel r)
  | i => Ok (TSimple i)
  end.

(** What a sender puts on the stream; [None] is a keep-alive (four zero bytes). *)
Fixpoint send_stream (items : list (option Typed)) : result bytes :=
  match items with
  | [] => Ok []
  | None :: items' => rest ← send_stream items'; Ok (write_be32 0 ++ rest)
  | Some t :: items' =>
      b ← serialize (to_peer_message t); rest ← send_stream items'; Ok (b ++ rest)
  end.

Fixpoint read_typed (ms : list PeerMessage) : result (list Typed) :=
  match ms with
  | [] => Ok []
  | m :: ms' => t ← from_peer_message m; rest ← read_typed ms'; Ok (t :: rest)
  end.

(** ** Round trips *)

Definition u32_ok (z : Z) : Prop := 0 <= z < 2 ^ 32.

Definition range_ok (r : RequestMessage) : Prop :=
  u32_ok (rq_index r) /\ u32_ok (rq_begin r) /\ u32_ok (rq_length r).

Definition simple_id (i : MessageId) : Prop :=
  match i with
  | Choke | Unchoke | Interested | NotInterested => True
  | OtherId b => 9 <= b < 256
  | _ => False
  end.

(** A message the protocol can carry: fields of 32 bits, at most 2^24 bytes. *)
Definition typed_ok (t : Typed) : Prop :=
  match t with
  | TSimple i => simple_id i
  | THave h => u32_ok (piece_index h)
  | TBitfield bf => True
  | TRequest r | TCancel r => range_ok r
  | TPiece p => u32_ok (pc_index p) /\ u32_ok (pc_begin p)
  end /\ Z.of_nat (length (pm_payload (to_peer_message t))) < 2 ^ 24.

Lemma length_write_be32 v : length (write_be32 v) = 4%nat.
Proof. done. Qed.

Lemma byte_id_byte i : simple_id i \/ (exists b, id_byte i = b /\ 4 <= b <= 8 /\ (forall c, i <> OtherId c)) ->
  byte_id (id_byte i) = i.
Proof.
  intros [Hs|(b & Hb & Hr & Hn)]; destruct i as [| | | | | | | | |c]; try done.
  - cbn in *. unfold byte_id. destruct c as [|p|p]; try lia. do 4 (destruct p as [p|p|]; try lia; try done).
  - by destruct (Hn c).
Qed.

Lemma to_peer_id_roundtrip t :
  typed_ok t -> byte_id (id_byte (pm_id (to_peer_message t))) = pm_id (to_peer_message t).
Proof. intros [Ht _]. apply byte_id_byte. destruct t; cbn in *; [by left|right; eexists; split; [done|]; split; [lia|done]..]. Qed.

Lemma serialize_small m :
  Z.of_nat (length (pm_payload m)) < 2 ^ 24 ->
  serialize m = Ok (write_be32 (1 + Z.of_nat (length (pm_payload m))) ++ [id_byte (pm_id m)] ++ pm_payload m).
Proof.
  intros Hs. unfold serialize, u32. set (n := Z.of_nat _) in *. assert (0 <= n) by (unfold n; lia). cbv zeta.
  rewrite (Z.mod_small n), (Z.mod_small (1 + n)), (Z.mod_small (4 + (1 + n))) by lia.
  by rewrite (proj2 (Z.ltb_ge _ _)) by lia.
Qed.

Lemma recv_exact_app s rest : recv_exact (length s) (s ++ rest) = Ok (s, rest).
Proof.
  unfold recv_exact. rewrite (proj2 (Nat.ltb_ge _ _)) by (rewrite length_app; lia).
  by rewrite take_app_length, drop_app_length.
Qed.

Lemma recv_keep_alive rest : recv_message (write_be32 0 ++ rest) = Ok (None, rest).
Proof. unfold recv_message. by rewrite <- (length_write_be32 0), recv_exact_app. Qed.

Lemma recv_message_app m rest :
  Z.of_nat (length (pm_payload m)) < 2 ^ 24 -> byte_id (id_byte (pm_id m)) = pm_id m ->
  recv_message ((write_be32 (1 + Z.of_nat (length (pm_payload m))) ++ [id_byte (pm_id m)] ++ pm_payload m) ++ rest)
  = Ok (Some m, rest).
Proof.
  intros Hl Hid. unfold recv_message. rewrite <- app_assoc.
  rewrite <- (length_write_be32 (1 + Z.of_nat (length (pm_payload m)))) at 1. rewrite recv_exact_app. cbn [mbind result_bind].
  rewrite <- (app_nil_r (write_be32 _)), read_write_be32 by lia.
  rewrite (proj2 (Z.eqb_neq _ _)) by lia. rewrite (proj2 (Z.ltb_ge _ _)) by lia. cbn [throw_if].
  replace (Z.to_nat (1 + Z.of_nat (length (pm_payload m)))) with (length ([id_byte (pm_id m)] ++ pm_payload m))
    by (cbn [app length]; lia).
  cbn [mbind result_bind]. rewrite recv_exact_app. cbn [mbind result_bind app]. rewrite Hid. by destruct m.
Qed.

Lemma read_be32_write v : u32_ok v -> read_be32 (write_be32 v) = v.
Proof. intros Hv. rewrite <- (app_nil_r (write_be32 v)). by apply read_write_be32. Qed.

Lemma range_read r :
  range_ok r ->
  mkRequest (read_be32 (range_payload r)) (read_be32 (drop 4 (range_payload r)))
    (read_be32 (drop 8 (range_payload r))) = r.
Proof.
  intros (H1 & H2 & H3). unfold range_payload. rewrite read_write_be32 by done.
  change (drop 4 (write_be32 (rq_index r) ++ write_be32 (rq_begin r) ++ write_be32 (rq_length r)))
    with (write_be32 (rq_begin r) ++ write_be32 (rq_length r)).
  change (drop 8 (write_be32 (rq_index r) ++ write_be32 (rq_begin r) ++ write_be32 (rq_length r)))
    with (write_be32 (rq_length r)).
  rewrite read_write_be32, read_be32_write by done. by destruct r.
Qed.

Lemma typed_roundtrip t : typed_ok t -> from_peer_message (to_peer_message t) = Ok t.
Proof.
  intros [Ht _]. destruct t as [i|h|bf|r|p|r]; cbn [to_peer_message].
  - by destruct i.
  - unfold from_peer_message, have_from_peer_message. cbn [pm_id have_to_peer_message pm_payload].
    rewrite bool_decide_true by done. cbn [negb throw_if mbind result_bind length_write_be32].
    rewrite read_be32_write by done. by destruct h.
  - by destruct bf.
  - unfold from_peer_message, request_from_peer_message. cbn [pm_id request_to_peer_message pm_payload].
    rewrite bool_decide_true by done. cbn [negb throw_if mbind result_bind]. by rewrite range_read.
  - destruct Ht as [H1 H2]. unfold from_peer_message, piece_from_peer_message.
    cbn [pm_id piece_to_peer_message pm_payload]. rewrite bool_decide_true by done.
    cbn [negb throw_if mbind result_bind]. rewrite read_write_be32 by done.
    change (drop 4 (write_be32 (pc_index p) ++ write_be32 (pc_begin p) ++ pc_block p))
      with (write_be32 (pc_begin p) ++ pc_block p).
    change (drop 8 (write_be32 (pc_index p) ++ write_be32 (pc_begin p) ++ pc_block p)) with (pc_block p).
    rewrite read_write_be32 by done. by destruct p.
  - unfold from_peer_message, cancel_from_peer_message. cbn [pm_id cancel_to_peer_message pm_payload].
    rewrite bool_decide_true by done. cbn [negb throw_if mbind result_bind]. by rewrite range_read.
Qed.

(** The handshake is read back as it was sent. *)
Lemma handshake_roundtrip h rest :
  length (hs_reserved h) = 8%nat -> ih_ok (hs_info_hash h) -> length (hs_peer_id h) = 20%nat ->
  handshake_deserialize (handshake_serialize h ++ rest) = Ok h.
Proof.
  intros Hr [Hi _] Hp. unfold handshake_deserialize, handshake_serialize.
  set (tl := hs_reserved h ++ ih_bytes (hs_info_hash h) ++ hs_peer_id h).
  assert (length tl = 48%nat) as Htl by (unfold tl; rewrite !length_app, Hr, Hi, Hp; done).
  assert (68 <= length ((PROTOCOL_STRING_LENGTH :: PROTOCOL_STRING ++ tl) ++ rest))%nat as Hlen.
  { rewrite length_app. cbn [length]. rewrite length_app, Htl. cbn [length PROTOCOL_STRING str]. lia. }
  unfold HANDSHAKE_LENGTH. rewrite (proj2 (Nat.ltb_ge _ _)) by done.
  cbn [app]. change (PROTOCOL_STRING_LENGTH =? PROTOCOL_STRING_LENGTH) with true. cbn [negb].
  rewrite <- app_assoc.
  change (take 19 (PROTOCOL_STRING ++ tl ++ rest)) with PROTOCOL_STRING.
  change (drop 19 (PROTOCOL_STRING ++ tl ++ rest)) with (tl ++ rest).
  rewrite bool_decide_true by done. cbn [negb].
  assert (drop 8 (tl ++ rest) = ih_bytes (hs_info_hash h) ++ hs_peer_id h ++ rest) as E1.
  { unfold tl. rewrite <- !app_assoc, <- Hr. apply drop_app_length. }
  assert (drop 28 (tl ++ rest) = hs_peer_id h ++ rest) as E2.
  { change 28%nat with (8 + 20)%nat. rewrite <- drop_drop, E1, <- Hi. apply drop_app_length. }
  rewrite E1, E2. rewrite <- Hi, take_app_length. unfold try_from_raw. rewrite Hi. cbn [Nat.eqb negb].
  rewrite <- Hp, take_app_length. unfold tl. rewrite <- !app_assoc, <- Hr, take_app_length.
  by destruct h as [r [b] i].
Qed.

Lemma length_handshake h :
  length (hs_reserved h) = 8%nat -> ih_ok (hs_info_hash h) -> length (hs_peer_id h) = 20%nat ->
  length (handshake_serialize h) = HANDSHAKE_LENGTH.
Proof.
  intros Hr [Hi _] Hp. unfold handshake_serialize. cbn [length]. rewrite !length_app, Hr, Hi, Hp. done.
Qed.

(** A conversation survives the stream.  The first 68 bytes are read back as the
    handshake that was sent; whatever sequence of protocol messages and keep-alives
    the client sends after it, serialized one after the other, the receiver's
    framing cuts the stream back into exactly those messages, and reading each by its
    type gives back its fields; the stream is consumed to the last byte. *)
Theorem peer_wire_roundtrip (h : Handshake) (items : list (option Typed)) :
  length (hs_reserved h) = 8%nat -> ih_ok (hs_info_hash h) -> length (hs_peer_id h) = 20%nat ->
  Forall (fun i => forall t, i = Some t -> typed_ok t) items ->
  exists stream, send_stream items = Ok stream /\
    recv_exact HANDSHAKE_LENGTH (handshake_serialize h ++ stream) = Ok (handshake_serialize h, stream) /\
    handshake_deserialize (handshake_serialize h) = Ok h /\
    (ms ← recv_all (S (length stream)) stream; read_typed ms) = Ok (omap id items).
Proof.
  intros Hr Hh Hp Hi.
  assert (exists stream, send_stream items = Ok stream /\ forall fuel, (length stream < fuel)%nat ->
    (ms ← recv_all fuel stream; read_typed ms) = Ok (omap id items)) as (s & Hs & Hrecv).
  2: { exists s. split; [done|]. rewrite <- (length_handshake h) by done. rewrite recv_exact_app. split; [done|].
       rewrite <- (app_nil_r (handshake_serialize h)). split; [by apply handshake_roundtrip|]. apply Hrecv. lia. }
  induction Hi as [|i items Hit Hi (rest & Hs & IH)]; [exists []; split; [done|]; intros [|fuel] ?; [lia|done]|].
  destruct i as [t|]; cbn [send_stream].
  - specialize (Hit t eq_refl). rewrite serialize_small by apply Hit. cbn [mbind result_bind]. rewrite Hs.
    eexists. split; [reflexivity|]. intros [|fuel] Hf; [lia|]. cbn [recv_all].
    set (w := write_be32 _ ++ _ ++ _) in *. rewrite length_app in Hf. assert (4 < length w)%nat as Hw by (unfold w; rewrite !length_app; cbn; lia).
    assert (w ++ rest <> []) as Hne by (intros E; apply (f_equal length) in E; rewrite length_app in E; cbn in E; lia).
    destruct (w ++ rest) eqn:Ew; [done|]. rewrite <- Ew in *. unfold w.
    rewrite recv_message_app; [|apply Hit|by apply to_peer_id_roundtrip]. cbn [mbind result_bind].
    specialize (IH fuel ltac:(lia)).
    destruct (recv_all fuel rest) as [ms|]; [|done]. cbn [mbind result_bind] in *. cbn [read_typed].
    rewrite typed_roundtrip by done. cbn [mbind result_bind]. by rewrite IH.
  - rewrite Hs. eexists. split; [reflexivity|]. intros [|fuel] Hf; [lia|].
    rewrite length_app, length_write_be32 in Hf. specialize (IH fuel ltac:(lia)).
    change (recv_all (S fuel) (write_be32 0 ++ rest))
      with ('(m, stream) ← recv_message (write_be32 0 ++ rest); r ← recv_all fuel stream;
            Ok (match m with Some m => m :: r | None => r end)).
    rewrite recv_keep_alive. cbn [mbind result_bind]. destruct (recv_all fuel rest); [|done]. exact IH.
Qed.

Lemma peer_wire_roundtrip_witness :
  let h := mkHandshake (replicate 8 0) (mkInfoHash (replicate 20 7)) (replicate 20 65) in
  let items := [Some (TSimple Interested); None; Some (TRequest (mkRequest 3 16384 16384));
                Some (TPiece (mkPiece 3 16384 [1; 2; 3])); Some (THave (mkHave 3))] in
  exists stream, send_stream items = Ok stream /\
    recv_exact HANDSHAKE_LENGTH (handshake_serialize h ++ stream) = Ok (handshake_serialize h, stream) /\
    handshake_deserialize (handshake_serialize h) = Ok h /\
    (ms ← recv_all (S (length stream)) stream; read_typed ms) = Ok (omap id items).
Proof.
  intros h items. apply (peer_wire_roundtrip h items).
  - reflexivity.
  - apply (bool_decide_unpack (ih_ok (mkInfoHash (replicate 20 7)))). vm_compute. exact I.
  - reflexivity.
  - repeat (apply Forall_cons_2; [|]); [..|apply Forall_nil_2];
      intros t [= <-]; vm_compute; intuition discriminate.
Defined.

(** The truncation check of [PeerMessage::deserialize] can be bypassed.  It adds
    4 to the announced length in 32 bits, so for the four largest lengths the sum
    wraps to a value below four, the check passes, and the payload is copied from
    some four gigabytes past the end of the buffer (undefined behaviour) where
    "peer message truncated" was meant; the framing of the connection itself refuses
    such a length. *)
Theorem deserialize_length_wraps l t :
  2 ^ 32 - 4 <= l < 2 ^ 32 -> Z.of_nat (length t) < 2 ^ 32 - 4 ->
  deserialize (write_be32 l ++ t) = Throw (Undefined "read past the end of the message") /\
  recv_message (write_be32 l ++ t) = Throw (RuntimeError "message length exceeds sanity limit").
Proof.
  intros Hl Ht. split.
  - unfold deserialize. rewrite length_app, length_write_be32.
    rewrite (proj2 (Z.ltb_ge _ 4)) by lia. rewrite read_write_be32 by lia.
    rewrite (proj2 (Z.eqb_neq _ _)) by lia.
    assert (u32 (4 + l) = 4 + l - 2 ^ 32) as ->
      by (unfold u32; symmetry; apply (Z.mod_unique _ _ 1); lia).
    rewrite (proj2 (Z.ltb_ge _ (4 + l - 2 ^ 32))) by lia. destruct ((write_be32 l ++ t) !! 4%nat); [|done].
    rewrite (proj2 (Z.ltb_lt 1 l)) by lia. by rewrite (proj2 (Z.ltb_lt _ _)) by lia.
  - unfold recv_message. rewrite <- (length_write_be32 l), recv_exact_app. cbn [mbind result_bind].
    rewrite read_be32_write by (unfold u32_ok; lia). rewrite (proj2 (Z.eqb_neq _ _)) by lia.
    by rewrite (proj2 (Z.ltb_lt _ _)) by lia.
Qed.

Lemma deserialize_length_wraps_witness :
  deserialize [255; 255; 255; 255; 7; 0] = Throw (Undefined "read past the end of the message").
Proof.
  apply (deserialize_length_wraps (2 ^ 32 - 1) [7; 0]); [lia|cbn; lia].
Defined.
