(* ===== verification/TorrentFile.v ===== *)
(** * Torrent metadata (inc/torrent_file.h, src/torrent_file.cpp, inc/utils.h,
    inc/trackers/tracker_protocol.h, inc/trackers/tracker_details.h)

    The constructor of [TorrentFile] reads the fields of the parsed metadata
    dictionary; every missing or ill-typed field is an exception.  A
    [std::filesystem::path] is its native string, [operator/] as POSIX defines it. *)

From S2P Require Import Prelude CxxLib Hash Bencode.

Record TrackerProtocol := mkProtocol { scheme : bytes; default_port : Z }.

Definition HTTP : TrackerProtocol := mkProtocol (str "http") 80.
Definition HTTPS : TrackerProtocol := mkProtocol (str "https") 443.
Definition UDP : TrackerProtocol := mkProtocol (str "udp") 6969.

Definition from_scheme (s : bytes) : result TrackerProtocol :=
  if bool_decide (s = str "http") then Ok HTTP
  else if bool_decide (s = str "https") then Ok HTTPS
  else if bool_decide (s = str "udp") then Ok UDP
  else Throw (RuntimeError "Unknown tracker protocol").

Record TrackerDetails := mkTracker {
  protocol : TrackerProtocol; hostname : bytes; td_port : Z; td_path : bytes }.

Definition td_to_string (td : TrackerDetails) : bytes :=
  scheme (protocol td) ++ str "://" ++ hostname td ++ str ":" ++ to_string (td_port td) ++ td_path td.

(** [extract_tracker_information] *)
Definition extract_tracker_information (announce : bytes) : result TrackerDetails :=
  match find (str "://") announce 0 with
  | None => Throw (RuntimeError "Invalid announce URL")
  | Some start =>
      proto ← from_scheme (take start announce);
      let start := (start + 3)%nat in
      let end_ := default (length announce) (find (str "/") announce start) in
      let host := slice start end_ announce in
      let path := drop end_ announce in
      let path := match path with [] => str "/" | _ => path end in
      match find (str ":") host 0 with
      | Some colon =>
          port ← stoi (drop (S colon) host);
          Ok (mkTracker proto (take colon host) (u16 port) path)
      | None => Ok (mkTracker proto host (default_port proto) path)
      end
  end.

(** [utils::is_power_of_two] *)
Definition is_power_of_two (n : Z) : bool := (0 <? n) && (Z.land n (u64 (n - 1)) =? 0).

(** [fs::path] *)
Definition is_absolute (p : bytes) : bool := starts_with (str "/") p.

Definition has_filename (p : bytes) : bool :=
  match last p with
  | None => false
  | Some c => negb (c =? chr "/")
  end.

(** [a / b], also [a /= b] *)
Definition path_append (a b : bytes) : bytes :=
  if is_absolute b then b
  else if has_filename a then a ++ str "/" ++ b
  else a ++ b.

Record File := mkFile {
  f_length : Z; f_path : bytes; f_mtime : bytes; f_sha1 : bytes; f_crc32 : bytes; f_md5 : bytes }.

Record TorrentFile := mkTorrent {
  torrent_name : bytes;
  is_multifile : bool;
  total_size : Z;
  piece_size : Z;
  tf_files : list File;
  tf_info_hash : InfoHash;
  pieces : list bytes;
  announce_tracker : TrackerDetails;
  announce_list_trackers : list (list TrackerDetails);
}.

(** A loop that pushes one result per element. *)
Fixpoint traverse {A B} (f : A -> result B) (l : list A) : result (list B) :=
  match l with
  | [] => Ok []
  | x :: l' => y ← f x; ys ← traverse f l'; Ok (y :: ys)
  end.

Definition load_list_of_bstrings (l : list BType) : result (list bytes) := traverse as_string l.

(** [if (d->has_key(k)) x = d->get_val<BString>(k)->content;] *)
Definition optional_string (d : smap BType) (key : bytes) : result bytes :=
  if has_key d key then get_val_string d key else Ok [].

Definition read_file (elem : BType) : result File :=
  match elem with
  | BDict d =>
      crc32 ← optional_string d (str "crc32");
      len ← get_val_integer d (str "length");
      md5 ← optional_string d (str "md5");
      mtime ← optional_string d (str "mtime");
      sha1 ← optional_string d (str "sha1");
      parts ← get_val_list d (str "path");
      parts ← load_list_of_bstrings parts;
      Ok (mkFile (u64 len) (fold_left path_append parts []) mtime sha1 crc32 md5)
  | _ => Throw (RuntimeError "Files entry should be a list of dictionaries.")
  end.

Definition read_tier (v : BType) : result (list TrackerDetails) :=
  l ← as_list v; urls ← load_list_of_bstrings l; traverse extract_tracker_information urls.

(** The hashes of the pieces string; trailing bytes are dropped. *)
Definition split_pieces (s : bytes) : list bytes :=
  map (fun i => slice (i * 20) (i * 20 + 20) s) (seq 0 (length s / 20)).

Definition read_announce_list (metadata : smap BType) : result (list (list TrackerDetails)) :=
  if has_key metadata (str "announce-list")
  then l ← get_val_list metadata (str "announce-list"); traverse read_tier l
  else Ok [].

(** [is_multifile], [total_size] and [files]. *)
Definition read_sizes (info : smap BType) : result (bool * Z * list File) :=
  if has_key info (str "files")
  then l ← get_val_list info (str "files"); fs ← traverse read_file l;
       Ok (true, fold_left (fun t f => u64 (t + f_length f)) fs 0, fs)
  else len ← get_val_integer info (str "length"); Ok (false, u64 len, []).

(** The constructor. *)
Definition torrent_new `{Sha1} (metadata : smap BType) (info_bytes : bytes) : result TorrentFile :=
  _ ← throw_if (length info_bytes =? 0)%nat (RuntimeError "Cannot calculate info_hash: no info bytes provided");
  let info_hash := from_sha1 (sha1 info_bytes) in
  _ ← throw_if (negb (has_key metadata (str "announce")))
        (RuntimeError "The torrent file provided doesn't contain the mandatory announce field.");
  announce ← get_val_string metadata (str "announce");
  tracker ← extract_tracker_information announce;
  tiers ← read_announce_list metadata;
  _ ← throw_if (negb (has_key metadata (str "info")))
        (RuntimeError "The torrent file provided doesn't contain the mandatory info directory.");
  info ← get_val_dict metadata (str "info");
  name ← get_val_string info (str "name");
  plen ← get_val_integer info (str "piece length");
  let plen := u64 plen in
  _ ← throw_if (negb (is_power_of_two plen)) (RuntimeError "Piece length of the torrent must be a power of 2.");
  _ ← throw_if (plen <? 16 * 1024) (RuntimeError "Piece length must be greater or equal to 16kB.");
  '(multi, total, fs) ← read_sizes info;
  pieces_str ← get_val_string info (str "pieces");
  Ok (mkTorrent name multi total plen fs info_hash (split_pieces pieces_str) tracker tiers).

(** [file_layout] *)
Definition file_layout (t : TorrentFile) : list (bytes * Z) :=
  if is_multifile t then map (fun f => (f_path f, f_length f)) (tf_files t)
  else [(torrent_name t, total_size t)].

(** ** Searching for one character *)

Lemma find_at_char c s i :
  match find_at [c] s i with
  | Some j => exists p t, s = p ++ c :: t /\ (c ∉ p) /\ j = (i + length p)%nat
  | None => (c ∉ s)
  end.
Proof.
  revert i. induction s as [|x s IH]; intros i; cbn [find_at starts_with]; [apply not_elem_of_nil|].
  rewrite andb_true_r. destruct (c =? x) eqn:E; b2p.
  - subst. exists [], s. split; [done|]. split; [apply not_elem_of_nil|cbn; lia].
  - specialize (IH (S i)). destruct (find_at [c] s (S i)).
    + destruct IH as (p & t & -> & Hp & ->). exists (x :: p), t. split; [done|].
      split; [rewrite elem_of_cons; intros [?|?]; congruence|cbn; lia].
    + rewrite elem_of_cons. intros [?|?]; congruence.
Qed.

Lemma find_at_first c p t i : c ∉ p -> find_at [c] (p ++ c :: t) i = Some (i + length p)%nat.
Proof.
  revert i. induction p as [|x p IH]; intros i Hp; cbn [app find_at starts_with].
  { rewrite Z.eqb_refl. cbn. f_equal. lia. }
  rewrite elem_of_cons in Hp. rewrite (proj2 (Z.eqb_neq c x)) by (intros ->; tauto). cbn [andb].
  rewrite IH by tauto. f_equal. cbn. lia.
Qed.

Lemma find_at_length pat s i j : find_at pat s i = Some j -> (j + length pat <= i + length s)%nat.
Proof.
  revert i. induction s as [|x s IH]; intros i; cbn [find_at].
  - destruct pat; cbn; [intros [= <-]; lia|done].
  - destruct (starts_with pat (x :: s)) eqn:E.
    + intros [= <-]. assert (forall q u, starts_with q u = true -> (length q <= length u)%nat) as Hl.
      { induction q as [|a q IHq]; intros [|b u] Hq; cbn in *; try lia; try done. b2p. apply IHq in H0. lia. }
      apply Hl in E. lia.
    + intros Hf. apply IH in Hf. cbn. lia.
Qed.

(** ** Tracker addresses *)

(** What [extract_tracker_information] produces. *)
Definition tracker_ok (td : TrackerDetails) : Prop :=
  (protocol td ∈ [HTTP; HTTPS; UDP]) /\ (chr "/" ∉ hostname td) /\ (chr ":" ∉ hostname td) /\
  0 <= td_port td < 2 ^ 16 /\ exists t, td_path td = chr "/" :: t.

Lemma from_scheme_ok s p : from_scheme s = Ok p -> p ∈ [HTTP; HTTPS; UDP] /\ scheme p = s.
Proof.
  unfold from_scheme. repeat case_bool_decide; intros [= <-]; subst; (split; [set_solver|done]).
Qed.

Lemma find_char_slice c (s : bytes) start :
  (start <= length s)%nat ->
  let e := default (length s) (find [c] s start) in
  (c ∉ slice start e s) /\ (drop e s = [] \/ exists t, drop e s = c :: t).
Proof.
  intros Hs. unfold find. rewrite (proj2 (Nat.leb_le _ _)) by done.
  pose proof (find_at_char c (drop start s) start) as Hf.
  destruct (find_at [c] (drop start s) start) as [j|]; cbn [default from_option]; unfold id.
  - destruct Hf as (p & t & E & Hp & ->). unfold slice. rewrite E.
    replace (start + length p - start)%nat with (length p) by lia. rewrite take_app_length.
    split; [done|]. right. exists t. by rewrite <- drop_drop, E, drop_app_length.
  - unfold slice. rewrite take_ge by (rewrite length_drop; lia). split; [done|]. left. by rewrite drop_all.
Qed.

Lemma extract_ok a td : extract_tracker_information a = Ok td -> tracker_ok td.
Proof.
  unfold extract_tracker_information. destruct (find (str "://") a 0) as [start|] eqn:Ef; [|done].
  intros E. apply bind_Ok in E as (proto & Hp & E). apply from_scheme_ok in Hp as [Hp _].
  assert (start + 3 <= length a)%nat as Hlen.
  { unfold find in Ef. cbn [Nat.leb] in Ef. rewrite drop_0 in Ef. apply find_at_length in Ef. cbn in Ef. lia. }
  destruct (find_char_slice (chr "/") a (start + 3) Hlen) as [Hslash Hdrop].
  change [chr "/"] with (str "/") in *. set (e := default (length a) (find (str "/") a (start + 3))) in *.
  set (host := slice (start + 3) e a) in *. cbv zeta in E.
  assert (exists t, match drop e a with [] => str "/" | _ => drop e a end = chr "/" :: t) as Hpath.
  { destruct Hdrop as [->|[t ->]]; eauto. }
  unfold find in E. cbn [Nat.leb] in E. rewrite drop_0 in E. change (str ":") with [chr ":"] in E.
  pose proof (find_at_char (chr ":") host 0) as Hc. destruct (find_at [chr ":"] host 0) as [colon|].
  - destruct Hc as (p & t & Eh & Hcp & ->). apply bind_Ok in E as (port & _ & [= <-]). cbn [Nat.add] in *.
    rewrite Eh, take_app_length. split_and!; cbn; [done| |done|apply Z.mod_pos_bound; lia..|done].
    intros Hin. apply Hslash. rewrite Eh. apply elem_of_app. by left.
  - injection E as <-. split_and!; cbn; try done; repeat (apply elem_of_cons in Hp as [->|Hp]); cbn; try lia;
      by apply not_elem_of_nil in Hp.
Qed.

Lemma digits_no_char z c : 0 <= z -> isdigit c = false -> c ∉ to_string z.
Proof.
  intros Hz Hc Hin. destruct (to_string_digits z Hz) as (_ & Hd & _).
  eapply Forall_forall in Hd; [|exact Hin]. simpl in Hd. congruence.
Qed.

(** The printed form of an accepted tracker is read back as that tracker. *)
Lemma extract_to_string td : tracker_ok td -> extract_tracker_information (td_to_string td) = Ok td.
Proof.
  destruct td as [proto host port path]. intros (Hp & Hs & Hc & Hport & t & Ht). cbn in *. subst path.
  set (rest := host ++ str ":" ++ to_string port ++ chr "/" :: t).
  assert (exists n, find (str "://") (scheme proto ++ str "://" ++ rest) 0 = Some n /\
    n = length (scheme proto) /\ from_scheme (scheme proto) = Ok proto) as (n & Hf & -> & Hsch).
  { repeat (apply elem_of_cons in Hp as [->|Hp]); [by eexists|by eexists|by eexists|by apply not_elem_of_nil in Hp]. }
  unfold extract_tracker_information, td_to_string. cbn [protocol hostname td_port td_path]. fold rest.
  rewrite Hf, take_app_length, Hsch. cbn [mbind result_bind].
  set (s := host ++ str ":" ++ to_string port).
  assert (rest = s ++ chr "/" :: t) as Hrest by (unfold rest, s; by rewrite <- !app_assoc).
  assert (chr "/" ∉ s) as Hns.
  { unfold s. rewrite !elem_of_app. intros [?|[?|?]]; [done|set_solver|].
    by eapply digits_no_char in H; [|lia|]. }
  set (pre := scheme proto ++ str "://"). rewrite (app_assoc (scheme proto)). fold pre.
  assert (length (scheme proto) + 3 = length pre)%nat as Hl by (unfold pre; rewrite length_app; done).
  assert (find (str "/") (pre ++ rest) (length pre) = Some (length pre + length s)%nat) as Hfs.
  { unfold find. rewrite (proj2 (Nat.leb_le _ _)) by (rewrite length_app; lia).
    rewrite drop_app_length, Hrest. by apply (find_at_first (chr "/")). }
  rewrite Hl, Hfs. cbn [default from_option]. unfold id. rewrite Hrest, slice_app_mid, drop_app_mid.
  unfold find. cbn [Nat.leb]. rewrite drop_0. unfold s. change (str ":" ++ to_string port) with (chr ":" :: to_string port).
  change (str ":") with [chr ":"]. rewrite find_at_first by done. cbn [Nat.add].
  replace (drop (S (length host)) (host ++ chr ":" :: to_string port)) with (to_string port).
  2: { replace (S (length host)) with (length host + 1)%nat by lia. by rewrite <- drop_drop, drop_app_length. }
  rewrite stoi_to_string by lia. cbn [mbind result_bind]. rewrite take_app_length.
  unfold u16. by rewrite Z.mod_small by lia.
Qed.

(** ** Piece sizes *)

Lemma power_of_two_spec n : 0 <= n < 2 ^ 64 -> is_power_of_two n = true -> exists k, 0 <= k < 64 /\ n = 2 ^ k.
Proof.
  intros Hn H. unfold is_power_of_two in H. b2p. unfold u64 in *. rewrite Z.mod_small in * by lia.
  exists (Z.log2 n). pose proof (Z.log2_spec n ltac:(lia)) as [Hlo Hhi].
  pose proof (Z.log2_nonneg n). split; [split; [done|]; apply Z.log2_lt_pow2; lia|].
  destruct (Z.eq_dec n (2 ^ Z.log2 n)) as [|Hne]; [done|]. exfalso.
  assert (Z.testbit (Z.land n (n - 1)) (Z.log2 n) = true) as Hb.
  { rewrite Z.land_spec. apply andb_true_iff. split; [apply Z.bit_log2; lia|].
    replace (Z.log2 n) with (Z.log2 (n - 1)); [apply Z.bit_log2; lia|].
    apply Z.log2_unique; [done|]. lia. }
  rewrite H0, Z.bits_0 in Hb. done.
Qed.

Lemma split_pieces_length s : Forall (fun h => length h = 20%nat) (split_pieces s).
Proof.
  apply Forall_forall. intros h (i & -> & Hi)%list_elem_of_fmap. apply elem_of_seq in Hi.
  rewrite length_slice; [lia|]. pose proof (Nat.Div0.mul_div_le (length s) 20). nia.
Qed.

(** The total of a layout. *)
Definition layout_total (l : list (bytes * Z)) : Z := foldr (fun f t => snd f + t) 0 l.

Lemma sum_u64 fs t :
  u64 (fold_left (fun t f => u64 (t + f_length f)) fs t) =
  u64 (t + layout_total (map (fun f => (f_path f, f_length f)) fs)).
Proof.
  revert t. induction fs as [|f fs IH]; intros t; cbn [fold_left map layout_total foldr snd].
  { f_equal. lia. }
  rewrite IH. unfold u64. rewrite Z.add_mod_idemp_l by lia. f_equal. fold (layout_total (map (fun f => (f_path f, f_length f)) fs)). lia.
Qed.

Lemma traverse_Forall {A B} (f : A -> result B) (P : B -> Prop) l ys :
  (forall x y, f x = Ok y -> P y) -> traverse f l = Ok ys -> Forall P ys.
Proof.
  intros Hf. revert ys. induction l as [|x l IH]; intros ys E; cbn [traverse] in E; inv_result; [constructor|].
  constructor; eauto.
Qed.

Lemma load_strings l : load_list_of_bstrings (map BString l) = Ok l.
Proof.
  unfold load_list_of_bstrings. induction l as [|x l IH]; [done|]. cbn [map traverse as_string mbind result_bind].
  by rewrite IH.
Qed.

Lemma read_tier_ok v tds : read_tier v = Ok tds -> Forall tracker_ok tds.
Proof. unfold read_tier. intros E. inv_result. eapply traverse_Forall; [|done]. apply extract_ok. Qed.

Lemma read_file_length v f : read_file v = Ok f -> 0 <= f_length f < 2 ^ 64.
Proof. unfold read_file. destruct v; try done. intros E. inv_result. cbn. apply Z.mod_pos_bound. lia. Qed.

Lemma read_announce_list_ok d tiers : read_announce_list d = Ok tiers -> Forall tracker_ok (concat tiers).
Proof.
  unfold read_announce_list. case_if; intros E; inv_result; [|constructor].
  apply Forall_concat. eapply traverse_Forall; [|done]. apply read_tier_ok.
Qed.

Lemma read_sizes_ok info b total fs name ps ih pcs tr trs :
  read_sizes info = Ok (b, total, fs) ->
  let l := file_layout (mkTorrent name b total ps fs ih pcs tr trs) in
  Forall (fun f => 0 <= snd f < 2 ^ 64) l /\ total = u64 (layout_total l).
Proof.
  assert (forall z, 0 <= u64 z < 2 ^ 64) as Hu by (intros z; apply Z.mod_pos_bound; lia).
  unfold read_sizes. case_if; intros E; inv_result; cbn [file_layout is_multifile tf_files torrent_name total_size].
  - split.
    + apply Forall_map. eapply traverse_Forall; [|done]. apply read_file_length.
    + pose proof (sum_u64 fs 0) as Hs. rewrite Z.add_0_l in Hs. rewrite <- Hs. symmetry. apply Z.mod_small.
      destruct fs as [|f fs] using rev_ind; [cbn; lia|]. rewrite fold_left_app. apply Hu.
  - split; [apply Forall_singleton, Hu|]. unfold layout_total. cbn [foldr snd]. rewrite Z.add_0_r.
    symmetry. apply Z.mod_small, Hu.
Qed.

(** The lengths as the metadata has them, before they are converted to [uint64_t]. *)
Definition entry_length (v : BType) : result Z :=
  match v with
  | BDict d => get_val_integer d (str "length")
  | _ => Throw (RuntimeError "not a file")
  end.

Definition claimed_lengths (metadata : smap BType) : result (list Z) :=
  info ← get_val_dict metadata (str "info");
  if has_key info (str "files")
  then l ← get_val_list info (str "files"); traverse entry_length l
  else len ← get_val_integer info (str "length"); Ok [len].

Definition sum_Z (l : list Z) : Z := foldr Z.add 0 l.

Lemma read_file_claimed v f :
  read_file v = Ok f -> exists len, entry_length v = Ok len /\ f_length f = u64 len.
Proof. unfold read_file. destruct v; try done. intros E. inv_result. eexists. split; [eassumption|done]. Qed.

Lemma read_files_claimed l fs :
  traverse read_file l = Ok fs ->
  exists lens, traverse entry_length l = Ok lens /\ map f_length fs = map u64 lens.
Proof.
  revert fs. induction l as [|v l IH]; intros fs E; cbn [traverse] in *; inv_result; [by exists []|].
  edestruct read_file_claimed as (len & E1 & Hl); [eassumption|]. edestruct IH as (lens & E2 & Hls); [done|].
  exists (len :: lens). rewrite E1, E2. split; [done|]. cbn. by rewrite Hl, Hls.
Qed.

Lemma layout_total_sum l : layout_total l = sum_Z (map snd l).
Proof. induction l as [|f l IH]; [done|]. unfold layout_total, sum_Z in *. cbn [foldr map]. by rewrite IH. Qed.

Lemma sum_map_u64 lens : u64 (sum_Z (map u64 lens)) = u64 (sum_Z lens).
Proof.
  induction lens as [|x lens IH]; [done|]. cbn. fold (sum_Z (map u64 lens)) (sum_Z lens). unfold u64 in *.
  rewrite Z.add_mod_idemp_l by lia. by rewrite <- Z.add_mod_idemp_r, IH, Z.add_mod_idemp_r by lia.
Qed.

Lemma in_range_u64 lens :
  Forall (Z.le 0) lens -> sum_Z lens < 2 ^ 64 -> map u64 lens = lens /\ u64 (sum_Z lens) = sum_Z lens.
Proof.
  intros Hl Hs. assert (0 <= sum_Z lens) as H0.
  { clear Hs. induction Hl as [|x lens Hx Hl IH]; [done|]. cbn. fold (sum_Z lens). lia. }
  split; [|apply Z.mod_small; lia]. clear H0. induction Hl as [|x lens Hx Hl IH]; [done|]. cbn in *. fold (sum_Z lens) in *.
  assert (0 <= sum_Z lens) by (clear -Hl; induction Hl; [done|cbn; fold (sum_Z l); lia]).
  rewrite IH by lia. unfold u64. by rewrite Z.mod_small by lia.
Qed.

Lemma read_sizes_claimed info b total fs name ps ih pcs tr trs :
  read_sizes info = Ok (b, total, fs) ->
  let l := file_layout (mkTorrent name b total ps fs ih pcs tr trs) in
  exists lens,
    (if has_key info (str "files")
     then l ← get_val_list info (str "files"); traverse entry_length l
     else len ← get_val_integer info (str "length"); Ok [len]) = Ok lens /\
    map snd l = map u64 lens /\ total = u64 (sum_Z lens).
Proof.
  intros E l. destruct (read_sizes_ok info b total fs name ps ih pcs tr trs E) as [_ Ht]. cbv zeta in Ht.
  rewrite layout_total_sum in Ht. fold l in Ht.
  assert (exists lens, (if has_key info (str "files")
     then l ← get_val_list info (str "files"); traverse entry_length l
     else len ← get_val_integer info (str "length"); Ok [len]) = Ok lens /\ map snd l = map u64 lens) as (lens & Hc & Hl).
  { unfold l. revert E. unfold read_sizes. case_if; intros E; inv_result; cbn [file_layout is_multifile tf_files torrent_name total_size].
    - edestruct read_files_claimed as (lens & E1 & Hls); [eassumption|]. exists lens.
      match goal with H : get_val_list _ _ = Ok _ |- _ => rewrite H end. split; [exact E1|]. rewrite map_map. exact Hls.
    - match goal with H : get_val_integer _ _ = Ok ?n |- _ => rewrite H; exists [n] end. split; [done|]. cbn. congruence. }
  exists lens. split; [done|]. split; [done|]. by rewrite Ht, Hl, sum_map_u64.
Qed.

(** C34: what the client may rely on for every torrent file it accepts: the info hash
    is the SHA-1 of the info bytes, the piece size is a power of two of at least
    16 KiB, every piece hash is twenty bytes, and every tracker address, printed, is read
    back as the same address (so logging and re-reading never change a tracker).  The
    lengths of the layout and the total size are those the metadata claims, converted to
    64 bits: nothing rejects a negative length or a sum that wraps around.  For lengths
    that are not negative and whose sum is below 2^64 they are exactly the claimed ones,
    and the total is their sum. *)
Theorem torrent_file_sound (SH : Sha1) metadata info_bytes t :
  torrent_new metadata info_bytes = Ok t ->
  ih_bytes (tf_info_hash t) = sha1 info_bytes /\
  (exists k, 14 <= k < 64 /\ piece_size t = 2 ^ k) /\
  Forall (fun h => length h = 20%nat) (pieces t) /\
  (exists lens, claimed_lengths metadata = Ok lens /\
     map snd (file_layout t) = map u64 lens /\ total_size t = u64 (sum_Z lens) /\
     (Forall (Z.le 0) lens -> sum_Z lens < 2 ^ 64 ->
        map snd (file_layout t) = lens /\ total_size t = layout_total (file_layout t))) /\
  Forall (fun td => extract_tracker_information (td_to_string td) = Ok td)
    (announce_tracker t :: concat (announce_list_trackers t)).
Proof.
  unfold torrent_new. intros E. cbv zeta in E. inv_result.
  cbn [tf_info_hash piece_size pieces announce_tracker announce_list_trackers total_size].
  split; [done|]. split.
  { b2p. destruct (power_of_two_spec (u64 x7)) as (k & Hk & Ek); [apply Z.mod_pos_bound; lia|done|].
    exists k. split; [|done]. split; [|lia]. destruct (Z_lt_le_dec k 14); [|done].
    pose proof (Z.pow_le_mono_r 2 k 13 ltac:(lia) ltac:(lia)). lia. }
  split; [apply split_pieces_length|].
  split.
  { match goal with Hs : read_sizes ?i = Ok _, Hi : get_val_dict metadata _ = Ok ?i |- _ =>
      destruct (read_sizes_claimed i _ _ _ x6 (u64 x7)
        (from_sha1 (sha1 info_bytes)) (split_pieces x10) x2 x3 Hs) as (lens & Hc & Hl & Ht);
      exists lens; unfold claimed_lengths; rewrite Hi end.
    split; [exact Hc|]. split; [exact Hl|]. split; [exact Ht|]. intros Hpos Hsum.
    destruct (in_range_u64 lens Hpos Hsum) as [E1 E2]. rewrite layout_total_sum, Hl, E1. split; [done|].
    by rewrite Ht, E2. }
  constructor.
  - by eapply extract_to_string, extract_ok.
  - match goal with Ha : read_announce_list _ = Ok _ |- _ => apply read_announce_list_ok in Ha;
      eapply Forall_impl; [exact Ha|] end. apply extract_to_string.
Qed.

Definition sample_metadata : smap BType :=
  [(str "announce", BString (str "udp://tracker.example:80/announce"));
   (str "info", BDict [(str "files", BList [
       BDict [(str "length", BInteger 20000); (str "path", BList [BString (str "a"); BString (str "b.txt")])];
       BDict [(str "length", BInteger 5); (str "path", BList [BString (str "c.txt")])]]);
     (str "name", BString (str "sample"));
     (str "piece length", BInteger 16384);
     (str "pieces", BString (replicate 40 1))])].

Lemma torrent_file_sound_witness :
  exists t, @torrent_new sample_sha1 sample_metadata [1; 2; 3] = Ok t /\
    total_size t = 20005 /\ map fst (file_layout t) = [str "a/b.txt"; str "c.txt"] /\
    claimed_lengths sample_metadata = Ok [20000; 5] /\ total_size t = layout_total (file_layout t).
Proof.
  destruct (@torrent_new sample_sha1 sample_metadata [1; 2; 3]) as [t|e] eqn:E; [|vm_compute in E; discriminate E].
  exists t. split; [reflexivity|].
  pose proof (torrent_file_sound sample_sha1 sample_metadata [1; 2; 3] t E) as (_ & _ & _ & (lens & Hc & _ & _ & Ht) & _).
  assert (lens = [20000; 5]) as -> by (vm_compute in Hc; congruence).
  destruct Ht as [_ Ht]; [repeat constructor; lia|vm_compute; reflexivity|].
  vm_compute in E. injection E as <-. split; [reflexivity|]. split; [reflexivity|]. split; [exact Hc|exact Ht].
Defined.
