(* ===== verification/Utils.v ===== *)
(** * Texts and file names
    (inc/utils.h; the log directory of src/peer_wire/torrent_manager.cpp)

    The helpers that turn a torrent's name and its numbers into file names, JSON and text
    for people, and the one place where a file name made from the name is dangerous: the
    constructor of [TorrentManager] empties the torrent's log directory.  The file system
    is the map of its files, each by the components of its absolute path; there are no
    symbolic links, and a directory exists as long as it holds a file. *)

From S2P Require Import Prelude CxxLib TorrentFile.

(** ** Names *)

(** [std::isalnum] in the C locale *)
Definition name_char (c : Z) : bool :=
  isalnum c || (c =? chr "-") || (c =? chr "_") || (c =? chr ".").

Definition sanitize_filename (name : bytes) : bytes :=
  map (fun c => if name_char c then c else chr "_") name.

(** [generate_peer_id]; [draws]: the twelve bytes of the generator. *)
Definition generate_peer_id (draws : list Z) : bytes := str "-BT0100-" ++ map u8 draws.

(** ** JSON *)

Definition BACKSLASH : Z := 92.
Definition QUOTE : Z := 34.

Definition escape_char (c : Z) : bytes :=
  if c =? BACKSLASH then [BACKSLASH; BACKSLASH]
  else if c =? QUOTE then [BACKSLASH; QUOTE]
  else if c =? 10 then [BACKSLASH; chr "n"]
  else if c =? 13 then [BACKSLASH; chr "r"]
  else if c =? 9 then [BACKSLASH; chr "t"]
  else [c].

Definition json_escape (s : bytes) : bytes := concat (map escape_char s).

(** ** Durations and sizes *)

(** [std::to_string(n) + unit] *)
Definition with_unit (n : Z) (unit : string) : bytes := to_string n ++ str unit.

(** The argument is the integral part of the seconds, which both functions cut off after
    replacing a negative value by zero. *)
Definition format_duration (total : Z) : bytes :=
  let total := Z.max 0 total in
  let hours := total / 3600 in
  let mins := total mod 3600 / 60 in
  let secs := total mod 60 in
  if 0 <? hours then with_unit hours "h " ++ with_unit mins "m " ++ with_unit secs "s"
  else if 0 <? mins then with_unit mins "m " ++ with_unit secs "s"
  else with_unit secs "s".

Definition format_duration_hours_minutes (total : Z) : bytes :=
  let total := Z.max 0 total in
  let hours := total / 3600 in
  let mins := total mod 3600 / 60 in
  if 0 <? hours then with_unit hours "h " ++ with_unit mins "m"
  else if 0 <? mins then with_unit mins "m"
  else with_unit total "s".

(** The nearest integer to [a / b], the even one of two: how the conversion to [double] and
    the output of a [double] round. *)
Definition round_even (a b : Z) : Z :=
  let q := a / b in
  let r := a mod b in
  if 2 * r <? b then q else if b <? 2 * r then q + 1 else if Z.even q then q else q + 1.

(** [static_cast<double>(n)] of a [uint64_t]: 53 significant bits. *)
Definition to_double (n : Z) : Z :=
  if n <? 2 ^ 53 then n else let k := Z.log2 n - 52 in round_even n (2 ^ k) * 2 ^ k.

(** [std::fixed << std::setprecision(2)] of [v / unit]; a division by a power of two is
    exact. *)
Definition hundredths (v unit : Z) : Z := round_even (100 * v) unit.
Definition fixed2 (v unit : Z) : bytes :=
  let h := hundredths v unit in
  to_string (h / 100) ++ str "." ++ [48 + h mod 100 / 10; 48 + h mod 10].

Definition kib : Z := 1024.
Definition mib : Z := kib * 1024.
Definition gib : Z := mib * 1024.
Definition tib : Z := gib * 1024.

Definition format_byte_size (n : Z) : bytes :=
  if n <? kib then with_unit n " B"
  else if n <? mib then fixed2 (to_double n) kib ++ str " KiB"
  else if n <? gib then fixed2 (to_double n) mib ++ str " MiB"
  else if n <? tib then fixed2 (to_double n) gib ++ str " GiB"
  else fixed2 (to_double n) tib ++ str " TiB".

(** ** The log directory *)

(** The components of a path, and where it leads from [cwd]. *)
Fixpoint components (p : bytes) : list bytes :=
  match p with
  | [] => [[]]
  | c :: p' =>
      if c =? chr "/" then [] :: components p'
      else match components p' with
           | [] => [[c]]
           | h :: t => (c :: h) :: t
           end
  end.

Definition walk (dir : list bytes) (c : bytes) : list bytes :=
  if bool_decide (c = [] \/ c = str ".") then dir
  else if bool_decide (c = str "..") then removelast dir
  else dir ++ [c].

Definition resolve (cwd : list bytes) (p : bytes) : list bytes :=
  fold_left walk (components p) (if is_absolute p then [] else cwd).

Abbreviation Files := (gmap (list bytes) bytes).

(** [fs::remove_all] *)
Definition remove_all (dir : list bytes) (files : Files) : Files :=
  filter (fun '(p, _) => ~ dir `prefix_of` p) files.

Definition log_dir (log_output_dir name : bytes) : bytes :=
  path_append log_output_dir (sanitize_filename name).

(** What the constructor of [TorrentManager] does before it opens its log file. *)
Definition clear_logs (cwd : list bytes) (log_output_dir name : bytes) (files : Files) : Files :=
  remove_all (resolve cwd (log_dir log_output_dir name)) files.

(** ** Lemmas *)

Lemma sanitized_chars name : Forall (fun c => name_char c = true) (sanitize_filename name).
Proof.
  apply Forall_forall. intros c Hc. apply list_elem_of_fmap in Hc as (x & -> & _).
  by destruct (name_char x) eqn:E.
Qed.

Lemma sanitize_clean name : Forall (fun c => name_char c = true) name -> sanitize_filename name = name.
Proof. induction 1 as [|c name Hc _ IH]; [done|]. unfold sanitize_filename in *. cbn [map]. by rewrite Hc, IH. Qed.

(** A second pass changes nothing. *)
Lemma sanitize_idempotent name : sanitize_filename (sanitize_filename name) = sanitize_filename name.
Proof. apply sanitize_clean, sanitized_chars. Qed.

Definition slash_free (s : bytes) : Prop := Forall (fun c => c <> chr "/") s.

Lemma sanitized_slash_free name : slash_free (sanitize_filename name).
Proof.
  eapply Forall_impl; [apply sanitized_chars|]. by intros c Hc ->.
Qed.

Lemma components_slash_free s : slash_free s -> components s = [s].
Proof.
  induction 1 as [|c s Hc _ IH]; [done|]. cbn [components]. rewrite (proj2 (Z.eqb_neq _ _)) by done.
  by rewrite IH.
Qed.

Lemma components_app a b : components (a ++ chr "/" :: b) = components a ++ components b.
Proof.
  induction a as [|c a IH]; [done|]. cbn [app components]. rewrite IH.
  destruct (c =? chr "/"); [done|]. destruct (components a) eqn:E; [|done].
  exfalso. destruct a as [|d a]; cbn in E; [done|]. destruct (d =? _); [done|]. by destruct (components a).
Qed.

(** Appending a component to a path is walking there. *)
Lemma resolve_append cwd root x : slash_free x -> resolve cwd (path_append root x) = walk (resolve cwd root) x.
Proof.
  intros Hx. unfold path_append.
  assert (is_absolute x = false) as ->.
  { unfold is_absolute. destruct Hx as [|c x Hc _]; [done|]. cbn.
    rewrite (proj2 (Z.eqb_neq _ _)) by done. done. }
  destruct (has_filename root) eqn:Hr.
  - unfold resolve. change (str "/" ++ x) with (chr "/" :: x). rewrite components_app, (components_slash_free x) by done.
    rewrite fold_left_app. destruct root as [|c root]; [done|]. reflexivity.
  - unfold has_filename in Hr. destruct (last root) as [c|] eqn:El.
    + b2p. apply last_Some in El as [l' ->]. subst c.
      unfold resolve. rewrite <- app_assoc. cbn [app].
      rewrite !components_app, (components_slash_free x) by done. rewrite !fold_left_app. cbn [components fold_left].
      destruct l' as [|d l']; reflexivity.
    + apply last_None in El as ->. cbn [app]. unfold resolve. rewrite (components_slash_free x) by done.
      destruct Hx as [|c x Hc _]; [done|]. cbn. rewrite (proj2 (Z.eqb_neq _ _)) by done. done.
Qed.

Lemma remove_all_lookup dir files p :
  remove_all dir files !! p = if decide (dir `prefix_of` p) then None else files !! p.
Proof.
  unfold remove_all. case_decide as Hp.
  - apply map_lookup_filter_None. right. intros x _ H. by apply H.
  - destruct (files !! p) as [x|] eqn:E.
    + by apply map_lookup_filter_Some.
    + apply map_lookup_filter_None. by left.
Qed.

(** *** Reading JSON back *)

(** The characters of a JSON string up to its closing quote, as RFC 8259 has it for the
    escapes the client writes: control characters must be escaped. *)
Fixpoint read_json_string (s : bytes) : option (bytes * bytes) :=
  match s with
  | [] => None
  | c :: s1 =>
      if c =? QUOTE then Some ([], s1)
      else if c <? 32 then None
      else if c =? BACKSLASH then
        match s1 with
        | e :: s2 =>
            '(r, rest) ← read_json_string s2;
            if e =? BACKSLASH then Some (BACKSLASH :: r, rest)
            else if e =? QUOTE then Some (QUOTE :: r, rest)
            else if e =? chr "n" then Some (10 :: r, rest)
            else if e =? chr "r" then Some (13 :: r, rest)
            else if e =? chr "t" then Some (9 :: r, rest)
            else None
        | [] => None
        end
      else '(r, rest) ← read_json_string s1; Some (c :: r, rest)
  end.

Definition json_safe (c : Z) : Prop := 32 <= c \/ c = 10 \/ c = 13 \/ c = 9.

#[global] Instance json_safe_dec c : Decision (json_safe c).
Proof. unfold json_safe. apply _. Defined.

Lemma read_escaped_char c s r rest :
  json_safe c -> read_json_string s = Some (r, rest) ->
  read_json_string (escape_char c ++ s) = Some (c :: r, rest).
Proof.
  intros Hc Hs. unfold escape_char.
  repeat case_if; b2p; subst; try (cbn; rewrite Hs; reflexivity).
  cbn [app read_json_string]. destruct (c =? QUOTE) eqn:E1; [b2p; lia|].
  destruct (c <? 32) eqn:E2; [b2p; unfold json_safe in *; lia|].
  destruct (c =? BACKSLASH) eqn:E3; [b2p; lia|]. by rewrite Hs.
Qed.

(** What [json_escape] writes between quotes reads back as the string, when its control
    characters are line feeds, carriage returns and tabs. *)
Lemma json_escape_roundtrip s rest :
  Forall json_safe s -> read_json_string (json_escape s ++ QUOTE :: rest) = Some (s, rest).
Proof.
  induction 1 as [|c s Hc _ IH]; [done|].
  change (json_escape (c :: s)) with (escape_char c ++ json_escape s). rewrite <- app_assoc.
  by apply read_escaped_char.
Qed.

(** Any other control character is written as it is, and what is written is not JSON. *)
Lemma json_escape_control s t c rest :
  Forall json_safe s -> 0 <= c < 32 -> ~ json_safe c ->
  read_json_string (json_escape (s ++ c :: t) ++ QUOTE :: rest) = None.
Proof.
  intros Hs Hc Hn. assert (escape_char c = [c]) as Ec.
  { unfold escape_char, json_safe, BACKSLASH, QUOTE in *. rewrite !(proj2 (Z.eqb_neq _ _)) by lia. done. }
  assert (forall u, read_json_string (c :: u) = None) as Hend.
  { intros u. cbn [read_json_string]. unfold QUOTE.
    rewrite (proj2 (Z.eqb_neq _ _)) by lia. by rewrite (proj2 (Z.ltb_lt _ _)) by lia. }
  unfold json_escape. rewrite map_app, concat_app. cbn [map concat]. rewrite Ec, <- !app_assoc. cbn [app].
  generalize (concat (map escape_char t) ++ QUOTE :: rest) as u. intros u.
  induction Hs as [|x s Hx _ IH]; [apply Hend|]. cbn [map concat]. rewrite <- app_assoc.
  revert IH. generalize (concat (map escape_char s) ++ c :: u) as v. intros v IH.
  unfold escape_char. repeat case_if; b2p; subst; try (cbn; rewrite IH; reflexivity).
  cbn [app read_json_string]. destruct (x =? QUOTE) eqn:E1; [b2p; lia|].
  destruct (x <? 32) eqn:E2; [done|]. destruct (x =? BACKSLASH) eqn:E3; [b2p; lia|]. by rewrite IH.
Qed.

(** *** Numbers *)

Lemma round_even_close a b : 0 < b -> 2 * Z.abs (round_even a b * b - a) <= b.
Proof.
  intros Hb. unfold round_even. pose proof (Z.div_mod a b ltac:(lia)) as E.
  pose proof (Z.mod_pos_bound a b Hb). set (q := a / b) in *. set (r := a mod b) in *.
  repeat case_if; b2p; nia.
Qed.

(** The size that is displayed is off by at most half of the last digit. *)
Lemma hundredths_close n unit :
  0 < unit -> 0 <= n < 2 ^ 53 -> 2 * Z.abs (hundredths (to_double n) unit * unit - 100 * n) <= unit.
Proof.
  intros Hu Hn. unfold hundredths, to_double. rewrite (proj2 (Z.ltb_lt _ _)) by lia. by apply round_even_close.
Qed.

Example sizes :
  format_byte_size 1023 = str "1023 B" /\ format_byte_size 16384 = str "16.00 KiB"
  /\ format_byte_size 1500000 = str "1.43 MiB" /\ format_byte_size 1048575 = str "1024.00 KiB"
  /\ format_byte_size (2 ^ 64 - 1) = str "16777216.00 TiB".
Proof. vm_compute. repeat split; reflexivity. Qed.

Example durations :
  format_duration 135 = str "2m 15s" /\ format_duration 3822 = str "1h 3m 42s"
  /\ format_duration_hours_minutes 8100 = str "2h 15m" /\ format_duration_hours_minutes (-5) = str "0s".
Proof. vm_compute. repeat split; reflexivity. Qed.

(** The three numbers add up to the seconds, and the last two stay below sixty. *)
Lemma duration_parts total :
  0 <= total -> total / 3600 * 3600 + total mod 3600 / 60 * 60 + total mod 60 = total
  /\ 0 <= total mod 3600 / 60 < 60 /\ 0 <= total mod 60 < 60.
Proof.
  intros H. pose proof (Z.div_mod total 3600 ltac:(lia)). pose proof (Z.mod_pos_bound total 3600 ltac:(lia)).
  set (m := total mod 3600) in *. pose proof (Z.div_mod m 60 ltac:(lia)). pose proof (Z.mod_pos_bound m 60 ltac:(lia)).
  assert (total mod 60 = m mod 60) as ->.
  { replace total with (m + total / 3600 * 60 * 60) by lia. apply Z.mod_add. lia. }
  lia.
Qed.

(** ** Property *)

(** C32: what is deleted when a torrent is added.  The constructor of [TorrentManager]
    removes everything below its log directory, which is named by the torrent's sanitized
    name.  Whatever the name, if it does not sanitize to the empty name, "." or "..", only
    files in a directory of that name inside the log directory are removed; but these three
    names pass, they come from the torrent file, and with them the constructor removes the
    logs of every other torrent - or, with "..", every file below the directory that holds
    the log directory. *)
Theorem log_directory_scope (cwd : list bytes) (log_output_dir name : bytes) (files : Files) (p : list bytes) :
  let kept := clear_logs cwd log_output_dir name files !! p in
  let logs := resolve cwd log_output_dir in
  (sanitize_filename name ∉ [[]; str "."; str ".."] ->
     kept = if decide (logs ++ [sanitize_filename name] `prefix_of` p) then None else files !! p)
  /\ (name = [] \/ name = str "." -> kept = if decide (logs `prefix_of` p) then None else files !! p)
  /\ (name = str ".." -> kept = if decide (removelast logs `prefix_of` p) then None else files !! p).
Proof.
  intros kept logs. unfold kept, clear_logs, log_dir. rewrite remove_all_lookup.
  rewrite resolve_append by apply sanitized_slash_free. fold logs.
  split; [|split].
  - intros Hn. rewrite !not_elem_of_cons in Hn. unfold walk.
    rewrite !bool_decide_false; [done|tauto|]. intros [?|?]; tauto.
  - by intros [-> | ->].
  - by intros ->.
Qed.

(** A file outside the log directory, before and after a torrent named ".." is added. *)
Lemma log_directory_scope_witness :
  let home := [str "home"; str "user"] in
  let thesis := home ++ [str "thesis.tex"] in
  clear_logs home (str "logs") (str "Ubuntu 24.04") {[thesis := [1; 2; 3]]} !! thesis = Some [1; 2; 3]
  /\ clear_logs home (str "logs") (str "..") {[thesis := [1; 2; 3]]} !! thesis = None.
Proof.
  intros home thesis. split.
  - rewrite (proj1 (log_directory_scope home (str "logs") (str "Ubuntu 24.04") {[thesis := [1; 2; 3]]} thesis)).
    + vm_compute. reflexivity.
    + apply (bool_decide_unpack _). vm_compute. exact I.
  - rewrite (proj2 (proj2 (log_directory_scope home (str "logs") (str "..") {[thesis := [1; 2; 3]]} thesis)) eq_refl).
    vm_compute. reflexivity.
Defined.

(** Sanitizing is not injective: two torrents can share a directory, and adding the second
    removes the logs of the first. *)
Lemma names_collide : sanitize_filename (str "a b") = sanitize_filename (str "a:b").
Proof. reflexivity. Qed.
