(* ===== verification/Logger.v ===== *)
(** * Loggers (inc/logger.h)

    A logger filters by level and writes lines to the console and to a file.  [Disk] is what
    the file system holds, files by the components of their absolute paths as in [Utils];
    [Sinks] adds the two streams of the console.  [m_log_mutex] makes a call one step.  A
    file that is open takes what is written to it (a full disk is not modelled). *)

From S2P Require Import Prelude CxxLib TorrentFile Utils.

(** [logger::Level]; the order is that of the enumerators. *)
Inductive Level := DEBUG | INFO | WARNING | ERROR | NONE.

#[global] Instance Level_eq_dec : EqDecision Level.
Proof. solve_decision. Defined.

Definition level_value (l : Level) : Z :=
  match l with DEBUG => 0 | INFO => 1 | WARNING => 2 | ERROR => 3 | NONE => 4 end.

Definition level_ltb (a b : Level) : bool := level_value a <? level_value b.

Definition level_string (level : Level) : bytes :=
  str match level with
      | DEBUG => "DEBUG" | INFO => "INFO " | WARNING => "WARN " | ERROR => "ERROR" | NONE => "?????"
      end.

(** The escape sequences of the console. *)
Definition ansi (code : string) : bytes := 27 :: str "[" ++ str code ++ str "m".

Definition color_code (level : Level) : bytes :=
  ansi match level with DEBUG => "36" | INFO => "32" | WARNING => "33" | ERROR => "31" | NONE => "0" end.

(** ** The time *)

(** [std::tm]; the month from 0, the year from 1900. *)
Record Tm := mkTm { tm_year : Z; tm_mon : Z; tm_mday : Z; tm_hour : Z; tm_min : Z; tm_sec : Z }.

(** A number below one hundred with two digits. *)
Definition two_digits (n : Z) : bytes := [48 + n / 10; 48 + n mod 10].

(** [std::put_time(&tm, "%Y-%m-%d %H:%M:%S")] *)
Definition put_time (t : Tm) : bytes :=
  to_string (1900 + tm_year t) ++ str "-" ++ two_digits (1 + tm_mon t) ++ str "-" ++ two_digits (tm_mday t)
  ++ str " " ++ two_digits (tm_hour t) ++ str ":" ++ two_digits (tm_min t) ++ str ":" ++ two_digits (tm_sec t).

(** What a logger asks of the system: [std::localtime], the working directory, whether
    [fs::create_directories] and opening a file succeed. *)
Class LogEnv := mkLogEnv {
  localtime : Z -> Tm;
  log_cwd : list bytes;
  can_make_dirs : bytes -> bool;
  can_append : bytes -> bool;
}.

(** ** The state *)

Record Logger := mkLogger {
  min_level : Level;
  log_to_file : bool;
  m_console_enabled : bool;
  m_prefix : bytes;
  file_stream : option (list bytes);   (* the file that is open *)
}.

Record Sinks := mkSinks { disk : Files; std_out : bytes; std_err : bytes }.

Definition logger_new : Logger := mkLogger INFO false true [] None.

Definition set_level (level : Level) (g : Logger) : Logger :=
  mkLogger level (log_to_file g) (m_console_enabled g) (m_prefix g) (file_stream g).
Definition get_level (g : Logger) : Level := min_level g.
Definition set_prefix (prefix : bytes) (g : Logger) : Logger :=
  mkLogger (min_level g) (log_to_file g) (m_console_enabled g) prefix (file_stream g).
Definition set_console_enabled (enabled : bool) (g : Logger) : Logger :=
  mkLogger (min_level g) (log_to_file g) enabled (m_prefix g) (file_stream g).
Definition console_enabled (g : Logger) : bool := m_console_enabled g.

(** [fs::path(p).parent_path()], from the end: without the file name and the slashes
    before it, unless these are the root. *)
Definition parent_path (p : bytes) : bytes :=
  match skip (fun c => negb (c =? chr "/")) (rev p) with
  | [] => []
  | r => match skip (fun c => c =? chr "/") r with
         | [] => [chr "/"]
         | d => rev d
         end
  end.

(** Opening with [std::ios::app] makes the file if there is none. *)
Definition touch (p : list bytes) (d : Files) : Files :=
  match d !! p with Some _ => d | None => <[p := []]> d end.

Definition append_to (p : list bytes) (text : bytes) (d : Files) : Files :=
  <[p := default [] (d !! p) ++ text]> d.

Section logger.
Context `{LogEnv}.

Definition set_file (path : bytes) (g : Logger) (d : Files) : Logger * Files * result unit :=
  let parent := parent_path path in
  if negb (bool_decide (parent = [])) && negb (can_make_dirs parent)
  then (mkLogger (min_level g) (log_to_file g) (m_console_enabled g) (m_prefix g) None, d,
        Throw (RuntimeError "filesystem_error"))
  else if can_append path
  then (mkLogger (min_level g) true false (m_prefix g) (Some (resolve log_cwd path)),
        touch (resolve log_cwd path) d, Ok ())
  else (mkLogger (min_level g) false (m_console_enabled g) (m_prefix g) None, d, Ok ()).

Definition timestamp (now : Z) : bytes := put_time (localtime now).

(** The place in the source that a macro passes. *)
Definition site_text (site : option (bytes * Z)) : bytes :=
  match site with
  | Some (file, line) => str "[" ++ file ++ str ":" ++ to_string line ++ str "] "
  | None => []
  end.

Definition log_line (now : Z) (level : Level) (prefix message : bytes) (site : option (bytes * Z)) : bytes :=
  str "[" ++ timestamp now ++ str "] " ++ str "[" ++ level_string level ++ str "] "
  ++ prefix ++ site_text site ++ message.

Definition log (now : Z) (level : Level) (message : bytes) (site : option (bytes * Z)) (g : Logger) (s : Sinks)
  : Sinks :=
  if level_ltb level (min_level g) then s
  else
    let output := log_line now level (m_prefix g) message site in
    let shown := color_code level ++ output ++ ansi "0" ++ [10] in
    let s := if m_console_enabled g
             then if negb (level_ltb level WARNING)
                  then mkSinks (disk s) (std_out s) (std_err s ++ shown)
                  else mkSinks (disk s) (std_out s ++ shown) (std_err s)
             else s in
    match file_stream g with
    | Some p => if log_to_file g then mkSinks (append_to p (output ++ [10]) (disk s)) (std_out s) (std_err s) else s
    | None => s
    end.

Definition debug now msg site := log now DEBUG msg site.
Definition info now msg site := log now INFO msg site.
Definition warning now msg site := log now WARNING msg site.
Definition error now msg site := log now ERROR msg site.

Definition throw_error {A} (now : Z) (msg : string) (site : option (bytes * Z)) (g : Logger) (s : Sinks)
  : Sinks * result A := (log now ERROR (str msg) site g s, Throw (RuntimeError msg)).

(** ** What a log file holds *)

(** Calls on a logger, from any threads, in the order of its mutex. *)
Inductive log_op :=
  | SetLevel (level : Level)
  | SetPrefix (prefix : bytes)
  | Log (level : Level) (message : bytes) (site : option (bytes * Z))
  | LogThrow (message : string) (site : option (bytes * Z)).

Definition log_step (st : Logger * Sinks) (c : Z * log_op) : Logger * Sinks :=
  let '(g, s) := st in
  match snd c with
  | SetLevel l => (set_level l g, s)
  | SetPrefix p => (set_prefix p g, s)
  | Log l m site => (g, log (fst c) l m site g s)
  | LogThrow m site => (g, fst (throw_error (A := unit) (fst c) m site g s))
  end.

Definition log_run (st : Logger * Sinks) (cs : list (Z * log_op)) : Logger * Sinks := fold_left log_step cs st.

(** The lines of the calls, with the level and the prefix in force at each. *)
Fixpoint admitted (level : Level) (prefix : bytes) (cs : list (Z * log_op)) : list bytes :=
  match cs with
  | [] => []
  | (now, o) :: cs' =>
      match o with
      | SetLevel l => admitted l prefix cs'
      | SetPrefix p => admitted level p cs'
      | Log l m site =>
          (if level_ltb l level then [] else [log_line now l prefix m site]) ++ admitted level prefix cs'
      | LogThrow m site =>
          (if level_ltb ERROR level then [] else [log_line now ERROR prefix (str m) site]) ++ admitted level prefix cs'
      end
  end.

Definition as_lines (l : list bytes) : bytes := concat (map (fun x => x ++ [10]) l).

Definition appended (p : list bytes) (l : list bytes) (d : Files) : Files :=
  match l with [] => d | _ => append_to p (as_lines l) d end.

Lemma appended_app p l k d : appended p (l ++ k) d = appended p k (appended p l d).
Proof.
  destruct l as [|x l]; [done|]. destruct k as [|y k]; [by rewrite app_nil_r|].
  unfold appended, append_to, as_lines. cbn [app]. rewrite lookup_insert_eq, insert_insert_eq. cbn [default from_option].
  change (x :: l ++ y :: k) with ((x :: l) ++ y :: k). unfold id. by rewrite map_app, concat_app, app_assoc.
Qed.

(** A logger that writes to the file [p] only. *)
Definition writes_to (p : list bytes) (g : Logger) : Prop :=
  log_to_file g = true /\ m_console_enabled g = false /\ file_stream g = Some p.

Lemma log_writes p g s now l m site :
  writes_to p g ->
  log now l m site g s
  = mkSinks (appended p (if level_ltb l (min_level g) then [] else [log_line now l (m_prefix g) m site]) (disk s))
      (std_out s) (std_err s).
Proof.
  intros (Hf & Hc & Hp). unfold log. destruct (level_ltb l (min_level g)); [by destruct s|].
  rewrite Hc, Hp, Hf. cbn [disk std_out std_err appended as_lines map concat]. by rewrite app_nil_r.
Qed.

(** The file of a logger is what it was, followed by the lines of the calls whose level is
    not below the one in force, in their order; nothing else is written. *)
Lemma log_file_complete p cs : forall g s,
  writes_to p g ->
  let '(g', s') := log_run (g, s) cs in
  writes_to p g'
  /\ s' = mkSinks (appended p (admitted (min_level g) (m_prefix g) cs) (disk s)) (std_out s) (std_err s).
Proof.
  induction cs as [|[now o] cs IH]; intros g s Hw; [split; [done|]; by destruct s|].
  cbn [log_run fold_left log_step fst snd]. fold (log_run (log_step (g, s) (now, o)) cs).
  destruct o as [l|x|l m site|m site]; cbn [log_step fst snd admitted throw_error].
  - exact (IH (set_level l g) s Hw).
  - exact (IH (set_prefix x g) s Hw).
  - rewrite (log_writes p) by done. rewrite appended_app. exact (IH g _ Hw).
  - rewrite (log_writes p) by done. rewrite appended_app. exact (IH g _ Hw).
Qed.

(** A file that was just opened is written to, and what it held is kept. *)
Lemma set_file_opens path g d :
  can_append path = true -> (parent_path path <> [] -> can_make_dirs (parent_path path) = true) ->
  exists g' d', set_file path g d = (g', d', Ok ())
    /\ writes_to (resolve log_cwd path) g' /\ min_level g' = min_level g /\ m_prefix g' = m_prefix g
    /\ d' !! resolve log_cwd path = Some (default [] (d !! resolve log_cwd path))
    /\ forall q, q <> resolve log_cwd path -> d' !! q = d !! q.
Proof.
  intros Ho Hm. unfold set_file. rewrite Ho.
  assert (negb (bool_decide (parent_path path = [])) && negb (can_make_dirs (parent_path path)) = false) as ->.
  { case_bool_decide as E; [done|]. by rewrite Hm. }
  eexists _, _. split; [reflexivity|]. split; [done|]. split; [done|]. split; [done|]. unfold touch.
  destruct (d !! resolve log_cwd path) as [t|] eqn:E; [by rewrite E|].
  rewrite lookup_insert_eq. split; [done|]. intros q Hq. by rewrite lookup_insert_ne.
Qed.

(** At level [NONE] nothing is logged, exceptions included. *)
Lemma log_silent now l m site g s : min_level g = NONE -> l <> NONE -> log now l m site g s = s.
Proof. intros Hg Hl. unfold log. rewrite Hg. by destruct l. Qed.

(** A second [set_file] that fails leaves a logger that writes nowhere: the first has
    switched the console off. *)
Lemma set_file_failed_silent path g d now l m site s :
  m_console_enabled g = false -> can_append path = false ->
  (parent_path path <> [] -> can_make_dirs (parent_path path) = true) ->
  log now l m site (fst (fst (set_file path g d))) s = s.
Proof.
  intros Hc Ho Hm. unfold set_file. rewrite Ho.
  assert (negb (bool_decide (parent_path path = [])) && negb (can_make_dirs (parent_path path)) = false) as ->.
  { case_bool_decide as E; [done|]. by rewrite Hm. }
  unfold log. cbn. rewrite Hc. by destruct (level_ltb l (min_level g)).
Qed.
End logger.

(** ** Examples *)

Example parents :
  parent_path (str "logs/dht.log") = str "logs" /\ parent_path (str "dht.log") = []
  /\ parent_path (str "/dht.log") = str "/" /\ parent_path (str "a//b/") = str "a//b"
  /\ parent_path (str "a//b") = str "a".
Proof. vm_compute. repeat split; reflexivity. Qed.

#[local] Instance sample_log_env : LogEnv :=
  mkLogEnv (fun n => mkTm 125 0 (1 + n / 86400) (n / 3600 mod 24) (n / 60 mod 60) (n mod 60)) [str "home"]
    (fun _ => true) (fun _ => true).

Example a_log_file :
  let '(g, d, _) := set_file (str "logs/t.log") (set_level INFO logger_new) ∅ in
  disk (snd (log_run (g, mkSinks d [] [])
    [(3661, Log INFO (str "started") None); (3662, Log DEBUG (str "hidden") None);
     (3663, SetPrefix (str "[x] ")); (3664, LogThrow "failed" (Some (str "a.cpp", 7)))]))
  = {[ [str "home"; str "logs"; str "t.log"] :=
       str "[2025-01-01 01:01:01] [INFO ] started" ++ [10]
       ++ str "[2025-01-01 01:01:04] [ERROR] [x] [a.cpp:7] failed" ++ [10] ]}.
Proof. vm_compute. reflexivity. Qed.
