(* ===== verification/LogFiles.v ===== *)
(** * Who logs where
    (src/peer_wire/torrent_manager.cpp, src/peer_wire/session_manager.cpp)

    The loggers the client makes: one for the session, one for the DHT node, one for each
    torrent, which its threads share, and one for each connection to a peer.  "Each
    PeerConnection gets its own Logger with its own mutex and its own log file": that their
    files differ, and what follows for their contents when all of them log at once. *)

From S2P Require Import Prelude CxxLib Addr TorrentFile Utils Logger.

(** ** Their files *)

Definition torrent_log_path (log_output_dir name : bytes) : bytes :=
  path_append (log_dir log_output_dir name) (sanitize_filename name ++ str ".log").

Definition peer_log_name (peer : PeerAddress) : bytes :=
  str "peer_" ++ ip peer ++ str "_" ++ to_string (port peer) ++ str ".log".

Definition peer_log_path (log_output_dir name : bytes) (peer : PeerAddress) : bytes :=
  path_append (log_dir log_output_dir name) (peer_log_name peer).

Definition session_log_path : bytes := path_append (str "logs") (str "session_manager.log").
Definition dht_log_path : bytes := path_append (str "logs") (str "dht.log").

(** ** Making them *)

Section loggers.
Context `{LogEnv}.

(** [if (fs::exists(p)) fs::remove(p);] of a file *)
Definition remove_file (p : list bytes) (d : Files) : Files := delete p d.

(** The part of the constructor of [TorrentManager] that makes the torrent's logger. *)
Definition torrent_logger (log_output_dir name : bytes) (level : Level) (d : Files) : Logger * Files * result unit :=
  let g := set_level level logger_new in
  let d := clear_logs log_cwd log_output_dir name d in
  if negb (can_make_dirs (log_dir log_output_dir name)) then (g, d, Throw (RuntimeError "filesystem_error"))
  else set_file (torrent_log_path log_output_dir name) g d.

(** The logger that [run_peer_worker] makes; [m_logger]: the torrent's. *)
Definition peer_logger (log_output_dir name : bytes) (peer : PeerAddress) (m_logger : Logger) (d : Files)
  : Logger * Files * result unit :=
  set_file (peer_log_path log_output_dir name peer)
    (set_prefix (str "[" ++ peer_to_string peer ++ str "] ") (set_level (get_level m_logger) logger_new)) d.

(** [init_session_logger]; [m_session_logger] is set at once by the constructor. *)
Definition init_session_logger (m_session_logger : option Logger) (d : Files) : option Logger * Files * result unit :=
  match m_session_logger with
  | Some g => (Some g, d, Ok ())
  | None =>
      if negb (can_make_dirs (str "logs")) then (None, d, Throw (RuntimeError "filesystem_error"))
      else
        let d := remove_file (resolve log_cwd session_log_path) d in
        let '(g, d, r) := set_file session_log_path (set_level INFO logger_new) d in (Some g, d, r)
  end.

(** The DHT node's logger in [start_all]; [keep]: the variable DHT_KEEP_LOG. *)
Definition dht_logger (keep : option bytes) (d : Files) : Logger * Files * result unit :=
  let clear_dht_log := match keep with Some (c :: _) => c =? chr "0" | _ => true end in
  let d := if clear_dht_log then remove_file (resolve log_cwd dht_log_path) d else d in
  set_file dht_log_path (set_level INFO logger_new) d.
End loggers.

(** ** The files differ *)

Lemma to_string_no_underscore n : 0 <= n -> Forall (fun c => c <> chr "_") (to_string n).
Proof.
  intros Hn. destruct (to_string_digits n Hn) as (_ & Hd & _). eapply Forall_impl; [exact Hd|].
  intros c Hc ->. vm_compute in Hc. discriminate.
Qed.

(** A text is cut at its last underscore in one way. *)
Lemma last_underscore_inj a a' b b' :
  Forall (fun c => c <> chr "_") b -> Forall (fun c => c <> chr "_") b' ->
  a ++ chr "_" :: b = a' ++ chr "_" :: b' -> a = a' /\ b = b'.
Proof.
  intros Hb Hb' E. destruct (decide (length b = length b')) as [El|Hne].
  - destruct (app_inj_2 a a' (chr "_" :: b) (chr "_" :: b')) as [E1 E2]; [cbn; by rewrite El|exact E|].
    split; [exact E1|]. by injection E2.
  - exfalso. assert (forall x x' y y', Forall (fun c => c <> chr "_") y' -> (length y < length y')%nat ->
      x ++ chr "_" :: y = x' ++ chr "_" :: y' -> False) as Hlt.
    { intros x x' y y' Hy Hl Exy.
      assert ((x ++ chr "_" :: y) !! length x = Some (chr "_")) as H1 by apply lookup_app_mid. rewrite Exy in H1.
      assert (length x' < length x)%nat as Hx.
      { apply (f_equal length) in Exy. rewrite !length_app in Exy. cbn in Exy. lia. }
      rewrite lookup_app_r in H1 by lia. destruct (length x - length x')%nat as [|k] eqn:Ek; [lia|].
      cbn in H1. rewrite Forall_forall in Hy. apply (Hy (chr "_")); [|done]. by eapply list_elem_of_lookup_2. }
    destruct (Nat.lt_trichotomy (length b) (length b')) as [Hl|[Hl|Hl]]; [by eapply Hlt|done|].
    by eapply (Hlt a' a b' b).
Qed.

Lemma peer_log_name_inj p q :
  0 <= port p -> 0 <= port q -> peer_log_name p = peer_log_name q -> p = q.
Proof.
  intros Hp Hq E. unfold peer_log_name in E. apply app_inv_head in E.
  change (str "_") with [chr "_"] in E. cbn [app] in E.
  assert (forall n, 0 <= n -> Forall (fun c => c <> chr "_") (to_string n ++ str ".log")) as Hu.
  { intros n Hn. apply Forall_app. split; [by apply to_string_no_underscore|].
    apply (bool_decide_unpack _). vm_compute. exact I. }
  apply last_underscore_inj in E as [E1 E2]; [|by apply Hu..]. apply app_inv_tail in E2.
  destruct p as [i n], q as [j m]. cbn in *. rewrite E1. f_equal.
  rewrite <- (proj1 (to_string_digits n Hp)), E2. apply to_string_digits, Hq.
Qed.

(** The name is a file name of its own: no slash when the address has none. *)
Lemma peer_log_slash_free p : 0 <= port p -> slash_free (ip p) -> slash_free (peer_log_name p).
Proof.
  intros Hp Hi. unfold peer_log_name, slash_free in *. rewrite !Forall_app. split_and!; try exact Hi.
  all: try (apply (bool_decide_unpack _); vm_compute; exact I).
  destruct (to_string_digits _ Hp) as (_ & Hd & _). eapply Forall_impl; [exact Hd|].
  intros c Hc ->. vm_compute in Hc. discriminate.
Qed.

(** A name that starts with a letter leads below the directory. *)
Lemma walk_name dir x : hd_error x = Some (chr "p") -> walk dir x = dir ++ [x].
Proof.
  intros Hx. unfold walk. rewrite !bool_decide_false; [done| |].
  - intros ->. vm_compute in Hx. discriminate.
  - intros [-> | ->]; vm_compute in Hx; discriminate.
Qed.

Section paths.
Context `{LogEnv}.

(** The connections of a torrent log to different files, each in the torrent's directory. *)
Lemma peer_logs_differ log_output_dir name p q :
  0 <= port p -> 0 <= port q -> slash_free (ip p) -> slash_free (ip q) ->
  resolve log_cwd (peer_log_path log_output_dir name p) = resolve log_cwd (peer_log_path log_output_dir name q) -> p = q.
Proof.
  intros Hp Hq Hi Hj E. apply peer_log_name_inj; [done|done|].
  unfold peer_log_path in E. rewrite !resolve_append in E by (by apply peer_log_slash_free).
  assert (forall x dir, walk dir (peer_log_name x) = dir ++ [peer_log_name x]) as Hw
    by (intros x dir; apply walk_name; reflexivity).
  rewrite !Hw in E. apply app_inj_tail_iff in E as [_ E]. exact E.
Qed.
End paths.

(** ** Logging at once *)

Section pool.
Context `{LogEnv} (path : nat -> list bytes).

(** Loggers with the sinks they share; a call on one of them. *)
Definition pool_step (st : list Logger * Sinks) (c : nat * (Z * log_op)) : list Logger * Sinks :=
  let '(gs, s) := st in
  match gs !! fst c with
  | Some g => let '(g', s') := log_step (g, s) (snd c) in (<[fst c := g']> gs, s')
  | None => (gs, s)
  end.

Definition pool_run (st : list Logger * Sinks) (cs : list (nat * (Z * log_op))) : list Logger * Sinks :=
  fold_left pool_step cs st.

(** The calls on logger [i]. *)
Definition calls_of (i : nat) (cs : list (nat * (Z * log_op))) : list (Z * log_op) :=
  omap (fun c => if decide (fst c = i) then Some (snd c) else None) cs.

Lemma calls_of_cons i k c cs :
  calls_of i ((k, c) :: cs) = if decide (k = i) then c :: calls_of i cs else calls_of i cs.
Proof. unfold calls_of. cbn [omap list_omap fst snd]. by case_decide. Qed.

Lemma appended_lookup p l d q : appended p l d !! q = if decide (q = p) then appended p l d !! p else d !! q.
Proof.
  case_decide as E; [by rewrite E|]. destruct l; [done|]. unfold appended, append_to. by rewrite lookup_insert_ne.
Qed.

Lemma appended_local p l d d' : d !! p = d' !! p -> appended p l d !! p = appended p l d' !! p.
Proof. intros E. destruct l; [done|]. unfold appended, append_to. by rewrite !lookup_insert_eq, E. Qed.

(** However the calls on several loggers interleave, the file of each is what it was and
    the lines of its own calls, when their files differ. *)
Lemma logs_independent cs : forall gs s,
  (forall i j, i <> j -> path i <> path j) -> (forall i g, gs !! i = Some g -> writes_to (path i) g) ->
  forall i g, gs !! i = Some g ->
    disk (snd (pool_run (gs, s) cs)) !! path i
    = appended (path i) (admitted (min_level g) (m_prefix g) (calls_of i cs)) (disk s) !! path i.
Proof.
  induction cs as [|[k c] cs IH]; intros gs s Hinj Hw i g Hi; [done|].
  change (pool_run (gs, s) ((k, c) :: cs)) with (pool_run (pool_step (gs, s) (k, c)) cs). unfold pool_step. cbn [fst snd].
  destruct (gs !! k) as [gk|] eqn:Hk.
  - pose proof (log_file_complete (path k) [c] gk s (Hw k gk Hk)) as H1. cbn [log_run fold_left] in H1.
    destruct (log_step (gk, s) c) as [g' s'] eqn:Es. destruct H1 as [Hw' ->].
    assert (forall j x, <[k := g']> gs !! j = Some x -> writes_to (path j) x) as Hws.
    { intros j x Hj. destruct (decide (j = k)) as [->|Hne].
      - rewrite list_lookup_insert_eq in Hj by (by eapply lookup_lt_Some). by injection Hj as <-.
      - rewrite list_lookup_insert_ne in Hj by done. by apply Hw. }
    rewrite calls_of_cons. case_decide as E.
    + subst k. assert (gk = g) as -> by congruence.
      rewrite (IH _ _ Hinj Hws i g') by (by rewrite list_lookup_insert_eq by (by eapply lookup_lt_Some)). cbn [disk].
      assert (admitted (min_level g) (m_prefix g) (c :: calls_of i cs)
        = admitted (min_level g) (m_prefix g) [c] ++ admitted (min_level g') (m_prefix g') (calls_of i cs)) as ->.
      { destruct c as [t o]. destruct o; cbn [log_step fst snd] in Es; injection Es as <- _; cbn [admitted]; by rewrite ?app_nil_r. }
      by rewrite appended_app.
    + rewrite (IH _ _ Hinj Hws i g) by (by rewrite list_lookup_insert_ne). apply appended_local. cbn [disk].
      rewrite appended_lookup, decide_False; [done|]. apply Hinj. auto.
  - rewrite calls_of_cons. case_decide as E; [congruence|]. by apply IH.
Qed.
End pool.
