(* ===== verification/Double.v ===== *)
(** * Double precision numbers
    (the [double]s of inc/utils.h, src/peer_wire/torrent_manager.cpp and
    src/peer_wire/session_manager.cpp)

    IEEE 754 binary64 as the Standard Library specifies it ([SpecFloat]: 53 significant
    bits, round to nearest, ties to even), with the conversions and the output the client
    uses.  The lemmas give the exact value of a rounded result: [round_even] of the exact
    quotient, at the exponent the format has for it. *)

From Stdlib Require Import SpecFloat.
From S2P Require Import Prelude CxxLib Utils.

Abbreviation double := spec_float.

(** [static_cast<double>(n)] of an integer *)
Definition of_Z (n : Z) : double := binary_normalize 53 1024 n 0 false.

Definition dzero : double := S754_zero false.
Definition ddiv : double -> double -> double := SFdiv 53 1024.
Definition dmul : double -> double -> double := SFmul 53 1024.
Definition dlt (a b : double) : bool := SFltb a b.

(** The literals [1e9] and [0.05]: the nearest doubles. *)
Definition billion : double := of_Z 1000000000.
Definition lit_0_05 : double := ddiv (of_Z 5) (of_Z 100).

(** [std::chrono::duration<double>(d).count()] of [d] nanoseconds *)
Definition sec_of_ns (ns : Z) : double := ddiv (of_Z ns) billion.

(** A positive finite number is [num / den]. *)
Definition num (m : positive) (e : Z) : Z := Zpos m * 2 ^ Z.max e 0.
Definition den (e : Z) : Z := 2 ^ Z.max (- e) 0.

(** [static_cast<uint64_t>(d)]: towards zero; undefined when the result does not fit. *)
Definition to_u64 (d : double) : result Z :=
  match d with
  | S754_zero _ => Ok 0
  | S754_finite neg m e =>
      let t := num m e / den e in
      if (if neg then t =? 0 else t <? 2 ^ 64) then Ok t else Throw (Undefined "static_cast")
  | _ => Throw (Undefined "static_cast")
  end.

(** [if (d < 0.0) d = 0.0;] *)
Definition clamp0 (d : double) : double := if dlt d dzero then dzero else d.

Definition sign (neg : bool) : bytes := if neg then str "-" else [].

(** [oss << std::fixed << std::setprecision(2) << d] *)
Definition print_fixed2 (d : double) : bytes :=
  match d with
  | S754_zero neg => sign neg ++ str "0.00"
  | S754_infinity neg => sign neg ++ str "inf"
  | S754_nan => str "nan"
  | S754_finite neg m e => sign neg ++ fixed2 (num m e) (den e)
  end.

(** The same with [std::setprecision(3)]. *)
Definition fixed3 (v unit : Z) : bytes :=
  let h := round_even (1000 * v) unit in
  to_string (h / 1000) ++ str "." ++ [48 + h mod 1000 / 100; 48 + h mod 100 / 10; 48 + h mod 10].

Definition print_fixed3 (d : double) : bytes :=
  match d with
  | S754_zero neg => sign neg ++ str "0.000"
  | S754_infinity neg => sign neg ++ str "inf"
  | S754_nan => str "nan"
  | S754_finite neg m e => sign neg ++ fixed3 (num m e) (den e)
  end.

(** *** The texts of inc/utils.h *)

Definition rate_unit (d : double) (unit : string) : bytes := print_fixed2 d ++ str " " ++ str unit.

Definition format_byte_rate (bytes_per_sec : double) : bytes :=
  let d := clamp0 bytes_per_sec in
  if dlt d (of_Z kib) then rate_unit d "B/s"
  else if dlt d (of_Z mib) then rate_unit (ddiv d (of_Z kib)) "KiB/s"
  else if dlt d (of_Z gib) then rate_unit (ddiv d (of_Z mib)) "MiB/s"
  else rate_unit (ddiv d (of_Z gib)) "GiB/s".

(** [format_duration] of a [double]; [Utils.format_duration] is what follows the cast. *)
Definition format_seconds (s : double) : result bytes :=
  total ← to_u64 (clamp0 s); Ok (format_duration total).

Definition format_hours_minutes (s : double) : result bytes :=
  total ← to_u64 (clamp0 s); Ok (format_duration_hours_minutes total).

(** [static_cast<double>(n) / static_cast<double>(total) * 100.0] *)
Definition percentage (n total : Z) : double := dmul (ddiv (of_Z n) (of_Z total)) (of_Z 100).

Example rates :
  format_byte_rate (ddiv (of_Z 5452595) (sec_of_ns 1000000000)) = str "5.20 MiB/s"
  /\ format_byte_rate (of_Z 512) = str "512.00 B/s" /\ format_byte_rate (of_Z (-3)) = str "0.00 B/s"
  /\ format_byte_rate (of_Z (2 ^ 50)) = str "1048576.00 GiB/s"
  /\ print_fixed2 (percentage 1 3) = str "33.33" /\ print_fixed2 (percentage 7 7) = str "100.00"
  /\ print_fixed2 (percentage 0 0) = str "nan".
Proof. vm_compute. repeat split; reflexivity. Qed.

Example duration_texts :
  format_seconds (sec_of_ns 135999999999) = Ok (str "2m 15s")
  /\ format_seconds (sec_of_ns (-1)) = Ok (str "0s") /\ format_seconds S754_nan = Throw (Undefined "static_cast").
Proof. vm_compute. repeat split; reflexivity. Qed.

(** ** Rounding *)

(** The shift record [mrs] stands for a number between its mantissa and the next one, here
    the fraction [N / D]. *)
Definition rep (N D : Z) (mrs : shr_record) : Prop :=
  let m := shr_m mrs in
  0 <= m /\
  match shr_r mrs, shr_s mrs with
  | false, false => N = m * D
  | false, true => m * D < N /\ 2 * N < (2 * m + 1) * D
  | true, false => 2 * N = (2 * m + 1) * D
  | true, true => (2 * m + 1) * D < 2 * N /\ N < (m + 1) * D
  end.

Lemma rep_shr_1 N D mrs : 0 < D -> rep N D mrs -> rep N (2 * D) (shr_1 mrs).
Proof.
  intros HD [Hm H]. destruct mrs as [m r s]. cbn in Hm, H. unfold rep.
  destruct m as [|[p|p|]|p]; [| | | |lia]; destruct r, s; cbn -[Z.mul Z.add]; nia.
Qed.

Lemma rep_iter N p : forall D mrs, 0 < D -> rep N D mrs -> rep N (D * 2 ^ Zpos p) (SpecFloat.iter_pos shr_1 p mrs).
Proof.
  induction p as [p IH|p IH|]; intros D mrs HD H; cbn [SpecFloat.iter_pos].
  - replace (Zpos p~1) with (Zpos p + Zpos p + 1) by lia. rewrite !Z.pow_add_r by lia.
    replace (D * (2 ^ Zpos p * 2 ^ Zpos p * 2 ^ 1)) with (2 * D * 2 ^ Zpos p * 2 ^ Zpos p) by lia.
    apply IH; [nia|]. apply IH; [lia|]. by apply rep_shr_1.
  - replace (Zpos p~0) with (Zpos p + Zpos p) by lia. rewrite Z.pow_add_r, Z.mul_assoc by lia.
    apply IH; [nia|]. by apply IH.
  - change (2 ^ 1) with 2. rewrite Z.mul_comm. by apply rep_shr_1.
Qed.

(** [shr] by [n], or not at all. *)
Lemma rep_shr N D mrs e n mrs' e' :
  0 < D -> rep N D mrs -> shr mrs e n = (mrs', e') ->
  rep N (D * 2 ^ Z.max 0 n) mrs' /\ e' = e + Z.max 0 n.
Proof.
  intros HD H. unfold shr. destruct n as [|p|p]; intros [= <- <-].
  - rewrite Z.mul_1_r. split; [done|lia].
  - rewrite Z.max_r by lia. split; [by apply rep_iter|done].
  - rewrite Z.mul_1_r. split; [done|lia].
Qed.

Lemma rep_round N D mrs :
  0 < D -> rep N D mrs -> round_nearest_even (shr_m mrs) (loc_of_shr_record mrs) = round_even N D.
Proof.
  intros HD [Hm H]. destruct mrs as [m r s]. cbn in *. unfold round_even.
  assert (m = N / D) as Hq by (apply Z.div_unique_pos with (N - m * D); destruct r, s; nia).
  rewrite <- Hq. assert (N mod D = N - m * D) as -> by (rewrite Z.mod_eq by lia; subst m; lia).
  destruct r, s; cbn; repeat case_if; b2p; try nia; try done.
Qed.

Lemma digits2_spec p : 2 ^ (Zpos (digits2_pos p) - 1) <= Zpos p < 2 ^ Zpos (digits2_pos p).
Proof.
  induction p as [p IH|p IH|]; cbn [digits2_pos]; [| |change (1 <= 1 < 2); lia];
    rewrite Pos2Z.inj_succ; set (d := Zpos (digits2_pos p)) in *;
    (replace (Z.succ d - 1) with (Z.succ (d - 1)) by lia); rewrite !Z.pow_succ_r by lia; lia.
Qed.

Lemma digits2_unique p d : 2 ^ (d - 1) <= Zpos p < 2 ^ d -> Zpos (digits2_pos p) = d.
Proof.
  intros H. pose proof (digits2_spec p) as Hp. set (c := Zpos (digits2_pos p)) in *.
  assert (0 <= d) by (destruct (Z_lt_le_dec d 0); [rewrite (Z.pow_neg_r 2 d) in H by done; lia|done]).
  assert (c - 1 < d) by (apply (Z.pow_lt_mono_r_iff 2); lia).
  assert (d - 1 < c); [|lia].
  destruct (Z_lt_le_dec (d - 1) 0); [unfold c; lia|]. apply (Z.pow_lt_mono_r_iff 2); lia.
Qed.

Lemma round_even_exact a b : 0 < b -> round_even (a * b) b = a.
Proof. intros Hb. unfold round_even. rewrite Z.div_mul, Z.mod_mul by lia. by rewrite (proj2 (Z.ltb_lt _ _)) by lia. Qed.

Lemma round_even_bounds a b lo hi : 0 < b -> lo * b <= a <= hi * b -> lo <= round_even a b <= hi.
Proof.
  intros Hb H. unfold round_even. pose proof (Z.div_mod a b ltac:(lia)). pose proof (Z.mod_pos_bound a b Hb).
  set (q := a / b) in *. set (r := a mod b) in *. repeat case_if; b2p; nia.
Qed.

(** The result of an operation whose exact value is [N / D] in units of [2 ^ e]: the value
    rounded at the exponent [e + n] that leaves 53 bits. *)
Definition shift_of (m e : Z) : Z := Z.max 0 (fexp 53 1024 (Zdigits2 m + e) - e).

Lemma fexp_53 d : fexp 53 1024 d = Z.max (d - 53) (-1074).
Proof. reflexivity. Qed.

Lemma mantissa_bound N D p e mrs :
  0 < D -> rep N D mrs -> shr_m mrs = Zpos p ->
  0 <= N <= 2 ^ 53 * (D * 2 ^ shift_of (Zpos p) e).
Proof.
  intros HD [Hm H] E. rewrite E in *. pose proof (digits2_spec p) as Hp.
  unfold shift_of. cbn [Zdigits2]. rewrite fexp_53. set (d := Zpos (digits2_pos p)) in *.
  set (n := Z.max 0 _). assert (2 ^ d <= 2 ^ 53 * 2 ^ n).
  { rewrite <- Z.pow_add_r by lia. apply Z.pow_le_mono_r; lia. }
  assert (0 <= N <= (Zpos p + 1) * D) by (destruct (shr_r mrs), (shr_s mrs); nia).
  split; [lia|]. transitivity (2 ^ d * D); [nia|].
  replace (2 ^ 53 * (D * 2 ^ n)) with (2 ^ 53 * 2 ^ n * D) by lia. apply Z.mul_le_mono_nonneg_r; lia.
Qed.

Lemma loc_rep m l N D : rep N D (shr_record_of_loc m l) -> shr_m (shr_record_of_loc m l) = m.
Proof. by destruct l as [|[]]. Qed.

(** A mantissa of at most 53 bits is not shifted any more, except the carry [2 ^ 53]. *)
Definition carried (y e : Z) (m : positive) (e' : Z) : Prop :=
  y < 2 ^ 53 /\ e' = e /\ Zpos m = y \/ y = 2 ^ 53 /\ e' = e + 1 /\ Zpos m = 2 ^ 52.

Lemma carried_value y e m e' : carried y e m e' -> e <= e' <= e + 1 /\ Zpos m * 2 ^ (e' - e) = y.
Proof.
  intros [(_ & -> & ->)|(-> & -> & ->)]; split; try lia; [by rewrite Z.sub_diag, Z.mul_1_r|].
  by replace (e + 1 - e) with 1 by lia.
Qed.

Lemma second_shift y e :
  0 < y <= 2 ^ 53 -> -1074 <= e ->
  exists m e', shr_fexp 53 1024 y e loc_Exact = (Build_shr_record (Zpos m) false false, e')
    /\ carried y e m e'.
Proof.
  intros Hy He. destruct y as [|p|p]; try lia. pose proof (digits2_spec p) as Hp.
  unfold shr_fexp. cbn [shr_record_of_loc Zdigits2]. rewrite fexp_53.
  destruct (decide (Zpos p = 2 ^ 53)) as [E|NE].
  - assert (Zpos (digits2_pos p) = 54) as -> by (apply digits2_unique; rewrite E; split; [done|reflexivity]).
    replace (Z.max (54 + e - 53) (-1074) - e) with 1 by lia.
    exists (2 ^ 52)%positive, (e + 1). injection E as ->. split; [reflexivity|]. by right.
  - assert (Zpos (digits2_pos p) <= 53) as Hd.
    { apply Z.lt_pred_le. apply (Z.pow_lt_mono_r_iff 2); [lia|lia|]. rewrite <- Z.sub_1_r.
      eapply Z.le_lt_trans; [apply Hp|]. lia. }
    exists p, e. split; [|left; lia].
    destruct (Z.max _ _ - e) eqn:En; [reflexivity|lia|reflexivity].
Qed.

Lemma round_aux_correct m e l N D :
  0 < D -> 0 < m -> rep N D (shr_record_of_loc m l) ->
  let n := shift_of m e in
  let y := round_even N (D * 2 ^ n) in
  0 < y -> e + n <= 970 ->
  exists m' e', binary_round_aux 53 1024 false m e l = S754_finite false m' e'
    /\ carried y (e + n) m' e' /\ y <= 2 ^ 53.
Proof.
  intros HD Hm Hrep n y Hy He. destruct m as [|p|p]; [lia| |lia].
  unfold binary_round_aux. destruct (shr_fexp 53 1024 (Zpos p) e l) as [mrs e1] eqn:E1.
  unfold shr_fexp in E1. apply (rep_shr N D _ _ _ _ _ HD Hrep) in E1 as [H1 ->]. fold (shift_of (Zpos p) e) in *. fold n in H1 |- *.
  assert (0 < 2 ^ n) by (apply Z.pow_pos_nonneg; unfold n, shift_of; lia).
  rewrite (rep_round N (D * 2 ^ n)); [|nia|exact H1]. fold y.
  pose proof (mantissa_bound N D p e _ HD Hrep (loc_rep _ _ _ _ Hrep)) as HN.
  assert (y <= 2 ^ 53) by (apply (round_even_bounds N (D * 2 ^ n) 0); [nia|fold n in HN; lia]).
  destruct (second_shift y (e + n)) as (m' & e' & E2 & Hc); [lia| |].
  { unfold n, shift_of. rewrite fexp_53. lia. }
  pose proof (carried_value _ _ _ _ Hc). rewrite E2. cbn [shr_m]. exists m', e'. rewrite (proj2 (Z.leb_le _ _)) by lia. done.
Qed.

(** ** Integers *)

(** The form of a positive integer below [2 ^ 53]: its value is exact and its mantissa has
    53 bits. *)
Lemma of_Z_small n :
  0 < n < 2 ^ 53 ->
  exists m k, of_Z n = S754_finite false m (- k) /\ 0 <= k <= 52 /\ Zpos m = n * 2 ^ k
    /\ Zpos (digits2_pos m) = 53.
Proof.
  intros Hn. destruct n as [|p|p]; [lia| |lia].
  pose proof (digits2_spec p) as Hp. set (d := Zpos (digits2_pos p)) in *.
  assert (d <= 53) as Hd.
  { apply Z.lt_pred_le. apply (Z.pow_lt_mono_r_iff 2); [lia|lia|]. rewrite <- Z.sub_1_r. unfold d in *. lia. }
  set (k := 53 - d). assert (0 <= k <= 52) as Hk by (unfold k, d in *; lia).
  assert (exists m, shl_align p 0 (fexp 53 1024 (Zpos (digits2_pos p) + 0)) = (m, - k) /\ Zpos m = Zpos p * 2 ^ k)
    as (m & Ea & Em).
  { unfold shl_align. rewrite fexp_53. fold d. replace (Z.max (d + 0 - 53) (-1074) - 0) with (- k) by (unfold k; lia).
    destruct k as [|q|q] eqn:Ek; [exists p; split; [f_equal; lia|lia]| |lia]. cbn [Z.opp].
    exists (Pos.iter xO p q). split; [f_equal; unfold k in Ek; lia|].
    clear. induction q as [|q IH] using Pos.peano_ind; [change (2 ^ 1) with 2; cbn; lia|].
    rewrite Pos.iter_succ, Pos2Z.inj_succ, Z.pow_succ_r, Pos2Z.inj_xO, IH by lia. lia. }
  assert (Zpos (digits2_pos m) = 53) as Hdm.
  { apply digits2_unique. rewrite Em. replace 53 with (d + k) at 2 by (unfold k; lia).
    replace (53 - 1) with (d - 1 + k) by (unfold k; lia). rewrite !Z.pow_add_r by (unfold d; lia).
    pose proof (Z.pow_pos_nonneg 2 k). split; [apply Z.mul_le_mono_nonneg_r; lia|apply Z.mul_lt_mono_pos_r; lia]. }
  exists m, k. split; [|done]. unfold of_Z, binary_normalize, binary_round. rewrite Ea.
  assert (Zpos m < 2 ^ 53) by (rewrite <- Hdm; apply digits2_spec).
  destruct (round_aux_correct (Zpos m) (- k) loc_Exact (Zpos m) 1) as (m' & e' & E & Hc & _);
    [lia|lia|unfold rep; cbn; lia| | |].
  all: unfold shift_of in *; cbn [Zdigits2] in *; rewrite ?Hdm, ?fexp_53 in *.
  all: replace (Z.max 0 (Z.max (53 + - k - 53) (-1074) - - k)) with 0 in * by lia.
  all: change (1 * 2 ^ 0) with 1 in *;
    replace (round_even (Zpos m) 1) with (Zpos m) in * by (rewrite <- (round_even_exact (Zpos m) 1) at 1 by lia; by rewrite Z.mul_1_r).
  all: try lia.
  rewrite E. destruct Hc as [(_ & -> & Hm)|]; [|lia]. injection Hm as ->. f_equal; lia.
Qed.

(** ** Division *)

Definition normal (m : positive) : Prop := Zpos (digits2_pos m) = 53.

Lemma normal_bounds m : normal m -> 2 ^ 52 <= Zpos m < 2 ^ 53.
Proof. intros H. pose proof (digits2_spec m) as Hm. rewrite H in Hm. exact Hm. Qed.

(** The remainder of the quotient says where the exact value lies. *)
Lemma div_location_rep m d :
  0 <= m -> 0 < d -> rep m d (shr_record_of_loc (m / d) (new_location d (m mod d))).
Proof.
  intros Hm Hd. pose proof (Z.div_mod m d ltac:(lia)). pose proof (Z.mod_pos_bound m d Hd).
  assert (0 <= m / d) by (apply Z.div_pos; lia).
  set (q := m / d) in *. set (r := m mod d) in *. unfold rep, new_location, new_location_even, new_location_odd.
  destruct (Z.even d) eqn:Ed; (destruct (Z.eqb_spec r 0) as [Er|Er]; [cbn -[Z.mul Z.add]; lia|]).
  - destruct (Z.compare_spec (2 * r) d); cbn -[Z.mul Z.add]; lia.
  - assert (exists k, d = 2 * k + 1) as [k Hk] by (rewrite <- Z.negb_odd in Ed; b2p; by apply Z.odd_spec).
    destruct (Z.compare_spec (2 * r + 1) d); cbn -[Z.mul Z.add]; lia.
Qed.

(** The quotient of two normal numbers, away from the ends of the exponent's range: the exact
    quotient rounded to 53 bits. *)
Lemma ddiv_correct mx my ex ey :
  normal mx -> normal my -> -1000 <= ex - ey <= 900 ->
  exists n m e, 0 <= n <= 1
    /\ ddiv (S754_finite false mx ex) (S754_finite false my ey) = S754_finite false m e
    /\ let y := round_even (Zpos mx * 2 ^ 53) (Zpos my * 2 ^ n) in
       carried y (ex - ey - 53 + n) m e /\ 2 ^ 52 <= y <= 2 ^ 53.
Proof.
  intros Hx Hy He. pose proof (normal_bounds _ Hx). pose proof (normal_bounds _ Hy).
  set (N := Zpos mx * 2 ^ 53). set (q := N / Zpos my).
  assert (2 ^ 52 <= q < 2 ^ 54) as Hq.
  { unfold q, N. split; [apply Z.div_le_lower_bound; lia|apply Z.div_lt_upper_bound; lia]. }
  pose proof (div_location_rep N (Zpos my) ltac:(lia) ltac:(lia)) as Hrep. fold q in Hrep.
  destruct q as [|qp|qp] eqn:Eq; [lia| |lia].
  pose (n := shift_of (Zpos qp) (ex - ey - 53)).
  assert (0 <= n <= 1 /\ 2 ^ (52 + n) <= Zpos qp) as [Hn Hqn].
  { pose proof (digits2_spec qp) as Hd. unfold n, shift_of. cbn [Zdigits2]. rewrite fexp_53.
    set (d := Zpos (digits2_pos qp)) in *.
    assert (d = 53 \/ d = 54) as [E|E]; [|rewrite E in *; split; [lia|]..].
    - destruct (Z_lt_le_dec (Zpos qp) (2 ^ 53)); [left|right]; apply digits2_unique; split; try done; lia.
    - replace (Z.max 0 _) with 0 by lia. cbn. lia.
    - replace (Z.max 0 _) with 1 by lia. cbn in Hd |- *. lia. }
  assert (Zpos qp * Zpos my <= N) as HqN by (rewrite <- Eq; unfold q; rewrite Z.mul_comm; apply Z.mul_div_le; lia).
  set (y := round_even N (Zpos my * 2 ^ n)).
  assert (2 ^ 52 <= y) as Hy52.
  { assert (0 < 2 ^ n) by (apply Z.pow_pos_nonneg; lia).
    apply (round_even_bounds N (Zpos my * 2 ^ n) (2 ^ 52) N); [nia|].
    rewrite Z.pow_add_r in Hqn by lia. set (P := 2 ^ n) in *. clearbody P. clear Eq q Hrep.
    assert (0 <= N) by (unfold N; lia). clearbody N. split.
    - transitivity (2 ^ 52 * P * Zpos my); [lia|]. transitivity (Zpos qp * Zpos my); [|done].
      apply Z.mul_le_mono_nonneg_r; lia.
    - rewrite <- (Z.mul_1_r N) at 1. apply Z.mul_le_mono_nonneg_l; nia. }
  destruct (round_aux_correct (Zpos qp) (ex - ey - 53) (new_location (Zpos my) (N mod Zpos my)) N (Zpos my))
    as (m & e & E & Hc & Hb); [lia|lia|exact Hrep|fold n y; lia|fold n; lia|].
  exists n, m, e. split; [done|]. split; [|split; [exact Hc|split; [exact Hy52|exact Hb]]].
  rewrite <- E. unfold ddiv, SFdiv, SFdiv_core_binary. cbn [Zdigits2]. rewrite fexp_53.
  unfold normal in Hx, Hy. rewrite Hx, Hy.
  replace (Z.min (Z.max (53 + ex - (53 + ey) - 53) (-1074)) (ex - ey)) with (ex - ey - 53) by lia.
  replace (ex - ey - (ex - ey - 53)) with 53 by lia. rewrite Z.shiftl_mul_pow2 by lia. fold N.
  pose proof (eq_refl : Z.div_eucl N (Zpos my) = Z.div_eucl N (Zpos my)) as Ee. revert Ee.
  unfold q, Z.div in Eq. unfold Z.modulo. destruct (Z.div_eucl N (Zpos my)) as [q' r']. by subst.
Qed.

Lemma den_pos e : 0 < den e.
Proof. apply Z.pow_pos_nonneg; lia. Qed.

(** The number that [m] and [e] stand for is [y / 2 ^ - E]. *)
Lemma carried_ratio y E m e : carried y E m e -> E < 0 -> num m e * 2 ^ (- E) = y * den e.
Proof.
  intros [(_ & -> & <-)|(-> & -> & Em)] HE; unfold num, den.
  - replace (Z.max E 0) with 0 by lia. replace (Z.max (- E) 0) with (- E) by lia. lia.
  - rewrite Em. replace (Z.max (E + 1) 0) with 0 by lia. replace (Z.max (- (E + 1)) 0) with (- (E + 1)) by lia.
    replace (- E) with (1 + - (E + 1)) by lia. rewrite Z.pow_add_r by lia. lia.
Qed.

Lemma div_ratio a b c d : 0 < b -> 0 < d -> a * d = c * b -> a / b = c / d.
Proof. intros Hb Hd E. rewrite <- (Z.div_mul_cancel_r a b d), E, (Z.mul_comm b), Z.div_mul_cancel_r by lia. done. Qed.

Lemma round_even_unique a b y : 0 < b -> 2 * Z.abs (y * b - a) < b -> round_even a b = y.
Proof. intros Hb H. pose proof (round_even_close a b Hb). nia. Qed.

(** The quotient of two integers below [2 ^ 53] is off by at most half of the last bit. *)
Lemma ddiv_ints a b :
  0 < a < 2 ^ 53 -> 0 < b < 2 ^ 53 ->
  exists m e y E, ddiv (of_Z a) (of_Z b) = S754_finite false m e /\ carried y E m e
    /\ 2 ^ 52 <= y <= 2 ^ 53 /\ (E <= 0) /\ 2 * Z.abs (y * b - a * 2 ^ (- E)) <= b.
Proof.
  intros Ha Hb. destruct (of_Z_small a Ha) as (ma & ka & Ea & Hka & Hma & Na).
  destruct (of_Z_small b Hb) as (mb & kb & Eb & Hkb & Hmb & Nb).
  rewrite Ea, Eb. destruct (ddiv_correct ma mb (- ka) (- kb)) as (n & m & e & Hn & E & Hc & Hy); [done|done|lia|].
  eexists m, e, _, _. split; [exact E|]. split; [exact Hc|]. split; [exact Hy|].
  set (y := round_even _ _) in *. split; [lia|].
  pose proof (round_even_close (Zpos ma * 2 ^ 53) (Zpos mb * 2 ^ n)) as H. fold y in H. rewrite Hma, Hmb in H.
  clearbody y.
  assert (0 < 2 ^ (kb + n)) as Hp by (apply Z.pow_pos_nonneg; lia).
  replace (a * 2 ^ ka * 2 ^ 53) with (a * 2 ^ (- (- ka - - kb - 53 + n)) * 2 ^ (kb + n)) in H
    by (rewrite <- !Z.mul_assoc, <- !Z.pow_add_r by lia; do 2 f_equal; lia).
  replace (b * 2 ^ kb * 2 ^ n) with (b * 2 ^ (kb + n)) in H by (rewrite Z.pow_add_r by lia; lia).
  set (Q := 2 ^ (kb + n)) in *. set (P := a * 2 ^ _) in *. clearbody P Q.
  rewrite Z.mul_assoc, <- Z.mul_sub_distr_r, Z.abs_mul, (Z.abs_eq Q) in H by lia.
  apply (Z.mul_le_mono_pos_r _ _ Q); [done|]. rewrite <- Z.mul_assoc. apply H. nia.
Qed.

(** ** Rates

    [x] agrees with [y] up to a relative error of [2 ^ -51]. *)
Definition close (x y : Z) : Prop := 2 ^ 51 * Z.abs (x - y) <= y.

Lemma close_mul c x y : 0 < c -> close (c * x) (c * y) <-> close x y.
Proof.
  intros Hc. unfold close. rewrite <- Z.mul_sub_distr_l, Z.abs_mul, (Z.abs_eq c) by lia.
  rewrite Z.mul_assoc, (Z.mul_comm (2 ^ 51) c), <- Z.mul_assoc. symmetry. apply Z.mul_le_mono_pos_l. done.
Qed.

(** The product of two relative errors of [2 ^ -53]. *)
Lemma close_quotient A B C D :
  0 <= B -> 0 < C -> 2 ^ 53 * Z.abs (A - B) <= A -> 2 ^ 53 * Z.abs (C - D) <= C -> close (A * D) (B * C).
Proof.
  intros HB HC HA HD. unfold close.
  assert (A * D - B * C = A * (D - C) + C * (A - B)) as -> by ring.
  assert (Z.abs (A * (D - C) + C * (A - B)) <= A * Z.abs (C - D) + C * Z.abs (A - B)) as Ht.
  { etransitivity; [apply Z.abs_triangle|]. rewrite !Z.abs_mul, (Z.abs_eq A), (Z.abs_eq C) by lia.
    assert (Z.abs (D - C) = Z.abs (C - D)) as -> by lia. done. }
  assert (2 ^ 53 * (A * Z.abs (C - D)) <= A * C) as H1 by nia.
  assert (2 ^ 53 * (C * Z.abs (A - B)) <= A * C) as H2 by nia.
  assert (A <= 2 * B) as H3 by lia. assert (A * C <= 2 * (B * C)) by nia. lia.
Qed.

Lemma carried_num y E m e :
  carried y E m e -> num m e * 2 ^ Z.max (- E) 0 = y * 2 ^ Z.max E 0 * den e.
Proof.
  intros [(_ & -> & <-)|(-> & -> & Em)]; unfold num, den; [lia|]. rewrite Em.
  destruct (Z_lt_le_dec E 0).
  - replace (Z.max (E + 1) 0) with 0 by lia. replace (Z.max E 0) with 0 by lia.
    replace (Z.max (- E) 0) with (1 + - (E + 1)) by lia. rewrite Z.max_l, Z.pow_add_r by lia. lia.
  - replace (Z.max (E + 1) 0) with (1 + E) by lia. replace (Z.max (- (E + 1)) 0) with 0 by lia.
    replace (Z.max (- E) 0) with 0 by lia. rewrite Z.max_l, Z.pow_add_r by lia. lia.
Qed.

Lemma carried_normal y E m e : carried y E m e -> 2 ^ 52 <= y -> normal m.
Proof. intros Hc Hy. apply digits2_unique. destruct Hc as [(? & _ & ->)|(_ & _ & ->)]; lia. Qed.

(** [v] is the rate of [n] bytes in [ns] nanoseconds, per second. *)
Definition rate_ok (n ns : Z) (v : double) : Prop :=
  exists m e, v = S754_finite false m e /\ close (num m e * ns) (n * 1000000000 * den e).

(** Two roundings, of the seconds and of the quotient. *)
Lemma rate_close n ns :
  0 < n < 2 ^ 53 -> 0 < ns < 2 ^ 53 -> rate_ok n ns (ddiv (of_Z n) (sec_of_ns ns)).
Proof.
  intros Hn Hns. unfold rate_ok. set (b := 1000000000).
  destruct (ddiv_ints ns b) as (ms & es & ys & Es & Es' & Hcs & Hys & HEs & Hs); [lia|unfold b; lia|].
  unfold sec_of_ns, billion. fold b. rewrite Es'.
  destruct (of_Z_small n Hn) as (mn & kn & -> & Hkn & Hmn & Nn).
  destruct (carried_value _ _ _ _ Hcs) as [Hes Hval].
  assert (- Es <= 84) as Hlow.
  { destruct (Z_le_gt_dec (- Es) 84) as [|Hgt]; [done|]. exfalso.
    assert (2 ^ 85 <= 2 ^ (- Es)) by (apply Z.pow_le_mono_r; lia). unfold b in *. nia. }
  destruct (ddiv_correct mn ms (- kn) es) as (k & m & e & Hk & -> & Hc & Hy); [done|eapply carried_normal; [exact Hcs|lia]|lia|].
  exists m, e. split; [done|]. set (y := round_even _ _) in *.
  pose proof (round_even_close (Zpos mn * 2 ^ 53) (Zpos ms * 2 ^ k)) as Hr. fold y in Hr. clearbody y.
  set (E := - kn - es - 53 + k) in *. pose proof (carried_num _ _ _ _ Hc) as Hnum.
  assert (0 < 2 ^ k) as Hpk by (apply Z.pow_pos_nonneg; lia).
  set (p := 2 ^ Z.max (- E) 0) in *. set (q := 2 ^ Z.max E 0) in *.
  assert (0 < p) as Hp by (apply Z.pow_pos_nonneg; lia).
  set (U := 2 ^ k * 2 ^ (- Es)). set (W := 2 ^ kn * 2 ^ 53 * 2 ^ (es - Es)).
  assert (0 < W) as HW by (unfold W; rewrite <- !Z.pow_add_r by lia; apply Z.pow_pos_nonneg; lia).
  assert (W * q = U * p) as HUW.
  { unfold U, W, p, q. rewrite <- !Z.pow_add_r by lia. f_equal. unfold E. lia. }
  apply (close_mul p); [done|].
  replace (p * (num m e * ns)) with (den e * (y * q * ns)) by (transitivity (num m e * p * ns); [rewrite Hnum; ring|ring]).
  replace (p * (n * b * den e)) with (den e * (n * b * p)) by ring.
  apply close_mul; [apply den_pos|]. apply (close_mul W); [done|].
  replace (W * (y * q * ns)) with (p * (y * ns * U))
    by (transitivity (y * ns * (W * q)); [rewrite HUW; ring|ring]).
  replace (W * (n * b * p)) with (p * (n * b * W)) by ring.
  apply close_mul; [done|]. apply (close_mul (Zpos ms)); [lia|].
  replace (Zpos ms * (y * ns * U)) with (y * (Zpos ms * 2 ^ k) * (ns * 2 ^ (- Es))) by (unfold U; ring).
  replace (Zpos ms * (n * b * W)) with (Zpos mn * 2 ^ 53 * (ys * b)) by (rewrite <- Hval, Hmn; unfold W; ring).
  apply close_quotient; [lia|unfold b; lia| |].
  - set (M := Zpos ms * 2 ^ k) in *. assert (0 < M) by (unfold M; nia). clearbody M. nia.
  - unfold b in *. nia.
Qed.

(** ** Durations *)

(** The seconds of a duration, cut off, are the whole seconds of its nanoseconds: the
    rounding never reaches the next second, for durations up to a hundred days. *)
Lemma seconds_floor ns : 0 <= ns < 2 ^ 53 -> to_u64 (clamp0 (sec_of_ns ns)) = Ok (ns / 1000000000).
Proof.
  intros Hns. destruct (Z.eq_dec ns 0) as [->|]; [reflexivity|].
  set (b := 1000000000).
  destruct (ddiv_ints ns b) as (m & e & y & E & Eq & Hc & Hy & HE & Hclose); [lia|unfold b; lia|].
  unfold sec_of_ns, billion. fold b. rewrite Eq. unfold clamp0. cbn [dlt SFltb SFcompare dzero]. cbn.
  assert (0 < 2 ^ (- E)) as HP by (apply Z.pow_pos_nonneg; lia).
  assert (2 ^ 29 <= 2 ^ (- E)) as HK.
  { apply Z.pow_le_mono_r; [lia|]. destruct (Z_lt_le_dec (- E) 29) as [Hlt|]; [|done]. exfalso.
    assert (2 ^ (- E) <= 2 ^ 28) by (apply Z.pow_le_mono_r; lia). unfold b in *. nia. }
  assert (num m e / den e = ns / b) as ->.
  { rewrite (div_ratio _ _ y (2 ^ (- E))); [|apply den_pos|done|apply carried_ratio; [done|]].
    - pose proof (Z.div_mod ns b ltac:(unfold b; lia)) as Hd. pose proof (Z.mod_pos_bound ns b ltac:(unfold b; lia)).
      set (q := ns / b) in *. set (r := ns mod b) in *. set (P := 2 ^ (- E)) in *. clearbody P q r.
      symmetry. apply Z.div_unique_pos with (y - P * q); [|lia]. unfold b in *. nia.
    - destruct (Z.eq_dec E 0) as [->|]; [|lia]. change (2 ^ (- 0)) with 1 in HK. lia. }
  rewrite (proj2 (Z.ltb_lt _ _)); [done|]. apply Z.div_lt_upper_bound; unfold b; lia.
Qed.

(** Changing the sign of an operand changes the sign of the quotient. *)
Lemma round_aux_sign m e l : binary_round_aux 53 1024 true m e l = SFopp (binary_round_aux 53 1024 false m e l).
Proof.
  unfold binary_round_aux. destruct (shr_fexp 53 1024 m e l) as [mrs e']. destruct (shr_fexp _ _ _ e' _) as [mrs' e''].
  destruct (shr_m mrs'); [done| |done]. by destruct (e'' <=? 1024 - 53).
Qed.

Lemma ddiv_sign a m e : 0 < a < 2 ^ 53 ->
  ddiv (of_Z (- a)) (S754_finite false m e) = SFopp (ddiv (of_Z a) (S754_finite false m e)).
Proof.
  intros Ha. assert (of_Z (- a) = SFopp (of_Z a)) as ->.
  { destruct a as [|p|p]; [lia| |lia]. change (- Zpos p) with (Zneg p). unfold of_Z, binary_normalize, binary_round.
    destruct (shl_align _ _ _). apply round_aux_sign. }
  destruct (of_Z_small a Ha) as (ma & k & -> & _). cbn [SFopp negb ddiv SFdiv xorb]. unfold ddiv, SFdiv.
  destruct (SFdiv_core_binary _ _ _ _ _ _) as [[mz ez] lz]. apply round_aux_sign.
Qed.

(** A negative duration counts as none. *)
Lemma seconds_floor_any ns :
  Z.abs ns < 2 ^ 53 -> to_u64 (clamp0 (sec_of_ns ns)) = Ok (Z.max 0 ns / 1000000000).
Proof.
  intros Hns. destruct (Z_lt_le_dec ns 0) as [Hneg|]; [|rewrite Z.max_r by done; apply seconds_floor; lia].
  rewrite Z.max_l by lia. replace ns with (- - ns) by lia. unfold sec_of_ns.
  assert (exists m e, billion = S754_finite false m e) as (mb & eb & Eb) by (eexists _, _; vm_compute; reflexivity).
  rewrite Eb, ddiv_sign, <- Eb by lia.
  destruct (ddiv_ints (- ns) 1000000000) as (m & e & y & E & Eq & _); [lia|lia|]. unfold billion. by rewrite Eq.
Qed.

Lemma seconds_positive ns : Z.abs ns < 2 ^ 53 -> dlt dzero (sec_of_ns ns) = (0 <? ns).
Proof.
  intros Hns. destruct (Z.eq_dec ns 0) as [->|Hne]; [done|]. unfold sec_of_ns.
  assert (exists m e, billion = S754_finite false m e) as (mb & eb & Eb) by (eexists _, _; vm_compute; reflexivity).
  destruct (Z.ltb_spec 0 ns) as [Hpos|Hneg].
  - destruct (ddiv_ints ns 1000000000) as (m & e & y & E & Eq & _); [lia|lia|]. unfold billion. by rewrite Eq.
  - replace ns with (- - ns) by lia. rewrite Eb, ddiv_sign, <- Eb by lia.
    destruct (ddiv_ints (- ns) 1000000000) as (m & e & y & E & Eq & _); [lia|lia|]. unfold billion. by rewrite Eq.
Qed.

Lemma no_bytes_rate ns : 0 < ns < 2 ^ 53 -> ddiv (of_Z 0) (sec_of_ns ns) = dzero.
Proof.
  intros Hns. unfold sec_of_ns, billion. destruct (ddiv_ints ns 1000000000) as (m & e & y & E & Eq & _); [lia|lia|].
  by rewrite Eq.
Qed.

Lemma format_seconds_whole ns :
  Z.abs ns < 2 ^ 53 -> format_seconds (sec_of_ns ns) = Ok (format_duration (Z.max 0 ns / 1000000000)).
Proof. intros H. unfold format_seconds. by rewrite seconds_floor_any. Qed.

Lemma format_hours_minutes_whole ns :
  Z.abs ns < 2 ^ 53 ->
  format_hours_minutes (sec_of_ns ns) = Ok (format_duration_hours_minutes (Z.max 0 ns / 1000000000)).
Proof. intros H. unfold format_hours_minutes. by rewrite seconds_floor_any. Qed.

(** ** Sizes *)

(** [format_byte_size] as it is written, with [double] divisions. *)
Definition size_unit (n unit : Z) (name : string) : bytes :=
  print_fixed2 (ddiv (of_Z n) (of_Z unit)) ++ str " " ++ str name.

Definition format_byte_size (n : Z) : bytes :=
  if n <? kib then with_unit n " B"
  else if n <? mib then size_unit n kib "KiB"
  else if n <? gib then size_unit n mib "MiB"
  else if n <? tib then size_unit n gib "GiB"
  else size_unit n tib "TiB".

Lemma round_even_scale a b c : 0 < b -> 0 < c -> round_even (a * c) (b * c) = round_even a b.
Proof.
  intros Hb Hc. unfold round_even. rewrite Z.div_mul_cancel_r, Z.mul_mod_distr_r by lia.
  replace (2 * (a mod b * c)) with (2 * (a mod b) * c) by lia. cbv zeta.
  assert (forall x y, (x * c <? y * c) = (x <? y)) as E; [|by rewrite !E].
  intros x y. apply eq_bool_prop_intro. rewrite !Is_true_true, !Z.ltb_lt. symmetry. by apply Z.mul_lt_mono_pos_r.
Qed.

Lemma fixed2_ratio v u v' u' : 0 < u -> 0 < u' -> v * u' = v' * u -> fixed2 v u = fixed2 v' u'.
Proof.
  intros Hu Hu' E. unfold fixed2, hundredths.
  assert (round_even (100 * v) u = round_even (100 * v') u') as ->; [|done].
  rewrite <- (round_even_scale (100 * v) u u'), <- (round_even_scale (100 * v') u' u) by done.
  rewrite (Z.mul_comm u' u). f_equal. lia.
Qed.

(** An integer of any size: its value is [to_double]. *)
Lemma of_Z_value n :
  0 < n < 2 ^ 64 ->
  exists m e, of_Z n = S754_finite false m e /\ normal m /\ -52 <= e <= 12 /\ num m e = to_double n * den e.
Proof.
  intros Hn. unfold to_double. destruct (Z.ltb_spec n (2 ^ 53)) as [Hs|Hl].
  - destruct (of_Z_small n) as (m & k & E & Hk & Hm & Nm); [lia|]. exists m, (- k).
    split; [done|]. split; [done|]. split; [lia|]. unfold num, den. rewrite Hm.
    replace (Z.max (- k) 0) with 0 by lia. replace (Z.max (- - k) 0) with k by lia. lia.
  - destruct n as [|p|p]; [lia| |lia]. pose proof (digits2_spec p) as Hp.
    set (k := Z.log2 (Zpos p) - 52).
    assert (Zpos (digits2_pos p) = k + 53) as Hd.
    { apply digits2_unique. replace (k + 53 - 1) with (Z.log2 (Zpos p)) by (unfold k; lia).
      replace (k + 53) with (Z.succ (Z.log2 (Zpos p))) by (unfold k; lia). apply Z.log2_spec; lia. }
    assert (1 <= k <= 11) as Hk.
    { unfold k. assert (53 <= Z.log2 (Zpos p)) by (apply Z.log2_le_pow2; lia).
      assert (Z.log2 (Zpos p) < 64) by (apply Z.log2_lt_pow2; lia). lia. }
    assert (of_Z (Zpos p) = binary_round_aux 53 1024 false (Zpos p) 0 loc_Exact) as ->.
    { unfold of_Z, binary_normalize, binary_round, shl_align. rewrite fexp_53, Hd.
      destruct (Z.max (k + 53 + 0 - 53) (-1074) - 0) eqn:E; [reflexivity|reflexivity|lia]. }
    set (y := round_even (Zpos p) (2 ^ k)).
    assert (2 ^ 52 <= y) as Hy.
    { apply (round_even_bounds (Zpos p) (2 ^ k) (2 ^ 52) (Zpos p)); [apply Z.pow_pos_nonneg; lia|].
      rewrite <- Z.pow_add_r by lia. rewrite Hd in Hp. replace (52 + k) with (k + 53 - 1) by lia.
      split; [lia|]. assert (0 < 2 ^ k) by (apply Z.pow_pos_nonneg; lia). nia. }
    destruct (round_aux_correct (Zpos p) 0 loc_Exact (Zpos p) 1) as (m & e & E & Hc & Hb);
      [lia|lia|unfold rep; cbn; lia| | |]; unfold shift_of in *; cbn [Zdigits2] in *; rewrite ?Hd, ?fexp_53 in *.
    all: replace (Z.max 0 (Z.max (k + 53 + 0 - 53) (-1074) - 0)) with k in * by lia.
    1: rewrite Z.mul_1_l; fold y; lia.
    1: lia.
    rewrite Z.mul_1_l in Hc, Hb. fold y in Hc, Hb.
    exists m, e. split; [done|]. pose proof (carried_value _ _ _ _ Hc) as [He Hv]. split; [|split; [lia|]].
    + unfold normal. apply digits2_unique. destruct Hc as [(? & _ & ->)|(_ & _ & ->)]; [split; [exact Hy|done]|done].
    + unfold num, den. replace (Z.max e 0) with (e - (0 + k) + k) by lia. replace (Z.max (- e) 0) with 0 by lia.
      rewrite Z.pow_add_r, Z.mul_assoc, Hv by lia. lia.
Qed.

(** Dividing by [2 ^ j] changes the exponent only. *)
Lemma ddiv_pow2 m e j :
  normal m -> -500 <= e <= 500 -> 0 <= j <= 100 ->
  ddiv (S754_finite false m e) (S754_finite false (2 ^ 52) (j - 52)) = S754_finite false m (e - j).
Proof.
  intros Hm He Hj. pose proof (normal_bounds m Hm) as Hb.
  destruct (ddiv_correct m (2 ^ 52) e (j - 52)) as (n & m' & e' & Hn & -> & Hc & Hy); [done|reflexivity|lia|].
  assert (Zpos (2 ^ 52) = 2 ^ 52) as E52 by reflexivity. rewrite E52 in *.
  assert (n = 0 \/ n = 1) as [-> | ->] by lia.
  - change (2 ^ 52 * 2 ^ 0) with (2 ^ 52) in *.
    replace (Zpos m * 2 ^ 53) with (Zpos m * 2 * 2 ^ 52) in * by lia.
    rewrite round_even_exact in * by lia. destruct Hc as [(? & _)|(H1 & -> & Em)]; [lia|].
    f_equal; [|lia]. lia.
  - change (2 ^ 52 * 2 ^ 1) with (2 ^ 53) in *. rewrite round_even_exact in * by lia.
    destruct Hc as [(_ & -> & Em)|]; [|lia]. f_equal; lia.
Qed.

(** The sizes are printed as [Utils.format_byte_size] says, in exact arithmetic. *)
Lemma size_unit_exact n j unit name :
  0 < n < 2 ^ 64 -> 0 <= j <= 100 -> unit = 2 ^ j -> of_Z unit = S754_finite false (2 ^ 52) (j - 52) ->
  size_unit n unit name = fixed2 (to_double n) unit ++ str " " ++ str name.
Proof.
  intros Hn Hj Hu E. unfold size_unit. rewrite E. destruct (of_Z_value n Hn) as (m & e & -> & Hm & He & Hv).
  rewrite ddiv_pow2 by (done || lia). cbn [print_fixed2 sign app]. f_equal.
  apply fixed2_ratio; [apply den_pos|subst; apply Z.pow_pos_nonneg; lia|]. subst unit.
  assert (0 < den e) as Hd by apply den_pos. apply (Z.mul_cancel_r _ _ (den e)); [lia|].
  replace (num m (e - j) * 2 ^ j * den e) with (num m e * den (e - j)); [rewrite Hv; lia|].
  unfold num, den. rewrite <- !Z.mul_assoc, <- !Z.pow_add_r by lia. do 2 f_equal. lia.
Qed.

Lemma format_byte_size_exact n : 0 <= n < 2 ^ 64 -> format_byte_size n = Utils.format_byte_size n.
Proof.
  intros Hn. unfold format_byte_size, Utils.format_byte_size. repeat (case_match; b2p); [done|..];
    (rewrite (size_unit_exact n 10 kib) || rewrite (size_unit_exact n 20 mib)
     || rewrite (size_unit_exact n 30 gib) || rewrite (size_unit_exact n 40 tib));
    try reflexivity; unfold kib, mib, gib, tib in *; lia.
Qed.

(** A complete torrent is shown at 100 per cent. *)
Lemma percentage_complete n : 0 < n < 2 ^ 53 -> print_fixed2 (percentage n n) = str "100.00".
Proof.
  intros Hn. destruct (ddiv_ints n n Hn Hn) as (m & e & y & E & Eq & Hc & Hy & HE & Hcl).
  unfold percentage. rewrite Eq. set (P := 2 ^ (- E)) in *.
  assert (y = P) as EP by nia.
  assert (E = -52 \/ E = -53) as HE2.
  { assert (2 ^ 52 <= 2 ^ (- E) <= 2 ^ 53) as [H1 H2] by (fold P; lia).
    apply Z.pow_le_mono_r_iff in H1; [|lia..]. apply Z.pow_le_mono_r_iff in H2; lia. }
  assert (m = (2 ^ 52)%positive /\ e = -52) as [-> ->]; [|vm_compute; reflexivity].
  rewrite EP in Hc. unfold P in Hc. clear Eq EP Hy Hcl P. destruct HE2 as [-> | ->]; destruct Hc as [(? & -> & Em)|(? & -> & Em)]; cbn in *; try lia; by injection Em.
Qed.
