(* ===== verification/TorrentLoad.v ===== *)
(** * From a .torrent file to a torrent
    (src/bencode/bencode_parser.cpp: Parser(path), Parser::parse; src/torrent_file.cpp;
    inc/torrent_file.h)

    Reading a file, parsing it and building the torrent, as [Parser::parse] composes them,
    and what [TorrentFile::print] shows of the result.  The reference is the description of
    a torrent ([TorrentSpec]) with the metadata dictionary that BEP 3 prescribes for it. *)

From S2P Require Import Prelude CxxLib Hash Bencode TorrentFile Utils Double.

(** ** Loading *)

(** [Parser(path)]: [None] when the file cannot be opened. *)
Definition parser_of_file (file : option bytes) : result bytes :=
  match file with
  | None => Throw (RuntimeError "Cannot open file")
  | Some metadata => Ok metadata
  end.

(** [Parser(path).parse()] *)
Definition load_torrent `{Sha1} (file : option bytes) : result TorrentFile :=
  metadata ← parser_of_file file;
  '(metadata_dict, info_dict_raw_bytes) ← parse_torrent metadata;
  torrent_new metadata_dict info_dict_raw_bytes.

(** The member [is_private]: its initializer, which nothing overwrites. *)
Definition is_private (t : TorrentFile) : bool := false.

(** ** [TorrentFile::print] *)

Definition line (label : string) (text : bytes) : bytes := str label ++ text ++ [10].

Definition yes_no (b : bool) : bytes := if b then str "yes" else str "no".

Definition quoted_trackers (tier : list TrackerDetails) : bytes :=
  let q td := 34 :: td_to_string td ++ [34] in
  match tier with
  | [] => []
  | td :: l => q td ++ concat (map (fun td => str ", " ++ q td) l)
  end.

Definition tier_line (n : nat) (tier : list TrackerDetails) : bytes :=
  line "  Tier " (to_string (Z.of_nat (n + 1)) ++ str ": [" ++ quoted_trackers tier ++ str "]").

Definition file_line (f : File) : bytes :=
  line "  " (f_path f ++ str " (" ++ to_string (f_length f) ++ str " bytes, "
             ++ Double.format_byte_size (f_length f) ++ str ")").

Definition print (t : TorrentFile) : bytes :=
  let a := announce_tracker t in
  line "Torrent name: " (torrent_name t)
  ++ line "Total size: " (to_string (total_size t) ++ str " bytes (" ++ Double.format_byte_size (total_size t) ++ str ")")
  ++ line "Piece size: " (to_string (piece_size t))
  ++ line "Piece count: " (to_string (Z.of_nat (length (pieces t))))
  ++ line "Info hash: " (ih_hex (tf_info_hash t))
  ++ line "Is private: " (yes_no (is_private t))
  ++ line "Is multifile: " (yes_no (is_multifile t))
  ++ line "Tracker (" (td_to_string a ++ str "):")
  ++ line "     Hostname: " (hostname a)
  ++ line "     Port: " (to_string (td_port a))
  ++ line "     Protocol: " (scheme (protocol a))
  ++ line "     Path: " (td_path a)
  ++ (if bool_decide (announce_list_trackers t = []) then []
      else line "Announce list:" [] ++ concat (imap tier_line (announce_list_trackers t)))
  ++ (if is_multifile t
      then line "Number of files: " (to_string (Z.of_nat (length (tf_files t))))
           ++ line "Files:" [] ++ concat (map file_line (tf_files t))
      else []).

(** ** The reference: what a torrent file says *)

Record FileSpec := mkFileSpec {
  fs_length : Z; fs_parts : list bytes; fs_crc32 : bytes; fs_md5 : bytes; fs_mtime : bytes; fs_sha1 : bytes }.

Inductive Content := Single (length : Z) | Multi (files : list FileSpec).

Record TorrentSpec := mkSpec {
  sp_tracker : TrackerDetails;
  sp_tiers : list (list TrackerDetails);
  sp_name : bytes;
  sp_piece_length : Z;
  sp_hashes : list bytes;
  sp_private : bool;
  sp_content : Content;
}.

(** An optional text is left out when it is empty. *)
Definition text_entry (k : string) (s : bytes) : smap BType :=
  match s with [] => [] | _ => [(str k, BString s)] end.

Definition file_dict (f : FileSpec) : smap BType :=
  text_entry "crc32" (fs_crc32 f) ++ [(str "length", BInteger (fs_length f))] ++ text_entry "md5" (fs_md5 f)
  ++ text_entry "mtime" (fs_mtime f) ++ [(str "path", BList (map BString (fs_parts f)))] ++ text_entry "sha1" (fs_sha1 f).

Definition content_entry (c : Content) : bytes * BType :=
  match c with
  | Single n => (str "length", BInteger n)
  | Multi fs => (str "files", BList (map (fun f => BDict (file_dict f)) fs))
  end.

Definition info_dict (s : TorrentSpec) : smap BType :=
  [content_entry (sp_content s); (str "name", BString (sp_name s));
   (str "piece length", BInteger (sp_piece_length s)); (str "pieces", BString (concat (sp_hashes s)))]
  ++ (if sp_private s then [(str "private", BInteger 1)] else []).

Definition urls (tier : list TrackerDetails) : BType := BList (map (fun td => BString (td_to_string td)) tier).

Definition metadata_dict (s : TorrentSpec) : smap BType :=
  [(str "announce", BString (td_to_string (sp_tracker s)))]
  ++ (match sp_tiers s with [] => [] | tiers => [(str "announce-list", BList (map urls tiers))] end)
  ++ [(str "info", BDict (info_dict s))].

(** The bytes of the file *)
Definition torrent_file (s : TorrentSpec) : bytes := encode (BDict (metadata_dict s)).

Definition file_of (f : FileSpec) : File :=
  mkFile (fs_length f) (fold_left path_append (fs_parts f) []) (fs_mtime f) (fs_sha1 f) (fs_crc32 f) (fs_md5 f).

Definition sizes (c : Content) : list Z := match c with Single n => [n] | Multi fs => map fs_length fs end.
Definition total (c : Content) : Z := foldr Z.add 0 (sizes c).

(** The torrent described *)
Definition described `{Sha1} (s : TorrentSpec) : TorrentFile :=
  mkTorrent (sp_name s) (match sp_content s with Single _ => false | Multi _ => true end) (total (sp_content s))
    (sp_piece_length s) (match sp_content s with Single _ => [] | Multi fs => map file_of fs end)
    (from_sha1 (sha1 (encode (BDict (info_dict s))))) (sp_hashes s) (sp_tracker s) (sp_tiers s).

Definition spec_ok (s : TorrentSpec) : Prop :=
  tracker_ok (sp_tracker s) /\ Forall (Forall tracker_ok) (sp_tiers s)
  /\ (exists k, 14 <= k < 63 /\ sp_piece_length s = 2 ^ k)
  /\ Forall (fun h => length h = 20%nat) (sp_hashes s)
  /\ Forall (fun n => 0 <= n < 2 ^ 63) (sizes (sp_content s)) /\ total (sp_content s) < 2 ^ 64.

(** ** The dictionaries are well formed *)

Lemma smap_singleton_app (k : bytes) (v : BType) (m : smap BType) :
  Forall (fun y => bytes_ltb k (fst y) = true) m -> smap_ok m -> smap_ok ((k, v) :: m).
Proof. intros H Hm. by constructor. Qed.

Ltac smap_order := repeat (apply smap_singleton_app; [repeat (apply Forall_cons_2; [reflexivity|]); apply Forall_nil_2|]); constructor.

Lemma file_dict_wf f : 0 <= fs_length f < 2 ^ 63 -> wf_btype (BDict (file_dict f)).
Proof.
  intros Hl. assert (wf_btype (BList (map BString (fs_parts f)))) as Hp.
  { apply wf_BList, Forall_map, Forall_true. done. }
  apply wf_BDict. split.
  - unfold file_dict. destruct (fs_crc32 f), (fs_md5 f), (fs_mtime f), (fs_sha1 f); cbn [text_entry app]; smap_order.
  - unfold file_dict, text_entry. rewrite !Forall_app. split_and!; repeat case_match; repeat constructor; try exact Hp; cbn; lia.
Qed.

Lemma info_dict_wf s : spec_ok s -> wf_btype (BDict (info_dict s)).
Proof.
  intros (_ & _ & (k & Hk & Ek) & _ & Hs & _). apply wf_BDict. split.
  - unfold info_dict, content_entry. destruct (sp_content s), (sp_private s); cbn [app]; smap_order.
  - unfold info_dict. apply Forall_app. split; [|destruct (sp_private s); repeat constructor; cbn; lia].
    repeat apply Forall_cons_2; try apply Forall_nil_2; cbn [snd]; try exact I.
    + destruct (sp_content s) as [n|fs]; cbn [content_entry snd sizes] in *.
      * rewrite Forall_singleton in Hs. cbn. lia.
      * apply wf_BList, Forall_map. rewrite Forall_map in Hs. eapply Forall_impl; [exact Hs|]. intros f. apply file_dict_wf.
    + cbn. rewrite Ek. pose proof (Z.pow_pos_nonneg 2 k). pose proof (Z.pow_lt_mono_r 2 k 63). lia.
Qed.

Lemma metadata_dict_wf s : spec_ok s -> wf_btype (BDict (metadata_dict s)).
Proof.
  intros Hs. pose proof (info_dict_wf s Hs) as Hi. apply wf_BDict. split.
  - unfold metadata_dict. destruct (sp_tiers s); cbn [app]; smap_order.
  - unfold metadata_dict. rewrite !Forall_app. split_and!; [repeat constructor| |by apply Forall_singleton].
    destruct (sp_tiers s) as [|tier tiers]; [apply Forall_nil_2|]. apply Forall_singleton. cbn [snd].
    apply wf_BList, Forall_map, Forall_true. intros l. apply wf_BList, Forall_map, Forall_true. done.
Qed.

(** ** Reading back each part *)

Lemma traverse_map {A B C} (f : B -> result C) (g : A -> B) (h : A -> C) l :
  Forall (fun x => f (g x) = Ok (h x)) l -> traverse f (map g l) = Ok (map h l).
Proof. induction 1 as [|x l Hx Hl IH]; [done|]. cbn [map traverse]. rewrite Hx. cbn [mbind result_bind]. by rewrite IH. Qed.

Lemma read_tier_urls tier : Forall tracker_ok tier -> read_tier (urls tier) = Ok tier.
Proof.
  intros Ht. unfold read_tier, urls. cbn [as_list mbind result_bind].
  rewrite <- (map_map td_to_string BString), load_strings. cbn [mbind result_bind].
  rewrite (traverse_map _ _ id); [by rewrite map_id|]. eapply Forall_impl; [exact Ht|]. apply extract_to_string.
Qed.

Lemma read_file_dict f : 0 <= fs_length f < 2 ^ 63 -> read_file (BDict (file_dict f)) = Ok (file_of f).
Proof.
  intros Hl. assert (u64 (fs_length f) = fs_length f) as Hu by (apply Z.mod_small; lia). cbn [read_file].
  assert (optional_string (file_dict f) (str "crc32") = Ok (fs_crc32 f)
    /\ get_val_integer (file_dict f) (str "length") = Ok (fs_length f)
    /\ optional_string (file_dict f) (str "md5") = Ok (fs_md5 f)
    /\ optional_string (file_dict f) (str "mtime") = Ok (fs_mtime f)
    /\ optional_string (file_dict f) (str "sha1") = Ok (fs_sha1 f)
    /\ get_val_list (file_dict f) (str "path") = Ok (map BString (fs_parts f))) as (-> & -> & -> & -> & -> & ->).
  { unfold file_dict. by destruct (fs_crc32 f), (fs_md5 f), (fs_mtime f), (fs_sha1 f). }
  cbn [mbind result_bind]. rewrite load_strings. cbn [mbind result_bind]. by rewrite Hu.
Qed.

Lemma split_pieces_concat hs : Forall (fun h => length h = 20%nat) hs -> split_pieces (concat hs) = hs.
Proof.
  induction 1 as [|h hs Hh Hhs IH]; [done|]. unfold split_pieces in *. cbn [concat]. rewrite length_app, Hh.
  replace (20 + length (concat hs))%nat with (length (concat hs) + 1 * 20)%nat by lia.
  rewrite Nat.div_add, Nat.add_1_r by lia. cbn [seq map]. f_equal.
  - unfold slice. by rewrite drop_0, take_app_le, take_ge by lia.
  - rewrite <- IH at 2. rewrite <- seq_shift, map_map. apply map_ext. intros i. unfold slice.
    replace (S i * 20)%nat with (length h + i * 20)%nat by lia. rewrite <- drop_drop, drop_app_length. f_equal. lia.
Qed.

Lemma is_power_of_two_pow k : 0 <= k < 64 -> is_power_of_two (2 ^ k) = true.
Proof.
  intros Hk. pose proof (Z.pow_pos_nonneg 2 k). pose proof (Z.pow_lt_mono_r 2 k 64).
  unfold is_power_of_two. rewrite (proj2 (Z.ltb_lt _ _)) by lia. unfold u64. rewrite Z.mod_small by lia.
  replace (2 ^ k - 1) with (Z.ones k) by (rewrite Z.ones_equiv; lia).
  rewrite Z.land_ones, Z.mod_same by lia. done.
Qed.

Lemma total_files fs : Forall (fun n => 0 <= n < 2 ^ 63) (map fs_length fs) -> total (Multi fs) < 2 ^ 64 ->
  fold_left (fun t f => u64 (t + f_length f)) (map file_of fs) 0 = total (Multi fs).
Proof.
  intros Hf Ht. unfold total in *. cbn [sizes] in *.
  enough (forall t, 0 <= t -> t + foldr Z.add 0 (map fs_length fs) < 2 ^ 64 ->
    fold_left (fun t f => u64 (t + f_length f)) (map file_of fs) t = t + foldr Z.add 0 (map fs_length fs)) as H
    by (rewrite H; lia).
  clear Ht. induction fs as [|f fs IH]; intros t H0 Ht; cbn [map fold_left foldr] in *; [lia|].
  apply Forall_cons in Hf as [Hf Hfs]. specialize (IH Hfs). cbn [f_length file_of].
  assert (0 <= foldr Z.add 0 (map fs_length fs)).
  { clear -Hfs. induction (map fs_length fs) as [|n l IHl]; cbn; [lia|]. apply Forall_cons in Hfs as [? ?]. specialize (IHl H0). lia. }
  unfold u64 at 2. rewrite Z.mod_small by lia. rewrite IH by lia. lia.
Qed.

Lemma read_sizes_described s : spec_ok s ->
  read_sizes (info_dict s) = Ok (match sp_content s with Single _ => false | Multi _ => true end,
    total (sp_content s), match sp_content s with Single _ => [] | Multi fs => map file_of fs end).
Proof.
  intros (_ & _ & _ & _ & Hs & Ht). unfold read_sizes, info_dict. destruct (sp_content s) as [n|fs].
  - match goal with |- context [has_key ?d _] => assert (has_key d (str "files") = false
      /\ get_val_integer d (str "length") = Ok n) as [-> ->] by (by destruct (sp_private s)) end.
    cbn [mbind result_bind sizes] in *.
    rewrite Forall_singleton in Hs. unfold total, u64. cbn. rewrite Z.mod_small by lia. by rewrite Z.add_0_r.
  - match goal with |- context [has_key ?d _] => assert (has_key d (str "files") = true
      /\ get_val_list d (str "files") = Ok (map (fun f => BDict (file_dict f)) fs)) as [-> ->] by done end.
    cbn [mbind result_bind sizes] in *. rewrite (traverse_map _ _ file_of).
    + cbn [mbind result_bind]. by rewrite total_files.
    + rewrite Forall_map in Hs. eapply Forall_impl; [exact Hs|]. intros f. apply read_file_dict.
Qed.

Lemma torrent_new_described `{Sha1} s : spec_ok s ->
  torrent_new (metadata_dict s) (encode (BDict (info_dict s))) = Ok (described s).
Proof.
  intros Hs. pose proof (read_sizes_described s Hs) as Hsz. destruct Hs as (Htr & Htiers & (k & Hk & Ek) & Hh & _ & _).
  assert (read_announce_list (metadata_dict s) = Ok (sp_tiers s)) as Hal.
  { unfold read_announce_list, metadata_dict. destruct (sp_tiers s) as [|tier tiers] eqn:Et; [done|].
    change (has_key _ (str "announce-list")) with true. cbv iota.
    change (get_val_list _ (str "announce-list")) with (@Ok (list BType) (map urls (tier :: tiers))).
    cbn [mbind result_bind]. rewrite (traverse_map _ _ id); [by rewrite map_id|].
    eapply Forall_impl; [exact Htiers|]. apply read_tier_urls. }
  unfold torrent_new. replace (length (encode (BDict (info_dict s))) =? 0)%nat with false.
  2:{ cbn [encode]. unfold enc_dict. by destruct (concat _). }
  cbn [throw_if mbind result_bind].
  assert (has_key (metadata_dict s) (str "announce") = true
    /\ get_val_string (metadata_dict s) (str "announce") = Ok (td_to_string (sp_tracker s))
    /\ has_key (metadata_dict s) (str "info") = true
    /\ get_val_dict (metadata_dict s) (str "info") = Ok (info_dict s)) as (-> & -> & -> & ->).
  { unfold metadata_dict. by destruct (sp_tiers s). }
  cbn [negb throw_if mbind result_bind]. rewrite extract_to_string by done. cbn [mbind result_bind]. rewrite Hal.
  assert (get_val_string (info_dict s) (str "name") = Ok (sp_name s)
    /\ get_val_integer (info_dict s) (str "piece length") = Ok (sp_piece_length s)
    /\ get_val_string (info_dict s) (str "pieces") = Ok (concat (sp_hashes s))) as (-> & -> & ->).
  { unfold info_dict, content_entry. by destruct (sp_content s). }
  pose proof (Z.pow_le_mono_r 2 14 k ltac:(lia) ltac:(lia)). pose proof (Z.pow_lt_mono_r 2 k 63).
  cbn [mbind result_bind]. rewrite Ek. assert (u64 (2 ^ k) = 2 ^ k) as -> by (apply Z.mod_small; lia). cbv zeta.
  rewrite is_power_of_two_pow by lia. cbn [negb throw_if mbind result_bind].
  rewrite (proj2 (Z.ltb_ge _ _)) by (cbn in *; lia). cbn [throw_if mbind result_bind]. rewrite Hsz. cbn [mbind result_bind].
  rewrite split_pieces_concat by done. unfold described. by rewrite Ek.
Qed.

Lemma layout_described `{Sha1} s : layout_total (file_layout (described s)) = total (sp_content s).
Proof.
  unfold file_layout, described, total, layout_total. cbn [is_multifile tf_files torrent_name total_size].
  destruct (sp_content s) as [n|fs]; [cbn; lia|]. cbn [sizes]. rewrite map_map.
  induction fs as [|f fs IH]; [done|]. cbn [map foldr snd f_length file_of] in *. by rewrite IH.
Qed.

(** C4: a .torrent file is read as the torrent it describes.  Take any description - a
    tracker and tiers of trackers, a name, a piece size, piece hashes, one file or several
    with their optional fields, the private flag - encode it as BEP 3 says, and append
    arbitrary bytes: opening and parsing that file succeeds and yields exactly the tracker
    lists, name, sizes, paths and hashes of the description, with the SHA-1 of the encoded
    info dictionary as the info hash; the files of the layout add up to the total size. *)
Theorem torrent_file_loads (SH : Sha1) s t :
  spec_ok s -> fits (torrent_file s ++ t) ->
  load_torrent (Some (torrent_file s ++ t)) = Ok (described s)
  /\ ih_bytes (tf_info_hash (described s)) = sha1 (encode (BDict (info_dict s)))
  /\ layout_total (file_layout (described s)) = total_size (described s).
Proof.
  intros Hs Hfit. split; [|split; [done|apply layout_described]].
  unfold load_torrent. cbn [parser_of_file mbind result_bind]. unfold torrent_file in *.
  rewrite (parse_torrent_info_bytes (metadata_dict s) (BDict (info_dict s)) t); [|by apply metadata_dict_wf| |done].
  - cbn [mbind result_bind]. by apply torrent_new_described.
  - unfold metadata_dict. by destruct (sp_tiers s).
Qed.

Definition sample_spec : TorrentSpec :=
  mkSpec (mkTracker UDP (str "tracker.example") 80 (str "/announce"))
    [[mkTracker HTTP (str "a.example") 8080 (str "/x")]; [mkTracker UDP (str "b.example") 6969 (str "/")]]
    (str "sample") 16384 [replicate 20 1; replicate 20 2] true
    (Multi [mkFileSpec 20000 [str "a"; str "b.txt"] (str "c0ffee00") [] (str "1700000000") [];
            mkFileSpec 5 [str "c.txt"] [] (str "md5") [] (str "sha1")]).

Lemma sample_tracker_ok td :
  td ∈ sp_tracker sample_spec :: concat (sp_tiers sample_spec) -> tracker_ok td.
Proof.
  revert td. apply Forall_forall. cbn. repeat (apply Forall_cons_2 || apply Forall_nil_2); unfold tracker_ok; cbn [protocol].
  all: split_and!; try (apply (bool_decide_unpack _); vm_compute; exact I); try (by eexists); set_solver.
Qed.

Lemma torrent_file_loads_witness :
  @load_torrent sample_sha1 (Some (torrent_file sample_spec ++ str "trailing")) = Ok (@described sample_sha1 sample_spec).
Proof.
  apply (torrent_file_loads sample_sha1 sample_spec (str "trailing")).
  - split; [|split; [|split; [|split; [|split]]]].
    + apply sample_tracker_ok. left.
    + repeat (apply Forall_cons_2 || apply Forall_nil_2); apply sample_tracker_ok; repeat (left || right).
    + exists 14. split; [lia|reflexivity].
    + apply (bool_decide_unpack _). vm_compute. exact I.
    + apply (bool_decide_unpack _). vm_compute. exact I.
    + vm_compute. reflexivity.
  - vm_compute. reflexivity.
Defined.

(** The private flag, with which a torrent asks that only its trackers be used (BEP 27), is
    read by nothing: it changes the info hash and nothing else, and is printed as "no". *)
Lemma private_flag_ignored `{Sha1} s p :
  let s' := mkSpec (sp_tracker s) (sp_tiers s) (sp_name s) (sp_piece_length s) (sp_hashes s) p (sp_content s) in
  let t := described s in
  described s' = mkTorrent (torrent_name t) (is_multifile t) (total_size t) (piece_size t) (tf_files t)
    (tf_info_hash (described s')) (pieces t) (announce_tracker t) (announce_list_trackers t)
  /\ is_private (described s') = false.
Proof. done. Qed.

Example print_private :
  match @load_torrent sample_sha1 (Some (torrent_file sample_spec)) with
  | Ok t => is_Some (find (str "Is private: no") (print t) 0)
  | Throw _ => False
  end.
Proof. vm_compute. by eexists. Qed.
