(* ===== verification/Json.v ===== *)
(** * Reading JSON
    (the reader the summaries of src/peer_wire/torrent_manager.cpp,
    src/peer_wire/session_manager.cpp and src/dht/dht_client.cpp are written for)

    What a program that follows RFC 8259 makes of a text: a lexer that is one pass over the
    bytes, a parser of the tokens, and the tokens of a value.  A number is kept as it is
    written.  Escapes by code point ([\u]) are not read; the client writes none. *)

From S2P Require Import Prelude CxxLib Utils.

Inductive json :=
  | JStr (s : bytes)
  | JNum (lexeme : bytes)
  | JBool (b : bool)
  | JNull
  | JArr (l : list json)
  | JObj (l : list (bytes * json)).

Inductive token := TSym (c : Z) | TStr (s : bytes) | TNum (lexeme : bytes) | TWord (w : bytes).

(** ** The lexer *)

(** Where it is, with what it has read of the token, last byte first. *)
Inductive mode := Plain | InStr (acc : bytes) | Esc (acc : bytes) | InNum (acc : bytes) | InWord (acc : bytes).

Definition ws (c : Z) : bool := (c =? 32) || (c =? 10) || (c =? 13) || (c =? 9).
Definition num_char (c : Z) : bool :=
  isdigit c || (c =? chr "-") || (c =? chr "+") || (c =? chr ".") || (c =? chr "E").
Definition sym_char (c : Z) : bool :=
  (c =? chr "{") || (c =? chr "}") || (c =? chr "[") || (c =? chr "]") || (c =? chr ",") || (c =? chr ":").

Definition unescape (c : Z) : option Z :=
  if (c =? BACKSLASH) || (c =? QUOTE) || (c =? chr "/") then Some c
  else if c =? chr "n" then Some 10
  else if c =? chr "r" then Some 13
  else if c =? chr "t" then Some 9
  else if c =? chr "b" then Some 8
  else if c =? chr "f" then Some 12
  else None.

Definition emit (t : token) (r : option (list token)) : option (list token) :=
  match r with Some l => Some (t :: l) | None => None end.

(** The token that ends where a byte does not belong to it. *)
Definition flush (m : mode) (r : option (list token)) : option (list token) :=
  match m with
  | InNum acc => emit (TNum (rev acc)) r
  | InWord acc => emit (TWord (rev acc)) r
  | _ => r
  end.

Fixpoint lex (m : mode) (s : bytes) {struct s} : option (list token) :=
  match s with
  | [] => match m with InStr _ | Esc _ => None | _ => flush m (Some []) end
  | c :: s' =>
      match m with
      | InStr acc =>
          if c =? QUOTE then emit (TStr (rev acc)) (lex Plain s')
          else if c <? 32 then None
          else if c =? BACKSLASH then lex (Esc acc) s'
          else lex (InStr (c :: acc)) s'
      | Esc acc => match unescape c with Some d => lex (InStr (d :: acc)) s' | None => None end
      | InNum acc =>
          if num_char c || (c =? chr "e") then lex (InNum (c :: acc)) s'
          else flush m (if ws c then lex Plain s' else if sym_char c then emit (TSym c) (lex Plain s') else None)
      | InWord acc =>
          if islower c then lex (InWord (c :: acc)) s'
          else flush m (if ws c then lex Plain s' else if sym_char c then emit (TSym c) (lex Plain s') else None)
      | Plain =>
          if ws c then lex Plain s'
          else if sym_char c then emit (TSym c) (lex Plain s')
          else if c =? QUOTE then lex (InStr []) s'
          else if num_char c then lex (InNum [c]) s'
          else if islower c then lex (InWord [c]) s'
          else None
      end
  end.

(** ** The parser *)

(** [-? (0 | [1-9][0-9]* ) (. [0-9]+)? ([eE] [+-]? [0-9]+)?] *)
Definition all_digits (s : bytes) : bool := forallb isdigit s && negb (bool_decide (s = [])).

Definition valid_exponent (s : bytes) : bool :=
  match s with
  | [] => true
  | e :: s' =>
      ((e =? chr "e") || (e =? chr "E")) &&
      match s' with
      | c :: s'' => if (c =? chr "+") || (c =? chr "-") then all_digits s'' else all_digits s'
      | [] => false
      end
  end.

Definition valid_fraction (s : bytes) : bool :=
  match s with
  | c :: s' =>
      if c =? chr "." then negb (bool_decide (span isdigit s' = [])) && valid_exponent (skip isdigit s')
      else valid_exponent s
  | [] => true
  end.

Definition valid_number (s : bytes) : bool :=
  let s := match s with c :: s' => if c =? chr "-" then s' else s | [] => [] end in
  match span isdigit s with
  | [] => false
  | d :: ds => (negb (d =? chr "0") || bool_decide (ds = [])) && valid_fraction (skip isdigit s)
  end.

Section sequence.
Context {A : Type} (p : list token -> option (A * list token)) (close : Z).

(** One or more elements and the closing bracket; [n] bounds their number. *)
Fixpoint items (n : nat) (ts : list token) : option (list A * list token) :=
  match n with
  | O => None
  | S n' =>
      '(a, r) ← p ts;
      match r with
      | TSym c :: r' =>
          if c =? close then Some ([a], r')
          else if c =? chr "," then '(l, r'') ← items n' r'; Some (a :: l, r'')
          else None
      | _ => None
      end
  end.

Definition sequence (ts : list token) : option (list A * list token) :=
  match ts with
  | TSym c :: r => if c =? close then Some ([], r) else items (length ts) ts
  | _ => items (length ts) ts
  end.
End sequence.

Definition member (v : list token -> option (json * list token)) (ts : list token)
  : option ((bytes * json) * list token) :=
  match ts with
  | TStr k :: TSym c :: r => if c =? chr ":" then '(x, r') ← v r; Some ((k, x), r') else None
  | _ => None
  end.

Definition word (w : bytes) : option json :=
  if bool_decide (w = str "true") then Some (JBool true)
  else if bool_decide (w = str "false") then Some (JBool false)
  else if bool_decide (w = str "null") then Some JNull
  else None.

(** [fuel] bounds the nesting. *)
Fixpoint value (fuel : nat) (ts : list token) : option (json * list token) :=
  match fuel with
  | O => None
  | S f =>
      match ts with
      | TStr s :: r => Some (JStr s, r)
      | TNum n :: r => if valid_number n then Some (JNum n, r) else None
      | TWord w :: r => j ← word w; Some (j, r)
      | TSym c :: r =>
          if c =? chr "[" then '(l, r') ← sequence (value f) (chr "]") r; Some (JArr l, r')
          else if c =? chr "{" then '(l, r') ← sequence (member (value f)) (chr "}") r; Some (JObj l, r')
          else None
      | [] => None
      end
  end.

Definition read_json (s : bytes) : option json :=
  ts ← lex Plain s;
  match value (S (length ts)) ts with
  | Some (j, []) => Some j
  | _ => None
  end.

(** ** The tokens of a value *)

Definition comma : token := TSym (chr ",").

Fixpoint tokens (j : json) : list token :=
  match j with
  | JStr s => [TStr s]
  | JNum n => [TNum n]
  | JBool b => [TWord (str (if b then "true" else "false"))]
  | JNull => [TWord (str "null")]
  | JArr l =>
      TSym (chr "[") ::
      match l with
      | [] => []
      | x :: l' => tokens x ++ concat (map (fun y => comma :: tokens y) l')
      end ++ [TSym (chr "]")]
  | JObj l =>
      TSym (chr "{") ::
      match l with
      | [] => []
      | (k, x) :: l' =>
          (TStr k :: TSym (chr ":") :: tokens x)
          ++ concat (map (fun '(k, y) => comma :: TStr k :: TSym (chr ":") :: tokens y) l')
      end ++ [TSym (chr "}")]
  end.

Fixpoint depth (j : json) : nat :=
  match j with
  | JArr l => S (foldr (fun x n => max (depth x) n) O l)
  | JObj l => S (foldr (fun x n => max (depth (snd x)) n) O l)
  | _ => 1%nat
  end.

(** Every number in it is one of JSON. *)
Fixpoint numbers_valid (j : json) : bool :=
  match j with
  | JNum n => valid_number n
  | JArr l => forallb numbers_valid l
  | JObj l => forallb (fun x => numbers_valid (snd x)) l
  | _ => true
  end.

Section json_ind.
Variable P : json -> Prop.
Hypothesis HStr : forall s, P (JStr s).
Hypothesis HNum : forall n, P (JNum n).
Hypothesis HBool : forall b, P (JBool b).
Hypothesis HNull : P JNull.
Hypothesis HArr : forall l, Forall P l -> P (JArr l).
Hypothesis HObj : forall l, Forall (fun x => P (snd x)) l -> P (JObj l).

(** Induction through the lists. *)
Fixpoint json_nested_ind (j : json) : P j :=
  match j with
  | JStr s => HStr s
  | JNum n => HNum n
  | JBool b => HBool b
  | JNull => HNull
  | JArr l => HArr l ((fix go l : Forall P l :=
      match l with [] => Forall_nil_2 _ | x :: l' => Forall_cons_2 _ _ _ (json_nested_ind x) (go l') end) l)
  | JObj l => HObj l ((fix go l : Forall (fun x => P (snd x)) l :=
      match l with [] => Forall_nil_2 _ | x :: l' => Forall_cons_2 _ _ _ (json_nested_ind (snd x)) (go l') end) l)
  end.
End json_ind.

(** Elements whose tokens [p] reads, with commas between them, are read in order. *)
Lemma items_tokens {A} (p : list token -> option (A * list token)) (close : Z) (toks : A -> list token) l : forall n x r,
  close <> chr "," ->
  (forall y r', y ∈ x :: l -> p (toks y ++ r') = Some (y, r')) ->
  (length l < n)%nat ->
  items p close n (toks x ++ concat (map (fun y => comma :: toks y) l) ++ TSym close :: r) = Some (x :: l, r).
Proof.
  induction l as [|y l IH]; intros n x r Hc Hp Hn; (destruct n as [|n]; [cbn in Hn; lia|]); cbn [items map concat app].
  - rewrite Hp by left. cbn. by rewrite Z.eqb_refl.
  - rewrite <- app_assoc. rewrite Hp by left. cbn [mbind option_bind app comma].
    destruct (Z.eqb_spec (chr ",") close); [congruence|]. rewrite Z.eqb_refl.
    rewrite IH; [done|done| |cbn in Hn; lia]. intros z r' Hz. apply Hp. by right.
Qed.

Lemma sequence_tokens {A} (p : list token -> option (A * list token)) (close : Z) (toks : A -> list token) l r :
  close <> chr "," ->
  (forall y r', y ∈ l -> p (toks y ++ r') = Some (y, r')) ->
  (forall y, hd (TSym close) (toks y) <> TSym close) ->
  sequence p close
    (match l with [] => [] | x :: l' => toks x ++ concat (map (fun y => comma :: toks y) l') end ++ TSym close :: r)
  = Some (l, r).
Proof.
  intros Hc Hp Hhd. destruct l as [|x l]; cbn [app].
  - unfold sequence. by rewrite Z.eqb_refl.
  - rewrite <- app_assoc. set (ts := toks x ++ _).
    assert (items p close (length ts) ts = Some (x :: l, r)) as Hi.
    { apply items_tokens; [done|done|]. unfold ts. rewrite !length_app. cbn [length].
      assert (length l <= length (concat (map (fun y => comma :: toks y) l)))%nat; [|lia].
      clear. induction l as [|y l IH]; cbn; [lia|]. rewrite length_app. lia. }
    unfold sequence. destruct ts as [|[c| | |] ts'] eqn:E; try done.
    destruct (Z.eqb_spec c close) as [->|]; [|done]. exfalso. apply (Hhd x).
    unfold ts in E. destruct (toks x); [done|]. by injection E as ->.
Qed.

Lemma in_foldr_max {A} (f : A -> nat) l x : x ∈ l -> (f x <= foldr (fun y n => max (f y) n) O l)%nat.
Proof. induction 1; cbn; lia. Qed.

Lemma tokens_hd j c : c = chr "]" \/ c = chr "}" -> hd (TSym c) (tokens j) <> TSym c.
Proof. intros H. destruct j; cbn; try done; intros [= <-]; by destruct H. Qed.

Lemma value_arr f ts :
  value (S f) (TSym (chr "[") :: ts) = ('(l, r) ← sequence (value f) (chr "]") ts; Some (JArr l, r)).
Proof. done. Qed.

Lemma value_obj f ts :
  value (S f) (TSym (chr "{") :: ts) = ('(l, r) ← sequence (member (value f)) (chr "}") ts; Some (JObj l, r)).
Proof. done. Qed.

(** The parser reads the tokens of a value back, whatever follows. *)
Lemma value_tokens j : numbers_valid j = true -> forall fuel r,
  (depth j <= fuel)%nat -> value fuel (tokens j ++ r) = Some (j, r).
Proof.
  induction j as [s|n|b| |l IH|l IH] using json_nested_ind; intros Hv [|f] r Hf; cbn [depth] in Hf; try lia.
  - done.
  - cbn in Hv |- *. by rewrite Hv.
  - by destruct b.
  - done.
  - change (tokens (JArr l) ++ r) with (TSym (chr "[") :: (match l with [] => [] | x :: l' =>
      tokens x ++ concat (map (fun y => comma :: tokens y) l') end ++ [TSym (chr "]")]) ++ r).
    rewrite value_arr, <- app_assoc. change ([TSym (chr "]")] ++ r) with (TSym (chr "]") :: r).
    rewrite (sequence_tokens (value f) (chr "]") tokens l r); [done|done| |intros y; by apply tokens_hd; left].
    intros y r' Hy. rewrite Forall_forall in IH. apply IH; [done| |].
    + cbn in Hv. rewrite forallb_forall in Hv. apply Hv. by apply list_elem_of_In.
    + pose proof (in_foldr_max depth l y Hy). lia.
  - change (tokens (JObj l) ++ r) with (TSym (chr "{") :: (match l with [] => [] | (k, x) :: l' =>
      (TStr k :: TSym (chr ":") :: tokens x)
      ++ concat (map (fun '(k, y) => comma :: TStr k :: TSym (chr ":") :: tokens y) l') end ++ [TSym (chr "}")]) ++ r).
    rewrite value_obj, <- app_assoc. change ([TSym (chr "}")] ++ r) with (TSym (chr "}") :: r).
    set (toks := fun y : bytes * json => TStr (fst y) :: TSym (chr ":") :: tokens (snd y)).
    assert (match l with [] => [] | (k, x) :: l' => (TStr k :: TSym (chr ":") :: tokens x)
          ++ concat (map (fun '(k, y) => comma :: TStr k :: TSym (chr ":") :: tokens y) l') end
      = match l with [] => [] | x :: l' => toks x ++ concat (map (fun y => comma :: toks y) l') end) as ->.
    { destruct l as [|[k x] l']; [done|]. do 2 f_equal. apply map_ext. by intros [k' y]. }
    rewrite (sequence_tokens (member (value f)) (chr "}") toks l r); [done|done| |done].
    intros [k y] r' Hy. unfold toks. cbn [fst snd app member]. change (chr ":" =? chr ":") with true. cbv iota.
    rewrite Forall_forall in IH. rewrite (IH (k, y) Hy); [done| |].
    + cbn in Hv. rewrite forallb_forall in Hv. apply (Hv (k, y)). by apply list_elem_of_In.
    + pose proof (in_foldr_max (fun x => depth (snd x)) l (k, y) Hy) as Hd. cbn in Hd |- *. lia.
Qed.

Lemma depth_tokens j : (depth j <= length (tokens j))%nat.
Proof.
  assert (forall (A : Type) (f : A -> nat) (g : A -> list token) (l : list A),
    Forall (fun x => f x <= length (g x))%nat l ->
    (foldr (fun x n => max (f x) n) O l <= length (concat (map (fun y => comma :: g y) l)))%nat) as Hmax.
  { intros A f g l Hl. induction Hl as [|x l Hx _ IH]; cbn; [lia|]. rewrite length_app. lia. }
  induction j as [s|n|b| |l IH|l IH] using json_nested_ind; try (cbn; lia).
  - cbn [depth tokens length]. rewrite length_app. pose proof (Hmax json depth tokens l IH) as H. destruct l as [|x l]; [cbn; lia|].
    cbn [map concat length] in H. rewrite !length_app in *. cbn [length app] in *. lia.
  - cbn [depth tokens length]. rewrite length_app.
    pose proof (Hmax _ (fun x => depth (snd x)) (fun x => TStr (fst x) :: TSym (chr ":") :: tokens (snd x)) l) as H.
    destruct l as [|[k x] l]; [cbn; lia|].
    assert (map (fun '(k, y) => comma :: TStr k :: TSym (chr ":") :: tokens y) l
      = map (fun y : bytes * json => comma :: TStr (fst y) :: TSym (chr ":") :: tokens (snd y)) l) as ->
      by (apply map_ext; by intros [? ?]).
    specialize (H ltac:(eapply Forall_impl; [exact IH|cbn; lia])).
    cbn [map concat length fst snd] in *. rewrite !length_app in *. cbn [length app] in *. lia.
Qed.

(** A text with the tokens of a value reads as the value. *)
Lemma read_json_tokens s j : lex Plain s = Some (tokens j) -> numbers_valid j = true -> read_json s = Some j.
Proof.
  intros Hs Hv. unfold read_json. rewrite Hs. cbn [mbind option_bind].
  pose proof (value_tokens j Hv (S (length (tokens j))) []) as H. rewrite app_nil_r in H.
  rewrite H; [done|]. pose proof (depth_tokens j). lia.
Qed.

(** ** Texts and their tokens *)

Definition emits (ts : list token) (r : option (list token)) : option (list token) :=
  match r with Some l => Some (ts ++ l) | None => None end.

Lemma emits_emit t ts r : emit t (emits ts r) = emits (t :: ts) r.
Proof. by destruct r. Qed.
Lemma emits_app ts ts' r : emits ts (emits ts' r) = emits (ts ++ ts') r.
Proof. destruct r; [|done]. cbn. by rewrite app_assoc. Qed.
Lemma emits_nil r : emits [] r = r.
Proof. by destruct r. Qed.
Lemma emit_emits t r : emit t r = emits [t] r.
Proof. done. Qed.

(** [s] has the tokens [ts] whatever comes next. *)
Definition Lexes (s : bytes) (ts : list token) : Prop :=
  forall rest, lex Plain (s ++ rest) = emits ts (lex Plain rest).

Lemma Lexes_nil : Lexes [] [].
Proof. intros rest. by rewrite emits_nil. Qed.

Lemma Lexes_app s s' ts ts' : Lexes s ts -> Lexes s' ts' -> Lexes (s ++ s') (ts ++ ts').
Proof. intros H H' rest. by rewrite <- app_assoc, H, H', emits_app. Qed.

Lemma Lexes_ws s : Forall (fun c => ws c = true) s -> Lexes s [].
Proof.
  intros Hs rest. rewrite emits_nil. induction Hs as [|c s Hc _ IH]; [done|].
  cbn [app lex]. by rewrite Hc.
Qed.

Lemma Lexes_sym c : sym_char c = true -> ws c = false -> Lexes [c] [TSym c].
Proof. intros H1 H2 rest. cbn [app lex]. by rewrite H1, H2. Qed.

Lemma Lexes_all s ts : Lexes s ts -> lex Plain s = Some ts.
Proof. intros H. specialize (H []). rewrite app_nil_r in H. rewrite H. cbn. by rewrite app_nil_r. Qed.

Lemma Lexes_concat {A} (f : A -> bytes) (g : A -> list token) l :
  (forall x, x ∈ l -> Lexes (f x) (g x)) -> Lexes (concat (map f l)) (concat (map g l)).
Proof.
  induction l as [|x l IH]; intros H; [apply Lexes_nil|].
  cbn [map concat]. apply Lexes_app; [apply H; left|apply IH; intros y Hy; apply H; by right].
Qed.

(** A string between quotes. *)
Definition quoted (s : bytes) : bytes := QUOTE :: s ++ [QUOTE].

Lemma lex_string s : forall acc rest r,
  read_json_string s = Some (r, rest) -> lex (InStr acc) s = emit (TStr (rev acc ++ r)) (lex Plain rest).
Proof.
  induction s as [s IH] using (well_founded_ind (Wf_nat.well_founded_ltof _ (@length Z))).
  intros acc rest r. destruct s as [|c s]; [done|]. cbn [read_json_string lex].
  destruct (c =? QUOTE) eqn:Eq; [intros [= <- <-]; by rewrite app_nil_r|].
  destruct (c <? 32); [done|]. destruct (c =? BACKSLASH) eqn:Eb.
  - destruct s as [|e s]; [done|]. intros H. cbn [lex].
    destruct (read_json_string s) as [[r' rest']|] eqn:Er; [|done]. cbn [mbind option_bind] in H.
    assert (exists d, unescape e = Some d /\ r = d :: r' /\ rest = rest') as (d & -> & -> & ->).
    { unfold unescape. repeat (case_match; b2p; try subst; try (simplify_eq; eauto; fail)). }
    rewrite (IH s) with (rest := rest') (r := r'); [|unfold Wf_nat.ltof; cbn; lia|done].
    cbn [rev]. by rewrite <- app_assoc.
  - destruct (read_json_string s) as [[r' rest']|] eqn:Er; [|done]. cbn [mbind option_bind].
    intros [= <- <-]. rewrite (IH s) with (rest := rest') (r := r'); [|unfold Wf_nat.ltof; cbn; lia|done].
    cbn [rev]. by rewrite <- app_assoc.
Qed.

(** What [json_escape] writes between quotes is one token. *)
Lemma Lexes_escaped s : Forall json_safe s -> Lexes (quoted (json_escape s)) [TStr s].
Proof.
  intros Hs rest. unfold quoted. cbn [app]. rewrite <- app_assoc. cbn [app].
  change (lex Plain (QUOTE :: ?x)) with (lex (InStr []) x).
  by rewrite (lex_string _ [] rest s) by (by apply json_escape_roundtrip).
Qed.

(** A control character that [json_escape] does not know ends the lexer. *)
Lemma lex_control s t c acc rest :
  Forall json_safe s -> 0 <= c < 32 -> ~ json_safe c ->
  lex (InStr acc) (json_escape (s ++ c :: t) ++ rest) = None.
Proof.
  intros Hs Hc Hn.
  assert (escape_char c = [c]) as Ec.
  { unfold escape_char, json_safe, BACKSLASH, QUOTE in *. rewrite !(proj2 (Z.eqb_neq _ _)) by lia. done. }
  unfold json_escape. rewrite map_app, concat_app. cbn [map concat]. rewrite Ec, <- !app_assoc. cbn [app].
  generalize (concat (map escape_char t) ++ rest) as u. intros u. revert acc.
  induction Hs as [|x s Hx _ IH]; intros acc.
  { cbn [map concat app lex]. unfold QUOTE. rewrite (proj2 (Z.eqb_neq _ _)) by lia.
    by rewrite (proj2 (Z.ltb_lt _ _)) by lia. }
  cbn [map concat]. rewrite <- app_assoc.
  revert IH. generalize (concat (map escape_char s) ++ c :: u) as v. intros v IH.
  unfold escape_char. repeat case_if; b2p; subst; try apply IH.
  cbn [app lex]. destruct (x =? QUOTE) eqn:E1; [b2p; lia|].
  destruct (x <? 32) eqn:E2; [done|]. destruct (x =? BACKSLASH) eqn:E3; [b2p; lia|]. apply IH.
Qed.

Lemma unsafe_split s :
  Forall (Z.le 0) s -> ~ Forall json_safe s ->
  exists a c t, s = a ++ c :: t /\ Forall json_safe a /\ 0 <= c < 32 /\ ~ json_safe c.
Proof.
  induction 1 as [|c s Hc _ IH]; intros Hn; [by destruct Hn|]. destruct (decide (json_safe c)) as [Hs|Hs].
  - destruct IH as (a & d & t & -> & Ha & Hd); [by intros H; apply Hn; constructor|].
    exists (c :: a), d, t. split; [done|]. split; [by constructor|done].
  - exists [], c, s. split; [done|]. split; [constructor|]. split; [|done]. unfold json_safe in Hs. lia.
Qed.

(** A text with such a string in it is not JSON. *)
Lemma read_unsafe before ts s rest :
  Lexes before ts -> Forall (Z.le 0) s -> ~ Forall json_safe s ->
  read_json (before ++ quoted (json_escape s) ++ rest) = None.
Proof.
  intros Hb H0 Hs. destruct (unsafe_split s H0 Hs) as (a & c & t & -> & Ha & Hc & Hn).
  unfold read_json. rewrite Hb. unfold quoted. cbn [app].
  change (lex Plain (QUOTE :: ?x)) with (lex (InStr []) x). rewrite <- app_assoc. by rewrite lex_control.
Qed.

(** A string of plain characters needs no escapes. *)
Definition plain_char (c : Z) : Prop := 32 <= c /\ c <> QUOTE /\ c <> BACKSLASH.

Lemma json_escape_plain s : Forall plain_char s -> json_escape s = s.
Proof.
  induction 1 as [|c s (H1 & H2 & H3) _ IH]; [done|].
  change (json_escape (c :: s)) with (escape_char c ++ json_escape s). rewrite IH.
  unfold escape_char. rewrite !(proj2 (Z.eqb_neq _ _)) by lia. done.
Qed.

Lemma plain_safe s : Forall plain_char s -> Forall json_safe s.
Proof. intros H. eapply Forall_impl; [exact H|]. intros c (Hc & _). by left. Qed.

Lemma Lexes_plain s : Forall plain_char s -> Lexes (quoted s) [TStr s].
Proof. intros H. rewrite <- (json_escape_plain s) at 1 by done. by apply Lexes_escaped, plain_safe. Qed.

(** A number, up to a byte that is not part of one. *)
Definition ends_number (c : Z) : bool := (ws c || sym_char c) && negb (num_char c || (c =? chr "e")).

Lemma lex_num s : forall acc c rest,
  Forall (fun d => num_char d = true) s -> ends_number c = true ->
  lex (InNum acc) (s ++ c :: rest) = emit (TNum (rev acc ++ s)) (lex Plain (c :: rest)).
Proof.
  intros acc c rest Hs Hc. revert acc. induction Hs as [|d s Hd _ IH]; intros acc; cbn [app lex].
  - apply andb_true_iff in Hc as [H1 H2]. apply negb_true_iff in H2. rewrite H2, app_nil_r.
    cbn [flush]. f_equal. apply orb_true_iff in H1. destruct (ws c); [done|]. destruct (sym_char c); [done|].
    by destruct H1.
  - rewrite Hd. cbn [orb]. rewrite IH. cbn [rev]. by rewrite <- app_assoc.
Qed.

(** The next byte. *)
Definition hd_ok (p : Z -> bool) (s : bytes) : bool := match s with c :: _ => p c | [] => false end.

Lemma num_char_only d : num_char d = true -> ws d = false /\ sym_char d = false /\ (d =? QUOTE) = false.
Proof.
  unfold num_char, isdigit, ws, sym_char, QUOTE. change (chr "-") with 45. change (chr "+") with 43.
  change (chr ".") with 46. change (chr "E") with 69. change (chr "{") with 123. change (chr "}") with 125.
  change (chr "[") with 91. change (chr "]") with 93. change (chr ",") with 44. change (chr ":") with 58.
  intros H. b2p. rewrite !orb_false_iff, !Z.eqb_neq. lia.
Qed.

Lemma Lexes_number n s ts :
  n <> [] -> Forall (fun c => num_char c = true) n -> hd_ok ends_number s = true -> Lexes s ts ->
  Lexes (n ++ s) (TNum n :: ts).
Proof.
  intros Hn Hd Hc Hs rest. destruct n as [|d n]; [done|]. destruct s as [|c s]; [done|].
  apply Forall_cons in Hd as [Hd Hf]. destruct (num_char_only d Hd) as (E1 & E2 & E3).
  rewrite <- app_assoc. cbn [app lex]. rewrite E1, E2, E3, Hd, lex_num by done.
  specialize (Hs rest). cbn [app] in Hs. cbn [rev app]. rewrite Hs. apply emits_emit.
Qed.

(** *** Numbers and layout *)

Lemma dec_loop_hd fuel n acc :
  0 < n -> (Z.to_nat (Z.log2 n) < fuel)%nat -> exists d s, dec_loop fuel n acc = d :: s /\ d <> chr "0".
Proof.
  revert n acc. induction fuel as [|f IH]; intros n acc Hn Hf; [lia|]. cbn [dec_loop].
  destruct (n <? 10) eqn:E; b2p.
  - eexists _, _. split; [reflexivity|]. change (chr "0") with 48. lia.
  - assert (0 < n / 10) by (apply Z.div_str_pos; lia). apply IH; [done|].
    pose proof (Z.log2_nonneg (n / 10)). assert (Z.log2 (n / 10) < Z.log2 n); [|lia].
    assert (Z.log2 (n / 10) <= Z.log2 (n / 2)) by (apply Z.log2_le_mono, Z.div_le_compat_l; lia).
    assert (Z.log2 (n / 2) = Z.log2 n - 1); [|lia].
    change 2 with (2 ^ 1) at 1. rewrite <- Z.shiftr_div_pow2, Z.log2_shiftr by lia.
    assert (1 <= Z.log2 n) by (apply Z.log2_le_pow2; lia). lia.
Qed.

Lemma skip_all p s : Forall (fun c => p c = true) s -> skip p s = [].
Proof. induction 1 as [|c s Hc _ IH]; [done|]. cbn. by rewrite Hc, IH. Qed.

(** [std::to_string] of a natural number is a JSON number. *)
Lemma valid_to_string n : 0 <= n -> valid_number (to_string n) = true.
Proof.
  intros Hn. destruct (Z.eq_dec n 0) as [->|]; [reflexivity|].
  destruct (to_string_digits n Hn) as (_ & Hd & _).
  assert (exists d s, to_string n = d :: s /\ d <> chr "0") as (d & s & E & Hd0).
  { unfold to_string. rewrite (proj2 (Z.ltb_ge n 0)) by lia. apply dec_loop_hd; [lia|apply dec_fuel_enough]. }
  rewrite E in *. unfold valid_number. apply Forall_cons in Hd as [Hd Hs].
  destruct (d =? chr "-") eqn:Em; [b2p; subst; done|].
  rewrite span_all, skip_all by (by constructor). rewrite (proj2 (Z.eqb_neq _ _)) by done. done.
Qed.

Lemma Lexes_to_string n s ts :
  0 <= n -> hd_ok ends_number s = true -> Lexes s ts -> Lexes (to_string n ++ s) (TNum (to_string n) :: ts).
Proof.
  intros Hn. destruct (to_string_digits n Hn) as (_ & Hd & Hne). apply Lexes_number; [done|].
  eapply Forall_impl; [exact Hd|]. intros x Hx. unfold num_char. by rewrite Hx.
Qed.

(** [(b ? "true" : "false")] *)
Definition bool_text (b : bool) : bytes := str (if b then "true" else "false").

Definition ends_word (c : Z) : bool := negb (islower c) && (ws c || sym_char c).

Lemma Lexes_bool (b : bool) s ts :
  hd_ok ends_word s = true -> Lexes s ts -> Lexes (bool_text b ++ s) (TWord (bool_text b) :: ts).
Proof.
  intros Hc Hs rest. destruct s as [|c s]; [done|]. specialize (Hs rest). rewrite <- emits_emit, <- Hs.
  apply andb_true_iff in Hc as [H1 H2]. apply negb_true_iff in H1. rewrite <- app_assoc.
  destruct b; cbn -[islower ws sym_char]; rewrite H1; cbn [flush]; (f_equal; destruct (ws c); [done|]; by destruct (sym_char c)).
Qed.

(** The members of an object, one to a line. *)
Definition NL : bytes := [10].
Definition key (k : string) : bytes := quoted (str k) ++ str ": ".

Definition plain_text (k : string) : bool :=
  forallb (fun c => (32 <=? c) && negb (c =? QUOTE) && negb (c =? BACKSLASH)) (str k).

Lemma plain_str k : plain_text k = true -> Forall plain_char (str k).
Proof.
  intros Hk. apply Forall_forall. intros c Hc. unfold plain_text in Hk. rewrite forallb_forall in Hk.
  specialize (Hk c ltac:(by apply list_elem_of_In)). b2p. unfold plain_char. lia.
Qed.

Lemma plain_to_string n : Forall plain_char (to_string n).
Proof.
  assert (forall m, 0 <= m -> Forall plain_char (dec_loop (dec_fuel m) m [])) as Hd.
  { intros m Hm. destruct (dec_loop_spec (dec_fuel m) m Hm (dec_fuel_enough m)) as (_ & H & _).
    eapply Forall_impl; [exact H|]. intros c Hc. unfold isdigit in Hc. b2p. unfold plain_char, QUOTE, BACKSLASH. lia. }
  unfold to_string. destruct (n <? 0) eqn:E; b2p; [constructor; [by unfold plain_char|]|]; apply Hd; lia.
Qed.

Lemma plain_app s t : Forall plain_char s -> Forall plain_char t -> Forall plain_char (s ++ t).
Proof. intros. by apply Forall_app. Qed.

Lemma Lexes_key k : plain_text k = true -> Lexes (key k) [TStr (str k); TSym (chr ":")].
Proof.
  intros Hk. unfold key. change [TStr (str k); TSym (chr ":")] with ([TStr (str k)] ++ [TSym (chr ":")]).
  apply Lexes_app; [by apply Lexes_plain, plain_str|].
  change (str ": ") with ([chr ":"] ++ [32]). change [TSym (chr ":")] with ([TSym (chr ":")] ++ []).
  apply Lexes_app; [by apply Lexes_sym|]. apply Lexes_ws. by repeat constructor.
Qed.

Lemma Lexes_eq s ts ts' : Lexes s ts -> ts = ts' -> Lexes s ts'.
Proof. by intros H <-. Qed.

(** Goes through a text from left to right. *)
Ltac lexes :=
  lazymatch goal with
  | |- Lexes [] _ => apply Lexes_nil
  | |- Lexes NL _ => apply (Lexes_ws NL); by repeat constructor
  | |- Lexes (key _ ++ _) _ => apply Lexes_app; [apply Lexes_key; reflexivity|lexes]
  | |- Lexes (quoted (json_escape _) ++ _) _ => apply Lexes_app; [apply Lexes_escaped|lexes]
  | |- Lexes (quoted _ ++ _) _ => apply Lexes_app; [apply Lexes_plain|lexes]
  | |- Lexes (to_string _ ++ _) _ => apply Lexes_to_string; [|try reflexivity|lexes]
  | |- Lexes (bool_text _ ++ _) _ => apply Lexes_bool; [try reflexivity|lexes]
  | |- Lexes (NL ++ _) _ => apply (Lexes_app NL _ []); [by apply Lexes_ws; repeat constructor|lexes]
  | |- Lexes (_ ++ _) _ =>
      first [eapply (Lexes_app _ _ [_]); [apply Lexes_sym; reflexivity|lexes]
            |eapply (Lexes_app _ _ []); [by apply Lexes_ws; repeat constructor|lexes]
            |idtac]
  | |- _ => idtac
  end.

Create HintDb texts.
#[export] Hint Resolve plain_app plain_to_string plain_safe : texts.
#[export] Hint Extern 1 (Forall plain_char (str _)) => apply plain_str; reflexivity : texts.
