(* ===== verification/DiskWriter.v ===== *)
(** * Pieces on disk (inc/peer_wire/disk_writer.h, src/peer_wire/disk_writer.cpp)

    The bytes of a torrent laid out over its output files.  The file system is a map
    from files to contents.  Which file a path string leads to ([.] and [..], links,
    letter case) is the system's [file_at], so that two path strings may well be one
    file; [DiskEnv] also says which calls fail, and what a failed write leaves behind.
    Offsets and sizes are [uint64_t] with their wrap-around.

    A call of [write_piece] or [read_piece] is one step.  That is what the per-file
    mutexes are for: a call takes those of [file_indices_for_piece] before it touches
    any file, and it reads and changes no other file ([write_piece_touches],
    [read_piece_depends]), so calls that are at work at the same time have no file in
    common. *)

From S2P Require Import Prelude CxxLib Hash Bencode TorrentFile Utils.

Record FileEntry := mkFileEntry { rel_path : bytes; fe_length : Z; fe_offset : Z }.

Record DiskWriter := mkDisk {
  m_output_dir : bytes; m_piece_size : Z; m_total_size : Z; m_files : list FileEntry }.

(** The state calls change: the contents of files and [m_files_preallocated]. *)
Record Disk := mkDiskState { d_files : gmap bytes bytes; m_files_preallocated : bool }.

Class DiskEnv := mkDiskEnv {
  file_at : bytes -> bytes;                   (* the file a path leads to *)
  can_make : bytes -> bool;                   (* create_directories succeeds *)
  can_create : bytes -> bool;                 (* the truncating stream opens *)
  can_extend : bytes -> bool;                 (* its seek and write succeed *)
  can_open : bytes -> bool;                   (* an existing file opens *)
  write_fault : bytes -> option (bytes -> bytes); (* a failing write's effect *)
}.

(** The layout loop of the constructor. *)
Fixpoint entries_from (running_offset : Z) (layout : list (bytes * Z)) : list FileEntry * Z :=
  match layout with
  | [] => ([], running_offset)
  | (path, len) :: layout' =>
      let '(es, total) := entries_from (u64 (running_offset + len)) layout' in
      (mkFileEntry path len running_offset :: es, total)
  end.

Definition disk_writer_new (t : TorrentFile) (output_dir : bytes) : result DiskWriter :=
  _ ← throw_if (piece_size t =? 0) (RuntimeError "Invalid torrent piece size: 0");
  _ ← throw_if (total_size t =? 0) (RuntimeError "Invalid torrent total size: 0");
  let '(es, running_offset) := entries_from 0 (file_layout t) in
  _ ← throw_if (length es =? 0)%nat (RuntimeError "Torrent file layout is empty");
  _ ← throw_if (negb (running_offset =? total_size t)) (RuntimeError "Torrent file layout size mismatch");
  Ok (mkDisk output_dir (piece_size t) (total_size t) es).

Definition absolute_path (dw : DiskWriter) (file : FileEntry) : bytes :=
  path_append (m_output_dir dw) (rel_path file).

(** [fs::path::parent_path]: without the last name and the separators before it, unless
    these are the root. *)
Fixpoint drop_while_end (p : Z -> bool) (s : bytes) : bytes :=
  match s with
  | [] => []
  | c :: s' => match drop_while_end p s' with
               | [] => if p c then [] else [c]
               | r => c :: r
               end
  end.

Definition is_separator (c : Z) : bool := c =? chr "/".

Definition parent_path (p : bytes) : bytes :=
  let dir := drop_while_end (fun c => negb (is_separator c)) p in
  match drop_while_end is_separator dir with
  | [] => dir
  | r => r
  end.

Definition piece_global_offset (dw : DiskWriter) (index : Z) : Z := u64 (index * m_piece_size dw).

Definition disk_piece_length (dw : DiskWriter) (index : Z) : result Z :=
  let beg := piece_global_offset dw index in
  _ ← throw_if (m_total_size dw <=? beg) (RuntimeError "Piece index out of range for disk I/O");
  let end_ := Z.min (u64 (beg + m_piece_size dw)) (m_total_size dw) in
  Ok (u32 (u64 (end_ - beg))).

Definition overlaps (beg end_ : Z) (f : FileEntry) : bool :=
  negb ((end_ <=? fe_offset f) || (u64 (fe_offset f + fe_length f) <=? beg)).

(** [file_indices_for_piece]: the loop from index [i] on. *)
Fixpoint indices_from (beg end_ : Z) (i : nat) (fs : list FileEntry) : list nat :=
  match fs with
  | [] => []
  | f :: fs' => if overlaps beg end_ f then i :: indices_from beg end_ (S i) fs' else indices_from beg end_ (S i) fs'
  end.

Definition file_indices_for_piece (dw : DiskWriter) (index : Z) : result (list nat) :=
  let beg := piece_global_offset dw index in
  len ← disk_piece_length dw index;
  Ok (indices_from beg (u64 (beg + len)) 0 (m_files dw)).

(** [seekp(off); write(b)] on a file with contents [c]. *)
Definition write_at (c : bytes) (off : Z) (b : bytes) : bytes :=
  let o := Z.to_nat off in
  take o (c ++ replicate (o - length c) 0) ++ b ++ drop (o + length b) c.

Section io.
Context {ENV : DiskEnv}.

(** One file of [preallocate_files]. *)
Definition preallocate_file (dw : DiskWriter) (d : gmap bytes bytes) (f : FileEntry)
    : gmap bytes bytes * result unit :=
  let path := absolute_path dw f in
  if negb (can_make (parent_path path)) then (d, Throw (RuntimeError "filesystem_error"))
  else if negb (can_create path) then (d, Throw (RuntimeError "Failed to create output file"))
  else if fe_length f =? 0 then (<[file_at path := []]> d, Ok ())
  else if negb (can_extend path)
  then (<[file_at path := []]> d, Throw (RuntimeError "Failed to preallocate output file"))
  else (<[file_at path := write_at [] (u64 (fe_length f - 1)) [0]]> d, Ok ()).

Fixpoint preallocate_loop (dw : DiskWriter) (fs : list FileEntry) (d : gmap bytes bytes)
    : gmap bytes bytes * result unit :=
  match fs with
  | [] => (d, Ok ())
  | f :: fs' =>
      match preallocate_file dw d f with
      | (d, Throw e) => (d, Throw e)
      | (d, Ok _) => preallocate_loop dw fs' d
      end
  end.

Definition preallocate_files (dw : DiskWriter) (d : Disk) : Disk * result unit :=
  if negb (can_make (m_output_dir dw)) then (d, Throw (RuntimeError "filesystem_error"))
  else match preallocate_loop dw (m_files dw) (d_files d) with
  | (fs, Throw e) => (mkDiskState fs (m_files_preallocated d), Throw e)
  | (fs, Ok _) => (mkDiskState fs true, Ok ())
  end.

(** The loop of [write_piece]: the files and what [remaining] is at its end. *)
Fixpoint write_loop (dw : DiskWriter) (fs : list FileEntry) (data : bytes) (write_offset remaining data_pos : Z)
    (d : gmap bytes bytes) : gmap bytes bytes * result Z :=
  match fs with
  | [] => (d, Ok remaining)
  | f :: fs' =>
      if remaining =? 0 then (d, Ok remaining)
      else if u64 (fe_offset f + fe_length f) <=? write_offset
      then write_loop dw fs' data write_offset remaining data_pos d
      else if u64 (write_offset + remaining) <=? fe_offset f then (d, Ok remaining)
      else
        let start_in_file := if fe_offset f <? write_offset then u64 (write_offset - fe_offset f) else 0 in
        let writable_in_file := u64 (fe_length f - start_in_file) in
        let chunk := Z.min remaining writable_in_file in
        let path := absolute_path dw f in
        match (if can_open path then d !! file_at path else None) with
        | None => (d, Throw (RuntimeError "Failed to open output file for writing"))
        | Some c =>
            match write_fault path with
            | Some g => (<[file_at path := g c]> d, Throw (RuntimeError "Failed writing piece data to file"))
            | None =>
                let b := slice (Z.to_nat data_pos) (Z.to_nat data_pos + Z.to_nat chunk) data in
                write_loop dw fs' data (u64 (write_offset + chunk)) (u64 (remaining - chunk))
                  (data_pos + chunk) (<[file_at path := write_at c start_in_file b]> d)
            end
        end
  end.

Definition write_piece (dw : DiskWriter) (index : Z) (data : bytes) (d : Disk) : Disk * result unit :=
  if negb (m_files_preallocated d)
  then (d, Throw (RuntimeError "DiskWriter: read_piece/write_piece called before preallocate_files() completed"))
  else match file_indices_for_piece dw index with
  | Throw e => (d, Throw e)
  | Ok _ =>
      match disk_piece_length dw index with
      | Throw e => (d, Throw e)
      | Ok expected_len =>
          if negb (Z.of_nat (length data) =? expected_len)
          then (d, Throw (RuntimeError "Piece write size mismatch"))
          else
            let '(fs, r) := write_loop dw (m_files dw) data (piece_global_offset dw index)
                              (Z.of_nat (length data)) 0 (d_files d) in
            (mkDiskState fs (m_files_preallocated d),
             remaining ← r;
             throw_if (negb (remaining =? 0)) (RuntimeError "Piece write did not fully map to files"))
      end
  end.

(** The loop of [read_piece]: the bytes read so far and [remaining]. *)
Fixpoint read_loop (dw : DiskWriter) (fs : list FileEntry) (read_offset remaining : Z) (out : bytes)
    (d : gmap bytes bytes) : result (bytes * Z) :=
  match fs with
  | [] => Ok (out, remaining)
  | f :: fs' =>
      if remaining =? 0 then Ok (out, remaining)
      else if u64 (fe_offset f + fe_length f) <=? read_offset
      then read_loop dw fs' read_offset remaining out d
      else if u64 (read_offset + remaining) <=? fe_offset f then Ok (out, remaining)
      else
        let start_in_file := if fe_offset f <? read_offset then u64 (read_offset - fe_offset f) else 0 in
        let readable_in_file := u64 (fe_length f - start_in_file) in
        let chunk := Z.min remaining readable_in_file in
        let path := absolute_path dw f in
        match (if can_open path then d !! file_at path else None) with
        | None => Throw (RuntimeError "Failed to open output file for reading")
        | Some c =>
            let b := take (Z.to_nat chunk) (drop (Z.to_nat start_in_file) c) in
            if negb (Z.of_nat (length b) =? chunk) then Throw (RuntimeError "Failed reading piece data from file")
            else read_loop dw fs' (u64 (read_offset + chunk)) (u64 (remaining - chunk)) (out ++ b) d
        end
  end.

Definition read_piece (dw : DiskWriter) (index : Z) (d : Disk) : result bytes :=
  _ ← throw_if (negb (m_files_preallocated d))
        (RuntimeError "DiskWriter: read_piece/write_piece called before preallocate_files() completed");
  _ ← file_indices_for_piece dw index;
  len ← disk_piece_length dw index;
  '(out, remaining) ← read_loop dw (m_files dw) (piece_global_offset dw index) len [] (d_files d);
  _ ← throw_if (negb (remaining =? 0)) (RuntimeError "Piece read did not fully map to files");
  Ok out.
End io.

(** ** The torrent as one sequence of bytes *)

(** Overwriting [b] at position [o]. *)
Definition splice (img : bytes) (o : nat) (b : bytes) : bytes := take o img ++ b ++ drop (o + length b) img.

Lemma splice_app_r (c img b : bytes) o :
  (length c <= o)%nat -> splice (c ++ img) o b = c ++ splice img (o - length c) b.
Proof.
  intros Ho. unfold splice. rewrite take_app_ge, drop_app_ge by lia. rewrite <- app_assoc.
  by replace (o + length b - length c)%nat with (o - length c + length b)%nat by lia.
Qed.

Lemma splice_app_l (c img b : bytes) o :
  (o + length b <= length c)%nat -> splice (c ++ img) o b = splice c o b ++ img.
Proof. intros Ho. unfold splice. rewrite take_app_le, drop_app_le by lia. by rewrite <- !app_assoc. Qed.

Lemma splice_app_mid (c img b : bytes) o k :
  (o + k = length c)%nat -> (k <= length b)%nat ->
  splice (c ++ img) o b = splice c o (take k b) ++ splice img 0 (drop k b).
Proof.
  intros Ho Hk. unfold splice. rewrite take_app_le by lia.
  rewrite (drop_ge c (o + length (take k b))) by (rewrite length_take; lia).
  rewrite drop_app_ge by lia. rewrite length_drop, app_nil_r, <- !app_assoc. f_equal.
  rewrite take_0. cbn [app Nat.add]. rewrite (app_assoc (take k b)), take_drop.
  by replace (o + length b - length c)%nat with (length b - k)%nat by lia.
Qed.

Lemma splice_nil img o : splice img o [] = img.
Proof. unfold splice. cbn. rewrite Nat.add_0_r. apply take_drop. Qed.

Lemma length_splice img o b : (o + length b <= length img)%nat -> length (splice img o b) = length img.
Proof. intros H. unfold splice. rewrite !length_app, length_take, length_drop. lia. Qed.

Lemma write_at_splice c off b :
  0 <= off <= Z.of_nat (length c) -> write_at c off b = splice c (Z.to_nat off) b.
Proof.
  intros H. unfold write_at, splice. replace (Z.to_nat off - length c)%nat with 0%nat by lia.
  by rewrite app_nil_r.
Qed.

(** *** Directories *)

Lemma drop_while_end_nonempty p c s : c ∈ s -> p c = false -> drop_while_end p s <> [].
Proof.
  induction s as [|x s IH]; [by intros ?%not_elem_of_nil|]. rewrite elem_of_cons. intros Hin Hc.
  cbn [drop_while_end]. destruct (drop_while_end p s) as [|y r]; [|done].
  destruct Hin as [<-|Hin]; [by rewrite Hc|]. by destruct (IH Hin Hc).
Qed.

Lemma parent_path_nonempty p : chr "/" ∈ p -> parent_path p <> [].
Proof.
  intros Hp. unfold parent_path. destruct (drop_while_end is_separator _) eqn:E; [|done].
  by apply (drop_while_end_nonempty _ (chr "/")).
Qed.

Lemma path_append_separated dir p : dir <> [] -> chr "/" ∈ path_append dir p.
Proof.
  intros Hd. unfold path_append. destruct (is_absolute p) eqn:Ha.
  - destruct p as [|c p]; [done|]. cbn in Ha. rewrite andb_true_r in Ha. b2p. subst. left.
  - unfold has_filename. destruct (last dir) as [c|] eqn:El; [|by apply last_None in El].
    destruct (c =? chr "/") eqn:Ec; cbn [negb].
    + b2p. subst. apply last_Some in El as [l ->]. apply elem_of_app. left. apply elem_of_app. right. left.
    + apply elem_of_app. right. left.
Qed.

Lemma append_absolute ps p : is_absolute p = true -> is_absolute (fold_left path_append ps p) = true.
Proof.
  revert p. induction ps as [|q ps IH]; intros p Hp; [done|]. cbn [fold_left]. apply IH. unfold path_append.
  destruct (is_absolute q) eqn:Hq; [done|]. unfold is_absolute in *. case_if; by apply starts_with_app_r.
Qed.

Section layout.
Context {ENV : DiskEnv} (dw : DiskWriter).

(** The file of an entry. *)
Definition path (f : FileEntry) : bytes := file_at (absolute_path dw f).

Fixpoint contiguous (o : Z) (fs : list FileEntry) : Prop :=
  match fs with
  | [] => True
  | f :: fs' => fe_offset f = o /\ 0 <= fe_length f /\ contiguous (o + fe_length f) fs'
  end.

Definition span_of (fs : list FileEntry) : Z := foldr (fun f t => fe_length f + t) 0 fs.

Definition stored (fs : list FileEntry) (d : gmap bytes bytes) : Prop :=
  Forall (fun f => exists c, d !! path f = Some c /\ Z.of_nat (length c) = fe_length f) fs.

Definition image (fs : list FileEntry) (d : gmap bytes bytes) : bytes :=
  concat (map (fun f => default [] (d !! path f)) fs).

Lemma span_nonneg o fs : contiguous o fs -> 0 <= span_of fs.
Proof. revert o. induction fs as [|f fs IH]; intros o H; [cbn; lia|].
  destruct H as (_ & ? & H). apply IH in H. cbn [span_of foldr]. fold (span_of fs). lia.
Qed.

Lemma image_cons f fs d c : d !! path f = Some c -> image (f :: fs) d = c ++ image fs d.
Proof. intros Hc. unfold image. cbn [map concat]. by rewrite Hc. Qed.

Lemma image_length fs d : stored fs d -> Z.of_nat (length (image fs d)) = span_of fs.
Proof.
  induction 1 as [|f fs (c & Hc & Hl) Hfs IH]; [done|]. rewrite (image_cons _ _ _ _ Hc), length_app.
  cbn [span_of foldr]. fold (span_of fs). lia.
Qed.

(** Writing a file outside [fs] does not matter to it. *)
Lemma image_insert_ne fs d p c : p ∉ map path fs -> image fs (<[p := c]> d) = image fs d.
Proof.
  intros Hp. unfold image. f_equal. apply map_ext_in. intros f Hf%list_elem_of_In.
  rewrite lookup_insert_ne; [done|]. intros ->. apply Hp. by apply list_elem_of_fmap_2.
Qed.

Lemma stored_insert_ne fs d p c : p ∉ map path fs -> stored fs d -> stored fs (<[p := c]> d).
Proof.
  intros Hp Hs. apply Forall_forall. intros f Hf. rewrite lookup_insert_ne.
  - by eapply Forall_forall in Hs.
  - intros ->. apply Hp. by apply list_elem_of_fmap_2.
Qed.

Class EnvOk : Prop := {
  env_make : forall p, p <> [] -> can_make p = true;
  env_create : forall p, can_create p = true;
  env_extend : forall p, can_extend p = true;
  env_open : forall p, can_open p = true;
  env_write : forall p, write_fault p = None;
}.

Context (OK : EnvOk).

Lemma write_loop_zero fs data w pos d : write_loop dw fs data w 0 pos d = (d, Ok 0).
Proof. by destruct fs. Qed.

(** What [write_loop] is to achieve: the image of [fs] overwritten, nothing else changed. *)
Definition written (fs : list FileEntry) (d : gmap bytes bytes) (o : nat) (b : bytes) (d' : gmap bytes bytes) : Prop :=
  stored fs d' /\ image fs d' = splice (image fs d) o b /\ forall p, p ∉ map path fs -> d' !! p = d !! p.

Lemma written_nothing fs d o : stored fs d -> written fs d o [] d.
Proof. intros Hs. split; [done|]. split; [by rewrite splice_nil|done]. Qed.

Section one_file.
Context (f : FileEntry) (fs : list FileEntry) (d : gmap bytes bytes) (c : bytes).
Context (Hc : d !! path f = Some c) (Hlen : Z.of_nat (length c) = fe_length f).
Context (Hnin : path f ∉ map path fs) (Hs : stored fs d).

(** The position is past this file. *)
Lemma written_skip o b d' :
  (length c <= o)%nat -> written fs d (o - length c) b d' -> written (f :: fs) d o b d'.
Proof.
  intros Ho (Hst & Hi & Hother). assert (d' !! path f = Some c) as Hf by (by rewrite Hother).
  split; [by constructor; eauto|]. split.
  - rewrite (image_cons _ _ _ _ Hf), (image_cons _ _ _ _ Hc), splice_app_r by done. by rewrite Hi.
  - intros p. cbn [map]. rewrite elem_of_cons. intros Hp. apply Hother. tauto.
Qed.

(** The data ends inside this file. *)
Lemma written_inside o b :
  (o + length b <= length c)%nat -> written (f :: fs) d o b (<[path f := splice c o b]> d).
Proof.
  intros Ho. split.
  - constructor; [|by apply stored_insert_ne]. exists (splice c o b). rewrite lookup_insert_eq.
    split; [done|]. rewrite length_splice; lia.
  - split.
    + rewrite (image_cons _ _ _ (splice c o b)) by apply lookup_insert_eq.
      rewrite image_insert_ne, (image_cons _ _ _ _ Hc), splice_app_l by done. done.
    + intros p. cbn [map]. rewrite elem_of_cons. intros Hp. rewrite lookup_insert_ne; [done|]. intros E. apply Hp. left. congruence.
Qed.

(** The data goes on in the next files. *)
Lemma written_across o b k d' :
  (o + k = length c)%nat -> (k <= length b)%nat ->
  written fs (<[path f := splice c o (take k b)]> d) 0 (drop k b) d' -> written (f :: fs) d o b d'.
Proof.
  intros Ho Hk (Hst & Hi & Hother). set (c' := splice c o (take k b)) in *.
  assert (length c' = length c) as Hl by (apply length_splice; rewrite length_take; lia).
  assert (d' !! path f = Some c') as Hf by (rewrite Hother by done; apply lookup_insert_eq).
  split; [constructor; [exists c'; split; [done|lia]|done]|]. split.
  - rewrite (image_cons _ _ _ _ Hf), Hi, image_insert_ne, (image_cons _ _ _ _ Hc) by done.
    by rewrite (splice_app_mid c _ b o k).
  - intros p. cbn [map]. rewrite elem_of_cons. intros Hp. rewrite Hother by tauto.
    rewrite lookup_insert_ne; [done|]. intros E. apply Hp. left. congruence.
Qed.
End one_file.

(** [write_loop] overwrites the image of the files at the write position. *)
Lemma write_loop_spec fs o data w rem pos d :
  contiguous o fs -> stored fs d -> NoDup (map path fs) ->
  0 <= o <= w -> 0 <= rem -> w + rem <= o + span_of fs < 2 ^ 63 ->
  0 <= pos -> pos + rem = Z.of_nat (length data) ->
  exists d', write_loop dw fs data w rem pos d = (d', Ok 0) /\
    written fs d (Z.to_nat (w - o)) (drop (Z.to_nat pos) data) d'.
Proof.
  revert o w rem pos d. induction fs as [|f fs IH]; intros o w rem pos d Hc Hs Hnd Ho Hr Hw Hp Hd.
  { cbn in Hw. exists d. replace rem with 0 by lia. split; [done|]. rewrite drop_ge by lia. by apply written_nothing. }
  cbn [write_loop]. destruct (Z.eqb_spec rem 0) as [->|Hrem].
  { exists d. split; [done|]. rewrite drop_ge by lia. by apply written_nothing. }
  destruct Hc as (Hoff & Hlen & Hc). cbn [map] in Hnd. inversion Hnd as [|? ? Hnin Hnd']; subst.
  inversion Hs as [|? ? (c & Hcl & Hcn) Hs']; subst. pose proof (span_nonneg _ _ Hc) as Hspan.
  cbn [span_of foldr] in Hw. fold (span_of fs) in Hw.
  unfold u64. rewrite (Z.mod_small (fe_offset f + fe_length f)) by lia.
  destruct (Z.leb_spec (fe_offset f + fe_length f) w) as [Hskip|Hin].
  - destruct (IH (fe_offset f + fe_length f) w rem pos d) as (d' & E & Hwr); try done; try lia.
    exists d'. split; [done|]. apply (written_skip f fs d c); [done..|lia|].
    by replace (Z.to_nat (w - fe_offset f) - length c)%nat with (Z.to_nat (w - (fe_offset f + fe_length f))) by lia.
  - rewrite (Z.mod_small (w + rem)) by lia. rewrite (proj2 (Z.leb_gt _ _)) by lia.
    assert ((if fe_offset f <? w then (w - fe_offset f) mod 2 ^ 64 else 0) = w - fe_offset f) as ->
      by (destruct (Z.ltb_spec (fe_offset f) w); [apply Z.mod_small|]; lia).
    set (start := w - fe_offset f). assert (0 <= start < fe_length f) as Hstart by (unfold start; lia).
    rewrite (Z.mod_small (fe_length f - start)) by lia. fold (path f). rewrite env_open, Hcl, env_write.
    set (chunk := Z.min rem (fe_length f - start)).
    rewrite (Z.mod_small (w + chunk)), (Z.mod_small (rem - chunk)) by (unfold chunk; lia).
    set (b := drop (Z.to_nat pos) data). assert (Z.of_nat (length b) = rem) as Hb by (unfold b; rewrite length_drop; lia).
    replace (slice (Z.to_nat pos) (Z.to_nat pos + Z.to_nat chunk) data) with (take (Z.to_nat chunk) b)
      by (unfold slice; f_equal; lia).
    rewrite write_at_splice by lia. destruct (Z.le_gt_cases rem (fe_length f - start)) as [Hfit|Hacross].
    + assert (chunk = rem) as -> by (unfold chunk; lia). rewrite Z.sub_diag, write_loop_zero, take_ge by lia.
      eexists. split; [done|]. apply (written_inside f fs d c); [done..|lia].
    + assert (chunk = fe_length f - start) as Ech by (unfold chunk; lia).
      assert (path f ∉ map path fs) as Hpf by done.
      destruct (IH (fe_offset f + fe_length f) (w + chunk) (rem - chunk) (pos + chunk)
        (<[path f := splice c (Z.to_nat start) (take (Z.to_nat chunk) b)]> d)) as (d' & E & Hwr);
        try done; try (unfold start in *; lia); [by apply stored_insert_ne|].
      exists d'. split; [done|]. apply (written_across f fs d c Hcl Hcn Hpf _ b (Z.to_nat chunk)); [lia..|].
      unfold b. rewrite drop_drop. replace (Z.to_nat pos + Z.to_nat chunk)%nat with (Z.to_nat (pos + chunk)) by lia.
      by replace (Z.to_nat (w + chunk - (fe_offset f + fe_length f))) with 0%nat in Hwr by (unfold start in *; lia).
Qed.

(** [read_loop] returns the part of the image it is asked for. *)
Lemma read_loop_spec fs o r rem out d :
  contiguous o fs -> stored fs d -> 0 <= o <= r -> 0 <= rem -> r + rem <= o + span_of fs < 2 ^ 63 ->
  read_loop dw fs r rem out d =
  Ok (out ++ slice (Z.to_nat (r - o)) (Z.to_nat (r - o + rem)) (image fs d), 0).
Proof.
  assert (forall n (l : bytes), slice n n l = []) as Hnil by (intros; unfold slice; by rewrite Nat.sub_diag).
  revert o r rem out. induction fs as [|f fs IH]; intros o r rem out Hc Hs Ho Hr Hw.
  { cbn in *. replace rem with 0 by lia. by rewrite Z.add_0_r, Hnil, app_nil_r. }
  cbn [read_loop]. destruct (Z.eqb_spec rem 0) as [->|Hrem]; [by rewrite Z.add_0_r, Hnil, app_nil_r|].
  destruct Hc as (Hoff & Hlen & Hc). inversion Hs as [|? ? (c & Hcl & Hcn) Hs']; subst.
  pose proof (span_nonneg _ _ Hc) as Hspan. cbn [span_of foldr] in Hw. fold (span_of fs) in Hw.
  rewrite (image_cons _ _ _ _ Hcl). unfold u64. rewrite (Z.mod_small (fe_offset f + fe_length f)) by lia.
  destruct (Z.leb_spec (fe_offset f + fe_length f) r) as [Hskip|Hin].
  - rewrite (IH (fe_offset f + fe_length f)) by (done || lia). do 3 f_equal. unfold slice.
    rewrite drop_app_ge by lia. f_equal; [lia|]. f_equal. lia.
  - rewrite (Z.mod_small (r + rem)) by lia. rewrite (proj2 (Z.leb_gt _ _)) by lia.
    assert ((if fe_offset f <? r then (r - fe_offset f) mod 2 ^ 64 else 0) = r - fe_offset f) as ->
      by (destruct (Z.ltb_spec (fe_offset f) r); [apply Z.mod_small|]; lia).
    set (start := r - fe_offset f). assert (0 <= start < fe_length f) as Hstart by (unfold start; lia).
    rewrite (Z.mod_small (fe_length f - start)) by lia. fold (path f). rewrite env_open, Hcl.
    set (chunk := Z.min rem (fe_length f - start)).
    rewrite (proj2 (Z.eqb_eq _ chunk)) by (rewrite length_take, length_drop; unfold chunk; lia). cbn [negb].
    rewrite (Z.mod_small (r + chunk)), (Z.mod_small (rem - chunk)) by (unfold chunk; lia).
    destruct (Z.le_gt_cases rem (fe_length f - start)) as [Hfit|Hacross].
    + assert (chunk = rem) as -> by (unfold chunk; lia). rewrite Z.sub_diag.
      assert (forall x, read_loop dw fs (r + rem) 0 x d = Ok (x, 0)) as -> by (by destruct fs).
      do 3 f_equal. unfold slice. rewrite drop_app_le by lia.
      rewrite take_app_le by (rewrite length_drop; lia). f_equal. lia.
    + assert (chunk = fe_length f - start) as Ech by (unfold chunk; lia).
      rewrite (IH (fe_offset f + fe_length f)) by (done || (unfold start in *; lia)). rewrite <- app_assoc. do 3 f_equal.
      unfold slice. rewrite drop_app_le by lia. rewrite take_app_ge by (rewrite length_drop; lia).
      rewrite (take_ge (drop (Z.to_nat start) c) (Z.to_nat chunk)) by (rewrite length_drop; lia). f_equal.
      rewrite length_drop. f_equal; [unfold start in *; lia|].
      replace (Z.to_nat (r + chunk - (fe_offset f + fe_length f))) with 0%nat by (unfold start in *; lia). done.
Qed.

Lemma preallocated_content len : 0 < len < 2 ^ 64 -> write_at [] (u64 (len - 1)) [0] = replicate (Z.to_nat len) 0.
Proof.
  intros Hl. unfold write_at, u64. rewrite Z.mod_small by lia. cbn [app length]. rewrite Nat.sub_0_r.
  rewrite take_ge by (rewrite length_replicate; lia). rewrite drop_nil.
  change [0] with (replicate 1 0). rewrite <- replicate_add. f_equal. lia.
Qed.

Lemma preallocate_loop_spec fs o d :
  m_output_dir dw <> [] -> contiguous o fs -> span_of fs < 2 ^ 63 -> NoDup (map path fs) ->
  exists d', preallocate_loop dw fs d = (d', Ok ()) /\ stored fs d' /\
    image fs d' = replicate (Z.to_nat (span_of fs)) 0 /\ (forall p, p ∉ map path fs -> d' !! p = d !! p) /\
    (forall f, f ∈ fs -> d' !! path f = Some (replicate (Z.to_nat (fe_length f)) 0)).
Proof.
  intros Hdir. revert o d. induction fs as [|f fs IH]; intros o d Hc Hs Hnd.
  { exists d. split; [done|]. split; [constructor|]. split; [done|]. split; [done|]. by intros f ?%not_elem_of_nil. }
  destruct Hc as (_ & Hlen & Hc). cbn [map] in Hnd. inversion Hnd as [|? ? Hnin Hnd']; subst.
  pose proof (span_nonneg _ _ Hc) as Hspan. cbn [span_of foldr] in Hs. fold (span_of fs) in Hs.
  assert (preallocate_file dw d f = (<[path f := replicate (Z.to_nat (fe_length f)) 0]> d, Ok ())) as Ef.
  { unfold preallocate_file. fold (path f).
    rewrite env_make by by apply parent_path_nonempty, path_append_separated. rewrite env_create, env_extend. cbn [negb].
    destruct (Z.eqb_spec (fe_length f) 0) as [->|?]; [done|]. by rewrite preallocated_content by lia. }
  cbn [preallocate_loop]. rewrite Ef.
  destruct (IH _ (<[path f := replicate (Z.to_nat (fe_length f)) 0]> d) Hc ltac:(lia) Hnd')
    as (d' & E & Hst & Hi & Hother & Hall).
  exists d'. split; [done|].
  assert (d' !! path f = Some (replicate (Z.to_nat (fe_length f)) 0)) as Hf by (rewrite Hother by done; apply lookup_insert_eq).
  split; [constructor; [eexists; split; [exact Hf|]; rewrite length_replicate; lia|done]|]. split; [|split].
  - rewrite (image_cons _ _ _ _ Hf), Hi, <- replicate_add. f_equal. cbn [span_of foldr]. fold (span_of fs). lia.
  - intros p. cbn [map]. rewrite elem_of_cons. intros Hp. rewrite Hother by tauto.
    rewrite lookup_insert_ne; [done|]. intros E'. apply Hp. left. congruence.
  - intros g. rewrite elem_of_cons. intros [->|Hg]; auto.
Qed.

(** ** Pieces *)

Record disk_writer_ok : Prop := {
  dw_contiguous : contiguous 0 (m_files dw);
  dw_total : span_of (m_files dw) = m_total_size dw;
  dw_total_range : 0 < m_total_size dw < 2 ^ 63;
  dw_piece_range : 0 < m_piece_size dw < 2 ^ 32;
  dw_dir : m_output_dir dw <> [];
  dw_paths : NoDup (map path (m_files dw));
}.

Definition valid_piece (i : Z) : Prop := 0 <= i /\ i * m_piece_size dw < m_total_size dw.

Definition plen (i : Z) : Z := Z.min (m_piece_size dw) (m_total_size dw - i * m_piece_size dw).

Record disk_ok (d : Disk) : Prop := {
  disk_pre : m_files_preallocated d = true;
  disk_stored : stored (m_files dw) (d_files d);
}.

Definition disk_image (d : Disk) : bytes := image (m_files dw) (d_files d).

Context (Hdw : disk_writer_ok).

Lemma piece_offset_valid i : valid_piece i -> piece_global_offset dw i = i * m_piece_size dw.
Proof.
  intros [H1 H2]. destruct Hdw as [_ _ Ht Hp _ _]. unfold piece_global_offset, u64. apply Z.mod_small. nia.
Qed.

Lemma piece_length_valid i : valid_piece i -> disk_piece_length dw i = Ok (plen i).
Proof.
  intros Hv. unfold disk_piece_length. rewrite piece_offset_valid by done. destruct Hv as [H1 H2].
  destruct Hdw as [_ _ Ht Hp _ _]. rewrite (proj2 (Z.leb_gt _ _)) by lia. cbn [throw_if mbind result_bind].
  unfold u32, u64, plen. f_equal. rewrite (Z.mod_small (i * _ + _)), (Z.mod_small (Z.min _ _ - _)) by nia.
  rewrite Z.mod_small by lia. lia.
Qed.

Lemma write_piece_spec i data d :
  disk_ok d -> valid_piece i -> Z.of_nat (length data) = plen i ->
  exists d', write_piece dw i data d = (d', Ok ()) /\ disk_ok d' /\
    disk_image d' = splice (disk_image d) (Z.to_nat (i * m_piece_size dw)) data.
Proof.
  intros [Hpre Hst] Hv Hlen. unfold write_piece, file_indices_for_piece. rewrite Hpre. cbn [negb].
  rewrite piece_length_valid by done. cbn [mbind result_bind]. rewrite Hlen, Z.eqb_refl. cbn [negb].
  rewrite piece_offset_valid by done. destruct Hv as [H1 H2]. destruct Hdw as [Hc Hspan Ht Hp Hdir Hnd].
  destruct (write_loop_spec (m_files dw) 0 data (i * m_piece_size dw) (plen i) 0 (d_files d))
    as (d' & E & Hs' & Hi & _); try done; try (unfold plen in *; nia).
  rewrite E. exists (mkDiskState d' true). split; [done|]. split; [by constructor|].
  unfold disk_image. cbn [d_files]. rewrite Hi, drop_0. f_equal. lia.
Qed.

Lemma read_piece_spec i d :
  disk_ok d -> valid_piece i ->
  read_piece dw i d =
  Ok (slice (Z.to_nat (i * m_piece_size dw)) (Z.to_nat (i * m_piece_size dw + plen i)) (disk_image d)).
Proof.
  intros [Hpre Hst] Hv. unfold read_piece, file_indices_for_piece. rewrite Hpre. cbn [negb throw_if mbind result_bind].
  rewrite piece_length_valid by done. cbn [mbind result_bind].
  rewrite piece_offset_valid by done. destruct Hv as [H1 H2]. destruct Hdw as [Hc Hspan Ht Hp Hdir Hnd].
  rewrite (read_loop_spec (m_files dw) 0) by (done || (unfold plen; nia)). cbn [mbind result_bind app].
  by rewrite !Z.sub_0_r.
Qed.

Lemma preallocate_spec d :
  exists d', preallocate_files dw d = (d', Ok ()) /\ disk_ok d' /\
    disk_image d' = replicate (Z.to_nat (m_total_size dw)) 0.
Proof.
  destruct Hdw as [Hc Hspan Ht Hp Hdir Hnd].
  destruct (preallocate_loop_spec (m_files dw) 0 (d_files d)) as (d' & E & Hs & Hi & _ & _); [done|done|lia|done|].
  unfold preallocate_files. rewrite env_make by done. cbn [negb]. rewrite E. exists (mkDiskState d' true). split; [done|]. split; [by constructor|].
  unfold disk_image. cbn [d_files]. by rewrite Hi, Hspan.
Qed.
End layout.

(** ** What a call touches

    Whatever the file system answers, a call leaves every file alone whose mutex it does
    not hold, and what it returns does not depend on them. *)

Lemma indices_from_sorted beg end_ i fs :
  StronglySorted lt (indices_from beg end_ i fs) /\ Forall (fun j => (i <= j)%nat) (indices_from beg end_ i fs).
Proof.
  revert i. induction fs as [|f fs IH]; intros i; cbn [indices_from]; [split; constructor|].
  destruct (IH (S i)) as [Hs Hf]. case_if.
  - split; constructor; try done; try lia; (eapply Forall_impl; [exact Hf|]); simpl; lia.
  - split; [done|]. eapply Forall_impl; [exact Hf|]. simpl. lia.
Qed.

(** The loop lists exactly the files that overlap the range. *)
Lemma indices_from_elem beg end_ i fs j :
  (i + j)%nat ∈ indices_from beg end_ i fs <-> exists f, fs !! j = Some f /\ overlaps beg end_ f = true.
Proof.
  revert i j. induction fs as [|f fs IH]; intros i j; cbn [indices_from].
  { split; [by intros ?%not_elem_of_nil|]. by intros (f & ? & _). }
  destruct j as [|j]; cbn [lookup list_lookup].
  - rewrite Nat.add_0_r. destruct (indices_from_sorted beg end_ (S i) fs) as [_ Hf]. rewrite Forall_forall in Hf.
    destruct (overlaps beg end_ f) eqn:E.
    + split; [|by left]. intros _. by exists f.
    + split; [intros Hin%Hf; lia|]. intros (g & [= <-] & ?). congruence.
  - replace (i + S j)%nat with (S i + j)%nat by lia. rewrite <- IH. case_if; [|done].
    rewrite elem_of_cons. split; [|by right]. intros [?|?]; [lia|done].
Qed.

Section touched.
Context {ENV : DiskEnv} (dw : DiskWriter).

Abbreviation touched w end_ fs q := (exists f, f ∈ fs /\ overlaps w end_ f = true /\ path dw f = q).

Lemma overlaps_mono w w' end_ f : w <= w' -> overlaps w' end_ f = true -> overlaps w end_ f = true.
Proof. unfold overlaps. intros Hw H. b2p. apply negb_true_iff, orb_false_iff. split; b2p; lia. Qed.

Lemma write_loop_touches fs o data w rem pos d q :
  contiguous o fs -> 0 <= o -> 0 <= w -> 0 <= rem -> w + rem < 2 ^ 63 -> o + span_of fs < 2 ^ 63 ->
  (write_loop dw fs data w rem pos d).1 !! q <> d !! q -> touched w (w + rem) fs q.
Proof.
  revert o w rem pos d. induction fs as [|f fs IH]; intros o w rem pos d Hc Ho Hw Hr Hb Hspan; cbn [write_loop]; [done|].
  destruct Hc as (Hoff & Hlen & Hc). pose proof (span_nonneg _ _ Hc). cbn [span_of foldr] in Hspan. fold (span_of fs) in Hspan.
  destruct (Z.eqb_spec rem 0) as [|Hrem]; [done|]. unfold u64. rewrite (Z.mod_small (fe_offset f + _)) by lia.
  assert (forall w' rem' pos' d', w <= w' -> w' + rem' = w + rem -> 0 <= rem' ->
    (write_loop dw fs data w' rem' pos' d').1 !! q <> d' !! q -> touched w (w + rem) (f :: fs) q) as Hrest.
  { intros w' rem' pos' d' Hw' He Hr' Hq. destruct (IH _ w' rem' pos' d' Hc ltac:(lia) ltac:(lia) Hr' ltac:(lia) ltac:(lia) Hq) as (g & Hg & Hov & Hp).
    exists g. split; [by right|]. split; [|done]. rewrite He in Hov. by apply (overlaps_mono w w'). }
  destruct (Z.leb_spec (fe_offset f + fe_length f) w) as [|Hin]; [intros Hq; by apply (Hrest w rem pos d); try lia|].
  rewrite (Z.mod_small (w + rem)) by lia. destruct (Z.leb_spec (w + rem) (fe_offset f)) as [|Hbefore]; [done|].
  assert (overlaps w (w + rem) f = true) as Hov.
  { unfold overlaps, u64. rewrite (Z.mod_small (fe_offset f + _)) by lia. apply negb_true_iff, orb_false_iff. split; apply Z.leb_gt; lia. }
  destruct (decide (path dw f = q)) as [Hpq|Hpq]; [intros _; exists f; split; [left|done]|].
  fold (path dw f). destruct (if can_open _ then _ else _) as [c|]; [|done].
  destruct (write_fault _) as [g|]; [cbn [fst]; by rewrite lookup_insert_ne|].
  set (start := if fe_offset f <? w then _ else 0).
  assert (0 <= start <= fe_length f) as Hst.
  { unfold start. destruct (Z.ltb_spec (fe_offset f) w); [rewrite Z.mod_small by lia|]; lia. }
  rewrite (Z.mod_small (fe_length f - start)) by lia. set (chunk := Z.min rem (fe_length f - start)).
  assert (0 <= chunk <= rem) by (unfold chunk; lia).
  rewrite (Z.mod_small (w + chunk)), (Z.mod_small (rem - chunk)) by lia. intros Hq.
  eapply Hrest; [| | |intros E; apply Hq; rewrite E; by apply lookup_insert_ne]; lia.
Qed.

Lemma read_loop_depends fs o r rem out d d' :
  contiguous o fs -> 0 <= o -> 0 <= r -> 0 <= rem -> r + rem < 2 ^ 63 -> o + span_of fs < 2 ^ 63 ->
  (forall q, touched r (r + rem) fs q -> d !! q = d' !! q) ->
  read_loop dw fs r rem out d = read_loop dw fs r rem out d'.
Proof.
  revert o r rem out. induction fs as [|f fs IH]; intros o r rem out Hc Ho Hr Hrem Hb Hspan Hd; cbn [read_loop]; [done|].
  destruct Hc as (Hoff & Hlen & Hc). pose proof (span_nonneg _ _ Hc). cbn [span_of foldr] in Hspan. fold (span_of fs) in Hspan.
  destruct (Z.eqb_spec rem 0) as [|Hne]; [done|]. unfold u64. rewrite (Z.mod_small (fe_offset f + _)) by lia.
  assert (forall r' rem' out', r <= r' -> r' + rem' = r + rem -> 0 <= rem' ->
    read_loop dw fs r' rem' out' d = read_loop dw fs r' rem' out' d') as Hrest.
  { intros r' rem' out' Hr' He Hp. apply (IH _ _ _ _ Hc); try lia. intros q (g & Hg & Hov & Hpq). apply Hd.
    exists g. split; [by right|]. split; [|done]. rewrite He in Hov. by apply (overlaps_mono r r'). }
  destruct (Z.leb_spec (fe_offset f + fe_length f) r) as [|Hin]; [apply Hrest; lia|].
  rewrite (Z.mod_small (r + rem)) by lia. destruct (Z.leb_spec (r + rem) (fe_offset f)) as [|Hbefore]; [done|].
  fold (path dw f). rewrite (Hd (path dw f)).
  2: { exists f. split; [left|]. split; [|done]. unfold overlaps, u64. rewrite (Z.mod_small (fe_offset f + _)) by lia.
       apply negb_true_iff, orb_false_iff. split; apply Z.leb_gt; lia. }
  destruct (if can_open _ then _ else _) as [c|]; [|done].
  set (start := if fe_offset f <? r then _ else 0).
  assert (0 <= start <= fe_length f) as Hst.
  { unfold start. destruct (Z.ltb_spec (fe_offset f) r); [rewrite Z.mod_small by lia|]; lia. }
  rewrite (Z.mod_small (fe_length f - start)) by lia. set (chunk := Z.min rem (fe_length f - start)).
  assert (0 <= chunk <= rem) by (unfold chunk; lia).
  rewrite (Z.mod_small (r + chunk)), (Z.mod_small (rem - chunk)) by lia.
  destruct (negb _); [done|]. apply Hrest; lia.
Qed.

Context (Hdw : disk_writer_ok dw).

(** [q] is a file whose mutex a call on piece [i] holds. *)
Definition locked (i : Z) (q : bytes) : Prop :=
  exists locks j f, file_indices_for_piece dw i = Ok locks /\ j ∈ locks /\ m_files dw !! j = Some f /\ path dw f = q.

Lemma locks_of_piece i :
  valid_piece dw i ->
  exists locks, file_indices_for_piece dw i = Ok locks /\ StronglySorted lt locks /\
    forall q, touched (i * m_piece_size dw) (i * m_piece_size dw + plen dw i) (m_files dw) q -> locked i q.
Proof.
  intros Hv. unfold locked, file_indices_for_piece. rewrite piece_length_valid, piece_offset_valid by done.
  destruct Hv as [H1 H2]. destruct Hdw as [Hc Hspan Ht Hp _ _]. cbn [mbind result_bind]. unfold u64.
  rewrite Z.mod_small by (unfold plen; nia). eexists. split; [done|]. split; [apply indices_from_sorted|].
  intros q (f & Hf & Hov & Hq). apply list_elem_of_lookup in Hf as [j Hj]. eexists _, j, f. split; [done|].
  split; [|done]. apply (indices_from_elem _ _ 0). by exists f.
Qed.

Lemma write_piece_touches i data d q :
  valid_piece dw i -> d_files (write_piece dw i data d).1 !! q <> d_files d !! q -> locked i q.
Proof.
  intros Hv. destruct (locks_of_piece i Hv) as (locks & E & _ & Hl). unfold write_piece.
  destruct (negb _); [done|]. rewrite E, piece_length_valid by done.
  destruct (Z.eqb_spec (Z.of_nat (length data)) (plen dw i)) as [El|]; cbn [negb]; [|done].
  rewrite piece_offset_valid by done. destruct (write_loop _ _ _ _ _ _ _) as [fs r] eqn:Ew. cbn [fst d_files].
  intros Hq. apply Hl. destruct Hv as [H1 H2]. destruct Hdw as [Hc Hspan Ht Hp _ _]. rewrite <- El.
  apply (write_loop_touches (m_files dw) 0 data _ _ 0 (d_files d)); try done; try (unfold plen in *; nia). by rewrite Ew.
Qed.

Lemma read_piece_depends i d d' :
  valid_piece dw i -> m_files_preallocated d = m_files_preallocated d' ->
  (forall q, locked i q -> d_files d !! q = d_files d' !! q) -> read_piece dw i d = read_piece dw i d'.
Proof.
  intros Hv Hpre Hd. destruct (locks_of_piece i Hv) as (locks & E & _ & Hl). unfold read_piece.
  rewrite Hpre, E. destruct (throw_if _ _); [|done]. cbn [mbind result_bind].
  rewrite piece_length_valid by done. cbn [mbind result_bind]. rewrite piece_offset_valid by done.
  destruct Hv as [H1 H2]. destruct Hdw as [Hc Hspan Ht Hp _ _].
  rewrite (read_loop_depends (m_files dw) 0 _ _ [] (d_files d) (d_files d')); try done; try (unfold plen; nia).
  intros q Hq. by apply Hd, Hl.
Qed.
End touched.

(** ** From the torrent to the disk *)

Lemma entries_from_spec o layout es total :
  0 <= o -> Forall (fun f => 0 <= snd f) layout -> o + layout_total layout < 2 ^ 63 ->
  entries_from o layout = (es, total) ->
  contiguous o es /\ span_of es = layout_total layout /\ total = o + layout_total layout /\
  map rel_path es = map fst layout.
Proof.
  intros Ho Hl. revert o es total Ho. induction Hl as [|[p len] layout Hlen Hl IH]; intros o es total Ho Hs E.
  { cbn in *. injection E as <- <-. repeat split; lia. }
  cbn [snd] in Hlen. cbn [layout_total foldr snd] in *. fold (layout_total layout) in *.
  assert (0 <= layout_total layout) as Hn.
  { clear -Hl. induction Hl as [|f l Hf Hl IH]; [done|]. cbn [layout_total foldr]. fold (layout_total l). lia. }
  cbn [entries_from] in E. unfold u64 in E. rewrite Z.mod_small in E by lia.
  destruct (entries_from (o + len) layout) as [es' total'] eqn:E'. injection E as <- <-.
  destruct (IH (o + len) es' total' ltac:(lia) ltac:(lia) E') as (Hc & Hsp & Ht & Hm).
  split; [done|]. cbn [span_of foldr map fe_length rel_path fst]. fold (span_of es').
  split; [lia|]. split; [lia|]. by rewrite Hm.
Qed.

(** What a torrent must satisfy for its pieces to be storable: sizes below 2^63,
    pieces below 4 GiB, and no two files at the same place of the file system. *)
Definition layout_storable {ENV : DiskEnv} (t : TorrentFile) (dir : bytes) : Prop :=
  Forall (fun f => 0 <= snd f) (file_layout t) /\ layout_total (file_layout t) < 2 ^ 63 /\
  0 < piece_size t < 2 ^ 32 /\ dir <> [] /\
  NoDup (map (fun f => file_at (path_append dir (fst f))) (file_layout t)).

Lemma disk_writer_new_ok {ENV : DiskEnv} t dir dw :
  layout_storable t dir -> 0 <= total_size t -> disk_writer_new t dir = Ok dw -> disk_writer_ok dw.
Proof.
  intros (Hl & Hlt & Hps & Hdir & Hnd) Hts. unfold disk_writer_new.
  destruct (entries_from 0 (file_layout t)) as [es total] eqn:E.
  destruct (entries_from_spec 0 _ _ _ ltac:(lia) Hl ltac:(lia) E) as (Hc & Hsp & Ht & Hm).
  intros Edw. inv_result. b2p. constructor; cbn [m_files m_output_dir m_total_size m_piece_size]; [done|lia|lia|lia|done|].
  unfold path, absolute_path. cbn. change (NoDup (map (fun f => file_at (path_append dir (rel_path f))) es)).
  rewrite <- (map_map rel_path (fun p => file_at (path_append dir p))), Hm, map_map. done.
Qed.

Lemma entries_from_In o layout es total p len :
  entries_from o layout = (es, total) -> (p, len) ∈ layout ->
  exists e, e ∈ es /\ rel_path e = p /\ fe_length e = len.
Proof.
  revert o es total. induction layout as [|[q l] layout IH]; intros o es total E; [by intros ?%not_elem_of_nil|].
  cbn [entries_from] in E. destruct (entries_from _ layout) as [es' total'] eqn:E'. injection E as <- <-.
  rewrite elem_of_cons. intros [[= -> ->]|Hin]; [eexists; split; [left|done]|].
  destruct (IH _ _ _ E' Hin) as (e & He & ?). exists e. split; [by right|done].
Qed.

Lemma new_file_entry t dir dw p len :
  disk_writer_new t dir = Ok dw -> (p, len) ∈ file_layout t ->
  exists e, e ∈ m_files dw /\ rel_path e = p /\ fe_length e = len.
Proof.
  unfold disk_writer_new. destruct (entries_from 0 (file_layout t)) as [es total] eqn:E. intros Hn Hp.
  inv_result. by eapply entries_from_In.
Qed.

Section session.
Context {ENV : DiskEnv} (dw : DiskWriter).

(** Writing pieces one after the other, stopping at the first exception. *)
Fixpoint write_all (ws : list (Z * bytes)) (d : Disk) : result Disk :=
  match ws with
  | [] => Ok d
  | (i, data) :: ws' =>
      match write_piece dw i data d with
      | (d', Ok _) => write_all ws' d'
      | (_, Throw e) => Throw e
      end
  end.

(** [preallocate_files], then the writes. *)
Definition disk_session (d : Disk) (ws : list (Z * bytes)) : result Disk :=
  match preallocate_files dw d with
  | (d', Ok _) => write_all ws d'
  | (_, Throw e) => Throw e
  end.

(** The last data written for piece [i]. *)
Fixpoint latest (i : Z) (ws : list (Z * bytes)) : option bytes :=
  match ws with
  | [] => None
  | (j, data) :: ws' =>
      match latest i ws' with
      | Some x => Some x
      | None => if i =? j then Some data else None
      end
  end.

Context (OK : EnvOk) (Hdw : disk_writer_ok dw).

Abbreviation piece_of i img :=
  (slice (Z.to_nat (i * m_piece_size dw)) (Z.to_nat (i * m_piece_size dw + plen dw i)) img).

(** Pieces do not overlap. *)
Lemma piece_of_splice i j img data :
  valid_piece dw i -> valid_piece dw j -> Z.of_nat (length img) = m_total_size dw ->
  Z.of_nat (length data) = plen dw j ->
  piece_of i (splice img (Z.to_nat (j * m_piece_size dw)) data) = if i =? j then data else piece_of i img.
Proof.
  intros [Hi1 Hi2] [Hj1 Hj2] Himg Hd. destruct Hdw as [_ _ Ht Hp _ _]. unfold plen in *.
  set (ps := m_piece_size dw) in *. set (total := m_total_size dw) in *. unfold splice.
  destruct (Z.eqb_spec i j) as [->|Hne].
  - replace (Z.to_nat (j * ps)) with (length (take (Z.to_nat (j * ps)) img)) at 1 by (rewrite length_take; lia).
    replace (Z.to_nat (j * ps + Z.min ps (total - j * ps)))
      with (length (take (Z.to_nat (j * ps)) img) + length data)%nat by (rewrite length_take; lia).
    apply slice_app_mid.
  - destruct (Z.lt_gt_cases i j) as [[Hlt|Hgt] _]; [done| |].
    + assert ((i + 1) * ps <= j * ps) as Hle by nia. unfold slice.
      rewrite drop_app_le by (rewrite length_take; lia). rewrite take_app_le by (rewrite length_drop, length_take; lia).
      rewrite !take_drop_commute, take_take. do 2 f_equal. lia.
    + assert ((j + 1) * ps <= i * ps) as Hle by nia. unfold slice. f_equal.
      rewrite drop_app_ge by (rewrite length_take; lia). rewrite drop_app_ge by (rewrite length_take; lia).
      rewrite drop_drop. f_equal. rewrite length_take. lia.
Qed.

Lemma disk_image_length d : disk_ok dw d -> Z.of_nat (length (disk_image dw d)) = m_total_size dw.
Proof. intros [_ Hs]. unfold disk_image. rewrite image_length by done. apply Hdw. Qed.

Lemma write_all_spec ws d :
  disk_ok dw d -> Forall (fun w => valid_piece dw (fst w) /\ Z.of_nat (length (snd w)) = plen dw (fst w)) ws ->
  exists d', write_all ws d = Ok d' /\ disk_ok dw d' /\
    forall i, valid_piece dw i -> piece_of i (disk_image dw d') = default (piece_of i (disk_image dw d)) (latest i ws).
Proof.
  intros Hd Hws. revert d Hd. induction Hws as [|[j data] ws [Hv Hl] Hws IH]; intros d Hd; [exists d; eauto|].
  cbn [fst snd] in *. cbn [write_all]. destruct (write_piece_spec dw OK Hdw j data d Hd Hv Hl) as (d1 & -> & Hd1 & Hi1).
  destruct (IH d1 Hd1) as (d' & E & Hd' & Hi). exists d'. split; [done|]. split; [done|]. intros i Hiv.
  rewrite Hi by done. cbn [latest]. destruct (latest i ws); [done|]. cbn [default from_option].
  rewrite Hi1, piece_of_splice by (done || by apply disk_image_length). by case_if.
Qed.
End session.

(** C35: the files on disk hold the torrent.  For every torrent whose sizes are in range
    and whose files are distinct files of the file system, on a file system where no call
    fails, after preallocation every sequence of writes of correctly sized pieces succeeds,
    and reading any piece back, also one that spans several files or ends the last one,
    returns exactly the data last written for it, or zeros if none was.  A call takes its
    mutexes in strictly ascending order, so that concurrent calls cannot deadlock, and,
    also when calls on files fail, it changes no file and depends on no file whose mutex
    it does not hold. *)
Theorem disk_writer_refines (ENV : DiskEnv) t dir dw :
  layout_storable t dir -> 0 <= total_size t -> disk_writer_new t dir = Ok dw ->
  (EnvOk -> forall d ws,
     Forall (fun w => valid_piece dw (fst w) /\ Z.of_nat (length (snd w)) = plen dw (fst w)) ws ->
     exists d', disk_session dw d ws = Ok d' /\
       forall i, valid_piece dw i ->
         read_piece dw i d' = Ok (default (replicate (Z.to_nat (plen dw i)) 0) (latest i ws)))
  /\ (forall i, valid_piece dw i ->
       (exists locks, file_indices_for_piece dw i = Ok locks /\ StronglySorted lt locks)
       /\ (forall data d q, d_files (write_piece dw i data d).1 !! q <> d_files d !! q -> locked dw i q)
       /\ (forall d d', m_files_preallocated d = m_files_preallocated d' ->
             (forall q, locked dw i q -> d_files d !! q = d_files d' !! q) ->
             read_piece dw i d = read_piece dw i d')).
Proof.
  intros Ht Hts Hnew. pose proof (disk_writer_new_ok t dir dw Ht Hts Hnew) as Hdw. split.
  - intros OK d ws Hws. destruct (preallocate_spec dw OK Hdw d) as (d0 & E0 & Hd0 & Hi0).
    destruct (write_all_spec dw OK Hdw ws d0 Hd0 Hws) as (d' & E & Hd' & Hi).
    exists d'. unfold disk_session. rewrite E0. split; [done|]. intros i Hv.
    rewrite read_piece_spec by done. rewrite Hi by done. f_equal. destruct (latest i ws); [done|].
    cbn [default from_option]. rewrite Hi0. unfold slice. destruct Hv as [Hv1 Hv2]. destruct Hdw as [_ _ Htr Hp _ _].
    rewrite drop_replicate, take_replicate. f_equal. unfold plen. lia.
  - intros i Hv. destruct (locks_of_piece dw Hdw i Hv) as (locks & E & Hsort & _). split; [by exists locks|].
    split; [intros; by eapply write_piece_touches|intros; by apply read_piece_depends].
Qed.

(** Every call succeeds; there are no links, and [.] and [..] are what they are. *)
Definition plain_file (p : bytes) : bytes := concat (map (fun c => str "/" ++ c) (resolve [] p)).

Definition good_disk : DiskEnv :=
  {| file_at := plain_file; can_make := fun p => negb (bool_decide (p = [])); can_create := fun _ => true; can_extend := fun _ => true; can_open := fun _ => true; write_fault := fun _ => None |}.

Definition sample_torrent (p1 p2 : bytes) : TorrentFile :=
  mkTorrent (str "sample") true 7 4 [mkFile 3 p1 [] [] [] []; mkFile 4 p2 [] [] [] []]
    (mkInfoHash []) [] (mkTracker UDP [] 0 []) [].

Lemma good_disk_ok : @EnvOk good_disk.
Proof. constructor; try reflexivity. intros p Hp. cbn. by rewrite bool_decide_false. Qed.

(** Two files of three and four bytes, pieces of four: piece 0 spans both. *)
Lemma disk_writer_refines_witness :
  let ENV := good_disk in
  let t := sample_torrent (str "a") (str "b") in
  exists dw d', disk_writer_new t (str "out") = Ok dw /\
    disk_session dw (mkDiskState ∅ false) [(0, [1; 2; 3; 4]); (1, [5; 6; 7])] = Ok d' /\
    read_piece dw 0 d' = Ok [1; 2; 3; 4] /\ read_piece dw 1 d' = Ok [5; 6; 7].
Proof.
  intros ENV t. set (dw := mkDisk (str "out") 4 7 [mkFileEntry (str "a") 3 0; mkFileEntry (str "b") 4 3]).
  assert (disk_writer_new t (str "out") = Ok dw) as Hnew by (vm_compute; reflexivity). exists dw.
  assert (valid_piece dw 0 /\ valid_piece dw 1) as [H0 H1] by (vm_compute; intuition discriminate).
  assert (layout_storable t (str "out")) as Ht.
  { split; [by repeat (apply Forall_cons_2; [done|])|]. split; [vm_compute; reflexivity|]. split; [cbn; lia|].
    split; [discriminate|]. apply (bool_decide_unpack (NoDup (map (fun f => file_at (path_append (str "out") (fst f))) (file_layout t)))). vm_compute. exact I. }
  destruct (proj1 (disk_writer_refines ENV t (str "out") dw Ht ltac:(vm_compute; discriminate) Hnew) good_disk_ok
    (mkDiskState ∅ false) [(0, [1; 2; 3; 4]); (1, [5; 6; 7])]) as (d' & E & Hr).
  - repeat (apply Forall_cons_2; [split; [assumption|vm_compute; reflexivity]|]). apply Forall_nil_2.
  - exists d'. split; [exact Hnew|]. split; [exact E|]. split; apply Hr; assumption.
Defined.

(** A torrent whose files have the paths [a] and [./a] is accepted, and both are one file:
    the second piece destroys the first. *)
Lemma colliding_files :
  let _ := good_disk in
  exists dw d', disk_writer_new (sample_torrent (str "a") (str "./a")) (str "out") = Ok dw /\
    disk_session dw (mkDiskState ∅ false) [(0, [1; 2; 3; 4]); (1, [5; 6; 7])] = Ok d' /\
    read_piece dw 0 d' <> Ok [1; 2; 3; 4].
Proof.
  intros ENV. eexists _, _. split; [vm_compute; reflexivity|]. split; [vm_compute; reflexivity|]. by vm_compute.
Qed.

(** C36: a torrent decides where its files go.  The path components of a file are joined
    without any check, and joining an absolute component discards everything before it, the
    output directory included: a file with an absolute component [p] is created, truncating
    what was there, at [p] followed by the components after it, whatever the output
    directory; with [p] as its last component, at [p] itself. *)
Theorem torrent_path_escapes (ENV : DiskEnv) (OK : EnvOk) file f before p after t dir dw d :
  smap_find (str "path") file = Some (BList (map BString (before ++ p :: after))) -> is_absolute p = true ->
  read_file (BDict file) = Ok f ->
  f_path f = fold_left path_append after p /\
  (is_multifile t = true -> f ∈ tf_files t -> layout_storable t dir -> 0 <= total_size t ->
   disk_writer_new t dir = Ok dw ->
   d_files (fst (preallocate_files dw d)) !! file_at (fold_left path_append after p)
   = Some (replicate (Z.to_nat (f_length f)) 0)).
Proof.
  intros Hpath Habs Hread.
  assert (f_path f = fold_left path_append after p) as Hfp.
  { cbn [read_file] in Hread. inv_result. cbn [f_path].
    match goal with Hg : get_val_list file _ = Ok ?l, Hs : load_list_of_bstrings ?l = Ok ?ps |- _ =>
      unfold get_val_list in Hg; rewrite Hpath in Hg; injection Hg as <-;
      rewrite load_strings in Hs; injection Hs as <- end.
    rewrite fold_left_app. cbn [fold_left]. unfold path_append at 2. by rewrite Habs. }
  split; [done|]. intros Hmulti Hf Hstor Hts Hnew.
  pose proof (disk_writer_new_ok t dir dw Hstor Hts Hnew) as Hdw.
  assert (exists e, e ∈ m_files dw /\ rel_path e = f_path f /\ fe_length e = f_length f) as (e & He & Hep & Hel).
  { apply (new_file_entry t dir dw (f_path f) (f_length f)); [done..|]. unfold file_layout. rewrite Hmulti.
    apply list_elem_of_fmap. by exists f. }
  destruct (preallocate_loop_spec dw OK (m_files dw) 0 (d_files d)) as (d' & E & _ & _ & _ & Hall); try apply Hdw.
  { rewrite (dw_total _ Hdw). apply Hdw. }
  unfold preallocate_files. rewrite env_make by apply Hdw. cbn [negb]. rewrite E. cbn [fst d_files].
  replace (file_at (fold_left path_append after p)) with (path dw e).
  - rewrite <- Hel. by apply Hall.
  - unfold path, absolute_path. rewrite Hep, Hfp. unfold path_append at 1.
    by rewrite (append_absolute after p Habs).
Qed.

Lemma torrent_path_escapes_witness :
  let ENV := good_disk in
  let file := [(str "length", BInteger 3);
               (str "path", BList (map BString ([str "x"] ++ str "/etc" :: [str "hosts"])))] in
  let t := sample_torrent (str "/etc/hosts") (str "b") in
  exists dw, disk_writer_new t (str "out") = Ok dw /\
    d_files (fst (preallocate_files dw (mkDiskState {[str "/etc/hosts" := [1; 2]]} false))) !! str "/etc/hosts"
    = Some [0; 0; 0].
Proof.
  intros ENV file t. set (dw := mkDisk (str "out") 4 7 [mkFileEntry (str "/etc/hosts") 3 0; mkFileEntry (str "b") 4 3]).
  assert (disk_writer_new t (str "out") = Ok dw) as Hnew by (vm_compute; reflexivity). exists dw.
  split; [exact Hnew|].
  destruct (torrent_path_escapes ENV good_disk_ok file (mkFile 3 (str "/etc/hosts") [] [] [] []) [str "x"] (str "/etc")
    [str "hosts"] t (str "out") dw (mkDiskState {[str "/etc/hosts" := [1; 2]]} false)) as [_ He].
  - reflexivity.
  - reflexivity.
  - vm_compute. reflexivity.
  - apply He.
    + reflexivity.
    + left.
    + split; [by repeat (apply Forall_cons_2; [done|])|]. split; [vm_compute; reflexivity|]. split; [cbn; lia|].
      split; [discriminate|]. apply (bool_decide_unpack (NoDup (map (fun f => file_at (path_append (str "out") (fst f))) (file_layout t)))). vm_compute. exact I.
    + vm_compute. discriminate.
    + exact Hnew.
Defined.
