(* ===== verification/PieceManager.v ===== *)
(** * Coordination of the peer threads (inc/peer_wire/piece_manager.h,
    src/peer_wire/piece_manager.cpp)

    First the operations as one thread runs them without interruption.  Then the same
    operations cut into their atomic accesses ([pm_step]), so that any interleaving of
    any number of threads is a sequence of steps; the theorems about concurrency are
    proved for all such sequences.  SHA-1 is a parameter, the disk is the component of
    DiskWriter.v. *)

From S2P Require Import Prelude CxxLib Hash Bencode TorrentFile DiskWriter.

Definition BLOCK_SIZE : Z := 2 ^ 14.

Record NeededPiece := mkNeeded { np_index : Z; np_exclusive : bool }.

(** The configuration, fixed by the constructor. *)
Record PieceConfig := mkPieceConfig {
  m_total_length_bytes : Z;
  m_num_pieces : Z;
  m_nominal_piece_length : Z;
  m_piece_hashes : list bytes;
}.

(** The atomics. *)
Record PieceState := mkPieceState {
  m_have : list bool;
  m_claimed : list bool;
  m_completed_count : Z;
  m_curr_downloaded_bytes : Z;
  m_piece_hash_failures : Z;
}.

Definition num (c : PieceConfig) : nat := Z.to_nat (m_num_pieces c).

Definition piece_manager_new (num_pieces piece_length total_length : Z) (hashes : list bytes)
    : result (PieceConfig * PieceState) :=
  _ ← throw_if (negb (Z.of_nat (length hashes) =? num_pieces))
        (RuntimeError "piece hash count does not match num_pieces");
  Ok (mkPieceConfig total_length num_pieces piece_length hashes,
      mkPieceState (replicate (Z.to_nat num_pieces) false) (replicate (Z.to_nat num_pieces) false) 0 0 0).

Definition get (l : list bool) (i : nat) : bool := default false (l !! i).

Definition set_have (i : nat) (s : PieceState) : PieceState :=
  mkPieceState (<[i := true]> (m_have s)) (m_claimed s) (m_completed_count s) (m_curr_downloaded_bytes s)
    (m_piece_hash_failures s).
Definition set_claimed (i : nat) (b : bool) (s : PieceState) : PieceState :=
  mkPieceState (m_have s) (<[i := b]> (m_claimed s)) (m_completed_count s) (m_curr_downloaded_bytes s)
    (m_piece_hash_failures s).
Definition add_failure (s : PieceState) : PieceState :=
  mkPieceState (m_have s) (m_claimed s) (m_completed_count s) (m_curr_downloaded_bytes s)
    (u64 (m_piece_hash_failures s + 1)).
Definition add_bytes (n : Z) (s : PieceState) : PieceState :=
  mkPieceState (m_have s) (m_claimed s) (m_completed_count s) (u64 (m_curr_downloaded_bytes s + n))
    (m_piece_hash_failures s).
Definition add_completed (s : PieceState) : PieceState :=
  mkPieceState (m_have s) (m_claimed s) (u32 (m_completed_count s + 1)) (m_curr_downloaded_bytes s)
    (m_piece_hash_failures s).

(** [i < bitfield.size() && bitfield[i]] *)
Definition peer_has (bf : list bool) (i : nat) : bool := get bf i.

(** The claiming loop of [next_needed] from index [i] with [n] pieces left. *)
Fixpoint claim_loop (bf : list bool) (i n : nat) (s : PieceState) : option (nat * PieceState) :=
  match n with
  | O => None
  | S n' =>
      if negb (peer_has bf i) then claim_loop bf (S i) n' s
      else if get (m_have s) i then claim_loop bf (S i) n' s
      else if get (m_claimed s) i then claim_loop bf (S i) n' s
      else Some (i, set_claimed i true s)
  end.

(** The endgame loop. *)
Fixpoint endgame_loop (bf : list bool) (i n : nat) (s : PieceState) : option nat :=
  match n with
  | O => None
  | S n' =>
      if negb (peer_has bf i) then endgame_loop bf (S i) n' s
      else if get (m_have s) i then endgame_loop bf (S i) n' s
      else Some i
  end.

Definition next_needed (c : PieceConfig) (bf : list bool) (s : PieceState) : option NeededPiece * PieceState :=
  match claim_loop bf 0 (num c) s with
  | Some (i, s') => (Some (mkNeeded (Z.of_nat i) true), s')
  | None =>
      match endgame_loop bf 0 (num c) s with
      | Some i => (Some (mkNeeded (Z.of_nat i) false), s)
      | None => (None, s)
      end
  end.

Definition piece_length (c : PieceConfig) (index : Z) : Z :=
  if u32 (index + 1) <? m_num_pieces c then m_nominal_piece_length c
  else u32 (u64 (m_total_length_bytes c - u64 (m_nominal_piece_length c * u32 (m_num_pieces c - 1)))).

Definition have_piece (c : PieceConfig) (index : Z) (s : PieceState) : bool :=
  if m_num_pieces c <=? index then false else get (m_have s) (Z.to_nat index).

Definition is_complete (c : PieceConfig) (s : PieceState) : bool := m_completed_count s =? m_num_pieces c.

Definition current_bitfield (c : PieceConfig) (s : PieceState) : list bool :=
  map (get (m_have s)) (seq 0 (num c)).

Definition hash_of (c : PieceConfig) (i : nat) : bytes := default [] (m_piece_hashes c !! i).

Definition abort_piece (c : PieceConfig) (index : Z) (s : PieceState) : PieceState :=
  if m_num_pieces c <=? index then s
  else if negb (get (m_have s) (Z.to_nat index)) then set_claimed (Z.to_nat index) false s
  else s.

(** [complete_piece]: the flag is set before the write, whose exception leaves the
    call with the flag set. *)
Definition complete_piece `{Sha1, DiskEnv} (c : PieceConfig) (dw : DiskWriter) (piece_index : Z) (data : bytes)
    (s : PieceState) (d : Disk) : PieceState * Disk * result bool :=
  if m_num_pieces c <=? piece_index then (s, d, Throw (RuntimeError "out-of-range piece index"))
  else
    let i := Z.to_nat piece_index in
    if get (m_have s) i then (s, d, Ok true)
    else if negb (bool_decide (sha1 data = hash_of c i)) then (add_failure s, d, Ok false)
    else
      let s := set_have i s in
      match write_piece dw piece_index data d with
      | (d, Throw e) => (s, d, Throw e)
      | (d, Ok _) => (add_completed (add_bytes (piece_length c piece_index) s), d, Ok true)
      end.

Definition read_block `{DiskEnv} (c : PieceConfig) (dw : DiskWriter) (index begin length : Z)
    (s : PieceState) (d : Disk) : result bytes :=
  _ ← throw_if (negb (have_piece c index s)) (RuntimeError "read_block: piece not available");
  let plen := piece_length c index in
  _ ← throw_if ((plen <? begin) || (u32 (plen - begin) <? length)) (RuntimeError "read_block: range out of bounds");
  piece ← read_piece dw index d;
  if (Z.of_nat (List.length piece) <? begin + length) then Throw (Undefined "iterator past the end of the piece")
  else Ok (slice (Z.to_nat begin) (Z.to_nat (begin + length)) piece).

(** ** Threads and atomic steps *)

(** Where a peer thread is.  [x] tells whether it holds the exclusive claim. *)
Inductive TState :=
  | Idle
  | Scan (bf : list bool) (i : nat)        (* first loop of next_needed, before piece i *)
  | ScanCas (bf : list bool) (i : nat)     (* m_have[i] was false; before the CAS *)
  | Search (bf : list bool) (i : nat)      (* endgame loop *)
  | Owns (i : nat) (x : bool)              (* downloading piece i *)
  | Verify (i : nat) (x : bool) (data : bytes)   (* complete_piece, before the first load *)
  | Recheck (i : nat) (x : bool)           (* the hash differs; before the second load *)
  | Count_failure (i : nat) (x : bool)
  | CasHave (i : nat) (x : bool) (data : bytes)  (* the hash matches; before the CAS *)
  | Writing (i : nat) (data : bytes)       (* before write_piece *)
  | AddBytes (i : nat)
  | AddCount (i : nat)
  | AbortLoad (i : nat)                    (* abort_piece, before its load *)
  | AbortStore (i : nat)
  | Failed (i : nat).                      (* write_piece threw; the connection is gone *)

(** What a thread decides to do; [Tick] is its next atomic access. *)
Inductive Action :=
  | Tick
  | Start (bf : list bool)   (* call next_needed *)
  | Assemble (data : bytes)  (* all blocks arrived: call complete_piece *)
  | GiveUp                   (* choke or disconnect *)
  | DropDone                 (* fill_requests found the piece complete *)
  | WriteThrows.

Record Shared := mkShared {
  sh_state : PieceState;
  sh_written : list (nat * bytes); (* the calls of write_piece that returned *)
  sh_threads : list TState;
}.

Definition after_failure (i : nat) (x : bool) : TState := if x then AbortLoad i else Idle.

Section threads.
Context `{Sha1} (c : PieceConfig).

(** The step of one thread: its new state, the atomics and the disk log. *)
Definition thread_step (t : TState) (a : Action) (s : PieceState) (log : list (nat * bytes))
    : option (TState * PieceState * list (nat * bytes)) :=
  match t, a with
  | Idle, Start bf => Some (Scan bf 0, s, log)
  | Scan bf i, Tick =>
      if (num c <=? i)%nat then Some (Search bf 0, s, log)
      else if negb (peer_has bf i) then Some (Scan bf (S i), s, log)
      else if get (m_have s) i then Some (Scan bf (S i), s, log)
      else Some (ScanCas bf i, s, log)
  | ScanCas bf i, Tick =>
      if get (m_claimed s) i then Some (Scan bf (S i), s, log)
      else Some (Owns i true, set_claimed i true s, log)
  | Search bf i, Tick =>
      if (num c <=? i)%nat then Some (Idle, s, log)
      else if negb (peer_has bf i) then Some (Search bf (S i), s, log)
      else if get (m_have s) i then Some (Search bf (S i), s, log)
      else Some (Owns i false, s, log)
  | Owns i x, Assemble data => Some (Verify i x data, s, log)
  | Owns i x, GiveUp => Some (after_failure i x, s, log)
  | Owns i x, DropDone => if get (m_have s) i then Some (Idle, s, log) else None
  | Verify i x data, Tick =>
      if get (m_have s) i then Some (Idle, s, log)
      else if bool_decide (sha1 data = hash_of c i) then Some (CasHave i x data, s, log)
      else Some (Recheck i x, s, log)
  | Recheck i x, Tick =>
      if get (m_have s) i then Some (Idle, s, log) else Some (Count_failure i x, s, log)
  | Count_failure i x, Tick => Some (after_failure i x, add_failure s, log)
  | CasHave i x data, Tick =>
      if get (m_have s) i then Some (Idle, s, log) else Some (Writing i data, set_have i s, log)
  | Writing i data, Tick => Some (AddBytes i, s, log ++ [(i, data)])
  | Writing i data, WriteThrows => Some (Failed i, s, log)
  | AddBytes i, Tick => Some (AddCount i, add_bytes (piece_length c (Z.of_nat i)) s, log)
  | AddCount i, Tick => Some (Idle, add_completed s, log)
  | AbortLoad i, Tick => if get (m_have s) i then Some (Idle, s, log) else Some (AbortStore i, s, log)
  | AbortStore i, Tick => Some (Idle, set_claimed i false s, log)
  | _, _ => None
  end.

(** Thread [k] takes a step; an action it cannot take changes nothing. *)
Definition pm_step (g : Shared) (e : nat * Action) : Shared :=
  match sh_threads g !! fst e with
  | None => g
  | Some t =>
      match thread_step t (snd e) (sh_state g) (sh_written g) with
      | None => g
      | Some (t', s', log') => mkShared s' log' (<[fst e := t']> (sh_threads g))
      end
  end.

Definition pm_run (g : Shared) (es : list (nat * Action)) : Shared := fold_left pm_step es g.

(** All atomics false or zero and [n] idle threads. *)
Definition pm_init (n : nat) : Shared :=
  mkShared (mkPieceState (replicate (num c) false) (replicate (num c) false) 0 0 0) [] (replicate n Idle).

(** ** Counting threads *)

Fixpoint total (f : TState -> nat) (l : list TState) : nat :=
  match l with [] => 0 | t :: l' => f t + total f l' end.

Lemma total_insert f l k t t' :
  l !! k = Some t -> (total f (<[k := t']> l) + f t = total f l + f t')%nat.
Proof.
  revert k. induction l as [|x l IH]; intros [|k] Hk; try done.
  - injection Hk as ->. cbn. lia.
  - specialize (IH k Hk). change (<[S k := t']> (x :: l)) with (x :: <[k := t']> l). cbn [total]. lia.
Qed.

Lemma total_pos f l k t : l !! k = Some t -> (f t <= total f l)%nat.
Proof.
  revert k. induction l as [|x l IH]; intros [|k] Hk; try done; cbn in *; [injection Hk as ->; lia|].
  specialize (IH k Hk). lia.
Qed.

Lemma total_two f l k k' t t' :
  l !! k = Some t -> l !! k' = Some t' -> k <> k' -> (f t + f t' <= total f l)%nat.
Proof.
  revert k k'. induction l as [|x l IH]; intros [|k] [|k'] Hk Hk' Hne; try done; cbn in *.
  - injection Hk as ->. pose proof (total_pos f l k' t' Hk'). lia.
  - injection Hk' as ->. pose proof (total_pos f l k t Hk). lia.
  - specialize (IH k k' Hk Hk' ltac:(lia)). lia.
Qed.

Lemma total_exists f l : (1 <= total f l)%nat -> exists k t, l !! k = Some t /\ (1 <= f t)%nat.
Proof.
  induction l as [|x l IH]; cbn [total]; [lia|]. intros Ht. destruct (decide (1 <= f x)%nat) as [Hx|Hx].
  - by exists 0%nat, x.
  - destruct IH as (k & t & Hk & Hf); [lia|]. by exists (S k), t.
Qed.

Lemma total_replicate f n : f Idle = 0%nat -> total f (replicate n Idle) = 0%nat.
Proof. intros Hf. induction n as [|n IH]; cbn; [done|]. lia. Qed.

(** The thread holds the exclusive claim on piece [i]. *)
Definition holds (i : nat) (t : TState) : nat :=
  match t with
  | Owns j true | Verify j true _ | Recheck j true | Count_failure j true | CasHave j true _
  | AbortLoad j | AbortStore j => if decide (i = j) then 1 else 0
  | _ => 0
  end.

(** The thread won the race for piece [i] and its write has not returned. *)
Definition writing (i : nat) (t : TState) : nat :=
  match t with Writing j _ | Failed j => if decide (i = j) then 1 else 0 | _ => 0 end.

(** ... or has not been counted yet. *)
Definition uncounted (t : TState) : nat :=
  match t with Writing _ _ | Failed _ | AddBytes _ | AddCount _ => 1 | _ => 0 end.

Definition counting (t : TState) : nat := match t with AddBytes _ | AddCount _ => 1 | _ => 0 end.

(** The bytes of a written piece that were not added to the progress counter yet. *)
Definition pending (t : TState) : nat :=
  match t with AddBytes i => Z.to_nat (piece_length c (Z.of_nat i)) | _ => 0 end.

Definition bytes_of (log : list (nat * bytes)) : Z :=
  foldr (fun w z => piece_length c (Z.of_nat (fst w)) + z) 0 log.

(** The data of a thread past the hash test is the data of its piece; indices are in
    range. *)
Definition thread_ok (t : TState) : Prop :=
  match t with
  | ScanCas _ i | Owns i _ | Verify i _ _ | Recheck i _ | Count_failure i _ | AddBytes i | AddCount i
  | AbortLoad i | AbortStore i | Failed i => (i < num c)%nat
  | CasHave i _ data | Writing i data => (i < num c)%nat /\ sha1 data = hash_of c i
  | _ => True
  end.

Definition writes_of (i : nat) (log : list (nat * bytes)) : nat := length (filter (fun x => fst x = i) log).

Definition count_true (l : list bool) : nat := length (filter (fun b => b = true) l).

Definition b2n (b : bool) : nat := if b then 1 else 0.

Record pm_inv (g : Shared) : Prop := {
  inv_have : length (m_have (sh_state g)) = num c;
  inv_claimed : length (m_claimed (sh_state g)) = num c;
  inv_holds : forall i, (total (holds i) (sh_threads g) <= b2n (get (m_claimed (sh_state g)) i))%nat;
  inv_noleak : forall i, get (m_claimed (sh_state g)) i = true ->
    get (m_have (sh_state g)) i = true \/ (1 <= total (holds i) (sh_threads g))%nat;
  inv_once : forall i, (writes_of i (sh_written g) + total (writing i) (sh_threads g) =
                        b2n (get (m_have (sh_state g)) i))%nat;
  inv_pos : 0 <= m_completed_count (sh_state g);
  inv_count : m_completed_count (sh_state g) + Z.of_nat (total uncounted (sh_threads g)) =
              Z.of_nat (count_true (m_have (sh_state g)));
  inv_log : Z.of_nat (length (sh_written g)) =
            m_completed_count (sh_state g) + Z.of_nat (total counting (sh_threads g));
  inv_bytes : u64 (m_curr_downloaded_bytes (sh_state g) + Z.of_nat (total pending (sh_threads g))) =
              u64 (bytes_of (sh_written g));
  inv_u64 : u64 (m_curr_downloaded_bytes (sh_state g)) = m_curr_downloaded_bytes (sh_state g);
  inv_verified : Forall (fun w => (fst w < num c)%nat /\ sha1 (snd w) = hash_of c (fst w)) (sh_written g);
  inv_threads : Forall thread_ok (sh_threads g);
}.

(** How the sums change when thread [k] goes from [t] to [t']. *)
Ltac totals Hk t' :=
  match type of Hk with
  | sh_threads _ !! ?k = Some ?t =>
      pose proof (fun i => total_insert (holds i) _ k t t' Hk) as Eholds;
      pose proof (fun i => total_insert (writing i) _ k t t' Hk) as Ewriting;
      pose proof (total_insert uncounted _ k t t' Hk) as Euncounted;
      pose proof (total_insert counting _ k t t' Hk) as Ecounting;
      pose proof (total_insert pending _ k t t' Hk) as Epending;
      cbn [holds writing uncounted counting pending] in Eholds, Ewriting, Euncounted, Ecounting, Epending
  end.

(** The invariant of the new state, with the sums' equations instantiated. *)
Ltac invariant :=
  match goal with Hg : pm_inv _ |- _ => destruct Hg as [Hh Hc Hho Hk' Ho Hp Hn Hl Hb Hb' Hv Ht] end;
  constructor;
  cbn [sh_state sh_written sh_threads set_have set_claimed add_failure add_bytes add_completed
       m_have m_claimed m_completed_count m_curr_downloaded_bytes];
  rewrite ?length_insert, ?length_app; try done;
  try (let j := fresh "j" in intros j;
       match goal with Eholds : forall i, (total (holds i) _ + _ = _)%nat, Ewriting : forall i, (total (writing i) _ + _ = _)%nat |- _ =>
         specialize (Eholds j); specialize (Ewriting j) end;
       match goal with Hho : forall i, (total (holds i) _ <= _)%nat, Ho : forall i, (writes_of i _ + _ = _)%nat,
         Hk' : forall i, get _ i = true -> _ |- _ => specialize (Hho j); specialize (Ho j); specialize (Hk' j) end);
  try lia; try (match goal with Hk' : get _ ?j = true -> _ |- get _ ?j = true -> _ \/ _ =>
    let Hcl := fresh in intros Hcl; destruct (Hk' Hcl); [by left|right; lia] end); try (match goal with Hb : u64 _ = u64 (bytes_of _) |- _ => rewrite <- Hb; f_equal; lia end);
  try (apply Forall_insert; [done|first [done|by cbn]]).

(** A step that changes only the thread, without winning, writing or counting. *)
Lemma inv_move g k t t' :
  pm_inv g -> sh_threads g !! k = Some t -> thread_ok t' ->
  (forall i, holds i t' <= holds i t)%nat ->
  (forall i, holds i t' = holds i t \/ get (m_have (sh_state g)) i = true) -> (forall i, writing i t' = writing i t) ->
  uncounted t' = uncounted t -> counting t' = counting t -> pending t' = pending t ->
  pm_inv (mkShared (sh_state g) (sh_written g) (<[k := t']> (sh_threads g))).
Proof.
  intros Hg Hk Hok H1 H1' H2 H3 H4 H5. totals Hk t'. invariant.
  - specialize (H1 j). lia.
  - intros Hcl. destruct (H1' j) as [E|E]; [|by left]. destruct (Hk' Hcl) as [|Hx]; [by left|right; lia].
  - specialize (H2 j). lia.
Qed.

Lemma get_insert (l : list bool) i j b :
  (i < length l)%nat -> get (<[i := b]> l) j = if decide (j = i) then b else get l j.
Proof.
  intros Hi. unfold get. case_decide; subst; [by rewrite list_lookup_insert_eq|by rewrite list_lookup_insert_ne].
Qed.

Lemma count_true_insert l i : get l i = false -> (i < length l)%nat -> count_true (<[i := true]> l) = S (count_true l).
Proof.
  unfold count_true, get. revert i. induction l as [|b l IH]; intros [|i] Hg Hi; cbn [length] in Hi; try lia.
  - cbn in Hg. by subst.
  - specialize (IH i Hg ltac:(lia)). change (<[S i := true]> (b :: l)) with (b :: <[i := true]> l).
    rewrite !filter_cons. case_decide; cbn [length]; lia.
Qed.

Lemma count_true_le l : (count_true l <= length l)%nat.
Proof. unfold count_true. apply length_filter. Qed.

Lemma thread_lookup_ok g k t : pm_inv g -> sh_threads g !! k = Some t -> thread_ok t.
Proof. intros Hg Hk. by eapply Forall_lookup_1 in Hk; [|apply (inv_threads _ Hg)]. Qed.

(** Winning the CAS on [m_claimed]. *)
Lemma inv_claim g k bf i :
  pm_inv g -> sh_threads g !! k = Some (ScanCas bf i) -> get (m_claimed (sh_state g)) i = false ->
  pm_inv (mkShared (set_claimed i true (sh_state g)) (sh_written g) (<[k := Owns i true]> (sh_threads g))).
Proof.
  intros Hg Hk Hf. pose proof (thread_lookup_ok g k _ Hg Hk) as Hi. cbn in Hi.
  totals Hk (Owns i true). invariant; rewrite get_insert by lia.
  - case_decide; subst; cbn [b2n]; [rewrite Hf in Hho; cbn in Hho|]; lia.
  - case_decide; subst; [rewrite ?decide_True in Eholds by done; right; lia|].
    intros Hcl. destruct (Hk' Hcl); [by left|right; lia].
Qed.

(** Releasing the claim: no other thread can hold it. *)
Lemma inv_release g k i :
  pm_inv g -> sh_threads g !! k = Some (AbortStore i) ->
  pm_inv (mkShared (set_claimed i false (sh_state g)) (sh_written g) (<[k := Idle]> (sh_threads g))).
Proof.
  intros Hg Hk. pose proof (thread_lookup_ok g k _ Hg Hk) as Hi. cbn in Hi.
  totals Hk Idle. invariant; rewrite get_insert by lia.
  - unfold b2n in *. case_decide; subst; [destruct (get (m_claimed (sh_state g)) i)|]; lia.
  - case_decide as Hj; [done|]. rewrite ?decide_False in Eholds by done.
    intros Hcl. destruct (Hk' Hcl); [by left|right; lia].
Qed.

(** Winning the CAS on [m_have]. *)
Lemma inv_win g k i x data :
  pm_inv g -> sh_threads g !! k = Some (CasHave i x data) -> get (m_have (sh_state g)) i = false ->
  pm_inv (mkShared (set_have i (sh_state g)) (sh_written g) (<[k := Writing i data]> (sh_threads g))).
Proof.
  intros Hg Hk Hf. pose proof (thread_lookup_ok g k _ Hg Hk) as [Hi Hd].
  totals Hk (Writing i data). invariant.
  - rewrite get_insert by lia. intros Hcl. case_decide as Hj; [by left|].
    assert (total (holds j) (<[k:=Writing i data]> (sh_threads g)) = total (holds j) (sh_threads g)) as ->
      by (destruct x; rewrite ?decide_False in Eholds by done; lia).
    by apply Hk'.
  - rewrite get_insert by lia. case_decide; subst; cbn [b2n]; [rewrite Hf in Ho; cbn in Ho|]; lia.
  - rewrite count_true_insert by (done || lia). lia.
Qed.

Lemma bytes_of_app l1 l2 : bytes_of (l1 ++ l2) = bytes_of l1 + bytes_of l2.
Proof. unfold bytes_of in *. induction l1 as [|w l1 IH]; [done|]. cbn [foldr app]. rewrite IH. lia. Qed.

Lemma writes_of_snoc log i data j :
  writes_of j (log ++ [(i, data)]) = (writes_of j log + if decide (j = i) then 1 else 0)%nat.
Proof. unfold writes_of. rewrite filter_app, length_app, filter_cons. cbn [fst]. repeat case_decide; cbn; subst; done. Qed.

Lemma piece_length_range i : 0 <= m_nominal_piece_length c -> 0 <= piece_length c i.
Proof. intros Hn. unfold piece_length. case_if; [done|]. apply Z.mod_pos_bound. done. Qed.

(** Two 64-bit sums agree when their summands do. *)
Lemma u64_add_eq a b z : u64 a = u64 b -> u64 (a + z) = u64 (b + z).
Proof. unfold u64. intros E. rewrite Z.add_mod, E, <- Z.add_mod by done. done. Qed.
Context (Hnum : 0 <= m_num_pieces c < 2 ^ 32) (Hnominal : 0 <= m_nominal_piece_length c).

(** The write returns. *)
Lemma inv_write g k i data :
  pm_inv g -> sh_threads g !! k = Some (Writing i data) ->
  pm_inv (mkShared (sh_state g) (sh_written g ++ [(i, data)]) (<[k := AddBytes i]> (sh_threads g))).
Proof.
  intros Hg Hk. pose proof (thread_lookup_ok g k _ Hg Hk) as [Hi Hd].
  pose proof (piece_length_range (Z.of_nat i) Hnominal).
  totals Hk (AddBytes i). invariant.
  - rewrite writes_of_snoc. lia.
  - cbn [length]. lia.
  - rewrite bytes_of_app. rewrite <- (u64_add_eq _ _ _ Hb). f_equal. cbn. lia.
  - apply Forall_app_2; [done|]. by apply Forall_singleton.
Qed.

(** [m_curr_downloaded_bytes.fetch_add] *)
Lemma inv_add_bytes g k i :
  pm_inv g -> sh_threads g !! k = Some (AddBytes i) ->
  pm_inv (mkShared (add_bytes (piece_length c (Z.of_nat i)) (sh_state g)) (sh_written g)
            (<[k := AddCount i]> (sh_threads g))).
Proof.
  intros Hg Hk. pose proof (thread_lookup_ok g k _ Hg Hk) as Hi.
  pose proof (piece_length_range (Z.of_nat i) Hnominal).
  totals Hk (AddCount i). invariant.
  - rewrite <- Hb. unfold u64. rewrite Zplus_mod_idemp_l. f_equal. lia.
  - unfold u64. by rewrite Z.mod_mod.
Qed.

(** [m_completed_count.fetch_add]: the counter cannot wrap. *)
Lemma inv_add_completed g k i :
  pm_inv g -> sh_threads g !! k = Some (AddCount i) ->
  pm_inv (mkShared (add_completed (sh_state g)) (sh_written g) (<[k := Idle]> (sh_threads g))).
Proof.
  intros Hg Hk. pose proof (count_true_le (m_have (sh_state g))). pose proof (total_pos uncounted _ k _ Hk) as Hu.
  rewrite (inv_have _ Hg) in *. unfold num in *. cbn in Hu.
  assert (u32 (m_completed_count (sh_state g) + 1) = m_completed_count (sh_state g) + 1).
  { pose proof (inv_pos _ Hg). pose proof (inv_count _ Hg). apply Z.mod_small. lia. }
  totals Hk Idle. invariant.
Qed.

Lemma inv_add_failure g k i x :
  pm_inv g -> sh_threads g !! k = Some (Count_failure i x) ->
  pm_inv (mkShared (add_failure (sh_state g)) (sh_written g) (<[k := after_failure i x]> (sh_threads g))).
Proof.
  intros Hg Hk. pose proof (thread_lookup_ok g k _ Hg Hk) as Hi.
  destruct x; cbn [after_failure]; [totals Hk (AbortLoad i)|totals Hk Idle]; invariant.
Qed.

(** A step that leaves the atomics and the log alone. *)
Ltac only_moves Hg Hk :=
  apply (inv_move _ _ _ _ Hg Hk);
  [cbn in *; try done; try lia; try naive_solver lia
  |intros ?j; repeat match goal with x : bool |- _ => destruct x end; cbn; repeat case_decide; lia
  |intros ?j; repeat match goal with x : bool |- _ => destruct x end; cbn; try (by left);
   case_decide; subst; first [by left|by right]
  |done|done|done|done].

Lemma pm_step_inv g e : pm_inv g -> pm_inv (pm_step g e).
Proof.
  intros Hg. destruct e as [k a]. unfold pm_step. cbn [fst snd].
  destruct (sh_threads g !! k) as [t|] eqn:Hk; [|done].
  pose proof (thread_lookup_ok g k t Hg Hk) as Hok.
  destruct t, a; cbn [thread_step]; try exact Hg; repeat case_if; b2p; try exact Hg;
    first [ only_moves Hg Hk
          | by apply (inv_claim g k bf) | by apply inv_release | by apply (inv_win g k i x)
          | by apply inv_write | by apply inv_add_bytes | by apply (inv_add_completed g k i)
          | by apply inv_add_failure
          | destruct x; cbn [after_failure]; only_moves Hg Hk ].
Qed.

Lemma pm_run_inv g es : pm_inv g -> pm_inv (pm_run g es).
Proof. revert g. induction es as [|e es IH]; intros g Hg; [done|]. apply IH, pm_step_inv, Hg. Qed.

Lemma get_replicate n i : get (replicate n false) i = false.
Proof. unfold get. destruct (replicate n false !! i) eqn:E; [|done]. by apply lookup_replicate in E as [-> _]. Qed.

Lemma count_true_replicate n : count_true (replicate n false) = 0%nat.
Proof. unfold count_true. induction n as [|n IH]; [done|]. cbn [replicate]. by rewrite filter_cons. Qed.

Lemma pm_init_inv n : pm_inv (pm_init n).
Proof.
  constructor; cbn [pm_init sh_state sh_threads sh_written m_have m_claimed m_completed_count m_curr_downloaded_bytes];
    rewrite ?length_replicate, ?count_true_replicate; try done.
  - intros i. rewrite total_replicate by done. lia.
  - intros i. by rewrite get_replicate.
  - intros i. by rewrite total_replicate, get_replicate by done.
  - by rewrite total_replicate.
  - by rewrite total_replicate.
  - by rewrite total_replicate.
  - by apply Forall_replicate.
Qed.

Lemma pm_reach_inv n es : pm_inv (pm_run (pm_init n) es).
Proof. apply pm_run_inv, pm_init_inv. Qed.

(** ** What the invariant says *)

Lemma writes_of_NoDup log : (forall i, writes_of i log <= 1)%nat -> NoDup (map fst log).
Proof.
  induction log as [|[i d] log IH]; intros Hw; cbn [map]; constructor.
  - intros (w & Hw1 & Hw2)%list_elem_of_fmap. specialize (Hw i). unfold writes_of in Hw.
    rewrite filter_cons_True in Hw by done. cbn [length] in Hw.
    enough (w ∈ filter (fun x => fst x = i) log) as Hin by (destruct (filter _ log); [by apply not_elem_of_nil in Hin|cbn in Hw; lia]).
    by apply list_elem_of_filter.
  - apply IH. intros j. specialize (Hw j). unfold writes_of in *. rewrite filter_cons in Hw. case_decide; cbn [length] in Hw; lia.
Qed.

Lemma inv_writes_once g : pm_inv g -> NoDup (map fst (sh_written g)).
Proof.
  intros Hg. apply writes_of_NoDup. intros i. pose proof (inv_once _ Hg i).
  destruct (get (m_have (sh_state g)) i); cbn in *; lia.
Qed.

Lemma writes_of_pos i log : (1 <= writes_of i log)%nat -> exists data, (i, data) ∈ log.
Proof.
  unfold writes_of. intros Hp. destruct (filter _ log) as [|[j d] l] eqn:E; [cbn in Hp; lia|].
  assert ((j, d) ∈ filter (fun x : nat * bytes => fst x = i) log) as Hin by (rewrite E; by left).
  apply list_elem_of_filter in Hin as [Hj Hin]. cbn in Hj. subst. eauto.
Qed.

Lemma count_true_all l : count_true l = length l -> forall i, (i < length l)%nat -> get l i = true.
Proof.
  induction l as [|b l IH]; intros Hc i Hi; [cbn in Hi; lia|]. pose proof (count_true_le l).
  unfold count_true in *. rewrite filter_cons in Hc. case_decide; cbn [length] in *; [|lia].
  destruct i as [|i]; [done|]. apply IH; lia.
Qed.

Lemma counting_uncounted l : (total counting l <= total uncounted l)%nat.
Proof. induction l as [|t l IH]; [done|]. cbn [total]. destruct t; cbn; lia. Qed.

Lemma writing_uncounted i l : (total (writing i) l <= total uncounted l)%nat.
Proof. induction l as [|t l IH]; [done|]. cbn [total]. destruct t; cbn; try case_decide; lia. Qed.

Lemma pending_counting l : total uncounted l = 0%nat -> total pending l = 0%nat.
Proof. induction l as [|t l IH]; [done|]. cbn [total]. destruct t; cbn; lia. Qed.

(** When the counter reaches the number of pieces nothing is under way. *)
Lemma complete_quiet g :
  pm_inv g -> is_complete c (sh_state g) = true ->
  total uncounted (sh_threads g) = 0%nat /\ count_true (m_have (sh_state g)) = num c.
Proof.
  intros Hg Hc. unfold is_complete in Hc. b2p. pose proof (inv_count _ Hg).
  pose proof (count_true_le (m_have (sh_state g))). rewrite (inv_have _ Hg) in *. unfold num in *. lia.
Qed.

Lemma complete_written g :
  pm_inv g -> is_complete c (sh_state g) = true -> forall i, (i < num c)%nat ->
  get (m_have (sh_state g)) i = true /\ exists data, (i, data) ∈ sh_written g /\ sha1 data = hash_of c i.
Proof.
  intros Hg Hc i Hi. destruct (complete_quiet g Hg Hc) as [Hu Ha].
  assert (get (m_have (sh_state g)) i = true) as Hhave by (apply count_true_all; rewrite (inv_have _ Hg); done).
  split; [done|]. pose proof (inv_once _ Hg i) as Ho. rewrite Hhave in Ho. cbn in Ho.
  pose proof (writing_uncounted i (sh_threads g)).
  destruct (writes_of_pos i (sh_written g) ltac:(lia)) as [data Hin]. exists data. split; [done|].
  pose proof (inv_verified _ Hg) as Hv. rewrite Forall_forall in Hv. by destruct (Hv _ Hin).
Qed.

(** The lengths of the pieces sum up to the torrent's length. *)
Definition sum_lengths (l : list nat) : Z := foldr (fun i z => piece_length c (Z.of_nat i) + z) 0 l.

Lemma sum_lengths_perm l l' : Permutation l l' -> sum_lengths l = sum_lengths l'.
Proof. unfold sum_lengths. induction 1; cbn [foldr]; lia. Qed.

Lemma sum_lengths_app l l' : sum_lengths (l ++ l') = sum_lengths l + sum_lengths l'.
Proof. unfold sum_lengths. induction l as [|x l IH]; cbn [foldr app] in *; lia. Qed.

Lemma bytes_of_sum log : bytes_of log = sum_lengths (map fst log).
Proof. unfold bytes_of, sum_lengths. induction log as [|w log IH]; cbn [foldr map] in *; lia. Qed.

Definition config_ok : Prop :=
  0 < m_num_pieces c /\ 0 <= m_total_length_bytes c < 2 ^ 64 /\ m_nominal_piece_length c < 2 ^ 32 /\
  m_nominal_piece_length c * (m_num_pieces c - 1) < m_total_length_bytes c <= m_nominal_piece_length c * m_num_pieces c.

Lemma piece_length_full i : 0 <= i -> i + 1 < m_num_pieces c -> piece_length c i = m_nominal_piece_length c.
Proof.
  intros H0 Hi. unfold piece_length, u32. rewrite Z.mod_small by lia.
  rewrite (proj2 (Z.ltb_lt _ _)) by lia. done.
Qed.

Lemma piece_length_last :
  config_ok -> piece_length c (m_num_pieces c - 1) =
               m_total_length_bytes c - m_nominal_piece_length c * (m_num_pieces c - 1).
Proof.
  intros (H1 & H2 & H3 & H4). pose proof (Z.mul_nonneg_nonneg _ (m_num_pieces c - 1) Hnominal ltac:(lia)).
  unfold piece_length, u32, u64.
  replace (m_num_pieces c - 1 + 1) with (m_num_pieces c) by lia.
  rewrite (Z.mod_small (m_num_pieces c)), Z.ltb_irrefl by lia.
  rewrite (Z.mod_small (m_num_pieces c - 1)) by lia.
  rewrite (Z.mod_small (m_nominal_piece_length c * _)) by lia.
  rewrite (Z.mod_small (_ - _) (2 ^ 64)) by lia. apply Z.mod_small. lia.
Qed.

Lemma sum_lengths_full n :
  Z.of_nat n < m_num_pieces c -> sum_lengths (seq 0 n) = m_nominal_piece_length c * Z.of_nat n.
Proof.
  induction n as [|n IH]; intros Hn; [cbn; lia|].
  rewrite seq_S, sum_lengths_app, IH by lia. unfold sum_lengths. cbn [foldr plus]. rewrite piece_length_full by lia. lia.
Qed.

Lemma sum_lengths_all : config_ok -> sum_lengths (seq 0 (num c)) = m_total_length_bytes c.
Proof.
  intros Hc. pose proof Hc as (H1 & _). unfold num. destruct (Z.to_nat (m_num_pieces c)) as [|n] eqn:E; [lia|].
  rewrite seq_S, sum_lengths_app, sum_lengths_full by lia. unfold sum_lengths. cbn [foldr plus].
  replace (Z.of_nat n) with (m_num_pieces c - 1) by lia. rewrite (piece_length_last Hc). lia.
Qed.

(** At completion the progress counter shows the length of the torrent. *)
Lemma complete_bytes g :
  pm_inv g -> config_ok -> is_complete c (sh_state g) = true ->
  m_curr_downloaded_bytes (sh_state g) = m_total_length_bytes c.
Proof.
  intros Hg Hc Hd. destruct (complete_quiet g Hg Hd) as [Hu Ha].
  pose proof (inv_bytes _ Hg) as Hb. rewrite (pending_counting _ Hu), Z.add_0_r, (inv_u64 _ Hg) in Hb.
  rewrite Hb, bytes_of_sum, (sum_lengths_perm _ (seq 0 (num c))), (sum_lengths_all Hc).
  - unfold u64. apply Z.mod_small. unfold config_ok in Hc. lia.
  - apply NoDup_Permutation; [by apply inv_writes_once|apply NoDup_seq|].
    intros i. rewrite elem_of_seq. split.
    + intros (w & -> & Hw)%list_elem_of_fmap. pose proof (inv_verified _ Hg) as Hv. rewrite Forall_forall in Hv.
      destruct (Hv _ Hw). lia.
    + intros [_ Hi]. destruct (complete_written g Hg Hd i Hi) as (_ & data & Hin & _).
      apply list_elem_of_fmap. by exists (i, data).
Qed.

(** ** A write that throws *)

Lemma failed_step g k i e :
  sh_threads g !! k = Some (Failed i) -> sh_threads (pm_step g e) !! k = Some (Failed i).
Proof.
  intros Hk. unfold pm_step. destruct (sh_threads g !! fst e) as [t|] eqn:Ht; [|done].
  destruct (decide (fst e = k)) as [Hek|Hne].
  - rewrite Hek in Ht. rewrite Hk in Ht. injection Ht as <-. by destruct (snd e).
  - repeat case_match; try done. cbn [sh_threads]. by rewrite list_lookup_insert_ne.
Qed.

Lemma failed_run g k i es :
  sh_threads g !! k = Some (Failed i) -> sh_threads (pm_run g es) !! k = Some (Failed i).
Proof. revert g. induction es as [|e es IH]; intros g Hk; [done|]. by apply IH, failed_step. Qed.

Lemma claim_loop_missing bf i n s j s' : claim_loop bf i n s = Some (j, s') -> get (m_have s) j = false.
Proof. revert i. induction n as [|n IH]; intros i; cbn [claim_loop]; [done|]. repeat case_if; intros; simplify_eq; eauto. Qed.

Lemma endgame_loop_missing bf i n s j : endgame_loop bf i n s = Some j -> get (m_have s) j = false.
Proof. revert i. induction n as [|n IH]; intros i; cbn [endgame_loop]; [done|]. repeat case_if; intros; simplify_eq; eauto. Qed.

Lemma next_needed_missing bf s np s' :
  next_needed c bf s = (Some np, s') -> get (m_have s) (Z.to_nat (np_index np)) = false.
Proof.
  unfold next_needed. destruct (claim_loop bf 0 (num c) s) as [[j s1]|] eqn:E1.
  - intros ?. simplify_eq. cbn. rewrite Nat2Z.id. by eapply claim_loop_missing.
  - destruct (endgame_loop bf 0 (num c) s) eqn:E2; intros ?; simplify_eq. cbn. rewrite Nat2Z.id.
    by eapply endgame_loop_missing.
Qed.

(** What a thread that lost its write leaves behind. *)
Lemma failed_state g k i :
  pm_inv g -> sh_threads g !! k = Some (Failed i) ->
  (i < num c)%nat /\ get (m_have (sh_state g)) i = true /\ is_complete c (sh_state g) = false /\
  (forall data, ~ ((i, data) ∈ sh_written g)).
Proof.
  intros Hg Hk. pose proof (thread_lookup_ok g k _ Hg Hk) as Hi. cbn in Hi.
  pose proof (inv_once _ Hg i) as Ho. pose proof (total_pos (writing i) _ k _ Hk) as Hw.
  pose proof (total_pos uncounted _ k _ Hk) as Hu. cbn in Hw, Hu. rewrite decide_True in Hw by done.
  destruct (get (m_have (sh_state g)) i) eqn:Hh; cbn in Ho; [|lia]. split_and!; try done.
  - apply not_true_is_false. intros Hc. destruct (complete_quiet g Hg Hc). lia.
  - intros data Hin. assert (writes_of i (sh_written g) = 0%nat) as Hz by lia. unfold writes_of in Hz.
    apply nil_length_inv in Hz. assert ((i, data) ∈ filter (fun x => fst x = i) (sh_written g)) as Hf
      by (by apply list_elem_of_filter). rewrite Hz in Hf. by apply not_elem_of_nil in Hf.
Qed.

Lemma current_bitfield_lookup s i : (i < num c)%nat -> current_bitfield c s !! i = Some (get (m_have s) i).
Proof.
  intros Hi. unfold current_bitfield. rewrite list_lookup_fmap, lookup_seq_lt by done. done.
Qed.
End threads.

(** ** The operations are uninterrupted runs of their steps *)

Section solo.
Context `{Sha1} (c : PieceConfig) (k : nat).

(** Thread [k] is in state [t] and nothing else is of interest. *)
Definition at_state (s : PieceState) (log : list (nat * bytes)) (l : list TState) (t : TState) : Shared :=
  mkShared s log (<[k := t]> l).

Lemma solo_step s log l t a t' s' log' :
  (k < length l)%nat -> thread_step c t a s log = Some (t', s', log') ->
  pm_step c (at_state s log l t) (k, a) = at_state s' log' l t'.
Proof.
  intros Hk E. unfold pm_step, at_state. cbn [fst snd sh_threads sh_state sh_written].
  rewrite list_lookup_insert_eq by done. rewrite E. by rewrite list_insert_insert_eq.
Qed.

Lemma leb_false (a b : nat) : (b < a)%nat -> (a <=? b)%nat = false.
Proof. intros. by apply Nat.leb_gt. Qed.

Lemma solo_scan n : forall bf i s log l, (k < length l)%nat -> (num c = i + n)%nat ->
  exists m, (m <= 2 * n + 1)%nat /\ pm_run c (at_state s log l (Scan bf i)) (replicate m (k, Tick)) =
    match claim_loop bf i n s with
    | Some (j, s') => at_state s' log l (Owns j true)
    | None => at_state s log l (Search bf 0)
    end.
Proof.
  induction n as [|n IH]; intros bf i s log l Hk Hn; cbn [claim_loop].
  - exists 1%nat. split; [lia|]. unfold pm_run. cbn [replicate fold_left]. apply solo_step; [done|]. cbn [thread_step].
    rewrite (proj2 (Nat.leb_le _ _)) by lia. done.
  - destruct (IH bf (S i) s log l Hk ltac:(lia)) as (m & Hle' & Hm).
    assert ((num c <=? i)%nat = false) as Hle by (apply leb_false; lia).
    destruct (negb (peer_has bf i)) eqn:H1; [|destruct (get (m_have s) i) eqn:H2; [|destruct (get (m_claimed s) i) eqn:H3]].
    + exists (S m). split; [lia|]. unfold pm_run in *. cbn [replicate fold_left]. erewrite solo_step; [exact Hm|done|].
      cbn [thread_step]. by rewrite Hle, H1.
    + exists (S m). split; [lia|]. unfold pm_run in *. cbn [replicate fold_left]. erewrite solo_step; [exact Hm|done|].
      cbn [thread_step]. by rewrite Hle, H1, H2.
    + exists (S (S m)). split; [lia|]. unfold pm_run in *. cbn [replicate fold_left].
      erewrite solo_step; [|done|cbn [thread_step]; by rewrite Hle, H1, H2].
      erewrite solo_step; [exact Hm|done|]. cbn [thread_step]. by rewrite H3.
    + exists 2%nat. split; [lia|]. unfold pm_run in *. cbn [replicate fold_left].
      erewrite solo_step; [|done|cbn [thread_step]; by rewrite Hle, H1, H2].
      erewrite solo_step; [done|done|]. cbn [thread_step]. by rewrite H3.
Qed.

Lemma solo_search n : forall bf i s log l, (k < length l)%nat -> (num c = i + n)%nat ->
  exists m, (m <= n + 1)%nat /\ pm_run c (at_state s log l (Search bf i)) (replicate m (k, Tick)) =
    match endgame_loop bf i n s with
    | Some j => at_state s log l (Owns j false)
    | None => at_state s log l Idle
    end.
Proof.
  induction n as [|n IH]; intros bf i s log l Hk Hn; cbn [endgame_loop].
  - exists 1%nat. split; [lia|]. unfold pm_run. cbn [replicate fold_left]. apply solo_step; [done|]. cbn [thread_step].
    rewrite (proj2 (Nat.leb_le _ _)) by lia. done.
  - destruct (IH bf (S i) s log l Hk ltac:(lia)) as (m & Hle' & Hm).
    assert ((num c <=? i)%nat = false) as Hle by (apply leb_false; lia).
    destruct (negb (peer_has bf i)) eqn:H1; [|destruct (get (m_have s) i) eqn:H2].
    + exists (S m). split; [lia|]. unfold pm_run in *. cbn [replicate fold_left]. erewrite solo_step; [exact Hm|done|].
      cbn [thread_step]. by rewrite Hle, H1.
    + exists (S m). split; [lia|]. unfold pm_run in *. cbn [replicate fold_left]. erewrite solo_step; [exact Hm|done|].
      cbn [thread_step]. by rewrite Hle, H1, H2.
    + exists 1%nat. split; [lia|]. unfold pm_run in *. cbn [replicate fold_left]. erewrite solo_step; [done|done|].
      cbn [thread_step]. by rewrite Hle, H1, H2.
Qed.

(** [next_needed] is what a thread computes when it is not interrupted ... *)
Lemma solo_next_needed bf s log l :
  (k < length l)%nat ->
  exists m, (m <= 3 * num c + 2)%nat /\
  pm_run c (at_state s log l Idle) ((k, Start bf) :: replicate m (k, Tick)) =
    at_state (snd (next_needed c bf s)) log l
      (match fst (next_needed c bf s) with
       | Some np => Owns (Z.to_nat (np_index np)) (np_exclusive np)
       | None => Idle
       end).
Proof.
  intros Hk. unfold next_needed. destruct (solo_scan (num c) bf 0 s log l Hk ltac:(lia)) as (m1 & L1 & E1).
  destruct (claim_loop bf 0 (num c) s) as [[j s']|].
  - exists m1. split; [lia|]. cbn [fst snd np_index np_exclusive]. rewrite Nat2Z.id. unfold pm_run in *. cbn [fold_left].
    erewrite solo_step; [exact E1|done|done].
  - destruct (solo_search (num c) bf 0 s log l Hk ltac:(lia)) as (m2 & L2 & E2). exists (m1 + m2)%nat. split; [lia|].
    unfold pm_run in *. cbn [fold_left]. erewrite solo_step; [|done|done].
    rewrite replicate_add, fold_left_app, E1, E2. destruct (endgame_loop bf 0 (num c) s); cbn; [by rewrite Nat2Z.id|done].
Qed.

(** ... and [complete_piece] too, the write returning or throwing as the disk decides. *)
Lemma solo_complete_piece `{DiskEnv} dw i x data s d s' d' r log l :
  (k < length l)%nat -> (i < num c)%nat ->
  complete_piece c dw (Z.of_nat i) data s d = (s', d', r) ->
  exists es, (length es <= 5)%nat /\ Forall (fun e => fst e = k) es /\
    pm_run c (at_state s log l (Verify i x data)) es =
    at_state s' (if bool_decide (r = Ok true) && negb (get (m_have s) i) then log ++ [(i, data)] else log) l
      (match r with Ok true => Idle | Ok false => after_failure i x | Throw _ => Failed i end).
Proof.
  intros Hk Hi. unfold complete_piece, num in *. rewrite (proj2 (Z.leb_gt _ _)), Nat2Z.id by lia.
  destruct (get (m_have s) i) eqn:H1; [|destruct (bool_decide (sha1 data = hash_of c i)) eqn:H2; cbn [negb]].
  - intros ?. simplify_eq. exists [(k, Tick)]. split; [cbn; lia|]. split; [by repeat constructor|].
    rewrite andb_false_r. apply solo_step; [done|]. cbn [thread_step]. by rewrite H1.
  - destruct (write_piece dw (Z.of_nat i) data d) as [d1 [u|e]]; intros ?; simplify_eq.
    + exists (replicate 5 (k, Tick)). split; [cbn; lia|]. split; [by repeat constructor|].
      rewrite bool_decide_true by done. cbn [andb negb]. unfold pm_run. cbn [replicate fold_left].
      erewrite solo_step; [|done|cbn [thread_step]; by rewrite H1, H2].
      erewrite solo_step; [|done|cbn [thread_step]; by rewrite H1].
      do 3 (erewrite solo_step; [|done|done]). done.
    + exists [(k, Tick); (k, Tick); (k, WriteThrows)]. split; [cbn; lia|]. split; [by repeat constructor|].
      rewrite bool_decide_false by done. cbn [andb]. unfold pm_run. cbn [fold_left].
      erewrite solo_step; [|done|cbn [thread_step]; by rewrite H1, H2].
      erewrite solo_step; [|done|cbn [thread_step]; by rewrite H1].
      erewrite solo_step; [|done|done]. done.
  - intros ?. simplify_eq. exists (replicate 3 (k, Tick)). split; [cbn; lia|]. split; [by repeat constructor|].
    rewrite bool_decide_false by done. cbn [andb]. unfold pm_run. cbn [replicate fold_left].
    erewrite solo_step; [|done|cbn [thread_step]; by rewrite H1, H2].
    erewrite solo_step; [|done|cbn [thread_step]; by rewrite H1].
    erewrite solo_step; [|done|done]. done.
Qed.
End solo.

(** ** What the operations promise *)

(** A piece the peer has and we do not. *)
Definition wanted (c : PieceConfig) (bf : list bool) (s : PieceState) (i : nat) : Prop :=
  (i < num c)%nat /\ get bf i = true /\ get (m_have s) i = false.

(** The choice: the first wanted piece nobody claims, which is claimed, and only it;
    when all wanted pieces are claimed, the first of them, shared and with no change; and
    no piece only when none is wanted. *)
Definition picks (c : PieceConfig) (bf : list bool) (s : PieceState) (r : option NeededPiece) (s' : PieceState) : Prop :=
  match r with
  | None => s' = s /\ forall j, ~ wanted c bf s j
  | Some np => exists i, np_index np = Z.of_nat i /\ wanted c bf s i /\
      if np_exclusive np then
        get (m_claimed s) i = false /\ s' = set_claimed i true s /\
        forall j, (j < i)%nat -> wanted c bf s j -> get (m_claimed s) j = true
      else
        s' = s /\ (forall j, wanted c bf s j -> get (m_claimed s) j = true) /\
        forall j, (j < i)%nat -> ~ wanted c bf s j
  end.

Lemma claim_loop_picks bf i n s :
  match claim_loop bf i n s with
  | Some (j, s') => (i <= j < i + n)%nat /\ get bf j = true /\ get (m_have s) j = false /\
      get (m_claimed s) j = false /\ s' = set_claimed j true s /\
      forall h, (i <= h < j)%nat -> get bf h = true -> get (m_have s) h = false -> get (m_claimed s) h = true
  | None => forall h, (i <= h < i + n)%nat -> get bf h = true -> get (m_have s) h = false -> get (m_claimed s) h = true
  end.
Proof.
  induction n as [|n IH] in i |- *; cbn [claim_loop]; [intros h Hh; lia|]. specialize (IH (S i)).
  assert ((get bf i = true -> get (m_have s) i = false -> get (m_claimed s) i = true) ->
    match claim_loop bf (S i) n s with
    | Some (j, s') => (i <= j < i + S n)%nat /\ get bf j = true /\ get (m_have s) j = false /\
        get (m_claimed s) j = false /\ s' = set_claimed j true s /\
        forall h, (i <= h < j)%nat -> get bf h = true -> get (m_have s) h = false -> get (m_claimed s) h = true
    | None => forall h, (i <= h < i + S n)%nat -> get bf h = true -> get (m_have s) h = false -> get (m_claimed s) h = true
    end) as Hnext.
  { intros Hi. destruct (claim_loop bf (S i) n s) as [[j s']|].
    - destruct IH as (? & ? & ? & ? & ? & Hh). split_and!; try done; try lia. intros h ?.
      destruct (decide (h = i)) as [->|]; [done|]. apply Hh. lia.
    - intros h ?. destruct (decide (h = i)) as [->|]; [done|]. apply IH. lia. }
  unfold peer_has. destruct (get bf i) eqn:E1; cbn [negb]; [|by apply Hnext].
  destruct (get (m_have s) i) eqn:E2; [by apply Hnext|].
  destruct (get (m_claimed s) i) eqn:E3; [by apply Hnext|].
  split_and!; done || lia.
Qed.

Lemma endgame_loop_picks bf i n s :
  match endgame_loop bf i n s with
  | Some j => (i <= j < i + n)%nat /\ get bf j = true /\ get (m_have s) j = false /\
      forall h, (i <= h < j)%nat -> get bf h = true -> get (m_have s) h = true
  | None => forall h, (i <= h < i + n)%nat -> get bf h = true -> get (m_have s) h = true
  end.
Proof.
  induction n as [|n IH] in i |- *; cbn [endgame_loop]; [intros h Hh; lia|]. specialize (IH (S i)).
  destruct ((get bf i) && negb (get (m_have s) i)) eqn:E.
  - apply andb_true_iff in E as [E1 E2%negb_true_iff]. unfold peer_has. rewrite E1, E2. cbn [negb].
    split_and!; done || lia.
  - assert (get bf i = true -> get (m_have s) i = true) as Hi
      by (intros E1; rewrite E1 in E; by destruct (get (m_have s) i)).
    replace (if negb (peer_has bf i) then endgame_loop bf (S i) n s
             else if get (m_have s) i then endgame_loop bf (S i) n s else Some i) with (endgame_loop bf (S i) n s)
      by (unfold peer_has; destruct (get bf i); cbn [negb]; [by rewrite Hi|done]).
    destruct (endgame_loop bf (S i) n s) as [j|].
    + destruct IH as (? & ? & ? & Hh). split_and!; try done; try lia. intros h ?.
      destruct (decide (h = i)) as [->|]; [done|]. apply Hh. lia.
    + intros h ?. destruct (decide (h = i)) as [->|]; [done|]. apply IH. lia.
Qed.

Lemma next_needed_picks c bf s : picks c bf s (fst (next_needed c bf s)) (snd (next_needed c bf s)).
Proof.
  unfold next_needed, picks, wanted.
  pose proof (claim_loop_picks bf 0 (num c) s) as H1. destruct (claim_loop bf 0 (num c) s) as [[i s']|].
  - destruct H1 as (? & ? & ? & ? & ? & Hh). cbn. exists i. split_and!; try done; try lia.
    intros j Hj (? & ? & ?). by apply Hh; [lia|..].
  - pose proof (endgame_loop_picks bf 0 (num c) s) as H2. destruct (endgame_loop bf 0 (num c) s) as [i|]; cbn.
    + destruct H2 as (? & ? & ? & Hh). exists i. split_and!; try done; try lia.
      * intros j (? & ? & ?). apply H1; [lia|done..].
      * intros j Hj (? & Hb & Hn). rewrite Hh in Hn by (lia || done). done.
    + split; [done|]. intros j (? & Hb & Hn). rewrite H2 in Hn by (lia || done). done.
Qed.

(** Completing piece [i]: a piece we have is left alone; otherwise data with the piece's
    hash makes it ours, written and counted, or, when the write throws, ours but neither
    written nor counted; other data changes nothing but the count of failures. *)
Definition completes `{Sha1, DiskEnv} (c : PieceConfig) (dw : DiskWriter) (i : nat) (data : bytes)
    (s : PieceState) (d : Disk) (s' : PieceState) (d' : Disk) (r : result bool) : Prop :=
  if get (m_have s) i then s' = s /\ d' = d /\ r = Ok true
  else m_claimed s' = m_claimed s /\
    if decide (sha1 data = hash_of c i) then
      m_have s' = <[i := true]> (m_have s) /\ m_piece_hash_failures s' = m_piece_hash_failures s /\
      d' = fst (write_piece dw (Z.of_nat i) data d) /\
      match snd (write_piece dw (Z.of_nat i) data d) with
      | Ok _ => r = Ok true /\ m_completed_count s' = u32 (m_completed_count s + 1) /\
                m_curr_downloaded_bytes s' = u64 (m_curr_downloaded_bytes s + piece_length c (Z.of_nat i))
      | Throw e => r = Throw e /\ m_completed_count s' = m_completed_count s /\
                   m_curr_downloaded_bytes s' = m_curr_downloaded_bytes s
      end
    else
      r = Ok false /\ d' = d /\ m_have s' = m_have s /\ m_completed_count s' = m_completed_count s /\
      m_curr_downloaded_bytes s' = m_curr_downloaded_bytes s /\
      m_piece_hash_failures s' = u64 (m_piece_hash_failures s + 1).

Lemma complete_piece_completes `{Sha1, DiskEnv} c dw i data s d :
  (i < num c)%nat ->
  let '(s', d', r) := complete_piece c dw (Z.of_nat i) data s d in completes c dw i data s d s' d' r.
Proof.
  intros Hi. unfold complete_piece, completes, num in *. rewrite (proj2 (Z.leb_gt _ _)), Nat2Z.id by lia.
  destruct (get (m_have s) i); [done|]. destruct (decide (sha1 data = hash_of c i)) as [E|E].
  - rewrite bool_decide_true by done. cbn [negb]. by destruct (write_piece dw (Z.of_nat i) data d) as [d1 [u|e]].
  - by rewrite bool_decide_false.
Qed.

(** C9: what the two operations of the piece manager promise, and that their atomic steps
    keep it.  [next_needed] picks the first piece the peer has, we lack and nobody claims,
    and claims it and nothing else; only when every such piece is claimed it shares the
    first of them, and it answers "none" only when the peer has nothing we lack.
    [complete_piece] does what [completes] says on every branch (duplicate, wrong hash,
    write that returns or throws).  And from any shared state, whatever the other threads
    are at, a thread that is not interrupted does exactly this by its atomic accesses, in
    at most 3 n + 3 steps for [n] pieces and at most five: the same choice, the same
    state, a write logged exactly when a new piece was written, and the thread left where
    the result says. *)
Theorem piece_operations_correct `{Sha1} `{DiskEnv} (c : PieceConfig) (k : nat) (l : list TState) :
  (k < length l)%nat ->
  (forall bf s log,
     let '(r, s') := next_needed c bf s in
     picks c bf s r s' /\
     exists m, (m <= 3 * num c + 2)%nat /\
       pm_run c (at_state k s log l Idle) ((k, Start bf) :: replicate m (k, Tick)) =
       at_state k s' log l
         (match r with Some np => Owns (Z.to_nat (np_index np)) (np_exclusive np) | None => Idle end)) /\
  (forall dw i x data s d log, (i < num c)%nat ->
     let '(s', d', r) := complete_piece c dw (Z.of_nat i) data s d in
     completes c dw i data s d s' d' r /\
     exists es, (length es <= 5)%nat /\ Forall (fun e => fst e = k) es /\
       pm_run c (at_state k s log l (Verify i x data)) es =
       at_state k s' (if bool_decide (r = Ok true) && negb (get (m_have s) i) then log ++ [(i, data)] else log) l
         (match r with Ok true => Idle | Ok false => after_failure i x | Throw _ => Failed i end)).
Proof.
  intros Hk. split.
  - intros bf s log. pose proof (next_needed_picks c bf s) as Hp.
    pose proof (solo_next_needed c k bf s log l Hk) as Hr. by destruct (next_needed c bf s).
  - intros dw i x data s d log Hi. pose proof (complete_piece_completes c dw i data s d Hi) as Hc.
    destruct (complete_piece c dw (Z.of_nat i) data s d) as [[s' d'] r] eqn:E. split; [exact Hc|].
    by apply (solo_complete_piece c k dw i x data s d s' d').
Qed.

(** C37: for any number of peer threads and any interleaving of their atomic accesses
    (claims, endgame requests, completions with any data, aborts and failing writes): no
    two threads hold the exclusive claim on the same piece, and no claim is lost (a claimed
    piece is complete or has its owner); every call of write_piece that returned had data with the piece's SHA-1, and no piece is written twice; when
    is_complete answers true every piece has been verified and its write has returned,
    have_piece is true for it and downloaded_bytes is the length of the torrent; and when
    all threads are idle the counter is the number of pieces whose flag is set. *)
Theorem piece_manager_interleavings `{Sha1} (c : PieceConfig) (n : nat) (es : list (nat * Action)) :
  m_num_pieces c < 2 ^ 32 -> 0 <= m_nominal_piece_length c -> config_ok c ->
  let g := pm_run c (pm_init c n) es in
  (forall i k k' t t', sh_threads g !! k = Some t -> sh_threads g !! k' = Some t' ->
     holds i t = 1%nat -> holds i t' = 1%nat -> k = k') /\
  (forall i, get (m_claimed (sh_state g)) i = true ->
     get (m_have (sh_state g)) i = true \/ exists k t, sh_threads g !! k = Some t /\ holds i t = 1%nat) /\
  NoDup (map fst (sh_written g)) /\
  Forall (fun w => (fst w < num c)%nat /\ sha1 (snd w) = hash_of c (fst w)) (sh_written g) /\
  (is_complete c (sh_state g) = true ->
     m_curr_downloaded_bytes (sh_state g) = m_total_length_bytes c /\
     forall i, (i < num c)%nat -> have_piece c (Z.of_nat i) (sh_state g) = true /\
       exists data, ((i, data) ∈ sh_written g) /\ sha1 data = hash_of c i) /\
  (Forall (eq Idle) (sh_threads g) ->
     m_completed_count (sh_state g) = Z.of_nat (count_true (m_have (sh_state g)))).
Proof.
  intros Hn Hp Hok g. assert (0 <= m_num_pieces c < 2 ^ 32) as Hnum by (unfold config_ok in Hok; lia).
  assert (pm_inv c g) as Hg by (by apply pm_reach_inv).
  split_and!.
  - intros i k k' t t' Hk Hk' H1 H2. destruct (decide (k = k')) as [|Hne]; [done|].
    pose proof (total_two (holds i) _ k k' t t' Hk Hk' Hne). pose proof (inv_holds c g Hg i).
    destruct (get (m_claimed (sh_state g)) i); cbn in *; lia.
  - intros i Hcl. destruct (inv_noleak c g Hg i Hcl) as [|Hx]; [by left|right].
    destruct (total_exists _ _ Hx) as (k & t & Hk & Ht). exists k, t. split; [done|].
    destruct t as [| | | |? []|? [] ?|? []|? []|? [] ?| | | | | |]; cbn in *; try case_decide; lia.
  - by apply (inv_writes_once c).
  - apply (inv_verified c g Hg).
  - intros Hc. split; [by apply complete_bytes|]. intros i Hi.
    destruct (complete_written c Hnum g Hg Hc i Hi) as [H1 H2]. split; [|done].
    unfold have_piece. rewrite (proj2 (Z.leb_gt _ _)), Nat2Z.id by (unfold num in Hi; lia). done.
  - intros Hidle. pose proof (inv_count c g Hg) as Hcnt. enough (total uncounted (sh_threads g) = 0%nat) by lia.
    revert Hidle. induction (sh_threads g) as [|t l IH]; intros Hidle; [done|].
    inversion Hidle; subst. cbn. by apply IH.
Qed.

(** C38: complete_piece marks a piece before it writes it.  Once a write has thrown,
    whatever any thread does afterwards: have_piece and the advertised bitfield claim the
    piece although nothing was written, next_needed never offers it again, and is_complete
    stays false. *)
Theorem failed_write_is_final `{Sha1} (c : PieceConfig) (n : nat) (es es' : list (nat * Action)) (k i : nat) :
  0 <= m_num_pieces c < 2 ^ 32 -> 0 <= m_nominal_piece_length c ->
  sh_threads (pm_run c (pm_init c n) es) !! k = Some (Failed i) ->
  let g := pm_run c (pm_run c (pm_init c n) es) es' in
  have_piece c (Z.of_nat i) (sh_state g) = true /\
  current_bitfield c (sh_state g) !! i = Some true /\
  (forall data, ~ ((i, data) ∈ sh_written g)) /\
  (forall bf np s', next_needed c bf (sh_state g) = (Some np, s') -> np_index np <> Z.of_nat i) /\
  is_complete c (sh_state g) = false.
Proof.
  intros Hn Hp Hk g. assert (pm_inv c g) as Hg by (by apply pm_run_inv, pm_reach_inv).
  destruct (failed_state c Hn g k i Hg (failed_run c _ k i es' Hk)) as (Hi & Hh & Hc & Hw).
  split_and!; try done.
  - unfold have_piece. rewrite (proj2 (Z.leb_gt _ _)), Nat2Z.id by (unfold num in Hi; lia). done.
  - by rewrite current_bitfield_lookup, Hh.
  - intros bf np s' E Hix. apply next_needed_missing in E. rewrite Hix, Nat2Z.id in E. congruence.
Qed.

(** ** Witnesses *)

Definition sample_config : PieceConfig :=
  let hash d := @sha1 sample_sha1 d in mkPieceConfig 3 2 2 [hash [1; 2]; hash [3]].

(** Two threads download a piece each, a third one joins in the endgame and loses. *)
Definition sample_events : list (nat * Action) :=
  [(0, Start [true; true]); (1, Start [true; true]); (0, Tick); (1, Tick); (1, Tick); (0, Tick); (0, Tick); (0, Tick);
   (2, Start [true]); (2, Tick); (2, Tick); (2, Tick); (2, Tick); (2, Tick);
   (1, Assemble [1; 2]%Z); (2, Assemble [1; 2]%Z); (1, Tick); (2, Tick); (1, Tick); (2, Tick);
   (0, Assemble [3]%Z); (0, Tick); (1, Tick); (0, Tick); (0, Tick); (1, Tick); (0, Tick); (1, Tick); (0, Tick)]%nat.

Lemma piece_manager_interleavings_witness :
  let _ : Sha1 := sample_sha1 in
  let g := pm_run sample_config (pm_init sample_config 3) sample_events in
  is_complete sample_config (sh_state g) = true /\ m_curr_downloaded_bytes (sh_state g) = 3 /\
  sh_threads g = [Idle; Idle; Idle].
Proof.
  intros HS g. assert (is_complete sample_config (sh_state g) = true) as Hc by (vm_compute; reflexivity).
  split; [exact Hc|]. split; [|vm_compute; reflexivity].
  destruct (piece_manager_interleavings sample_config 3 sample_events) as (_ & _ & _ & _ & H & _); [done|done| |].
  - unfold config_ok. cbn. lia.
  - exact (proj1 (H Hc)).
Defined.

(** The disk refuses the first piece. *)
Definition sample_failure : list (nat * Action) :=
  [(0, Start [true]); (0, Tick); (0, Tick); (0, Assemble [1; 2]%Z); (0, Tick); (0, Tick); (0, WriteThrows)]%nat.

Lemma failed_write_is_final_witness :
  let _ : Sha1 := sample_sha1 in
  let g := pm_run sample_config (pm_init sample_config 2) sample_failure in
  sh_written g = [] /\ have_piece sample_config 0 (sh_state g) = true /\
  forall es, is_complete sample_config (sh_state (pm_run sample_config g es)) = false.
Proof.
  intros HS g. split; [reflexivity|].
  assert (sh_threads g !! 0%nat = Some (Failed 0)) as Hk by reflexivity.
  split.
  - apply (failed_write_is_final sample_config 2 sample_failure [] 0 0); [by vm_compute|done|exact Hk].
  - intros es. apply (failed_write_is_final sample_config 2 sample_failure es 0 0); [by vm_compute|done|exact Hk].
Defined.

(** Thread 1 of two asks for a piece: the first one is claimed, it gets the second. *)
Lemma piece_operations_correct_witness :
  let _ : Sha1 := sample_sha1 in
  let s := mkPieceState [false; false] [true; false] 0 0 0 in
  next_needed sample_config [true; true] s = (Some (mkNeeded 1 true), set_claimed 1 true s) /\
  exists m, (m <= 8)%nat /\
  pm_run sample_config (at_state 1 s [] [Idle; Idle] Idle) ((1%nat, Start [true; true]) :: replicate m (1%nat, Tick))
  = at_state 1 (set_claimed 1 true s) [] [Idle; Idle] (Owns 1 true).
Proof.
  intros HS s. split; [reflexivity|].
  refine (proj2 (proj1 (@piece_operations_correct HS good_disk sample_config 1 [Idle; Idle] _) [true; true] s [])).
  cbn. lia.
Defined.
