(* ===== verification/PeerConnection.v ===== *)
(** * One peer's connection (inc/peer_wire/peer_connection.h,
    src/peer_wire/peer_connection.cpp)

    The handshake, the message handlers and the loop of a peer thread, over the piece
    manager and the disk.  An action changes the world (the connection's own fields, the
    piece manager, the disk, what was sent) and returns or throws; a throw keeps the
    changes made before it, as in C++.  [send_fate] decides which sends throw and which
    are made on a connection that is shut down, where the process dies of SIGPIPE
    ([Sigpipe]); the other threads' effect on the piece manager and the disk is a
    parameter of the loop. *)

From S2P Require Import Prelude CxxLib ByteOrder Hash Bencode TorrentFile DiskWriter PieceManager PeerMessage.

Definition MAX_PIPELINE : Z := 15.

Record InFlightPiece := mkInFlight {
  if_index : Z;
  if_length : Z;
  next_block_offset : Z;
  requests_in_flight : Z;
  if_data : bytes;
  blocks_received : list bool;
  blocks_done : Z;
  blocks_total : Z;
}.

Record Conn := mkConn {
  m_connected : bool;
  m_am_choking : bool;
  m_am_interested : bool;
  m_peer_choking : bool;
  m_peer_interested : bool;
  m_peer_bitfield : list bool;
  m_current_piece : option InFlightPiece;
  m_current_piece_exclusive : bool;
  m_bytes_downloaded : Z;
  m_bytes_uploaded : Z;
  m_blocks_uploaded : Z;
}.

Record World := mkWorld {
  w_conn : Conn;
  w_pieces : PieceState;
  w_disk : Disk;
  w_sent : list bytes; (* the buffers handed to the socket *)
}.

(** ** Actions *)

Definition io (A : Type) : Type := World -> World * result A.

Definition ret {A} (a : A) : io A := fun w => (w, Ok a).
Definition throw {A} (e : exn) : io A := fun w => (w, Throw e).
Definition lift {A} (r : result A) : io A := fun w => (w, r).
Definition bind {A B} (m : io A) (k : A -> io B) : io B := fun w =>
  match m w with (w', Ok a) => k a w' | (w', Throw e) => (w', Throw e) end.
Definition get_conn : io Conn := fun w => (w, Ok (w_conn w)).
Definition modify (f : Conn -> Conn) : io unit := fun w =>
  (mkWorld (f (w_conn w)) (w_pieces w) (w_disk w) (w_sent w), Ok ()).
(** A query and an update of the piece manager. *)
Definition ask {A} (f : PieceState -> A) : io A := fun w => (w, Ok (f (w_pieces w))).
Definition update {A} (f : PieceState -> A * PieceState) : io A := fun w =>
  let '(a, s) := f (w_pieces w) in (mkWorld (w_conn w) s (w_disk w) (w_sent w), Ok a).

Declare Scope io_scope.
Delimit Scope io_scope with io.
Notation "x <- m ;; k" := (bind m (fun x => k)) (at level 100, m at next level, right associativity) : io_scope.
Notation "m ;; k" := (bind m (fun _ => k)) (at level 100, right associativity) : io_scope.
Local Open Scope io_scope.

(** Updates of single fields. *)
Definition set_connected b (n : Conn) : Conn :=
  mkConn b (m_am_choking n) (m_am_interested n) (m_peer_choking n) (m_peer_interested n) (m_peer_bitfield n)
    (m_current_piece n) (m_current_piece_exclusive n) (m_bytes_downloaded n) (m_bytes_uploaded n) (m_blocks_uploaded n).
Definition set_am_choking b (n : Conn) : Conn :=
  mkConn (m_connected n) b (m_am_interested n) (m_peer_choking n) (m_peer_interested n) (m_peer_bitfield n)
    (m_current_piece n) (m_current_piece_exclusive n) (m_bytes_downloaded n) (m_bytes_uploaded n) (m_blocks_uploaded n).
Definition set_am_interested b (n : Conn) : Conn :=
  mkConn (m_connected n) (m_am_choking n) b (m_peer_choking n) (m_peer_interested n) (m_peer_bitfield n)
    (m_current_piece n) (m_current_piece_exclusive n) (m_bytes_downloaded n) (m_bytes_uploaded n) (m_blocks_uploaded n).
Definition set_peer_choking b (n : Conn) : Conn :=
  mkConn (m_connected n) (m_am_choking n) (m_am_interested n) b (m_peer_interested n) (m_peer_bitfield n)
    (m_current_piece n) (m_current_piece_exclusive n) (m_bytes_downloaded n) (m_bytes_uploaded n) (m_blocks_uploaded n).
Definition set_peer_interested b (n : Conn) : Conn :=
  mkConn (m_connected n) (m_am_choking n) (m_am_interested n) (m_peer_choking n) b (m_peer_bitfield n)
    (m_current_piece n) (m_current_piece_exclusive n) (m_bytes_downloaded n) (m_bytes_uploaded n) (m_blocks_uploaded n).
Definition set_peer_bitfield bf (n : Conn) : Conn :=
  mkConn (m_connected n) (m_am_choking n) (m_am_interested n) (m_peer_choking n) (m_peer_interested n) bf
    (m_current_piece n) (m_current_piece_exclusive n) (m_bytes_downloaded n) (m_bytes_uploaded n) (m_blocks_uploaded n).
Definition set_current p x (n : Conn) : Conn :=
  mkConn (m_connected n) (m_am_choking n) (m_am_interested n) (m_peer_choking n) (m_peer_interested n) (m_peer_bitfield n)
    p x (m_bytes_downloaded n) (m_bytes_uploaded n) (m_blocks_uploaded n).
Definition add_downloaded z (n : Conn) : Conn :=
  mkConn (m_connected n) (m_am_choking n) (m_am_interested n) (m_peer_choking n) (m_peer_interested n) (m_peer_bitfield n)
    (m_current_piece n) (m_current_piece_exclusive n) (u64 (m_bytes_downloaded n + z)) (m_bytes_uploaded n)
    (m_blocks_uploaded n).
Definition add_uploaded z (n : Conn) : Conn :=
  mkConn (m_connected n) (m_am_choking n) (m_am_interested n) (m_peer_choking n) (m_peer_interested n) (m_peer_bitfield n)
    (m_current_piece n) (m_current_piece_exclusive n) (m_bytes_downloaded n) (u64 (m_bytes_uploaded n + z))
    (u64 (m_blocks_uploaded n + 1)).
Definition set_piece (p : InFlightPiece) (n : Conn) : Conn := set_current (Some p) (m_current_piece_exclusive n) n.

(** What becomes of a send: the kernel takes the buffer, reports an error, or the
    connection is shut down. *)
Inductive SendFate := Taken | Refused | Broken.

Section connection.
Context {SH : Sha1} {ENV : DiskEnv} (send_fate : list bytes -> SendFate).
Context (c : PieceConfig) (dw : DiskWriter).

(** The constructor. *)
Definition conn_new : Conn :=
  mkConn false true false true false (replicate (num c) false) None false 0 0 0.

(** ** Sending *)

(** [::send] is called without MSG_NOSIGNAL, and nothing ignores SIGPIPE: writing to a
    connection that was shut down (by [cancel] or by the peer) ends the process. *)
Definition send_bytes (b : bytes) : io unit := fun w =>
  match send_fate (w_sent w) with
  | Taken => (mkWorld (w_conn w) (w_pieces w) (w_disk w) (w_sent w ++ [b]), Ok ())
  | Refused => (w, Throw (RuntimeError "send failed"))
  | Broken => (w, Throw Sigpipe)
  end.

Definition send_message (m : PeerMessage) : io unit := wire <- lift (serialize m);; send_bytes wire.

Definition send_interested : io unit :=
  n <- get_conn;;
  if m_am_interested n then ret ()
  else send_message (mkPM Interested []);; modify (set_am_interested true).

Definition send_unchoke : io unit :=
  n <- get_conn;;
  if negb (m_am_choking n) then ret ()
  else send_message (mkPM Unchoke []);; modify (set_am_choking false).

(** ** Requesting *)

(** A new piece: its buffer and flags. *)
Definition new_in_flight (index : Z) : InFlightPiece :=
  let len := piece_length c index in
  let num_blocks := u32 (u32 (len + BLOCK_SIZE) - 1) / BLOCK_SIZE in
  mkInFlight index len 0 0 (replicate (Z.to_nat len) 0) (replicate (Z.to_nat num_blocks) false) 0 num_blocks.

(** The request loop; the loop variables are those of the piece. *)
Fixpoint request_loop (fuel : nat) (p : InFlightPiece) : io unit :=
  if (requests_in_flight p <? MAX_PIPELINE) && (next_block_offset p <? if_length p) then
    match fuel with
    | O => throw OutOfFuel
    | S fuel' =>
        let block_len := Z.min BLOCK_SIZE (u32 (if_length p - next_block_offset p)) in
        send_message (request_to_peer_message (mkRequest (if_index p) (next_block_offset p) block_len));;
        let p := mkInFlight (if_index p) (if_length p) (u32 (next_block_offset p + block_len))
                   (u32 (requests_in_flight p + 1)) (if_data p) (blocks_received p) (blocks_done p) (blocks_total p) in
        modify (set_piece p);;
        request_loop fuel' p
    end
  else ret ().

Definition fill_requests : io unit :=
  n <- get_conn;;
  if m_peer_choking n then ret ()
  else if negb (m_am_interested n) then ret ()
  else
    match m_current_piece n with
    | Some p => done <- ask (have_piece c (if_index p));; if done then modify (set_current None false) else ret ()
    | None => ret ()
    end;;
    n <- get_conn;;
    match m_current_piece n with
    | Some p => request_loop 15 p
    | None =>
        pick <- update (next_needed c (m_peer_bitfield n));;
        match pick with
        | None => ret ()
        | Some np =>
            let p := new_in_flight (np_index np) in
            modify (set_current (Some p) (np_exclusive np));;
            request_loop 15 p
        end
    end.

(** ** Seeding *)

(** The packing loop, from piece [i] on. *)
Fixpoint pack_loop (i : nat) (have : list bool) (bf : bytes) : bytes :=
  match have with
  | [] => bf
  | b :: have' =>
      pack_loop (S i) have'
        (if b then alter (fun x => u8 (Z.lor x (Z.shiftl 1 (7 - Z.of_nat i mod 8)))) (i / 8)%nat bf else bf)
  end.

Definition pack (have : list bool) : bytes := pack_loop 0 have (replicate ((length have + 7) / 8)%nat 0).

Definition send_bitfield : io unit :=
  have <- ask (current_bitfield c);;
  if (count_true have =? 0)%nat then ret ()
  else send_message (bitfield_to_peer_message (mkBitfield (pack have))).

(** ** The handlers *)

Definition release_current : io unit :=
  n <- get_conn;;
  match m_current_piece n with
  | Some p => if m_current_piece_exclusive n then update (fun s => ((), abort_piece c (if_index p) s)) else ret ()
  | None => ret ()
  end.

Definition handle_choke : io unit :=
  modify (set_peer_choking true);;
  n <- get_conn;;
  match m_current_piece n with
  | Some _ => release_current;; modify (set_current None false)
  | None => ret ()
  end.

Definition handle_unchoke : io unit := modify (set_peer_choking false).

Definition handle_interested : io unit := modify (set_peer_interested true);; send_unchoke.

Definition handle_not_interested : io unit := modify (set_peer_interested false).

Definition handle_have (m : PeerMessage) : io unit :=
  have <- lift (have_from_peer_message m);;
  n <- get_conn;;
  if Z.of_nat (length (m_peer_bitfield n)) <=? piece_index have
  then throw (RuntimeError "peer sent out-of-range Have index")
  else
    modify (set_peer_bitfield (<[Z.to_nat (piece_index have) := true]> (m_peer_bitfield n)));;
    mine <- ask (have_piece c (piece_index have));;
    if mine then ret () else send_interested.

(** The copying loop of [handle_bitfield], with [k] pieces left from [i] on. *)
Fixpoint copy_loop (bf : BitfieldMessage) (i k : nat) : io unit :=
  match k with
  | O => ret ()
  | S k' =>
      b <- lift (has_piece bf (Z.of_nat i));;
      (if b then n <- get_conn;; modify (set_peer_bitfield (<[i := true]> (m_peer_bitfield n))) else ret ());;
      copy_loop bf (S i) k'
  end.

(** The loop that looks for a piece we miss. *)
Fixpoint interest_loop (i k : nat) : io unit :=
  match k with
  | O => ret ()
  | S k' =>
      n <- get_conn;;
      mine <- ask (have_piece c (Z.of_nat i));;
      if get (m_peer_bitfield n) i && negb mine then send_interested else interest_loop (S i) k'
  end.

Definition handle_bitfield (m : PeerMessage) : io unit :=
  bf <- lift (bitfield_from_peer_message m);;
  n <- get_conn;;
  if negb (Z.of_nat (length (m_peer_bitfield n)) =? m_num_pieces c)
  then throw (RuntimeError "peer bitfield size mismatch")
  else copy_loop bf 0 (num c);; interest_loop 0 (num c).

(** [memcpy(dst.data() + off, block)] *)
Definition memcpy (dst : bytes) (off : nat) (block : bytes) : result bytes :=
  if (length dst <? off + length block)%nat then Throw (Undefined "memcpy past the end of the buffer")
  else Ok (splice dst off block).

(** The block is copied into the buffer of the piece. *)
Definition store_block (p : InFlightPiece) (pm : PieceMessage) (block_idx : nat) : result InFlightPiece :=
  data ← memcpy (if_data p) (Z.to_nat (pc_begin pm)) (pc_block pm);
  Ok (mkInFlight (if_index p) (if_length p) (next_block_offset p) (requests_in_flight p)
        data (<[block_idx := true]> (blocks_received p)) (u32 (blocks_done p + 1)) (blocks_total p)).

(** [complete_piece] on the shared state. *)
Definition call_complete_piece (index : Z) (data : bytes) : io bool := fun w =>
  let '(s, d, r) := complete_piece c dw index data (w_pieces w) (w_disk w) in
  (mkWorld (w_conn w) s d (w_sent w), r).

Definition handle_piece (m : PeerMessage) : io unit :=
  pm <- lift (piece_from_peer_message m);;
  n <- get_conn;;
  match m_current_piece n with
  | None => ret ()
  | Some p =>
      if negb (pc_index pm =? if_index p) then ret ()
      else
        let p := mkInFlight (if_index p) (if_length p) (next_block_offset p) (u32 (requests_in_flight p - 1))
                   (if_data p) (blocks_received p) (blocks_done p) (blocks_total p) in
        modify (set_piece p);;
        if Z.of_nat (length (if_data p)) <? pc_begin pm + Z.of_nat (length (pc_block pm)) then ret ()
        else
          let block_idx := Z.to_nat (pc_begin pm / BLOCK_SIZE) in
          if (length (blocks_received p) <=? block_idx)%nat || get (blocks_received p) block_idx then ret ()
          else
            p <- lift (store_block p pm block_idx);;
            modify (set_piece p);;
            modify (add_downloaded (Z.of_nat (length (pc_block pm))));;
            if blocks_done p <? blocks_total p then ret ()
            else
              ok <- call_complete_piece (if_index p) (if_data p);;
              (if ok then ret () else release_current);;
              modify (set_current None false)
  end.

(** [read_block] in its [try]: an exception is logged. *)
Definition try_read_block (r : RequestMessage) : io (option bytes) := fun w =>
  match read_block c dw (rq_index r) (rq_begin r) (rq_length r) (w_pieces w) (w_disk w) with
  | Ok b => (w, Ok (Some b))
  | Throw (Undefined e) => (w, Throw (Undefined e))
  | Throw _ => (w, Ok None)
  end.

Definition handle_request (m : PeerMessage) : io unit :=
  req <- lift (request_from_peer_message m);;
  n <- get_conn;;
  if m_am_choking n then ret ()
  else if (rq_length req =? 0) || (BLOCK_SIZE <? rq_length req) then ret ()
  else
    block <- try_read_block req;;
    match block with
    | None => ret ()
    | Some b =>
        send_message (piece_to_peer_message (mkPiece (rq_index req) (rq_begin req) b));;
        modify (add_uploaded (rq_length req))
    end.

Definition handle_cancel (m : PeerMessage) : io unit := _ <- lift (cancel_from_peer_message m);; ret ().

(** ** The loop *)

Definition dispatch (m : PeerMessage) : io unit :=
  match pm_id m with
  | Choke => handle_choke
  | Unchoke => handle_unchoke
  | Interested => handle_interested
  | NotInterested => handle_not_interested
  | Have => handle_have m
  | Bitfield => handle_bitfield m
  | Piece => handle_piece m
  | Request => handle_request m
  | Cancel => handle_cancel m
  | OtherId _ => ret ()
  end.

(** One iteration, after the message has been received. *)
Definition iteration (m : option PeerMessage) : io unit :=
  match m with
  | None => ret ()
  | Some m => dispatch m;; fill_requests
  end.

(** What the other threads do to the shared state while this one waits. *)
Context (others : bytes -> PieceState * Disk -> PieceState * Disk).

Definition interfere (stream : bytes) : io unit := fun w =>
  let '(s, d) := others stream (w_pieces w, w_disk w) in (mkWorld (w_conn w) s d (w_sent w), Ok ()).

(** [run] on the bytes the peer sends: it ends only by an exception. *)
Fixpoint run (fuel : nat) (stream : bytes) : io unit :=
  match fuel with
  | O => throw OutOfFuel
  | S fuel' =>
      interfere stream;;
      m <- lift (recv_message stream);;
      iteration (fst m);;
      run fuel' (snd m)
  end.

(** The handshake: what is left of the stream. *)
Definition do_handshake (info_hash : InfoHash) (my_peer_id stream : bytes) : io bytes :=
  send_bytes (handshake_serialize (mkHandshake (replicate 8 0) info_hash my_peer_id));;
  r <- lift (recv_exact HANDSHAKE_LENGTH stream);;
  let '(reply_buf, stream) := r in
  if negb (default 0 (reply_buf !! 0%nat) =? PROTOCOL_STRING_LENGTH)
  then throw (RuntimeError "unexpected handshake header byte")
  else
    reply <- lift (handshake_deserialize reply_buf);;
    if negb (bool_decide (hs_info_hash reply = info_hash)) then throw (RuntimeError "info_hash mismatch in handshake")
    else ret stream.

(** [connect], once TCP is connected. *)
Definition connect (info_hash : InfoHash) (my_peer_id stream : bytes) : io bytes :=
  stream <- do_handshake info_hash my_peer_id stream;;
  modify (set_connected true);;
  send_bitfield;;
  ret stream.

(** The life of a connection: [connect] and [run] ... *)
Definition connection (info_hash : InfoHash) (my_peer_id stream : bytes) : io unit :=
  stream <- connect info_hash my_peer_id stream;; run (S (length stream)) stream.

(** ... and the destructor, whatever was thrown; it does not run when the process is
    killed. *)
Definition session (info_hash : InfoHash) (my_peer_id stream : bytes) (w : World) : World :=
  match connection info_hash my_peer_id stream w with
  | (w', Throw Sigpipe) => w'
  | (w', _) => fst (release_current w')
  end.
End connection.

(** ** Safety: the invariant of a connection *)

Definition is_runtime (e : exn) : Prop := match e with RuntimeError _ => True | _ => False end.

Section safety.
Context {SH : Sha1} {ENV : DiskEnv} (send_fate : list bytes -> SendFate).
Context (c : PieceConfig) (dw : DiskWriter).

(** The torrent's geometry: at least one piece, full pieces of at most 2^31 bytes (the
    length is a power of two) and the disk laid out for the same torrent. *)
Record geometry : Prop := {
  geo_config : config_ok c;
  geo_num : m_num_pieces c < 2 ^ 32;
  geo_nominal : 0 < m_nominal_piece_length c <= 2 ^ 31;
  geo_size : m_piece_size dw = m_nominal_piece_length c;
  geo_total : m_total_size dw = m_total_length_bytes c;
  geo_range : m_total_size dw < 2 ^ 63;
}.

Definition nblocks (len : Z) : Z := (len + BLOCK_SIZE - 1) / BLOCK_SIZE.

(** A piece in flight. *)
Record piece_ok (p : InFlightPiece) : Prop := {
  po_index : 0 <= if_index p < m_num_pieces c;
  po_length : if_length p = piece_length c (if_index p);
  po_data : Z.of_nat (length (if_data p)) = if_length p;
  po_total : blocks_total p = nblocks (if_length p);
  po_flags : Z.of_nat (length (blocks_received p)) = blocks_total p;
  po_done : blocks_done p = Z.of_nat (count_true (blocks_received p));
  po_offset : 0 <= next_block_offset p <= if_length p;
  po_aligned : next_block_offset p = if_length p \/ next_block_offset p mod BLOCK_SIZE = 0;
  po_pipeline : 0 <= requests_in_flight p < 2 ^ 32;
}.

(** Requests are kept up, and blocks are missing. *)
Definition piece_busy (p : InFlightPiece) : Prop :=
  (next_block_offset p < if_length p -> requests_in_flight p = MAX_PIPELINE) /\ blocks_done p < blocks_total p.

(** What the connection may send after its handshake. *)
Inductive out_ok : PeerMessage -> Prop :=
  | out_interested : out_ok (mkPM Interested [])
  | out_unchoke : out_ok (mkPM Unchoke [])
  | out_bitfield have : length have = num c -> out_ok (bitfield_to_peer_message (mkBitfield (pack have)))
  | out_request r :
      0 <= rq_index r < m_num_pieces c -> 0 <= rq_begin r -> rq_begin r mod BLOCK_SIZE = 0 ->
      0 < rq_length r <= BLOCK_SIZE -> rq_begin r + rq_length r <= piece_length c (rq_index r) ->
      out_ok (request_to_peer_message r)
  | out_piece p :
      0 <= pc_index p < m_num_pieces c -> 0 <= pc_begin p -> 0 < Z.of_nat (length (pc_block p)) <= BLOCK_SIZE ->
      pc_begin p + Z.of_nat (length (pc_block p)) <= piece_length c (pc_index p) ->
      out_ok (piece_to_peer_message p).

Definition sent_ok (b : bytes) : Prop := exists m, out_ok m /\ serialize m = Ok b.

Record world_ok (w : World) : Prop := {
  wo_bitfield : length (m_peer_bitfield (w_conn w)) = num c;
  wo_have : length (m_have (w_pieces w)) = num c;
  wo_current : forall p, m_current_piece (w_conn w) = Some p ->
    piece_ok p /\ m_peer_choking (w_conn w) = false /\ m_am_interested (w_conn w) = true;
  wo_sent : exists hs l, w_sent w = hs ++ l /\ (length hs <= 1)%nat /\ Forall sent_ok l;
}.

(** Assertions are about the connection and the piece manager. *)
Abbreviation assertion := (Conn -> PieceState -> Prop).

Definition busy : assertion := fun n _ => forall p, m_current_piece n = Some p -> piece_busy p.
Definition unfinished : assertion := fun n _ =>
  forall p, m_current_piece n = Some p -> blocks_done p < blocks_total p.

(** How an action that does not return ends: with an exception of the expected type, or
    with the process, on a send to a connection that is shut down. *)
Definition ends (w : World) (e : exn) : Prop :=
  is_runtime e \/ e = Sigpipe /\ send_fate (w_sent w) = Broken.

(** [m] keeps the invariant on every path, throws nothing but [std::runtime_error] (or
    dies sending) and from [P] establishes [Q] when it returns. *)
Definition safe {A} (P : assertion) (m : io A) (Q : A -> assertion) : Prop :=
  forall w, world_ok w -> P (w_conn w) (w_pieces w) ->
  match m w with
  | (w', Ok a) => world_ok w' /\ Q a (w_conn w') (w_pieces w')
  | (w', Throw e) => world_ok w' /\ ends w' e
  end.

Lemma safe_bind {A B} P (m : io A) (k : A -> io B) Q R :
  safe P m Q -> (forall a, safe (Q a) (k a) R) -> safe P (bind m k) R.
Proof.
  intros Hm Hk w Hw HP. specialize (Hm w Hw HP). unfold bind. destruct (m w) as [w' [a|e]]; [|exact Hm].
  destruct Hm as [Hw' HQ]. exact (Hk a w' Hw' HQ).
Qed.

Lemma safe_seq {A B} P (m : io A) (k : io B) Q R :
  safe P m (fun _ => Q) -> safe Q k R -> safe P (bind m (fun _ => k)) R.
Proof. intros Hm Hk. by eapply safe_bind; [exact Hm|]. Qed.

Lemma safe_weaken {A} (P P' : assertion) (m : io A) (Q Q' : A -> assertion) :
  safe P m Q -> (forall n s, P' n s -> P n s) -> (forall a n s, Q a n s -> Q' a n s) -> safe P' m Q'.
Proof.
  intros Hm HP HQ w Hw Hp. specialize (Hm w Hw (HP _ _ Hp)). destruct (m w) as [w' [a|e]]; [|exact Hm].
  destruct Hm. split; auto.
Qed.

Lemma safe_lift {A} (r : result A) (P : assertion) :
  (forall e, r = Throw e -> is_runtime e) -> safe P (lift r) (fun a n s => r = Ok a /\ P n s).
Proof. intros He w Hw HP. unfold lift. destruct r as [a|e]; [done|]. split; [done|]. left. by apply He. Qed.

Lemma safe_throw {A} P (e : exn) (Q : A -> assertion) : is_runtime e -> safe P (throw e) Q.
Proof. intros He w Hw HP. split; [done|by left]. Qed.

Lemma safe_get (P : assertion) : safe P get_conn (fun a n s => n = a /\ P n s).
Proof. by intros w Hw HP. Qed.

Lemma safe_ask {A} (f : PieceState -> A) (P : assertion) : safe P (ask f) (fun a n s => f s = a /\ P n s).
Proof. by intros w Hw HP. Qed.

Definition current_ok (n : Conn) : Prop :=
  forall p, m_current_piece n = Some p -> piece_ok p /\ m_peer_choking n = false /\ m_am_interested n = true.

Lemma safe_ret {A} (a : A) (P : assertion) (Q : A -> assertion) :
  (forall n s, current_ok n -> P n s -> Q a n s) -> safe P (ret a) Q.
Proof. intros HQ w Hw HP. split; [done|]. exact (HQ _ _ (wo_current w Hw) HP). Qed.

(** What the invariant and [P] imply may be assumed. *)
Lemma safe_assume {A} (F : Prop) (P : assertion) (m : io A) Q :
  (forall n s, current_ok n -> P n s -> F) -> (F -> safe P m Q) -> safe P m Q.
Proof. intros HF Hm w Hw HP. apply Hm; [|done|done]. exact (HF _ _ (wo_current w Hw) HP). Qed.

Lemma safe_modify (f : Conn -> Conn) (P Q : assertion) :
  (forall n s, length (m_peer_bitfield n) = num c -> current_ok n -> P n s ->
     length (m_peer_bitfield (f n)) = num c /\ current_ok (f n) /\ Q (f n) s) ->
  safe P (modify f) (fun _ => Q).
Proof.
  intros H w [H1 H2 H3 H4] HP. destruct (H (w_conn w) (w_pieces w) H1 H3 HP) as (F1 & F2 & F3).
  split; [by constructor|done].
Qed.

Lemma safe_update {A} (f : PieceState -> A * PieceState) (P : assertion) (Q : A -> assertion) :
  (forall n s, length (m_have s) = num c -> P n s -> length (m_have (snd (f s))) = num c /\ Q (fst (f s)) n (snd (f s))) ->
  safe P (update f) Q.
Proof.
  intros H w [H1 H2 H3 H4] HP. destruct (H (w_conn w) (w_pieces w) H2 HP) as (F1 & F2).
  unfold update. destruct (f (w_pieces w)) as [a s]. split; [by constructor|done].
Qed.

Lemma serialize_fits m :
  Z.of_nat (length (pm_payload m)) < 2 ^ 31 -> exists b, serialize m = Ok b.
Proof.
  intros Hs. unfold serialize, u32. set (n := Z.of_nat _) in *. assert (0 <= n) by (unfold n; lia). cbv zeta.
  rewrite (Z.mod_small n), (Z.mod_small (1 + n)), (Z.mod_small (4 + (1 + n))) by lia.
  rewrite (proj2 (Z.ltb_ge _ _)) by lia. eauto.
Qed.

Lemma length_pack_loop i have bf : length (pack_loop i have bf) = length bf.
Proof.
  revert i bf. induction have as [|b have IH]; intros i bf; cbn [pack_loop]; [done|]. rewrite IH.
  destruct b; [by rewrite length_alter|done].
Qed.

Lemma length_pack have : length (pack have) = ((length have + 7) / 8)%nat.
Proof. unfold pack. by rewrite length_pack_loop, length_replicate. Qed.

Context (GEO : geometry).

Lemma out_fits m : out_ok m -> Z.of_nat (length (pm_payload m)) < 2 ^ 31.
Proof.
  pose proof (geo_num GEO). unfold BLOCK_SIZE.
  intros [| |have Hh|r|p ? ? Hb]; try done.
  - cbn [bitfield_to_peer_message pm_payload bitfield]. rewrite length_pack, Hh. unfold num.
    pose proof (Nat.Div0.div_le_upper_bound (Z.to_nat (m_num_pieces c) + 7) 8 (Z.to_nat (m_num_pieces c) + 7) ltac:(lia)).
    rewrite Nat2Z.inj_div. apply Z.div_lt_upper_bound; lia.
  - cbn [piece_to_peer_message pm_payload]. rewrite !length_app, !length_write_be32. unfold BLOCK_SIZE in Hb. lia.
Qed.

Lemma safe_send m (P : assertion) : out_ok m -> safe P (send_message send_fate m) (fun _ => P).
Proof.
  intros Ho w [H1 H2 H3 (hs & l & Hs & Hl & Hf)] HP.
  destruct (serialize_fits m (out_fits m Ho)) as [b Hb]. unfold send_message, lift, bind, send_bytes. rewrite Hb.
  destruct (send_fate (w_sent w)) eqn:Ef.
  - split; [|done]. constructor; cbn; try done. exists hs, (l ++ [b]). rewrite Hs, app_assoc. split_and!; try done.
    apply Forall_app_2; [done|]. apply Forall_singleton. by exists m.
  - split; [constructor; eauto 10|by left].
  - split; [constructor; eauto 10|by right].
Qed.

(** *** Requesting *)

Lemma claim_loop_range bf i n s j s' :
  claim_loop bf i n s = Some (j, s') -> (i <= j < i + n)%nat /\ m_have s' = m_have s.
Proof.
  revert i. induction n as [|n IH]; intros i; cbn [claim_loop]; [done|].
  repeat case_if; intros E; try (destruct (IH _ E); split; [lia|done]). simplify_eq. split; [lia|done].
Qed.

Lemma endgame_loop_range bf i n s j : endgame_loop bf i n s = Some j -> (i <= j < i + n)%nat.
Proof.
  revert i. induction n as [|n IH]; intros i; cbn [endgame_loop]; [done|].
  repeat case_if; intros E; try (specialize (IH _ E); lia). simplify_eq. lia.
Qed.

Lemma next_needed_range bf s :
  m_have (snd (next_needed c bf s)) = m_have s /\
  forall np, fst (next_needed c bf s) = Some np -> 0 <= np_index np < m_num_pieces c.
Proof.
  unfold next_needed. destruct (claim_loop bf 0 (num c) s) as [[j s1]|] eqn:E1; cbn [fst snd].
  - destruct (claim_loop_range _ _ _ _ _ _ E1). split; [done|]. intros np [= <-]. cbn. unfold num in *. lia.
  - destruct (endgame_loop bf 0 (num c) s) as [j|] eqn:E2; cbn [fst snd]; split; try done.
    intros np [= <-]. pose proof (endgame_loop_range _ _ _ _ _ E2). cbn. unfold num in *. lia.
Qed.

Lemma piece_length_bounds i : 0 <= i < m_num_pieces c -> 0 < piece_length c i <= 2 ^ 31.
Proof.
  destruct GEO as [Hc Hn Hp _ _ _]. intros Hi. destruct (decide (i + 1 < m_num_pieces c)).
  - rewrite piece_length_full by lia. lia.
  - replace i with (m_num_pieces c - 1) by lia. rewrite piece_length_last by (done || lia). unfold config_ok in Hc. lia.
Qed.

Lemma nblocks_range len : 0 < len <= 2 ^ 31 -> 0 < nblocks len <= 2 ^ 31.
Proof.
  intros Hl. unfold nblocks, BLOCK_SIZE. split.
  - apply Z.div_str_pos. lia.
  - apply Z.div_le_upper_bound; lia.
Qed.

Lemma new_in_flight_blocks len :
  0 < len <= 2 ^ 31 -> u32 (u32 (len + BLOCK_SIZE) - 1) / BLOCK_SIZE = nblocks len.
Proof.
  intros Hl. unfold u32, nblocks. assert (BLOCK_SIZE = 16384) as HB by done.
  by rewrite (Z.mod_small (len + _)), Z.mod_small by lia.
Qed.

Lemma new_in_flight_ok i :
  0 <= i < m_num_pieces c ->
  piece_ok (new_in_flight c i) /\ blocks_done (new_in_flight c i) < blocks_total (new_in_flight c i).
Proof.
  intros Hi. pose proof (piece_length_bounds i Hi) as Hl. pose proof (nblocks_range _ Hl).
  unfold new_in_flight. rewrite new_in_flight_blocks by done. split; [|cbn; lia].
  constructor; cbn [if_index if_length if_data blocks_total blocks_received blocks_done next_block_offset
    requests_in_flight]; rewrite ?length_replicate, ?count_true_replicate; try done; try lia. right. done.
Qed.

(** The piece of a connection between a message and [fill_requests]. *)
Definition ready : assertion := fun n _ => forall p, m_current_piece n = Some p ->
  blocks_done p < blocks_total p /\ (next_block_offset p < if_length p -> requests_in_flight p <= MAX_PIPELINE).

Lemma safe_set_piece p (P Q : assertion) :
  (forall n s, current_ok n -> P n s -> exists p0, m_current_piece n = Some p0 /\ (piece_ok p0 -> piece_ok p)) ->
  (forall n s, P n s -> Q (set_piece p n) s) -> safe P (modify (set_piece p)) (fun _ => Q).
Proof.
  intros Hp HQ. apply safe_modify. intros n s Hb Hc HP. split; [done|]. split; [|auto].
  destruct (Hp n s Hc HP) as (p0 & Hp0 & Hok). destruct (Hc p0 Hp0) as (H1 & H2 & H3).
  intros q [= <-]. auto.
Qed.

(** One round of the request loop. *)
Lemma request_advance p :
  piece_ok p -> requests_in_flight p < MAX_PIPELINE -> next_block_offset p < if_length p ->
  let block_len := Z.min BLOCK_SIZE (u32 (if_length p - next_block_offset p)) in
  block_len = Z.min BLOCK_SIZE (if_length p - next_block_offset p) /\
  out_ok (request_to_peer_message (mkRequest (if_index p) (next_block_offset p) block_len)) /\
  piece_ok (mkInFlight (if_index p) (if_length p) (u32 (next_block_offset p + block_len))
              (u32 (requests_in_flight p + 1)) (if_data p) (blocks_received p) (blocks_done p) (blocks_total p)) /\
  u32 (next_block_offset p + block_len) = next_block_offset p + block_len /\
  u32 (requests_in_flight p + 1) = requests_in_flight p + 1.
Proof.
  intros [H1 H2 H3 H4 H5 H6 H7 H8 H9] Hr Ho block_len. pose proof (piece_length_bounds _ H1) as Hl. rewrite <- H2 in Hl.
  unfold MAX_PIPELINE in Hr. assert (BLOCK_SIZE = 16384) as HB by done.
  assert (block_len = Z.min BLOCK_SIZE (if_length p - next_block_offset p)) as Hbl.
  { unfold block_len, u32. by rewrite Z.mod_small by lia. }
  assert (u32 (next_block_offset p + block_len) = next_block_offset p + block_len) as E1 by (apply Z.mod_small; lia).
  assert (u32 (requests_in_flight p + 1) = requests_in_flight p + 1) as E2 by (apply Z.mod_small; lia).
  assert (next_block_offset p mod BLOCK_SIZE = 0) as Ha by (destruct H8; [lia|done]).
  split_and!; try done.
  - apply out_request; cbn [rq_index rq_begin rq_length]; try done; lia.
  - rewrite E1, E2. constructor; cbn [if_index if_length if_data blocks_total blocks_received blocks_done
      next_block_offset requests_in_flight]; try done; try lia.
    destruct (Z.min_spec BLOCK_SIZE (if_length p - next_block_offset p)) as [[_ E]|[_ E]].
    + right. rewrite Hbl, E, <- Zplus_mod_idemp_l, Ha. done.
    + left. lia.
Qed.

Lemma safe_request_loop fuel p :
  MAX_PIPELINE <= requests_in_flight p + Z.of_nat fuel \/ MAX_PIPELINE <= requests_in_flight p ->
  blocks_done p < blocks_total p ->
  (next_block_offset p < if_length p -> requests_in_flight p <= MAX_PIPELINE) ->
  safe (fun n _ => m_current_piece n = Some p) (request_loop send_fate fuel p) (fun _ => busy).
Proof.
  revert p. induction fuel as [|fuel IH]; intros p Hf Hd Hr; cbn [request_loop].
  - destruct (_ && _) eqn:E; [b2p; unfold MAX_PIPELINE in *; lia|].
    apply safe_ret. intros n s _ Hn q Hq. simplify_eq. split; [|done]. intros Ho. apply andb_false_iff in E as [E|E]; b2p; lia.
  - destruct (_ && _) eqn:E.
    + b2p. apply (safe_assume (piece_ok p)); [by intros n s Hc Hn; destruct (Hc p Hn)|]. intros Hok.
      destruct (request_advance p Hok ltac:(done) ltac:(done)) as (Hbl & Hout & Hok' & E1 & E2). cbv zeta in *.
      eapply safe_seq; [by apply safe_send|].
      match goal with |- context [modify (set_piece ?q)] => apply (safe_seq _ _ _ (fun n _ => m_current_piece n = Some q)) end.
      { apply safe_set_piece; [|done]. intros n s _ Hn. eauto. }
      apply IH; cbn [requests_in_flight blocks_done blocks_total next_block_offset if_length]; try done; rewrite ?E2; lia.
    + apply safe_ret. intros n s _ Hn q Hq. simplify_eq. split; [|done]. intros Ho. apply andb_false_iff in E as [E|E]; b2p; lia.
Qed.

Lemma safe_fill_requests : safe ready (fill_requests send_fate c) (fun _ => busy).
Proof.
  unfold fill_requests. eapply safe_bind; [apply safe_get|]. intros n.
  destruct (m_peer_choking n) eqn:Hch.
  { apply safe_ret. intros n' s Hc [-> _] p Hp. destruct (Hc p Hp) as (_ & Hch' & _). congruence. }
  destruct (m_am_interested n) eqn:Hin; cbn [negb]; cycle 1.
  { apply safe_ret. intros n' s Hc [-> _] p Hp. destruct (Hc p Hp) as (_ & _ & Hin'). congruence. }
  apply (safe_seq _ _ _ (fun n' _ => ready n' (mkPieceState [] [] 0 0 0) /\ m_peer_choking n' = false /\ m_am_interested n' = true)).
  { destruct (m_current_piece n) as [p|] eqn:Hp.
    - eapply safe_bind; [apply safe_ask|]. intros [|].
      + apply safe_modify. intros n' s Hb Hc (_ & -> & _). split_and!; try done; by intros ? ?.
      + apply safe_ret. intros n' s Hc (_ & -> & Hr). done.
    - apply safe_ret. intros n' s Hc (-> & Hr). done. }
  eapply safe_bind; [apply safe_get|]. intros n'. destruct (m_current_piece n') as [p|] eqn:Hp.
  - apply (safe_assume (blocks_done p < blocks_total p /\ 0 <= requests_in_flight p /\
      (next_block_offset p < if_length p -> requests_in_flight p <= MAX_PIPELINE))).
    { intros n1 s Hc (-> & Hr & _). destruct (Hc p Hp) as (Hok & _). destruct (Hr p Hp). destruct Hok. split_and!; try done; lia. }
    intros (Hd & H0 & Hpl). eapply safe_weaken; [apply (safe_request_loop 15 p)|..]; try done.
    + unfold MAX_PIPELINE. lia.
    + by intros n1 s (-> & _).
  - apply (safe_bind _ _ _ (fun a n s => m_peer_choking n = false /\ m_am_interested n = true /\ m_current_piece n = None /\
      forall np, a = Some np -> 0 <= np_index np < m_num_pieces c)).
    { apply safe_update. intros n1 s Hl (-> & _ & H1 & H2). destruct (next_needed_range (m_peer_bitfield n') s) as [-> Hnp].
      split_and!; auto. }
    intros [np|]; [|apply safe_ret; intros n1 s _ (_ & _ & Hn & _) p Hp'; congruence].
    apply (safe_assume (0 <= np_index np < m_num_pieces c)); [by intros n1 s _ (_ & _ & _ & H); apply H|]. intros Hi.
    destruct (new_in_flight_ok _ Hi) as [Hok Hd].
    apply (safe_seq _ _ _ (fun n _ => m_current_piece n = Some (new_in_flight c (np_index np)))).
    + apply safe_modify. intros n1 s Hb Hc (H1 & H2 & _). split_and!; try done. by intros p [= <-].
    + apply safe_request_loop; [left; cbn; unfold MAX_PIPELINE; lia|done|cbn; unfold MAX_PIPELINE; lia].
Qed.

(** *** The handlers *)

(** Nothing of the piece in flight changes. *)
Definition same_piece (P : assertion) : Prop :=
  forall n n' s s', m_current_piece n' = m_current_piece n -> P n s -> P n' s'.

Lemma busy_ready n s s' : busy n s -> ready n s'.
Proof. intros Hb p Hp. destruct (Hb p Hp) as [H1 H2]. split; [done|]. intros Ho. rewrite H1 by done. done. Qed.

Lemma safe_send_interested : safe busy (send_interested send_fate) (fun _ => busy).
Proof.
  unfold send_interested. eapply safe_bind; [apply safe_get|]. intros n.
  destruct (m_am_interested n) eqn:Hi; [apply safe_ret; by intros n' s _ [-> H]|].
  apply (safe_seq _ _ _ busy).
  - eapply safe_weaken; [apply (safe_send _ busy), out_interested|by intros n' s [_ H]|done].
  - apply safe_modify. intros n' s Hb Hc H. split_and!; try done.
    intros p Hp. destruct (Hc p Hp) as (H1 & H2 & _). done.
Qed.

Lemma safe_send_unchoke : safe busy (send_unchoke send_fate) (fun _ => busy).
Proof.
  unfold send_unchoke. eapply safe_bind; [apply safe_get|]. intros n.
  destruct (negb (m_am_choking n)) eqn:Hi; [apply safe_ret; by intros n' s _ [-> H]|].
  apply (safe_seq _ _ _ busy).
  - eapply safe_weaken; [apply (safe_send _ busy), out_unchoke|by intros n' s [_ H]|done].
  - apply safe_modify. by intros n' s Hb Hc H.
Qed.

Lemma abort_have i s : m_have (abort_piece c i s) = m_have s.
Proof. unfold abort_piece. by repeat case_if. Qed.

Lemma safe_release (P : assertion) : (forall n s i, P n s -> P n (abort_piece c i s)) -> safe P (release_current c) (fun _ => P).
Proof.
  intros Hp. unfold release_current. eapply safe_bind; [apply safe_get|]. intros n.
  destruct (m_current_piece n) as [p|]; [|apply safe_ret; by intros n' s _ [_ H]].
  destruct (m_current_piece_exclusive n); [|apply safe_ret; by intros n' s _ [_ H]].
  apply safe_update. intros n' s Hl [_ H]. cbn [fst snd]. rewrite abort_have. auto.
Qed.

Lemma safe_handle_choke : safe busy (handle_choke c) (fun _ => ready).
Proof.
  intros w [H1 H2 H3 H4] Hb. destruct w as [n s d out]. destruct n as [n1 n2 n3 n4 n5 n6 [p|] x n9 n10 n11];
    [destruct x|]; cbn in *; (split; [|by intros q]); constructor; cbn; try done. by rewrite abort_have.
Qed.

Lemma safe_handle_have m : safe busy (handle_have send_fate c m) (fun _ => busy).
Proof.
  unfold handle_have. eapply safe_bind; [apply safe_lift|].
  { intros e. unfold have_from_peer_message, throw_if. repeat case_if; cbn; intros ?; simplify_eq; done. }
  intros h. eapply safe_bind; [apply safe_get|]. intros n. case_if; [by apply safe_throw|].
  apply (safe_seq _ _ _ busy).
  - apply safe_modify. intros n' s Hb Hc (-> & _ & H). cbn. rewrite length_insert. done.
  - eapply safe_bind; [apply safe_ask|]. intros [|].
    + apply safe_ret. by intros n' s _ [_ H].
    + eapply safe_weaken; [apply safe_send_interested|by intros n' s [_ H]|done].
Qed.

Lemma safe_copy_loop bf i k : safe busy (copy_loop bf i k) (fun _ => busy).
Proof.
  revert i. induction k as [|k IH]; intros i; cbn [copy_loop]; [by apply safe_ret|].
  eapply safe_bind; [apply safe_lift|].
  { intros e. unfold has_piece. case_match; intros ?; simplify_eq; done. }
  intros b. apply (safe_seq _ _ _ busy); [|apply IH]. destruct b; [|apply safe_ret; by intros n s _ [_ H]].
  eapply safe_bind; [apply safe_get|]. intros n. apply safe_modify. intros n' s Hb Hc (-> & _ & H). cbn.
  by rewrite length_insert.
Qed.

Lemma safe_interest_loop i k : safe busy (interest_loop send_fate c i k) (fun _ => busy).
Proof.
  revert i. induction k as [|k IH]; intros i; cbn [interest_loop]; [by apply safe_ret|].
  eapply safe_bind; [apply safe_get|]. intros n. eapply safe_bind; [apply safe_ask|]. intros b. cbv beta.
  case_if; (eapply safe_weaken; [first [apply safe_send_interested|apply IH]|by intros n' s (_ & _ & H)|done]).
Qed.

Lemma safe_handle_bitfield m : safe busy (handle_bitfield send_fate c m) (fun _ => busy).
Proof.
  unfold handle_bitfield. eapply safe_bind; [apply safe_lift|].
  { intros e. unfold bitfield_from_peer_message, throw_if. case_if; cbn; intros ?; simplify_eq; done. }
  intros bf. eapply safe_bind; [apply safe_get|]. intros n. cbv beta. case_if; [by apply safe_throw|].
  apply (safe_seq _ _ _ busy); [|apply safe_interest_loop].
  eapply safe_weaken; [apply safe_copy_loop|by intros n' s (_ & _ & H)|done].
Qed.

(** *** Completing a piece *)

Lemma runtime_bind {A B} (r : result A) (k : A -> result B) :
  (forall e, r = Throw e -> is_runtime e) -> (forall a e, k a = Throw e -> is_runtime e) ->
  forall e, (r ≫= k) = Throw e -> is_runtime e.
Proof. intros Hr Hk e. destruct r as [a|e']; cbn; [apply Hk|]. intros [= <-]. by apply Hr. Qed.

Lemma runtime_throw_if b e : is_runtime e -> forall e', throw_if b e = Throw e' -> is_runtime e'.
Proof. intros He e'. destruct b; cbn; [by intros [= <-]|done]. Qed.

Lemma disk_piece_length_runtime i e : disk_piece_length dw i = Throw e -> is_runtime e.
Proof. revert e. unfold disk_piece_length. apply runtime_bind; [by apply runtime_throw_if|]. done. Qed.

Lemma file_indices_runtime i e : file_indices_for_piece dw i = Throw e -> is_runtime e.
Proof. revert e. unfold file_indices_for_piece. apply runtime_bind; [apply disk_piece_length_runtime|]. done. Qed.

Lemma write_loop_runtime fs data wo rem pos d d' e :
  write_loop dw fs data wo rem pos d = (d', Throw e) -> is_runtime e.
Proof.
  revert wo rem pos d. induction fs as [|f fs IH]; intros wo rem pos d; cbn [write_loop]; [done|].
  repeat case_if; try done; try apply IH; repeat case_match; intros ?; simplify_eq; try done; by eapply IH.
Qed.

Lemma write_piece_runtime i data d d' e : write_piece dw i data d = (d', Throw e) -> is_runtime e.
Proof.
  unfold write_piece. case_if; [intros; by simplify_eq|].
  destruct (file_indices_for_piece dw i) as [l|e1] eqn:E1; [|intros; simplify_eq; by eapply file_indices_runtime].
  destruct (disk_piece_length dw i) as [l1|e1] eqn:E2; [|intros; simplify_eq; by eapply disk_piece_length_runtime].
  case_if; [intros; by simplify_eq|].
  destruct (write_loop _ _ _ _ _ _ _) as [fs r] eqn:E3. intros E. injection E as <- E. revert E.
  apply runtime_bind; [intros e0 ->; by eapply write_loop_runtime|]. intros a. by apply runtime_throw_if.
Qed.

Lemma complete_piece_runtime i data s d s' d' r :
  complete_piece c dw i data s d = (s', d', r) -> length (m_have s') = length (m_have s) /\ (forall e, r = Throw e -> is_runtime e).
Proof.
  unfold complete_piece. repeat case_if; try (intros; simplify_eq; split; [done|by intros e [= <-]]).
  destruct (write_piece dw i data d) as [d1 [u|e1]] eqn:E; intros; simplify_eq; cbn; rewrite length_insert; split; try done.
  intros e [= <-]. by eapply write_piece_runtime.
Qed.

Lemma safe_complete_piece i data (P : assertion) :
  (forall n s s', P n s -> P n s') -> safe P (call_complete_piece c dw i data) (fun _ => P).
Proof.
  intros HP w [H1 H2 H3 H4] Hw. unfold call_complete_piece.
  destruct (complete_piece c dw i data (w_pieces w) (w_disk w)) as [[s d] r] eqn:E.
  apply complete_piece_runtime in E as [Hl He].
  destruct r as [b|e]; (split; [constructor; cbn; [done|congruence|done|done]|]); [by eapply HP|left; by apply He].
Qed.

(** A block that passed the tests of [handle_piece]. *)
Lemma store_block_ok p pm :
  piece_ok p -> 0 <= pc_begin pm ->
  pc_begin pm + Z.of_nat (length (pc_block pm)) <= Z.of_nat (length (if_data p)) ->
  (Z.to_nat (pc_begin pm / BLOCK_SIZE) < length (blocks_received p))%nat ->
  get (blocks_received p) (Z.to_nat (pc_begin pm / BLOCK_SIZE)) = false ->
  exists p', store_block p pm (Z.to_nat (pc_begin pm / BLOCK_SIZE)) = Ok p' /\ piece_ok p' /\
    if_index p' = if_index p /\ if_length p' = if_length p /\ next_block_offset p' = next_block_offset p /\
    requests_in_flight p' = requests_in_flight p /\ blocks_total p' = blocks_total p /\
    if_data p' = splice (if_data p) (Z.to_nat (pc_begin pm)) (pc_block pm) /\
    blocks_received p' = <[Z.to_nat (pc_begin pm / BLOCK_SIZE) := true]> (blocks_received p).
Proof.
  intros [H1 H2 H3 H4 H5 H6 H7 H8 H9] H0 Hb Hi Hg. pose proof (piece_length_bounds _ H1) as Hl. rewrite <- H2 in Hl.
  pose proof (nblocks_range _ Hl). pose proof (count_true_le (blocks_received p)).
  unfold store_block, memcpy. rewrite (proj2 (Nat.ltb_ge _ _)) by lia. cbn [mbind result_bind].
  eexists. split; [reflexivity|]. split; [|done].
  constructor; cbn [if_index if_length if_data blocks_total blocks_received blocks_done next_block_offset
    requests_in_flight]; rewrite ?length_insert, ?length_splice by lia; try done.
  rewrite count_true_insert by done. unfold u32. rewrite Z.mod_small by lia. lia.
Qed.

Lemma piece_from_range m pm :
  bytes_ok (pm_payload m) -> piece_from_peer_message m = Ok pm -> 0 <= pc_begin pm /\ 0 <= pc_index pm.
Proof.
  intros Hb E. unfold piece_from_peer_message in E. inv_result. cbn.
  pose proof (read_be32_range (pm_payload m) Hb). pose proof (read_be32_range (drop 4 (pm_payload m)) ltac:(by apply bytes_ok_drop)).
  lia.
Qed.

(** The answer to a request takes it out of the pipeline. *)
Definition answered (p : InFlightPiece) : InFlightPiece :=
  mkInFlight (if_index p) (if_length p) (next_block_offset p) (u32 (requests_in_flight p - 1))
    (if_data p) (blocks_received p) (blocks_done p) (blocks_total p).

Lemma answered_ok p : piece_ok p -> piece_ok (answered p).
Proof. intros []. constructor; cbn; try done. by apply Z.mod_pos_bound. Qed.

Lemma answered_ready p : piece_busy p ->
  blocks_done (answered p) < blocks_total (answered p) /\
  (next_block_offset (answered p) < if_length (answered p) -> requests_in_flight (answered p) <= MAX_PIPELINE).
Proof. intros [H1 H2]. split; [done|]. cbn. intros Ho. rewrite H1 by done. done. Qed.

(** The last block: the piece is handed over and forgotten. *)
Lemma safe_finish p :
  safe (fun n _ => m_current_piece n = Some p)
    (ok <- call_complete_piece c dw (if_index p) (if_data p);;
     (if ok then ret () else release_current c);; modify (set_current None false))
    (fun _ => ready).
Proof.
  eapply safe_bind; [by apply safe_complete_piece|]. intros ok. cbv beta.
  apply (safe_seq _ _ _ (fun n _ => m_current_piece n = Some p)).
  - destruct ok; [by apply safe_ret|by apply safe_release].
  - apply safe_modify. intros n s Hb Hc _. split_and!; try done; by intros q.
Qed.

Lemma safe_handle_piece m : bytes_ok (pm_payload m) -> safe busy (handle_piece c dw m) (fun _ => ready).
Proof.
  intros Hm. unfold handle_piece. eapply safe_bind; [apply safe_lift|].
  { unfold piece_from_peer_message. do 2 (apply runtime_bind; [by apply runtime_throw_if|intros _]). done. }
  intros pm. apply (safe_assume (piece_from_peer_message m = Ok pm)); [by intros n s _ [H _]|]. intros Epm.
  destruct (piece_from_range m pm Hm Epm) as [Hbegin _].
  eapply safe_bind; [apply safe_get|]. intros n. cbv beta.
  destruct (m_current_piece n) as [p|] eqn:Hp; [|apply safe_ret; intros n' s _ (_ & _ & H); by eapply busy_ready].
  case_if; [apply safe_ret; intros n' s _ (_ & _ & H); by eapply busy_ready|].
  apply (safe_assume (piece_ok p /\ piece_busy p)); [by intros n' s Hc (-> & _ & H); split; [apply Hc|apply H]|].
  intros [Hok Hbusy]. fold (answered p). pose proof (answered_ok p Hok) as Hok1. destruct (answered_ready p Hbusy) as [Hd1 Hr1].
  apply (safe_seq _ _ _ (fun n _ => m_current_piece n = Some (answered p))).
  { apply safe_set_piece; [|done]. intros n' s Hc (-> & _ & _). eauto. }
  assert (safe (fun n _ => m_current_piece n = Some (answered p)) (ret ()) (fun _ => ready)) as Hret.
  { apply safe_ret. intros n' s _ Hn q Hq. simplify_eq. done. }
  case_if; [exact Hret|]. case_if; [exact Hret|]. b2p.
  destruct (store_block_ok (answered p) pm) as (p' & E & Hok' & F1 & F2 & F3 & F4 & F5 & _); try done.
  eapply safe_bind; [apply safe_lift; by rewrite E|]. intros p''. rewrite E. clear Hret.
  apply (safe_assume (p' = p'')); [by intros n' s _ [[=] _]|]. intros <-.
  apply (safe_seq _ _ _ (fun n _ => m_current_piece n = Some p')).
  { apply safe_set_piece; [|done]. intros n' s Hc [_ Hn]. eauto. }
  apply (safe_seq _ _ _ (fun n _ => m_current_piece n = Some p')).
  { apply safe_modify. intros n' s Hb Hc Hn. done. }
  case_if; [|apply safe_finish]. b2p. apply safe_ret. intros n' s _ Hn q Hq. simplify_eq. split; [done|].
  rewrite F2, F3, F4. done.
Qed.

(** *** Serving a block *)

Lemma read_loop_length fs ro rem out d out' rem' :
  0 <= rem < 2 ^ 64 -> read_loop dw fs ro rem out d = Ok (out', rem') ->
  Z.of_nat (length out') + rem' = Z.of_nat (length out) + rem.
Proof.
  revert ro rem out. induction fs as [|f fs IH]; intros ro rem out Hr; cbn [read_loop]; [intros; by simplify_eq|].
  do 3 (case_if; [try (intros; by simplify_eq); try (by apply IH)|]).
  set (start := if fe_offset f <? ro then u64 (ro - fe_offset f) else 0).
  assert (0 <= Z.min rem (u64 (fe_length f - start)) <= rem) as Hch.
  { assert (0 <= u64 (fe_length f - start)) by (by apply Z.mod_pos_bound). lia. }
  set (chunk := Z.min rem (u64 (fe_length f - start))) in *. cbv zeta.
  destruct (if can_open _ then _ else _) as [content|]; [|done].
  case_if; [done|]. b2p. intros E. apply IH in E; [|by apply Z.mod_pos_bound].
  rewrite E, length_app. unfold u64. rewrite Z.mod_small by lia. lia.
Qed.

Lemma disk_geometry i : 0 <= i < m_num_pieces c -> disk_piece_length dw i = Ok (piece_length c i).
Proof.
  destruct GEO as [Hc Hn Hp Hs Ht Hr]. intros Hi. unfold config_ok in Hc.
  assert (i * m_piece_size dw <= m_nominal_piece_length c * (m_num_pieces c - 1)) by (rewrite Hs; nia).
  assert (0 <= i * m_piece_size dw) by (rewrite Hs; nia).
  unfold disk_piece_length, piece_global_offset, u64. rewrite (Z.mod_small (i * _)) by lia.
  rewrite (proj2 (Z.leb_gt _ _)) by lia. cbn [throw_if mbind result_bind].
  rewrite (Z.mod_small (i * _ + _)) by lia. rewrite (Z.mod_small (Z.min _ _ - _)) by lia.
  f_equal. destruct (decide (i + 1 < m_num_pieces c)).
  - rewrite piece_length_full by lia. unfold u32. rewrite Z.mod_small; nia.
  - replace i with (m_num_pieces c - 1) in * by lia. rewrite piece_length_last by (done || lia). unfold u32.
    rewrite Z.mod_small; nia.
Qed.

Lemma read_piece_length i d out :
  0 <= i < m_num_pieces c -> read_piece dw i d = Ok out -> Z.of_nat (length out) = piece_length c i.
Proof.
  intros Hi E. pose proof (piece_length_bounds i Hi). unfold read_piece in E. rewrite (disk_geometry i Hi) in E. inv_result.
  match goal with H : read_loop _ _ _ _ _ _ = Ok _ |- _ => apply read_loop_length in H; [|lia]; cbn in H end. b2p. lia.
Qed.

Lemma read_piece_runtime i d e : read_piece dw i d = Throw e -> is_runtime e.
Proof.
  revert e. unfold read_piece. apply runtime_bind; [by apply runtime_throw_if|]. intros _.
  apply runtime_bind; [apply file_indices_runtime|]. intros _.
  apply runtime_bind; [apply disk_piece_length_runtime|]. intros len.
  apply runtime_bind; [|intros [out rem]; apply runtime_bind; [by apply runtime_throw_if|done]].
  generalize (piece_global_offset dw i), (@nil Z), len. clear len.
  induction (m_files dw) as [|f fs IH]; intros ro out len e; cbn [read_loop]; [done|].
  do 3 (case_if; [try done; try apply IH|]). cbv zeta. destruct (if can_open _ then _ else _); [|by intros [= <-]].
  case_if; [by intros [= <-]|]. apply IH.
Qed.

Lemma read_block_spec r s d :
  0 <= rq_index r -> 0 <= rq_begin r -> 0 <= rq_length r ->
  match read_block c dw (rq_index r) (rq_begin r) (rq_length r) s d with
  | Ok b => rq_index r < m_num_pieces c /\ Z.of_nat (length b) = rq_length r /\
            rq_begin r + rq_length r <= piece_length c (rq_index r)
  | Throw e => is_runtime e
  end.
Proof.
  intros H1 H2 H3. unfold read_block. destruct (have_piece c (rq_index r) s) eqn:Hh; [|done]. cbn [negb throw_if mbind result_bind].
  unfold have_piece in Hh. destruct (m_num_pieces c <=? rq_index r) eqn:Hix; [done|]. clear Hh. b2p. pose proof (piece_length_bounds (rq_index r) ltac:(lia)).
  destruct (_ || _) eqn:Ho; cbn [throw_if mbind result_bind]; [done|]. b2p.
  destruct (read_piece dw (rq_index r) d) as [piece|e] eqn:E; cbn [mbind result_bind]; [|by eapply read_piece_runtime].
  apply read_piece_length in E; [|lia]. unfold u32 in *. rewrite Z.mod_small in * by lia.
  rewrite (proj2 (Z.ltb_ge _ _)) by lia. split_and!; try lia. rewrite length_slice by lia. lia.
Qed.

Lemma request_from_range m r :
  bytes_ok (pm_payload m) -> request_from_peer_message m = Ok r -> 0 <= rq_index r /\ 0 <= rq_begin r /\ 0 <= rq_length r.
Proof.
  intros Hb E. unfold request_from_peer_message in E. inv_result. cbn.
  pose proof (read_be32_range (pm_payload m) Hb). pose proof (read_be32_range (drop 4 (pm_payload m)) ltac:(by apply bytes_ok_drop)).
  pose proof (read_be32_range (drop 8 (pm_payload m)) ltac:(by apply bytes_ok_drop)). lia.
Qed.

Lemma safe_handle_request m : bytes_ok (pm_payload m) -> safe busy (handle_request send_fate c dw m) (fun _ => busy).
Proof.
  intros Hm. unfold handle_request. eapply safe_bind; [apply safe_lift|].
  { unfold request_from_peer_message. do 2 (apply runtime_bind; [by apply runtime_throw_if|intros _]). done. }
  intros r. apply (safe_assume (request_from_peer_message m = Ok r)); [by intros n s _ [H _]|]. intros Er.
  destruct (request_from_range m r Hm Er) as (H1 & H2 & H3).
  eapply safe_bind; [apply safe_get|]. intros n. cbv beta.
  case_if; [apply safe_ret; by intros n' s _ (_ & _ & H)|].
  case_if; [apply safe_ret; by intros n' s _ (_ & _ & H)|]. b2p.
  apply (safe_bind _ _ _ (fun a n s => busy n s /\ forall b, a = Some b ->
    rq_index r < m_num_pieces c /\ Z.of_nat (length b) = rq_length r /\
    rq_begin r + rq_length r <= piece_length c (rq_index r))).
  { intros w Hw (_ & _ & Hb). unfold try_read_block. pose proof (read_block_spec r (w_pieces w) (w_disk w) H1 H2 H3) as Hs.
    destruct (read_block _ _ _ _ _ _ _) as [b|e]; [|by destruct e]. split; [done|]. split; [done|]. by intros b' [= <-]. }
  intros [b|]; [|apply safe_ret; by intros n' s _ [HH _]].
  apply (safe_assume (rq_index r < m_num_pieces c /\ Z.of_nat (length b) = rq_length r /\
    rq_begin r + rq_length r <= piece_length c (rq_index r))); [by intros n' s _ [_ HH]; apply HH|]. intros (F1 & F2 & F3).
  apply (safe_seq _ _ _ busy).
  - eapply safe_weaken; [apply (safe_send _ busy), out_piece; cbn; lia|by intros n' s [HH _]|done].
  - apply safe_modify. by intros n' s Hb Hc HH.
Qed.

Lemma safe_dispatch m : bytes_ok (pm_payload m) -> safe busy (dispatch send_fate c dw m) (fun _ => ready).
Proof.
  intros Hm. assert (forall a : io unit, safe busy a (fun _ => busy) -> safe busy a (fun _ => ready)) as Hweak.
  { intros a Ha. eapply safe_weaken; [exact Ha|done|]. intros u n s H. by eapply busy_ready. }
  unfold dispatch. destruct (pm_id m).
  - apply safe_handle_choke.
  - apply Hweak, safe_modify. intros n s Hb Hc H. split_and!; try done. intros p Hp. by destruct (Hc p Hp) as (? & ? & ?).
  - apply Hweak. apply (safe_seq _ _ _ busy); [|apply safe_send_unchoke]. apply safe_modify. by intros n s Hb Hc H.
  - apply Hweak, safe_modify. by intros n s Hb Hc H.
  - by apply Hweak, safe_handle_have.
  - by apply Hweak, safe_handle_bitfield.
  - by apply Hweak, safe_handle_request.
  - by apply safe_handle_piece.
  - apply Hweak. unfold handle_cancel. eapply safe_bind; [apply safe_lift|].
    { unfold cancel_from_peer_message. do 2 (apply runtime_bind; [by apply runtime_throw_if|intros _]). done. }
    intros r. apply safe_ret. by intros n s _ [_ H].
  - by apply Hweak, safe_ret.
Qed.

Lemma safe_iteration m :
  (forall x, m = Some x -> bytes_ok (pm_payload x)) -> safe busy (iteration send_fate c dw m) (fun _ => busy).
Proof.
  intros Hm. destruct m as [m|]; [|by apply safe_ret]. cbn [iteration].
  apply (safe_seq _ _ _ ready); [by apply safe_dispatch, Hm|apply safe_fill_requests].
Qed.

(** *** The loop *)

Lemma recv_message_ok stream :
  bytes_ok stream ->
  match recv_message stream with
  | Ok (m, rest) => (length rest < length stream)%nat /\ bytes_ok rest /\ forall x, m = Some x -> bytes_ok (pm_payload x)
  | Throw e => is_runtime e
  end.
Proof.
  intros Hs. unfold recv_message, recv_exact. case_if; [done|]. cbn [mbind result_bind]. b2p.
  pose proof (read_be32_range (take 4 stream) ltac:(by apply bytes_ok_take)) as Hl. set (l := read_be32 _) in *.
  destruct (l =? 0) eqn:E0; [rewrite length_drop; split_and!; [lia|by apply bytes_ok_drop|done]|]. b2p.
  destruct (2 ^ 24 <? l) eqn:E1; cbn [throw_if mbind result_bind]; [done|].
  destruct (length (drop 4 stream) <? Z.to_nat l)%nat eqn:E2; cbn [mbind result_bind]; [done|]. b2p.
  rewrite length_drop in *.
  destruct (take (Z.to_nat l) (drop 4 stream)) as [|b payload] eqn:Et.
  { apply (f_equal length) in Et. rewrite length_take, length_drop in Et. cbn in Et. lia. }
  rewrite !length_drop. split_and!; [lia|by do 2 apply bytes_ok_drop|].
  intros x [= <-]. cbn. assert (bytes_ok (b :: payload)) as Hb by (rewrite <- Et; by apply bytes_ok_take, bytes_ok_drop).
  by apply Forall_cons in Hb as [_ Hb].
Qed.

Context (others : bytes -> PieceState * Disk -> PieceState * Disk).
Context (Hothers : forall st s d, length (m_have s) = num c -> length (m_have (fst (others st (s, d)))) = num c).

Lemma safe_run fuel stream :
  (length stream < fuel)%nat -> bytes_ok stream ->
  safe busy (run send_fate c dw others fuel stream) (fun _ _ _ => False).
Proof.
  revert stream. induction fuel as [|fuel IH]; intros stream Hf Hs; [lia|]. cbn [run].
  apply (safe_seq _ _ _ busy).
  { intros w [H1 H2 H3 H4] Hb. unfold interfere. pose proof (Hothers stream (w_pieces w) (w_disk w) H2) as Ho.
    destruct (others stream (w_pieces w, w_disk w)) as [s d]. split; [by constructor|done]. }
  pose proof (recv_message_ok stream Hs) as Hm. eapply safe_bind; [apply safe_lift; by intros e He; rewrite He in Hm|].
  intros m. apply (safe_assume (recv_message stream = Ok m)); [by intros n s _ [H _]|]. intros Em. rewrite Em in Hm.
  destruct m as [m rest]. destruct Hm as (Hlen & Hrest & Hbody). cbn [fst snd].
  apply (safe_seq _ _ _ busy).
  - eapply safe_weaken; [by apply safe_iteration|by intros n s [_ H]|done].
  - apply IH; [lia|done].
Qed.

Lemma safe_send_bitfield : safe busy (send_bitfield send_fate c) (fun _ => busy).
Proof.
  unfold send_bitfield. eapply safe_bind; [apply safe_ask|]. intros have. cbv beta.
  case_if; [apply safe_ret; by intros n s _ [_ H]|].
  apply (safe_assume (length have = num c)).
  { intros n s _ [<- _]. unfold current_bitfield. by rewrite length_map, length_seq. }
  intros Hl. eapply safe_weaken; [by apply (safe_send _ busy), out_bitfield|by intros n s [_ H]|done].
Qed.

(** After the handshake has been sent and answered. *)
Lemma safe_connected stream (w : World) :
  bytes_ok stream -> world_ok w -> busy (w_conn w) (w_pieces w) ->
  let '(w', r) := (modify (set_connected true);; send_bitfield send_fate c;; run send_fate c dw others (S (length stream)) stream) w in
  world_ok w' /\ exists e, r = Throw e /\ ends w' e.
Proof.
  intros Hs Hw Hb.
  assert (safe busy (modify (set_connected true);; send_bitfield send_fate c;; run send_fate c dw others (S (length stream)) stream)
            (fun _ _ _ => False)) as Hsafe.
  { apply (safe_seq _ _ _ busy); [by apply safe_modify|]. apply (safe_seq _ _ _ busy); [apply safe_send_bitfield|].
    apply safe_run; [lia|done]. }
  specialize (Hsafe w Hw Hb). destruct (bind _ _ w) as [w' [u|e]]; [by destruct Hsafe|].
  destruct Hsafe as [H1 H2]. split; [done|]. eauto.
Qed.

Lemma bind_assoc {A B C} (m : io A) (k : A -> io B) (k' : B -> io C) w :
  bind (bind m k) k' w = bind m (fun a => bind (k a) k') w.
Proof. unfold bind. by destruct (m w) as [w' [a|e]]. Qed.

Lemma handshake_runtime b e : handshake_deserialize b = Throw e -> is_runtime e.
Proof. unfold handshake_deserialize. repeat case_match; intros; by simplify_eq. Qed.

(** The handshake sends one buffer and touches nothing else. *)
Lemma do_handshake_spec ih id stream n s d :
  let hs := handshake_serialize (mkHandshake (replicate 8 0) ih id) in
  match do_handshake send_fate ih id stream (mkWorld n s d []) with
  | (w', Ok rest) => w' = mkWorld n s d [hs] /\ rest = drop HANDSHAKE_LENGTH stream
  | (w', Throw e) => ends w' e /\ exists out, w' = mkWorld n s d out /\ (length out <= 1)%nat
  end.
Proof.
  intros hs. unfold do_handshake, bind at 1, send_bytes. cbn [w_sent w_conn w_pieces w_disk].
  assert (exists out, mkWorld n s d [] = mkWorld n s d out /\ (length out <= 1)%nat) as H0 by (exists []; cbn; auto).
  assert (exists out, mkWorld n s d [hs] = mkWorld n s d out /\ (length out <= 1)%nat) as H1 by (exists [hs]; cbn; auto).
  destruct (send_fate []) eqn:Ef; [|split; [by left|done]|split; [by right|done]].
  unfold bind, lift, recv_exact. case_if; [split; [by left|done]|]. case_if; [split; [by left|done]|].
  destruct (handshake_deserialize _) as [reply|e] eqn:E; [|apply handshake_runtime in E; split; [by left|done]].
  case_if; [split; [by left|done]|done].
Qed.

Lemma world_new s d out : length (m_have s) = num c -> (length out <= 1)%nat -> world_ok (mkWorld (conn_new c) s d out).
Proof.
  intros Hs Ho. constructor; cbn [w_conn w_pieces w_sent conn_new m_peer_bitfield m_current_piece]; try done.
  - by rewrite length_replicate.
  - exists out, []. rewrite app_nil_r. done.
Qed.

Lemma connection_ok ih id stream s d :
  bytes_ok stream -> length (m_have s) = num c ->
  let '(w', r) := connection send_fate c dw others ih id stream (mkWorld (conn_new c) s d []) in
  world_ok w' /\ exists e, r = Throw e /\ ends w' e.
Proof.
  intros Hs Hl. unfold connection. unfold connect. rewrite bind_assoc.
  pose proof (do_handshake_spec ih id stream (conn_new c) s d) as Hd. cbv zeta in Hd. unfold bind at 1.
  destruct (do_handshake _ _ _ _ _) as [w1 [rest|e]].
  - destruct Hd as [-> ->]. rewrite bind_assoc.
    pose proof (safe_connected (drop HANDSHAKE_LENGTH stream)
      (mkWorld (conn_new c) s d [handshake_serialize (mkHandshake (replicate 8 0) ih id)])) as H.
    assert (bytes_ok (drop HANDSHAKE_LENGTH stream)) as H1 by (by apply bytes_ok_drop).
    specialize (H H1 ltac:(by apply world_new) ltac:(by intros p)).
    unfold bind in *. cbn [modify] in *.
    match type of H with context [send_bitfield send_fate c ?w0] => destruct (send_bitfield send_fate c w0) as [w2 [u|e]] end; exact H.
  - destruct Hd as (He & out & -> & Ho). split; [by apply world_new|]. eauto.
Qed.
End safety.

(** C39: for every sequence of bytes a peer may send, whatever the other threads do to the
    piece manager and the disk meanwhile and whatever becomes of each send, a connection
    (connect and run) ends in one of two ways: with a std::runtime_error, or, only when a
    send is made on a connection that was shut down, with the process, killed by SIGPIPE.
    It never reads or writes outside a buffer (the model's [Undefined]) and never runs on
    after the stream has ended.  All it has sent besides the handshake are Interested,
    Unchoke, Bitfield, requests for aligned blocks of at most 16 KiB inside existing
    pieces, and blocks inside pieces; a piece left in flight is consistent (buffer, flags
    and counters of the piece's length) and, if the process lives, its claim is released
    by the destructor unless the piece is finished. *)
Theorem peer_connection_safe (SH : Sha1) (ENV : DiskEnv) send_fate c dw others ih id stream s d :
  geometry c dw -> bytes_ok stream -> length (m_have s) = num c ->
  (forall st s d, length (m_have s) = num c -> length (m_have (fst (others st (s, d)))) = num c) ->
  let w0 := mkWorld (conn_new c) s d [] in
  let '(w, r) := connection send_fate c dw others ih id stream w0 in
  ((exists what, r = Throw (RuntimeError what)) \/ r = Throw Sigpipe /\ send_fate (w_sent w) = Broken) /\
  (exists hs l, w_sent w = hs ++ l /\ (length hs <= 1)%nat /\ Forall (sent_ok c) l) /\
  (forall p, m_current_piece (w_conn w) = Some p ->
     piece_ok c p /\
     (r <> Throw Sigpipe -> m_current_piece_exclusive (w_conn w) = true ->
      get (m_have (w_pieces w)) (Z.to_nat (if_index p)) = false ->
      get (m_claimed (w_pieces (session send_fate c dw others ih id stream w0))) (Z.to_nat (if_index p)) = false)).
Proof.
  intros Hg Hs Hl Ho w0. pose proof (connection_ok send_fate c dw Hg others Ho ih id stream s d Hs Hl) as H. fold w0 in H.
  unfold session. destruct (connection _ _ _ _ _ _ _ w0) as [w r]. destruct H as ([H1 H2 H3 H4] & e & -> & He).
  split. { destruct He as [He|[-> He]]; [left; destruct e; try done; eauto|by right]. }
  split; [exact H4|]. intros p Hp. destruct (H3 p Hp) as [Hok _]. split; [done|]. intros Hns Hx Hh.
  replace (match e with Sigpipe => w | _ => fst (release_current c w) end) with (fst (release_current c w)) by (by destruct e).
  unfold release_current, bind, get_conn. cbn [fst]. rewrite Hp, Hx. cbn.
  unfold abort_piece. destruct (po_index _ _ Hok) as [Hi1 Hi2]. rewrite (proj2 (Z.leb_gt _ _)) by lia. rewrite Hh. cbn.
  unfold get. destruct (decide (Z.to_nat (if_index p) < length (m_claimed (w_pieces w)))%nat) as [Hlt|Hge].
  - by rewrite list_lookup_insert_eq.
  - rewrite lookup_ge_None_2; [done|]. rewrite length_insert. lia.
Qed.

(** A torrent of two pieces of two and one bytes, and a peer that unchokes us, announces a
    piece and sends a block of another one before it goes away. *)
Definition small_config : PieceConfig :=
  let hash d := @sha1 sample_sha1 d in mkPieceConfig 3 2 2 [hash [1; 2]; hash [3]].
Definition small_writer : DiskWriter := mkDisk (str "out") 2 3 [mkFileEntry (str "f") 3 0].
Definition small_stream : bytes :=
  handshake_serialize (mkHandshake (replicate 8 0) (mkInfoHash (replicate 20 5)) (replicate 20 1)) ++
  [0; 0; 0; 1; 1] ++ [0; 0; 0; 5; 4; 0; 0; 0; 1] ++ [0; 0; 0; 10; 7; 0; 0; 0; 0; 0; 0; 0; 0; 1] ++ [0; 0].

Lemma small_geometry : geometry small_config small_writer.
Proof. constructor; unfold config_ok; cbn; lia. Qed.

Lemma peer_connection_safe_witness :
  let _ : Sha1 := sample_sha1 in
  let _ : DiskEnv := good_disk in
  let '(w, r) := connection (fun _ => Taken) small_config small_writer (fun _ x => x) (mkInfoHash (replicate 20 5))
      (replicate 20 2) small_stream
      (mkWorld (conn_new small_config) (mkPieceState [false; false] [false; false] 0 0 0) (mkDiskState ∅ false) []) in
  (exists what, r = Throw (RuntimeError what)) /\ length (w_sent w) = 3%nat /\
  exists p, m_current_piece (w_conn w) = Some p /\ piece_ok small_config p.
Proof.
  intros SH ENV.
  pose proof (peer_connection_safe SH ENV (fun _ => Taken) small_config small_writer (fun _ x => x)
    (mkInfoHash (replicate 20 5)) (replicate 20 2) small_stream (mkPieceState [false; false] [false; false] 0 0 0)
    (mkDiskState ∅ false) small_geometry) as H.
  cbv zeta in H. destruct (connection _ _ _ _ _ _ _ _) as [w r] eqn:E.
  destruct H as (H1 & _ & H3); [apply (bool_decide_unpack (bytes_ok small_stream)); vm_compute; exact I|reflexivity|done|].
  assert (length (w_sent (fst (w, r))) = 3%nat /\
          match m_current_piece (w_conn (fst (w, r))) with Some _ => True | None => False end) as [Hl Hp]
    by (rewrite <- E; vm_compute; split; [reflexivity|exact I]).
  split; [destruct H1 as [H1|[_ H1]]; [exact H1|discriminate H1]|]. split; [exact Hl|]. cbn [fst] in Hp. destruct (m_current_piece (w_conn w)) as [p|]; [|destruct Hp].
  exists p. split; [reflexivity|]. apply H3. reflexivity.
Defined.
