(* ===== verification/PieceExchange.v ===== *)
(** * A piece travels from one client to another

    Two ends of src/peer_wire/peer_connection.cpp composed: the requests of the
    downloading end, the answers of the serving end ([handle_request], [read_block]) and
    the assembly of the answers in any order ([handle_piece], [complete_piece]). *)

From S2P Require Import Prelude CxxLib ByteOrder Hash Bencode TorrentFile DiskWriter PieceManager.
From S2P Require Import PeerMessage PeerConnection.

Local Open Scope io_scope.

(** Iterations of [run] on messages received one after the other. *)
Fixpoint iterate `{Sha1, DiskEnv} send_fate c dw (ms : list PeerMessage) : io unit :=
  match ms with
  | [] => ret ()
  | m :: ms' => iteration send_fate c dw (Some m);; iterate send_fate c dw ms'
  end.

(** The buffer of a message. *)
Definition wire (m : PeerMessage) : bytes := match serialize m with Ok b => b | Throw _ => [] end.

Definition always : list bytes -> SendFate := fun _ => Taken.

(** ** The blocks of a piece *)

Definition BS : nat := Z.to_nat BLOCK_SIZE.

Lemma BS_pos : (0 < BS)%nat.
Proof. unfold BS, BLOCK_SIZE. lia. Qed.

Lemma BS_Z : Z.of_nat BS = BLOCK_SIZE.
Proof. unfold BS, BLOCK_SIZE. lia. Qed.

#[global] Opaque BS.

(** Block [j] of piece [i] of length [len]: its request, and how many there are. *)
Definition block_request (i : Z) (len j : nat) : RequestMessage :=
  mkRequest i (Z.of_nat (j * BS)) (Z.of_nat (Nat.min BS (len - j * BS))).

Definition block_count (len : nat) : nat := Z.to_nat (nblocks (Z.of_nat len)).

Definition block_requests (i : Z) (len k m : nat) : list PeerMessage :=
  map (fun j => request_to_peer_message (block_request i len j)) (seq k m).

(** The answer with the bytes of the piece. *)
Definition block_reply (i : Z) (content : bytes) (j : nat) : PieceMessage :=
  mkPiece i (Z.of_nat (j * BS)) (take BS (drop (j * BS) content)).

Definition requests (i : Z) (content : bytes) : list PeerMessage :=
  block_requests i (length content) 0 (block_count (length content)).

Definition replies (i : Z) (content : bytes) : list PeerMessage :=
  map (fun j => piece_to_peer_message (block_reply i content j)) (seq 0 (block_count (length content))).

Lemma block_count_spec len j : (j < block_count len <-> j * BS < len)%nat.
Proof.
  unfold block_count, nblocks. rewrite <- BS_Z. pose proof BS_pos as HB.
  set (q := (Z.of_nat len + Z.of_nat BS - 1) / Z.of_nat BS).
  pose proof (Z.div_mod (Z.of_nat len + Z.of_nat BS - 1) (Z.of_nat BS) ltac:(lia)) as E. fold q in E.
  pose proof (Z.mod_pos_bound (Z.of_nat len + Z.of_nat BS - 1) (Z.of_nat BS) ltac:(lia)) as Hm.
  assert (0 <= q) by (apply Z.div_pos; lia).
  split; intros Hj; nia.
Qed.

Lemma block_of j x : (j * BS <= x < j * BS + BS)%nat <-> (x / BS = j)%nat.
Proof.
  pose proof BS_pos. pose proof (Nat.div_mod_eq x BS). pose proof (Nat.mod_upper_bound x BS ltac:(lia)).
  split; [|intros <-; nia]. intros Hx. nia.
Qed.

Lemma block_requests_cons i len k m :
  block_requests i len k (S m) = request_to_peer_message (block_request i len k) :: block_requests i len (S k) m.
Proof. reflexivity. Qed.

Lemma length_block_reply i content j :
  length (pc_block (block_reply i content j)) = Nat.min BS (length content - j * BS).
Proof. cbn. by rewrite length_take, length_drop. Qed.

Lemma lookup_splice (img b : bytes) o x :
  (o + length b <= length img)%nat ->
  splice img o b !! x = if decide (o <= x < o + length b)%nat then b !! (x - o)%nat else img !! x.
Proof.
  intros Hl. unfold splice. destruct (decide (x < o)%nat) as [Hx|Hx].
  - rewrite decide_False by lia. rewrite lookup_app_l by (rewrite length_take; lia). by rewrite lookup_take_lt by lia.
  - rewrite lookup_app_r by (rewrite length_take; lia). rewrite length_take, Nat.min_l by lia.
    case_decide as Hd.
    + by rewrite lookup_app_l by lia.
    + rewrite lookup_app_r by lia. rewrite lookup_drop. f_equal. lia.
Qed.

(** ** Sending always succeeds *)

Lemma send_exec m n s d out :
  Z.of_nat (length (pm_payload m)) < 2 ^ 31 ->
  send_message always m (mkWorld n s d out) = (mkWorld n s d (out ++ [wire m]), Ok ()).
Proof.
  intros Hm. destruct (serialize_fits m Hm) as [b Hb]. unfold send_message, wire, lift, bind, send_bytes. rewrite Hb. done.
Qed.

Lemma request_fits r : Z.of_nat (length (pm_payload (request_to_peer_message r))) < 2 ^ 31.
Proof. done. Qed.

Lemma request_roundtrip r : range_ok r -> request_from_peer_message (request_to_peer_message r) = Ok r.
Proof.
  intros Hr. unfold request_from_peer_message. cbn [pm_id request_to_peer_message pm_payload].
  rewrite bool_decide_true by done. cbn [negb throw_if mbind result_bind]. by rewrite range_read.
Qed.

Lemma piece_roundtrip p : u32_ok (pc_index p) -> u32_ok (pc_begin p) -> piece_from_peer_message (piece_to_peer_message p) = Ok p.
Proof.
  intros H1 H2. unfold piece_from_peer_message. cbn [pm_id piece_to_peer_message pm_payload]. rewrite bool_decide_true by done.
  cbn [negb throw_if mbind result_bind]. rewrite read_write_be32 by done.
  change (drop 4 (write_be32 (pc_index p) ++ write_be32 (pc_begin p) ++ pc_block p))
    with (write_be32 (pc_begin p) ++ pc_block p).
  change (drop 8 (write_be32 (pc_index p) ++ write_be32 (pc_begin p) ++ pc_block p)) with (pc_block p).
  rewrite read_write_be32 by done. by destruct p.
Qed.

(** ** The serving end *)

Section serving.
Context {SH : Sha1} {ENV : DiskEnv} (c : PieceConfig) (dw : DiskWriter) (GEO : geometry c dw).
Context (i : Z) (content : bytes) (Hi : 0 <= i < m_num_pieces c).

(** It holds the piece, has unchoked its peer and downloads nothing from it. *)
Record serves (w : World) : Prop := {
  sv_unchoked : m_am_choking (w_conn w) = false;
  sv_idle : m_am_interested (w_conn w) = false;
  sv_have : have_piece c i (w_pieces w) = true;
  sv_disk : read_piece dw i (w_disk w) = Ok content;
}.

Lemma content_length w : serves w -> Z.of_nat (length content) = piece_length c i.
Proof. intros [_ _ _ Hd]. by apply (read_piece_length c dw GEO) in Hd. Qed.

Lemma content_range w : serves w -> 0 < Z.of_nat (length content) <= 2 ^ 31.
Proof. intros Hw. rewrite (content_length w Hw). by apply (piece_length_bounds c dw GEO). Qed.

Lemma serve_block_exec w j :
  serves w -> (j < block_count (length content))%nat ->
  exists n', iteration always c dw (Some (request_to_peer_message (block_request i (length content) j))) w =
      (mkWorld n' (w_pieces w) (w_disk w) (w_sent w ++ [wire (piece_to_peer_message (block_reply i content j))]), Ok ()) /\
    m_am_choking n' = false /\ m_am_interested n' = false.
Proof.
  intros Hw Hj. pose proof (content_length w Hw) as Hlen. pose proof (content_range w Hw) as Hr.
  apply block_count_spec in Hj. pose proof BS_pos. pose proof BS_Z as HB. assert (BLOCK_SIZE = 16384) as HB' by done.
  pose proof (geo_num _ _ GEO). destruct Hw as [H1 H2 H3 H4].
  assert (range_ok (block_request i (length content) j)) as Hrange by (unfold range_ok, u32_ok; cbn; lia).
  unfold iteration, dispatch. cbn [pm_id request_to_peer_message]. unfold handle_request.
  change (mkPM Request (range_payload (block_request i (length content) j))) with (request_to_peer_message (block_request i (length content) j)).
  unfold bind at 1 2, lift. rewrite (request_roundtrip _ Hrange). unfold bind at 1, get_conn. rewrite H1.
  cbn [rq_length block_request]. rewrite (proj2 (Z.eqb_neq _ _)), (proj2 (Z.ltb_ge _ _)) by lia. cbn [orb].
  assert (read_block c dw i (Z.of_nat (j * BS)) (Z.of_nat (Nat.min BS (length content - j * BS))) (w_pieces w) (w_disk w) =
          Ok (take BS (drop (j * BS) content))) as Eread.
  { unfold read_block. rewrite H3. cbn [negb throw_if mbind result_bind]. rewrite <- Hlen.
    unfold u32. rewrite Z.mod_small by lia. rewrite (proj2 (Z.ltb_ge _ _)), (proj2 (Z.ltb_ge _ _)) by lia.
    cbn [orb throw_if mbind result_bind]. rewrite H4. cbn [mbind result_bind]. rewrite (proj2 (Z.ltb_ge _ _)) by lia.
    f_equal. unfold slice. rewrite Nat2Z.id.
    replace (Z.to_nat (Z.of_nat (j * BS) + Z.of_nat (Nat.min BS (length content - j * BS))) - j * BS)%nat
      with (Nat.min BS (length (drop (j * BS) content))) by (rewrite length_drop; lia).
    destruct (Nat.min_spec BS (length (drop (j * BS) content))) as [[_ ->]|[Hle ->]]; [done|].
    by rewrite firstn_all, take_ge. }
  unfold bind at 1, try_read_block. cbn [rq_index rq_begin rq_length block_request]. rewrite Eread.
  destruct w as [n s d out]. unfold bind at 1. rewrite send_exec; cycle 1.
  { cbn [piece_to_peer_message pm_payload pc_block]. rewrite !length_app, !length_write_be32, length_take. lia. }
  unfold modify, fill_requests, bind, get_conn. cbn [w_conn w_pieces w_disk w_sent add_uploaded m_peer_choking m_am_interested] in *.
  rewrite H2. cbn [negb]. destruct (m_peer_choking n); (eexists; split; [reflexivity|done]).
Qed.

Lemma serve_block w j :
  serves w -> (j < block_count (length content))%nat ->
  exists w', iteration always c dw (Some (request_to_peer_message (block_request i (length content) j))) w = (w', Ok ()) /\
    serves w' /\ w_sent w' = w_sent w ++ [wire (piece_to_peer_message (block_reply i content j))].
Proof.
  intros Hw Hj. destruct (serve_block_exec w j Hw Hj) as (n' & E & H1 & H2). eexists. split; [exact E|].
  destruct Hw. split; [by constructor|done].
Qed.

Lemma serve_blocks w k m :
  serves w -> (k + m <= block_count (length content))%nat ->
  exists w', iterate always c dw (block_requests i (length content) k m) w = (w', Ok ()) /\
    serves w' /\
    w_sent w' = w_sent w ++ map wire (map (fun j => piece_to_peer_message (block_reply i content j)) (seq k m)).
Proof.
  revert w k. induction m as [|m IH]; intros w k Hw Hk; unfold block_requests in *; cbn [seq map iterate].
  - exists w. rewrite app_nil_r. done.
  - destruct (serve_block w k Hw ltac:(lia)) as (w1 & E1 & Hw1 & Hs1).
    destruct (IH w1 (S k) Hw1 ltac:(lia)) as (w2 & E2 & Hw2 & Hs2).
    exists w2. unfold bind. rewrite E1. split; [done|]. split; [done|]. by rewrite Hs2, Hs1, <- app_assoc.
Qed.
End serving.

(** ** The downloading end *)

Section downloading.
Context {SH : Sha1} {ENV : DiskEnv} (c : PieceConfig) (dw : DiskWriter) (GEO : geometry c dw).

(** The request loop sends the next requests of the piece, in order, until 15 are
    outstanding or all are sent. *)
Lemma request_loop_exec fuel p n s d out k i len :
  piece_ok c p -> if_index p = i -> if_length p = Z.of_nat len ->
  next_block_offset p = Z.of_nat (Nat.min (k * BS) len) -> (k <= block_count len)%nat ->
  MAX_PIPELINE <= requests_in_flight p + Z.of_nat fuel ->
  exists m p', (k <= m <= block_count len)%nat /\
    request_loop always fuel p (mkWorld (set_piece p n) s d out) =
      (mkWorld (set_piece p' n) s d (out ++ map wire (block_requests i len k (m - k))), Ok ()) /\
    piece_ok c p' /\ if_index p' = i /\ if_length p' = Z.of_nat len /\ if_data p' = if_data p /\
    blocks_received p' = blocks_received p /\ blocks_done p' = blocks_done p /\
    next_block_offset p' = Z.of_nat (Nat.min (m * BS) len) /\
    requests_in_flight p' = requests_in_flight p + Z.of_nat (m - k) /\
    ((m < block_count len)%nat -> MAX_PIPELINE <= requests_in_flight p') /\
    ((k < m)%nat -> requests_in_flight p' <= MAX_PIPELINE).
Proof.
  revert p out k. induction fuel as [|fuel IH]; intros p out k Hok Hix Hl Hoff Hk Hf.
  - exists k, p. cbn [request_loop]. rewrite (proj2 (Z.ltb_ge (requests_in_flight p) _)) by (unfold MAX_PIPELINE in *; lia).
    cbn [andb]. rewrite Nat.sub_diag. cbn. rewrite app_nil_r. split_and!; try done; try lia.
  - cbn [request_loop]. destruct (_ && _) eqn:E.
    + b2p. destruct (request_advance c dw GEO p Hok ltac:(done) ltac:(done)) as (Hbl & Hout & Hok' & E1 & E2). cbv zeta in *.
      rewrite Hbl in *. rewrite Hl, Hoff in *. pose proof BS_pos. pose proof BS_Z.
      assert (k * BS < len)%nat as Hlt by lia. pose proof (proj2 (block_count_spec len k) Hlt) as Hk'.
      assert (Z.min BLOCK_SIZE (Z.of_nat len - Z.of_nat (Nat.min (k * BS) len)) = Z.of_nat (Nat.min BS (len - k * BS))) as Eb by lia.
      rewrite Eb in *.
      assert (mkRequest (if_index p) (Z.of_nat (Nat.min (k * BS) len)) (Z.of_nat (Nat.min BS (len - k * BS))) = block_request i len k)
        as Ereq by (rewrite Hix, Nat.min_l by lia; reflexivity).
      rewrite Ereq. unfold bind at 1. rewrite send_exec by apply request_fits. unfold bind, modify.
      cbn [w_conn w_pieces w_disk w_sent].
      match goal with |- context [request_loop always fuel ?q] => set (p1 := q) in * end.
      change (set_piece p1 (set_piece p n)) with (set_piece p1 n).
      assert (next_block_offset p1 = Z.of_nat (Nat.min (S k * BS) len)) as Eoff by (subst p1; cbn [next_block_offset]; rewrite E1; lia).
      assert (requests_in_flight p1 = requests_in_flight p + 1) as Efl by exact E2.
      destruct (IH p1 (out ++ [wire (request_to_peer_message (block_request i len k))]) (S k) Hok' Hix eq_refl Eoff Hk' ltac:(lia)) as
        (m & p' & Hm & Er & F1 & F2 & F3 & F4 & F5 & F6 & F7 & F8 & F9 & F10).
      exists m, p'. rewrite Er. replace (m - k)%nat with (S (m - S k)) by lia. rewrite block_requests_cons, <- app_assoc.
      split; [lia|]. split; [reflexivity|]. split; [exact F1|]. split; [exact F2|]. split; [exact F3|]. split; [exact F4|].
      split; [exact F5|]. split; [exact F6|]. split; [exact F7|]. rewrite Efl in F8. split; [lia|]. split; [exact F9|].
      intros _. destruct (decide (S k < m)%nat) as [Hlt2|Hge2]; [by apply F10|]. unfold MAX_PIPELINE in *. lia.
    + exists k, p. rewrite Nat.sub_diag. cbn [block_requests seq map]. rewrite app_nil_r. pose proof (block_count_spec len k).
      split; [lia|]. split; [reflexivity|]. split; [done|]. split; [done|]. split; [done|]. split; [done|]. split; [done|].
      split; [done|]. split; [done|]. split_and!; [lia|lia|lia].
Qed.

Lemma fill_none n s d out :
  m_peer_choking n = false -> m_am_interested n = true -> m_current_piece n = None ->
  fill_requests always c (mkWorld n s d out) =
  match next_needed c (m_peer_bitfield n) s with
  | (None, s') => (mkWorld n s' d out, Ok ())
  | (Some np, s') =>
      let p := new_in_flight c (np_index np) in
      request_loop always 15 p (mkWorld (set_piece p (set_current None (np_exclusive np) n)) s' d out)
  end.
Proof.
  destruct n as [n1 n2 n3 n4 n5 bf cp cx b1 b2 b3]. cbn [m_peer_choking m_am_interested m_current_piece m_peer_bitfield]. intros -> -> ->.
  unfold fill_requests, bind, get_conn, update, modify, ret.
  cbn [w_conn w_pieces w_disk w_sent m_peer_choking m_am_interested m_current_piece m_peer_bitfield negb].
  by destruct (next_needed c bf s) as [[np|] s'].
Qed.

(** A new piece is picked and its first requests are sent. *)
Lemma fill_pick n s d out np s' len :
  m_peer_choking n = false -> m_am_interested n = true -> m_current_piece n = None ->
  next_needed c (m_peer_bitfield n) s = (Some np, s') -> Z.of_nat len = piece_length c (np_index np) ->
  exists m p', (0 <= m <= block_count len)%nat /\
    fill_requests always c (mkWorld n s d out) =
      (mkWorld (set_piece p' (set_current None (np_exclusive np) n)) s' d
         (out ++ map wire (block_requests (np_index np) len 0 m)), Ok ()) /\
    piece_ok c p' /\ if_index p' = np_index np /\ if_length p' = Z.of_nat len /\
    if_data p' = replicate len 0 /\ blocks_received p' = replicate (block_count len) false /\ blocks_done p' = 0 /\
    next_block_offset p' = Z.of_nat (Nat.min (m * BS) len) /\ requests_in_flight p' = Z.of_nat m /\
    ((m < block_count len)%nat -> m = 15%nat).
Proof.
  intros H1 H2 H3 E Hlen. destruct (next_needed_range c (m_peer_bitfield n) s) as [_ Hr]. rewrite E in Hr.
  specialize (Hr np eq_refl). destruct (new_in_flight_ok c dw GEO _ Hr) as [Hok _].
  pose proof (piece_length_bounds c dw GEO _ Hr) as Hb.
  destruct (request_loop_exec 15 (new_in_flight c (np_index np)) (set_current None (np_exclusive np) n) s' d out 0 (np_index np) len)
    as (m & p' & Hm & Er & F1 & F2 & F3 & F4 & F5 & F6 & F7 & F8 & F9 & F10);
    [exact Hok|reflexivity|symmetry; exact Hlen|reflexivity|lia|unfold MAX_PIPELINE; cbn [requests_in_flight new_in_flight]; lia|].
  exists m, p'. rewrite fill_none, E by done. cbv zeta. rewrite Er, Nat.sub_0_r.
  unfold new_in_flight in *. rewrite new_in_flight_blocks in * by lia.
  cbn [if_data blocks_received blocks_done requests_in_flight] in *. rewrite F4, F5. unfold block_count. rewrite <- Hlen, Nat2Z.id.
  unfold MAX_PIPELINE, block_count in *.
  split; [lia|]. split; [done|]. split; [done|]. split; [done|]. split; [done|]. split; [done|]. split; [done|].
  split; [done|]. split; [done|]. split_and!; lia.
Qed.

(** Whatever [fill_requests] does after a piece is finished, it returns and leaves the
    flags and the disk alone. *)
Lemma fill_after n s d out :
  m_peer_choking n = false -> m_am_interested n = true -> m_current_piece n = None ->
  exists w' extra, fill_requests always c (mkWorld n s d out) = (w', Ok ()) /\
    m_have (w_pieces w') = m_have s /\ w_disk w' = d /\ w_sent w' = out ++ extra.
Proof.
  intros H1 H2 H3. destruct (next_needed_range c (m_peer_bitfield n) s) as [Hh Hr].
  destruct (next_needed c (m_peer_bitfield n) s) as [[np|] s'] eqn:E.
  - specialize (Hr np eq_refl). pose proof (piece_length_bounds c dw GEO _ Hr) as Hb.
    destruct (fill_pick n s d out np s' (Z.to_nat (piece_length c (np_index np))) H1 H2 H3 E ltac:(lia))
      as (m & p' & _ & Ef & _). rewrite Ef. eauto 10.
  - exists (mkWorld n s' d out), []. rewrite app_nil_r. split; [|done].
    by rewrite fill_none, E.
Qed.

(** [handle_piece] on a block that is new. *)
Lemma handle_block n s d out p pm p' :
  piece_from_peer_message (piece_to_peer_message pm) = Ok pm -> pc_index pm = if_index p ->
  pc_begin pm + Z.of_nat (length (pc_block pm)) <= Z.of_nat (length (if_data p)) ->
  (Z.to_nat (pc_begin pm / BLOCK_SIZE) < length (blocks_received p))%nat ->
  get (blocks_received p) (Z.to_nat (pc_begin pm / BLOCK_SIZE)) = false ->
  store_block (answered p) pm (Z.to_nat (pc_begin pm / BLOCK_SIZE)) = Ok p' ->
  handle_piece c dw (piece_to_peer_message pm) (mkWorld (set_piece p n) s d out) =
  let w := mkWorld (set_piece p' (add_downloaded (Z.of_nat (length (pc_block pm))) n)) s d out in
  if blocks_done p' <? blocks_total p' then (w, Ok ())
  else (ok <- call_complete_piece c dw (if_index p') (if_data p');;
        (if ok then ret () else release_current c);; modify (set_current None false)) w.
Proof.
  intros H1 H2 H3 H4 H5 H6. unfold handle_piece. unfold bind at 1, lift. rewrite H1.
  unfold bind at 1, get_conn. cbn [w_conn set_piece set_current m_current_piece].
  rewrite H2, Z.eqb_refl. cbn [negb]. fold (answered p). unfold bind at 1, modify. cbn [w_conn w_pieces w_disk w_sent].
  cbn [if_data blocks_received answered]. rewrite (proj2 (Z.ltb_ge _ _)) by done.
  rewrite (proj2 (Nat.leb_gt _ _)), H5 by done. cbn [orb]. fold (answered p).
  unfold bind at 1. rewrite H6. unfold bind at 1 2. cbn [w_conn w_pieces w_disk w_sent]. by case_if.
Qed.

Lemma fill_busy n s d out p :
  m_peer_choking n = false -> m_am_interested n = true -> have_piece c (if_index p) s = false ->
  fill_requests always c (mkWorld (set_piece p n) s d out) = request_loop always 15 p (mkWorld (set_piece p n) s d out).
Proof.
  destruct n as [n1 n2 n3 n4 n5 bf cp cx b1 b2 b3]. cbn [m_peer_choking m_am_interested]. intros -> -> H.
  unfold fill_requests, bind, get_conn, ask, ret.
  cbn [w_conn w_pieces w_disk w_sent set_piece set_current m_peer_choking m_am_interested m_current_piece negb
       m_current_piece_exclusive].
  by rewrite H.
Qed.

(** ** Assembling the blocks *)

Context (OK : EnvOk) (DWOK : disk_writer_ok dw).
Context (i : Z) (content : bytes) (Hi : 0 <= i < m_num_pieces c).
Context (Hlen : Z.of_nat (length content) = piece_length c i) (Hsha : sha1 content = hash_of c (Z.to_nat i)).
Abbreviation nb := (block_count (length content)).

(** The blocks of [A] have arrived, those before [k] have been requested. *)
Record assembling (k : nat) (A : list nat) (p : InFlightPiece) : Prop := {
  as_ok : piece_ok c p;
  as_index : if_index p = i;
  as_offset : next_block_offset p = Z.of_nat (Nat.min (k * BS) (length content));
  as_range : (k <= nb)%nat;
  as_window : (k < nb)%nat -> k = (length A + 15)%nat;
  as_flight : requests_in_flight p = u32 (Z.of_nat k - Z.of_nat (length A));
  as_flags : forall j, (j < nb)%nat -> get (blocks_received p) j = bool_decide (j ∈ A);
  as_done : blocks_done p = Z.of_nat (length A);
  as_data : forall x, (x / BS)%nat ∈ A -> if_data p !! x = content !! x;
}.

Lemma content_small : 0 < Z.of_nat (length content) <= 2 ^ 31.
Proof. rewrite Hlen. by apply (piece_length_bounds c dw GEO). Qed.

Lemma assembling_total k A p : assembling k A p -> blocks_total p = Z.of_nat nb /\ length (blocks_received p) = nb.
Proof.
  intros []. destruct as_ok0 as [? Hl ? Ht Hf _ _ _ _]. rewrite as_index0 in Hl. rewrite Hl, <- Hlen in Ht.
  pose proof (nblocks_range _ content_small). rewrite Ht in Hf. unfold block_count. split; [|lia]. rewrite Ht. lia.
Qed.

Lemma assembling_length k A p : assembling k A p -> length (if_data p) = length content.
Proof. intros []. destruct as_ok0 as [? Hl Hd _ _ _ _ _ _]. rewrite as_index0 in Hl. lia. Qed.

Lemma reply_roundtrip j : (j < nb)%nat ->
  piece_from_peer_message (piece_to_peer_message (block_reply i content j)) = Ok (block_reply i content j).
Proof.
  intros Hj. apply block_count_spec in Hj. pose proof content_small. pose proof (geo_num _ _ GEO).
  apply piece_roundtrip; unfold u32_ok, block_reply; cbn [pc_index pc_begin]; lia.
Qed.

Lemma reply_block_index j : Z.to_nat (pc_begin (block_reply i content j) / BLOCK_SIZE) = j.
Proof.
  cbn [block_reply pc_begin]. rewrite <- BS_Z, Nat2Z.inj_mul. pose proof BS_pos. rewrite Z.div_mul by lia. lia.
Qed.

(** What a new block does to the piece. *)
Lemma assembling_block k A p j :
  assembling k A p -> (j < nb)%nat -> j ∉ A ->
  exists p', store_block (answered p) (block_reply i content j) j = Ok p' /\
    piece_ok c p' /\ if_index p' = i /\ next_block_offset p' = next_block_offset p /\ if_length p' = Z.of_nat (length content) /\
    requests_in_flight p' = u32 (Z.of_nat k - Z.of_nat (S (length A))) /\ blocks_total p' = Z.of_nat nb /\
    (forall j', (j' < nb)%nat -> get (blocks_received p') j' = bool_decide (j' ∈ j :: A)) /\
    blocks_done p' = Z.of_nat (S (length A)) /\ length (if_data p') = length content /\
    (forall x, (x / BS)%nat ∈ j :: A -> if_data p' !! x = content !! x).
Proof.
  intros Has Hj HjA. destruct (assembling_total _ _ _ Has) as [Ht Hfl]. pose proof (assembling_length _ _ _ Has) as Hdl.
  pose proof (reply_block_index j) as Hix. pose proof (length_block_reply i content j) as Hbl. pose proof content_small as Hcs.
  pose proof (proj1 (block_count_spec _ _) Hj) as Hjl. destruct Has as [Hok H1 H2 H3 H4 H5 H6 H7 H8].
  destruct (store_block_ok c dw GEO (answered p) (block_reply i content j)) as
    (p' & E & Hok' & F1 & F2 & F3 & F4 & F5 & F6 & F7).
  { by apply answered_ok. }
  { cbn. lia. }
  { cbn [answered if_data]. rewrite Hbl. cbn [block_reply pc_begin]. lia. }
  { rewrite Hix. cbn [answered blocks_received]. lia. }
  { rewrite Hix. cbn [answered blocks_received]. rewrite H6 by done. by apply bool_decide_eq_false. }
  rewrite Hix in *. cbn [answered if_index if_length next_block_offset requests_in_flight blocks_total if_data blocks_received] in *.
  assert (blocks_done p' = u32 (blocks_done p + 1)) as Hbd.
  { unfold store_block, memcpy in E. destruct (_ <? _)%nat; [done|]. cbn [mbind result_bind] in E. by injection E as <-. }
  pose proof (count_true_le (blocks_received p)) as Hct. pose proof Hfl as Hfl0. rewrite <- Nat2Z.inj_iff in Hfl.
  pose proof (po_done _ _ Hok) as Hd. pose proof (nblocks_range _ Hcs) as Hnb. unfold block_count in Ht, Hfl.
  exists p'. split; [exact E|]. split; [exact Hok'|]. split; [congruence|]. split; [exact F3|].
  split; [rewrite F2, (po_length _ _ Hok), H1; by symmetry|].
  split. { rewrite F4, H5. unfold u32. rewrite Zminus_mod_idemp_l. f_equal. lia. }
  split; [rewrite F5; exact Ht|]. split.
  { intros j' Hj'. rewrite F7, get_insert by (rewrite Hfl0; exact Hj). case_decide as Hjj; [subst|].
    - symmetry. apply bool_decide_eq_true. by left.
    - rewrite H6 by done. apply bool_decide_ext. rewrite elem_of_cons. naive_solver. }
  split. { rewrite Hbd, H7. unfold u32. rewrite Z.mod_small; lia. }
  split. { rewrite F6, length_splice; [done|]. rewrite Hbl. cbn [block_reply pc_begin]. lia. }
  intros x Hx. rewrite F6. cbn [block_reply pc_begin pc_block] in *. rewrite Nat2Z.id.
  rewrite lookup_splice by (rewrite Hbl; lia). rewrite Hbl. pose proof (block_of j x) as Hb.
  case_decide as Hd1.
  - rewrite lookup_take_lt, lookup_drop by lia. f_equal. lia.
  - apply elem_of_cons in Hx as [Hx|Hx]; [|by apply H8].
    apply Hb in Hx. rewrite !lookup_ge_None_2 by lia. done.
Qed.

Lemma iteration_piece pm w :
  iteration always c dw (Some (piece_to_peer_message pm)) w =
  bind (handle_piece c dw (piece_to_peer_message pm)) (fun _ => fill_requests always c) w.
Proof. reflexivity. Qed.

Context (s1 : PieceState) (d0 : Disk) (out0 : list bytes).
Context (Hmissing : have_piece c i s1 = false) (Hs1 : length (m_have s1) = num c) (Hd0 : disk_ok dw d0).

Definition downloading (k : nat) (A : list nat) (w : World) : Prop :=
  exists n p, w = mkWorld (set_piece p n) s1 d0 (out0 ++ map wire (block_requests i (length content) 0 k)) /\
    m_peer_choking n = false /\ m_am_interested n = true /\ assembling k A p.

(** A block that is not the last one. *)
Lemma assemble_step k A w j :
  downloading k A w -> (j < nb)%nat -> j ∉ A -> (S (length A) < nb)%nat ->
  exists k' w', iteration always c dw (Some (piece_to_peer_message (block_reply i content j))) w = (w', Ok ()) /\
    downloading k' (j :: A) w'.
Proof.
  intros (n & p & -> & Hch & Hin & Has) Hj HjA Hmore.
  destruct (assembling_block k A p j Has Hj HjA) as (p' & E & Hok' & F1 & F2 & F3 & F4 & F5 & F6 & F7 & F8 & F9).
  destruct (assembling_total _ _ _ Has) as [_ Hfl]. pose proof (assembling_length _ _ _ Has) as Hdl.
  pose proof (reply_block_index j) as Hix. pose proof (length_block_reply i content j) as Hbl.
  pose proof (proj1 (block_count_spec _ _) Hj) as Hjl. destruct Has as [Hok H1 H2 H3 H4 H5 H6 H7 H8].
  pose proof content_small as Hcs.
  rewrite iteration_piece. unfold bind.
  rewrite (handle_block n s1 d0 _ p (block_reply i content j) p'); rewrite ?Hix;
    [|by apply reply_roundtrip|by rewrite H1|rewrite Hbl; cbn [block_reply pc_begin]; lia|by rewrite Hfl
     |rewrite H6 by done; by apply bool_decide_eq_false|exact E].
  cbv zeta. rewrite F5, F7. rewrite (proj2 (Z.ltb_lt _ _)) by lia. set (n' := add_downloaded _ n).
  rewrite fill_busy by (done || by rewrite F1).
  assert ((k < nb)%nat -> requests_in_flight p' = 14) as Hwin.
  { intros Hk. rewrite F4, (H4 Hk). unfold u32. rewrite Z.mod_small; lia. }
  assert (0 <= requests_in_flight p') as Hpos by (rewrite F4; by apply Z.mod_pos_bound).
  destruct (request_loop_exec 15 p' n' s1 d0 (out0 ++ map wire (block_requests i (length content) 0 k)) k i (length content))
    as (m & q & Hm & Er & G1 & G2 & G3 & G4 & G5 & G6 & G7 & G8 & G9 & G10);
    [exact Hok'|exact F1|exact F3|by rewrite F2|exact H3|unfold MAX_PIPELINE; lia|].
  rewrite Er. exists m. eexists. split; [reflexivity|]. exists n', q.
  split. { f_equal. rewrite <- app_assoc, <- map_app. do 2 f_equal. unfold block_requests. rewrite <- map_app. f_equal.
    rewrite <- seq_app. f_equal. lia. }
  split; [done|]. split; [done|]. unfold MAX_PIPELINE in *.
  constructor; [exact G1|exact G2|exact G7|lia|..].
  - intros Hmn. cbn [length]. specialize (G9 Hmn). rewrite G8 in *. destruct (decide (k < m)%nat) as [Hkm|Hkm].
    + specialize (G10 Hkm). specialize (H4 ltac:(lia)). specialize (Hwin ltac:(lia)). lia.
    + assert (m = k) as -> by lia. specialize (Hwin Hmn). lia.
  - rewrite G8. cbn [length]. destruct (decide (k < nb)%nat) as [Hk|Hk].
    + rewrite (Hwin Hk). specialize (H4 Hk). unfold u32. rewrite Z.mod_small by lia. lia.
    + assert (m = k) as -> by lia. rewrite F4, Nat.sub_diag. cbn. by rewrite Z.add_0_r.
  - by rewrite G5.
  - by rewrite G6, F7.
  - by rewrite G4.
Qed.

(** What the piece manager does with the assembled piece. *)
Lemma piece_valid i' : 0 <= i' < m_num_pieces c -> valid_piece dw i'.
Proof. clear Hs1. intros Hi'. split; [lia|]. destruct GEO as [Hc Hn Hp Hs Ht Hr]. rewrite Hs, Ht. unfold config_ok in Hc. nia. Qed.

Lemma complete_content :
  exists s' d', complete_piece c dw i content s1 d0 = (s', d', Ok true) /\
    m_have s' = <[Z.to_nat i := true]> (m_have s1) /\ m_completed_count s' = u32 (m_completed_count s1 + 1) /\
    disk_ok dw d' /\ read_piece dw i d' = Ok content /\
    forall i', 0 <= i' < m_num_pieces c -> i' <> i -> read_piece dw i' d' = read_piece dw i' d0.
Proof.
  assert (disk_piece_length dw i = Ok (piece_length c i)) as Hdl by (by apply (disk_geometry c dw GEO)).
  pose proof (piece_valid i Hi) as Hv.
  rewrite (piece_length_valid dw DWOK i Hv) in Hdl. injection Hdl as Hplen.
  destruct (write_all_spec dw OK DWOK [(i, content)] d0 Hd0) as (d' & Ew & Hd' & Hpiece).
  { apply Forall_singleton. cbn [fst snd]. split; [done|lia]. }
  cbn [write_all] in Ew. unfold complete_piece. rewrite (proj2 (Z.leb_gt _ _)) by lia.
  unfold have_piece in Hmissing. rewrite (proj2 (Z.leb_gt _ _)) in Hmissing by lia. rewrite Hmissing.
  rewrite bool_decide_true by done. cbn [negb].
  destruct (write_piece dw i content d0) as [d1 [u|e]]; [|done]. injection Ew as ->.
  eexists _, d'. split; [reflexivity|]. split; [done|]. split; [done|]. split; [done|]. split.
  - rewrite (read_piece_spec dw OK DWOK i d' Hd' Hv). rewrite (Hpiece i Hv). cbn [latest]. by rewrite Z.eqb_refl.
  - intros i' Hi' Hne. pose proof (piece_valid i' Hi') as Hv'.
    rewrite !(read_piece_spec dw OK DWOK i') by done. rewrite (Hpiece i' Hv'). cbn [latest].
    by rewrite (proj2 (Z.eqb_neq _ _)).
Qed.

Lemma have_inserted s' : m_have s' = <[Z.to_nat i := true]> (m_have s1) -> have_piece c i s' = true.
Proof.
  intros E. unfold have_piece. rewrite (proj2 (Z.leb_gt _ _)) by lia. rewrite E.
  rewrite get_insert; [by rewrite decide_True|]. rewrite Hs1. unfold num. lia.
Qed.

(** The last block. *)
Lemma assemble_last k A w j :
  downloading k A w -> NoDup (j :: A) -> Forall (fun j' => j' < nb)%nat (j :: A) -> S (length A) = nb ->
  exists w' extra, iteration always c dw (Some (piece_to_peer_message (block_reply i content j))) w = (w', Ok ()) /\
    have_piece c i (w_pieces w') = true /\ read_piece dw i (w_disk w') = Ok content /\
    w_sent w' = out0 ++ map wire (requests i content) ++ extra.
Proof.
  intros (n & p & -> & Hch & Hin & Has) [HjA HndA]%NoDup_cons Hall Hlast.
  pose proof Hall as [Hj _]%Forall_cons.
  destruct (assembling_block k A p j Has Hj HjA) as (p' & E & Hok' & F1 & F2 & F3 & F4 & F5 & F6 & F7 & F8 & F9).
  destruct (assembling_total _ _ _ Has) as [_ Hfl]. pose proof (assembling_length _ _ _ Has) as Hdl.
  pose proof (reply_block_index j) as Hix. pose proof (length_block_reply i content j) as Hbl.
  pose proof (proj1 (block_count_spec _ _) Hj) as Hjl. destruct Has as [Hok H1 H2 H3 H4 H5 H6 H7 H8].
  assert (k = nb) as -> by (destruct (decide (k < nb)%nat) as [Hk|Hk]; [specialize (H4 Hk)|]; lia).
  assert (if_data p' = content) as Hdata.
  { apply list_eq. intros x. destruct (decide (x < length content)%nat) as [Hx|Hx].
    - apply F9. destruct (decide (x / BS ∈ j :: A)%nat) as [|Hnot]; [done|]. exfalso.
      assert (x / BS < nb)%nat as Hxb.
      { apply block_count_spec. pose proof BS_pos. pose proof (Nat.div_mod_eq x BS). lia. }
      assert (NoDup ((x / BS)%nat :: j :: A)) as Hnd by (by constructor; [|constructor]).
      assert (((x / BS)%nat :: j :: A) ⊆+ seq 0 nb) as Hsub%submseteq_length.
      { apply NoDup_submseteq; [done|]. intros y [->|Hy]%elem_of_cons; apply elem_of_seq; [lia|].
        rewrite Forall_forall in Hall. specialize (Hall y Hy). lia. }
      rewrite length_seq in Hsub. cbn [length] in Hsub. lia.
    - rewrite !lookup_ge_None_2 by lia. done. }
  rewrite iteration_piece. unfold bind at 1.
  rewrite (handle_block n s1 d0 _ p (block_reply i content j) p'); rewrite ?Hix;
    [|by apply reply_roundtrip|by rewrite H1|rewrite Hbl; cbn [block_reply pc_begin]; lia|by rewrite Hfl
     |rewrite H6 by done; by apply bool_decide_eq_false|exact E].
  cbv zeta. rewrite F5, F7. rewrite (proj2 (Z.ltb_ge _ _)) by lia. set (n' := add_downloaded _ n).
  destruct complete_content as (s' & d' & Ec & Hhave%have_inserted & _ & _ & Hread & _).
  unfold bind at 1, call_complete_piece. cbn [w_pieces w_disk w_conn w_sent]. rewrite F1, Hdata, Ec.
  unfold bind, ret, modify. cbn [w_pieces w_disk w_conn w_sent].
  destruct (fill_after (set_current None false (set_piece p' n')) s' d'
    (out0 ++ map wire (block_requests i (length content) 0 nb))) as (w' & extra & Ef & Hh & Hd & Hs); [done|done|done|].
  rewrite Ef. exists w', extra. split; [done|]. split; [unfold have_piece in *; by rewrite Hh|]. split; [by rewrite Hd|].
  rewrite Hs, <- app_assoc. done.
Qed.

(** All blocks, in any order. *)
Lemma assemble_all js k A w :
  downloading k A w -> js <> [] -> Permutation (js ++ A) (seq 0 nb) ->
  exists w' extra, iterate always c dw (map (fun j => piece_to_peer_message (block_reply i content j)) js) w = (w', Ok ()) /\
    have_piece c i (w_pieces w') = true /\ read_piece dw i (w_disk w') = Ok content /\
    w_sent w' = out0 ++ map wire (requests i content) ++ extra.
Proof.
  revert k A w. induction js as [|j js IH]; intros k A w Hw Hne Hp; [done|]. cbn [map iterate].
  assert (NoDup (j :: js ++ A)) as Hnd by (change (NoDup ((j :: js) ++ A)); rewrite Hp; apply NoDup_seq).
  assert (Forall (fun j' => j' < nb)%nat (j :: js ++ A)) as Hall.
  { apply Forall_forall. intros y Hy. change (y ∈ (j :: js) ++ A) in Hy. rewrite Hp in Hy. apply elem_of_seq in Hy. lia. }
  pose proof (Permutation_length Hp) as Hlenp. rewrite length_app, length_seq in Hlenp. cbn [length] in Hlenp.
  pose proof Hall as [Hj HallA]%Forall_cons. pose proof Hnd as [HjA HndA]%NoDup_cons.
  apply NoDup_app in HndA as (_ & _ & HndA). apply Forall_app in HallA as [_ HallA].
  assert (j ∉ A) as HjA' by (intros Hin; apply HjA, elem_of_app; by right).
  destruct js as [|j2 js].
  - destruct (assemble_last k A w j Hw) as (w' & extra & E & Hrest); [by constructor|by constructor|cbn in Hlenp; lia|].
    exists w', extra. unfold bind. rewrite E. done.
  - destruct (assemble_step k A w j Hw Hj HjA') as (k' & w1 & E & Hw1); [cbn in Hlenp; lia|].
    destruct (IH k' (j :: A) w1 Hw1) as (w' & extra & E' & Hrest); [done| |].
    + rewrite <- Hp. apply Permutation_sym. cbn [app]. apply (Permutation_middle (j2 :: js) A j).
    + exists w', extra. unfold bind. rewrite E. done.
Qed.
End downloading.

(** A piece travels.  One end serves a piece it holds (its peer unchoked, the piece on
    its disk), the other end picks that piece; the two may run on different machines and
    disks.  Then the serving end answers the requests of the piece's blocks, each with
    the block's bytes; and the downloading end sends exactly these requests, in order
    and no more than 15 ahead of the answers, and whatever the order in which the
    answers arrive, after the last one it has verified the piece, has_piece is true and
    its disk holds the same bytes. *)
Theorem piece_exchange (SH : Sha1) (ENV ENV' : DiskEnv) c dw dw' i content ws wl np s1 ms :
  geometry c dw -> @EnvOk ENV -> @disk_writer_ok ENV dw -> geometry c dw' ->
  @serves ENV' c dw' i content ws ->
  m_peer_choking (w_conn wl) = false -> m_am_interested (w_conn wl) = true -> m_current_piece (w_conn wl) = None ->
  length (m_have (w_pieces wl)) = num c -> @disk_ok ENV dw (w_disk wl) ->
  next_needed c (m_peer_bitfield (w_conn wl)) (w_pieces wl) = (Some np, s1) -> np_index np = i ->
  sha1 content = hash_of c (Z.to_nat i) ->
  (exists ws', @iterate SH ENV' always c dw' (requests i content) ws = (ws', Ok ()) /\
     w_sent ws' = w_sent ws ++ map wire (replies i content)) /\
  (Permutation ms (replies i content) ->
   exists wl' extra, (fill_requests always c;; @iterate SH ENV always c dw ms) wl = (wl', Ok ()) /\
     have_piece c i (w_pieces wl') = true /\ @read_piece ENV dw i (w_disk wl') = Ok content /\
     w_sent wl' = w_sent wl ++ map wire (requests i content) ++ extra).
Proof.
  intros GEO OK DWOK GEO' Hserve Hch Hin Hnone Hl Hd Hpick <- Hsha.
  destruct (next_needed_range c (m_peer_bitfield (w_conn wl)) (w_pieces wl)) as [Hh Hi]. rewrite Hpick in Hh, Hi.
  specialize (Hi np eq_refl). cbn [fst snd] in Hh. pose proof (content_length c dw' GEO' (np_index np) content Hi ws Hserve) as Hlen.
  split.
  { destruct (serve_blocks c dw' GEO' (np_index np) content Hi ws 0 _ Hserve (le_n _)) as (ws' & E & _ & Hs). eauto. }
  intros [js [-> Hp]]%Permutation_map_inv. destruct wl as [n s d out]. cbn [w_conn w_pieces w_disk w_sent] in *.
  destruct (fill_pick c dw GEO n s d out np s1 (length content) Hch Hin Hnone Hpick Hlen)
    as (m & p & Hm & Ef & F1 & F2 & F3 & F4 & F5 & F6 & F7 & F8 & F9).
  pose proof (piece_length_bounds c dw GEO _ Hi) as Hb.
  assert (0 < block_count (length content))%nat as Hnb by (apply block_count_spec; lia).
  unfold bind. rewrite Ef.
  apply (assemble_all c dw GEO OK DWOK (np_index np) content Hi Hlen Hsha s1 d out) with (k := m) (A := []).
  - unfold have_piece. rewrite (proj2 (Z.leb_gt _ _)) by lia. rewrite Hh. by eapply next_needed_missing.
  - by rewrite Hh.
  - done.
  - exists (set_current None (np_exclusive np) n), p. split; [done|]. split; [done|]. split; [done|].
    constructor; [exact F1|exact F2|exact F7|lia|intros Hk; by apply F9| |..].
    + rewrite F8. cbn [length]. unfold u32. pose proof (nblocks_range (Z.of_nat (length content)) ltac:(lia)).
      unfold block_count in *. rewrite Z.mod_small; lia.
    + intros j _. rewrite F5, get_replicate. symmetry. apply bool_decide_eq_false, not_elem_of_nil.
    + by rewrite F6.
    + by intros x Hx%not_elem_of_nil.
  - intros ->. apply Permutation_length in Hp. rewrite length_seq in Hp. cbn in Hp. lia.
  - rewrite app_nil_r. by symmetry.
Qed.

(** One piece of two full blocks and a short one, answered backwards. *)
Definition sample_piece : bytes := replicate (Z.to_nat 32800) 7.
Definition sample_piece_config : PieceConfig := mkPieceConfig 32800 1 65536 [@sha1 sample_sha1 sample_piece].
Definition sample_writer : DiskWriter := mkDisk (str "out") 65536 32800 [mkFileEntry (str "f") 32800 0].
Definition sample_disk (b : Z) : Disk := mkDiskState {[plain_file (path_append (str "out") (str "f")) := replicate (Z.to_nat 32800) b]} true.
Definition sample_server : World :=
  mkWorld (set_am_choking false (conn_new sample_piece_config)) (mkPieceState [true] [true] 1 32800 0) (sample_disk 7) [].
Definition sample_client : World :=
  mkWorld (set_am_interested true (set_peer_choking false (set_peer_bitfield [true] (conn_new sample_piece_config))))
    (mkPieceState [false] [false] 0 0 0) (sample_disk 0) [].

Lemma sample_geometry : geometry sample_piece_config sample_writer.
Proof. constructor; unfold config_ok; cbn; lia. Qed.

Lemma sample_writer_ok : @disk_writer_ok good_disk sample_writer.
Proof. constructor; try (cbn; lia); [done|apply NoDup_singleton]. Qed.

Lemma sample_disk_ok b : @disk_ok good_disk sample_writer (sample_disk b).
Proof.
  constructor; [done|]. apply Forall_singleton. exists (replicate (Z.to_nat 32800) b). split; [apply lookup_singleton_eq|].
  rewrite length_replicate. done.
Qed.

Lemma piece_exchange_witness :
  let _ : Sha1 := sample_sha1 in
  let ENV := good_disk in
  length (replies 0 sample_piece) = 3%nat /\
  exists wl extra,
    (fill_requests always sample_piece_config;;
     iterate always sample_piece_config sample_writer (rev (replies 0 sample_piece))) sample_client = (wl, Ok ()) /\
    read_piece sample_writer 0 (w_disk wl) = Ok sample_piece /\
    w_sent wl = w_sent sample_client ++ map wire (requests 0 sample_piece) ++ extra.
Proof.
  intros SH ENV. split; [vm_compute; reflexivity|].
  destruct (piece_exchange SH ENV ENV sample_piece_config sample_writer sample_writer 0 sample_piece sample_server sample_client
    (mkNeeded 0 true) (mkPieceState [false] [true] 0 0 0) (rev (replies 0 sample_piece))) as [_ H].
  - exact sample_geometry.
  - exact good_disk_ok.
  - exact sample_writer_ok.
  - exact sample_geometry.
  - constructor; [reflexivity|reflexivity|reflexivity|].
    refine (bool_decide_unpack (read_piece sample_writer 0 (w_disk sample_server) = Ok sample_piece) _). vm_compute. exact I.
  - reflexivity.
  - reflexivity.
  - reflexivity.
  - reflexivity.
  - apply sample_disk_ok.
  - reflexivity.
  - reflexivity.
  - reflexivity.
  - destruct H as (wl & extra & E & _ & Hr & Hs); [symmetry; apply Permutation_rev|]. exists wl, extra.
    split; [exact E|]. split; [exact Hr|exact Hs].
Defined.
