(* ===== verification/Swarm.v ===== *)
(** * One client downloads from several others

    The connections of src/peer_wire/peer_connection.cpp run side by side: a client that
    has nothing holds a connection to each of several clients that have some of the pieces,
    its threads share the piece manager and the disk, and what one end of a connection
    sends is the stream the other end reads.  This file has the system, the bitfield at its
    start, the choice of pieces and the state of a connection between two messages. *)

From S2P Require Import Prelude CxxLib ByteOrder Hash Bencode TorrentFile DiskWriter PieceManager.
From S2P Require Import PeerMessage PeerConnection PieceExchange.

Local Open Scope io_scope.

(** ** The system *)

(** One connection: the downloading end's fields, the serving client, and the bytes that
    were sent and not read yet, in each direction. *)
Record Link := mkLink {
  l_conn : Conn;
  l_writer : DiskWriter;
  l_seed : World;
  l_up : bytes;
  l_down : bytes;
}.

Record Swarm := mkSwarm { sw_pieces : PieceState; sw_disk : Disk; sw_links : list Link }.

(** Whose thread runs: either end of connection [j]. *)
Inductive Turn := Leech (j : nat) | Serve (j : nat).

(** A client one connects to. *)
Record Seed := mkSeed { sd_id : bytes; sd_writer : DiskWriter; sd_world : World }.

Definition unsent (w : World) : World := mkWorld (w_conn w) (w_pieces w) (w_disk w) [].

Section system.
Context {SH : Sha1} (ENV ENV' : DiskEnv) (c : PieceConfig) (dw : DiskWriter).

(** The body of [run] on what has arrived; with nothing there the thread waits. *)
Definition turn {E : DiskEnv} (dw : DiskWriter) (stream : bytes) : io bytes :=
  match stream with
  | [] => ret []
  | _ => m <- lift (recv_message stream);; iteration always c dw (fst m);; ret (snd m)
  end.

(** One message is received and handled by one thread, as one step: the handlings of
    different threads come in any order but do not overlap.  (Their atomic accesses are
    interleaved in [PieceManager.pm_run].) *)
Definition take_turn (t : Turn) (g : Swarm) : result Swarm :=
  match t with
  | Leech j =>
      match sw_links g !! j with
      | None => Ok g
      | Some l =>
          match @turn ENV dw (l_down l) (mkWorld (l_conn l) (sw_pieces g) (sw_disk g) []) with
          | (_, Throw e) => Throw e
          | (w, Ok rest) =>
              Ok (mkSwarm (w_pieces w) (w_disk w)
                   (<[j := mkLink (w_conn w) (l_writer l) (l_seed l) (l_up l ++ concat (w_sent w)) rest]> (sw_links g)))
          end
      end
  | Serve j =>
      match sw_links g !! j with
      | None => Ok g
      | Some l =>
          match @turn ENV' (l_writer l) (l_up l) (l_seed l) with
          | (_, Throw e) => Throw e
          | (w, Ok rest) =>
              Ok (mkSwarm (sw_pieces g) (sw_disk g)
                   (<[j := mkLink (l_conn l) (l_writer l) (unsent w) rest (l_down l ++ concat (w_sent w))]> (sw_links g)))
          end
      end
  end.

Fixpoint take_turns (ts : list Turn) (g : Swarm) : result Swarm :=
  match ts with
  | [] => Ok g
  | t :: ts' => g' ← take_turn t g; take_turns ts' g'
  end.

(** [connect] at one end, with the handshake of the other. *)
Definition dial (info_hash : InfoHash) (me other : bytes) : io bytes :=
  connect always c info_hash me (handshake_serialize (mkHandshake (replicate 8 0) info_hash other)).

(** Both ends connect; each has read the other's first buffer. *)
Definition open_link (info_hash : InfoHash) (me : bytes) (s : PieceState) (d : Disk) (p : Seed) : result Link :=
  match dial info_hash me (sd_id p) (mkWorld (conn_new c) s d []),
        dial info_hash (sd_id p) me (sd_world p) with
  | (w, Ok down), (v, Ok up) =>
      Ok (mkLink (w_conn w) (sd_writer p) (unsent v) (up ++ concat (drop 1 (w_sent w))) (down ++ concat (drop 1 (w_sent v))))
  | (_, Throw e), _ => Throw e
  | _, (_, Throw e) => Throw e
  end.

Fixpoint open_links (info_hash : InfoHash) (me : bytes) (s : PieceState) (d : Disk) (ps : list Seed) : result (list Link) :=
  match ps with
  | [] => Ok []
  | p :: ps' => l ← open_link info_hash me s d p; ls ← open_links info_hash me s d ps'; Ok (l :: ls)
  end.
End system.

(** ** The stream *)

Definition fits (m : PeerMessage) : Prop :=
  Z.of_nat (length (pm_payload m)) < 2 ^ 24 /\ byte_id (id_byte (pm_id m)) = pm_id m.

Lemma recv_wire m rest : fits m -> recv_message (wire m ++ rest) = Ok (Some m, rest).
Proof. intros [Hl Hid]. unfold wire. rewrite serialize_small by done. by apply recv_message_app. Qed.

Lemma wire_cons m rest : fits m -> exists b l, wire m ++ rest = b :: l.
Proof. intros [Hl _]. unfold wire. rewrite serialize_small by done. cbn. eauto. Qed.

(** A turn with a message in the stream. *)
Lemma turn_wire {SH : Sha1} {E : DiskEnv} c dw m rest w w' :
  fits m -> iteration always c dw (Some m) w = (w', Ok ()) -> turn c dw (wire m ++ rest) w = (w', Ok rest).
Proof.
  intros Hm Hi. unfold turn. destruct (wire_cons m rest Hm) as (b & l & Eq). pose proof (recv_wire m rest Hm) as Er.
  rewrite Eq in *. unfold bind, lift. rewrite Er. cbn [fst snd]. by rewrite Hi.
Qed.

(** ** The bitfield *)

Lemma bit_test b k : 0 <= k -> (Z.land (Z.shiftr b k) 1 =? 1) = Z.testbit b k.
Proof.
  intros Hk. change 1 with (Z.ones 1) at 1. rewrite Z.land_ones, Z.pow_1_r by lia.
  rewrite <- Z.bit0_mod, Z.shiftr_spec, Z.add_0_l by lia. by destruct (Z.testbit b k).
Qed.

Definition bf_bit (bf : bytes) (x : nat) : bool :=
  match bf !! (x / 8)%nat with Some b => Z.testbit b (7 - Z.of_nat x mod 8) | None => false end.

Lemma has_piece_bit bf x : (x < 8 * length bf)%nat -> has_piece (mkBitfield bf) (Z.of_nat x) = Ok (bf_bit bf x).
Proof.
  intros Hx. unfold has_piece, bf_bit. cbn [bitfield]. change 8 with (Z.of_nat 8). rewrite <- Nat2Z.inj_div, Nat2Z.id.
  destruct (lookup_lt_is_Some_2 bf (x / 8)%nat) as [b ->]; [apply Nat.Div0.div_lt_upper_bound; lia|].
  rewrite bit_test; [done|]. pose proof (Z.mod_pos_bound (Z.of_nat x) (Z.of_nat 8)). lia.
Qed.

Lemma bf_bit_set bf i x : (i < 8 * length bf)%nat ->
  bf_bit (alter (fun b => u8 (Z.lor b (Z.shiftl 1 (7 - Z.of_nat i mod 8)))) (i / 8)%nat bf) x = bf_bit bf x || bool_decide (x = i).
Proof.
  intros Hi. unfold bf_bit. pose proof (Z.mod_pos_bound (Z.of_nat i) 8 ltac:(lia)).
  pose proof (Z.mod_pos_bound (Z.of_nat x) 8 ltac:(lia)).
  destruct (decide (x / 8 = i / 8)%nat) as [Eq|Ne].
  - rewrite Eq, list_lookup_alter_eq. destruct (lookup_lt_is_Some_2 bf (i / 8)%nat) as [b Eb]; [apply Nat.Div0.div_lt_upper_bound; lia|].
    rewrite Eb. cbn [fmap option_fmap option_map]. unfold u8. rewrite Z.mod_pow2_bits_low by lia. rewrite Z.lor_spec, Z.shiftl_spec by lia.
    f_equal. pose proof (Z.div_mod (Z.of_nat x) 8 ltac:(lia)). pose proof (Z.div_mod (Z.of_nat i) 8 ltac:(lia)).
    assert (Z.of_nat x / 8 = Z.of_nat i / 8) by (change 8 with (Z.of_nat 8); rewrite <- !Nat2Z.inj_div; lia).
    case_bool_decide as Hd.
    + subst. by rewrite Z.sub_diag.
    + change 1 with (2 ^ 0). rewrite Z.pow2_bits_false; [done|]. lia.
  - rewrite list_lookup_alter_ne by done. rewrite bool_decide_false by congruence. by rewrite orb_false_r.
Qed.

Lemma pack_loop_bit have : forall i bf x, (i + length have <= 8 * length bf)%nat ->
  bf_bit (pack_loop i have bf) x = bf_bit bf x || ((i <=? x)%nat && get have (x - i)).
Proof.
  induction have as [|b have IH]; intros i bf x Hl; cbn [pack_loop length] in *.
  - unfold get. rewrite lookup_nil, andb_false_r, orb_false_r. done.
  - rewrite IH by (destruct b; rewrite ?length_alter; lia).
    assert (((i <=? x)%nat && get (b :: have) (x - i)) = (bool_decide (x = i) && b) || ((S i <=? x)%nat && get have (x - S i))) as ->.
    { unfold get. destruct (Nat.leb_spec i x), (Nat.leb_spec (S i) x); cbn [andb]; try lia.
      - rewrite bool_decide_false by lia. replace (x - i)%nat with (S (x - S i)) by lia. done.
      - assert (x = i) as -> by lia. rewrite bool_decide_true, Nat.sub_diag by done. cbn. by rewrite orb_false_r.
      - by rewrite bool_decide_false by lia. }
    destruct b.
    + rewrite bf_bit_set by lia. rewrite andb_true_r. by rewrite orb_assoc.
    + by rewrite andb_false_r.
Qed.

Lemma bf_bit_zero n x : bf_bit (replicate n 0) x = false.
Proof. unfold bf_bit. destruct (replicate n 0 !! (x / 8)%nat) eqn:E; [|done]. apply lookup_replicate in E as [-> _]. apply Z.bits_0. Qed.

(** What one end packs the other end reads. *)
Lemma pack_has_piece have x : (x < length have)%nat -> has_piece (mkBitfield (pack have)) (Z.of_nat x) = Ok (get have x).
Proof.
  intros Hx. pose proof (Nat.div_mod_eq (length have + 7) 8). pose proof (Nat.mod_upper_bound (length have + 7) 8 ltac:(lia)).
  rewrite has_piece_bit by (rewrite length_pack; lia). unfold pack. rewrite pack_loop_bit by (rewrite length_replicate; lia).
  by rewrite bf_bit_zero, Nat.sub_0_r.
Qed.

Lemma copy_loop_exec (have : list bool) k : forall i n s d out,
  length have = (i + k)%nat -> m_peer_bitfield n = take i have ++ replicate k false ->
  copy_loop (mkBitfield (pack have)) i k (mkWorld n s d out) = (mkWorld (set_peer_bitfield have n) s d out, Ok ()).
Proof.
  induction k as [|k IH]; intros i n s d out Hl Hb; cbn [copy_loop].
  - rewrite Nat.add_0_r in Hl. rewrite take_ge, app_nil_r in Hb by lia. unfold ret. destruct n. cbn in Hb. by subst.
  - unfold bind at 1, lift. rewrite pack_has_piece by lia.
    destruct (lookup_lt_is_Some_2 have i) as [b Eb]; [lia|]. unfold get. rewrite Eb. unfold default, id.
    pose proof (take_S_r have i b Eb) as Et. destruct b.
    + unfold bind, get_conn, modify. cbn [w_conn w_pieces w_disk w_sent].
      rewrite IH; [done|lia|]. cbn [m_peer_bitfield set_peer_bitfield]. rewrite Hb, Et.
      rewrite insert_app_r_alt by (rewrite length_take; lia). rewrite length_take, Nat.min_l, Nat.sub_diag by lia.
      cbn [replicate insert list_insert]. by rewrite <- app_assoc.
    + unfold bind, ret. apply IH; [lia|]. rewrite Hb, Et, <- app_assoc. done.
Qed.

Lemma send_interested_exec n s d out :
  m_am_interested n = false ->
  send_interested always (mkWorld n s d out) = (mkWorld (set_am_interested true n) s d (out ++ [wire (mkPM Interested [])]), Ok ()).
Proof.
  intros Hn. unfold send_interested, bind at 1, get_conn. cbn [w_conn]. rewrite Hn. unfold bind. by rewrite send_exec.
Qed.

(** Something it has is missing here, or nothing is. *)
Lemma interest_loop_exec c k : forall i n s d out, m_am_interested n = false -> num c = (i + k)%nat ->
  (interest_loop always c i k (mkWorld n s d out) =
    (mkWorld (set_am_interested true n) s d (out ++ [wire (mkPM Interested [])]), Ok ())) \/
  (interest_loop always c i k (mkWorld n s d out) = (mkWorld n s d out, Ok ()) /\
   forall x, (i <= x < num c)%nat -> get (m_peer_bitfield n) x = true -> get (m_have s) x = true).
Proof.
  induction k as [|k IH]; intros i n s d out Hn Hk; cbn [interest_loop].
  - right. split; [done|]. lia.
  - unfold bind, get_conn, ask. cbn [w_conn w_pieces w_disk w_sent]. unfold have_piece at 1 2.
    rewrite (proj2 (Z.leb_gt _ _)), Nat2Z.id by (unfold num in *; lia).
    destruct (get (m_peer_bitfield n) i && negb (get (m_have s) i)) eqn:E.
    + left. by apply send_interested_exec.
    + destruct (IH (S i) n s d out Hn ltac:(lia)) as [H|[H1 H2]]; [by left|right]. split; [done|].
      intros x Hx Hg. destruct (decide (x = i)) as [->|]; [|apply H2; [lia|done]].
      rewrite Hg in E. by destruct (get (m_have s) i).
Qed.

Lemma handle_bitfield_exec c (have : list bool) n s d out :
  length have = num c -> m_peer_bitfield n = replicate (num c) false -> m_am_interested n = false -> 0 <= m_num_pieces c ->
  exists n' out', handle_bitfield always c (bitfield_to_peer_message (mkBitfield (pack have))) (mkWorld n s d out) =
    (mkWorld n' s d (out ++ out'), Ok ()) /\
  (n' = set_am_interested true (set_peer_bitfield have n) /\ out' = [wire (mkPM Interested [])] \/
   n' = set_peer_bitfield have n /\ out' = [] /\ forall x, (x < num c)%nat -> get have x = true -> get (m_have s) x = true).
Proof.
  intros Hl Hb Hn Hc. unfold handle_bitfield, bind at 1, lift. unfold bitfield_from_peer_message.
  cbn [pm_id bitfield_to_peer_message pm_payload]. rewrite bool_decide_true by done. cbn [negb throw_if mbind result_bind bitfield].
  unfold bind at 1, get_conn. cbn [w_conn]. rewrite Hb, length_replicate. unfold num at 1. rewrite Z2Nat.id, Z.eqb_refl by done.
  cbn [negb]. unfold bind. rewrite (copy_loop_exec have) by done.
  destruct (interest_loop_exec c (num c) 0 (set_peer_bitfield have n) s d out Hn eq_refl) as [H|[H1 H2]]; rewrite ?H, ?H1.
  - eexists _, _. split; [done|]. by left.
  - eexists _, []. rewrite app_nil_r. split; [done|]. right. split; [done|]. split; [done|]. intros x Hx. apply H2. lia.
Qed.

(** ** The choice of a piece *)

Lemma claim_loop_some bf n : forall i s j s', claim_loop bf i n s = Some (j, s') ->
  get bf j = true /\ m_completed_count s' = m_completed_count s.
Proof.
  induction n as [|n IH]; intros i s j s'; cbn [claim_loop]; [done|]. unfold peer_has.
  destruct (get bf i) eqn:E; cbn [negb]; [|apply IH]. repeat case_if; try apply IH. intros [= <- <-]. done.
Qed.

Lemma endgame_loop_some bf n : forall i s j, endgame_loop bf i n s = Some j -> get bf j = true.
Proof.
  induction n as [|n IH]; intros i s j; cbn [endgame_loop]; [done|]. unfold peer_has.
  destruct (get bf i) eqn:E; cbn [negb]; [|apply IH]. case_if; [apply IH|]. by intros [= <-].
Qed.

Lemma endgame_loop_none bf n : forall i s x, endgame_loop bf i n s = None -> (i <= x < i + n)%nat ->
  get bf x = true -> get (m_have s) x = true.
Proof.
  induction n as [|n IH]; intros i s x; cbn [endgame_loop]; [lia|]. unfold peer_has. intros H Hx Hg.
  destruct (decide (x = i)) as [->|].
  - rewrite Hg in H. cbn [negb] in H. by destruct (get (m_have s) i).
  - apply (IH (S i)); [|lia|done]. by destruct (negb (get bf i)), (get (m_have s) i).
Qed.

(** [next_needed] finds a piece as long as the peer has one that is missing. *)
Lemma next_needed_spec c bf s :
  match next_needed c bf s with
  | (None, s') => s' = s /\ forall x, (x < num c)%nat -> get bf x = true -> get (m_have s) x = true
  | (Some np, s') => exists i, np_index np = Z.of_nat i /\ (i < num c)%nat /\ get bf i = true /\ get (m_have s) i = false /\
      m_have s' = m_have s /\ m_completed_count s' = m_completed_count s
  end.
Proof.
  unfold next_needed. destruct (claim_loop bf 0 (num c) s) as [[i s']|] eqn:E.
  - destruct (claim_loop_range _ _ _ _ _ _ E), (claim_loop_some _ _ _ _ _ _ E). exists i.
    split; [done|]. split; [lia|]. split; [done|]. split; [|done]. by eapply claim_loop_missing.
  - destruct (endgame_loop bf 0 (num c) s) as [i|] eqn:E2.
    + exists i. pose proof (endgame_loop_range _ _ _ _ _ E2). split; [done|]. split; [lia|].
      split; [by eapply endgame_loop_some|]. split; [by eapply endgame_loop_missing|done].
    + split; [done|]. intros x Hx. eapply endgame_loop_none; [done|lia].
Qed.

(** ** A connection between two messages *)

Definition grows (have have' : list bool) : Prop := forall x, get have x = true -> get have' x = true.

#[global] Instance grows_preorder : PreOrder grows.
Proof. split; [by intros have x|by intros h1 h2 h3 H1 H2 x Hx; apply H2, H1]. Qed.

Lemma sum_list_with_le {A} (f g : A -> nat) l :
  (forall x, x ∈ l -> f x <= g x)%nat -> (sum_list_with f l <= sum_list_with g l)%nat.
Proof.
  induction l as [|x l IH]; intros H; cbn; [lia|]. specialize (IH (fun y Hy => H y (list_elem_of_further _ _ _ Hy))).
  specialize (H x (list_elem_of_here _ _)). lia.
Qed.

Lemma sum_list_with_split (f g : nat -> nat) i l :
  NoDup l -> i ∈ l -> (forall x, x ∈ l -> x <> i -> f x = g x) -> g i = 0%nat ->
  sum_list_with f l = (f i + sum_list_with g l)%nat.
Proof.
  induction l as [|x l IH]; intros Hnd Hi Hfg Hg; [by apply not_elem_of_nil in Hi|]. apply NoDup_cons in Hnd as [Hx Hnd]. cbn.
  destruct (decide (x = i)) as [->|Hne].
  - rewrite Hg. f_equal. cbn. apply Nat.le_antisymm; apply sum_list_with_le; intros y Hy; rewrite (Hfg y); try done;
      [by right|by intros ->|by right|by intros ->].
  - rewrite (Hfg x), (IH Hnd); [lia|by apply elem_of_cons in Hi as [->|]| |done|by left|done]. intros y Hy. apply Hfg. by right.
Qed.

Section leech.
Context {SH : Sha1} {ENV : DiskEnv} (c : PieceConfig) (dw : DiskWriter) (GEO : geometry c dw).
Context (content : nat -> bytes).

Abbreviation nb i := (block_count (length (content i))).

(** The contents of the pieces are those the torrent file describes. *)
Definition genuine : Prop := forall i, (i < num c)%nat ->
  Z.of_nat (length (content i)) = piece_length c (Z.of_nat i) /\ sha1 (content i) = hash_of c i.

(** The blocks of the missing pieces, but for those of one. *)
Definition todo (have : list bool) (ex : option nat) : nat :=
  sum_list_with (fun i => if get have i || bool_decide (ex = Some i) then 0%nat else nb i) (seq 0 (num c)).

Lemma todo_grows have have' ex : grows have have' -> (todo have' ex <= todo have ex)%nat.
Proof.
  intros H. apply sum_list_with_le. intros x _. specialize (H x). destruct (get have x) eqn:E; cbn [orb].
  - by rewrite H.
  - destruct (get have' x), (bool_decide _); cbn [orb]; lia.
Qed.

Lemma todo_pick have i : (i < num c)%nat -> get have i = false -> todo have None = (nb i + todo have (Some i))%nat.
Proof.
  intros Hi Hg. unfold todo. rewrite (sum_list_with_split _
    (fun x => if get have x || bool_decide (Some i = Some x) then 0%nat else nb x) i).
  - rewrite Hg. rewrite bool_decide_false by done. done.
  - apply NoDup_seq.
  - apply elem_of_seq. lia.
  - intros x _ Hx. rewrite !bool_decide_false by congruence. done.
  - by rewrite (bool_decide_true (Some i = Some i)), orb_true_r.
Qed.

Lemma todo_had have i : get have i = true -> (todo have None <= todo have (Some i))%nat.
Proof.
  intros Hg. apply sum_list_with_le. intros x _. case_bool_decide; [done|]. rewrite orb_false_r.
  destruct (get have x) eqn:E; [lia|]. rewrite bool_decide_false; [done|]. congruence.
Qed.

(** Block [f.2] of piece [f.1]. *)
Definition ask_of (f : nat * nat) : PeerMessage :=
  request_to_peer_message (block_request (Z.of_nat (fst f)) (length (content (fst f))) (snd f)).
Definition answer_of (f : nat * nat) : PeerMessage :=
  piece_to_peer_message (block_reply (Z.of_nat (fst f)) (content (fst f)) (snd f)).

Definition blocks_of (i a k : nat) : list (nat * nat) := map (pair i) (seq a (k - a)).

Lemma block_requests_asks i k m :
  block_requests (Z.of_nat i) (length (content i)) k (m - k) = map ask_of (blocks_of i k m).
Proof. unfold blocks_of, block_requests. by rewrite map_map. Qed.

Lemma blocks_of_app i a k m : (a <= k <= m)%nat -> blocks_of i a k ++ blocks_of i k m = blocks_of i a m.
Proof. intros H. unfold blocks_of. rewrite <- map_app. f_equal. replace (m - a)%nat with ((k - a) + (m - k))%nat by lia.
  rewrite seq_app. do 2 f_equal. lia. Qed.

Lemma blocks_of_cons i a k : (a < k)%nat -> blocks_of i a k = (i, a) :: blocks_of i (S a) k.
Proof. intros H. unfold blocks_of. replace (k - a)%nat with (S (k - S a)) by lia. done. Qed.

Lemma blocks_of_nil i a : blocks_of i a a = [].
Proof. unfold blocks_of. by rewrite Nat.sub_diag. Qed.

(** The first [a] blocks of piece [i] are here, the first [k] have been asked for. *)
Record gathering (i k a : nat) (p : InFlightPiece) : Prop := {
  ga_ok : piece_ok c p;
  ga_index : if_index p = Z.of_nat i;
  ga_offset : next_block_offset p = Z.of_nat (Nat.min (k * BS) (length (content i)));
  ga_range : (a <= k <= nb i)%nat;
  ga_more : (a < nb i)%nat;
  ga_window : (k <= a + 15)%nat;
  ga_flight : requests_in_flight p = Z.of_nat (k - a);
  ga_flags : forall j, (j < nb i)%nat -> get (blocks_received p) j = bool_decide (j < a)%nat;
  ga_done : blocks_done p = Z.of_nat a;
  ga_data : forall x, (x / BS < a)%nat -> if_data p !! x = content i !! x;
}.

Definition full (i k a : nat) : Prop := (k < nb i)%nat -> k = (a + 15)%nat.

(** The request loop tops the window up. *)
Lemma refill i k a p n s d out :
  Z.of_nat (length (content i)) = piece_length c (Z.of_nat i) -> gathering i k a p ->
  exists m p', request_loop always 15 p (mkWorld (set_piece p n) s d out) =
      (mkWorld (set_piece p' n) s d (out ++ map wire (map ask_of (blocks_of i k m))), Ok ()) /\
    (k <= m)%nat /\ gathering i m a p' /\ full i m a.
Proof.
  intros Hlen [H1 H2 H3 H4 H5 H6 H7 H8 H9 H10]. pose proof (po_length _ _ H1) as Hl. rewrite H2, <- Hlen in Hl.
  destruct (request_loop_exec c dw GEO 15 p n s d out k (Z.of_nat i) (length (content i))) as
    (m & p' & Hm & E & F1 & F2 & F3 & F4 & F5 & F6 & F7 & F8 & F9 & F10);
    [done|done|done|done|lia|unfold MAX_PIPELINE; lia|].
  rewrite block_requests_asks in E. exists m, p'. split; [exact E|]. split; [lia|]. unfold full, MAX_PIPELINE in *.
  assert (m <= a + 15)%nat by (destruct (decide (k < m)%nat) as [Hk|]; [specialize (F10 Hk)|]; lia).
  split; [|intros Hk; specialize (F9 Hk); lia]. constructor; try done; try lia.
  - by rewrite F5.
  - by rewrite F4.
Qed.

(** The requests [F] have not been answered; [r] bounds those that will still be sent. *)
Definition asked (bf : list bool) (f : nat * nat) : Prop :=
  (fst f < num c)%nat /\ get bf (fst f) = true /\ (snd f < nb (fst f))%nat.

Record underway (n : Conn) (have bf : list bool) (F : list (nat * nat)) (r : nat) : Prop := {
  un_unchoked : m_peer_choking n = false;
  un_interested : m_am_interested n = true;
  un_bitfield : m_peer_bitfield n = bf;
  un_asked : Forall (asked bf) F;
  un_piece :
    match m_current_piece n with
    | None => Forall (fun f => get have (fst f) = true) F /\ (todo have None <= r)%nat
    | Some p => exists i k a old, gathering i k a p /\ (i < num c)%nat /\ get bf i = true /\ F = old ++ blocks_of i a k /\
        Forall (fun f => fst f <> i /\ get have (fst f) = true) old /\ (nb i - k + todo have (Some i) <= r)%nat
    end;
}.

(** After [fill_requests] the window is full, or the peer has nothing that is missing. *)
Definition settled (n : Conn) (have bf : list bool) : Prop :=
  match m_current_piece n with
  | None => forall x, (x < num c)%nat -> get bf x = true -> get have x = true
  | Some p => forall i k a, gathering i k a p -> full i k a
  end.

Lemma underway_grows n have have' bf F r : grows have have' -> underway n have bf F r -> underway n have' bf F r.
Proof.
  intros Hg [H1 H2 H3 H4 H5]. constructor; try done. destruct (m_current_piece n) as [p|].
  - destruct H5 as (i & k & a & old & G & Hi & Hb & HF & Ho & Hr). exists i, k, a, old. split_and!; try done.
    + eapply Forall_impl; [exact Ho|]. cbn. intros f []. auto.
    + pose proof (todo_grows have have' (Some i) Hg). lia.
  - destruct H5 as [Ho Hr]. pose proof (todo_grows have have' None Hg). split; [|lia].
    eapply Forall_impl; [exact Ho|]. cbn. auto.
Qed.

Lemma settled_grows n have have' bf : grows have have' -> settled n have bf -> settled n have' bf.
Proof. intros Hg. unfold settled. destruct (m_current_piece n); auto. Qed.

Lemma gathering_det i k a i' k' a' p : gathering i k a p -> gathering i' k' a' p -> i = i' /\ k = k' /\ a = a'.
Proof.
  intros [_ H1 _ H2 _ _ H3 _ H4 _] [_ G1 _ G2 _ _ G3 _ G4 _]. assert (i = i') by lia. assert (a = a') by lia. split_and!; lia.
Qed.

Lemma settled_piece n have bf i k a p : gathering i k a p -> full i k a -> settled (set_piece p n) have bf.
Proof.
  intros Hp Hf i' k' a' Hp'. by destruct (gathering_det _ _ _ _ _ _ _ Hp Hp') as (-> & -> & ->).
Qed.

Context (GEN : genuine).

Lemma new_gathering i : (i < num c)%nat -> gathering i 0 0 (new_in_flight c (Z.of_nat i)).
Proof.
  intros Hi. destruct (GEN i Hi) as [Hlen _]. assert (0 <= Z.of_nat i < m_num_pieces c) as Hr by (unfold num in *; lia).
  pose proof (piece_length_bounds c dw GEO _ Hr) as Hb. destruct (new_in_flight_ok c dw GEO _ Hr) as [Hok _].
  assert (0 < nb i)%nat by (apply block_count_spec; lia). constructor; try done; try lia.
  - intros j _. unfold new_in_flight. cbn [blocks_received]. rewrite get_replicate. by rewrite bool_decide_false by lia.
Qed.

(** With no piece in hand [fill_requests] picks one and asks for its first blocks. *)
Lemma fill_idle n s d out bf F r :
  underway n (m_have s) bf F r -> m_current_piece n = None ->
  exists n' s' G r', fill_requests always c (mkWorld n s d out) = (mkWorld n' s' d (out ++ map wire (map ask_of G)), Ok ()) /\
    m_have s' = m_have s /\ m_completed_count s' = m_completed_count s /\
    underway n' (m_have s') bf (F ++ G) r' /\ (r' + length G <= r)%nat /\ settled n' (m_have s') bf.
Proof.
  intros [H1 H2 H3 H4 H5] Hnone. rewrite Hnone in H5. destruct H5 as [Ho Hr].
  subst bf. pose proof (next_needed_spec c (m_peer_bitfield n) s) as Hn.
  destruct (next_needed c (m_peer_bitfield n) s) as [[np|] s'] eqn:E.
  - destruct Hn as (i & Hnp & Hi & Hb & Hmiss & Hh & Hc). destruct (GEN i Hi) as [Hlen _]. rewrite <- Hnp in Hlen.
    rewrite Hnp in Hlen. destruct (refill i 0 0 _ (set_current None (np_exclusive np) n) s' d out Hlen (new_gathering i Hi))
      as (m & p & Ef & _ & Hp & Hf).
    eexists (set_piece p (set_current None (np_exclusive np) n)), s', (blocks_of i 0 m), (nb i - m + todo (m_have s') (Some i))%nat.
    rewrite fill_none, E, Hnp by done. cbv zeta. rewrite Ef. split; [done|]. split; [done|]. split; [done|].
    pose proof (ga_range _ _ _ _ Hp). rewrite Hh. split; [|split].
    + constructor; try done.
      * apply Forall_app_2; [done|]. apply Forall_forall. intros f (j & -> & Hj)%list_elem_of_fmap.
        apply elem_of_seq in Hj. unfold asked. cbn [fst snd]. split; [done|]. split; [done|lia].
      * cbn [set_piece set_current m_current_piece]. exists i, m, 0%nat, F. split; [done|]. split; [done|]. split; [done|]. split; [done|]. split; [|lia]. eapply Forall_impl; [exact Ho|]. cbn.
        intros f Hf'. split; [|done]. congruence.
    + rewrite (todo_pick _ i Hi Hmiss) in Hr. unfold blocks_of. rewrite length_map, length_seq. lia.
    + by eapply settled_piece.
  - destruct Hn as [-> Hall]. exists n, s, [], r. rewrite fill_none, E by done. cbn. rewrite !app_nil_r, Nat.add_0_r.
    split; [done|]. split; [done|]. split; [done|]. split; [|split; [done|]].
    + constructor; try done. by rewrite Hnone.
    + unfold settled. rewrite Hnone. done.
Qed.

Lemma set_piece_same n p : m_current_piece n = Some p -> set_piece p n = n.
Proof. destruct n. cbn. by intros ->. Qed.

(** A piece another connection has completed is dropped. *)
Lemma fill_drop n s d out p :
  m_peer_choking n = false -> m_am_interested n = true -> m_current_piece n = Some p -> have_piece c (if_index p) s = true ->
  fill_requests always c (mkWorld n s d out) = fill_requests always c (mkWorld (set_current None false n) s d out).
Proof.
  destruct n as [n1 n2 n3 n4 n5 bf cp cx b1 b2 b3]. cbn [m_peer_choking m_am_interested m_current_piece]. intros -> -> -> H.
  unfold fill_requests, bind, get_conn, ask, modify, ret.
  cbn [w_conn w_pieces w_disk w_sent set_current m_peer_choking m_am_interested m_current_piece negb].
  by rewrite H.
Qed.

Lemma have_piece_nat i s : (i < num c)%nat -> have_piece c (Z.of_nat i) s = get (m_have s) i.
Proof. intros Hi. unfold have_piece. rewrite (proj2 (Z.leb_gt _ _)) by (unfold num in *; lia). by rewrite Nat2Z.id. Qed.

Lemma underway_drop n have bf F r p :
  underway n have bf F r -> m_current_piece n = Some p -> get have (Z.to_nat (if_index p)) = true ->
  underway (set_current None false n) have bf F r.
Proof.
  intros [H1 H2 H3 H4 H5] Hp Hh. rewrite Hp in H5. destruct H5 as (i & k & a & old & G & Hi & Hb & -> & Ho & Hr).
  rewrite (ga_index _ _ _ _ G), Nat2Z.id in Hh. constructor; try done. split.
  - apply Forall_app. split; [eapply Forall_impl; [exact Ho|]; by cbn; intros f []|].
    apply Forall_forall. by intros f (j & -> & _)%list_elem_of_fmap.
  - pose proof (todo_had have i Hh). lia.
Qed.

(** [fill_requests] between two messages. *)
Lemma fill_spec n s d out bf F r :
  underway n (m_have s) bf F r ->
  exists n' s' G r', fill_requests always c (mkWorld n s d out) = (mkWorld n' s' d (out ++ map wire (map ask_of G)), Ok ()) /\
    m_have s' = m_have s /\ m_completed_count s' = m_completed_count s /\
    underway n' (m_have s') bf (F ++ G) r' /\ (r' + length G <= r)%nat /\ settled n' (m_have s') bf.
Proof.
  intros Hu. destruct (m_current_piece n) as [p|] eqn:Hp; [|by apply fill_idle].
  pose proof Hu as [H1 H2 H3 H4 H5]. rewrite Hp in H5. destruct H5 as (i & k & a & old & G & Hi & Hb & -> & Ho & Hr).
  pose proof (have_piece_nat i s Hi) as Hhp. rewrite <- (ga_index _ _ _ _ G) in Hhp.
  destruct (get (m_have s) i) eqn:Hh.
  - rewrite (fill_drop n s d out p) by done. apply fill_idle; [|done]. apply (underway_drop n _ _ _ _ p); [done..|].
    by rewrite (ga_index _ _ _ _ G), Nat2Z.id.
  - destruct (GEN i Hi) as [Hlen _]. destruct (refill i k a p n s d out Hlen G) as (m & p' & E & Hkm & Gm & Hf).
    replace (mkWorld n s d out) with (mkWorld (set_piece p n) s d out) by (by rewrite set_piece_same). rewrite fill_busy by done. rewrite E.
    pose proof (ga_range _ _ _ _ G). pose proof (ga_range _ _ _ _ Gm).
    exists (set_piece p' n), s, (blocks_of i k m), (nb i - m + todo (m_have s) (Some i))%nat.
    split; [done|]. split; [done|]. split; [done|]. split; [|split].
    + constructor; [done|done|done| |].
      * apply Forall_app_2; [done|]. apply Forall_forall. intros f (j & -> & Hj)%list_elem_of_fmap.
        apply elem_of_seq in Hj. unfold asked. cbn [fst snd]. split; [done|]. split; [done|lia].
      * cbn [set_piece set_current m_current_piece]. exists i, m, a, old. split; [done|]. split; [done|]. split; [done|].
        split; [|done]. rewrite <- app_assoc, blocks_of_app by lia. done.
    + unfold blocks_of. rewrite length_map, length_seq. lia.
    + by eapply settled_piece.
Qed.

(** ** An answer arrives *)

Context (OK : EnvOk) (DWOK : disk_writer_ok dw).

(** What the threads share: every flagged piece is on the disk. *)
Record shared_ok (s : PieceState) (d : Disk) : Prop := {
  sh_length : length (m_have s) = num c;
  sh_count : m_completed_count s = Z.of_nat (count_true (m_have s));
  sh_disk : disk_ok dw d;
  sh_stored : forall i, (i < num c)%nat -> get (m_have s) i = true -> read_piece dw (Z.of_nat i) d = Ok (content i);
}.

Lemma complete_genuine i s d :
  shared_ok s d -> (i < num c)%nat ->
  exists s' d', complete_piece c dw (Z.of_nat i) (content i) s d = (s', d', Ok true) /\ shared_ok s' d' /\
    grows (m_have s) (m_have s') /\ get (m_have s') i = true.
Proof.
  intros [S1 S2 S3 S4] Hi. destruct (GEN i Hi) as [Hlen Hsha]. rewrite <- (Nat2Z.id i) in Hsha at 2.
  pose proof (have_piece_nat i s Hi) as Hhp. assert (0 <= Z.of_nat i < m_num_pieces c) as Hr by (unfold num in *; lia).
  destruct (get (m_have s) i) eqn:Hh.
  - exists s, d. unfold complete_piece. rewrite (proj2 (Z.leb_gt _ _)) by lia. rewrite Nat2Z.id, Hh. split; [done|].
    split; [done|]. done.
  - destruct (complete_content c dw GEO OK DWOK (Z.of_nat i) (content i) Hr Hlen Hsha s d Hhp S1 S3)
      as (s' & d' & E & F1 & F2 & F3 & F4 & F5). rewrite Nat2Z.id in F1.
    exists s', d'. split; [done|]. assert (forall x, get (m_have s') x = if decide (x = i) then true else get (m_have s) x) as Hget.
    { intros x. rewrite F1. by rewrite get_insert by lia. }
    split; [|split].
    + constructor; [by rewrite F1, length_insert| |done|].
      * rewrite F1, F2, S2, count_true_insert by (done || lia). pose proof (count_true_le (<[i := true]> (m_have s))) as Hle.
        rewrite count_true_insert, length_insert, S1 in Hle by (done || lia). pose proof (geo_num _ _ GEO).
        unfold u32. rewrite Z.mod_small by (unfold num in *; lia). lia.
      * intros x Hx. rewrite Hget. case_decide as Hd; [by subst|]. intros Hg. rewrite F5; [by apply S4| |lia].
        unfold num in *. lia.
    + intros x Hx. rewrite Hget. by case_decide.
    + rewrite Hget. by rewrite decide_True.
Qed.

Lemma gathering_assembling i k a p :
  gathering i k a p -> full i k a -> assembling c (Z.of_nat i) (content i) k (rev (seq 0 a)) p.
Proof.
  intros [H1 H2 H3 H4 H5 H6 H7 H8 H9 H10] Hf.
  assert (forall x, x ∈ rev (seq 0 a) <-> (x < a)%nat) as Hin by (intros x; rewrite list_elem_of_In, <- in_rev, in_seq; lia).
  assert (length (rev (seq 0 a)) = a) as Hl by (by rewrite length_rev, length_seq).
  constructor; try done; rewrite ?Hl; try done; try lia.
  - rewrite H7. unfold u32. rewrite Z.mod_small; lia.
  - intros j Hj. rewrite H8 by done. apply bool_decide_ext. by rewrite Hin.
  - intros x Hx%Hin. by apply H10.
Qed.

(** The next block of the piece in hand; the last one completes it. *)
Lemma take_block n s d out i k a p :
  shared_ok s d -> (i < num c)%nat -> gathering i k a p -> full i k a -> (a < k)%nat ->
  exists p' n', m_peer_choking n' = m_peer_choking n /\ m_am_interested n' = m_am_interested n /\
    m_peer_bitfield n' = m_peer_bitfield n /\
    (gathering i k (S a) p' /\ handle_piece c dw (answer_of (i, a)) (mkWorld (set_piece p n) s d out) =
       (mkWorld (set_piece p' n') s d out, Ok ()) \/
     S a = k /\ S a = nb i /\ exists s' d', handle_piece c dw (answer_of (i, a)) (mkWorld (set_piece p n) s d out) =
       (mkWorld (set_current None false n') s' d' out, Ok ()) /\
       shared_ok s' d' /\ grows (m_have s) (m_have s') /\ get (m_have s') i = true).
Proof.
  intros Hs Hi G Hf Hak. destruct (GEN i Hi) as [Hlen Hsha]. rewrite <- (Nat2Z.id i) in Hsha at 2.
  assert (0 <= Z.of_nat i < m_num_pieces c) as Hr by (unfold num in *; lia).
  pose proof (gathering_assembling i k a p G Hf) as Has. pose proof (ga_more _ _ _ _ G) as Hanb.
  assert (a ∉ rev (seq 0 a)) as HaA by (rewrite list_elem_of_In, <- in_rev, in_seq; lia).
  destruct (assembling_block c dw GEO (Z.of_nat i) (content i) Hr Hlen Hsha k _ p a Has Hanb HaA)
    as (p' & E & Hok' & F1 & F2 & F3 & F4 & F5 & F6 & F7 & F8 & F9).
  destruct (assembling_total c dw GEO (Z.of_nat i) (content i) Hr Hlen _ _ _ Has) as [_ Hfl].
  pose proof (assembling_length c (Z.of_nat i) (content i) Hlen _ _ _ Has) as Hdl.
  pose proof (reply_block_index (Z.of_nat i) (content i) a) as Hix. pose proof (length_block_reply (Z.of_nat i) (content i) a) as Hbl.
  pose proof (proj1 (block_count_spec _ _) Hanb) as Hal. rewrite length_rev, length_seq in *.
  destruct G as [_ H2 H3 H4 _ H6 H7 H8 _ _].
  exists p', (add_downloaded (Z.of_nat (length (pc_block (block_reply (Z.of_nat i) (content i) a)))) n).
  split; [done|]. split; [done|]. split; [done|].
  assert (forall x, x ∈ a :: rev (seq 0 a) <-> (x < S a)%nat) as Hin.
  { intros x. rewrite elem_of_cons, list_elem_of_In, <- in_rev, in_seq. lia. }
  assert (forall x, (x / BS < S a)%nat -> if_data p' !! x = content i !! x) as Hdata by (intros x Hx; apply F9; by rewrite Hin).
  unfold answer_of. cbn [fst snd].
  rewrite (handle_block c dw n s d out p (block_reply (Z.of_nat i) (content i) a) p'); rewrite ?Hix;
    [|by apply (reply_roundtrip c dw GEO (Z.of_nat i) (content i) Hr Hlen)|by rewrite H2
     |rewrite Hbl; cbn [block_reply pc_begin]; lia|by rewrite Hfl|rewrite H8 by done; by rewrite bool_decide_false by lia|exact E].
  cbv zeta. rewrite F5, F7. destruct (decide (S a < nb i)%nat) as [Hmore|Hlast].
  - left. rewrite (proj2 (Z.ltb_lt _ _)) by lia. split; [|done]. constructor; try done; try lia.
    + rewrite F4. unfold u32. rewrite Z.mod_small; lia.
    + intros j Hj. rewrite F6 by done. apply bool_decide_ext. by rewrite Hin.
  - right. rewrite (proj2 (Z.ltb_ge _ _)) by lia. split; [lia|]. split; [lia|].
    assert (if_data p' = content i) as Hc.
    { apply list_eq. intros x. destruct (decide (x < length (content i))%nat) as [Hx|Hx].
      - apply Hdata. enough (x / BS < nb i)%nat by lia. apply block_count_spec. pose proof BS_pos.
        pose proof (Nat.div_mod_eq x BS). lia.
      - rewrite !lookup_ge_None_2 by lia. done. }
    destruct (complete_genuine i s d Hs Hi) as (s' & d' & Ec & Hs' & Hg & Hh). exists s', d'. split; [|done].
    unfold bind at 1, call_complete_piece. cbn [w_pieces w_disk w_conn w_sent]. rewrite F1, Hc, Ec. done.
Qed.

(** Any answer to what was asked. *)
Lemma handle_answer n s d out bf f F r :
  shared_ok s d -> underway n (m_have s) bf (f :: F) r -> settled n (m_have s) bf ->
  exists n' s' d', handle_piece c dw (answer_of f) (mkWorld n s d out) = (mkWorld n' s' d' out, Ok ()) /\
    shared_ok s' d' /\ grows (m_have s) (m_have s') /\ underway n' (m_have s') bf F r.
Proof.
  intros Hs Hu Hset. pose proof Hu as [H1 H2 H3 H4 H5]. apply Forall_cons in H4 as [(Hf1 & Hf2 & Hf3) H4].
  assert (piece_from_peer_message (answer_of f) = Ok (block_reply (Z.of_nat (fst f)) (content (fst f)) (snd f))) as Hrt.
  { destruct (GEN _ Hf1) as [Hlen _]. apply (reply_roundtrip c dw GEO (Z.of_nat (fst f)) _ ltac:(unfold num in *; lia) Hlen). done. }
  assert (m_current_piece n = None \/ (exists p, m_current_piece n = Some p /\ if_index p <> Z.of_nat (fst f)) ->
    handle_piece c dw (answer_of f) (mkWorld n s d out) = (mkWorld n s d out, Ok ())) as Hstale.
  { unfold handle_piece, bind at 1, lift. rewrite Hrt. unfold bind, get_conn. cbn [w_conn].
    intros [->|(p & -> & Hne)]; [done|]. cbn [pc_index block_reply]. by rewrite (proj2 (Z.eqb_neq _ _)) by congruence. }
  unfold settled in Hset. destruct (m_current_piece n) as [p|] eqn:Hp; cycle 1.
  - exists n, s, d. rewrite Hstale by (by left). split; [done|]. split; [done|]. split; [done|]. destruct H5 as [Ho Hr].
    constructor; try done. rewrite Hp. split; [|done]. by apply Forall_cons in Ho as [_ Ho].
  - destruct H5 as (i & k & a & [|f0 old] & G & Hi & Hb & HF & Ho & Hr).
    + cbn [app] in HF. destruct (decide (a < k)%nat) as [Hak|]; cycle 1.
      { pose proof (ga_range _ _ _ _ G). replace k with a in HF by lia. by rewrite blocks_of_nil in HF. }
      rewrite blocks_of_cons in HF by done. injection HF as -> ->.
      destruct (take_block n s d out i k a p Hs Hi G (Hset _ _ _ G) Hak) as (p' & n' & E1 & E2 & E3 & Hcase).
      rewrite set_piece_same in Hcase by done. destruct Hcase as [[G' E]|(Hk & Hnb & s' & d' & E & Hs' & Hg & Hh)].
      * exists (set_piece p' n'), s, d. rewrite E. split; [done|]. split; [done|]. split; [done|].
        constructor; cbn; [congruence..|done|]. by exists i, k, (S a), [].
      * exists (set_current None false n'), s', d'. rewrite E. split; [done|]. split; [done|]. split; [done|].
        subst k. rewrite blocks_of_nil in *. constructor; cbn; [congruence..|done|]. split; [done|].
        pose proof (todo_grows _ _ (Some i) Hg). pose proof (todo_had (m_have s') i Hh). lia.
    + cbn [app] in HF. injection HF as -> ->. apply Forall_cons in Ho as [[Hne Hh] Ho].
      exists n, s, d. rewrite Hstale; [|right; exists p; split; [done|]; rewrite (ga_index _ _ _ _ G); lia].
      split; [done|]. split; [done|]. split; [done|]. constructor; try done. rewrite Hp. by exists i, k, a, old.
Qed.
End leech.
