(* ===== verification/SwarmDownload.v ===== *)
(** * A torrent is downloaded from a swarm

    The system of Swarm.v from its opening to the complete torrent: the states a
    connection goes through, what each turn of a thread does to them, the number of
    messages that bounds the download, and the theorem. *)

From S2P Require Import Prelude CxxLib ByteOrder Hash Bencode TorrentFile DiskWriter PieceManager.
From S2P Require Import PeerMessage PeerConnection PieceExchange Swarm.

Local Open Scope io_scope.

Section download.
Context {SH : Sha1} (ENV ENV' : DiskEnv) (c : PieceConfig) (dw : DiskWriter) (GEO : geometry c dw).
Context (content : nat -> bytes) (GEN : genuine c content) (OK : @EnvOk ENV) (DWOK : @disk_writer_ok ENV dw).
Context (NUM : m_num_pieces c <= 2 ^ 26).

(** ** The messages fit *)

Lemma ask_fits f : fits (ask_of content f).
Proof. by split. Qed.

Lemma answer_fits f : fits (answer_of content f).
Proof.
  split; [|done]. unfold answer_of. cbn [piece_to_peer_message pm_payload block_reply pc_block pc_index pc_begin].
  rewrite !length_app, !length_write_be32, length_take. pose proof BS_Z. unfold BLOCK_SIZE in *. lia.
Qed.

Lemma bitfield_fits have : length have = num c -> fits (bitfield_to_peer_message (mkBitfield (pack have))).
Proof.
  intros Hl. split; [|done]. cbn [bitfield_to_peer_message pm_payload bitfield]. rewrite length_pack, Hl. unfold num.
  pose proof (Nat.div_mod_eq (Z.to_nat (m_num_pieces c) + 7) 8). lia.
Qed.

Lemma simple_fits i : simple_id i -> fits (mkPM i []).
Proof. intros Hi. split; [done|]. apply byte_id_byte. by left. Qed.

(** ** The states of a connection *)

(** A client that serves: it wants nothing and its disk holds what it has. *)
Record seeding (dw' : DiskWriter) (v : World) : Prop := {
  se_idle : m_am_interested (w_conn v) = false;
  se_sent : w_sent v = [];
  se_length : length (m_have (w_pieces v)) = num c;
  se_geometry : geometry c dw';
  se_stored : forall i, (i < num c)%nat -> get (m_have (w_pieces v)) i = true ->
    @read_piece ENV' dw' (Z.of_nat i) (w_disk v) = Ok (content i);
}.

Definition holds (v : World) : list bool := m_have (w_pieces v).

Definition asks (F : list (nat * nat)) : bytes := concat (map wire (map (ask_of content) F)).
Definition answers (F : list (nat * nat)) : bytes := concat (map wire (map (answer_of content) F)).

(** The flags and fields of the downloading end before it may ask. *)
Definition waiting (n : Conn) (interested : bool) (bf : list bool) : Prop :=
  m_peer_choking n = true /\ m_am_interested n = interested /\ m_current_piece n = None /\ m_peer_bitfield n = bf.

(** [r] bounds the messages the connection still carries. *)
Inductive link_ok (have : list bool) (r : nat) : Link -> Prop :=
  | link_done n dw' v :
      seeding dw' v -> (forall i, (i < num c)%nat -> get (holds v) i = true -> get have i = true) ->
      link_ok have r (mkLink n dw' v [] [])
  | link_greeted n dw' v :
      seeding dw' v -> m_am_choking (w_conn v) = true -> waiting n false (replicate (num c) false) ->
      (2 * todo c content have None + 3 <= r)%nat ->
      link_ok have r (mkLink n dw' v [] (wire (bitfield_to_peer_message (mkBitfield (pack (holds v))))))
  | link_interested n dw' v :
      seeding dw' v -> m_am_choking (w_conn v) = true -> waiting n true (holds v) ->
      (2 * todo c content have None + 2 <= r)%nat ->
      link_ok have r (mkLink n dw' v (wire (mkPM Interested [])) [])
  | link_unchoked n dw' v :
      seeding dw' v -> m_am_choking (w_conn v) = false -> waiting n true (holds v) ->
      (2 * todo c content have None + 1 <= r)%nat ->
      link_ok have r (mkLink n dw' v [] (wire (mkPM Unchoke [])))
  | link_flowing n dw' v F1 F2 r' :
      seeding dw' v -> m_am_choking (w_conn v) = false ->
      underway c content n have (holds v) (F1 ++ F2) r' -> settled c content n have (holds v) ->
      (length F1 + 2 * length F2 + 2 * r' <= r)%nat ->
      link_ok have r (mkLink n dw' v (asks F2) (answers F1)).

Lemma link_grows have have' r l : grows have have' -> link_ok have r l -> link_ok have' r l.
Proof.
  intros Hg. pose proof (todo_grows c content have have' None Hg).
  destruct 1; [by constructor; auto|constructor; (done || lia)..|].
  apply (link_flowing _ _ n dw' v F1 F2 r'); try done; [by eapply underway_grows|by eapply settled_grows].
Qed.

Lemma answers_app F G : answers (F ++ G) = answers F ++ answers G.
Proof. unfold answers. by rewrite !map_app, concat_app. Qed.
Lemma asks_app F G : asks (F ++ G) = asks F ++ asks G.
Proof. unfold asks. by rewrite !map_app, concat_app. Qed.

Lemma fill_waiting n b bf s d out : waiting n b bf -> fill_requests always c (mkWorld n s d out) = (mkWorld n s d out, Ok ()).
Proof. intros (H & _). unfold fill_requests, bind at 1, get_conn. cbn [w_conn]. by rewrite H. Qed.

Lemma fill_uninterested n s d out :
  m_am_interested n = false -> fill_requests always c (mkWorld n s d out) = (mkWorld n s d out, Ok ()).
Proof. intros H. unfold fill_requests, bind at 1, get_conn. cbn [w_conn]. rewrite H. by destruct (m_peer_choking n). Qed.

(** The shared invariant looks at the flags and the counter. *)
Lemma shared_same s s' d :
  m_have s' = m_have s -> m_completed_count s' = m_completed_count s -> @shared_ok ENV c dw content s d -> @shared_ok ENV c dw content s' d.
Proof. intros E1 E2 [H1 H2 H3 H4]. constructor; try done; rewrite ?E1, ?E2; done. Qed.

(** ** A turn of the downloading end *)

Lemma greeted_turn n v s d :
  length (holds v) = num c -> waiting n false (replicate (num c) false) ->
  exists n' out, @iteration SH ENV always c dw (Some (bitfield_to_peer_message (mkBitfield (pack (holds v))))) (mkWorld n s d []) =
      (mkWorld n' s d out, Ok ()) /\
    (waiting n' true (holds v) /\ out = [wire (mkPM Interested [])] \/
     out = [] /\ forall i, (i < num c)%nat -> get (holds v) i = true -> get (m_have s) i = true).
Proof.
  intros Hl (W1 & W2 & W3 & W4). pose proof (geo_config _ _ GEO) as Hc. unfold config_ok in Hc.
  destruct (handle_bitfield_exec c (holds v) n s d [] Hl W4 W2) as (n' & out & E & Hcase); [destruct Hc; lia|].
  exists n', out. unfold iteration, dispatch. cbn [pm_id bitfield_to_peer_message]. unfold bind.
  change (mkPM Bitfield _) with (bitfield_to_peer_message (mkBitfield (pack (holds v)))). rewrite E. cbn [app].
  assert (waiting n' (m_am_interested n') (holds v)) as Hw by (by destruct Hcase as [[-> _]|[-> _]]).
  rewrite (fill_waiting _ _ _ _ _ _ Hw). split; [done|]. destruct Hcase as [[-> ->]|(_ & -> & Hall)]; [left|right]; done.
Qed.

Lemma leech_turn s d r l :
  @shared_ok ENV c dw content s d -> link_ok (m_have s) r l -> l_down l <> [] ->
  exists n' s' d' out rest r',
    @turn SH c ENV dw (l_down l) (mkWorld (l_conn l) s d []) = (mkWorld n' s' d' out, Ok rest) /\
    @shared_ok ENV c dw content s' d' /\ grows (m_have s) (m_have s') /\
    link_ok (m_have s') r' (mkLink n' (l_writer l) (l_seed l) (l_up l ++ concat out) rest) /\ (r' < r)%nat.
Proof.
  intros Hs [n dw' v Hv Hall|n dw' v Hv Hch Hw Hr|n dw' v Hv Hch Hw Hr|n dw' v Hv Hch (W1 & W2 & W3 & W4) Hr
    |n dw' v [|f F1] F2 r0 Hv Hch Hu Hset Hr]; cbn [l_down l_conn l_up l_writer l_seed]; intros Hne; try done.
  - destruct (greeted_turn n v s d (se_length _ _ Hv) Hw) as (n' & out & E & Hcase).
    exists n', s, d, out, [], (r - 1)%nat. rewrite <- (app_nil_r (wire _)).
    rewrite (turn_wire c dw (bitfield_to_peer_message (mkBitfield (pack (holds v)))) [] _ _ (bitfield_fits _ (se_length _ _ Hv)) E). split; [done|]. split; [done|]. split; [done|].
    split; [|lia]. destruct Hcase as [[Hw' ->]|[-> Hall]].
    + cbn [concat app]. rewrite app_nil_r. apply link_interested; (done || lia).
    + by apply link_done.
  - assert (underway c content (set_peer_choking false n) (m_have s) (holds v) [] (todo c content (m_have s) None)) as Hu.
    { constructor; try done. cbn. by rewrite W3. }
    destruct (fill_spec c dw GEO content GEN _ s d [] _ _ _ Hu) as (n' & s' & G & r' & E & Hh & Hc & Hu' & Hr' & Hset).
    exists n', s', d, (map wire (map (ask_of content) G)), [], (r - 1)%nat. rewrite <- (app_nil_r (wire _)).
    rewrite (turn_wire c dw (mkPM Unchoke []) [] _ (mkWorld n' s' d (map wire (map (ask_of content) G)))); [|by apply simple_fits|exact E].
    split; [done|]. rewrite Hh in *. split; [|split; [done|]].
    + by apply (shared_same s).
    + split; [|lia]. apply (link_flowing _ _ n' dw' v [] G r'); try done. cbn [length]. lia.
  - cbn [length] in Hr. unfold answers in *. cbn [map concat] in *. fold (answers F1) in *.
    destruct (handle_answer c dw GEO content GEN OK DWOK n s d [] (holds v) f (F1 ++ F2) r0 Hs Hu Hset)
      as (n1 & s1 & d1 & E1 & Hs1 & Hg1 & Hu1).
    destruct (fill_spec c dw GEO content GEN n1 s1 d1 [] _ _ _ Hu1) as (n' & s' & G & r' & E & Hh & Hc & Hu' & Hr' & Hset').
    exists n', s', d1, (map wire (map (ask_of content) G)), (answers F1), (r - 1)%nat.
    rewrite (turn_wire c dw (answer_of content f) (answers F1) _ (mkWorld n' s' d1 (map wire (map (ask_of content) G))));
      [|apply answer_fits|]; cycle 1.
    { unfold answer_of. rewrite iteration_piece. unfold bind. fold (answer_of content f). rewrite E1. exact E. }
    split; [done|]. split; [by eapply shared_same|]. split; [by rewrite Hh|]. split; [|lia].
    fold (asks G). rewrite <- asks_app. apply (link_flowing _ _ n' dw' v F1 (F2 ++ G) r'); try done.
    + by rewrite app_assoc.
    + rewrite length_app. lia.
Qed.

(** ** A turn of the serving end *)

Lemma interested_turn v s :
  m_am_choking (w_conn v) = true -> m_am_interested (w_conn v) = false -> w_sent v = [] ->
  exists n', @iteration SH ENV' always c s (Some (mkPM Interested [])) v =
      (mkWorld n' (w_pieces v) (w_disk v) [wire (mkPM Unchoke [])], Ok ()) /\
    m_am_choking n' = false /\ m_am_interested n' = false.
Proof.
  destruct v as [n p d out]. cbn [w_conn w_pieces w_disk w_sent]. intros H1 H2 ->.
  exists (set_am_choking false (set_peer_interested true n)). split; [|done].
  unfold iteration, dispatch. cbn [pm_id]. unfold handle_interested, send_unchoke, bind, modify, get_conn.
  cbn [w_conn w_pieces w_disk w_sent set_peer_interested m_am_choking]. rewrite H1. cbn [negb].
  rewrite send_exec by done. cbn [w_conn w_pieces w_disk w_sent]. by rewrite fill_uninterested.
Qed.

Lemma seeding_conn dw' v n' :
  seeding dw' v -> m_am_interested n' = false -> seeding dw' (mkWorld n' (w_pieces v) (w_disk v) []).
Proof. intros [H1 H2 H3 H4 H5] Hn. by constructor. Qed.

Lemma serve_turn have r l :
  link_ok have r l -> l_up l <> [] ->
  exists v' rest r', @turn SH c ENV' (l_writer l) (l_up l) (l_seed l) = (v', Ok rest) /\ holds v' = holds (l_seed l) /\
    link_ok have r' (mkLink (l_conn l) (l_writer l) (unsent v') rest (l_down l ++ concat (w_sent v'))) /\ (r' < r)%nat.
Proof.
  intros [n dw' v Hv Hall|n dw' v Hv Hch Hw Hr|n dw' v Hv Hch Hw Hr|n dw' v Hv Hch Hw Hr
    |n dw' v F1 [|f F2] r0 Hv Hch Hu Hset Hr]; cbn [l_down l_conn l_up l_writer l_seed]; intros Hne; try done.
  - destruct (interested_turn v dw' Hch (se_idle _ _ Hv) (se_sent _ _ Hv)) as (n' & E & Hc' & Hi').
    eexists _, [], (r - 1)%nat. rewrite <- (app_nil_r (wire _)).
    rewrite (turn_wire c dw' (mkPM Interested []) [] v _ ltac:(by apply simple_fits) E). split; [done|]. split; [done|].
    split; [|lia]. unfold unsent. cbn [w_conn w_pieces w_disk w_sent concat app]. rewrite app_nil_r.
    apply link_unchoked; [by apply seeding_conn|done|done|lia].
  - pose proof (un_asked _ _ _ _ _ _ _ Hu) as [_ [(Hf1 & Hf2 & Hf3) _]%Forall_cons]%Forall_app.
    assert (@serves ENV' c dw' (Z.of_nat (fst f)) (content (fst f)) v) as Hserves.
    { destruct Hv as [H1 H2 H3 H4 H5]. constructor; try done; [|by apply H5]. by rewrite have_piece_nat. }
    destruct (@serve_block_exec SH ENV' c dw' (se_geometry _ _ Hv) (Z.of_nat (fst f)) (content (fst f))
      ltac:(unfold num in Hf1; lia) v (snd f) Hserves Hf3)
      as (n' & E & Hc' & Hi'). rewrite (se_sent _ _ Hv) in E. cbn [app] in E.
    eexists _, (asks F2), (r - 1)%nat. unfold asks at 1. cbn [map concat].
    rewrite (turn_wire c dw' (ask_of content f) _ v _ (ask_fits f) E). split; [done|]. split; [done|].
    cbn [length] in Hr. split; [|lia]. unfold unsent. cbn [w_conn w_pieces w_disk w_sent concat app]. rewrite app_nil_r.
    replace (answers F1 ++ _) with (answers (F1 ++ [f])); cycle 1.
    { rewrite answers_app. unfold answers at 2. cbn [map concat]. by rewrite app_nil_r. }
    apply (link_flowing _ _ n dw' _ (F1 ++ [f]) F2 r0); [by apply seeding_conn|done| |done|].
    + by rewrite <- app_assoc.
    + rewrite length_app. cbn [length]. lia.
Qed.

(** ** The whole system *)

Record swarm_ok (rs : list nat) (g : Swarm) : Prop := {
  so_shared : @shared_ok ENV c dw content (sw_pieces g) (sw_disk g);
  so_links : Forall2 (link_ok (m_have (sw_pieces g))) rs (sw_links g);
}.

Definition sources (g : Swarm) : list (list bool) := map (fun l => holds (l_seed l)) (sw_links g).

(** The thread waits. *)
Definition idle (t : Turn) (g : Swarm) : Prop :=
  match t with
  | Leech j => forall l, sw_links g !! j = Some l -> l_down l = []
  | Serve j => forall l, sw_links g !! j = Some l -> l_up l = []
  end.

Lemma sum_insert rs j r r' : rs !! j = Some r -> (r' < r)%nat -> (sum_list (<[j := r']> rs) < sum_list rs)%nat.
Proof.
  revert j. induction rs as [|x rs IH]; intros [|j] Hj Hr; try done.
  - injection Hj as ->. change (r' + sum_list rs < r + sum_list rs)%nat. lia.
  - specialize (IH j Hj Hr). change (x + sum_list (<[j := r']> rs) < x + sum_list rs)%nat. lia.
Qed.

Lemma sources_insert g s d j l l' :
  sw_links g !! j = Some l -> holds (l_seed l') = holds (l_seed l) -> sources (mkSwarm s d (<[j := l']> (sw_links g))) = sources g.
Proof.
  intros Hj Hh. unfold sources. cbn [sw_links]. rewrite list_fmap_insert. apply list_insert_id. rewrite list_lookup_fmap, Hj, Hh. done.
Qed.

Lemma idle_dec t g :
  idle t g \/ exists j l, sw_links g !! j = Some l /\ (t = Leech j /\ l_down l <> [] \/ t = Serve j /\ l_up l <> []).
Proof.
  destruct t as [j|j]; cbn [idle]; (destruct (sw_links g !! j) as [l|] eqn:E; [|by left]).
  - destruct (decide (l_down l = [])); [left|right; exists j, l; auto]. by intros l' [= <-].
  - destruct (decide (l_up l = [])); [left|right; exists j, l; auto]. by intros l' [= <-].
Qed.

Lemma link_seeding have r l : link_ok have r l -> seeding (l_writer l) (l_seed l).
Proof. by destruct 1. Qed.

Lemma idle_turn rs g t :
  Forall2 (link_ok (m_have (sw_pieces g))) rs (sw_links g) -> idle t g -> take_turn ENV ENV' c dw t g = Ok g.
Proof.
  intros Hl. destruct g as [s d ls]. destruct t as [j|j]; cbn [take_turn idle sw_links sw_pieces sw_disk] in *; intros Hi;
    (destruct (ls !! j) as [l|] eqn:E; [|done]); specialize (Hi _ eq_refl);
    destruct (Forall2_lookup_r _ _ _ _ _ Hl E) as (r & _ & Hr); apply link_seeding, se_sent in Hr;
    destruct l as [n dw' [vn vs vd vo] up down]; cbn in *; subst; cbn; by rewrite app_nil_r, list_insert_id.
Qed.

(** A turn never throws; a thread that does not wait makes progress. *)
Lemma take_turn_ok rs g t :
  swarm_ok rs g ->
  exists rs' g', take_turn ENV ENV' c dw t g = Ok g' /\ swarm_ok rs' g' /\ sources g' = sources g /\
    grows (m_have (sw_pieces g)) (m_have (sw_pieces g')) /\
    ((g' = g /\ rs' = rs /\ idle t g) \/ (sum_list rs' < sum_list rs)%nat).
Proof.
  intros [Hs Hl]. destruct (idle_dec t g) as [Hi|(j & l & Ej & Hwork)].
  { exists rs, g. split; [by apply (idle_turn rs)|]. split; [done|]. split; [done|]. split; [done|]. by left. }
  destruct (Forall2_lookup_r _ _ _ _ _ Hl Ej) as (r & Er & Hr).
  destruct Hwork as [[-> Hne]|[-> Hne]]; cbn [take_turn]; rewrite Ej.
  - destruct (leech_turn _ _ _ _ Hs Hr Hne) as (n' & s' & d' & out & rest & r' & E & Hs' & Hg & Hr' & Hlt). rewrite E.
    eexists (<[j := r']> rs), _. split; [done|]. split; [|split; [by apply (sources_insert g _ _ _ l)|split; [done|]]].
    + constructor; [done|]. apply Forall2_insert; [|done]. eapply Forall2_impl; [exact Hl|]. intros. by eapply link_grows.
    + right. by eapply sum_insert.
  - destruct (serve_turn _ _ _ Hr Hne) as (v' & rest & r' & E & Hh & Hr' & Hlt). rewrite E.
    eexists (<[j := r']> rs), _. split; [done|]. split; [|split; [by apply (sources_insert g _ _ _ l)|split; [done|]]].
    + constructor; [done|]. by apply Forall2_insert.
    + right. by eapply sum_insert.
Qed.

Lemma take_turns_ok ts : forall rs g, swarm_ok rs g ->
  exists rs' g', take_turns ENV ENV' c dw ts g = Ok g' /\ swarm_ok rs' g' /\ sources g' = sources g /\
    ((g' = g /\ rs' = rs /\ Forall (fun t => idle t g) ts) \/ (sum_list rs' < sum_list rs)%nat).
Proof.
  induction ts as [|t ts IH]; intros rs g Hg; cbn [take_turns]; [exists rs, g; auto 10|].
  destruct (take_turn_ok rs g t Hg) as (rs1 & g1 & E1 & Hg1 & Hs1 & _ & H1). rewrite E1. cbn [mbind result_bind].
  destruct (IH rs1 g1 Hg1) as (rs2 & g2 & E2 & Hg2 & Hs2 & H2). exists rs2, g2. split; [done|]. split; [done|].
  split; [congruence|]. destruct H1 as [(-> & -> & Hi)|H1]; [|right; destruct H2 as [(_ & -> & _)|H2]; lia].
  destruct H2 as [(-> & -> & Hi2)|H2]; [left|by right]. auto.
Qed.

(** Every thread gets a turn. *)
Definition fair (k : nat) (ts : list Turn) : Prop := forall j, (j < k)%nat -> Leech j ∈ ts /\ Serve j ∈ ts.

Definition drained (g : Swarm) : Prop := Forall (fun l => l_up l = [] /\ l_down l = []) (sw_links g).

Lemma fair_idle ts g : fair (length (sw_links g)) ts -> Forall (fun t => idle t g) ts -> drained g.
Proof.
  intros Hf Hi. apply Forall_lookup. intros j l Hj. destruct (Hf j (lookup_lt_Some _ _ _ Hj)) as [H1 H2].
  rewrite Forall_forall in Hi. split; [by apply (Hi _ H2)|by apply (Hi _ H1)].
Qed.

Lemma drained_idle g t : drained g -> idle t g.
Proof. intros Hd. destruct t as [j|j]; intros l Hl; by destruct (Forall_lookup_1 _ _ _ _ Hd Hl). Qed.

Lemma drained_turns ts rs g : swarm_ok rs g -> drained g -> take_turns ENV ENV' c dw ts g = Ok g.
Proof.
  intros [_ Hl] Hd. induction ts as [|t ts IH]; [done|]. cbn [take_turns].
  by rewrite (idle_turn rs) by (done || by apply drained_idle).
Qed.

Lemma sources_length g g' : sources g' = sources g -> length (sw_links g') = length (sw_links g).
Proof. intros H. apply (f_equal length) in H. unfold sources in H. by rewrite !length_map in H. Qed.

Lemma take_turns_app ts us g : take_turns ENV ENV' c dw (ts ++ us) g = (g' ← take_turns ENV ENV' c dw ts g; take_turns ENV ENV' c dw us g').
Proof.
  revert g. induction ts as [|t ts IH]; intros g; [done|]. cbn [app take_turns].
  destruct (take_turn ENV ENV' c dw t g) as [g1|e]; cbn [mbind result_bind]; [apply IH|done].
Qed.

(** Fair rounds drain the connections. *)
Lemma rounds_drain rounds : forall rs g, swarm_ok rs g -> Forall (fair (length (sw_links g))) rounds ->
  (sum_list rs < length rounds)%nat ->
  exists rs' g', take_turns ENV ENV' c dw (concat rounds) g = Ok g' /\ swarm_ok rs' g' /\ sources g' = sources g /\ drained g'.
Proof.
  induction rounds as [|ts rounds IH]; intros rs g Hg Hf Hlt; [cbn in Hlt; lia|]. apply Forall_cons in Hf as [Hf Hfs].
  cbn [concat length] in *. rewrite take_turns_app.
  destruct (take_turns_ok ts rs g Hg) as (rs1 & g1 & E1 & Hg1 & Hs1 & [(-> & -> & Hi)|H1]); rewrite E1; cbn [mbind result_bind].
  - exists rs, g. pose proof (fair_idle _ _ Hf Hi) as Hd. split; [by apply (drained_turns _ rs)|done].
  - destruct (IH rs1 g1 Hg1) as (rs2 & g2 & E2 & Hg2 & Hs2 & Hd); [by rewrite (sources_length g g1)|lia|].
    exists rs2, g2. split; [done|]. split; [done|]. split; [congruence|done].
Qed.

Lemma wire_not_nil m rest : fits m -> wire m ++ rest <> [].
Proof. intros Hm E. destruct (wire_cons m rest Hm) as (b & l & E'). congruence. Qed.

(** A connection with nothing under way has brought all the peer has. *)
Lemma empty_link have r l :
  link_ok have r l -> l_up l = [] -> l_down l = [] -> forall i, (i < num c)%nat -> get (holds (l_seed l)) i = true -> get have i = true.
Proof.
  intros [n dw' v Hv Hall|n dw' v Hv Hch Hw Hr|n dw' v Hv Hch Hw Hr|n dw' v Hv Hch Hw Hr
    |n dw' v [|f F1] [|f2 F2] r0 Hv Hch Hu Hset Hr]; cbn [l_down l_conn l_up l_writer l_seed]; intros Hup Hdown; try done.
  - exfalso. apply (wire_not_nil _ [] (bitfield_fits _ (se_length _ _ Hv))). by rewrite app_nil_r.
  - unfold settled in Hset. destruct Hu as [_ _ _ _ Hp]. destruct (m_current_piece n) as [p|] eqn:Ep; [|exact Hset].
    exfalso. destruct Hp as (i & k & a & old & G & _ & _ & HF & _). specialize (Hset i k a G).
    pose proof (ga_range _ _ _ _ _ _ G). pose proof (ga_more _ _ _ _ _ _ G). unfold full in Hset.
    symmetry in HF. apply app_nil in HF as [_ HF]. destruct (decide (a < k)%nat) as [Hak|]; [|lia].
    by rewrite blocks_of_cons in HF.
  - exfalso. by apply (wire_not_nil _ (answers F1) (answer_fits f)).
Qed.

Lemma count_true_full k : count_true (replicate k true) = k.
Proof. unfold count_true. induction k as [|k IH]; [done|]. cbn [replicate]. rewrite filter_cons_True by done. cbn [length]. by rewrite IH. Qed.

Lemma drained_complete rs g :
  swarm_ok rs g -> drained g -> (forall i, (i < num c)%nat -> exists h, h ∈ sources g /\ get h i = true) ->
  is_complete c (sw_pieces g) = true /\ forall i, (i < num c)%nat -> get (m_have (sw_pieces g)) i = true.
Proof.
  intros [Hs Hl] Hd Hcov.
  assert (forall i, (i < num c)%nat -> get (m_have (sw_pieces g)) i = true) as Hall.
  { intros i Hi. destruct (Hcov i Hi) as (h & (l & -> & Hin)%list_elem_of_fmap & Hh).
    apply list_elem_of_lookup in Hin as [j Hj]. destruct (Forall2_lookup_r _ _ _ _ _ Hl Hj) as (r & _ & Hr).
    destruct (Forall_lookup_1 _ _ _ _ Hd Hj). by apply (empty_link _ _ _ Hr). }
  split; [|done]. unfold is_complete. rewrite (sh_count _ _ _ _ _ Hs).
  assert (m_have (sw_pieces g) = replicate (num c) true) as Hrep.
  { apply list_eq. intros i. pose proof (sh_length _ _ _ _ _ Hs) as Hlen. destruct (decide (i < num c)%nat) as [Hi|Hi].
    - rewrite lookup_replicate_2 by done. specialize (Hall i Hi). unfold get in Hall.
      destruct (m_have (sw_pieces g) !! i) as [[]|] eqn:E; done.
    - rewrite !lookup_ge_None_2; rewrite ?length_replicate; try lia. done. }
  rewrite Hrep, count_true_full.
  pose proof (geo_config _ _ GEO) as [Hc _]. apply Z.eqb_eq. unfold num. lia.
Qed.

(** ** Opening the connections *)

Lemma length_bitfield s : length (current_bitfield c s) = num c.
Proof. unfold current_bitfield. by rewrite length_map, length_seq. Qed.

Lemma send_bitfield_exec n s d out :
  send_bitfield always c (mkWorld n s d out) =
  (mkWorld n s d (out ++ if (count_true (current_bitfield c s) =? 0)%nat then []
                         else [wire (bitfield_to_peer_message (mkBitfield (pack (current_bitfield c s))))]), Ok ()).
Proof.
  unfold send_bitfield, bind at 1, ask. cbn [w_pieces]. case_if; [by rewrite app_nil_r|]. apply send_exec.
  destruct (bitfield_fits _ (length_bitfield s)). lia.
Qed.

Lemma dial_exec info_hash me other n s d :
  ih_ok info_hash -> length other = 20%nat ->
  dial c info_hash me other (mkWorld n s d []) =
  (mkWorld (set_connected true n) s d
     (handshake_serialize (mkHandshake (replicate 8 0) info_hash me) ::
      (if (count_true (current_bitfield c s) =? 0)%nat then []
       else [wire (bitfield_to_peer_message (mkBitfield (pack (current_bitfield c s))))])), Ok []).
Proof.
  intros Hih Ho. set (h := mkHandshake (replicate 8 0) info_hash other).
  pose proof (length_handshake h ltac:(done) Hih Ho) as Hlen.
  assert (recv_exact HANDSHAKE_LENGTH (handshake_serialize h) = Ok (handshake_serialize h, [])) as Er.
  { rewrite <- Hlen. rewrite <- (app_nil_r (handshake_serialize h)) at 2. apply recv_exact_app. }
  pose proof (handshake_roundtrip h [] ltac:(done) Hih Ho) as Ed. rewrite app_nil_r in Ed.
  unfold dial, connect, do_handshake. fold h. unfold bind at 1 2 3. unfold send_bytes, always at 1. cbn [w_conn w_pieces w_disk w_sent app].
  unfold lift at 1. rewrite Er. unfold bind at 1. unfold default, id.
  change (handshake_serialize h !! 0%nat) with (Some PROTOCOL_STRING_LENGTH). rewrite Z.eqb_refl. cbn [negb].
  unfold bind at 1, lift at 1. rewrite Ed. cbn [hs_info_hash h]. rewrite bool_decide_true by done. cbn [negb].
  unfold ret at 1, bind at 1, modify. cbn [w_conn w_pieces w_disk w_sent].
  unfold bind. rewrite send_bitfield_exec. done.
Qed.

Lemma current_bitfield_have s : length (m_have s) = num c -> current_bitfield c s = m_have s.
Proof.
  intros Hl. apply list_eq. intros i. destruct (decide (i < num c)%nat) as [Hi|Hi].
  - rewrite (current_bitfield_lookup c s i Hi). destruct (lookup_lt_is_Some_2 (m_have s) i) as [b Hb]; [lia|].
    unfold get. by rewrite Hb.
  - by rewrite !lookup_ge_None_2; rewrite ?length_bitfield; try lia.
Qed.

(** A client that has some pieces and no connection yet. *)
Record seed_ok (p : Seed) : Prop := {
  sd_id_length : length (sd_id p) = 20%nat;
  sd_fresh : w_conn (sd_world p) = conn_new c;
  sd_seeding : seeding (sd_writer p) (sd_world p);
}.

(** The blocks of the torrent. *)
Definition torrent_blocks : nat :=
  sum_list_with (fun i => block_count (Z.to_nat (piece_length c (Z.of_nat i)))) (seq 0 (num c)).

Definition fresh (s : PieceState) : Prop := s = mkPieceState (replicate (num c) false) (replicate (num c) false) 0 0 0.

Lemma new_fresh s :
  piece_manager_new (m_num_pieces c) (m_nominal_piece_length c) (m_total_length_bytes c) (m_piece_hashes c) = Ok (c, s) -> fresh s.
Proof. unfold piece_manager_new. destruct (negb _); cbn [throw_if mbind result_bind]; [done|]. by intros [= _ <-]. Qed.

Lemma todo_fresh : todo c content (replicate (num c) false) None = torrent_blocks.
Proof.
  apply Nat.le_antisymm; apply sum_list_with_le; intros i Hi%elem_of_seq; rewrite get_replicate; cbn;
    destruct (GEN i ltac:(lia)) as [<- _]; by rewrite Nat2Z.id.
Qed.

Lemma count_none (l : list bool) : count_true l = 0%nat -> forall i, get l i = false.
Proof.
  intros Hc i. destruct (get l i) eqn:E; [|done]. exfalso. unfold get in E. destruct (l !! i) as [b|] eqn:El; [|done]. cbn in E. subst b.
  unfold count_true in Hc. apply nil_length_inv in Hc.
  assert (true ∈ filter (fun b => b = true) l) as Hin by (apply list_elem_of_filter; split; [done|by eapply list_elem_of_lookup_2]).
  rewrite Hc in Hin. by apply not_elem_of_nil in Hin.
Qed.

Lemma open_link_ok info_hash me s d p :
  ih_ok info_hash -> length me = 20%nat -> fresh s -> seed_ok p ->
  exists l, open_link c info_hash me s d p = Ok l /\ holds (l_seed l) = holds (sd_world p) /\
    link_ok (m_have s) (2 * torrent_blocks + 3) l.
Proof.
  intros Hih Hme Hs [Hid Hf Hv]. destruct (sd_world p) as [n v dv out] eqn:Ep.
  pose proof Hv as [H1 H2 H3 H4 H5]. cbn [w_conn w_pieces w_disk w_sent] in *. subst n out. unfold open_link. rewrite Ep.
  rewrite !dial_exec by done. rewrite (current_bitfield_have v H3).
  assert (m_have s = replicate (num c) false) as Hhave by (by rewrite Hs).
  rewrite (current_bitfield_have s) by (by rewrite Hhave, length_replicate). rewrite Hhave, count_true_replicate. cbn [Nat.eqb drop concat app].
  eexists. split; [reflexivity|]. split; [done|].
  assert (seeding (sd_writer p) (mkWorld (set_connected true (conn_new c)) v dv [])) as Hv' by (by constructor).
  destruct (Nat.eqb_spec (count_true (m_have v)) 0) as [E|E]; cbn [concat drop app unsent w_conn w_pieces w_disk w_sent].
  - apply link_done; [done|]. intros i _ Hi. cbn in Hi. by rewrite count_none in Hi.
  - rewrite app_nil_r. apply (link_greeted _ _ _ (sd_writer p) (mkWorld (set_connected true (conn_new c)) v dv [])); try done.
    rewrite todo_fresh. lia.
Qed.

Lemma open_links_ok info_hash me s d ps :
  ih_ok info_hash -> length me = 20%nat -> fresh s -> Forall seed_ok ps ->
  exists ls, open_links c info_hash me s d ps = Ok ls /\
    Forall2 (link_ok (m_have s)) (replicate (length ps) (2 * torrent_blocks + 3)%nat) ls /\
    map (fun l => holds (l_seed l)) ls = map (fun p => holds (sd_world p)) ps.
Proof.
  intros Hih Hme Hs. induction 1 as [|p ps Hp Hps IH]; cbn [open_links]; [by exists []|].
  destruct (open_link_ok info_hash me s d p Hih Hme Hs Hp) as (l & -> & Hh & Hl). destruct IH as (ls & -> & Hls & Hm).
  exists (l :: ls). split; [done|]. split; [by constructor|]. cbn [map]. by rewrite Hh, Hm.
Qed.

Lemma sum_list_replicate k x : sum_list (replicate k x) = (k * x)%nat.
Proof. induction k as [|k IH]; [done|]. change (x + sum_list (replicate k x) = S k * x)%nat. lia. Qed.
End download.

(** C3: a torrent spread over a swarm is downloaded, when message handlings do not overlap.
    A client that has nothing connects to several clients, each of which has some of the
    pieces on its disk, every piece being at one of them at least; the threads of all the
    connections share the client's piece manager and disk, the handling of one message
    (with the requests it leads to) is one step, and no send fails.  Then every connection
    opens; in whatever order the threads handle their messages none of them ever throws,
    and after each handling every piece that is flagged is on the disk with the right
    content; and in any schedule that gives every thread a turn again and again, after
    more than [connections * (2 * blocks + 3)] rounds the torrent is complete, all its
    pieces read back from the disk, and no connection has anything left to send.  (Within
    a handling the flag is set before the write, so threads that interleave inside one can
    see a flagged piece that is not on the disk yet; what holds then is C37.) *)
Theorem swarm_downloads (SH : Sha1) (ENV ENV' : DiskEnv) c dw content info_hash me s d seeds :
  geometry c dw -> m_num_pieces c <= 2 ^ 26 -> @EnvOk ENV -> @disk_writer_ok ENV dw -> @disk_ok ENV dw d ->
  piece_manager_new (m_num_pieces c) (m_nominal_piece_length c) (m_total_length_bytes c) (m_piece_hashes c) = Ok (c, s) ->
  genuine c content -> ih_ok info_hash -> length me = 20%nat ->
  Forall (seed_ok ENV' c content) seeds ->
  (forall i, (i < num c)%nat -> exists p, p ∈ seeds /\ get (m_have (w_pieces (sd_world p))) i = true) ->
  exists ls, open_links c info_hash me s d seeds = Ok ls /\
    (forall ts, exists g, take_turns ENV ENV' c dw ts (mkSwarm s d ls) = Ok g /\
       forall i, (i < num c)%nat -> have_piece c (Z.of_nat i) (sw_pieces g) = true ->
         @read_piece ENV dw (Z.of_nat i) (sw_disk g) = Ok (content i)) /\
    (forall rounds, Forall (fair (length seeds)) rounds -> (length seeds * (2 * torrent_blocks c + 3) < length rounds)%nat ->
       exists g, take_turns ENV ENV' c dw (concat rounds) (mkSwarm s d ls) = Ok g /\
         is_complete c (sw_pieces g) = true /\ drained g /\
         forall i, (i < num c)%nat -> @read_piece ENV dw (Z.of_nat i) (sw_disk g) = Ok (content i)).
Proof.
  intros GEO NUM OK DWOK Hd Hnew GEN Hih Hme Hseeds Hcov. pose proof (new_fresh c s Hnew) as Hs.
  destruct (open_links_ok ENV' c content GEN NUM info_hash me s d seeds Hih Hme Hs Hseeds) as (ls & E & Hls & Hsrc).
  exists ls. split; [done|].
  assert (swarm_ok ENV ENV' c dw content (replicate (length seeds) (2 * torrent_blocks c + 3)%nat) (mkSwarm s d ls)) as Hg.
  { constructor; [|done]. cbn [sw_pieces sw_disk]. rewrite Hs. constructor; cbn [m_have m_completed_count]; try done.
    - by rewrite length_replicate.
    - by rewrite count_true_replicate.
    - intros i _. by rewrite get_replicate. }
  assert (length ls = length seeds) as Hlen by (apply Forall2_length in Hls; by rewrite length_replicate in Hls).
  split.
  - intros ts. destruct (take_turns_ok ENV ENV' c dw GEO content GEN OK DWOK NUM ts _ _ Hg) as (rs & g & Eg & [Hsh _] & _).
    exists g. split; [done|]. intros i Hi. rewrite have_piece_nat by done. by apply (sh_stored _ _ _ _ _ Hsh).
  - intros rounds Hf Hn.
    destruct (rounds_drain ENV ENV' c dw GEO content GEN OK DWOK NUM rounds _ _ Hg) as (rs & g & Eg & Hg' & Hs' & Hdr).
    { cbn [sw_links]. by rewrite Hlen. }
    { by rewrite sum_list_replicate. }
    exists g. split; [done|].
    destruct (drained_complete ENV ENV' c dw GEO content NUM rs g Hg' Hdr) as [Hcomp Hall].
    { intros i Hi. destruct (Hcov i Hi) as (p & Hp & Hh). exists (holds (sd_world p)). split; [|done].
      rewrite Hs'. unfold sources. cbn [sw_links]. rewrite Hsrc. apply list_elem_of_fmap. by exists p. }
    split; [done|]. split; [done|]. intros i Hi. destruct Hg' as [Hsh _]. by apply (sh_stored _ _ _ _ _ Hsh); [|apply Hall].
Qed.

(** Two pieces, each at another client; the threads run round robin. *)
Definition swarm_piece (i : nat) : bytes := match i with O => replicate 16 7 | _ => replicate 8 9 end.
Definition swarm_config : PieceConfig :=
  mkPieceConfig 24 2 16 [@sha1 sample_sha1 (swarm_piece 0); @sha1 sample_sha1 (swarm_piece 1)].
Definition swarm_writer : DiskWriter := mkDisk (str "out") 16 24 [mkFileEntry (str "f") 24 0].
Definition swarm_disk (b : bytes) : Disk := mkDiskState {[plain_file (path_append (str "out") (str "f")) := b]} true.
Definition swarm_seeds : list Seed :=
  [mkSeed (replicate 20 1) swarm_writer
     (mkWorld (conn_new swarm_config) (mkPieceState [true; false] [true; false] 1 16 0) (swarm_disk (swarm_piece 0 ++ replicate 8 0)) []);
   mkSeed (replicate 20 2) swarm_writer
     (mkWorld (conn_new swarm_config) (mkPieceState [false; true] [false; true] 1 8 0) (swarm_disk (replicate 16 0 ++ swarm_piece 1)) [])].
Definition swarm_state : PieceState := mkPieceState [false; false] [false; false] 0 0 0.
Definition swarm_hash : InfoHash := mkInfoHash (replicate 20 3).
Definition swarm_rounds : list (list Turn) := replicate 15 [Leech 0; Serve 0; Leech 1; Serve 1].

Lemma swarm_geometry : geometry swarm_config swarm_writer.
Proof. constructor; unfold config_ok; cbn; lia. Qed.

Lemma swarm_seeds_ok : Forall (@seed_ok good_disk swarm_config swarm_piece) swarm_seeds.
Proof.
  repeat apply Forall_cons_2; try apply Forall_nil_2; (constructor; [reflexivity|reflexivity|]);
    (constructor; [reflexivity|reflexivity|reflexivity|exact swarm_geometry|]).
  - intros [|[|i]] Hi Hg; [|discriminate Hg|vm_compute in Hi; lia]. apply (bool_decide_unpack _). vm_compute. exact I.
  - intros [|[|i]] Hi Hg; [discriminate Hg| |vm_compute in Hi; lia]. apply (bool_decide_unpack _). vm_compute. exact I.
Qed.

Lemma swarm_downloads_witness :
  let _ : Sha1 := sample_sha1 in
  exists ls g,
    open_links swarm_config swarm_hash (replicate 20 0) swarm_state (swarm_disk (replicate 24 0)) swarm_seeds = Ok ls /\
    take_turns good_disk good_disk swarm_config swarm_writer (concat swarm_rounds)
      (mkSwarm swarm_state (swarm_disk (replicate 24 0)) ls) = Ok g /\
    is_complete swarm_config (sw_pieces g) = true /\
    @read_piece good_disk swarm_writer 0 (sw_disk g) = Ok (replicate 16 7) /\
    @read_piece good_disk swarm_writer 1 (sw_disk g) = Ok (replicate 8 9).
Proof.
  intros SH.
  destruct (swarm_downloads SH good_disk good_disk swarm_config swarm_writer swarm_piece swarm_hash (replicate 20 0) swarm_state
    (swarm_disk (replicate 24 0)) swarm_seeds) as (ls & E & _ & H).
  - exact swarm_geometry.
  - cbn. lia.
  - exact good_disk_ok.
  - constructor; try (cbn; lia); [done|apply NoDup_singleton].
  - constructor; [reflexivity|]. apply Forall_singleton. exists (replicate 24 0). split; [apply lookup_singleton_eq|reflexivity].
  - reflexivity.
  - intros [|[|i]] Hi; [split; reflexivity|split; reflexivity|vm_compute in Hi; lia].
  - apply (bool_decide_unpack (ih_ok swarm_hash)). vm_compute. exact I.
  - reflexivity.
  - exact swarm_seeds_ok.
  - intros [|[|i]] Hi; [exists (nth 0 swarm_seeds (mkSeed [] swarm_writer sample_server))
      |exists (nth 1 swarm_seeds (mkSeed [] swarm_writer sample_server))|vm_compute in Hi; lia]; (split; [|reflexivity]).
    + left.
    + right. left.
  - exists ls. destruct (H swarm_rounds) as (g & Eg & Hc & _ & Hr).
    + apply Forall_replicate. intros [|[|j]] Hj; [split; repeat constructor..|vm_compute in Hj; lia].
    + vm_compute. lia.
    + exists g. split; [exact E|]. split; [exact Eg|]. split; [exact Hc|]. split; [apply (Hr 0%nat)|apply (Hr 1%nat)]; vm_compute; lia.
Defined.
