(* ===== verification/Net.v ===== *)
(** * Name resolution and exceptions across the network code
    (src/net/socket.cpp [dns_lookup])

    Sockets themselves are the operating system's; each user of one states what the
    operations it calls may return.  What [dns_lookup] does with the list that
    [getaddrinfo] returns is modelled here, together with what a
    [catch (const std::exception&)] stops. *)

From S2P Require Import Prelude.

(** [ai_family] *)
Inductive Family := AF_INET | AF_INET6 | AF_OTHER.

#[global] Instance Family_eq_dec : EqDecision Family.
Proof. solve_decision. Defined.

(** What [catch (const std::exception&)] stops: undefined behaviour is not an
    exception, nor is a signal. *)
Definition catchable (e : exn) : bool :=
  match e with Undefined _ | Sigpipe | OutOfFuel => false | _ => true end.

Section dns.
Context {A : Type}.

(** [p->ai_family] is AF_INET or AF_INET6 *)
Definition usable (p : Family * A) : bool :=
  match p.1 with AF_INET | AF_INET6 => true | AF_OTHER => false end.

(** [dns_lookup]; [res] is the list [getaddrinfo] returned, [None] an error status. *)
Definition dns_lookup (res : option (list (Family * A))) : result (list (Family * A)) :=
  match res with
  | None => Throw (RuntimeError "getaddrinfo() failed")
  | Some l => Ok (List.filter usable l)
  end.

Lemma dns_lookup_usable res l p :
  dns_lookup res = Ok l -> p ∈ l -> p.1 <> AF_OTHER.
Proof.
  unfold dns_lookup. destruct res as [r|]; [|done]. intros [= <-] [_ Hp]%list_elem_of_In%filter_In.
  unfold usable in Hp. by destruct p as [[] ?].
Qed.
End dns.
