(* ===== verification/Dns.v ===== *)
(** * Looking up a host (src/net/socket.cpp: dns_lookup)

    [dns_lookup] over the resolver of the C library, a function from what it is asked to the
    list it returns.  The trackers use it as [Net.dns_lookup], which leaves open what an
    address is; here it is an [Address], and the two agree. *)

From S2P Require Import Prelude CxxLib Addr SockAddr Net.

(** An entry of the list: its family decides what [ai_addr] points to. *)
Inductive AddrInfo := AiIn (a : sockaddr_in) | AiIn6 (a : sockaddr_in6) | AiOther.

(** [getaddrinfo] with a host, a port in digits and a socket type; [None] is an error status. *)
Class Resolver := getaddrinfo : bytes -> bytes -> Z -> option (list AddrInfo).

Section dns.
Context `{Inet, Inet6, Resolver}.

(** The body of the loop *)
Definition push_address (addresses : list Address) (p : AddrInfo) : list Address :=
  match p with
  | AiIn a => addresses ++ [ipv4_of_sockaddr a]
  | AiIn6 a => addresses ++ [ipv6_of_sockaddr a]
  | AiOther => addresses
  end.

Definition dns_lookup (hostname port : bytes) (socket_type : Z) : result (list Address) :=
  if negb (socket_type =? SOCK_STREAM) && negb (socket_type =? SOCK_DGRAM)
  then Throw (RuntimeError "Socket type has to be one of these two options")
  else
    match getaddrinfo (c_str hostname) (c_str port) socket_type with
    | None => Throw (RuntimeError "getaddrinfo() failed")
    | Some res => Ok (fold_left push_address res [])
    end.

(** ** The two views agree *)

Definition info_family (p : AddrInfo) : Family :=
  match p with AiIn _ => Net.AF_INET | AiIn6 _ => Net.AF_INET6 | AiOther => AF_OTHER end.

Definition info_address (p : AddrInfo) : option Address :=
  match p with AiIn a => Some (ipv4_of_sockaddr a) | AiIn6 a => Some (ipv6_of_sockaddr a) | AiOther => None end.

Lemma pushed_addresses res acc : fold_left push_address res acc = acc ++ omap info_address res.
Proof.
  revert acc. induction res as [|p res IH]; intros acc; cbn [fold_left]; [by rewrite app_nil_r|].
  rewrite IH. destruct p; cbn [push_address]; [by rewrite <- app_assoc|by rewrite <- app_assoc|done].
Qed.

Lemma omap_usable res :
  omap info_address res = omap (fun x => info_address (snd x)) (List.filter usable (map (fun p => (info_family p, p)) res)).
Proof. induction res as [|p res IH]; [done|]. destruct p; cbn; by rewrite IH. Qed.

(** What the trackers are given are the addresses of the entries [Net.dns_lookup] keeps, in
    the resolver's order; each has the family and the port of its entry. *)
Lemma dns_lookup_agrees hostname port socket_type :
  socket_type ∈ [SOCK_STREAM; SOCK_DGRAM] ->
  dns_lookup hostname port socket_type
  = match Net.dns_lookup (option_map (map (fun p => (info_family p, p))) (getaddrinfo (c_str hostname) (c_str port) socket_type)) with
    | Ok l => Ok (omap (fun x => info_address (snd x)) l)
    | Throw e => Throw e
    end.
Proof.
  intros Ht. unfold dns_lookup.
  assert (negb (socket_type =? SOCK_STREAM) && negb (socket_type =? SOCK_DGRAM) = false) as ->.
  { apply elem_of_cons in Ht as [->|[->|[]%not_elem_of_nil]%elem_of_cons]; done. }
  destruct (getaddrinfo _ _ _) as [res|]; [|done]. cbn. by rewrite pushed_addresses, omap_usable.
Qed.

Lemma dns_lookup_ports hostname port socket_type res l p :
  dns_lookup hostname port socket_type = Ok l ->
  getaddrinfo (c_str hostname) (c_str port) socket_type = Some res ->
  0 <= p < 2 ^ 16 -> (forall a, AiIn a ∈ res -> sin_port a = htons p) ->
  forall a q, a ∈ l -> port4 a = Some q -> q = p.
Proof.
  unfold dns_lookup. case_if; [done|]. intros E Hres Hp Hports a q Ha Hq. rewrite Hres in E. injection E as <-.
  rewrite pushed_addresses in Ha. cbn [app] in Ha. apply list_elem_of_omap in Ha as (x & Hx & Ex).
  destruct x as [s|s|]; cbn in Ex; [| |done]; injection Ex as <-; [|done]. cbn in Hq. injection Hq as <-.
  rewrite (Hports s Hx). by apply ntohs_htons, Hp.
Qed.
End dns.
