(* ===== verification/Tracker.v ===== *)
(** * What the torrent manager asks of a tracker
    (inc/trackers/tracker_communicator.h, inc/trackers/tracker_scrape_stats.h)

    The arguments of an announce, the statistics of a scrape, and the abstract class
    [TrackerCommunicator] as a record of its virtual functions; UdpTracker and HttpTracker
    give the two implementations and TrackerFactory chooses between them. *)

From S2P Require Import Prelude Hash Addr TorrentFile.

(** The arguments of [announce] but the tracker. *)
Record AnnounceArgs := mkArgs {
  an_info_hash : InfoHash; an_peer_id : bytes; an_downloaded : Z; an_left : Z;
  an_uploaded : Z; an_event : Z; an_port : Z }.

(** [struct TrackerScrapeStats]; [downloaded] is a [std::optional]. *)
Record TrackerScrapeStats := mkStats {
  ts_complete : Z; ts_incomplete : Z; ts_downloaded : option Z }.

(** [class TrackerCommunicator] *)
Record TrackerCommunicator := mkCommunicator {
  tc_announce : TrackerDetails -> AnnounceArgs -> result (list PeerAddress);
  tc_scrape : TrackerDetails -> InfoHash -> result TrackerScrapeStats }.

(** The default [scrape] of the base class. *)
Definition scrape_unsupported (tracker : TrackerDetails) (info_hash : InfoHash)
  : result TrackerScrapeStats :=
  Throw (RuntimeError "Scrape is not supported").

(** The arguments have their C++ types: 64-, 32- and 16-bit unsigned integers, twenty
    bytes of hash and of peer id. *)
Record args_ok (a : AnnounceArgs) : Prop := {
  args_hash : ih_ok (an_info_hash a);
  args_peer_id : length (an_peer_id a) = 20%nat /\ bytes_ok (an_peer_id a);
  args_downloaded : 0 <= an_downloaded a < 2 ^ 64;
  args_left : 0 <= an_left a < 2 ^ 64;
  args_uploaded : 0 <= an_uploaded a < 2 ^ 64;
  args_event : 0 <= an_event a < 2 ^ 32;
  args_port : 0 <= an_port a < 2 ^ 16;
}.

Definition sample_args : AnnounceArgs :=
  mkArgs (mkInfoHash (replicate 20 7)) (replicate 20 45) 0 1048576 0 2 6881.

Lemma sample_args_ok : args_ok sample_args.
Proof. split; refine (bool_decide_unpack _ _); vm_compute; exact I. Qed.
