(* ===== verification/UdpTracker.v ===== *)
(** * Announcing to a UDP tracker (BEP 15)
    (inc/trackers/udp_tracker_communicator.h, src/trackers/udp_tracker_communicator.cpp)

    The messages, the two retransmission loops and the walk over the resolved
    addresses.  The socket is a function [Socket] from everything sent on it so far to
    what the next [poll]/[recvfrom] gives, so a tracker may answer, stay silent, send
    anything, or fail at any attempt; the random numbers are arguments.  Every
    message sent is recorded with the time-out the client then waits.  Writing an
    IPv6 address ([inet_ntop]) belongs to the C library and is a parameter. *)

From S2P Require Import Prelude CxxLib ByteOrder Hash Addr TorrentFile Net Tracker.

(** ** Messages *)

Record ConnectionReq := mkConnectionReq {
  cq_protocol_id : Z; cq_action : Z; cq_transaction_id : Z }.

(** The default member initialisers: the magic constant and action 0. *)
Definition new_connection_req (transaction_id : Z) : ConnectionReq :=
  mkConnectionReq 0x41727101980 0 transaction_id.

Definition connection_req_serialize (r : ConnectionReq) : bytes :=
  write_be64 (cq_protocol_id r) ++ write_be32 (cq_action r)
  ++ write_be32 (cq_transaction_id r).

Record ConnectionResp := mkConnectionResp {
  cr_action : Z; cr_transaction_id : Z; cr_connection_id : Z }.

Definition connection_resp_deserialize (data : bytes) : result ConnectionResp :=
  throw_if (length data <? 16)%nat (RuntimeError "Connection response too short");;
  Ok (mkConnectionResp (read_be32 data) (read_be32 (drop 4 data)) (read_be64 (drop 8 data))).

(** [num_want] is an [int32_t]. *)
Record AnnounceReq := mkAnnounceReq {
  aq_connection_id : Z; aq_action : Z; aq_transaction_id : Z;
  aq_info_hash : InfoHash; aq_peer_id : bytes;
  aq_downloaded : Z; aq_left : Z; aq_uploaded : Z;
  aq_event : Z; aq_ip : Z; aq_key : Z; aq_num_want : Z; aq_port : Z }.

Definition announce_req_serialize (r : AnnounceReq) : bytes :=
  write_be64 (aq_connection_id r) ++ write_be32 (aq_action r)
  ++ write_be32 (aq_transaction_id r) ++ ih_bytes (aq_info_hash r) ++ aq_peer_id r
  ++ write_be64 (aq_downloaded r) ++ write_be64 (aq_left r) ++ write_be64 (aq_uploaded r)
  ++ write_be32 (aq_event r) ++ write_be32 (aq_ip r) ++ write_be32 (aq_key r)
  ++ write_be32 (u32 (aq_num_want r)) ++ write_be16 (aq_port r).

Record AnnounceResp := mkAnnounceResp {
  ar_action : Z; ar_transaction_id : Z; ar_interval : Z; ar_leechers : Z;
  ar_seeders : Z; ar_peers : list PeerAddress }.

Section messages.
(** [inet_ntop(AF_INET6, ...)] into a buffer of [INET6_ADDRSTRLEN] bytes. *)
Context (inet_ntop6 : bytes -> bytes).

(** One entry of the peer list, at the start of its argument. *)
Definition peer_entry (is_ipv6 : bool) (p : bytes) : PeerAddress :=
  if is_ipv6 then mkPeer (inet_ntop6 (take 16 p)) (read_be16 (drop 16 p))
  else
    let at_ i := to_string (nth i p 0) in
    mkPeer (at_ 0%nat ++ str "." ++ at_ 1%nat ++ str "." ++ at_ 2%nat ++ str "." ++ at_ 3%nat)
           (read_be16 (drop 4 p)).

Definition stride (is_ipv6 : bool) : nat := if is_ipv6 then 18 else 6.

(** The loop over the entries; each round advances by [stride], so the length of the
    data bounds the rounds. *)
Fixpoint peers_loop (fuel : nat) (is_ipv6 : bool) (peer_data : bytes) (i : nat)
  : list PeerAddress :=
  match fuel with
  | O => []
  | S f =>
      if (i + stride is_ipv6 <=? length peer_data)%nat
      then peer_entry is_ipv6 (drop i peer_data)
           :: peers_loop f is_ipv6 peer_data (i + stride is_ipv6)
      else []
  end.

Definition announce_resp_deserialize (data : bytes) (is_ipv6 : bool) : result AnnounceResp :=
  throw_if (length data <? 20)%nat (RuntimeError "Announce response too short");;
  let peer_data := drop 20 data in
  Ok (mkAnnounceResp (read_be32 data) (read_be32 (drop 4 data)) (read_be32 (drop 8 data))
        (read_be32 (drop 12 data)) (read_be32 (drop 16 data))
        (peers_loop (S (length peer_data)) is_ipv6 peer_data 0)).

(** ** The socket *)

(** What one attempt meets: [sendto] throws, nothing readable arrives before the
    time-out, [recvfrom] throws, or a datagram. *)
Inductive Reply :=
  | SendFails
  | Silent
  | RecvFails
  | Datagram (data : bytes).

(** From all the messages sent on the socket, the last one included. *)
Definition Socket : Type := list bytes -> Reply.

Definition MAX_RETRANSMISSIONS : nat := 8.

(** [15000 * (1 << n)] *)
Definition timeout_ms (n : nat) : Z := 15000 * Z.shiftl 1 (Z.of_nat n).

(** [for (n = 0; n <= MAX_RETRANSMISSIONS; ++n)]: send, wait, and let [handle] decide
    about a datagram, [None] being [continue].  [ns] are the attempts left and [sent]
    what was sent before, with the time-outs. *)
Fixpoint retransmit {A} (net : Socket) (msg : bytes) (handle : bytes -> option (result A))
    (timed_out : exn) (ns : list nat) (sent : list (bytes * Z))
  : result A * list (bytes * Z) :=
  match ns with
  | [] => (Throw timed_out, sent)
  | n :: ns' =>
      let sent' := sent ++ [(msg, timeout_ms n)] in
      match net (map fst sent') with
      | SendFails => (Throw (RuntimeError "sendto() failed"), sent)
      | Silent => retransmit net msg handle timed_out ns' sent'
      | RecvFails => (Throw (RuntimeError "recvfrom() failed"), sent')
      | Datagram data =>
          match handle data with
          | Some r => (r, sent')
          | None => retransmit net msg handle timed_out ns' sent'
          end
      end
  end.

(** The error text of an action-3 datagram is built from the iterators
    [data.begin() + 8] and [data.end()]: with fewer than eight bytes they are not a
    range. *)
Definition tracker_error (what : string) (data : bytes) : exn :=
  if (length data <? 8)%nat then Undefined "iterator past the end of the datagram"
  else RuntimeError what.

(** The body of the connect loop after [recvfrom]. *)
Definition on_connect_datagram (transaction_id : Z) (data : bytes)
  : option (result ConnectionResp) :=
  if (length data <? 4)%nat then None
  else if read_be32 data =? 3 then Some (Throw (tracker_error "Tracker error (connect)" data))
  else if (length data <? 16)%nat then None
  else match connection_resp_deserialize data with
       | Throw e => Some (Throw e)
       | Ok conn_resp =>
           if negb (cr_transaction_id conn_resp =? transaction_id) then None
           else if negb (cr_action conn_resp =? 0)
           then Some (Throw (RuntimeError "Unexpected action in connect response"))
           else Some (Ok conn_resp)
       end.

(** The body of the announce loop after [recvfrom]. *)
Definition on_announce_datagram (is_ipv6 : bool) (transaction_id : Z) (data : bytes)
  : option (result (list PeerAddress)) :=
  if (length data <? 4)%nat then None
  else if read_be32 data =? 3 then Some (Throw (tracker_error "Tracker error (announce)" data))
  else if (length data <? 20)%nat then None
  else match announce_resp_deserialize data is_ipv6 with
       | Throw e => Some (Throw e)
       | Ok ann_resp =>
           if negb (ar_transaction_id ann_resp =? transaction_id) then None
           else if negb (ar_action ann_resp =? 1)
           then Some (Throw (RuntimeError "Unexpected action in announce response"))
           else Some (Ok (ar_peers ann_resp))
       end.

(** The three draws of [random_transaction_id] for one address. *)
Record Draws := mkDraws { connect_txn : Z; announce_txn : Z; announce_key : Z }.

(** The announce request of [try_announce_to]; the other fields keep their defaults. *)
Definition new_announce_req (a : AnnounceArgs) (d : Draws) (connection_id : Z) : AnnounceReq :=
  mkAnnounceReq connection_id 1 (announce_txn d) (an_info_hash a) (an_peer_id a)
    (an_downloaded a) (an_left a) (an_uploaded a) (an_event a) 0 (announce_key d) (-1)
    (an_port a).

Definition attempts : list nat := seq 0 (S MAX_RETRANSMISSIONS).

Definition connect_phase (net : Socket) (d : Draws) : result ConnectionResp * list (bytes * Z) :=
  retransmit net (connection_req_serialize (new_connection_req (connect_txn d)))
    (on_connect_datagram (connect_txn d))
    (RuntimeError "UDP tracker connect timed out after all retransmissions") attempts [].

Definition announce_phase (net : Socket) (is_ipv6 : bool) (d : Draws) (req : AnnounceReq)
    (sent : list (bytes * Z)) : result (list PeerAddress) * list (bytes * Z) :=
  retransmit net (announce_req_serialize req)
    (on_announce_datagram is_ipv6 (announce_txn d))
    (RuntimeError "UDP tracker announce timed out after all retransmissions") attempts sent.

Definition try_announce_to (net : Socket) (is_ipv6 : bool) (a : AnnounceArgs) (d : Draws)
  : result (list PeerAddress) * list (bytes * Z) :=
  match connect_phase net d with
  | (Throw e, sent) => (Throw e, sent)
  | (Ok conn_resp, sent) =>
      announce_phase net is_ipv6 d (new_announce_req a d (cr_connection_id conn_resp)) sent
  end.

(** A resolved address: the socket opened for it ([None] when the constructor throws)
    and the random numbers drawn while it is tried. *)
Record Endpoint := mkEndpoint { ep_net : option Socket; ep_draws : Draws }.

Definition try_endpoint (a : AnnounceArgs) (addr : Family * Endpoint)
  : result (list PeerAddress) :=
  match ep_net addr.2 with
  | None => Throw (RuntimeError "Failed to create socket")
  | Some net => fst (try_announce_to net (bool_decide (addr.1 = AF_INET6)) a (ep_draws addr.2))
  end.

(** The loop over the resolved addresses with its [try]/[catch]. *)
Fixpoint announce_addresses (a : AnnounceArgs) (addresses : list (Family * Endpoint))
  : result (list PeerAddress) :=
  match addresses with
  | [] => Throw (RuntimeError "UDP announce failed on all resolved addresses")
  | addr :: rest =>
      match try_endpoint a addr with
      | Ok peers => Ok peers
      | Throw e => if catchable e then announce_addresses a rest else Throw e
      end
  end.

(** [announce]; [res] is what [getaddrinfo] returns for the tracker's host. *)
Definition udp_announce (tracker : TrackerDetails) (a : AnnounceArgs)
    (res : option (list (Family * Endpoint))) : result (list PeerAddress) :=
  throw_if (negb (bool_decide (scheme (protocol tracker) = scheme UDP)))
    (RuntimeError "UDPTrackerCommunicator used with non-UDP tracker");;
  addresses ← dns_lookup res;
  throw_if (bool_decide (addresses = [])) (RuntimeError "DNS lookup returned no results");;
  announce_addresses a addresses.
End messages.

(** ** The announce request on the wire

    [decode_announce_req] reads a request at the offsets of the table in BEP 15 that the
    header repeats. *)

Definition decode_announce_req (m : bytes) : AnnounceReq :=
  mkAnnounceReq (read_be64 m) (read_be32 (drop 8 m)) (read_be32 (drop 12 m))
    (mkInfoHash (slice 16 36 m)) (slice 36 56 m)
    (read_be64 (drop 56 m)) (read_be64 (drop 64 m)) (read_be64 (drop 72 m))
    (read_be32 (drop 80 m)) (read_be32 (drop 84 m)) (read_be32 (drop 88 m))
    (to_i32 (read_be32 (drop 92 m))) (read_be16 (drop 96 m)).

Record draws_ok (d : Draws) : Prop := {
  draws_connect : 0 <= connect_txn d < 2 ^ 32;
  draws_announce : 0 <= announce_txn d < 2 ^ 32;
  draws_key : 0 <= announce_key d < 2 ^ 32;
}.

Lemma decode_announce_serialize a d cid :
  args_ok a -> draws_ok d -> 0 <= cid < 2 ^ 64 ->
  decode_announce_req (announce_req_serialize (new_announce_req a d cid))
  = new_announce_req a d cid.
Proof.
  intros [[Hh _] [Hp _] Hd Hl Hu He Hport] [_ Ha Hk] Hcid.
  destruct a as [[h] p dn lf up ev po], d as [ct at_ ak]; cbn in Hh, Hp, Hd, Hl, Hu, He, Hport, Ha, Hk.
  do 20 (destruct h as [|? h]; [discriminate|]). destruct h; [|discriminate].
  do 20 (destruct p as [|? p]; [discriminate|]). destruct p; [|discriminate].
  unfold decode_announce_req, announce_req_serialize, new_announce_req; cbn [slice take drop app].
  cbn [aq_connection_id aq_action aq_transaction_id aq_info_hash aq_peer_id aq_downloaded
       aq_left aq_uploaded aq_event aq_ip aq_key aq_num_want aq_port an_info_hash an_peer_id
       an_downloaded an_left an_uploaded an_event an_port connect_txn announce_txn announce_key
       ih_bytes].
  f_equal;
    first [exact (read_write_be64 _ _ Hcid)|exact (read_write_be32 _ _ Ha)
          |exact (read_write_be64 _ _ Hd)|exact (read_write_be64 _ _ Hl)
          |exact (read_write_be64 _ _ Hu)|exact (read_write_be32 _ _ He)
          |exact (read_write_be32 _ _ Hk)|exact (read_write_be16 _ [] Hport)|reflexivity].
Qed.

(** ** The peer list *)

Definition entry_ok (is_ipv6 : bool) (e : bytes * Z) : Prop :=
  length e.1 = (stride is_ipv6 - 2)%nat /\ 0 <= e.2 < 2 ^ 16.

#[global] Instance entry_ok_dec is_ipv6 e : Decision (entry_ok is_ipv6 e).
Proof. unfold entry_ok. apply _. Defined.

(** The address bytes and port of every peer, as BEP 15 lays them out. *)
Definition encode_entries (es : list (bytes * Z)) : bytes :=
  concat (map (fun e => e.1 ++ write_be16 e.2) es).

Section peers.
Context (inet_ntop6 : bytes -> bytes) (is_ipv6 : bool).

(** The peer the client makes of an entry. *)
Definition entry_peer (e : bytes * Z) : PeerAddress :=
  mkPeer (if is_ipv6 then inet_ntop6 e.1 else dotted e.1) e.2.

Lemma length_entry e : entry_ok is_ipv6 e -> length (e.1 ++ write_be16 e.2) = stride is_ipv6.
Proof. intros [He _]. rewrite length_app, He. by destruct is_ipv6. Qed.

Lemma peer_entry_app e s :
  entry_ok is_ipv6 e -> peer_entry inet_ntop6 is_ipv6 ((e.1 ++ write_be16 e.2) ++ s) = entry_peer e.
Proof.
  destruct e as [b p]. intros [Hb Hp]; cbn [fst snd] in *. rewrite <- app_assoc.
  unfold peer_entry, entry_peer, stride in *; cbn [fst snd]. destruct is_ipv6; cbn [Nat.sub] in Hb.
  - rewrite take_app_length', drop_app_length' by done. by rewrite read_write_be16.
  - destruct b as [|b0 [|b1 [|b2 [|b3 [|]]]]]; try discriminate.
    rewrite (drop_app_length' [b0; b1; b2; b3]), read_write_be16 by done. reflexivity.
Qed.

Lemma stride_pos : (0 < stride is_ipv6)%nat.
Proof. unfold stride. destruct is_ipv6; lia. Qed.

Lemma peers_loop_entries fuel pre es tail :
  Forall (entry_ok is_ipv6) es -> (length tail < stride is_ipv6)%nat -> (length es < fuel)%nat ->
  peers_loop inet_ntop6 fuel is_ipv6 (pre ++ encode_entries es ++ tail) (length pre)
  = map entry_peer es.
Proof.
  intros Hes Ht. revert fuel pre.
  induction Hes as [|e es He Hes IH]; intros fuel pre Hf;
    (destruct fuel as [|f]; [cbn in Hf; lia|]); cbn [peers_loop encode_entries map concat].
  - cbn [app]. rewrite length_app, (proj2 (Nat.leb_gt _ _)) by lia. done.
  - pose proof (length_entry e He) as Hl.
    rewrite length_app, <- app_assoc, length_app, Hl, (proj2 (Nat.leb_le _ _)) by lia.
    rewrite drop_app_length, peer_entry_app by done. f_equal.
    rewrite <- Hl, <- length_app, app_assoc. apply IH. cbn in Hf. lia.
Qed.

Lemma length_encode_entries es :
  Forall (entry_ok is_ipv6) es -> length (encode_entries es) = (stride is_ipv6 * length es)%nat.
Proof.
  induction 1 as [|e es He _ IH]; [cbn; lia|]. unfold encode_entries in *; cbn [map concat].
  rewrite length_app, length_entry, IH by done. cbn [length]. lia.
Qed.

(** The list is never longer than the bytes allow. *)
Lemma peers_loop_length fuel data i :
  (i <= length data)%nat ->
  (length (peers_loop inet_ntop6 fuel is_ipv6 data i) * stride is_ipv6 <= length data - i)%nat.
Proof.
  revert i. induction fuel as [|f IH]; intros i Hi; cbn [peers_loop]; [cbn; lia|].
  case_if; b2p; [|cbn; lia]. cbn [length]. specialize (IH (i + stride is_ipv6)%nat). lia.
Qed.
End peers.

(** ** The retransmission loop *)

(** The attempts from number [s] to [s + k - 1], each with its time-out. *)
Definition attempts_of (msg : bytes) (s k : nat) : list (bytes * Z) :=
  map (fun n => (msg, timeout_ms n)) (seq s k).

Lemma attempts_of_S msg s k :
  attempts_of msg s (S k) = (msg, timeout_ms s) :: attempts_of msg (S s) k.
Proof. done. Qed.

Lemma map_fst_attempts msg s k : map fst (attempts_of msg s k) = replicate k msg.
Proof.
  revert s. induction k as [|k IH]; intros s; [done|].
  rewrite attempts_of_S. cbn [map fst replicate]. by rewrite IH.
Qed.

Section retransmit.
Context {A : Type} (net : Socket) (msg : bytes) (handle : bytes -> option (result A)) (timed_out : exn).

(** What makes the loop go round once more. *)
Definition ignored (r : Reply) : Prop :=
  match r with Silent => True | Datagram d => handle d = None | _ => False end.

Lemma retransmit_ignored n ns sent :
  ignored (net (map fst sent ++ [msg])) ->
  retransmit net msg handle timed_out (n :: ns) sent
  = retransmit net msg handle timed_out ns (sent ++ [(msg, timeout_ms n)]).
Proof.
  cbn [retransmit]. rewrite map_app; cbn [map fst].
  destruct (net _) as [| | |d]; cbn; try done. by intros ->.
Qed.

Lemma retransmit_answered k s m sent data r :
  (k < m)%nat ->
  (forall i, (i < k)%nat -> ignored (net (map fst sent ++ replicate (S i) msg))) ->
  net (map fst sent ++ replicate (S k) msg) = Datagram data -> handle data = Some r ->
  retransmit net msg handle timed_out (seq s m) sent = (r, sent ++ attempts_of msg s (S k)).
Proof.
  revert s m sent. induction k as [|k IH]; intros s m sent Hk Hi Hd Hr;
    (destruct m as [|m]; [lia|]); cbn [seq].
  - cbn [retransmit]. rewrite map_app; cbn [map fst]. cbn [replicate] in Hd.
    by rewrite Hd, Hr.
  - rewrite retransmit_ignored by (apply (Hi 0%nat); lia).
    rewrite (IH (S s) m); [|lia| | |done].
    + by rewrite (attempts_of_S msg s), <- app_assoc.
    + intros i ?. rewrite map_app, <- app_assoc. apply (Hi (S i)). lia.
    + rewrite map_app, <- app_assoc. exact Hd.
Qed.

Lemma retransmit_unanswered s m sent :
  (forall i, (i < m)%nat -> ignored (net (map fst sent ++ replicate (S i) msg))) ->
  retransmit net msg handle timed_out (seq s m) sent
  = (Throw timed_out, sent ++ attempts_of msg s m).
Proof.
  revert s sent. induction m as [|m IH]; intros s sent Hi; cbn [seq].
  { by rewrite app_nil_r. }
  rewrite retransmit_ignored by (apply (Hi 0%nat); lia). rewrite IH.
  - by rewrite (attempts_of_S msg s), <- app_assoc.
  - intros i ?. rewrite map_app, <- app_assoc. apply (Hi (S i)). lia.
Qed.

(** Whatever the network does: at most [m] sends, and a result other than the loop's own
    exceptions comes from a datagram that answers the last message sent. *)
Lemma retransmit_inv s m sent r sent' :
  retransmit net msg handle timed_out (seq s m) sent = (r, sent') ->
  exists k, (k <= m)%nat /\ sent' = sent ++ attempts_of msg s k /\
    (r = Throw timed_out \/ r = Throw (RuntimeError "sendto() failed")
     \/ r = Throw (RuntimeError "recvfrom() failed")
     \/ exists data, net (map fst sent') = Datagram data /\ handle data = Some r /\ (0 < k)%nat).
Proof.
  revert s sent. induction m as [|m IH]; intros s sent; cbn [seq retransmit].
  { intros [= <- <-]. exists 0%nat. rewrite app_nil_r. auto. }
  assert (Hagain : retransmit net msg handle timed_out (seq (S s) m) (sent ++ [(msg, timeout_ms s)])
                   = (r, sent') -> exists k, (k <= S m)%nat /\ sent' = sent ++ attempts_of msg s k /\
    (r = Throw timed_out \/ r = Throw (RuntimeError "sendto() failed")
     \/ r = Throw (RuntimeError "recvfrom() failed")
     \/ exists data, net (map fst sent') = Datagram data /\ handle data = Some r /\ (0 < k)%nat)).
  { intros (k & Hk & -> & Hr)%IH. exists (S k). split; [lia|].
    rewrite attempts_of_S, <- app_assoc. split; [done|].
    rewrite <- app_assoc in Hr. destruct Hr as [?|[?|[?|(d & ? & ? & ?)]]]; [by auto..|].
    do 3 right. exists d. auto with lia. }
  destruct (net (map fst (sent ++ [(msg, timeout_ms s)]))) as [| | |d] eqn:En.
  - intros [= <- <-]. exists 0%nat. rewrite app_nil_r. split; [lia|]. auto.
  - exact Hagain.
  - intros [= <- <-]. exists 1%nat. split; [lia|]. auto.
  - destruct (handle d) as [r'|] eqn:Eh; [|exact Hagain].
    intros [= <- <-]. exists 1%nat. split; [lia|]. split; [done|].
    do 3 right. exists d. auto with lia.
Qed.
End retransmit.

(** ** A tracker's side of BEP 15 *)

Definition connect_reply (txn cid : Z) (extra : bytes) : bytes :=
  write_be32 0 ++ write_be32 txn ++ write_be64 cid ++ extra.

(** Action 1, the transaction, then interval, leechers and seeders, then the peers; [tail]
    is what may follow the last whole entry. *)
Definition announce_reply (txn interval leechers seeders : Z) (es : list (bytes * Z)) (tail : bytes)
  : bytes :=
  write_be32 1 ++ write_be32 txn ++ write_be32 interval ++ write_be32 leechers
  ++ write_be32 seeders ++ encode_entries es ++ tail.

(** What the client disregards while it waits for an answer of at least [min] bytes to
    transaction [txn]: silence, a datagram that is too short, or one for another
    transaction; but an error datagram is taken as an answer whatever its transaction. *)
Definition stray (min : nat) (txn : Z) (r : Reply) : Prop :=
  match r with
  | Silent => True
  | Datagram d =>
      (length d < 4)%nat
      \/ read_be32 d <> 3 /\ ((length d < min)%nat \/ read_be32 (drop 4 d) <> txn)
  | _ => False
  end.

Lemma stray_connect txn r : stray 16 txn r -> ignored (on_connect_datagram txn) r.
Proof.
  destruct r as [| | |d]; cbn; try done. unfold on_connect_datagram, connection_resp_deserialize.
  intros Hd. case_if; b2p; [done|].
  destruct Hd as [?|[Ha Hd]]; [lia|]. rewrite (proj2 (Z.eqb_neq _ _) Ha).
  case_if; b2p; [done|]. destruct Hd as [?|Ht]; [lia|]. cbn.
  by rewrite (proj2 (Z.eqb_neq _ _) Ht).
Qed.

Section delivery.
Context (inet_ntop6 : bytes -> bytes).

Lemma stray_announce is_ipv6 txn r :
  stray 20 txn r -> ignored (on_announce_datagram inet_ntop6 is_ipv6 txn) r.
Proof.
  destruct r as [| | |d]; cbn; try done. unfold on_announce_datagram, announce_resp_deserialize.
  intros Hd. case_if; b2p; [done|].
  destruct Hd as [?|[Ha Hd]]; [lia|]. rewrite (proj2 (Z.eqb_neq _ _) Ha).
  case_if; b2p; [done|]. destruct Hd as [?|Ht]; [lia|]. cbn.
  by rewrite (proj2 (Z.eqb_neq _ _) Ht).
Qed.

Lemma on_connect_reply txn cid extra :
  0 <= txn < 2 ^ 32 -> 0 <= cid < 2 ^ 64 ->
  on_connect_datagram txn (connect_reply txn cid extra) = Some (Ok (mkConnectionResp 0 txn cid)).
Proof.
  intros Ht Hc. unfold on_connect_datagram, connect_reply.
  pose proof (read_write_be32 txn (write_be64 cid ++ extra) Ht) as E1.
  pose proof (read_write_be64 cid extra Hc) as E2. cbn in E1, E2. cbn.
  rewrite E1, E2, Z.eqb_refl. done.
Qed.

Lemma on_announce_reply is_ipv6 txn interval leechers seeders es tail :
  0 <= txn < 2 ^ 32 -> Forall (entry_ok is_ipv6) es -> (length tail < stride is_ipv6)%nat ->
  on_announce_datagram inet_ntop6 is_ipv6 txn
    (announce_reply txn interval leechers seeders es tail)
  = Some (Ok (map (entry_peer inet_ntop6 is_ipv6) es)).
Proof.
  intros Ht Hes Htail. set (s := encode_entries es ++ tail).
  assert (peers_loop inet_ntop6 (S (length s)) is_ipv6 s 0 = map (entry_peer inet_ntop6 is_ipv6) es) as E.
  { apply (peers_loop_entries inet_ntop6 is_ipv6 _ [] es tail Hes Htail). unfold s.
    rewrite length_app, (length_encode_entries is_ipv6) by done.
    pose proof (stride_pos is_ipv6). nia. }
  pose proof (read_write_be32 txn (write_be32 interval ++ write_be32 leechers
    ++ write_be32 seeders ++ s) Ht) as E1.
  unfold on_announce_datagram, announce_reply, announce_resp_deserialize. fold s.
  cbn in E1. cbn -[peers_loop]. change (drop 0 s) with s.
  rewrite E1, Z.eqb_refl. by rewrite <- E.
Qed.
End delivery.

(** ** Properties *)

(** An address the loop of [announce] moves on from. *)
Definition passed_over inet_ntop6 (a : AnnounceArgs) (addr : Family * Endpoint) : Prop :=
  exists e, try_endpoint inet_ntop6 a addr = Throw e /\ catchable e = true.

Lemma announce_addresses_skip inet_ntop6 a failing addr rest ps :
  Forall (passed_over inet_ntop6 a) failing -> try_endpoint inet_ntop6 a addr = Ok ps ->
  announce_addresses inet_ntop6 a (failing ++ addr :: rest) = Ok ps.
Proof.
  intros Hf E. induction Hf as [|x failing (e & Ex & Hc) Hf IH]; cbn [app announce_addresses]; [by rewrite E|].
  by rewrite Ex, Hc.
Qed.

(** C18: announcing to a UDP tracker succeeds through loss.  On one address: if a tracker
    answers the connect request after at most eight attempts that met silence or strays
    (datagrams that are too short or of another transaction; an error datagram is never a
    stray, whatever its transaction), and then the announce request in the same way, the
    client gets exactly the peers of the answer, in order, for IPv4 and IPv6 entries
    alike, and its announce decodes, by BEP 15's table, to the connection id it was given,
    the torrent, the counters, the event and the port.  Its schedule is its own: attempt
    [i] of a phase waits at most 15 * 2^i seconds, a stray ends the wait and is followed by
    the next attempt at once, and the one connection id serves all the announces however
    long they take (BEP 15 lets it expire after a minute).  And [announce] returns those
    peers when the addresses resolved before this one fail with exceptions that can be
    caught, whatever addresses follow. *)
Theorem udp_announce_delivers inet_ntop6 (net : Socket) a d cid n1 n2 extra
    interval leechers seeders es tail tracker res failing family rest :
  let is_ipv6 := bool_decide (family = AF_INET6) in
  let creq := connection_req_serialize (new_connection_req (connect_txn d)) in
  let areq := announce_req_serialize (new_announce_req a d cid) in
  let answer := announce_reply (announce_txn d) interval leechers seeders es tail in
  args_ok a -> draws_ok d -> 0 <= cid < 2 ^ 64 ->
  (n1 <= 8)%nat -> (n2 <= 8)%nat ->
  (forall i, (i < n1)%nat -> stray 16 (connect_txn d) (net (replicate (S i) creq))) ->
  net (replicate (S n1) creq) = Datagram (connect_reply (connect_txn d) cid extra) ->
  (forall i, (i < n2)%nat ->
     stray 20 (announce_txn d) (net (replicate (S n1) creq ++ replicate (S i) areq))) ->
  net (replicate (S n1) creq ++ replicate (S n2) areq) = Datagram answer ->
  Forall (entry_ok is_ipv6) es -> (length tail < stride is_ipv6)%nat ->
  scheme (protocol tracker) = scheme UDP ->
  dns_lookup res = Ok (failing ++ (family, mkEndpoint (Some net) d) :: rest) ->
  Forall (passed_over inet_ntop6 a) failing ->
  let peers := map (entry_peer inet_ntop6 is_ipv6) es in
  try_announce_to inet_ntop6 net is_ipv6 a d
  = (Ok peers, attempts_of creq 0 (S n1) ++ attempts_of areq 0 (S n2))
  /\ decode_announce_req areq = new_announce_req a d cid
  /\ udp_announce inet_ntop6 tracker a res = Ok peers.
Proof.
  intros is_ipv6 creq areq answer Ha Hd Hcid H1 H2 Hs1 Hc Hs2 Hans Hes Htail Hsch Hdns Hfail peers.
  assert (try_announce_to inet_ntop6 net is_ipv6 a d
          = (Ok peers, attempts_of creq 0 (S n1) ++ attempts_of areq 0 (S n2))) as E.
  { destruct Hd as [Hdc Hda Hdk]. unfold try_announce_to, connect_phase, attempts.
    erewrite (retransmit_answered net _ _ _ n1 0 9 []);
      [|lia|intros i ?; by apply stray_connect, Hs1|exact Hc|by apply on_connect_reply].
    unfold announce_phase, attempts.
    erewrite (retransmit_answered net _ _ _ n2 0 9); [done|lia|..].
    - intros i ?. cbn [app]. rewrite map_fst_attempts. by apply stray_announce, Hs2.
    - cbn [app]. rewrite map_fst_attempts. exact Hans.
    - by apply on_announce_reply. }
  split; [exact E|]. split; [by apply decode_announce_serialize|].
  unfold udp_announce. rewrite (bool_decide_true _ Hsch). cbn [negb throw_if mbind result_bind].
  rewrite Hdns. cbn [mbind result_bind]. rewrite bool_decide_false by (by destruct failing).
  cbn [throw_if mbind result_bind]. apply announce_addresses_skip; [exact Hfail|].
  unfold try_endpoint. cbn [fst snd ep_net ep_draws]. fold is_ipv6. by rewrite E.
Qed.

Definition sample_draws : Draws := mkDraws 11 22 33.

Definition sample_entries : list (bytes * Z) := [([192; 168; 1; 7], 6881); ([10; 0; 0; 1], 51413)].

(** A tracker that loses the first connect request and answers the first announce with a
    truncated datagram, the second one with a datagram of another transaction. *)
Definition sample_net : Socket := fun sent =>
  match length sent with
  | 2%nat => Datagram (connect_reply 11 4242 [])
  | 3%nat => Datagram [0; 0]
  | 4%nat => Datagram (announce_reply 99 1800 1 1 [] [])
  | 5%nat => Datagram (announce_reply 22 1800 1 1 sample_entries [9])
  | _ => Silent
  end.

(** The tracker's host resolves to two addresses; no socket can be opened for the first. *)
Definition udp_sample_tracker : TrackerDetails := mkTracker UDP (str "t.example") 6969 [].

Definition sample_resolved : list (Family * Endpoint) :=
  [(AF_INET6, mkEndpoint None sample_draws); (AF_INET, mkEndpoint (Some sample_net) sample_draws)].

Lemma udp_announce_delivers_witness :
  udp_announce (fun b => b) udp_sample_tracker sample_args (Some sample_resolved)
  = Ok [mkPeer (str "192.168.1.7") 6881; mkPeer (str "10.0.0.1") 51413].
Proof.
  pose proof (udp_announce_delivers (fun b => b) sample_net sample_args sample_draws 4242
    1 2 [] 1800 1 1 sample_entries [9] udp_sample_tracker (Some sample_resolved)
    [(AF_INET6, mkEndpoint None sample_draws)] AF_INET []) as H.
  cbv zeta in H. destruct H as (_ & _ & H); [..|by rewrite H].
  - exact sample_args_ok.
  - split; by vm_compute.
  - by vm_compute.
  - lia.
  - lia.
  - intros i ?. assert (i = 0%nat) as -> by lia. exact I.
  - reflexivity.
  - intros i ?. assert (i = 0%nat \/ i = 1%nat) as [-> | ->] by lia.
    + left. vm_compute. lia.
    + right. vm_compute. split; [discriminate|]. right. discriminate.
  - reflexivity.
  - refine (bool_decide_unpack _ _); vm_compute; exact I.
  - vm_compute. lia.
  - reflexivity.
  - reflexivity.
  - apply Forall_singleton. eexists. split; reflexivity.
Defined.

(** What a datagram that ends the connect phase, and the announce phase, looks like. *)
Definition is_connect_reply (txn cid : Z) (data : bytes) : Prop :=
  (16 <= length data)%nat /\ read_be32 data = 0 /\ read_be32 (drop 4 data) = txn
  /\ read_be64 (drop 8 data) = cid.

Definition is_announce_reply inet_ntop6 (is_ipv6 : bool) (txn : Z) (ps : list PeerAddress)
    (data : bytes) : Prop :=
  (20 <= length data)%nat /\ read_be32 data = 1 /\ read_be32 (drop 4 data) = txn
  /\ ps = peers_loop inet_ntop6 (S (length (drop 20 data))) is_ipv6 (drop 20 data) 0.

(** Fewer than eight bytes whose action is "error". *)
Definition is_short_error (data : bytes) : Prop :=
  (4 <= length data < 8)%nat /\ read_be32 data = 3.

Definition is_runtime_error (e : exn) : bool :=
  match e with RuntimeError _ => true | _ => false end.

(** How a phase may end: as [ok] says for a value, and for an exception either with a
    [runtime_error] or, undefined, on a short error datagram. *)
Definition ends {A} (ok : A -> bytes -> Prop) (data : bytes) (r : result A) : Prop :=
  match r with
  | Ok x => ok x data
  | Throw (Undefined _) => is_short_error data
  | Throw e => is_runtime_error e = true
  end.

Lemma tracker_error_ends {A} (ok : A -> bytes -> Prop) what data :
  (4 <= length data)%nat -> read_be32 data = 3 ->
  ends ok data (Throw (tracker_error what data)).
Proof. intros. unfold tracker_error. case_if; b2p; cbn; [split; [lia|done]|done]. Qed.

Lemma on_connect_ends txn data r :
  on_connect_datagram txn data = Some r ->
  ends (fun c dat => is_connect_reply txn (cr_connection_id c) dat) data r.
Proof.
  unfold on_connect_datagram, connection_resp_deserialize.
  destruct (length data <? 4)%nat eqn:E4; [done|].
  destruct (read_be32 data =? 3) eqn:E3.
  { intros [= <-]. b2p. by apply tracker_error_ends. }
  destruct (length data <? 16)%nat eqn:E16; [done|]. cbn [throw_if mbind result_bind].
  cbn [cr_transaction_id cr_action].
  destruct (read_be32 (drop 4 data) =? txn) eqn:Et; [|done]. cbn [negb].
  destruct (read_be32 data =? 0) eqn:E0; cbn [negb]; intros [= <-]; [|done].
  b2p. by split.
Qed.

Lemma on_announce_ends inet_ntop6 is_ipv6 txn data r :
  on_announce_datagram inet_ntop6 is_ipv6 txn data = Some r ->
  ends (is_announce_reply inet_ntop6 is_ipv6 txn) data r.
Proof.
  unfold on_announce_datagram, announce_resp_deserialize.
  destruct (length data <? 4)%nat eqn:E4; [done|].
  destruct (read_be32 data =? 3) eqn:E3.
  { intros [= <-]. b2p. by apply tracker_error_ends. }
  destruct (length data <? 20)%nat eqn:E20; [done|]. cbn [throw_if mbind result_bind].
  cbn [ar_transaction_id ar_action ar_peers].
  destruct (read_be32 (drop 4 data) =? txn) eqn:Et; [|done]. cbn [negb].
  destruct (read_be32 data =? 1) eqn:E0; cbn [negb]; intros [= <-]; [|done].
  b2p. by split.
Qed.

Lemma attempts_times msg k :
  (k <= 9)%nat -> Forall (fun s => 0 < s.2 <= 3840000) (attempts_of msg 0 k).
Proof.
  intros Hk. apply Forall_fmap, Forall_seq. intros n Hn. cbn. unfold timeout_ms.
  rewrite Z.shiftl_1_l. assert (2 ^ 0 <= 2 ^ Z.of_nat n <= 2 ^ 8) by (split; apply Z.pow_le_mono_r; lia).
  lia.
Qed.

(** What the client may accept and how often it may send, whatever the network does:
    each request at most nine times, every time-out positive and below an hour and five
    minutes, so an [int]; peers are returned only from a datagram of the announce
    transaction, received after the announce request that carries the connection id of a
    datagram of the connect transaction, and there are no more of them than whole entries
    in that datagram.  A failure is a [runtime_error], except that an error datagram of
    four to seven bytes is undefined behaviour. *)
Theorem udp_announce_sound inet_ntop6 (net : Socket) is_ipv6 a d r sent :
  try_announce_to inet_ntop6 net is_ipv6 a d = (r, sent) ->
  let creq := connection_req_serialize (new_connection_req (connect_txn d)) in
  exists k1 k2 cid, (k1 <= 9)%nat /\ (k2 <= 9)%nat /\
  let areq := announce_req_serialize (new_announce_req a d cid) in
  sent = attempts_of creq 0 k1 ++ attempts_of areq 0 k2 /\
  Forall (fun s => 0 < s.2 <= 3840000) sent /\
  match r with
  | Ok ps => exists dc da, net (replicate k1 creq) = Datagram dc
      /\ is_connect_reply (connect_txn d) cid dc
      /\ net (replicate k1 creq ++ replicate k2 areq) = Datagram da
      /\ is_announce_reply inet_ntop6 is_ipv6 (announce_txn d) ps da
      /\ (length ps * stride is_ipv6 <= length da - 20)%nat
  | Throw (Undefined _) => exists data, net (map fst sent) = Datagram data /\ is_short_error data
  | Throw e => is_runtime_error e = true
  end.
Proof.
  intros E creq. unfold try_announce_to in E.
  destruct (connect_phase net d) as [rc sc] eqn:Ec.
  destruct (retransmit_inv _ _ _ _ _ _ _ _ _ Ec) as (k1 & Hk1 & Hsc & Hrc).
  cbn [app] in Hsc. fold creq in Hsc. unfold MAX_RETRANSMISSIONS in Hk1.
  destruct rc as [c|e].
  2: { injection E as <- <-. exists k1, 0%nat, 0. split; [lia|]. split; [lia|].
       cbv zeta. cbn [attempts_of seq map]. rewrite app_nil_r. split; [done|].
       split; [by rewrite Hsc; apply attempts_times|].
       destruct Hrc as [[= ->]|[[= ->]|[[= ->]|(dat & Hd & Hh & _)]]]; [done..|].
       apply on_connect_ends in Hh. destruct e; cbn in Hh; try done. by exists dat. }
  destruct Hrc as [?|[?|[?|(dc & Hdc & Hh & _)]]]; [done..|].
  apply on_connect_ends in Hh. cbn in Hh.
  destruct (retransmit_inv _ _ _ _ _ _ _ _ _ E) as (k2 & Hk2 & Hsa & Hra).
  unfold MAX_RETRANSMISSIONS in Hk2. exists k1, k2, (cr_connection_id c). split; [lia|]. split; [lia|]. cbv zeta.
  rewrite Hsc in Hsa. rewrite Hsc, map_fst_attempts in Hdc. split; [done|].
  split; [rewrite Hsa; apply Forall_app; split; by apply attempts_times|].
  destruct Hra as [->|[->|[->|(da & Hda & Hha & _)]]]; [done..|].
  apply on_announce_ends in Hha. pose proof Hda as Hda'.
  rewrite Hsa, map_app, !map_fst_attempts in Hda'.
  destruct r as [ps|e]; [|destruct e; cbn in Hha; try done; by exists da].
  exists dc, da. split; [done|]. split; [done|]. split; [done|]. split; [done|].
  destruct Hha as (? & _ & _ & ->).
  etransitivity; [apply peers_loop_length; lia|]. rewrite length_drop. lia.
Qed.

Lemma udp_announce_sound_witness :
  exists k1 k2, (k1 <= 9)%nat /\ (k2 <= 9)%nat /\
  length (snd (try_announce_to (fun b => b) sample_net false sample_args sample_draws)) = (k1 + k2)%nat.
Proof.
  destruct (udp_announce_sound (fun b => b) sample_net false sample_args sample_draws _ _
    (surjective_pairing _)) as (k1 & k2 & cid & H1 & H2 & H3 & _).
  exists k1, k2. split; [exact H1|]. split; [exact H2|]. rewrite H3.
  unfold attempts_of. by rewrite length_app, !length_map, !length_seq.
Defined.

(** When no attempt is answered the connect phase gives up after nine requests and
    7665 seconds. *)
Lemma udp_connect_times_out inet_ntop6 is_ipv6 (net : Socket) a d :
  let creq := connection_req_serialize (new_connection_req (connect_txn d)) in
  (forall i, (i < 9)%nat -> stray 16 (connect_txn d) (net (replicate (S i) creq))) ->
  try_announce_to inet_ntop6 net is_ipv6 a d
  = (Throw (RuntimeError "UDP tracker connect timed out after all retransmissions"),
     attempts_of creq 0 9)
  /\ foldr (fun s t => s.2 + t) 0 (attempts_of creq 0 9) = 7665000.
Proof.
  intros creq Hs. split; [|reflexivity]. unfold try_announce_to, connect_phase, attempts.
  rewrite (retransmit_unanswered net _ _ _ 0 9 []); [done|].
  intros i ?. by apply stray_connect, Hs.
Qed.

(** An error datagram without a message makes the client read past its end. *)
Lemma short_error_undefined :
  fst (try_announce_to (fun b => b) (fun _ => Datagram [0; 0; 0; 3]) false sample_args sample_draws)
  = Throw (Undefined "iterator past the end of the datagram").
Proof. reflexivity. Qed.

(** The addresses are tried in order; an address that fails with an exception passes the
    announce on, and the first one that answers decides. *)
Lemma announce_addresses_first inet_ntop6 a pre addr post ps :
  Forall (fun ad => exists e, try_endpoint inet_ntop6 a ad = Throw e /\ catchable e = true) pre ->
  try_endpoint inet_ntop6 a addr = Ok ps ->
  announce_addresses inet_ntop6 a (pre ++ addr :: post) = Ok ps.
Proof.
  intros Hpre Ha. induction Hpre as [|p pre (e & Hp & Hc) _ IH]; cbn [app announce_addresses].
  - by rewrite Ha.
  - by rewrite Hp, Hc.
Qed.
