(* ===== verification/HttpTracker.v ===== *)
(** * Announcing to and scraping an HTTP tracker
    (src/trackers/http_tracker_communicator.cpp)

    The request, the reading of the response and the walk over the resolved addresses.
    Connecting, TLS, sending and receiving are the sockets': one address is a function
    from the request (and whether TLS is used) to what [recv_all] returns or to the
    exception one of these calls throws. *)

From S2P Require Import Prelude CxxLib Hash Addr Bencode TorrentFile Net Tracker.

(** ** The request *)

Definition CRLF : bytes := [13; 10].

Definition event_to_string (event : Z) : bytes :=
  if event =? 1 then str "completed"
  else if event =? 2 then str "started"
  else if event =? 3 then str "stopped"
  else [].

Definition build_query_string (a : AnnounceArgs) : bytes :=
  let ev := event_to_string (an_event a) in
  str "info_hash=" ++ url_encoded (an_info_hash a)
  ++ str "&peer_id=" ++ url_encode (an_peer_id a)
  ++ str "&port=" ++ to_string (an_port a)
  ++ str "&uploaded=" ++ to_string (an_uploaded a)
  ++ str "&downloaded=" ++ to_string (an_downloaded a)
  ++ str "&left=" ++ to_string (an_left a)
  ++ str "&compact=1"
  ++ (if negb (bool_decide (ev = [])) then str "&event=" ++ ev else []).

(** [TrackerProtocol::operator==] compares the schemes. *)
Definition protocol_eqb (p q : TrackerProtocol) : bool := bool_decide (scheme p = scheme q).

Definition build_host_header (tracker : TrackerDetails) : bytes :=
  let is_default_port :=
    (protocol_eqb (protocol tracker) HTTP && (td_port tracker =? 80))
    || (protocol_eqb (protocol tracker) HTTPS && (td_port tracker =? 443)) in
  if is_default_port then hostname tracker
  else hostname tracker ++ str ":" ++ to_string (td_port tracker).

Definition build_http_request (tracker : TrackerDetails) (query_string : bytes) : bytes :=
  str "GET " ++ td_path tracker ++ str "?" ++ query_string ++ str " HTTP/1.1" ++ CRLF
  ++ str "Host: " ++ build_host_header tracker ++ CRLF
  ++ str "Connection: close" ++ CRLF
  ++ str "Accept-Encoding: identity" ++ CRLF
  ++ CRLF.

(** ** The response *)

Record HttpResponse := mkResponse { status_code : Z; body : bytes }.

Definition parse_http_response (raw : bytes) : result HttpResponse :=
  match find (CRLF ++ CRLF) raw 0 with
  | None => Throw (RuntimeError "Malformed HTTP response: no header/body separator")
  | Some header_end =>
      let status_line := take (default (length raw) (find CRLF raw 0)) raw in
      match find (str " ") status_line 0 with
      | None => Throw (RuntimeError "Malformed HTTP status line")
      | Some space1 =>
          let space2 := default (length status_line) (find (str " ") status_line (space1 + 1)) in
          code ← stoi (slice (space1 + 1) space2 status_line);
          Ok (mkResponse code (drop (header_end + 4) raw))
      end
  end.

Section response.
Context `{Inet}.

(** One element of a dictionary-form peer list. *)
Definition peer_of_dict (entry : BType) : result PeerAddress :=
  pd ← as_dict entry;
  ip ← get_val_string pd (str "ip");
  port ← get_val_integer pd (str "port");
  Ok (mkPeer ip (u16 port)).

(** The value under "peers", by its type. *)
Definition parse_peers_value (peers_val : BType) : result (list PeerAddress) :=
  match peers_val with
  | BString compact => Ok (parse_compact_peers compact)
  | BList peer_list => traverse peer_of_dict peer_list
  | _ => Throw (RuntimeError "Unexpected type for 'peers' field")
  end.

Definition parse_tracker_response (body : bytes) : result (list PeerAddress) :=
  root ← parse_value body;
  dict ← as_dict root.1;
  _ ← (if has_key dict (str "failure reason")
       then (reason ← get_val_string dict (str "failure reason");
             Throw (RuntimeError "Tracker returned failure"))
       else Ok ());
  _ ← (if has_key dict (str "interval") then get_val_integer dict (str "interval") else Ok 0);
  match smap_find (str "peers") dict with
  | None => Ok []
  | Some peers_val => parse_peers_value peers_val
  end.
End response.

(** ** The exchange *)

(** An address: [recv_all] after connecting and sending, with TLS or without. *)
Definition Exchange : Type := bool -> bytes -> result bytes.

(** The [try] block for one address; [None] is [continue], or the end of the handler. *)
Definition try_address (use_tls : bool) (request : bytes) (addr : Family * Exchange)
  : result (option bytes) :=
  raw_response ← addr.2 use_tls request;
  if bool_decide (raw_response = []) then Ok None
  else
    http_resp ← parse_http_response raw_response;
    if negb (status_code http_resp =? 200) then Ok None
    else Ok (Some (body http_resp)).

Fixpoint get_addresses (use_tls : bool) (request : bytes) (addresses : list (Family * Exchange))
  : result bytes :=
  match addresses with
  | [] => Throw (RuntimeError "HTTP tracker request failed: exhausted all addresses")
  | addr :: rest =>
      match try_address use_tls request addr with
      | Ok (Some b) => Ok b
      | Ok None => get_addresses use_tls request rest
      | Throw e => if catchable e then get_addresses use_tls request rest else Throw e
      end
  end.

Definition send_http_tracker_get (tracker : TrackerDetails) (query_string : bytes)
    (res : option (list (Family * Exchange))) : result bytes :=
  let request := build_http_request tracker query_string in
  addresses ← dns_lookup res;
  throw_if (bool_decide (length addresses = 0%nat)) (RuntimeError "DNS lookup failed");;
  let use_tls := protocol_eqb (protocol tracker) HTTPS in
  get_addresses use_tls request addresses.

(** [HTTPTrackerCommunicator::announce] *)
Definition http_announce `{Inet} (res : option (list (Family * Exchange)))
    (tracker : TrackerDetails) (a : AnnounceArgs) : result (list PeerAddress) :=
  b ← send_http_tracker_get tracker (build_query_string a) res;
  parse_tracker_response b.

(** ** Scraping *)

Definition build_scrape_query_string (info_hash : InfoHash) : bytes :=
  str "info_hash=" ++ url_encoded info_hash.

Definition announce_path_to_scrape_path (path : bytes) : bytes :=
  let announce_suffix := str "/announce" in
  let scrape_suffix := str "/scrape" in
  let n := length announce_suffix in
  if (n <=? length path)%nat && bool_decide (drop (length path - n) path = announce_suffix)
  then take (length path - n) path ++ scrape_suffix
  else match find announce_suffix path 0 with
       | Some pos => take pos path ++ scrape_suffix ++ drop (pos + n) path
       | None => if bool_decide (path = str "announce") then str "scrape" else scrape_suffix
       end.

Definition scrape_tracker_from_announce (announce : TrackerDetails) : TrackerDetails :=
  mkTracker (protocol announce) (hostname announce) (td_port announce)
    (announce_path_to_scrape_path (td_path announce)).

(** [if (d->has_key(k)) field = static_cast<uint64_t>(...)] *)
Definition optional_u64 (d : smap BType) (key : bytes) (field : Z) : result Z :=
  if has_key d key then v ← get_val_integer d key; Ok (u64 v) else Ok field.

Definition read_file_stats (file_stats : smap BType) : result TrackerScrapeStats :=
  complete ← optional_u64 file_stats (str "complete") 0;
  incomplete ← optional_u64 file_stats (str "incomplete") 0;
  downloaded ←
    (if has_key file_stats (str "downloaded")
     then v ← get_val_integer file_stats (str "downloaded"); Ok (Some (u64 v))
     else if has_key file_stats (str "download")
     then v ← get_val_integer file_stats (str "download"); Ok (Some (u64 v))
     else Ok None);
  Ok (mkStats complete incomplete downloaded).

Definition no_stats : TrackerScrapeStats := mkStats 0 0 None.

Definition parse_http_scrape_response (body : bytes) (info_hash : InfoHash)
  : result TrackerScrapeStats :=
  root ← parse_value body;
  dict ← as_dict root.1;
  _ ← (if has_key dict (str "failure reason")
       then (reason ← get_val_string dict (str "failure reason");
             Throw (RuntimeError "Tracker scrape failure"))
       else Ok ());
  match smap_find (str "files") dict with
  | None => Ok no_stats
  | Some files_val =>
      files ← as_dict files_val;
      match smap_find (to_raw info_hash) files with
      | None => Ok no_stats
      | Some stats_val => file_stats ← as_dict stats_val; read_file_stats file_stats
      end
  end.

(** [HTTPTrackerCommunicator::scrape] *)
Definition http_scrape (res : option (list (Family * Exchange)))
    (tracker : TrackerDetails) (info_hash : InfoHash) : result TrackerScrapeStats :=
  b ← send_http_tracker_get (scrape_tracker_from_announce tracker)
        (build_scrape_query_string info_hash) res;
  parse_http_scrape_response b info_hash.

(** ** The tracker's side of a request

    A reference reading of the request: the target of the request line, its path up to
    the first '?', and the '&'-separated parameters after it with percent-decoded
    values. *)

(** The bytes before the first [c], and those after it when it occurs. *)
Fixpoint split_first (c : Z) (s : bytes) : bytes * option bytes :=
  match s with
  | [] => ([], None)
  | x :: s' => if x =? c then ([], Some s')
               else let '(p, r) := split_first c s' in (x :: p, r)
  end.

Fixpoint split_on (c : Z) (s : bytes) : list bytes :=
  match s with
  | [] => [[]]
  | x :: s' =>
      if x =? c then [] :: split_on c s'
      else match split_on c s' with
           | p :: ps => (x :: p) :: ps
           | [] => [[x]]
           end
  end.

Fixpoint url_decode (s : bytes) : bytes :=
  match s with
  | [] => []
  | c :: s' =>
      if c =? chr "%" then
        match s' with
        | a :: b :: s'' => (16 * default 0 (hex_val a) + default 0 (hex_val b)) :: url_decode s''
        | _ => []
        end
      else c :: url_decode s'
  end.

Definition read_param (kv : bytes) : bytes * bytes :=
  let '(k, v) := split_first (chr "=") kv in (k, url_decode (default [] v)).

Definition parse_query (q : bytes) : list (bytes * bytes) := map read_param (split_on (chr "&") q).

(** The path and the parameters of a request. *)
Definition decode_request (request : bytes) : bytes * list (bytes * bytes) :=
  let line := (split_first 13 request).1 in
  let target := (split_first (chr " ") (drop 4 line)).1 in
  let '(path, query) := split_first (chr "?") target in
  (path, parse_query (default [] query)).

(** *** Splitting *)

Lemma split_first_app c p s :
  c ∉ p -> split_first c (p ++ c :: s) = (p, Some s).
Proof.
  induction p as [|x p IH]; cbn [app split_first]; [by rewrite Z.eqb_refl|].
  intros [Hx Hp]%not_elem_of_cons. rewrite (proj2 (Z.eqb_neq x c)) by done. by rewrite IH.
Qed.

Lemma split_on_app c p s : c ∉ p -> split_on c (p ++ c :: s) = p :: split_on c s.
Proof.
  induction p as [|x p IH]; cbn [app split_on]; [by rewrite Z.eqb_refl|].
  intros [Hx Hp]%not_elem_of_cons. rewrite (proj2 (Z.eqb_neq x c)) by done. by rewrite IH.
Qed.

Lemma split_on_last c p : c ∉ p -> split_on c p = [p].
Proof.
  induction p as [|x p IH]; cbn [split_on]; [done|].
  intros [Hx Hp]%not_elem_of_cons. rewrite (proj2 (Z.eqb_neq x c)) by done. by rewrite IH.
Qed.

(** *** What an encoded value is made of *)

Definition plain (c : Z) : bool := url_unreserved c || (c =? chr "%").

Lemma plain_free c s : Forall (fun x => plain x = true) s -> plain c = false -> c ∉ s.
Proof. intros Hs Hc Hin. rewrite Forall_forall in Hs. specialize (Hs _ Hin). congruence. Qed.

Lemma digits_plain s : Forall (fun c => isdigit c = true) s -> Forall (fun x => plain x = true) s.
Proof.
  intros Hs. eapply Forall_impl; [exact Hs|]. intros x Hx.
  unfold plain, url_unreserved, isalnum. by rewrite Hx.
Qed.

Lemma to_string_http_plain n : 0 <= n -> Forall (fun x => plain x = true) (to_string n).
Proof. intros Hn. by apply digits_plain, to_string_digits. Qed.

Lemma HEX_DIGIT_spec d :
  0 <= d < 16 -> hex_val (HEX_DIGIT d) = Some d /\ plain (HEX_DIGIT d) = true.
Proof.
  intros Hd. assert (d = 0 \/ d = 1 \/ d = 2 \/ d = 3 \/ d = 4 \/ d = 5 \/ d = 6 \/ d = 7 \/
    d = 8 \/ d = 9 \/ d = 10 \/ d = 11 \/ d = 12 \/ d = 13 \/ d = 14 \/ d = 15) by lia.
  destruct_or?; by subst.
Qed.

Lemma url_encode_plain s : bytes_ok s -> Forall (fun x => plain x = true) (url_encode s).
Proof.
  induction 1 as [|b s Hb Hs IH]; [constructor|].
  unfold url_encode in *. cbn [map concat]. apply Forall_app. split; [|done].
  unfold url_encode_byte. destruct (url_unreserved b) eqn:E.
  - repeat constructor. unfold plain. by rewrite E.
  - destruct (byte_nibbles b Hb) as (? & ? & _).
    unfold HEX_BYTE. repeat constructor; by apply HEX_DIGIT_spec.
Qed.

Lemma url_decode_encode s : bytes_ok s -> url_decode (url_encode s) = s.
Proof.
  induction 1 as [|b s Hb Hs IH]; [done|].
  unfold url_encode in *. cbn [map concat]. unfold url_encode_byte at 1.
  destruct (url_unreserved b) eqn:E; cbn [app url_decode].
  - assert ((b =? chr "%") = false) as ->.
    { apply Z.eqb_neq. intros ->. discriminate. }
    by rewrite IH.
  - destruct (byte_nibbles b Hb) as (Hq & Hr & Eb).
    unfold HEX_BYTE. cbn [app]. rewrite Z.eqb_refl.
    rewrite (proj1 (HEX_DIGIT_spec _ Hq)), (proj1 (HEX_DIGIT_spec _ Hr)), IH. cbn [default].
    f_equal. symmetry. exact Eb.
Qed.

Lemma url_decode_digits s : Forall (fun c => isdigit c = true) s -> url_decode s = s.
Proof.
  induction 1 as [|c s Hc Hs IH]; [done|]. cbn [url_decode].
  assert ((c =? chr "%") = false) as ->.
  { apply Z.eqb_neq. intros ->. discriminate. }
  by rewrite IH.
Qed.

Lemma url_decode_to_string n : 0 <= n -> url_decode (to_string n) = to_string n.
Proof. intros Hn. by apply url_decode_digits, to_string_digits. Qed.

(** *** The announce query *)

(** The parameters of an announce, in the order of the query string. *)
Definition announce_params (a : AnnounceArgs) : list (bytes * bytes) :=
  let ev := event_to_string (an_event a) in
  [(str "info_hash", ih_bytes (an_info_hash a)); (str "peer_id", an_peer_id a);
   (str "port", to_string (an_port a)); (str "uploaded", to_string (an_uploaded a));
   (str "downloaded", to_string (an_downloaded a)); (str "left", to_string (an_left a));
   (str "compact", str "1")]
  ++ (if bool_decide (ev = []) then [] else [(str "event", ev)]).

(** A parameter as it is written. *)
Definition param (k v : bytes) : bytes := k ++ chr "=" :: v.

(** Its name and value hold no separator. *)
Definition param_ok (k v : bytes) : Prop :=
  Forall (fun x => plain x = true) k /\ Forall (fun x => plain x = true) v.

Lemma read_param_param k v : param_ok k v -> read_param (param k v) = (k, url_decode v).
Proof.
  intros [Hk _]. unfold read_param, param.
  by rewrite split_first_app by (by apply plain_free).
Qed.

Lemma param_free c k v : param_ok k v -> plain c = false -> c <> chr "=" -> c ∉ param k v.
Proof.
  intros [Hk Hv] Hc Hne. unfold param. rewrite elem_of_app, elem_of_cons.
  intros [?|[?|?]]; [by apply (plain_free c k)|done|by apply (plain_free c v)].
Qed.

(** A query string as the list of its parameters. *)
Fixpoint join_params (ps : list (bytes * bytes)) : bytes :=
  match ps with
  | [] => []
  | [(k, v)] => param k v
  | (k, v) :: ps' => param k v ++ chr "&" :: join_params ps'
  end.

Definition params_ok (ps : list (bytes * bytes)) : Prop := Forall (fun kv => param_ok kv.1 kv.2) ps.

Lemma parse_query_join ps :
  params_ok ps -> ps <> [] ->
  parse_query (join_params ps) = map (fun kv => (kv.1, url_decode kv.2)) ps.
Proof.
  unfold parse_query. induction 1 as [|[k v] ps Hkv Hps IH]; [done|]. intros _.
  cbn [fst snd] in Hkv. assert (chr "&" ∉ param k v) by (by apply param_free).
  destruct ps as [|[k' v'] ps].
  - cbn [join_params]. rewrite split_on_last by done. cbn [map]. by rewrite read_param_param.
  - change (join_params ((k, v) :: (k', v') :: ps))
      with (param k v ++ chr "&" :: join_params ((k', v') :: ps)).
    rewrite split_on_app by done. cbn [map]. rewrite read_param_param by done.
    f_equal. by apply IH.
Qed.

Lemma join_params_free c ps :
  params_ok ps -> plain c = false -> c <> chr "=" -> c <> chr "&" -> c ∉ join_params ps.
Proof.
  intros Hps Hc He Ha. induction Hps as [|[k v] ps Hkv Hps IH]; [apply not_elem_of_nil|].
  cbn [fst snd] in Hkv. assert (c ∉ param k v) by (by apply param_free).
  destruct ps as [|[k' v'] ps]; [done|].
  change (c ∉ param k v ++ chr "&" :: join_params ((k', v') :: ps)).
  rewrite elem_of_app, elem_of_cons. by intros [?|[?|?]].
Qed.

(** The parameters of an announce as they are written. *)
Definition encoded_params (a : AnnounceArgs) : list (bytes * bytes) :=
  let ev := event_to_string (an_event a) in
  [(str "info_hash", url_encoded (an_info_hash a)); (str "peer_id", url_encode (an_peer_id a));
   (str "port", to_string (an_port a)); (str "uploaded", to_string (an_uploaded a));
   (str "downloaded", to_string (an_downloaded a)); (str "left", to_string (an_left a));
   (str "compact", str "1")]
  ++ (if bool_decide (ev = []) then [] else [(str "event", ev)]).

Lemma build_query_join a : build_query_string a = join_params (encoded_params a).
Proof.
  unfold build_query_string, encoded_params. cbv zeta.
  destruct (bool_decide (event_to_string (an_event a) = [])) eqn:E; cbn [negb app join_params];
    unfold param; rewrite <- ?app_assoc; reflexivity.
Qed.

Lemma event_plain ev : Forall (fun x => plain x = true) (event_to_string ev).
Proof.
  unfold event_to_string. repeat case_if; repeat constructor.
Qed.

Lemma encoded_params_ok a : args_ok a -> params_ok (encoded_params a).
Proof.
  intros [[_ Hh] [_ Hp] Hd Hl Hu He Hport]. unfold encoded_params, params_ok. apply Forall_app.
  assert (forall s, bool_decide (Forall (fun x => plain x = true) (str s)) = true ->
            Forall (fun x => plain x = true) (str s)) as Hs by (intros s; apply bool_decide_eq_true).
  split.
  - repeat apply Forall_cons_2; try apply Forall_nil_2; (split; cbn [fst snd];
      [apply Hs; reflexivity|]);
    first [by apply url_encode_plain|apply to_string_http_plain; lia|apply Hs; reflexivity].
  - case_if; [constructor|]. apply Forall_singleton. split; [apply Hs; reflexivity|apply event_plain].
Qed.

Lemma str_free c s : bool_decide (c ∈ str s) = false -> c ∉ str s.
Proof. by intros ?%bool_decide_eq_false. Qed.

(** The request line is read back as the path and the parameters, for a path with no
    query string of its own. *)
Lemma decode_request_params tracker ps :
  params_ok ps -> ps <> [] ->
  chr "?" ∉ td_path tracker -> chr " " ∉ td_path tracker -> 13 ∉ td_path tracker ->
  decode_request (build_http_request tracker (join_params ps))
  = (td_path tracker, map (fun kv => (kv.1, url_decode kv.2)) ps).
Proof.
  intros Hps Hne Hq Hs Hr. unfold decode_request, build_http_request.
  set (path := td_path tracker) in *. set (q := join_params ps).
  assert (Hfree : forall c, plain c = false -> c <> chr "=" -> c <> chr "&" -> c ∉ q)
    by (intros; by apply join_params_free).
  rewrite !app_assoc. change CRLF with (13 :: [10]) at 1. rewrite <- !app_assoc.
  set (rest := str "Host: " ++ _).
  replace (str "GET " ++ path ++ str "?" ++ q ++ str " HTTP/1.1" ++ (13 :: [10]) ++ rest)
    with ((str "GET " ++ path ++ str "?" ++ q ++ str " HTTP/1.1") ++ 13 :: 10 :: rest)
    by (rewrite <- !app_assoc; reflexivity).
  rewrite split_first_app.
  2: { rewrite !elem_of_app. intros [H|[H|[H|[H|H]]]]; revert H;
         first [exact Hr|by apply Hfree|by apply str_free]. }
  cbn [fst]. change (drop 4 (str "GET " ++ ?x)) with x.
  replace (path ++ str "?" ++ q ++ str " HTTP/1.1")
    with ((path ++ chr "?" :: q) ++ chr " " :: str "HTTP/1.1") by (rewrite <- app_assoc; reflexivity).
  rewrite split_first_app.
  2: { rewrite elem_of_app, elem_of_cons. intros [H|[H|H]]; revert H;
         first [exact Hs|by apply Hfree|done]. }
  cbn [fst]. rewrite split_first_app by done. cbn [default from_option id].
  unfold q. by rewrite parse_query_join.
Qed.

Lemma decoded_announce_params a :
  args_ok a ->
  map (fun kv => (kv.1, url_decode kv.2)) (encoded_params a) = announce_params a.
Proof.
  intros [[_ Hh] [_ Hp] Hd Hl Hu He Hport]. unfold encoded_params, announce_params, url_encoded.
  rewrite map_app. f_equal.
  - cbn [map fst snd]. rewrite !url_decode_encode, !url_decode_to_string by (done || lia).
    reflexivity.
  - case_if; [done|]. cbn [map fst snd]. do 3 f_equal.
    unfold event_to_string. by repeat case_if.
Qed.

(** ** Reading a well-formed response *)

(** Status line, header lines, the empty line and the body. *)
Definition http_reply (code : Z) (reason : bytes) (headers : list bytes) (b : bytes) : bytes :=
  (str "HTTP/1.1 " ++ to_string code ++ chr " " :: reason)
  ++ concat (map (fun h => CRLF ++ h) headers) ++ CRLF ++ CRLF ++ b.

(** A header line is not empty and holds no carriage return. *)
Definition header_ok (h : bytes) : Prop := h <> [] /\ 13 ∉ h.

#[global] Instance header_ok_dec h : Decision (header_ok h).
Proof. unfold header_ok. apply _. Defined.

Lemma find_at_free c pat p s i :
  c ∉ p -> find_at (c :: pat) (p ++ s) i = find_at (c :: pat) s (i + length p).
Proof.
  revert i. induction p as [|x p IH]; intros i; cbn [app length]; [by rewrite Nat.add_0_r|].
  intros [Hx Hp]%not_elem_of_cons. cbn [find_at starts_with].
  rewrite (proj2 (Z.eqb_neq c x)) by done. cbn [andb]. rewrite IH by done. f_equal. lia.
Qed.

Lemma find_headers headers b i :
  Forall header_ok headers ->
  find_at (CRLF ++ CRLF) (concat (map (fun h => CRLF ++ h) headers) ++ CRLF ++ CRLF ++ b) i
  = Some (i + length (concat (map (fun h => CRLF ++ h) headers)))%nat.
Proof.
  intros Hhs. revert i. induction Hhs as [|h hs [Hne Hh] Hhs IH]; intros i.
  { cbn. f_equal. lia. }
  destruct h as [|x h]; [done|]. cbn [map concat].
  change (CRLF ++ x :: h) with (13 :: 10 :: x :: h). rewrite <- app_assoc.
  set (s := concat _ ++ CRLF ++ CRLF ++ b) in *.
  change ((13 :: 10 :: x :: h) ++ s) with (13 :: 10 :: ((x :: h) ++ s)).
  assert (x <> 13) by (intros ->; apply Hh; left).
  change (CRLF ++ CRLF) with (13 :: [10; 13; 10]).
  transitivity (find_at (13 :: [10; 13; 10]) ((x :: h) ++ s) (S (S i))).
  { cbn [find_at starts_with app].
    rewrite (proj2 (Z.eqb_neq 13 x)) by done. reflexivity. }
  rewrite find_at_free by done. rewrite IH. rewrite length_app. cbn [length]. f_equal. lia.
Qed.

Lemma parse_http_reply code reason headers b :
  0 <= code < 2 ^ 31 -> 13 ∉ reason -> Forall header_ok headers ->
  parse_http_response (http_reply code reason headers b) = Ok (mkResponse code b).
Proof.
  intros Hc Hr Hhs. unfold parse_http_response, http_reply.
  destruct (to_string_digits code) as (_ & Hdig & _); [lia|].
  assert (Hfree : forall c, isdigit c = false -> c ∉ to_string code).
  { intros c ? Hin. rewrite Forall_forall in Hdig. specialize (Hdig _ Hin). congruence. }
  set (status := str "HTTP/1.1 " ++ to_string code ++ chr " " :: reason).
  set (hs := concat (map (fun h => CRLF ++ h) headers)).
  assert (Hst : 13 ∉ status).
  { unfold status. rewrite !elem_of_app, elem_of_cons.
    intros [H|[H|[H|H]]]; revert H; first [exact Hr|by apply Hfree|by apply str_free|done]. }
  assert (E1 : find (CRLF ++ CRLF) (status ++ hs ++ CRLF ++ CRLF ++ b) 0
               = Some (length (status ++ hs))).
  { unfold find. cbn [Nat.leb]. rewrite drop_0. change (CRLF ++ CRLF) with (13 :: [10; 13; 10]) at 1.
    rewrite find_at_free by done. change (13 :: [10; 13; 10]) with (CRLF ++ CRLF).
    unfold hs. rewrite find_headers by done. f_equal. rewrite length_app. lia. }
  assert (E2 : find CRLF (status ++ hs ++ CRLF ++ CRLF ++ b) 0 = Some (length status)).
  { unfold find. cbn [Nat.leb]. rewrite drop_0. unfold CRLF at 1. rewrite find_at_free by done.
    unfold hs. destruct headers as [|h ?]; reflexivity. }
  rewrite E1, E2. cbn [default from_option id]. rewrite take_app_length. cbv zeta.
  assert (E3 : find (str " ") status 0 = Some 8%nat) by reflexivity.
  assert (E4 : find (str " ") status 9 = Some (9 + length (to_string code))%nat).
  { unfold find. rewrite (proj2 (Nat.leb_le _ _)) by (unfold status; rewrite length_app; cbn; lia).
    change (drop 9 status) with (to_string code ++ chr " " :: reason).
    apply find_at_first. by apply Hfree. }
  assert (E5 : slice 9 (9 + length (to_string code)) status = to_string code).
  { change (take (9 + length (to_string code) - 9) (to_string code ++ chr " " :: reason)
            = to_string code).
    replace (9 + length (to_string code) - 9)%nat with (length (to_string code)) by lia.
    apply take_app_length. }
  rewrite E3. change (8 + 1)%nat with 9%nat. rewrite E4. cbn [default from_option id].
  rewrite E5, stoi_to_string by lia. cbn [mbind result_bind]. do 2 f_equal.
  rewrite !app_assoc, <- (app_assoc _ CRLF CRLF). rewrite drop_app_length'; [done|].
  by rewrite (length_app _ (CRLF ++ CRLF)).
Qed.

(** ** Properties *)

Lemma parse_value_encoded v t :
  wf_btype v -> fits (encode v ++ t) -> exists pos, parse_value (encode v ++ t) = Ok (v, pos).
Proof.
  intros Hwf Hfit. eexists. unfold parse_value.
  refine (parse_encode v Hwf _ _ [] t Hfit). rewrite length_app. lia.
Qed.

(** An address the client gives up: an exception, an empty answer, or a status other
    than 200. *)
Definition passed_over (use_tls : bool) (request : bytes) (addr : Family * Exchange) : Prop :=
  match addr.2 use_tls request with
  | Throw e => catchable e = true
  | Ok raw => raw = [] \/ exists r, parse_http_response raw = Ok r /\ status_code r <> 200
  end.

Lemma get_addresses_passes use_tls request pre addr post b :
  Forall (passed_over use_tls request) pre ->
  try_address use_tls request addr = Ok (Some b) ->
  get_addresses use_tls request (pre ++ addr :: post) = Ok b.
Proof.
  intros Hpre Ha. induction Hpre as [|p pre Hp _ IH]; cbn [app get_addresses].
  { by rewrite Ha. }
  assert (try_address use_tls request p = Ok None
          \/ exists e, try_address use_tls request p = Throw e /\ catchable e = true) as [->|(e & -> & Hc)].
  { unfold try_address, passed_over in *. destruct (p.2 use_tls request) as [raw|e]; [|eauto].
    left. cbn [mbind result_bind]. case_if; [done|]. b2p.
    destruct Hp as [?|(r & Hr & Hs)]; [done|]. rewrite Hr. cbn [mbind result_bind].
    by rewrite (proj2 (Z.eqb_neq _ _)). }
  - exact IH.
  - by rewrite Hc.
Qed.

Lemma get_addresses_answer tracker query res pre addr post reason headers b :
  let request := build_http_request tracker query in
  let tls := protocol_eqb (protocol tracker) HTTPS in
  dns_lookup res = Ok (pre ++ addr :: post) -> Forall (passed_over tls request) pre ->
  addr.2 tls request = Ok (http_reply 200 reason headers b) ->
  13 ∉ reason -> Forall header_ok headers ->
  send_http_tracker_get tracker query res = Ok b.
Proof.
  intros request tls Hdns Hpre Hex Hr Hhs. unfold send_http_tracker_get. rewrite Hdns.
  fold request tls. cbn [mbind result_bind].
  rewrite bool_decide_eq_false_2 by (rewrite length_app; cbn; lia).
  cbn [throw_if mbind result_bind]. apply get_addresses_passes; [done|].
  unfold try_address. rewrite Hex. cbn [mbind result_bind].
  rewrite bool_decide_eq_false_2 by done. rewrite parse_http_reply by (done || lia). done.
Qed.

Section delivery.
Context {I : Inet} {OK : @InetOk I}.

(** The two forms of a peer list: the compact string, and a list of dictionaries. *)
Definition peers_form (peers_val : BType) (ps : list PeerAddress) : Prop :=
  match peers_val with
  | BString s => Forall peer_ok ps /\ s = concat (map (fun p => peer_to_compact (ip p) (port p)) ps)
  | BList l =>
      Forall2 (fun v p => exists pd, v = BDict pd
        /\ smap_find (str "ip") pd = Some (BString (ip p))
        /\ smap_find (str "port") pd = Some (BInteger (port p)) /\ 0 <= port p < 2 ^ 16) l ps
  | _ => False
  end.

Lemma parse_peers_form peers_val ps : peers_form peers_val ps -> parse_peers_value peers_val = Ok ps.
Proof.
  destruct peers_val as [z|s|l|d]; cbn [peers_form parse_peers_value]; try done.
  - intros [Hps ->]. f_equal. unfold parse_compact_peers.
    apply (compact_loop_concat _ []); [rewrite concat_compact_length; lia|done].
  - induction 1 as [|v p l ps (pd & -> & Hi & Hp & Hr) _ IH]; [done|].
    assert (peer_of_dict (BDict pd) = Ok p) as E.
    { unfold peer_of_dict, get_val_string, get_val_integer. cbn [as_dict mbind result_bind].
      rewrite Hi. cbn [mbind result_bind]. rewrite Hp. cbn [mbind result_bind].
      unfold u16. rewrite Z.mod_small by done. by destruct p. }
    cbn [traverse]. rewrite E. cbn [mbind result_bind]. by rewrite IH.
Qed.

(** What the client reads from an announce response: no failure, an integer interval if
    any, and the peers. *)
Record announce_dict (d : smap BType) (ps : list PeerAddress) : Prop := {
  ad_wf : wf_btype (BDict d);
  ad_failure : smap_find (str "failure reason") d = None;
  ad_interval : forall v, smap_find (str "interval") d = Some v -> exists z, v = BInteger z;
  ad_peers : exists v, smap_find (str "peers") d = Some v /\ peers_form v ps;
}.

Lemma parse_tracker_announce d ps t :
  announce_dict d ps -> fits (encode (BDict d) ++ t) ->
  parse_tracker_response (encode (BDict d) ++ t) = Ok ps.
Proof.
  intros [Hwf Hfail Hint (v & Hv & Hps)] Hfit. unfold parse_tracker_response.
  destruct (parse_value_encoded (BDict d) t Hwf Hfit) as [pos ->].
  assert (has_key d (str "failure reason") = false) as E by (unfold has_key; by rewrite Hfail).
  cbn [mbind result_bind fst as_dict]. rewrite E. cbn [mbind result_bind].
  unfold has_key, get_val_integer.
  destruct (smap_find (str "interval") d) as [i|] eqn:Ei.
  - destruct (Hint i eq_refl) as [z ->]. cbn [mbind result_bind]. rewrite Hv.
    by apply parse_peers_form.
  - cbn [mbind result_bind]. rewrite Hv. by apply parse_peers_form.
Qed.
End delivery.

(** C14: announcing to an HTTP tracker whose path holds no question mark, blank or carriage
    return.  The first resolved address that answers with status 200, after any number of
    addresses that fail, answer nothing or answer with another status, decides: from a
    bencoded dictionary without a failure reason, in the compact or the dictionary form,
    sent as it is after the headers, the client returns exactly its peers, whatever the
    headers and whatever follows it.  And what that tracker received reads back, by
    percent-decoding its query, as the info hash, the peer id, the port, the three
    counters, "compact" and the event.  (A path that has a query string of its own, and a
    body in chunks, do not behave so: [passkey_hides_info_hash], [chunked_body_refused].) *)
Theorem http_announce_delivers (I : Inet) (OK : @InetOk I) tracker a res pre addr post
    reason headers d ps t :
  let request := build_http_request tracker (build_query_string a) in
  let tls := protocol_eqb (protocol tracker) HTTPS in
  args_ok a ->
  chr "?" ∉ td_path tracker -> chr " " ∉ td_path tracker -> 13 ∉ td_path tracker ->
  dns_lookup res = Ok (pre ++ addr :: post) -> Forall (passed_over tls request) pre ->
  addr.2 tls request = Ok (http_reply 200 reason headers (encode (BDict d) ++ t)) ->
  13 ∉ reason -> Forall header_ok headers ->
  announce_dict d ps -> fits (encode (BDict d) ++ t) ->
  http_announce res tracker a = Ok ps
  /\ decode_request request = (td_path tracker, announce_params a).
Proof.
  intros request tls Ha Hq Hs Hr Hdns Hpre Hex Hreason Hhs Hd Hfit. split.
  - unfold http_announce. erewrite get_addresses_answer by done. cbn [mbind result_bind].
    by apply parse_tracker_announce.
  - unfold request. rewrite build_query_join, decode_request_params;
      [|by apply encoded_params_ok|done..].
    by rewrite decoded_announce_params.
Qed.

Definition sample_tracker : TrackerDetails :=
  mkTracker HTTP (str "tracker.example.org") 6969 (str "/announce").

Definition sample_peers : list PeerAddress :=
  [mkPeer (str "192.168.1.7") 6881; mkPeer (str "10.0.0.255") 65535].

Definition sample_response : smap BType :=
  let I := dotted_inet in
  [(str "interval", BInteger 1800);
   (str "peers", BString (concat (map (fun p => peer_to_compact (ip p) (port p)) sample_peers)))].

Definition refused : Exchange := fun _ _ => Throw (RuntimeError "connect() failed").
Definition unavailable : Exchange := fun _ _ =>
  Ok (http_reply 503 (str "Service Unavailable") [str "Retry-After: 1"] []).
Definition answering : Exchange := fun _ _ =>
  Ok (http_reply 200 (str "OK") [str "Content-Type: text/plain"] (encode (BDict sample_response) ++ [10])).

Lemma http_announce_delivers_witness :
  let I := dotted_inet in
  http_announce (Some [(AF_INET6, refused); (AF_OTHER, refused); (AF_INET, unavailable);
                       (AF_INET, answering)]) sample_tracker sample_args = Ok sample_peers.
Proof.
  intros I.
  refine (proj1 (http_announce_delivers dotted_inet dotted_inet_ok sample_tracker sample_args _
    [(AF_INET6, refused); (AF_INET, unavailable)] (AF_INET, answering) [] (str "OK")
    [str "Content-Type: text/plain"] sample_response sample_peers [10] sample_args_ok
    _ _ _ _ _ _ _ _ _ _)).
  1-3: refine (bool_decide_unpack _ _); vm_compute; exact Logic.I.
  - reflexivity.
  - apply Forall_cons_2; [reflexivity|]. apply Forall_cons_2; [|apply Forall_nil_2].
    right. eexists. split; [vm_compute; reflexivity|vm_compute; discriminate].
  - reflexivity.
  - refine (bool_decide_unpack _ _); vm_compute; exact Logic.I.
  - refine (bool_decide_unpack _ _); vm_compute; exact Logic.I.
  - split.
    + cbn. repeat split; unfold smap_ok; repeat constructor; vm_compute; intuition discriminate.
    + reflexivity.
    + intros v E. vm_compute in E. injection E as <-. eauto.
    + eexists. split; [reflexivity|]. split; [|reflexivity].
      repeat constructor; cbn; try lia.
      * exists [192; 168; 1; 7]. split; [apply (bool_decide_unpack _); reflexivity|reflexivity].
      * exists [10; 0; 0; 255]. split; [apply (bool_decide_unpack _); reflexivity|reflexivity].
  - vm_compute. reflexivity.
Defined.

(** A tracker whose announce URL already has a query string (a passkey) receives a second
    '?': the info hash becomes part of the value of that first parameter. *)
Lemma passkey_hides_info_hash :
  let tracker := mkTracker HTTP (str "tracker.example.org") 80 (str "/announce?passkey=abc") in
  str "info_hash"
    ∉ map fst (decode_request (build_http_request tracker (build_query_string sample_args))).2.
Proof.
  intros tracker. apply (bool_decide_eq_false_1 (str "info_hash" ∈ _)). vm_compute. reflexivity.
Qed.

(** The request is an HTTP/1.1 one, but a body in chunks, which such a server may send, is
    handed to the bencode parser as it is. *)
Lemma chunked_body_refused :
  let I := dotted_inet in
  let chunk := encode (BDict sample_response) in
  let raw := http_reply 200 (str "OK") [str "Transfer-Encoding: chunked"]
               (to_hex [Z.of_nat (length chunk)] ++ CRLF ++ chunk ++ CRLF ++ str "0" ++ CRLF ++ CRLF) in
  is_ok (http_announce (Some [(AF_INET, fun _ _ => Ok raw)]) sample_tracker sample_args) = false.
Proof. vm_compute. reflexivity. Qed.

(** ** Scraping *)

(** The scrape convention: the last path component "announce" becomes "scrape". *)
Lemma scrape_path_suffix p :
  announce_path_to_scrape_path (p ++ str "/announce") = p ++ str "/scrape".
Proof.
  unfold announce_path_to_scrape_path. set (suffix := str "/announce").
  rewrite length_app, (proj2 (Nat.leb_le _ _)) by lia.
  replace (length p + length suffix - length suffix)%nat with (length p) by lia.
  rewrite drop_app_length, take_app_length, bool_decide_eq_true_2 by done. done.
Qed.

(** What a scrape response says about a torrent. *)
Record scrape_dict (d files st : smap BType) (h : InfoHash) (c i n : Z) : Prop := {
  sd_wf : wf_btype (BDict d);
  sd_failure : smap_find (str "failure reason") d = None;
  sd_files : smap_find (str "files") d = Some (BDict files);
  sd_stats : smap_find (to_raw h) files = Some (BDict st);
  sd_complete : smap_find (str "complete") st = Some (BInteger c) /\ 0 <= c < 2 ^ 63;
  sd_incomplete : smap_find (str "incomplete") st = Some (BInteger i) /\ 0 <= i < 2 ^ 63;
  sd_downloaded : smap_find (str "downloaded") st = Some (BInteger n) /\ 0 <= n < 2 ^ 63;
}.

Lemma optional_u64_found d key z f :
  smap_find key d = Some (BInteger z) -> 0 <= z < 2 ^ 63 -> optional_u64 d key f = Ok z.
Proof.
  intros Hz Hr. unfold optional_u64, has_key, get_val_integer. rewrite Hz. cbn [mbind result_bind].
  f_equal. apply Z.mod_small. lia.
Qed.

Lemma http_scrape_delivers d files st h c i n t :
  scrape_dict d files st h c i n -> fits (encode (BDict d) ++ t) ->
  parse_http_scrape_response (encode (BDict d) ++ t) h = Ok (mkStats c i (Some n)).
Proof.
  intros [Hwf Hfail Hfiles Hst [Hc Hcr] [Hi Hir] [Hn Hnr]] Hfit. unfold parse_http_scrape_response.
  destruct (parse_value_encoded (BDict d) t Hwf Hfit) as [pos ->].
  assert (has_key d (str "failure reason") = false) as E by (unfold has_key; by rewrite Hfail).
  cbn [mbind result_bind fst as_dict]. rewrite E. cbn [mbind result_bind].
  rewrite Hfiles. cbn [as_dict mbind result_bind]. rewrite Hst. cbn [as_dict mbind result_bind].
  unfold read_file_stats. rewrite (optional_u64_found _ _ _ _ Hc Hcr). cbn [mbind result_bind].
  rewrite (optional_u64_found _ _ _ _ Hi Hir).
  cbn [mbind result_bind]. unfold has_key at 1, get_val_integer. rewrite Hn.
  cbn [mbind result_bind]. unfold u64. rewrite Z.mod_small by lia. reflexivity.
Qed.
