(* ===== verification/TrackerFactory.v ===== *)
(** * Choosing the tracker client
    (inc/trackers/tracker_communicator_factory.h)

    [create_communicator] as a function of the protocol; the network of each client is a
    parameter, indexed by the tracker asked. *)

From S2P Require Import Prelude Hash Addr TorrentFile Net Tracker UdpTracker HttpTracker.

Section factory.
Context `{Inet} (inet_ntop6 : bytes -> bytes).
(** What [getaddrinfo] gives for a tracker, with the network behind each address. *)
Context (udp_net : TrackerDetails -> option (list (Family * Endpoint)))
        (http_net : TrackerDetails -> option (list (Family * Exchange))).

Definition udp_communicator : TrackerCommunicator :=
  {| tc_announce tracker a := udp_announce inet_ntop6 tracker a (udp_net tracker);
     tc_scrape := scrape_unsupported |}.

Definition http_communicator : TrackerCommunicator :=
  {| tc_announce tracker a := http_announce (http_net tracker) tracker a;
     tc_scrape tracker h := http_scrape (http_net tracker) tracker h |}.

Definition create_communicator (protocol : TrackerProtocol) : result TrackerCommunicator :=
  if protocol_eqb protocol UDP then Ok udp_communicator
  else if protocol_eqb protocol HTTP || protocol_eqb protocol HTTPS then Ok http_communicator
  else Throw (RuntimeError "Unknown tracker protocol").

(** Every protocol a tracker URL can name has its client. *)
Lemma create_communicator_total s p :
  from_scheme s = Ok p ->
  create_communicator p
  = Ok (if bool_decide (s = str "udp") then udp_communicator else http_communicator).
Proof.
  unfold from_scheme. intros Hp.
  destruct (bool_decide (s = str "http")) eqn:E1; b2p; [by simplify_eq|].
  destruct (bool_decide (s = str "https")) eqn:E2; b2p; [by simplify_eq|].
  destruct (bool_decide (s = str "udp")) eqn:E3; b2p; by simplify_eq.
Qed.
End factory.
