(* ===== verification/TorrentManager.v ===== *)
(** * One torrent: the pool of peer workers
    (inc/peer_wire/torrent_manager.h, src/peer_wire/torrent_manager.cpp)

    The threads of a torrent are cut into their atomic accesses: a worker is a program
    counter ([Phase]) with the connection it owns, and the regions guarded by [m_spawn_mu]
    are split at every point where they read an atomic that other threads may change
    without the mutex.  A step ([tm_step]) is one access by one thread, [None] when that
    thread cannot run it now; any interleaving is a list of steps.  What a connection
    does is PeerConnection's: here it is the outcome of its constructor, of [connect] and
    of [run], and the amounts [run] adds to its upload counters.  Whether the pieces are
    complete is PieceManager's [is_complete], which never turns back. *)

From S2P Require Import Prelude CxxLib Hash Addr TorrentFile Net Tracker.

Definition k_max_concurrent_peers : nat := 40.

(** ** The state *)

(** Where a worker thread is in [run_peer_worker]. *)
Inductive Phase :=
  | Created                         (* the thread function has not run yet *)
  | Counted                         (* before copying its peer under the lock *)
  | Copied (peer : PeerAddress)     (* constructing the PeerConnection *)
  | Constructed (peer : PeerAddress) (* before registering the connection *)
  | Connecting (peer : PeerAddress) (* inside conn.connect() *)
  | ConnectFailed                   (* in its handler, before unregister() *)
  | Unregistered                    (* in its handler, before counting the failure *)
  | ConstructFailed                 (* in the outer handler, before counting *)
  | Connected                       (* before counting the handshake *)
  | HandshakeOk                     (* before reading m_stopped *)
  | Running                         (* inside conn.run() *)
  | RunFailed                       (* in its handler, before counting *)
  | Leaving                         (* before unregister() *)
  | Finishing                       (* before on_peer_worker_finished() *)
  | Spawning                        (* in spawn_peers_locked(), holding the lock *)
  | Done.

#[global] Instance Phase_eq_dec : EqDecision Phase.
Proof. solve_decision. Defined.

(** A thread of [m_threads] with the counters of its connection; [w_cancelled]: [cancel]
    was called on it, [w_shut]: when its socket was connected. *)
Record Worker := mkWorker {
  w_index : nat;
  w_phase : Phase;
  w_up_bytes : Z;
  w_up_blocks : Z;
  w_down_bytes : Z;
  w_cancelled : bool;
  w_shut : bool;
}.

(** Who is in [spawn_peers_locked], so holds [m_spawn_mu] between two steps. *)
Inductive Holder := ByWorker (tid : nat) | ByStart | ByDht.

#[global] Instance Holder_eq_dec : EqDecision Holder.
Proof. solve_decision. Defined.

(** [passed]: the conditions of the loop were read and hold, the thread is not yet
    created. *)
Record Spawner := mkSpawner { sp_holder : Holder; sp_passed : bool }.

Inductive StartPhase := NotStarted | Announcing | StartSpawning | Started.
Inductive StopPhase := NotStopping | FlagSet | Joining | Stopped.

#[global] Instance StartPhase_eq_dec : EqDecision StartPhase.
Proof. solve_decision. Defined.
#[global] Instance StopPhase_eq_dec : EqDecision StopPhase.
Proof. solve_decision. Defined.

(** The members; [tm_complete] is [m_piece_manager.is_complete()], [tm_lock] the holder of
    [m_spawn_mu], and [tm_start], [tm_stop] where the callers of [start] and [stop] are. *)
Record TM := mkTM {
  m_all_peers : list PeerAddress;
  m_next_peer_index : nat;
  m_workers_running : nat;
  m_threads : list Worker;
  m_active_connections : list nat;
  m_uploaded_bytes_retired : Z;
  m_blocks_uploaded_retired : Z;
  m_dht_peers_discovered : Z;
  m_peer_workers_started : Z;
  m_peer_handshakes_ok : Z;
  m_peer_handshake_failed : Z;
  m_peer_run_failed : Z;
  m_stopped : bool;
  tm_complete : bool;
  tm_lock : option Spawner;
  tm_start : StartPhase;
  tm_stop : StopPhase;
}.

Definition tm_new : TM :=
  mkTM [] 0 0 [] [] 0 0 0 0 0 0 0 false false None NotStarted NotStopping.

(** *** Writing one member *)

Definition set_peers (l : list PeerAddress) (s : TM) : TM :=
  mkTM l (m_next_peer_index s) (m_workers_running s) (m_threads s) (m_active_connections s)
    (m_uploaded_bytes_retired s) (m_blocks_uploaded_retired s) (m_dht_peers_discovered s)
    (m_peer_workers_started s) (m_peer_handshakes_ok s) (m_peer_handshake_failed s)
    (m_peer_run_failed s) (m_stopped s) (tm_complete s) (tm_lock s) (tm_start s) (tm_stop s).

Definition set_pool (next running : nat) (threads : list Worker) (s : TM) : TM :=
  mkTM (m_all_peers s) next running threads (m_active_connections s)
    (m_uploaded_bytes_retired s) (m_blocks_uploaded_retired s) (m_dht_peers_discovered s)
    (m_peer_workers_started s) (m_peer_handshakes_ok s) (m_peer_handshake_failed s)
    (m_peer_run_failed s) (m_stopped s) (tm_complete s) (tm_lock s) (tm_start s) (tm_stop s).

Definition set_active (l : list nat) (s : TM) : TM :=
  mkTM (m_all_peers s) (m_next_peer_index s) (m_workers_running s) (m_threads s) l
    (m_uploaded_bytes_retired s) (m_blocks_uploaded_retired s) (m_dht_peers_discovered s)
    (m_peer_workers_started s) (m_peer_handshakes_ok s) (m_peer_handshake_failed s)
    (m_peer_run_failed s) (m_stopped s) (tm_complete s) (tm_lock s) (tm_start s) (tm_stop s).

Definition set_retired (bytes blocks : Z) (s : TM) : TM :=
  mkTM (m_all_peers s) (m_next_peer_index s) (m_workers_running s) (m_threads s)
    (m_active_connections s) bytes blocks (m_dht_peers_discovered s)
    (m_peer_workers_started s) (m_peer_handshakes_ok s) (m_peer_handshake_failed s)
    (m_peer_run_failed s) (m_stopped s) (tm_complete s) (tm_lock s) (tm_start s) (tm_stop s).

Definition set_discovered (n : Z) (s : TM) : TM :=
  mkTM (m_all_peers s) (m_next_peer_index s) (m_workers_running s) (m_threads s)
    (m_active_connections s) (m_uploaded_bytes_retired s) (m_blocks_uploaded_retired s) n
    (m_peer_workers_started s) (m_peer_handshakes_ok s) (m_peer_handshake_failed s)
    (m_peer_run_failed s) (m_stopped s) (tm_complete s) (tm_lock s) (tm_start s) (tm_stop s).

Definition set_counters (started ok failed run_failed : Z) (s : TM) : TM :=
  mkTM (m_all_peers s) (m_next_peer_index s) (m_workers_running s) (m_threads s)
    (m_active_connections s) (m_uploaded_bytes_retired s) (m_blocks_uploaded_retired s)
    (m_dht_peers_discovered s) started ok failed run_failed
    (m_stopped s) (tm_complete s) (tm_lock s) (tm_start s) (tm_stop s).

Definition set_flags (stopped complete : bool) (lock : option Spawner) (start : StartPhase)
    (stop : StopPhase) (s : TM) : TM :=
  mkTM (m_all_peers s) (m_next_peer_index s) (m_workers_running s) (m_threads s)
    (m_active_connections s) (m_uploaded_bytes_retired s) (m_blocks_uploaded_retired s)
    (m_dht_peers_discovered s) (m_peer_workers_started s) (m_peer_handshakes_ok s)
    (m_peer_handshake_failed s) (m_peer_run_failed s) stopped complete lock start stop.

Definition set_lock (l : option Spawner) (s : TM) : TM :=
  set_flags (m_stopped s) (tm_complete s) l (tm_start s) (tm_stop s) s.
Definition set_start (p : StartPhase) (s : TM) : TM :=
  set_flags (m_stopped s) (tm_complete s) (tm_lock s) p (tm_stop s) s.
Definition set_stop (p : StopPhase) (s : TM) : TM :=
  set_flags (m_stopped s) (tm_complete s) (tm_lock s) (tm_start s) p s.
Definition set_threads (l : list Worker) (s : TM) : TM :=
  set_pool (m_next_peer_index s) (m_workers_running s) l s.

Definition with_phase (p : Phase) (w : Worker) : Worker :=
  mkWorker (w_index w) p (w_up_bytes w) (w_up_blocks w) (w_down_bytes w) (w_cancelled w) (w_shut w).

(** Worker [tid] moves to phase [p]. *)
Definition goto (tid : nat) (p : Phase) (s : TM) : TM :=
  set_threads (alter (with_phase p) tid (m_threads s)) s.

(** ** The operations *)

(** [append_unique_peers] *)
Definition append_unique_peers (peers : list PeerAddress) (all : list PeerAddress)
  : list PeerAddress :=
  fold_left (fun l peer => if bool_decide (peer ∈ l) then l else l ++ [peer]) peers all.

(** The conditions of the loop of [spawn_peers_locked], its [break] included. *)
Definition spawn_guard (s : TM) : bool :=
  negb (m_stopped s) && (m_workers_running s <? k_max_concurrent_peers)%nat
  && (m_next_peer_index s <? length (m_all_peers s))%nat && negb (tm_complete s).

Definition new_worker (idx : nat) : Worker := mkWorker idx Created 0 0 0 false false.

(** The body of the loop. *)
Definition spawn_one (s : TM) : TM :=
  set_pool (S (m_next_peer_index s)) (S (m_workers_running s))
    (m_threads s ++ [new_worker (m_next_peer_index s)]) s.

(** The loop as one thread runs it without interference. *)
Fixpoint spawn_loop (fuel : nat) (s : TM) : TM :=
  match fuel with
  | O => s
  | S f => if spawn_guard s then spawn_loop f (spawn_one s) else s
  end.
Definition spawn_peers_locked (s : TM) : TM := spawn_loop (S k_max_concurrent_peers) s.

(** Leaving [spawn_peers_locked] releases the lock; its caller goes on. *)
Definition spawn_done (h : Holder) (s : TM) : TM :=
  match h with
  | ByWorker tid => goto tid Done (set_lock None s)
  | ByStart => set_start Started (set_lock None s)
  | ByDht => set_lock None s
  end.

(** One step of the holder of the lock: read the conditions, or create the thread. *)
Definition spawn_step (s : TM) : option TM :=
  match tm_lock s with
  | None => None
  | Some (mkSpawner h passed) =>
      if passed then Some (set_lock (Some (mkSpawner h false)) (spawn_one s))
      else if spawn_guard s then Some (set_lock (Some (mkSpawner h true)) s)
      else Some (spawn_done h s)
  end.

(** The phases in which the connection is in [m_active_connections]. *)
Definition registered (p : Phase) : bool :=
  match p with
  | Connecting _ | ConnectFailed | Connected | HandshakeOk | Running | RunFailed | Leaving => true
  | _ => false
  end.

(** [connect] has returned, so the socket is connected. *)
Definition socket_connected (p : Phase) : bool :=
  match p with Connected | HandshakeOk | Running | RunFailed | Leaving => true | _ => false end.

(** The lambda [unregister]. *)
Definition unregister (tid : nat) (w : Worker) (s : TM) : TM :=
  set_active (filter (fun c => c <> tid) (m_active_connections s))
    (set_retired (u64 (m_uploaded_bytes_retired s + w_up_bytes w))
                 (u64 (m_blocks_uploaded_retired s + w_up_blocks w)) s).

Definition count_started (s : TM) : TM :=
  set_counters (u64 (m_peer_workers_started s + 1)) (m_peer_handshakes_ok s)
    (m_peer_handshake_failed s) (m_peer_run_failed s) s.
Definition count_ok (s : TM) : TM :=
  set_counters (m_peer_workers_started s) (u64 (m_peer_handshakes_ok s + 1))
    (m_peer_handshake_failed s) (m_peer_run_failed s) s.
Definition count_failed (s : TM) : TM :=
  set_counters (m_peer_workers_started s) (m_peer_handshakes_ok s)
    (u64 (m_peer_handshake_failed s + 1)) (m_peer_run_failed s) s.
Definition count_run_failed (s : TM) : TM :=
  set_counters (m_peer_workers_started s) (m_peer_handshakes_ok s)
    (m_peer_handshake_failed s) (u64 (m_peer_run_failed s + 1)) s.

(** What the connection does next, where the code depends on it. *)
Inductive Outcome :=
  | Returns                   (* the constructor, connect() or run() returns *)
  | Throws                    (* it throws *)
  | UploadsBytes (length : Z) (* run() adds to m_bytes_uploaded *)
  | UploadsBlock              (* run() adds to m_blocks_uploaded *)
  | DownloadsBytes (length : Z). (* run() adds to m_bytes_downloaded *)

Definition with_upload (bytes blocks : Z) (w : Worker) : Worker :=
  mkWorker (w_index w) (w_phase w) (u64 (w_up_bytes w + bytes)) (u64 (w_up_blocks w + blocks))
    (w_down_bytes w) (w_cancelled w) (w_shut w).

Definition with_download (bytes : Z) (w : Worker) : Worker :=
  mkWorker (w_index w) (w_phase w) (w_up_bytes w) (w_up_blocks w) (u64 (w_down_bytes w + bytes))
    (w_cancelled w) (w_shut w).

(** A region guarded by [m_spawn_mu]. *)
Definition locked (s : TM) (r : TM) : option TM :=
  match tm_lock s with None => Some r | Some _ => None end.

(** One access of worker [tid], in phase [w_phase w]. *)
Definition worker_step (tid : nat) (w : Worker) (o : Outcome) (s : TM) : option TM :=
  match w_phase w with
  | Created => Some (goto tid Counted (count_started s))
  | Counted =>
      locked s (match m_all_peers s !! w_index w with
                | None => goto tid Finishing s
                | Some peer => goto tid (Copied peer) s
                end)
  | Copied peer =>
      match o with
      | Returns => Some (goto tid (Constructed peer) s)
      | Throws => Some (goto tid ConstructFailed s)
      | _ => None
      end
  | Constructed peer =>
      locked s (goto tid (Connecting peer) (set_active (m_active_connections s ++ [tid]) s))
  | Connecting _ =>
      match o with
      | Returns => Some (goto tid Connected s)
      | Throws => Some (goto tid ConnectFailed s)
      | _ => None
      end
  | ConnectFailed => locked s (goto tid Unregistered (unregister tid w s))
  | Unregistered | ConstructFailed => Some (goto tid Finishing (count_failed s))
  | Connected => Some (goto tid HandshakeOk (count_ok s))
  | HandshakeOk => Some (goto tid (if m_stopped s then Leaving else Running) s)
  | Running =>
      match o with
      | Returns => Some (goto tid Leaving s)
      | Throws => Some (goto tid RunFailed s)
      | UploadsBytes n => Some (set_threads (alter (with_upload n 0) tid (m_threads s)) s)
      | UploadsBlock => Some (set_threads (alter (with_upload 0 1) tid (m_threads s)) s)
      | DownloadsBytes n => Some (set_threads (alter (with_download n) tid (m_threads s)) s)
      end
  | RunFailed => Some (goto tid Leaving (count_run_failed s))
  | Leaving => locked s (goto tid Finishing (unregister tid w s))
  | Finishing =>
      locked s (set_lock (Some (mkSpawner (ByWorker tid) false))
        (goto tid Spawning
          (set_pool (m_next_peer_index s) (m_workers_running s - 1) (m_threads s) s)))
  | Spawning | Done => None
  end.

(** [conn->cancel()] *)
Definition cancel (w : Worker) : Worker :=
  mkWorker (w_index w) (w_phase w) (w_up_bytes w) (w_up_blocks w) (w_down_bytes w) true
    (w_shut w || socket_connected (w_phase w)).

(** The loop of [stop] over [m_active_connections]. *)
Definition cancel_active (s : TM) : TM :=
  set_threads (fold_left (fun l tid => alter cancel tid l) (m_active_connections s) (m_threads s)) s.

(** What can happen next: an access of a worker, of the holder of the lock, of the caller
    of [start], of a DHT callback, of the caller of [stop]; or the last piece arrives. *)
Inductive TmAction :=
  | WorkerStep (tid : nat) (o : Outcome)
  | SpawnStep
  | StartCall
  | StartPeers (tracker_peers : list PeerAddress)
  | DhtPeer (peer : PeerAddress)
  | StopFlag
  | StopCancel
  | StopJoin
  | Completes.

(** The region of [start] that takes the tracker's peers. *)
Definition start_peers (tracker_peers : list PeerAddress) (s : TM) : TM :=
  let s' := if bool_decide (tracker_peers = []) then s
            else set_peers (append_unique_peers tracker_peers (m_all_peers s)) s in
  if bool_decide (m_all_peers s' = []) then set_start Started s'
  else set_lock (Some (mkSpawner ByStart false)) (set_start StartSpawning s').

(** [add_dht_peer] up to its call of [spawn_peers_locked]; the boolean is its result. *)
Definition add_dht_peer (peer : PeerAddress) (s : TM) : bool * TM :=
  let s' := set_peers (append_unique_peers [peer] (m_all_peers s)) s in
  if (length (m_all_peers s') =? length (m_all_peers s))%nat then (false, s')
  else (true, set_lock (Some (mkSpawner ByDht false))
                (set_discovered (u64 (m_dht_peers_discovered s + 1)) s')).

Definition tm_step (s : TM) (a : TmAction) : option TM :=
  match a with
  | WorkerStep tid o =>
      match m_threads s !! tid with
      | Some w => worker_step tid w o s
      | None => None
      end
  | SpawnStep => spawn_step s
  | StartCall =>
      match tm_start s with
      | NotStarted => Some (set_start Announcing s)
      | _ => Some s
      end
  | StartPeers tracker_peers =>
      match tm_start s with
      | Announcing => locked s (start_peers tracker_peers s)
      | _ => None
      end
  | DhtPeer peer => locked s (snd (add_dht_peer peer s))
  | StopFlag =>
      match tm_stop s with
      | NotStopping => Some (set_flags true (tm_complete s) (tm_lock s) (tm_start s) FlagSet s)
      | _ => Some s
      end
  | StopCancel =>
      match tm_stop s with
      | FlagSet => locked s (set_stop Joining (cancel_active s))
      | _ => None
      end
  | StopJoin =>
      match tm_stop s with
      | Joining =>
          if forallb (fun w => bool_decide (w_phase w = Done)) (m_threads s)
          then Some (set_stop Stopped s) else None
      | _ => None
      end
  | Completes => Some (set_flags (m_stopped s) true (tm_lock s) (tm_start s) (tm_stop s) s)
  end.

(** A step that cannot be taken leaves the state. *)
Definition tm_exec (s : TM) (a : TmAction) : TM := default s (tm_step s a).
Definition tm_run (s : TM) (acts : list TmAction) : TM := fold_left tm_exec acts s.

(** *** What the torrent reports *)

(** The counters of the connection of thread [tid]. *)
Definition up_of (f : Worker -> Z) (s : TM) (tid : nat) : Z := from_option f 0 (m_threads s !! tid).

(** [uploaded_bytes], [blocks_uploaded] *)
Definition uploaded_bytes (s : TM) : Z :=
  fold_left (fun total c => u64 (total + up_of w_up_bytes s c)) (m_active_connections s)
    (m_uploaded_bytes_retired s).
Definition blocks_uploaded (s : TM) : Z :=
  fold_left (fun total c => u64 (total + up_of w_up_blocks s c)) (m_active_connections s)
    (m_blocks_uploaded_retired s).

Definition is_seeding (s : TM) : bool := tm_complete s && negb (m_stopped s).

(** *** Tracker announces *)

Inductive TrackerEvent := None_ | Completed | Started_ | Stopped_.
Definition event_code (e : TrackerEvent) : Z :=
  match e with None_ => 0 | Completed => 1 | Started_ => 2 | Stopped_ => 3 end.

(** [announce]: the arguments it passes on; the uploaded count is the constant 0. *)
Definition announce_args (h : InfoHash) (peer_id : bytes) (downloaded total : Z) (m_port : Z)
    (e : TrackerEvent) : AnnounceArgs :=
  mkArgs h peer_id downloaded (if downloaded <=? total then total - downloaded else 0) 0
    (event_code e) m_port.

(** [announce] with its handler; [None] is a null [m_tracker]. *)
Definition announce (tracker : option TrackerCommunicator) (details : TrackerDetails)
    (a : AnnounceArgs) : result (list PeerAddress) :=
  match tracker with
  | None => Ok []
  | Some t =>
      match tc_announce t details a with
      | Ok peers => Ok peers
      | Throw e => if catchable e then Ok [] else Throw e
      end
  end.

(** The events [stop] announces after joining the workers. *)
Definition stop_events (has_tracker : bool) (s : TM) : list TrackerEvent :=
  if has_tracker then (if tm_complete s then [Completed] else []) ++ [Stopped_] else [].

(** *** The peers served most *)

Record PeerStat := mkPeerStat { stat_address : bytes; stat_bytes : Z }.

Section top.
(** [std::sort] by decreasing bytes; it leaves the order of ties open. *)
Context (sort_stats : list PeerStat -> list PeerStat).

(** The snapshots over [m_active_connections]. *)
Definition peer_stat (f : Worker -> Z) (s : TM) (w : Worker) : PeerStat :=
  mkPeerStat (peer_to_string (default (mkPeer [] 0) (m_all_peers s !! w_index w))) (f w).

Definition download_stats (s : TM) : list PeerStat :=
  omap (fun tid => w ← m_threads s !! tid; Some (peer_stat w_down_bytes s w)) (m_active_connections s).

Definition upload_stats (s : TM) : list PeerStat :=
  omap (fun tid =>
    w ← m_threads s !! tid;
    if 0 <? w_up_bytes w then Some (peer_stat w_up_bytes s w) else None) (m_active_connections s).

(** Sorting and [stats.resize(n)] *)
Definition top (n : nat) (l : list PeerStat) : list PeerStat :=
  let stats := sort_stats l in if (n <? length stats)%nat then take n stats else stats.

Definition top_peers (n : nat) (s : TM) : list PeerStat := top n (download_stats s).
Definition top_upload_peers (n : nat) (s : TM) : list PeerStat := top n (upload_stats s).

Context (sort_perm : forall l, sort_stats l ≡ₚ l)
        (sort_sorted : forall l, StronglySorted (fun a b => stat_bytes b <= stat_bytes a) (sort_stats l)).

(** At most [n] of them, in decreasing order, and none left out has more than one of them. *)
Lemma top_spec n l :
  let t := top n l in
  (length t <= n)%nat /\ StronglySorted (fun a b => stat_bytes b <= stat_bytes a) t
  /\ exists rest, t ++ rest ≡ₚ l /\ forall x y, x ∈ t -> y ∈ rest -> stat_bytes y <= stat_bytes x.
Proof.
  intros t. assert (t = take n (sort_stats l)) as ->.
  { unfold t, top. case_if; [done|]. b2p. by rewrite take_ge. }
  assert (StronglySorted (fun a b => stat_bytes b <= stat_bytes a) (take n (sort_stats l) ++ drop n (sort_stats l)))
    as Hs by (rewrite take_drop; apply sort_sorted).
  split; [rewrite length_take; lia|]. split.
  - revert Hs. generalize (drop n (sort_stats l)). induction (take n (sort_stats l)) as [|x t0 IH]; intros r Hs; [constructor|].
    inversion Hs as [|? ? Hs' Hf]; subst. constructor; [by eapply IH|]. by apply Forall_app in Hf as [? _].
  - exists (drop n (sort_stats l)). split; [rewrite take_drop; apply sort_perm|].
    revert Hs. generalize (drop n (sort_stats l)). induction (take n (sort_stats l)) as [|z t0 IH]; intros r Hs x y Hx Hy.
    { by apply not_elem_of_nil in Hx. }
    inversion Hs as [|? ? Hs' Hf]; subst. apply elem_of_cons in Hx as [->|Hx]; [|by eapply IH].
    rewrite Forall_forall in Hf. apply Hf. rewrite elem_of_app. by right.
Qed.

(** Every peer reported as being seeded to was served something. *)
Lemma top_upload_spec n s : Forall (fun x => 0 < stat_bytes x) (top_upload_peers n s).
Proof.
  destruct (top_spec n (upload_stats s)) as (_ & _ & rest & Hp & _).
  assert (Forall (fun x => 0 < stat_bytes x) (upload_stats s)) as H.
  { apply Forall_forall. intros x Hx. apply list_elem_of_omap in Hx as (tid & _ & Hx).
    destruct (m_threads s !! tid) as [w|]; [|done]. cbn in Hx. destruct (0 <? w_up_bytes w) eqn:E; [|done].
    injection Hx as <-. by b2p. }
  rewrite <- Hp in H. by apply Forall_app in H as [? _].
Qed.
End top.

(** *** The announces are well formed *)

(** The arguments of an announce always have their types, and what is left is the rest of
    the torrent. *)
Lemma announce_args_ok h peer_id downloaded total port e :
  ih_ok h -> length peer_id = 20%nat -> bytes_ok peer_id ->
  0 <= downloaded < 2 ^ 64 -> 0 <= total < 2 ^ 64 -> 0 <= port < 2 ^ 16 ->
  let a := announce_args h peer_id downloaded total port e in
  args_ok a /\ (downloaded <= total -> an_downloaded a + an_left a = total).
Proof.
  intros Hh Hl Hb Hd Ht Hp a. subst a. unfold announce_args. split.
  - split; cbn [an_info_hash an_peer_id an_downloaded an_left an_uploaded an_event an_port]; try done.
    + case_if; b2p; lia.
    + destruct e; cbn; lia.
  - cbn. intros Hle. rewrite (proj2 (Z.leb_le _ _)) by done. lia.
Qed.

(** A tracker that fails leaves the torrent with no peers from it, and running. *)
Lemma announce_contained t details a e :
  tc_announce t details a = Throw e -> catchable e = true -> announce (Some t) details a = Ok [].
Proof. intros E Hc. unfold announce. by rewrite E, Hc. Qed.

(** ** Sums over the workers *)

Definition zsum (f : Worker -> Z) (l : list Worker) : Z := foldr (fun w a => f w + a) 0 l.

Lemma zsum_app f l l' : zsum f (l ++ l') = zsum f l + zsum f l'.
Proof. induction l as [|w l IH]; cbn [app zsum foldr]; [done|]. fold (zsum f (l ++ l')) (zsum f l). lia. Qed.

Lemma zsum_insert f l i w w' :
  l !! i = Some w -> zsum f (<[i := w']> l) = zsum f l - f w + f w'.
Proof.
  intros Hi. assert (i < length l)%nat by by eapply lookup_lt_Some.
  rewrite insert_take_drop by done.
  rewrite <- (take_drop_middle l i w Hi) at 3. rewrite !zsum_app. cbn [zsum foldr]. lia.
Qed.

Lemma zsum_ext f g l : (forall i w, l !! i = Some w -> f w = g w) -> zsum f l = zsum g l.
Proof.
  induction l as [|x l IH]; intros H; [done|]. cbn. fold (zsum f l) (zsum g l).
  rewrite (H 0%nat x), IH; [done| |done]. intros i w Hi. apply (H (S i)). done.
Qed.

Lemma zsum_bounds f l : (forall w, 0 <= f w <= 1) -> 0 <= zsum f l <= Z.of_nat (length l).
Proof.
  intros Hf. induction l as [|x l IH]; cbn; [lia|]. fold (zsum f l). specialize (Hf x). lia.
Qed.

Lemma zsum_zero f l i w :
  (forall w, 0 <= f w) -> zsum f l = 0 -> l !! i = Some w -> f w = 0.
Proof.
  intros Hf. assert (forall l, 0 <= zsum f l) as Hp.
  { induction l0 as [|x l0 IH]; cbn; [lia|]. fold (zsum f l0). specialize (Hf x). lia. }
  revert i. induction l as [|x l IH]; intros [|i] Hz Hi; try discriminate; cbn in *;
    fold (zsum f l) in Hz; pose proof (Hp l); pose proof (Hf x); simplify_eq; [lia|].
  apply (IH i); [lia|done].
Qed.

Lemma alter_insert (f : Worker -> Worker) (i : nat) (l : list Worker) w : l !! i = Some w -> alter f i l = <[i := f w]> l.
Proof.
  revert i. induction l as [|x l IH]; intros [|i] Hi; try discriminate; cbn in *; [by simplify_eq|].
  f_equal. by apply IH.
Qed.

Lemma zsum_none l : zsum (fun _ => 0) l = 0.
Proof. unfold zsum. induction l; cbn; lia. Qed.

Lemma zsum_one f w : zsum f [w] = f w.
Proof. cbn. lia. Qed.

#[global] Arguments zsum : simpl never.

(** A worker that still counts in [m_workers_running]. *)
Definition busy (p : Phase) : bool := match p with Spawning | Done => false | _ => true end.

Definition b2z (b : bool) : Z := if b then 1 else 0.

(** The address a phase remembers. *)
Definition phase_peer (p : Phase) : option PeerAddress :=
  match p with Copied a | Constructed a | Connecting a => Some a | _ => None end.

(** *** The effect of a worker's step on the pool *)

Definition same_pool (s s' : TM) : Prop :=
  m_all_peers s' = m_all_peers s /\ m_next_peer_index s' = m_next_peer_index s
  /\ m_stopped s' = m_stopped s /\ tm_complete s' = tm_complete s
  /\ tm_start s' = tm_start s /\ tm_stop s' = tm_stop s
  /\ m_dht_peers_discovered s' = m_dht_peers_discovered s.

(** Inverts a worker's step: one goal per phase and outcome. *)
Ltac worker_cases w o s E idx ph :=
  destruct w as [idx ph ? ? ? ?]; unfold worker_step in E; cbn [w_phase w_index] in *;
  destruct ph, o; unfold locked in E; destruct (tm_lock s) eqn:?; try discriminate;
  try (destruct (m_all_peers s !! idx) eqn:?); try (destruct (m_stopped s) eqn:?);
  injection E as <-.

(** Either the worker stays busy and the pool is untouched, or it ends and takes the lock. *)
Lemma worker_step_pool tid w o s s' :
  worker_step tid w o s = Some s' -> m_threads s !! tid = Some w ->
  same_pool s s' /\
  exists w', m_threads s' = <[tid := w']> (m_threads s) /\ w_index w' = w_index w /\
    w_cancelled w' = w_cancelled w /\ w_shut w' = w_shut w /\
    (busy (w_phase w) = true /\ busy (w_phase w') = true /\
       m_workers_running s' = m_workers_running s /\ tm_lock s' = tm_lock s
     \/ w_phase w = Finishing /\ w_phase w' = Spawning /\
       m_workers_running s' = (m_workers_running s - 1)%nat /\ tm_lock s = None /\
       tm_lock s' = Some (mkSpawner (ByWorker tid) false)).
Proof.
  intros E Hw. worker_cases w o s E idx ph; (split; [unfold same_pool; cbn; auto 10|]);
    cbn; erewrite (alter_insert _ _ _ _ Hw); eexists; (split; [reflexivity|]);
    (do 3 (split; [reflexivity|])); cbn; auto 10.
Qed.

(** ** The pool *)

(** [stop] has left the region in which it cancels the connections. *)
Definition joining (s : TM) : Prop := tm_stop s = Joining \/ tm_stop s = Stopped.

Definition passed (s : TM) : bool :=
  match tm_lock s with Some sp => sp_passed sp | None => false end.

Record pool_inv (s : TM) : Prop := {
  pi_nodup : NoDup (m_all_peers s);
  pi_index : forall i w, m_threads s !! i = Some w -> w_index w = i;
  pi_next : m_next_peer_index s = length (m_threads s);
  pi_running : Z.of_nat (m_workers_running s)
               = zsum (fun w => b2z (busy (w_phase w))) (m_threads s);
  pi_room : (m_workers_running s + Nat.b2n (passed s) <= k_max_concurrent_peers)%nat;
  pi_peers : (m_next_peer_index s + Nat.b2n (passed s) <= length (m_all_peers s))%nat;
  pi_spawning : forall i w, m_threads s !! i = Some w ->
    w_phase w = Spawning <-> exists b, tm_lock s = Some (mkSpawner (ByWorker i) b);
  pi_holder : forall i b, tm_lock s = Some (mkSpawner (ByWorker i) b) -> (i < length (m_threads s))%nat;
  pi_work : tm_lock s = None -> spawn_guard s = false;
  pi_stop : tm_stop s = NotStopping <-> m_stopped s = false;
  pi_frozen : joining s -> passed s = false;
  pi_stopped : tm_stop s = Stopped -> forall i w, m_threads s !! i = Some w -> w_phase w = Done;
}.

Lemma list_lookup_insert_cases {A} (l : list A) i j x y :
  <[i := x]> l !! j = Some y -> (j = i /\ y = x) \/ (j <> i /\ l !! j = Some y).
Proof.
  destruct (decide (j = i)) as [->|Hne].
  - intros Hl. left. split; [done|].
    assert (i < length l)%nat as Hi by (apply lookup_lt_Some in Hl; by rewrite length_insert in Hl).
    rewrite list_lookup_insert_eq in Hl by done. by injection Hl.
  - rewrite list_lookup_insert_ne by done. auto.
Qed.

Lemma worker_step_pool_inv tid w o s s' :
  worker_step tid w o s = Some s' -> m_threads s !! tid = Some w -> pool_inv s -> pool_inv s'.
Proof.
  intros E Hw [Hnd Hix Hnx Hru Hro Hpe Hsp Hho Hwo Hst Hfr Hsd].
  destruct (worker_step_pool _ _ _ _ _ E Hw)
    as ((Ep & En & Es & Ec & Estart & Estop & _) & w' & Et & Ei & _ & _ & Hcase).
  assert (tid < length (m_threads s))%nat as Hlt by by eapply lookup_lt_Some.
  assert (Hbz : zsum (fun x => b2z (busy (w_phase x))) (m_threads s')
                = Z.of_nat (m_workers_running s) - b2z (busy (w_phase w)) + b2z (busy (w_phase w'))).
  { rewrite Et, (zsum_insert _ _ _ w) by done. lia. }
  assert (Hnsd : tm_stop s' <> Stopped).
  { rewrite Estop. intros Hs. specialize (Hsd Hs _ _ Hw).
    destruct Hcase as [(Hb & _)|(Hf & _)]; rewrite Hsd in *; discriminate. }
  destruct Hcase as [(Hb & Hb' & Er & El)|(Hf & Hs & Er & El & El')].
  - assert (passed s' = passed s) as Epass by (unfold passed; by rewrite El).
    split; rewrite ?Ep, ?En, ?Er, ?El, ?Es, ?Estop, ?Epass; try done.
    + intros i x Hx. rewrite Et in Hx. apply list_lookup_insert_cases in Hx as [[-> ->]|[_ Hx]].
      * rewrite Ei. by apply Hix.
      * by apply Hix.
    + by rewrite Et, length_insert.
    + rewrite Hbz, Hb, Hb'. lia.
    + intros i x Hx. rewrite Et in Hx. apply list_lookup_insert_cases in Hx as [[-> ->]|[_ Hx]].
      * rewrite <- (Hsp _ _ Hw). split; intros Hph; rewrite Hph in *; discriminate.
      * by apply Hsp.
    + intros i b Hl. rewrite Et, length_insert. by apply (Hho i b).
    + intros Hl. specialize (Hwo Hl). unfold spawn_guard in *. by rewrite Es, Er, En, Ep, Ec.
    + intros Hj. apply Hfr. unfold joining in *. by rewrite Estop in Hj.
    + intros Hs. congruence.
  - assert (passed s' = false) as Epass by (unfold passed; by rewrite El').
    assert (passed s = false) as Epass0 by (unfold passed; by rewrite El).
    rewrite Epass0 in *. rewrite Hf, Hs in Hbz. cbn in Hbz.
    assert (0 < m_workers_running s)%nat.
    { assert (0 <= Z.of_nat (m_workers_running s) - 1 + 0); [|lia]. rewrite <- Hbz.
      apply zsum_bounds. intros x. unfold b2z. case_if; lia. }
    split; rewrite ?Ep, ?En, ?Er, ?El', ?Es, ?Estop, ?Epass; try done.
    + intros i x Hx. rewrite Et in Hx. apply list_lookup_insert_cases in Hx as [[-> ->]|[_ Hx]].
      * rewrite Ei. by apply Hix.
      * by apply Hix.
    + by rewrite Et, length_insert.
    + rewrite Hbz. lia.
    + cbn in *. lia.
    + intros i x Hx. rewrite Et in Hx. apply list_lookup_insert_cases in Hx as [[-> ->]|[Hne Hx]].
      * split; [|done]. intros _. by exists false.
      * rewrite (Hsp _ _ Hx). split; intros [b Hl]; [congruence|]. by injection Hl.
    + intros i b [= <- _]. by rewrite Et, length_insert.
    + intros Hs'. congruence.
Qed.

Lemma goto_lookup tid p s w :
  m_threads s !! tid = Some w -> m_threads (goto tid p s) = <[tid := with_phase p w]> (m_threads s).
Proof. intros Hw. cbn. by apply alter_insert. Qed.

Lemma spawn_step_pool_inv s s' : spawn_step s = Some s' -> pool_inv s -> pool_inv s'.
Proof.
  unfold spawn_step. intros E [Hnd Hix Hnx Hru Hro Hpe Hsp Hho Hwo Hst Hfr Hsd].
  destruct (tm_lock s) as [[h p]|] eqn:El; [|discriminate].
  assert (passed s = p) as Ep by (unfold passed; by rewrite El). rewrite Ep in *.
  destruct p.
  - (* the thread is created *)
    injection E as <-. cbn in Hro, Hpe.
    assert (Hns : ~ joining s) by (intros Hj; by specialize (Hfr Hj)).
    split; cbn; try done; try lia.
    + intros i w [Hw|[? Hw]]%lookup_app_Some; [by apply Hix|].
      destruct (i - length (m_threads s))%nat eqn:Ei; [|done]. injection Hw as <-. cbn. lia.
    + rewrite length_app. cbn. lia.
    + rewrite zsum_app, zsum_one. cbn. lia.
    + intros i w [Hw|[Hi Hw]]%lookup_app_Some.
      * rewrite (Hsp _ _ Hw). split; intros [b Hl]; injection Hl as -> _; by eexists.
      * destruct (i - length (m_threads s))%nat eqn:Ei; [|done]. injection Hw as <-. cbn.
        split; [done|]. intros [b [= -> _]]. specialize (Hho i true eq_refl). lia.
    + intros i b [= -> _]. rewrite length_app. specialize (Hho i true eq_refl). lia.
    + intros Hs. exfalso. apply Hns. by right.
  - destruct (spawn_guard s) eqn:Eg; injection E as <-.
    + (* the conditions hold *)
      assert (m_stopped s = false) as Hns by (unfold spawn_guard in Eg; by b2p).
      unfold spawn_guard in Eg. b2p. cbn in Hro, Hpe.
      split; cbn; try done; try lia.
      * intros i w Hw. rewrite (Hsp _ _ Hw). split; intros [b Hl]; injection Hl as -> _; by eexists.
      * intros i b [= -> _]. by apply (Hho i false).
      * intros [Hj|Hj]; cbn in Hj; apply Hst in Hns; congruence.
    + (* the loop ends and the lock is released *)
      assert (Hg : spawn_guard (set_lock None s) = false) by exact Eg. cbn in Hro, Hpe.
      destruct h as [tid| |]; cbn [spawn_done].
      * destruct (lookup_lt_is_Some_2 (m_threads s) tid) as [w Hw]; [by apply (Hho tid false)|].
        assert (w_phase w = Spawning) as Hph by (apply (Hsp tid w Hw); by exists false).
        split; cbn; rewrite ?(alter_insert _ _ _ _ Hw); try done; try lia.
        -- intros i x Hx. apply list_lookup_insert_cases in Hx as [[-> ->]|[_ Hx]]; [|by apply Hix].
           cbn. by apply Hix.
        -- by rewrite length_insert.
        -- rewrite (zsum_insert _ _ _ w) by done. cbn. rewrite Hph. cbn. lia.
        -- intros i x Hx. apply list_lookup_insert_cases in Hx as [[-> ->]|[Hne Hx]].
           ++ split; [done|]. by intros [b ?].
           ++ rewrite (Hsp _ _ Hx). split; intros [b Hl]; congruence.
        -- intros Hs i x Hx. apply list_lookup_insert_cases in Hx as [[-> ->]|[_ Hx]]; [done|].
           by apply (Hsd Hs i).
      * split; cbn; try done; try lia.
        intros i x Hx. rewrite (Hsp _ _ Hx). split; intros [b Hl]; congruence.
      * split; cbn; try done; try lia.
        intros i x Hx. rewrite (Hsp _ _ Hx). split; intros [b Hl]; congruence.
Qed.

(** *** Peers *)

Lemma append_unique_spec peers all :
  NoDup all ->
  NoDup (append_unique_peers peers all)
  /\ (exists new, append_unique_peers peers all = all ++ new)
  /\ forall p, p ∈ append_unique_peers peers all <-> p ∈ all \/ p ∈ peers.
Proof.
  unfold append_unique_peers. revert all. induction peers as [|p ps IH]; intros all Hnd; cbn [fold_left].
  { split; [done|]. split; [exists []; by rewrite app_nil_r|].
    intros p. rewrite elem_of_nil. tauto. }
  destruct (bool_decide (p ∈ all)) eqn:Ep; b2p.
  - destruct (IH all Hnd) as (H1 & H2 & H3). split; [done|]. split; [done|].
    intros q. rewrite H3, elem_of_cons. split; [tauto|]. intros [?|[->|?]]; auto.
  - destruct (IH (all ++ [p])) as (H1 & [new H2] & H3).
    { apply NoDup_app. split; [done|]. split; [|apply NoDup_singleton].
      intros x Hx Hxp. apply list_elem_of_singleton in Hxp as ->. done. }
    split; [done|]. split; [exists (p :: new); by rewrite H2, <- app_assoc|].
    intros q. rewrite H3, elem_of_app, !elem_of_cons, elem_of_nil. tauto.
Qed.

Lemma append_unique_length peers all :
  NoDup all -> (length all <= length (append_unique_peers peers all))%nat.
Proof.
  intros Hnd. destruct (append_unique_spec peers all Hnd) as (_ & [new ->] & _).
  rewrite length_app. lia.
Qed.

(** More peers, and a thread other than a worker takes the lock to use them. *)
Lemma pool_inv_grow s s' l h :
  pool_inv s -> tm_lock s = None -> NoDup l -> (length (m_all_peers s) <= length l)%nat ->
  (forall tid, h <> ByWorker tid) ->
  m_all_peers s' = l -> m_next_peer_index s' = m_next_peer_index s ->
  m_workers_running s' = m_workers_running s -> m_threads s' = m_threads s ->
  m_stopped s' = m_stopped s -> tm_stop s' = tm_stop s ->
  tm_lock s' = Some (mkSpawner h false) -> pool_inv s'.
Proof.
  intros [Hnd Hix Hnx Hru Hro Hpe Hsp Hho Hwo Hst Hfr Hsd] El Hl Hlen Hh Ep En Er Et Es Estop El'.
  assert (passed s' = false) as Epass by (unfold passed; by rewrite El').
  assert (passed s = false) as Epass0 by (unfold passed; by rewrite El).
  rewrite Epass0 in *.
  split; rewrite ?Ep, ?En, ?Er, ?Et, ?Es, ?Estop, ?El', ?Epass; try done.
  - lia.
  - intros i w Hw. rewrite (Hsp _ _ Hw). split; intros [b Hb]; [congruence|].
    injection Hb as Hb _. by apply Hh in Hb.
  - intros i b [= Hb _]. by apply Hh in Hb.
Qed.

(** A change of members the invariant does not mention. *)
Lemma pool_inv_ext s s' :
  m_all_peers s' = m_all_peers s -> m_next_peer_index s' = m_next_peer_index s ->
  m_workers_running s' = m_workers_running s -> m_threads s' = m_threads s ->
  m_stopped s' = m_stopped s -> tm_complete s' = tm_complete s -> tm_stop s' = tm_stop s ->
  tm_lock s' = tm_lock s -> pool_inv s -> pool_inv s'.
Proof.
  intros Ep En Er Et Es Ec Estop El [Hnd Hix Hnx Hru Hro Hpe Hsp Hho Hwo Hst Hfr Hsd].
  assert (passed s' = passed s) as Epass by (unfold passed; by rewrite El).
  split; rewrite ?Ep, ?En, ?Er, ?Et, ?Es, ?Estop, ?El, ?Epass; try done.
  - intros Hl. specialize (Hwo Hl). unfold spawn_guard in *. by rewrite Es, Er, En, Ep, Ec.
  - intros Hj. apply Hfr. unfold joining in *. by rewrite Estop in Hj.
Qed.

Lemma start_peers_pool_inv ps s :
  tm_lock s = None -> pool_inv s -> pool_inv (start_peers ps s).
Proof.
  intros El H. unfold start_peers.
  set (l := if bool_decide (ps = []) then m_all_peers s else append_unique_peers ps (m_all_peers s)).
  assert (Hl : NoDup l /\ (length (m_all_peers s) <= length l)%nat).
  { pose proof (pi_nodup _ H). subst l. case_if; [done|].
    split; [by apply append_unique_spec|by apply append_unique_length]. }
  destruct Hl as [Hnd Hlen].
  assert (m_all_peers (if bool_decide (ps = []) then s else set_peers (append_unique_peers ps (m_all_peers s)) s) = l)
    as Ep by (subst l; by case_if).
  cbv zeta. rewrite Ep. destruct (bool_decide (l = [])) eqn:E; b2p.
  - assert (m_all_peers s = []) as E0 by (destruct (m_all_peers s); [done|]; rewrite E in Hlen; cbn in Hlen; lia).
    apply (pool_inv_ext s); try (by case_if); [|done].
    transitivity (@nil PeerAddress); [|done].
    destruct (bool_decide (ps = [])); [exact E0|exact (eq_trans Ep E)].
  - apply (pool_inv_grow s _ l ByStart); try done; by case_if.
Qed.

Lemma add_dht_peer_pool_inv p s :
  tm_lock s = None -> pool_inv s -> pool_inv (snd (add_dht_peer p s)).
Proof.
  intros El H. pose proof (pi_nodup _ H) as Hnd. unfold add_dht_peer.
  destruct (append_unique_spec [p] _ Hnd) as (Hnd' & [new Enew] & _). cbn [set_peers m_all_peers].
  case_if; cbn [snd]; b2p.
  - apply (pool_inv_ext s); try done.
    change (append_unique_peers [p] (m_all_peers s) = m_all_peers s). rewrite Enew in Heqb |- *.
    rewrite length_app in Heqb. destruct new; [by rewrite app_nil_r|cbn in Heqb; lia].
  - eapply (pool_inv_grow s _ _ ByDht); try done. by apply append_unique_length.
Qed.

(** *** [cancel] *)

Lemma cancel_idem w : cancel (cancel w) = cancel w.
Proof. destruct w as [i p ub uk c sh]. cbn. unfold cancel; cbn. by rewrite <- orb_assoc, orb_diag. Qed.

Lemma cancel_fold_lookup (act : list nat) (l : list Worker) (i : nat) :
  fold_left (fun l tid => alter cancel tid l) act l !! i
  = (fun w => if decide (i ∈ act) then cancel w else w) <$> l !! i.
Proof.
  revert l. induction act as [|t act IH]; intros l; cbn [fold_left].
  { by destruct (l !! i). }
  rewrite IH. destruct (decide (t = i)) as [->|Hne].
  - rewrite list_lookup_alter_eq. destruct (l !! i) as [w|]; [|done]. cbn. f_equal.
    rewrite (decide_True (P := i ∈ i :: act)) by left. case_decide; [apply cancel_idem|done].
  - rewrite list_lookup_alter_ne by done. destruct (l !! i) as [w|]; [|done]. cbn. f_equal.
    destruct (decide (i ∈ act)).
    + by rewrite decide_True by by right.
    + rewrite decide_False; [done|]. by intros [?|?]%elem_of_cons.
Qed.

Lemma cancel_fold_length act (l : list Worker) :
  length (fold_left (fun l tid => alter cancel tid l) act l) = length l.
Proof. revert l. induction act as [|t act IH]; intros l; cbn; [done|]. by rewrite IH, length_alter. Qed.

Lemma cancel_active_lookup s i w' :
  m_threads (cancel_active s) !! i = Some w' ->
  exists w, m_threads s !! i = Some w /\ w' = (if decide (i ∈ m_active_connections s) then cancel w else w).
Proof.
  cbn. rewrite cancel_fold_lookup. destruct (m_threads s !! i) as [w|]; [|done]. cbn.
  intros [= <-]. by exists w.
Qed.

(** A sum that [cancel] does not see. *)
Lemma zsum_pointwise f g l l' :
  length l = length l' ->
  (forall i w w', l !! i = Some w -> l' !! i = Some w' -> f w = g w') -> zsum f l = zsum g l'.
Proof.
  revert l'. induction l as [|x l IH]; intros [|y l'] Hlen H; try discriminate; [done|].
  unfold zsum in *. cbn. rewrite (H 0%nat x y), (IH l'); [done|by injection Hlen| |done|done].
  intros i w w' Hw Hw'. by apply (H (S i)).
Qed.

Lemma cancel_active_zsum f s :
  (forall w, f (cancel w) = f w) ->
  zsum f (m_threads (cancel_active s)) = zsum f (m_threads s).
Proof.
  intros Hf. apply zsum_pointwise; [apply cancel_fold_length|]. intros i w w' Hw Hw'.
  apply cancel_active_lookup in Hw as (x & Hx & ->). assert (x = w') as -> by congruence.
  case_decide; auto.
Qed.

Lemma cancel_pool_inv s :
  tm_lock s = None -> tm_stop s = FlagSet -> pool_inv s -> pool_inv (set_stop Joining (cancel_active s)).
Proof.
  intros El Estop [Hnd Hix Hnx Hru Hro Hpe Hsp Hho Hwo Hst Hfr Hsd].
  assert (passed s = false) as Epass by (unfold passed; by rewrite El).
  assert (Hlen : length (m_threads (cancel_active s)) = length (m_threads s)) by apply cancel_fold_length.
  split; try done; cbn [set_stop set_flags m_all_peers m_next_peer_index m_workers_running m_threads
    m_stopped tm_complete tm_lock tm_stop] in *.
  - intros i w Hw. apply cancel_active_lookup in Hw as (x & Hx & ->).
    rewrite <- (Hix _ _ Hx). by case_decide.
  - rewrite Hlen. exact Hnx.
  - rewrite cancel_active_zsum by done. exact Hru.
  - intros i w Hw. apply cancel_active_lookup in Hw as (x & Hx & ->).
    rewrite <- (Hsp _ _ Hx). by case_decide.
  - intros i b Hl. rewrite Hlen. by apply (Hho i b).
  - split; [done|]. intros Hs. apply Hst in Hs. congruence.
Qed.

(** ** Connections and counters *)

(** Before the connection can have uploaded. *)
Definition early (p : Phase) : bool :=
  match p with Created | Counted | Copied _ | Constructed _ => true | _ => false end.

(** Counted as started. *)
Definition counted (p : Phase) : bool := match p with Created => false | _ => true end.

(** Counted as started, its handshake not yet counted as a success or a failure. *)
Definition pending (p : Phase) : bool :=
  match p with
  | Counted | Copied _ | Constructed _ | Connecting _ | ConnectFailed | Unregistered
  | ConstructFailed | Connected => true
  | _ => false
  end.

(** What a worker's connection has uploaded and no longer shows. *)
Definition retired_part (f : Worker -> Z) (w : Worker) : Z := if registered (w_phase w) then 0 else f w.

Record conn_inv (s : TM) : Prop := {
  ci_nodup : NoDup (m_active_connections s);
  ci_active : forall i, i ∈ m_active_connections s
    <-> exists w, m_threads s !! i = Some w /\ registered (w_phase w) = true;
  ci_fresh : forall i w, m_threads s !! i = Some w -> early (w_phase w) = true ->
    w_up_bytes w = 0 /\ w_up_blocks w = 0;
  ci_bytes : m_uploaded_bytes_retired s = u64 (zsum (retired_part w_up_bytes) (m_threads s));
  ci_blocks : m_blocks_uploaded_retired s = u64 (zsum (retired_part w_up_blocks) (m_threads s));
  ci_started : m_peer_workers_started s = u64 (zsum (fun w => b2z (counted (w_phase w))) (m_threads s));
  ci_outcomes : m_peer_workers_started s
    = u64 (m_peer_handshakes_ok s + m_peer_handshake_failed s
           + zsum (fun w => b2z (pending (w_phase w))) (m_threads s));
  ci_peer : forall i w a, m_threads s !! i = Some w -> phase_peer (w_phase w) = Some a ->
    m_all_peers s !! i = Some a;
  ci_shut : joining s -> forall i w, m_threads s !! i = Some w -> w_phase w = Running ->
    w_cancelled w = true /\ w_shut w = true;
}.

Lemma u64_l a b : u64 (u64 a + b) = u64 (a + b).
Proof. apply Zplus_mod_idemp_l. Qed.
Lemma u64_r a b : u64 (a + u64 b) = u64 (a + b).
Proof. apply Zplus_mod_idemp_r. Qed.

Lemma u64_if (b : bool) o t : u64 ((if b then u64 (o + 1) else o) + t) = u64 (o + b2z b + t).
Proof. destruct b; cbn [b2z]; rewrite ?u64_l; f_equal; lia. Qed.
Lemma u64_if_end (a : bool) x : (if a then u64 (u64 x + 1) else u64 x) = u64 (x + b2z a).
Proof. destruct a; cbn [b2z]; rewrite ?u64_l; f_equal; lia. Qed.

Lemma outcome_arith (a b c : bool) o f z p p' :
  b2z a + p = b2z b + b2z c + p' ->
  (if a then u64 (u64 (o + f + z) + 1) else u64 (o + f + z))
  = u64 ((if b then u64 (o + 1) else o) + (if c then u64 (f + 1) else f) + (z - p + p')).
Proof.
  intros H. rewrite u64_if_end, <- (Z.add_assoc (if b then _ else _)), u64_if.
  transitivity (u64 ((if c then u64 (f + 1) else f) + (o + b2z b + (z - p + p'))));
    [rewrite u64_if|]; f_equal; lia.
Qed.

(** How a worker's step changes the active connections and the retired totals. *)
Inductive conn_effect (tid : nat) (w w' : Worker) (s s' : TM) : Prop :=
  | effect_none :
      m_active_connections s' = m_active_connections s ->
      m_uploaded_bytes_retired s' = m_uploaded_bytes_retired s ->
      m_blocks_uploaded_retired s' = m_blocks_uploaded_retired s ->
      registered (w_phase w') = registered (w_phase w) ->
      (registered (w_phase w) = true \/ w_up_bytes w' = w_up_bytes w /\ w_up_blocks w' = w_up_blocks w) ->
      conn_effect tid w w' s s'
  | effect_register :
      m_active_connections s' = m_active_connections s ++ [tid] ->
      m_uploaded_bytes_retired s' = m_uploaded_bytes_retired s ->
      m_blocks_uploaded_retired s' = m_blocks_uploaded_retired s ->
      early (w_phase w) = true -> registered (w_phase w') = true ->
      conn_effect tid w w' s s'
  | effect_unregister :
      m_active_connections s' = filter (fun c => c <> tid) (m_active_connections s) ->
      m_uploaded_bytes_retired s' = u64 (m_uploaded_bytes_retired s + w_up_bytes w) ->
      m_blocks_uploaded_retired s' = u64 (m_blocks_uploaded_retired s + w_up_blocks w) ->
      registered (w_phase w) = true -> registered (w_phase w') = false ->
      w_up_bytes w' = w_up_bytes w -> w_up_blocks w' = w_up_blocks w ->
      conn_effect tid w w' s s'.

Lemma worker_step_conn tid w o s s' :
  worker_step tid w o s = Some s' -> m_threads s !! tid = Some w ->
  is_Some (m_all_peers s !! w_index w) ->
  exists w', m_threads s' = <[tid := w']> (m_threads s) /\ conn_effect tid w w' s s' /\
    (early (w_phase w') = true ->
       early (w_phase w) = true /\ w_up_bytes w' = w_up_bytes w /\ w_up_blocks w' = w_up_blocks w) /\
    (forall a, phase_peer (w_phase w') = Some a ->
       phase_peer (w_phase w) = Some a \/ m_all_peers s !! w_index w = Some a) /\
    (w_phase w' = Running -> w_phase w = Running \/ m_stopped s = false).
Proof.
  intros E Hw [a Ha]. worker_cases w o s E idx ph; try congruence;
    cbn; erewrite (alter_insert _ _ _ _ Hw); eexists; (split; [reflexivity|]);
    (split; [first [apply effect_none; cbn; solve [auto] | apply effect_register; cbn; solve [auto]
                   | apply effect_unregister; cbn; solve [auto]]|]); cbn;
    (split; [done|]); (split; [|by auto]); intros; simplify_eq; auto.
Qed.

(** How it changes the counters of workers. *)
Lemma worker_step_counters tid w o s s' :
  worker_step tid w o s = Some s' -> m_threads s !! tid = Some w ->
  is_Some (m_all_peers s !! w_index w) ->
  exists w' (a b c : bool), m_threads s' = <[tid := w']> (m_threads s) /\
    m_peer_workers_started s' = (if a then u64 (m_peer_workers_started s + 1) else m_peer_workers_started s) /\
    m_peer_handshakes_ok s' = (if b then u64 (m_peer_handshakes_ok s + 1) else m_peer_handshakes_ok s) /\
    m_peer_handshake_failed s'
    = (if c then u64 (m_peer_handshake_failed s + 1) else m_peer_handshake_failed s) /\
    b2z (counted (w_phase w')) = b2z (counted (w_phase w)) + b2z a /\
    b2z a + b2z (pending (w_phase w)) = b2z b + b2z c + b2z (pending (w_phase w')).
Proof.
  intros E Hw [p Ha]. worker_cases w o s E idx ph; try congruence;
    cbn; erewrite (alter_insert _ _ _ _ Hw); eexists;
    first [exists false, false, false; repeat (split; [reflexivity|]); reflexivity
          |exists true, false, false; repeat (split; [reflexivity|]); reflexivity
          |exists false, true, false; repeat (split; [reflexivity|]); reflexivity
          |exists false, false, true; repeat (split; [reflexivity|]); reflexivity].
Qed.

(** The retired total follows the sum it stands for. *)
Lemma retired_kept f l tid w w' r :
  l !! tid = Some w -> retired_part f w' = retired_part f w ->
  r = u64 (zsum (retired_part f) l) -> r = u64 (zsum (retired_part f) (<[tid := w']> l)).
Proof. intros Hw Hp ->. rewrite (zsum_insert _ _ _ w), Hp by done. f_equal. lia. Qed.

Lemma retired_folded f l tid w w' r :
  l !! tid = Some w -> registered (w_phase w) = true -> registered (w_phase w') = false ->
  f w' = f w ->
  r = u64 (zsum (retired_part f) l) -> u64 (r + f w) = u64 (zsum (retired_part f) (<[tid := w']> l)).
Proof.
  intros Hw Hr Hr' Hf ->. rewrite (zsum_insert _ _ _ w) by done.
  assert (retired_part f w = 0) as -> by (unfold retired_part; by rewrite Hr).
  assert (retired_part f w' = f w) as -> by (unfold retired_part; by rewrite Hr', Hf).
  rewrite u64_l. f_equal. lia.
Qed.

Lemma retired_same f w w' :
  registered (w_phase w') = registered (w_phase w) -> (registered (w_phase w) = true \/ f w' = f w) ->
  retired_part f w' = retired_part f w.
Proof. unfold retired_part. intros -> [->| ->]; [done|]. by case_if. Qed.

Lemma retired_zero f w : (registered (w_phase w) = true \/ f w = 0) -> retired_part f w = 0.
Proof. unfold retired_part. intros [->| ->]; [done|]. by case_if. Qed.

(** The registered connections are those of the threads in a registered phase. *)
Definition active_ok (s : TM) : Prop :=
  forall i, i ∈ m_active_connections s <-> exists x, m_threads s !! i = Some x /\ registered (w_phase x) = true.

Lemma active_after tid w w' s s' :
  m_threads s !! tid = Some w -> m_threads s' = <[tid := w']> (m_threads s) -> conn_effect tid w w' s s' ->
  NoDup (m_active_connections s) -> active_ok s -> NoDup (m_active_connections s') /\ active_ok s'.
Proof.
  intros Hw Et Heff Hnd Hac. unfold active_ok in *.
  assert (tid < length (m_threads s))%nat as Hlt by by eapply lookup_lt_Some.
  rewrite Et. assert (Htid : forall i, (exists x, <[tid:=w']> (m_threads s) !! i = Some x /\ registered (w_phase x) = true)
    <-> (i = tid /\ registered (w_phase w') = true) \/ (i <> tid /\ i ∈ m_active_connections s)).
  { intros i. rewrite Hac. destruct (decide (i = tid)) as [->|Hne].
    - rewrite list_lookup_insert_eq by done. split; [intros (x & [= <-] & ?); by left|].
      intros [[_ ?]|[? _]]; [by exists w'|done].
    - rewrite list_lookup_insert_ne by done. split; [by right|]. by intros [[? _]|[_ ?]]. }
  assert (tid ∈ m_active_connections s <-> registered (w_phase w) = true) as Hin.
  { rewrite Hac. split; [intros (x & Hx & ?); congruence|by exists w]. }
  destruct Heff as [-> _ _ Hreg _| -> _ _ He Hreg| -> _ _ Hreg Hreg' _ _].
  - split; [done|]. intros i. rewrite Htid, Hreg. destruct (decide (i = tid)) as [->|]; tauto.
  - assert (tid ∉ m_active_connections s) by (rewrite Hin; destruct (w_phase w); discriminate).
    split; [apply NoDup_app; split; [done|]; split; [|apply NoDup_singleton]|].
    + intros i ? ->%list_elem_of_singleton. done.
    + intros i. rewrite Htid, elem_of_app, list_elem_of_singleton.
      destruct (decide (i = tid)) as [->|]; tauto.
  - split; [by apply NoDup_filter|]. intros i. rewrite Htid, list_elem_of_filter, Hreg'.
    destruct (decide (i = tid)) as [->|]; [|tauto]. split; [by intros []|]. by intros [[_ ?]|[? _]].
Qed.

Lemma worker_step_conn_inv tid w o s s' :
  worker_step tid w o s = Some s' -> m_threads s !! tid = Some w ->
  pool_inv s -> conn_inv s -> conn_inv s'.
Proof.
  intros E Hw Hpool [Hnd Hac Hfr Hby Hbl Hst Hou Hpe Hsh].
  assert (is_Some (m_all_peers s !! w_index w)) as Hp.
  { apply lookup_lt_is_Some. rewrite (pi_index _ Hpool _ _ Hw).
    pose proof (pi_peers _ Hpool). pose proof (pi_next _ Hpool).
    apply lookup_lt_Some in Hw. lia. }
  destruct (worker_step_pool _ _ _ _ _ E Hw) as ((Ep & _ & Es & _ & _ & Estop & _) & w0 & Et0 & Ei & Eca & Esh & _).
  destruct (worker_step_conn _ _ _ _ _ E Hw Hp) as (w' & Et & Heff & Hearly & Hph & Hrun).
  destruct (worker_step_counters _ _ _ _ _ E Hw Hp)
    as (w2 & a & b & c & Et2 & E1 & E2 & E3 & H1 & H2).
  assert (tid < length (m_threads s))%nat as Hlt by by eapply lookup_lt_Some.
  assert (w0 = w') as ->.
  { assert (Some w0 = Some w') as [=]; [|done].
    rewrite <- (list_lookup_insert_eq (m_threads s) tid w0), <- (list_lookup_insert_eq (m_threads s) tid w') by done.
    by rewrite <- Et0, <- Et. }
  assert (w2 = w') as ->.
  { assert (Some w2 = Some w') as [=]; [|done].
    rewrite <- (list_lookup_insert_eq (m_threads s) tid w2), <- (list_lookup_insert_eq (m_threads s) tid w') by done.
    by rewrite <- Et2, <- Et. }
  pose proof (pi_index _ Hpool _ _ Hw) as Hidx.
  pose proof (active_after tid w w' s s' Hw Et Heff Hnd Hac) as Hact.
  destruct Hact as [Hnd' Hac']. split; try done.
  - intros i x Hx He. rewrite Et in Hx. apply list_lookup_insert_cases in Hx as [[-> ->]|[_ Hx]]; [|by apply (Hfr i)].
    destruct (Hearly He) as (He0 & -> & ->). by apply (Hfr tid).
  - rewrite Et. destruct Heff as [_ -> _ Hreg Hup|_ -> _ He Hreg|_ -> _ Hreg Hreg' Hu _].
    + apply retired_kept with w; [done| |done]. apply retired_same; [done|]. tauto.
    + apply retired_kept with w; [done| |done].
      rewrite (retired_zero _ w'), (retired_zero _ w) by (first [by left|right; exact (proj1 (Hfr tid w Hw He))]). done.
    + by apply retired_folded.
  - rewrite Et. destruct Heff as [_ _ -> Hreg Hup|_ _ -> He Hreg|_ _ -> Hreg Hreg' _ Hu].
    + apply retired_kept with w; [done| |done]. apply retired_same; [done|]. tauto.
    + apply retired_kept with w; [done| |done].
      rewrite (retired_zero _ w'), (retired_zero _ w) by (first [by left|right; exact (proj2 (Hfr tid w Hw He))]). done.
    + by apply retired_folded.
  - rewrite E1, Et, (zsum_insert _ _ _ w) by done. set (z := zsum _ _) in *.
    rewrite H1, Hst. destruct a; cbn [b2z]; rewrite ?u64_l; f_equal; fold z; lia.
  - rewrite E1, E2, E3, Et, (zsum_insert _ _ _ w) by done. set (z := zsum _ _) in *.
    rewrite Hou. by apply outcome_arith.
  - intros i x q Hx Hq. rewrite Et in Hx. apply list_lookup_insert_cases in Hx as [[-> ->]|[_ Hx]].
    + rewrite Ep. destruct (Hph q Hq) as [?|?]; [by apply (Hpe tid w)|by rewrite <- Hidx].
    + rewrite Ep. by apply (Hpe i x).
  - intros Hj i x Hx Hr. assert (joining s) as Hj0 by (unfold joining in *; by rewrite Estop in Hj).
    rewrite Et in Hx. apply list_lookup_insert_cases in Hx as [[-> ->]|[_ Hx]]; [|by apply (Hsh Hj0 i)].
    rewrite Eca, Esh. destruct (Hrun Hr) as [?|Hns]; [by apply (Hsh Hj0 tid)|].
    apply (pi_stop _ Hpool) in Hns. destruct Hj0; congruence.
Qed.

(** Two workers that the connection invariant does not distinguish. *)
Definition same_conn (w w' : Worker) : Prop :=
  registered (w_phase w') = registered (w_phase w) /\ early (w_phase w') = early (w_phase w)
  /\ counted (w_phase w') = counted (w_phase w) /\ pending (w_phase w') = pending (w_phase w)
  /\ phase_peer (w_phase w') = phase_peer (w_phase w)
  /\ w_up_bytes w' = w_up_bytes w /\ w_up_blocks w' = w_up_blocks w.

Lemma conn_inv_map s s' :
  conn_inv s ->
  m_active_connections s' = m_active_connections s ->
  m_uploaded_bytes_retired s' = m_uploaded_bytes_retired s ->
  m_blocks_uploaded_retired s' = m_blocks_uploaded_retired s ->
  m_peer_workers_started s' = m_peer_workers_started s ->
  m_peer_handshakes_ok s' = m_peer_handshakes_ok s ->
  m_peer_handshake_failed s' = m_peer_handshake_failed s ->
  length (m_threads s') = length (m_threads s) ->
  (forall i w w', m_threads s !! i = Some w -> m_threads s' !! i = Some w' -> same_conn w w') ->
  (forall i a, m_all_peers s !! i = Some a -> m_all_peers s' !! i = Some a) ->
  (joining s' -> forall i w, m_threads s' !! i = Some w -> w_phase w = Running ->
    w_cancelled w = true /\ w_shut w = true) ->
  conn_inv s'.
Proof.
  intros [Hnd Hac Hfr Hby Hbl Hst Hou Hpe Hsh] Ea Eb Ek E1 E2 E3 Hlen Hsame Hpeers Hj.
  assert (Hback : forall i w', m_threads s' !! i = Some w' ->
            exists w, m_threads s !! i = Some w /\ same_conn w w').
  { intros i w' Hw'. destruct (lookup_lt_is_Some_2 (m_threads s) i) as [w Hw];
      [rewrite <- Hlen; by eapply lookup_lt_Some|]. exists w. eauto. }
  assert (Hz : forall f : Worker -> Z, (forall w w', same_conn w w' -> f w' = f w) ->
            zsum f (m_threads s') = zsum f (m_threads s)).
  { intros f Hf. apply zsum_pointwise; [done|]. intros i w' w Hw' Hw. eauto. }
  split; rewrite ?Ea, ?Eb, ?Ek, ?E1, ?E2, ?E3; try done.
  - intros i. rewrite Hac. split; intros (w & Hw & Hr).
    + destruct (lookup_lt_is_Some_2 (m_threads s') i) as [w' Hw'];
        [rewrite Hlen; by eapply lookup_lt_Some|]. exists w'. split; [done|].
      destruct (Hsame _ _ _ Hw Hw') as (-> & _). done.
    + destruct (Hback _ _ Hw) as (x & Hx & Hs). exists x. split; [done|].
      destruct Hs as (<- & _). done.
  - intros i w' Hw' He. destruct (Hback _ _ Hw') as (w & Hw & _ & E & _ & _ & _ & -> & ->).
    apply (Hfr i w Hw). by rewrite <- E.
  - rewrite (Hz (retired_part w_up_bytes)); [done|]. intros w w' (Hr & _ & _ & _ & _ & Hb & _).
    unfold retired_part. by rewrite Hr, Hb.
  - rewrite (Hz (retired_part w_up_blocks)); [done|]. intros w w' (Hr & _ & _ & _ & _ & _ & Hb).
    unfold retired_part. by rewrite Hr, Hb.
  - rewrite Hz; [done|]. by intros w w' (_ & _ & -> & _).
  - rewrite Hz; [done|]. by intros w w' (_ & _ & _ & -> & _).
  - intros i w' a Hw' Ha. destruct (Hback _ _ Hw') as (w & Hw & _ & _ & _ & _ & Hp & _).
    apply Hpeers, (Hpe i w a Hw). by rewrite <- Hp.
Qed.

Lemma same_conn_refl w : same_conn w w.
Proof. by unfold same_conn. Qed.

(** The threads are untouched. *)
Lemma conn_inv_ext s s' :
  conn_inv s ->
  m_active_connections s' = m_active_connections s ->
  m_uploaded_bytes_retired s' = m_uploaded_bytes_retired s ->
  m_blocks_uploaded_retired s' = m_blocks_uploaded_retired s ->
  m_peer_workers_started s' = m_peer_workers_started s ->
  m_peer_handshakes_ok s' = m_peer_handshakes_ok s ->
  m_peer_handshake_failed s' = m_peer_handshake_failed s ->
  m_threads s' = m_threads s ->
  (forall i a, m_all_peers s !! i = Some a -> m_all_peers s' !! i = Some a) ->
  (joining s' -> joining s) -> conn_inv s'.
Proof.
  intros H Ea Eb Ek E1 E2 E3 Et Hp Hj. apply (conn_inv_map s); rewrite ?Et; try done.
  - intros i w w' Hw Hw'. assert (w = w') as -> by congruence. apply same_conn_refl.
  - intros Hj'. apply (ci_shut _ H). by apply Hj.
Qed.

Lemma append_unique_lookup peers all i a :
  NoDup all -> all !! i = Some a -> append_unique_peers peers all !! i = Some a.
Proof.
  intros Hnd Ha. destruct (append_unique_spec peers all Hnd) as (_ & [new ->] & _).
  by apply lookup_app_l_Some.
Qed.

Lemma spawn_step_conn_inv s s' :
  spawn_step s = Some s' -> pool_inv s -> conn_inv s -> conn_inv s'.
Proof.
  unfold spawn_step. intros E Hpool H.
  destruct (tm_lock s) as [[h p]|] eqn:El; [|discriminate].
  destruct p; [|destruct (spawn_guard s)]; injection E as <-.
  - destruct H as [Hnd Hac Hfr Hby Hbl Hst Hou Hpe Hsh].
    assert (Hcase : forall i w, (m_threads s ++ [new_worker (m_next_peer_index s)]) !! i = Some w ->
              m_threads s !! i = Some w \/ w = new_worker (m_next_peer_index s)).
    { intros i w [Hw|[Hi Hw]]%lookup_app_Some; [by left|].
      destruct (i - _)%nat; [|done]. injection Hw as <-. by right. }
    split; cbn; try done; rewrite ?zsum_app, ?zsum_one.
    + intros i. rewrite Hac. split.
      * intros (w & Hw & Hr). exists w. split; [by apply lookup_app_l_Some|done].
      * intros (w & Hw & Hr). apply Hcase in Hw as [Hw| ->]; [by exists w|done].
    + intros i w Hw He. apply Hcase in Hw as [Hw| ->]; [by apply (Hfr i)|done].
    + rewrite Hby. f_equal. unfold retired_part at 3. cbn. lia.
    + rewrite Hbl. f_equal. unfold retired_part at 3. cbn. lia.
    + rewrite Hst. f_equal. cbn. lia.
    + rewrite Hou. f_equal. cbn. lia.
    + intros i w a Hw Ha. apply Hcase in Hw as [Hw| ->]; [by apply (Hpe i w)|done].
    + intros Hj i w Hw Hr. apply Hcase in Hw as [Hw| ->]; [by apply (Hsh Hj i)|done].
  - by apply (conn_inv_ext s).
  - destruct h as [tid| |]; cbn [spawn_done]; [|by apply (conn_inv_ext s)..].
    destruct (lookup_lt_is_Some_2 (m_threads s) tid) as [w Hw]; [by apply (pi_holder _ Hpool tid false)|].
    assert (w_phase w = Spawning) as Hph by (apply (pi_spawning _ Hpool tid w Hw); by exists false).
    apply (conn_inv_map s); try done; cbn; rewrite (alter_insert _ _ _ _ Hw).
    + by rewrite length_insert.
    + intros i x x' Hx Hx'. apply list_lookup_insert_cases in Hx' as [[-> ->]|[_ Hx']].
      * assert (x = w) as -> by congruence. unfold same_conn. cbn. by rewrite Hph.
      * assert (x = x') as -> by congruence. apply same_conn_refl.
    + intros Hj i x Hx Hr. apply list_lookup_insert_cases in Hx as [[-> ->]|[_ Hx]]; [done|].
      by apply (ci_shut _ H Hj i).
Qed.

Lemma start_peers_conn_inv ps s : pool_inv s -> conn_inv s -> conn_inv (start_peers ps s).
Proof.
  intros Hpool H. pose proof (pi_nodup _ Hpool) as Hnd. unfold start_peers. cbv zeta.
  repeat case_if; apply (conn_inv_ext s); try done; intros i a; by apply append_unique_lookup.
Qed.

Lemma add_dht_peer_conn_inv p s : pool_inv s -> conn_inv s -> conn_inv (snd (add_dht_peer p s)).
Proof.
  intros Hpool H. pose proof (pi_nodup _ Hpool) as Hnd. unfold add_dht_peer. cbv zeta.
  case_if; cbn [snd]; apply (conn_inv_ext s); try done; intros i a; by apply append_unique_lookup.
Qed.

Lemma cancel_conn_inv s : conn_inv s -> conn_inv (set_stop Joining (cancel_active s)).
Proof.
  intros H. apply (conn_inv_map s); try done.
  - apply cancel_fold_length.
  - intros i w w' Hw Hw'. apply cancel_active_lookup in Hw' as (x & Hx & ->).
    assert (x = w) as -> by congruence. by case_decide.
  - intros _ i w' Hw' Hr. apply cancel_active_lookup in Hw' as (w & Hw & ->).
    assert (w_phase w = Running) as Hph by (by case_decide).
    rewrite decide_True by (apply (ci_active _ H); exists w; by rewrite Hph).
    cbn. by rewrite Hph, orb_true_r.
Qed.

(** *** Upload totals *)

Definition isum (h : nat -> Z) (l : list nat) : Z := foldr (fun i a => h i + a) 0 l.

Lemma isum_perm h l l' : l ≡ₚ l' -> isum h l = isum h l'.
Proof. unfold isum. induction 1; cbn; lia. Qed.

Lemma isum_filter (P : nat -> Prop) `{!forall i, Decision (P i)} h l :
  (forall i, ~ P i -> h i = 0) -> isum h (filter P l) = isum h l.
Proof.
  intros Hh. induction l as [|i l IH]; [done|]. unfold isum in *. cbn [foldr].
  destruct (decide (P i)).
  - rewrite filter_cons_True by done. cbn [foldr]. by rewrite IH.
  - rewrite filter_cons_False, IH, Hh by done. lia.
Qed.

Lemma isum_seq (g : Worker -> Z) pre l :
  isum (fun i => from_option g 0 ((pre ++ l) !! i)) (seq (length pre) (length l)) = zsum g l.
Proof.
  revert pre. induction l as [|w l IH]; intros pre; [done|].
  unfold isum, zsum in *. cbn [length seq foldr]. rewrite lookup_app_mid. cbn [from_option]. f_equal.
  specialize (IH (pre ++ [w])). rewrite <- app_assoc, length_app in IH. cbn in IH.
  replace (length pre + 1)%nat with (S (length pre)) in IH by lia. exact IH.
Qed.

Definition at_registered (s : TM) (i : nat) : bool :=
  from_option (fun w => registered (w_phase w)) false (m_threads s !! i).

Lemma active_sum f s :
  conn_inv s ->
  isum (up_of f s) (m_active_connections s)
  = zsum (fun w => if registered (w_phase w) then f w else 0) (m_threads s).
Proof.
  intros H. rewrite <- (isum_seq _ [] (m_threads s)). cbn [app length].
  set (h := fun i => from_option (fun w => if registered (w_phase w) then f w else 0) 0 (m_threads s !! i)).
  assert (Hp : m_active_connections s
               ≡ₚ filter (fun i => at_registered s i = true) (seq 0 (length (m_threads s)))).
  { apply NoDup_Permutation; [apply (ci_nodup _ H)|apply NoDup_filter, NoDup_seq|].
    intros i. rewrite (ci_active _ H), list_elem_of_filter, elem_of_seq. unfold at_registered. split.
    - intros (w & Hw & Hr). rewrite Hw. split; [exact Hr|]. apply lookup_lt_Some in Hw. lia.
    - intros [Hr _]. destruct (m_threads s !! i) as [w|]; [|done]. by exists w. }
  rewrite (isum_perm _ _ _ Hp).
  transitivity (isum h (filter (fun i => at_registered s i = true) (seq 0 (length (m_threads s))))).
  - set (L := filter _ _). assert (HL : Forall (fun i => at_registered s i = true) L)
      by (apply Forall_forall; intros i Hi; by apply list_elem_of_filter in Hi as [? _]).
    clearbody L. induction HL as [|i L Hi _ IH]; [done|]. unfold isum in *. cbn [foldr].
    rewrite IH. f_equal. unfold h, up_of, at_registered in *.
    destruct (m_threads s !! i) as [w|]; [|done]. cbn in *. by rewrite Hi.
  - apply isum_filter. intros i Hi. unfold h, at_registered in *.
    destruct (m_threads s !! i) as [w|]; [|done]. cbn in *. by destruct (registered _).
Qed.

Lemma u64_idem x : u64 (u64 x) = u64 x.
Proof. apply Z.mod_mod. lia. Qed.

Lemma fold_u64_sum h l r : u64 r = r -> fold_left (fun t c => u64 (t + h c)) l r = u64 (r + isum h l).
Proof.
  revert r. induction l as [|i l IH]; intros r Hr; unfold isum; cbn [fold_left foldr].
  { by rewrite Z.add_0_r. }
  rewrite IH by apply u64_idem. fold (isum h l).
  rewrite u64_l. f_equal. lia.
Qed.

Lemma zsum_add f g l : zsum f l + zsum g l = zsum (fun w => f w + g w) l.
Proof. unfold zsum. induction l as [|w l IH]; cbn; lia. Qed.

Lemma uploaded_total f r s :
  conn_inv s -> r = u64 (zsum (retired_part f) (m_threads s)) ->
  fold_left (fun t c => u64 (t + up_of f s c)) (m_active_connections s) r = u64 (zsum f (m_threads s)).
Proof.
  intros H ->. rewrite fold_u64_sum by apply u64_idem. rewrite active_sum by done.
  rewrite u64_l, zsum_add. f_equal. apply zsum_ext. intros i w _. unfold retired_part.
  case_if; lia.
Qed.

(** ** Any interleaving *)

Definition tm_inv (s : TM) : Prop := pool_inv s /\ conn_inv s.

Lemma tm_new_inv : tm_inv tm_new.
Proof.
  split; split; cbn; try done; try lia; try (by constructor).
  - intros i. rewrite elem_of_nil. split; [done|]. by intros (w & ? & _).
Qed.

Lemma stop_join_done s :
  forallb (fun w => bool_decide (w_phase w = Done)) (m_threads s) = true ->
  forall i w, m_threads s !! i = Some w -> w_phase w = Done.
Proof.
  intros Hd i w Hw. apply list_elem_of_lookup_2, list_elem_of_In in Hw.
  rewrite forallb_forall in Hd. specialize (Hd _ Hw). by b2p.
Qed.

Lemma tm_step_inv s a s' : tm_step s a = Some s' -> tm_inv s -> tm_inv s'.
Proof.
  intros E [Hp Hc]. destruct a as [tid o| | |ps|p| | | |]; cbn [tm_step] in E.
  - destruct (m_threads s !! tid) as [w|] eqn:Hw; [|done].
    split; [by eapply worker_step_pool_inv|by eapply worker_step_conn_inv].
  - split; [by eapply spawn_step_pool_inv|by eapply spawn_step_conn_inv].
  - destruct (tm_start s); injection E as <-; try done;
      (split; [by apply (pool_inv_ext s)|by apply (conn_inv_ext s)]).
  - destruct (tm_start s); try done. unfold locked in E. destruct (tm_lock s) eqn:El; [done|].
    injection E as <-. split; [by apply start_peers_pool_inv|by apply start_peers_conn_inv].
  - unfold locked in E. destruct (tm_lock s) eqn:El; [done|]. injection E as <-.
    split; [by apply add_dht_peer_pool_inv|by apply add_dht_peer_conn_inv].
  - destruct (tm_stop s) eqn:Es; injection E as <-; try done. split.
    + destruct Hp as [Hnd Hix Hnx Hru Hro Hpe Hsp Hho Hwo Hst Hfr Hsd]. split; try done.
      intros [Hj|Hj]; discriminate Hj.
    + apply (conn_inv_ext s); try done. intros [Hj|Hj]; discriminate Hj.
  - destruct (tm_stop s) eqn:Es; try done. unfold locked in E. destruct (tm_lock s) eqn:El; [done|].
    injection E as <-. split; [by apply cancel_pool_inv|by apply cancel_conn_inv].
  - destruct (tm_stop s) eqn:Es; try done. destruct (forallb _ _) eqn:Ed; [|done].
    injection E as <-. split.
    + destruct Hp as [Hnd Hix Hnx Hru Hro Hpe Hsp Hho Hwo Hst Hfr Hsd]. split; try done.
      * split; [done|]. intros Hs. apply Hst in Hs. congruence.
      * intros _. apply Hfr. by left.
      * intros _. by apply stop_join_done.
    + apply (conn_inv_ext s); try done. intros _. by left.
  - injection E as <-. split.
    + destruct Hp as [Hnd Hix Hnx Hru Hro Hpe Hsp Hho Hwo Hst Hfr Hsd]. split; try done.
      intros _. unfold spawn_guard. cbn. by rewrite andb_false_r.
    + by apply (conn_inv_ext s).
Qed.

Lemma tm_run_inv s acts : tm_inv s -> tm_inv (tm_run s acts).
Proof.
  intros H. apply (fold_left_pres tm_inv); [done|]. intros x a _ Hx. unfold tm_exec.
  destruct (tm_step x a) as [x'|] eqn:E; [by eapply tm_step_inv|done].
Qed.

(** ** Stopping *)

(** The steps a worker has left, uploads apart, once no worker is created any more. *)
Definition rank (p : Phase) : Z :=
  match p with
  | Created => 12 | Counted => 11 | Copied _ => 10 | Constructed _ => 9 | Connecting _ => 8
  | Connected => 7 | HandshakeOk => 6 | Running => 5 | RunFailed => 4 | ConnectFailed => 4
  | Leaving => 3 | Unregistered => 3 | ConstructFailed => 3 | Finishing => 2 | Spawning => 1
  | Done => 0
  end.

Definition steps_left (s : TM) : Z := zsum (fun w => rank (w_phase w)) (m_threads s).

Lemma rank_nonneg p : 0 <= rank p.
Proof. destruct p; cbn; lia. Qed.

Lemma steps_left_nonneg s : 0 <= steps_left s.
Proof.
  unfold steps_left, zsum. induction (m_threads s) as [|w l IH]; cbn; [lia|].
  pose proof (rank_nonneg (w_phase w)). lia.
Qed.

Definition is_transfer (o : Outcome) : bool :=
  match o with UploadsBytes _ | UploadsBlock | DownloadsBytes _ => true | _ => false end.

Lemma worker_step_rank tid w o s s' :
  worker_step tid w o s = Some s' -> m_threads s !! tid = Some w ->
  exists w', m_threads s' = <[tid := w']> (m_threads s) /\
    rank (w_phase w') <= rank (w_phase w) /\
    (is_transfer o = false -> rank (w_phase w') < rank (w_phase w)).
Proof.
  intros E Hw. worker_cases w o s E idx ph; cbn; erewrite (alter_insert _ _ _ _ Hw);
    eexists; (split; [reflexivity|]); cbn; lia.
Qed.

(** Once [m_stopped] is set the conditions of the loop fail. *)
Lemma stopped_guard s : m_stopped s = true -> spawn_guard s = false.
Proof. intros Hs. unfold spawn_guard. by rewrite Hs. Qed.

Lemma joining_stopped s : pool_inv s -> joining s -> m_stopped s = true.
Proof.
  intros H Hj. destruct (m_stopped s) eqn:E; [done|]. apply (pi_stop _ H) in E.
  destruct Hj; congruence.
Qed.

(** After the cancellation the holder of the lock can only leave. *)
Lemma joining_spawn_step s s' :
  pool_inv s -> joining s -> spawn_step s = Some s' ->
  exists h, tm_lock s = Some (mkSpawner h false) /\ s' = spawn_done h s.
Proof.
  intros Hp Hj. unfold spawn_step. pose proof (pi_frozen _ Hp Hj) as Hf. unfold passed in Hf.
  destruct (tm_lock s) as [[h p]|] eqn:El; [|done]. cbn in Hf. subst p.
  rewrite stopped_guard by by apply joining_stopped. intros [= <-]. eauto.
Qed.

Lemma steps_left_insert s s' tid w w' :
  m_threads s !! tid = Some w -> m_threads s' = <[tid := w']> (m_threads s) ->
  steps_left s' = steps_left s - rank (w_phase w) + rank (w_phase w').
Proof. intros Hw Et. unfold steps_left. by rewrite Et, (zsum_insert _ _ _ w). Qed.

Lemma spawn_done_left s h :
  pool_inv s -> tm_lock s = Some (mkSpawner h false) ->
  length (m_threads (spawn_done h s)) = length (m_threads s)
  /\ steps_left (spawn_done h s) <= steps_left s
  /\ (forall tid, h = ByWorker tid -> steps_left (spawn_done h s) < steps_left s).
Proof.
  intros Hp El. destruct h as [tid| |]; cbn [spawn_done]; [|split; [done|split; [done|discriminate]]..].
  destruct (lookup_lt_is_Some_2 (m_threads s) tid) as [w Hw]; [by apply (pi_holder _ Hp tid false)|].
  assert (w_phase w = Spawning) as Hph by (apply (pi_spawning _ Hp tid w Hw); by exists false).
  assert (Et : m_threads (goto tid Done (set_lock None s)) = <[tid := with_phase Done w]> (m_threads s))
    by exact (goto_lookup tid Done (set_lock None s) w Hw).
  rewrite (steps_left_insert s _ tid w _ Hw Et), Et, length_insert, Hph. cbn. split; [done|]. split; lia.
Qed.

(** No step after the cancellation adds a worker or gives one more to do. *)
Lemma joining_step s a s' :
  tm_inv s -> joining s -> tm_step s a = Some s' ->
  joining s' /\ length (m_threads s') = length (m_threads s) /\ steps_left s' <= steps_left s.
Proof.
  intros [Hp Hc] Hj E. destruct a as [tid o| | |ps|p| | | |]; cbn [tm_step] in E.
  - destruct (m_threads s !! tid) as [w|] eqn:Hw; [|done].
    destruct (worker_step_pool _ _ _ _ _ E Hw) as ((_ & _ & _ & _ & _ & Es & _) & _).
    destruct (worker_step_rank _ _ _ _ _ E Hw) as (w' & Et & Hr & _).
    split; [unfold joining in *; by rewrite Es|].
    rewrite (steps_left_insert s s' tid w w' Hw Et), Et, length_insert. split; [done|lia].
  - destruct (joining_spawn_step _ _ Hp Hj E) as (h & El & ->).
    destruct (spawn_done_left s h Hp El) as (H1 & H2 & _). split; [|done]. by destruct h.
  - destruct (tm_start s); injection E as <-; done.
  - destruct (tm_start s); try done. unfold locked in E. destruct (tm_lock s); [done|].
    injection E as <-. unfold start_peers. cbv zeta. by repeat case_if.
  - unfold locked in E. destruct (tm_lock s); [done|]. injection E as <-.
    unfold add_dht_peer. cbv zeta. by case_if.
  - destruct (tm_stop s) eqn:Es; injection E as <-; try done. destruct Hj; congruence.
  - destruct (tm_stop s) eqn:Es; try done. destruct Hj; congruence.
  - destruct (tm_stop s) eqn:Es; try done. destruct (forallb _ _); [|done]. injection E as <-.
    split; [by right|done].
  - injection E as <-. done.
Qed.

(** With the lock free, a worker that is not done can go on. *)
Lemma worker_can_step tid w s :
  pool_inv s -> tm_lock s = None -> m_threads s !! tid = Some w -> w_phase w <> Done ->
  exists s', tm_step s (WorkerStep tid Returns) = Some s' /\ steps_left s' < steps_left s.
Proof.
  intros Hp El Hw Hd. cbn [tm_step]. rewrite Hw.
  assert (w_phase w <> Spawning) as Hs.
  { intros Hs. apply (pi_spawning _ Hp tid w Hw) in Hs as [b ?]. congruence. }
  destruct (worker_step tid w Returns s) as [s'|] eqn:E.
  - exists s'. split; [done|]. destruct (worker_step_rank _ _ _ _ _ E Hw) as (w' & Et & _ & Hr).
    rewrite (steps_left_insert s s' tid w w' Hw Et). specialize (Hr eq_refl). lia.
  - exfalso. unfold worker_step, locked in E. rewrite El in E. destruct (w_phase w); done.
Qed.

Lemma all_done_or s : (forallb (fun w => bool_decide (w_phase w = Done)) (m_threads s) = true)
  \/ exists tid w, m_threads s !! tid = Some w /\ w_phase w <> Done.
Proof.
  induction (m_threads s) as [|w l IH]; [by left|]. cbn.
  destruct (decide (w_phase w = Done)) as [E|E].
  - rewrite bool_decide_eq_true_2 by done. destruct IH as [IH|(tid & x & Hx & Hd)]; [by left|].
    right. by exists (S tid), x.
  - right. by exists 0%nat, w.
Qed.

Lemma tm_exec_step s a s' : tm_step s a = Some s' -> tm_exec s a = s'.
Proof. unfold tm_exec. by intros ->. Qed.

Lemma tm_run_app s l l' : tm_run s (l ++ l') = tm_run (tm_run s l) l'.
Proof. apply fold_left_app. Qed.

(** At most two steps bring the workers closer to their end. *)
Lemma joining_progress s :
  tm_inv s -> joining s ->
  forallb (fun w => bool_decide (w_phase w = Done)) (m_threads s) = true
  \/ exists acts, (length acts <= 2)%nat /\ steps_left (tm_run s acts) < steps_left s
       /\ joining (tm_run s acts).
Proof.
  intros Hi Hj. destruct (all_done_or s) as [?|(tid & w & Hw & Hd)]; [by left|right].
  destruct (tm_lock s) as [[h p]|] eqn:El.
  - destruct (spawn_step s) as [s'|] eqn:E.
    2: { exfalso. unfold spawn_step in E. rewrite El in E. destruct p; [done|]. by destruct (spawn_guard s). }
    destruct Hi as [Hp Hc]. destruct (joining_spawn_step _ _ Hp Hj E) as (h' & El' & ->).
    assert (h' = h) as -> by congruence. assert (p = false) as -> by congruence.
    destruct (spawn_done_left s h Hp El) as (_ & Hle & Hlt).
    destruct (joining_step s SpawnStep _ (conj Hp Hc) Hj E) as (Hj' & _ & _).
    assert (tm_inv (spawn_done h s)) as [Hp' _] by (by apply (tm_step_inv s SpawnStep)).
    destruct h as [i| |].
    + exists [SpawnStep]. cbn [length tm_run fold_left]. rewrite (tm_exec_step _ SpawnStep _ E).
      split; [lia|]. split; [by apply (Hlt i)|done].
    + destruct (worker_can_step tid w (spawn_done ByStart s)) as (s2 & E2 & H2); [done..|].
      exists [SpawnStep; WorkerStep tid Returns]. cbn [length tm_run fold_left].
      rewrite (tm_exec_step _ SpawnStep _ E), (tm_exec_step _ _ _ E2). split; [lia|]. split; [lia|].
      by eapply (joining_step (spawn_done ByStart s) _ s2); [apply (tm_step_inv s SpawnStep)|..].
    + destruct (worker_can_step tid w (spawn_done ByDht s)) as (s2 & E2 & H2); [done..|].
      exists [SpawnStep; WorkerStep tid Returns]. cbn [length tm_run fold_left].
      rewrite (tm_exec_step _ SpawnStep _ E), (tm_exec_step _ _ _ E2). split; [lia|]. split; [lia|].
      by eapply (joining_step (spawn_done ByDht s) _ s2); [apply (tm_step_inv s SpawnStep)|..].
  - destruct (worker_can_step tid w s) as (s2 & E2 & H2); [by destruct Hi|done..|].
    exists [WorkerStep tid Returns]. cbn [length tm_run fold_left]. rewrite (tm_exec_step _ _ _ E2).
    split; [lia|]. split; [done|]. by eapply (joining_step s _ s2).
Qed.

(** What [stop] leaves: every worker done, no connection and no lock held by a worker. *)
Definition drained (s : TM) : Prop :=
  tm_stop s = Stopped /\ m_workers_running s = 0%nat /\ m_active_connections s = []
  /\ (forall i w, m_threads s !! i = Some w -> w_phase w = Done).

Lemma stopped_drained s : tm_inv s -> tm_stop s = Stopped -> drained s.
Proof.
  intros [Hp Hc] Hs. pose proof (pi_stopped _ Hp Hs) as Hd. split; [done|]. split; [|split; [|done]].
  - pose proof (pi_running _ Hp) as Hr. rewrite (zsum_ext _ (fun _ => 0)) in Hr.
    + rewrite zsum_none in Hr. lia.
    + intros i w Hw. by rewrite (Hd i w Hw).
  - destruct (m_active_connections s) as [|i l] eqn:Ea; [done|].
    destruct (proj1 (ci_active _ Hc i)) as (w & Hw & Hr); [rewrite Ea; left|].
    by rewrite (Hd i w Hw) in Hr.
Qed.

Lemma joining_drains n s :
  tm_inv s -> tm_stop s = Joining -> (Z.to_nat (steps_left s) <= n)%nat ->
  exists acts, (length acts <= 2 * n + 1)%nat /\ tm_stop (tm_run s acts) = Stopped.
Proof.
  revert s. induction n as [|n IH]; intros s Hi Hj Hn;
    (destruct (joining_progress s Hi (or_introl Hj)) as [Hd|(acts & Hl & Hlt & Hj')];
     [exists [StopJoin]; split; [cbn; lia|]; cbn; unfold tm_exec; cbn [tm_step]; by rewrite Hj, Hd|]);
    pose proof (steps_left_nonneg (tm_run s acts)); [lia|].
  destruct Hj' as [Hj'|Hs]; [|exists acts; split; [lia|done]].
  destruct (IH (tm_run s acts)) as (more & Hml & Hms); [by apply tm_run_inv|done|lia|].
  exists (acts ++ more). rewrite length_app, tm_run_app. split; [lia|done].
Qed.

(** ** The loop without interference

    The steps of the holder of the lock, run one after the other, compute the loop of
    [spawn_peers_locked] as it is written. *)

Lemma spawn_guard_lock l s : spawn_guard (set_lock l s) = spawn_guard s.
Proof. done. Qed.

Lemma spawn_one_lock l s : spawn_one (set_lock l s) = set_lock l (spawn_one s).
Proof. done. Qed.

Lemma set_lock_twice l l' s : set_lock l (set_lock l' s) = set_lock l s.
Proof. done. Qed.

Lemma spawn_guard_room s :
  spawn_guard s = true -> (m_workers_running s < k_max_concurrent_peers)%nat.
Proof. unfold spawn_guard. intros ?. by b2p. Qed.

Lemma spawn_loop_steps fuel h s :
  (k_max_concurrent_peers < m_workers_running s + fuel)%nat ->
  exists n, tm_run (set_lock (Some (mkSpawner h false)) s) (replicate n SpawnStep)
            = spawn_done h (set_lock (Some (mkSpawner h false)) (spawn_loop fuel s)).
Proof.
  revert s. induction fuel as [|f IH]; intros s Hf; cbn [spawn_loop].
  { exists 1%nat. cbn [replicate tm_run fold_left]. unfold tm_exec. cbn [tm_step]. unfold spawn_step.
    cbn [set_lock set_flags tm_lock]. rewrite spawn_guard_lock.
    destruct (spawn_guard s) eqn:E; [apply spawn_guard_room in E; lia|done]. }
  destruct (spawn_guard s) eqn:E.
  - destruct (IH (spawn_one s)) as [n Hn]; [cbn; lia|]. exists (S (S n)).
    cbn [replicate tm_run fold_left]. rewrite <- Hn. unfold tm_run. f_equal.
    unfold tm_exec at 2. cbn [tm_step]. unfold spawn_step at 1.
    cbn [set_lock set_flags tm_lock]. rewrite spawn_guard_lock, E. reflexivity.
  - exists 1%nat. cbn [replicate tm_run fold_left]. unfold tm_exec. cbn [tm_step]. unfold spawn_step.
    cbn [set_lock set_flags tm_lock]. by rewrite spawn_guard_lock, E.
Qed.

(** [add_dht_peer] as its caller sees it. *)
Definition dht_add (peer : PeerAddress) (s : TM) : bool * TM :=
  let '(added, s') := add_dht_peer peer s in
  (added, if added then set_lock None (spawn_peers_locked s') else s').

Lemma spawn_loop_lock fuel l s : spawn_loop fuel (set_lock l s) = set_lock l (spawn_loop fuel s).
Proof.
  revert s. induction fuel as [|f IH]; intros s; cbn [spawn_loop]; [done|].
  rewrite spawn_guard_lock. case_if; [|done]. by rewrite spawn_one_lock, IH.
Qed.

Lemma dht_add_steps peer s :
  tm_lock s = None -> exists n, tm_run s (DhtPeer peer :: replicate n SpawnStep) = snd (dht_add peer s).
Proof.
  intros El. unfold dht_add. destruct (add_dht_peer peer s) as [added s'] eqn:E.
  assert (tm_exec s (DhtPeer peer) = s') as Es
    by (unfold tm_exec; cbn [tm_step]; unfold locked; rewrite El, E; done).
  destruct added; cbn [snd].
  - assert (exists s0, s' = set_lock (Some (mkSpawner ByDht false)) s0) as [s0 ->].
    { unfold add_dht_peer in E. cbv zeta in E. destruct (_ =? _)%nat; [done|].
      injection E as <-. by eexists. }
    destruct (spawn_loop_steps (S k_max_concurrent_peers) ByDht s0) as [n Hn]; [lia|].
    exists n. change (tm_run s (DhtPeer peer :: replicate n SpawnStep))
      with (tm_run (tm_exec s (DhtPeer peer)) (replicate n SpawnStep)).
    rewrite Es, Hn. cbn [spawn_done]. unfold spawn_peers_locked. by rewrite spawn_loop_lock.
  - exists 0%nat. cbn [replicate]. exact Es.
Qed.

Lemma spawn_loop_peers fuel s : m_all_peers (spawn_loop fuel s) = m_all_peers s.
Proof.
  revert s. induction fuel as [|f IH]; intros s; cbn [spawn_loop]; [done|].
  case_if; [by rewrite IH|done].
Qed.

Lemma dht_add_peers peer s :
  m_all_peers (snd (dht_add peer s)) = append_unique_peers [peer] (m_all_peers s).
Proof.
  unfold dht_add, add_dht_peer. cbv zeta. case_if; cbn [snd fst]; [done|].
  unfold spawn_peers_locked. change (m_all_peers (set_lock None ?x)) with (m_all_peers x).
  by rewrite spawn_loop_peers.
Qed.

(** ** Properties *)

Definition live_workers (s : TM) : Z := zsum (fun w => b2z (busy (w_phase w))) (m_threads s).
Definition workers_counted (s : TM) : Z := zsum (fun w => b2z (counted (w_phase w))) (m_threads s).
Definition workers_pending (s : TM) : Z := zsum (fun w => b2z (pending (w_phase w))) (m_threads s).

(** C26: the worker pool of a torrent, under every interleaving of its worker threads, the
    callers of [start] and [stop], DHT callbacks and the arrival of the last piece.  Known
    peers are distinct; at most forty workers run, exactly the threads that have not
    finished; the thread number [i] works for peer number [i], so every known peer is tried
    by at most one worker, and the index of a worker is always in range.  No work is left
    lying: whenever [m_spawn_mu] is free the torrent is stopped or complete, or forty
    workers run, or every known peer has its worker.  The upload totals are those of all
    connections there ever were, open or closed, and every worker that has started is
    counted once as a successful or failed handshake or is still before that point. *)
Theorem torrent_pool_correct (acts : list TmAction) :
  let s := tm_run tm_new acts in
  NoDup (m_all_peers s) /\
  (m_workers_running s <= k_max_concurrent_peers)%nat /\
  Z.of_nat (m_workers_running s) = live_workers s /\
  (forall i w, m_threads s !! i = Some w ->
     w_index w = i /\ (i < length (m_all_peers s))%nat /\
     forall a, phase_peer (w_phase w) = Some a -> m_all_peers s !! i = Some a) /\
  (tm_lock s = None -> m_stopped s = true \/ tm_complete s = true
     \/ m_workers_running s = k_max_concurrent_peers
     \/ length (m_threads s) = length (m_all_peers s)) /\
  uploaded_bytes s = u64 (zsum w_up_bytes (m_threads s)) /\
  blocks_uploaded s = u64 (zsum w_up_blocks (m_threads s)) /\
  m_peer_workers_started s = u64 (workers_counted s) /\
  m_peer_workers_started s
  = u64 (m_peer_handshakes_ok s + m_peer_handshake_failed s + workers_pending s).
Proof.
  intros s. assert (tm_inv s) as [Hp Hc] by apply tm_run_inv, tm_new_inv.
  pose proof (pi_room _ Hp) as Hro. pose proof (pi_peers _ Hp) as Hpe. pose proof (pi_next _ Hp) as Hnx.
  split; [apply (pi_nodup _ Hp)|]. split; [lia|]. split; [apply (pi_running _ Hp)|].
  split; [|split; [|split; [|split; [|split]]]].
  - intros i w Hw. split; [by apply (pi_index _ Hp)|]. split.
    + apply lookup_lt_Some in Hw. lia.
    + intros a. by apply (ci_peer _ Hc).
  - intros El. pose proof (pi_work _ Hp El) as Hg. unfold spawn_guard in Hg.
    rewrite !andb_false_iff, !negb_false_iff, !Nat.ltb_ge in Hg.
    destruct Hg as [[[Hg|Hg]|Hg]|Hg]; [by left|do 2 right; left; lia|do 3 right; lia|by right; left].
  - by apply uploaded_total, Hc.
  - by apply uploaded_total, Hc.
  - apply (ci_started _ Hc).
  - apply (ci_outcomes _ Hc).
Qed.

(** C29: [stop] drains the pool.  Once it has left the region in which it cancels the
    connections, and so while it joins the threads without holding the mutex, no thread
    is ever added to [m_threads]; every connection inside [run] was cancelled when its
    socket was connected; no step of any thread gives a worker more to do and every step of
    a worker except an upload takes it closer to its end; and from every such state the
    workers can all finish within a bounded number of steps, whoever holds the mutex.  When
    [stop] has joined them no worker runs and no connection is registered. *)
Theorem torrent_stop_drains (acts : list TmAction) :
  let s := tm_run tm_new acts in
  joining s ->
  (forall i w, m_threads s !! i = Some w -> w_phase w = Running ->
     w_cancelled w = true /\ w_shut w = true) /\
  (forall a, length (m_threads (tm_exec s a)) = length (m_threads s)
     /\ steps_left (tm_exec s a) <= steps_left s) /\
  (forall tid w o, m_threads s !! tid = Some w -> is_transfer o = false ->
     is_Some (worker_step tid w o s) -> steps_left (tm_exec s (WorkerStep tid o)) < steps_left s) /\
  (tm_stop s = Joining -> exists more, (length more <= 2 * Z.to_nat (steps_left s) + 1)%nat
     /\ drained (tm_run s more)) /\
  (tm_stop s = Stopped -> drained s).
Proof.
  intros s Hj. assert (tm_inv s) as Hi by apply tm_run_inv, tm_new_inv.
  split; [apply (ci_shut _ (proj2 Hi) Hj)|]. split; [|split; [|split]].
  - intros a. unfold tm_exec. destruct (tm_step s a) as [s'|] eqn:E; [|done].
    by apply (joining_step s a s').
  - intros tid w o Hw Ho [s' E]. unfold tm_exec. cbn [tm_step]. rewrite Hw, E. cbn [default from_option id].
    destruct (worker_step_rank _ _ _ _ _ E Hw) as (w' & Et & _ & Hr).
    rewrite (steps_left_insert s s' tid w w' Hw Et). specialize (Hr Ho). lia.
  - intros Hs. destruct (joining_drains (Z.to_nat (steps_left s)) s Hi Hs) as (more & Hl & Hm); [lia|].
    exists more. split; [done|]. apply stopped_drained; [by apply tm_run_inv|done].
  - intros Hs. by apply stopped_drained.
Qed.

Definition sample_peer : PeerAddress := mkPeer (str "192.168.1.7") 6881.

(** A DHT peer arrives, its worker is created, and [stop] runs while it connects. *)
Definition sample_stop : list TmAction :=
  [DhtPeer sample_peer; SpawnStep; SpawnStep; SpawnStep; WorkerStep 0 Returns; WorkerStep 0 Returns;
   WorkerStep 0 Returns; WorkerStep 0 Returns; StopFlag; StopCancel].

Lemma torrent_stop_drains_witness :
  exists more, drained (tm_run (tm_run tm_new sample_stop) more).
Proof.
  destruct (torrent_stop_drains sample_stop (or_introl eq_refl)) as (_ & _ & _ & H & _).
  destruct (H eq_refl) as (more & _ & Hd). exists more. exact Hd.
Defined.
