(* ===== verification/RunSummary.v ===== *)
(** * The summary of a torrent's run
    (inc/peer_wire/torrent_manager.h, the metrics of src/peer_wire/torrent_manager.cpp)

    The times and the peak speed a torrent keeps, the summary made of them, and the JSON
    file it is written to.  A [time_point] is the nanoseconds since the clock's epoch, so
    that a default one is 0.  The file system answers with an oracle whether directories
    can be made and the file opened. *)

From S2P Require Import Prelude CxxLib Hash TorrentFile Utils Double Json TorrentManager.

(** ** Metrics *)

Record Metrics := mkMetrics {
  m_start_steady : Z;
  m_complete_steady : Z;
  m_peak_speed_bps : double;
  m_summary_written : bool;
}.

Definition metrics_new : Metrics := mkMetrics 0 0 dzero false.

(** What [start] notes after its first call got past [m_started]. *)
Definition note_start (now : Z) (m : Metrics) : Metrics :=
  mkMetrics now (m_complete_steady m) (m_peak_speed_bps m) (m_summary_written m).

Definition record_download_sample (download_bps : double) (m : Metrics) : Metrics :=
  if dlt (m_peak_speed_bps m) download_bps
  then mkMetrics (m_start_steady m) (m_complete_steady m) download_bps (m_summary_written m)
  else m.

Definition mark_complete_at (when : Z) (m : Metrics) : Metrics :=
  if m_complete_steady m =? 0
  then mkMetrics (m_start_steady m) when (m_peak_speed_bps m) (m_summary_written m)
  else m.

(** The compare-exchange of [m_summary_written]. *)
Definition try_mark_summary_written (m : Metrics) : bool * Metrics :=
  (negb (m_summary_written m),
   mkMetrics (m_start_steady m) (m_complete_steady m) (m_peak_speed_bps m) true).

(** ** The summary *)

Record TorrentRunSummary := mkSummary {
  rs_torrent_name : bytes;
  rs_info_hash_hex : bytes;
  rs_duration : bytes;
  rs_size : bytes;
  rs_avg_speed_bps : double;
  rs_peak_speed_bps : double;
  rs_dht_peers_discovered : Z;
  rs_peer_workers_started : Z;
  rs_peer_handshakes_ok : Z;
  rs_peer_handshake_failed : Z;
  rs_peer_run_failed : Z;
  rs_piece_hash_failures : Z;
  rs_complete : bool;
}.

(** [end - start]; no duration when the torrent was not started. *)
Definition run_ns (now : Z) (m : Metrics) : Z :=
  (if m_complete_steady m =? 0 then now else m_complete_steady m) - m_start_steady m.

Definition duration_sec (now : Z) (m : Metrics) : double :=
  if m_start_steady m =? 0 then dzero else sec_of_ns (run_ns now m).

(** [downloaded], [failures]: the counters of the piece manager. *)
Definition build_run_summary (now : Z) (tf : TorrentFile) (tm : TM) (downloaded failures : Z) (m : Metrics)
  : result TorrentRunSummary :=
  let d := duration_sec now m in
  duration ← format_seconds d;
  Ok (mkSummary (torrent_name tf) (ih_hex (tf_info_hash tf)) duration (Double.format_byte_size (total_size tf))
        (if dlt dzero d then ddiv (of_Z downloaded) d else dzero) (m_peak_speed_bps m)
        (m_dht_peers_discovered tm) (m_peer_workers_started tm) (m_peer_handshakes_ok tm)
        (m_peer_handshake_failed tm) (m_peer_run_failed tm) failures (tm_complete tm)).

(** ** The file *)

Definition str_field (k : string) (v : bytes) : bytes := str "  " ++ key k ++ quoted (json_escape v).
Definition num_field (k : string) (v : Z) : bytes := str "  " ++ key k ++ to_string v.
Definition bool_field (k : string) (v : bool) : bytes := str "  " ++ key k ++ bool_text v.
Definition next : bytes := str "," ++ NL.

Definition summary_json (s : TorrentRunSummary) (reference_match : option bool) : bytes :=
  str "{" ++ NL
  ++ str_field "torrent_name" (rs_torrent_name s) ++ next
  ++ str_field "info_hash_hex" (rs_info_hash_hex s) ++ next
  ++ str_field "duration" (rs_duration s) ++ next
  ++ str_field "size" (rs_size s) ++ next
  ++ str_field "avg_speed" (format_byte_rate (rs_avg_speed_bps s)) ++ next
  ++ str_field "peak_speed" (format_byte_rate (rs_peak_speed_bps s)) ++ next
  ++ num_field "dht_peers_discovered" (rs_dht_peers_discovered s) ++ next
  ++ num_field "peer_workers_started" (rs_peer_workers_started s) ++ next
  ++ num_field "peer_handshakes_ok" (rs_peer_handshakes_ok s) ++ next
  ++ num_field "peer_handshake_failed" (rs_peer_handshake_failed s) ++ next
  ++ num_field "peer_run_failed" (rs_peer_run_failed s) ++ next
  ++ num_field "piece_hash_failures" (rs_piece_hash_failures s) ++ next
  ++ bool_field "complete" (rs_complete s)
  ++ match reference_match with Some b => next ++ bool_field "reference_match" b | None => [] end
  ++ NL ++ str "}" ++ NL.

(** The answers of the file system, and the files by their paths. *)
Class OutEnv := mkOut {
  can_make_dirs : bytes -> bool;
  can_open : bytes -> bool;
}.

Abbreviation OutFiles := (gmap bytes bytes).

(** [fs::create_directories(dir)], then an [std::ofstream] on [path] that takes the text: the
    first throws when it fails, a stream that does not open ends the function. *)
Definition write_file `{OutEnv} (dir path : bytes) (text : result bytes) (out : OutFiles) : OutFiles * result unit :=
  if negb (can_make_dirs dir) then (out, Throw (RuntimeError "filesystem_error"))
  else if can_open path then
    match text with
    | Ok t => (<[path := t]> out, Ok ())
    | Throw e => (out, Throw e)
    end
  else (out, Ok ()).

(** [fs::path(path).parent_path()] of [dir / file]. *)
Definition write_run_summary_json `{OutEnv} (dir path : bytes) (s : TorrentRunSummary) (reference_match : option bool)
    (out : OutFiles) : OutFiles * result unit :=
  write_file dir path (Ok (summary_json s reference_match)) out.

(** ** The texts are plain *)

Lemma plain_duration n : Forall plain_char (format_duration n).
Proof. unfold format_duration, with_unit. repeat case_match; eauto 6 with texts. Qed.

Lemma plain_fixed2 v u : 0 <= v -> 0 < u -> Forall plain_char (fixed2 v u).
Proof.
  intros Hv Hu. unfold fixed2. assert (0 <= hundredths v u) as Hh.
  { unfold hundredths. apply (round_even_bounds (100 * v) u 0 (100 * v)); nia. }
  pose proof (Z.mod_pos_bound (hundredths v u) 100 ltac:(lia)). pose proof (Z.mod_pos_bound (hundredths v u) 10 ltac:(lia)).
  assert (0 <= hundredths v u mod 100 / 10 < 10) by (split; [apply Z.div_pos; lia|apply Z.div_lt_upper_bound; lia]).
  apply plain_app; [auto with texts|]. apply plain_app; [auto with texts|].
  repeat constructor; unfold QUOTE, BACKSLASH; lia.
Qed.

Lemma plain_print_fixed2 d : Forall plain_char (print_fixed2 d).
Proof.
  assert (forall b, Forall plain_char (sign b)) as Hs by (intros []; [by apply plain_str|constructor]).
  destruct d as [b|b| |b m e]; cbn [print_fixed2]; try (apply plain_app; [done|]); try (by apply plain_str).
  apply plain_fixed2; [|apply den_pos]. unfold num. assert (0 < 2 ^ Z.max e 0) by (apply Z.pow_pos_nonneg; lia). nia.
Qed.

Lemma plain_rate d : Forall plain_char (format_byte_rate d).
Proof.
  assert (forall x u, plain_text u = true -> Forall plain_char (rate_unit x u)) as H.
  { intros x u Hu. unfold rate_unit. apply plain_app; [apply plain_print_fixed2|].
    apply plain_app; [by apply plain_str|by apply plain_str]. }
  unfold format_byte_rate. repeat case_match; by apply H.
Qed.

Lemma plain_size n : Forall plain_char (Double.format_byte_size n).
Proof.
  unfold Double.format_byte_size, size_unit, with_unit.
  repeat case_match; repeat (apply plain_app); auto using plain_print_fixed2 with texts.
Qed.

Lemma plain_hex_byte b : byte_ok b -> Forall plain_char (hex_byte b).
Proof.
  intros Hb. assert (forall d, 0 <= d < 16 -> plain_char (hex_digit d)) as Hd.
  { intros d Hd. unfold hex_digit, plain_char, QUOTE, BACKSLASH. case_if; b2p; lia. }
  unfold byte_ok in Hb. assert (0 <= b / 16 < 16) by (split; [apply Z.div_pos; lia|apply Z.div_lt_upper_bound; lia]).
  pose proof (Z.mod_pos_bound b 16 ltac:(lia)). unfold hex_byte. apply Forall_cons. split; [by apply Hd|].
  apply Forall_singleton. by apply Hd.
Qed.

Lemma plain_ih_hex h : ih_ok h -> Forall plain_char (ih_hex h).
Proof.
  intros [_ Hh]. unfold ih_hex, to_hex. induction Hh as [|b l Hb _ IH]; [constructor|].
  cbn [map concat]. apply plain_app; [by apply plain_hex_byte|done].
Qed.

(** ** What the file says *)

Definition summary_value (s : TorrentRunSummary) (reference_match : option bool) : json :=
  JObj ([(str "torrent_name", JStr (rs_torrent_name s));
         (str "info_hash_hex", JStr (rs_info_hash_hex s));
         (str "duration", JStr (rs_duration s));
         (str "size", JStr (rs_size s));
         (str "avg_speed", JStr (format_byte_rate (rs_avg_speed_bps s)));
         (str "peak_speed", JStr (format_byte_rate (rs_peak_speed_bps s)));
         (str "dht_peers_discovered", JNum (to_string (rs_dht_peers_discovered s)));
         (str "peer_workers_started", JNum (to_string (rs_peer_workers_started s)));
         (str "peer_handshakes_ok", JNum (to_string (rs_peer_handshakes_ok s)));
         (str "peer_handshake_failed", JNum (to_string (rs_peer_handshake_failed s)));
         (str "peer_run_failed", JNum (to_string (rs_peer_run_failed s)));
         (str "piece_hash_failures", JNum (to_string (rs_piece_hash_failures s)));
         (str "complete", JBool (rs_complete s))]
        ++ match reference_match with Some b => [(str "reference_match", JBool b)] | None => [] end).

Definition counters_ok (s : TorrentRunSummary) : Prop :=
  0 <= rs_dht_peers_discovered s /\ 0 <= rs_peer_workers_started s /\ 0 <= rs_peer_handshakes_ok s
  /\ 0 <= rs_peer_handshake_failed s /\ 0 <= rs_peer_run_failed s /\ 0 <= rs_piece_hash_failures s.

Lemma summary_json_reads_back s r :
  Forall json_safe (rs_torrent_name s) -> Forall json_safe (rs_info_hash_hex s) ->
  Forall json_safe (rs_duration s) -> Forall json_safe (rs_size s) -> counters_ok s ->
  read_json (summary_json s r) = Some (summary_value s r).
Proof.
  intros H1 H2 H3 H4 (C1 & C2 & C3 & C4 & C5 & C6).
  assert (forall d, Forall json_safe (format_byte_rate d)) as Hr by (intros d; apply plain_safe, plain_rate).
  apply read_json_tokens.
  - apply Lexes_all. unfold summary_json, str_field, num_field, bool_field, next.
    destruct r as [b|]; rewrite <- !app_assoc; (eapply Lexes_eq; [lexes; done|reflexivity]).
  - destruct r as [b|]; cbn -[valid_number]; by rewrite !valid_to_string by done.
Qed.

(** The counters of a torrent are [uint64_t]s. *)
Definition tm_counters (s : TM) : Prop :=
  0 <= m_dht_peers_discovered s /\ 0 <= m_peer_workers_started s /\ 0 <= m_peer_handshakes_ok s
  /\ 0 <= m_peer_handshake_failed s /\ 0 <= m_peer_run_failed s.

Lemma u64_nonneg x : 0 <= u64 x.
Proof. apply Z.mod_pos_bound. lia. Qed.

Lemma tm_exec_counters s a : tm_counters s -> tm_counters (tm_exec s a).
Proof.
  intros H. assert (forall s', tm_step s a = Some s' -> tm_counters s') as Hs;
    [|unfold tm_exec; destruct (tm_step s a); [by apply Hs|exact H]].
  intros s' E. unfold tm_counters in *. pose proof u64_nonneg as Hu.
  destruct a as [tid o| | |ps|p| | | |]; cbn [tm_step] in E.
  - destruct (m_threads s !! tid) as [w|]; [|done].
    unfold worker_step, locked in E. repeat case_match; try done; injection E as <-; cbn; auto 8 with lia.
  - unfold spawn_step, spawn_done, goto in E. repeat case_match; try done; injection E as <-; cbn; try done.
    all: destruct (tm_start _); cbn; done.
  - repeat case_match; injection E as <-; done.
  - unfold locked, start_peers in E. repeat case_match; try done; injection E as <-; done.
  - unfold locked, add_dht_peer in E. repeat case_match; try done; injection E as <-; cbn; intuition auto.
  - repeat case_match; injection E as <-; done.
  - unfold locked in E. repeat case_match; try done; injection E as <-; done.
  - repeat case_match; try done; injection E as <-; done.
  - injection E as <-; done.
Qed.

Lemma tm_run_counters acts s : tm_counters s -> tm_counters (tm_run s acts).
Proof. revert s. induction acts as [|a acts IH]; intros s H; [done|]. by apply IH, tm_exec_counters. Qed.

(** A run the clock can measure: shorter than a hundred days. *)
Definition run_ok (now : Z) (m : Metrics) : Prop := m_start_steady m = 0 \/ Z.abs (run_ns now m) < 2 ^ 53.

(** Its whole seconds. *)
Definition run_seconds (now : Z) (m : Metrics) : Z :=
  if m_start_steady m =? 0 then 0 else Z.max 0 (run_ns now m) / 1000000000.

Lemma duration_text now m :
  run_ok now m -> format_seconds (duration_sec now m) = Ok (Utils.format_duration (run_seconds now m)).
Proof.
  intros Hm. unfold duration_sec, run_seconds. destruct (m_start_steady m =? 0) eqn:E; [reflexivity|].
  b2p. destruct Hm as [|Hm]; [done|]. by apply format_seconds_whole.
Qed.

Lemma build_run_summary_ok now tf tm downloaded failures m :
  run_ok now m -> 0 <= failures -> Forall json_safe (torrent_name tf) -> ih_ok (tf_info_hash tf) -> tm_counters tm ->
  exists s, build_run_summary now tf tm downloaded failures m = Ok s
    /\ rs_torrent_name s = torrent_name tf /\ rs_info_hash_hex s = ih_hex (tf_info_hash tf)
    /\ rs_duration s = Utils.format_duration (run_seconds now m)
    /\ rs_complete s = tm_complete tm
    /\ forall r, read_json (summary_json s r) = Some (summary_value s r).
Proof.
  intros Hm Hf Hn Hh (C1 & C2 & C3 & C4 & C5). unfold build_run_summary. rewrite duration_text by done.
  cbn [mbind result_bind]. eexists. split; [reflexivity|]. do 4 (split; [reflexivity|]). intros r.
  apply summary_json_reads_back; cbn; auto using plain_safe, plain_ih_hex, plain_duration, plain_size.
  unfold counters_ok. cbn. lia.
Qed.

Lemma tm_new_counters : tm_counters tm_new.
Proof. unfold tm_counters. cbn. lia. Qed.

(** The average speed: none without a running clock or without data, otherwise the bytes
    per second up to a relative error of [2 ^ -51]. *)
Definition speed_ok (now : Z) (m : Metrics) (downloaded : Z) (v : double) : Prop :=
  (m_start_steady m = 0 \/ run_ns now m <= 0 \/ downloaded = 0 -> v = dzero) /\
  (m_start_steady m <> 0 -> 0 < run_ns now m -> 0 < downloaded ->
   rate_ok downloaded (run_ns now m) v).

Lemma average_speed_ok now tf tm downloaded failures m s :
  run_ok now m -> 0 <= downloaded < 2 ^ 53 -> build_run_summary now tf tm downloaded failures m = Ok s ->
  speed_ok now m downloaded (rs_avg_speed_bps s).
Proof.
  intros Hr Hd. unfold build_run_summary. rewrite duration_text by done. cbn [mbind result_bind]. intros [= <-].
  cbn [rs_avg_speed_bps]. unfold duration_sec.
  destruct (Z.eqb_spec (m_start_steady m) 0) as [H0|H0]; [split; [done|lia]|]. destruct Hr as [|Hr]; [lia|].
  set (ns := run_ns now m) in *. unfold speed_ok. fold ns.
  rewrite seconds_positive by done. destruct (Z.ltb_spec 0 ns) as [Hns|Hns]; [|split; [done|lia]].
  split; [intros [?|[?| ->]]; [lia|lia|apply no_bytes_rate; lia]|intros _ _ Hpos; apply rate_close; lia].
Qed.

(** A name that [json_escape] cannot write spoils the file. *)
Lemma unsafe_summary s r :
  Forall (Z.le 0) (rs_torrent_name s) -> ~ Forall json_safe (rs_torrent_name s) -> read_json (summary_json s r) = None.
Proof.
  intros H0 Hn. unfold summary_json, str_field. rewrite <- !app_assoc, !(app_assoc (str "{")), !(app_assoc (_ ++ NL)), !(app_assoc (_ ++ str "  ")).
  eapply read_unsafe; [|done|done]. rewrite <- !app_assoc.
  apply (Lexes_app (str "{") _ [TSym (chr "{")]); [by apply Lexes_sym|].
  apply (Lexes_app NL _ []); [by apply Lexes_ws; repeat constructor|].
  apply (Lexes_app (str "  ") _ []); [by apply Lexes_ws; repeat constructor|]. by apply Lexes_key.
Qed.


(** A torrent whose name has quotes and a line feed, after 135.9 seconds. *)
Definition sample_torrent : TorrentFile :=
  mkTorrent (str "a" ++ [QUOTE; 10; BACKSLASH] ++ str "b") false 1500000 16384 [] (mkInfoHash (repeat 171 20)) []
    (mkTracker UDP (str "t.example") 80 (str "/")) [].

