(* ===== verification/DhtReport.v ===== *)
(** * The summary of a DHT node's run
    (src/dht/dht_client.cpp: performance_snapshot, build_run_summary, write_run_summary_json)

    The measurements of the node and of its buckets, written as JSON when the session
    stops. *)

From S2P Require Import Prelude CxxLib RoutingTable LookupManager DhtClient Utils Double Json RunSummary.

(** ** The summary *)

(** [format_dht_bucket_lines]: "bucket: entries(received)" for each bucket with any. *)
Definition bucket_line (i : nat) (occupancy : nat) (received : Z) : option bytes :=
  if (occupancy =? 0)%nat && (received =? 0) then None
  else Some (to_string (Z.of_nat i + 1) ++ str ": " ++ to_string (Z.of_nat occupancy)
             ++ str "(" ++ to_string received ++ str ")").

Definition format_dht_bucket_lines (t : RoutingTable) : list bytes :=
  omap (fun i => bucket_line i (default 0%nat (bucket_occupancy t !! i)) (default 0 (peers_received_per_bucket t !! i)))
    (seq 0 NUM_BUCKETS).

Record DhtRunSummary := mkDhtSummary {
  ds_dht : DhtPerformanceSnapshot;
  ds_bucket_lines : list bytes;
}.

Definition build_run_summary (now : Z) `{DhtEnv} (d : DhtClient) : DhtRunSummary :=
  mkDhtSummary (performance_snapshot now d) (format_dht_bucket_lines (dc_rt d)).

(** ** The file *)

(** The loop over the lines: a comma after each but the last. *)
Fixpoint lines_json (l : list bytes) : bytes :=
  match l with
  | [] => []
  | x :: l' =>
      str "    " ++ quoted (json_escape x)
      ++ match l' with [] => NL | _ => str "," ++ NL end ++ lines_json l'
  end.

Definition dht_json (s : DhtRunSummary) (uptime : bytes) : bytes :=
  let d := ds_dht s in
  str "{" ++ NL
  ++ bool_field "bootstrap_skipped" (ps_bootstrap_skipped d)
  ++ (if ps_bootstrap_skipped d
      then next ++ num_field "loaded_entries_at_start" (Z.of_nat (ps_loaded_entries_at_start d))
      else next ++ str "  " ++ key "bootstrap_latency_sec" ++ print_fixed3 (sec_of_ns (ps_bootstrap_latency d)))
  ++ next ++ num_field "routing_table_total" (Z.of_nat (ps_total d))
  ++ next ++ num_field "routing_table_good" (Z.of_nat (ps_good d))
  ++ next ++ str_field "uptime" uptime ++ next
  ++ str "  " ++ key "buckets" ++ str "[" ++ NL
  ++ lines_json (ds_bucket_lines s)
  ++ str "  ]" ++ NL
  ++ str "}" ++ NL.

Definition write_run_summary_json `{OutEnv} (dir path : bytes) (s : DhtRunSummary) (out : OutFiles)
  : OutFiles * result unit :=
  write_file dir path
    (uptime ← format_hours_minutes (sec_of_ns (ps_uptime (ds_dht s))); Ok (dht_json s uptime)) out.

(** ** What the file says *)

Lemma fixed3_chars v u : 0 <= v -> 0 < u ->
  exists ds f, fixed3 v u = ds ++ chr "." :: f /\ valid_number ds = true
    /\ Forall (fun c => isdigit c = true) ds /\ ds <> [] /\ Forall (fun c => isdigit c = true) f /\ length f = 3%nat.
Proof.
  intros Hv Hu. set (h := round_even (1000 * v) u).
  assert (0 <= h) by (apply (round_even_bounds (1000 * v) u 0 (1000 * v)); nia).
  assert (0 <= h / 1000) as Hd by (apply Z.div_pos; lia).
  destruct (to_string_digits (h / 1000) Hd) as (_ & H1 & H2).
  exists (to_string (h / 1000)), [48 + h mod 1000 / 100; 48 + h mod 100 / 10; 48 + h mod 10].
  split; [reflexivity|]. split; [by apply valid_to_string|]. split; [done|]. split; [done|]. split; [|done].
  pose proof (Z.mod_pos_bound h 1000 ltac:(lia)). pose proof (Z.mod_pos_bound h 100 ltac:(lia)).
  pose proof (Z.mod_pos_bound h 10 ltac:(lia)).
  assert (0 <= h mod 1000 / 100 < 10) by (split; [apply Z.div_pos; lia|apply Z.div_lt_upper_bound; lia]).
  assert (0 <= h mod 100 / 10 < 10) by (split; [apply Z.div_pos; lia|apply Z.div_lt_upper_bound; lia]).
  repeat (apply Forall_cons; split; [unfold isdigit; apply andb_true_iff; rewrite !Z.leb_le; lia|]). constructor.
Qed.

Lemma skip_app p s c t : Forall (fun x => p x = true) s -> p c = false -> skip p (s ++ c :: t) = c :: t.
Proof. intros Hs Hc. induction Hs as [|x s Hx _ IH]; cbn; [by rewrite Hc|]. by rewrite Hx, IH. Qed.

(** A fixed-point number is a JSON number, also with a sign. *)
Lemma valid_fixed3 (neg : bool) v u : 0 <= v -> 0 < u ->
  valid_number (sign neg ++ fixed3 v u) = true
  /\ Forall (fun c => num_char c = true) (sign neg ++ fixed3 v u) /\ sign neg ++ fixed3 v u <> [].
Proof.
  intros Hv Hu. destruct (fixed3_chars v u Hv Hu) as (ds & f & -> & Hok & Hds & Hne & Hf & Hl).
  assert (Forall (fun c => num_char c = true) (ds ++ chr "." :: f)) as Hc.
  { apply Forall_app. split; [|apply Forall_cons; split; [done|]];
      (eapply Forall_impl; [eassumption|]; intros c E; unfold num_char; by rewrite E). }
  assert (valid_number (ds ++ chr "." :: f) = true) as Hval.
  { unfold valid_number in *. destruct ds as [|d ds]; [done|]. cbn [app].
    assert ((d =? chr "-") = false) as Em.
    { apply Forall_cons in Hds as [Hd _]. unfold isdigit in Hd. apply Z.eqb_neq. change (chr "-") with 45. b2p. lia. }
    rewrite Em in *. change (d :: ds ++ chr "." :: f) with ((d :: ds) ++ chr "." :: f).
    rewrite span_app, skip_app by done. rewrite span_all, skip_all in Hok by done.
    apply andb_true_iff in Hok as [H0 _]. rewrite H0. cbn [andb valid_fraction].
    change (chr "." =? chr ".") with true. cbv iota. rewrite span_all, skip_all by done.
    destruct f; [done|reflexivity]. }
  destruct neg; cbn [sign app]; [|split; [done|split; [done|by destruct ds]]].
  change (str "-") with [chr "-"]. cbn [app]. split; [|split; [by apply Forall_cons|done]].
  unfold valid_number. change (chr "-" =? chr "-") with true. cbv iota. unfold valid_number in Hval.
  destruct (ds ++ chr "." :: f) as [|d s'] eqn:E; [done|].
  assert ((d =? chr "-") = false) as Em; [|by rewrite Em in Hval].
  destruct ds as [|d' ds]; [done|]. injection E as <- _. apply Forall_cons in Hds as [Hd _].
  unfold isdigit in Hd. apply Z.eqb_neq. change (chr "-") with 45. b2p. lia.
Qed.

(** Durations print as numbers: they are finite. *)
Lemma valid_seconds ns : 0 <= ns < 2 ^ 53 \/ ns = - seconds 1 ->
  valid_number (print_fixed3 (sec_of_ns ns)) = true
  /\ Forall (fun c => num_char c = true) (print_fixed3 (sec_of_ns ns)) /\ print_fixed3 (sec_of_ns ns) <> [].
Proof.
  intros [Hns| ->]; [|vm_compute; repeat split; try done; repeat constructor].
  destruct (Z.eq_dec ns 0) as [->|]; [vm_compute; repeat split; try done; repeat constructor|].
  destruct (ddiv_ints ns 1000000000) as (m & e & y & E & Eq & _); [lia|lia|].
  unfold sec_of_ns, billion. rewrite Eq. cbn [print_fixed3]. apply valid_fixed3; [|apply den_pos].
  unfold num. assert (0 < 2 ^ Z.max e 0) by (apply Z.pow_pos_nonneg; lia). nia.
Qed.

Definition dht_value (s : DhtRunSummary) : json :=
  let d := ds_dht s in
  JObj ([(str "bootstrap_skipped", JBool (ps_bootstrap_skipped d));
         (if ps_bootstrap_skipped d
          then (str "loaded_entries_at_start", JNum (to_string (Z.of_nat (ps_loaded_entries_at_start d))))
          else (str "bootstrap_latency_sec", JNum (print_fixed3 (sec_of_ns (ps_bootstrap_latency d)))));
         (str "routing_table_total", JNum (to_string (Z.of_nat (ps_total d))));
         (str "routing_table_good", JNum (to_string (Z.of_nat (ps_good d))));
         (str "uptime", JStr (format_duration_hours_minutes (Z.max 0 (ps_uptime d) / 1000000000)));
         (str "buckets", JArr (map JStr (ds_bucket_lines s)))]).

Lemma plain_hours_minutes n : Forall plain_char (format_duration_hours_minutes n).
Proof. unfold format_duration_hours_minutes, with_unit. repeat case_match; eauto 6 with texts. Qed.

Lemma plain_bucket_line i n r x : bucket_line i n r = Some x -> Forall plain_char x.
Proof.
  unfold bucket_line. destruct (_ && _); [done|]. intros E. apply Some_inj in E as <-.
  repeat apply plain_app; auto with texts.
Qed.

Lemma Forall_omap_of {A B} (P : B -> Prop) (f : A -> option B) l :
  (forall i x, f i = Some x -> P x) -> Forall P (omap f l).
Proof. intros H. apply Forall_forall. intros x Hx. apply list_elem_of_omap in Hx as (i & _ & Hx). by eapply H. Qed.

Lemma plain_bucket_lines t : Forall (Forall plain_char) (format_dht_bucket_lines t).
Proof. apply Forall_omap_of. intros i x. apply plain_bucket_line. Qed.

(** The lines of the array and their tokens. *)
Lemma Lexes_lines l : Forall (Forall json_safe) l ->
  Lexes (lines_json l)
    match map JStr l with [] => [] | x :: l' => tokens x ++ concat (map (fun y => comma :: tokens y) l') end.
Proof.
  induction 1 as [|x l Hx Hl IH]; [apply Lexes_nil|]. cbn [lines_json map].
  destruct l as [|y l].
  - cbn [lines_json map concat]. rewrite app_nil_r. eapply Lexes_eq; [lexes; done|reflexivity].
  - rewrite <- !app_assoc. cbn [map concat tokens app]. eapply Lexes_eq; [lexes; [done|]|].
    + exact IH.
    + reflexivity.
Qed.

(** The times of a summary the clock can measure; a latency of -1 s when bootstrapping is
    not complete. *)
Definition times_ok (d : DhtPerformanceSnapshot) : Prop :=
  Z.abs (ps_uptime d) < 2 ^ 53 /\ (0 <= ps_bootstrap_latency d < 2 ^ 53 \/ ps_bootstrap_latency d = - seconds 1).

Lemma Lexes_fixed3 ns s ts :
  0 <= ns < 2 ^ 53 \/ ns = - seconds 1 -> hd_ok ends_number s = true -> Lexes s ts ->
  Lexes (print_fixed3 (sec_of_ns ns) ++ s) (TNum (print_fixed3 (sec_of_ns ns)) :: ts).
Proof. intros (_ & Hc & Hne)%valid_seconds. by apply Lexes_number. Qed.

Lemma numbers_valid_strings l : forallb numbers_valid (map JStr l) = true.
Proof. by induction l. Qed.

(** The file a node's summary is written to is JSON, and says what was measured: whether
    the bootstrap was skipped, with the entries loaded, or how long it took; the entries of
    the routing table; the uptime; and a line per bucket in use. *)
Lemma dht_summary_reads_back `{OutEnv} s dir path out :
  times_ok (ds_dht s) -> Forall (Forall json_safe) (ds_bucket_lines s) ->
  can_make_dirs dir = true -> can_open path = true ->
  exists out', write_run_summary_json dir path s out = (out', Ok ())
    /\ (out' !! path ≫= read_json) = Some (dht_value s) /\ forall p, p <> path -> out' !! p = out !! p.
Proof.
  intros [Hup Hlat] Hl Hd Ho. unfold write_run_summary_json, write_file. rewrite Hd, Ho. cbn [negb].
  rewrite format_hours_minutes_whole by done. cbn [mbind result_bind]. eexists. split; [reflexivity|].
  split; [|intros p Hp; by apply lookup_insert_ne].
  rewrite lookup_insert_eq. cbn [mbind option_bind]. apply read_json_tokens.
  - apply Lexes_all. unfold dht_json, dht_value. set (l := ds_bucket_lines s) in *. set (js := map JStr l).
    pose proof (Lexes_lines l Hl) as Hlines. fold js in Hlines.
    assert (Lexes (lines_json l ++ str "  ]" ++ NL ++ str "}" ++ NL)
              (match js with [] => [] | x :: l' => tokens x ++ concat (map (fun y => comma :: tokens y) l') end
               ++ [TSym (chr "]"); TSym (chr "}")])) as Htail.
    { apply Lexes_app; [done|]. change (str "  ]") with (str "  " ++ [chr "]"]). rewrite <- app_assoc.
      eapply Lexes_eq; [lexes|reflexivity]. }
    unfold str_field, num_field, bool_field, next. generalize dependent (lines_json l ++ str "  ]" ++ NL ++ str "}" ++ NL).
    intros tail Htail. destruct (ps_bootstrap_skipped (ds_dht s)); rewrite <- !app_assoc.
    + eapply Lexes_eq; [lexes; try exact Htail; try lia; try done; by apply plain_safe, plain_hours_minutes|].
      clearbody js. cbn. rewrite app_nil_r, <- !app_assoc. reflexivity.
    + eapply Lexes_eq; [lexes; try done; apply Lexes_fixed3; [done|reflexivity|];
        lexes; try exact Htail; try lia; try done; by apply plain_safe, plain_hours_minutes|].
      clearbody js. cbn. rewrite app_nil_r, <- !app_assoc. reflexivity.
  - unfold dht_value. cbn -[valid_number print_fixed3]. rewrite !numbers_valid_strings.
    destruct (ps_bootstrap_skipped (ds_dht s)); cbn -[valid_number print_fixed3];
      rewrite !valid_to_string by lia; [done|]. by rewrite (proj1 (valid_seconds _ Hlat)).
Qed.

(** The summary of a node. *)
Lemma node_summary_reads_back `{DhtEnv, OutEnv} now d dir path out :
  times_ok (performance_snapshot now d) -> can_make_dirs dir = true -> can_open path = true ->
  exists out', write_run_summary_json dir path (build_run_summary now d) out = (out', Ok ())
    /\ (out' !! path ≫= read_json) = Some (dht_value (build_run_summary now d))
    /\ forall p, p <> path -> out' !! p = out !! p.
Proof.
  intros Ht Hd Ho. apply dht_summary_reads_back; [done| |done|done].
  eapply Forall_impl; [apply plain_bucket_lines|]. intros x. apply plain_safe.
Qed.
