(* ===== verification/SessionManager.v ===== *)
(** * All the torrents of a session
    (inc/peer_wire/session_manager.h, src/peer_wire/session_manager.cpp)

    The torrents, the routing of DHT peers to them, the sampling of transfer speeds, the
    status display, and the summaries written to files.  [m_mutex] guards every operation
    here, so each is one function of the state; the threads and their locks are in Locking.
    [add] takes no null pointer and nothing resets an entry of [m_sessions], so the entries
    are torrents.  Speeds are doubles; log lines are left out. *)

From S2P Require Import Prelude CxxLib Hash Addr TorrentFile Utils Double Json DhtReport TorrentManager RunSummary.

(** ** The sessions *)

(** A [TorrentManager] of [m_sessions]: its torrent, its worker pool, the counters of its
    piece manager and its metrics. *)
Record Session := mkSession {
  se_tf : TorrentFile;
  se_tm : TM;
  se_downloaded : Z;       (* downloaded_bytes() *)
  se_hash_failures : Z;    (* piece_hash_failures() *)
  se_run : Metrics;
}.

Definition se_info_hash (s : Session) : InfoHash := tf_info_hash (se_tf s).
Definition info_hash_hex (s : Session) : bytes := ih_hex (se_info_hash s).

Definition with_tm (tm : TM) (s : Session) : Session :=
  mkSession (se_tf s) tm (se_downloaded s) (se_hash_failures s) (se_run s).
Definition with_run (m : Metrics) (s : Session) : Session :=
  mkSession (se_tf s) (se_tm s) (se_downloaded s) (se_hash_failures s) m.

(** [is_complete], [is_seeding], [total_bytes], [progress] of a torrent. *)
Definition is_complete (s : Session) : bool := tm_complete (se_tm s).
Definition seeding (s : Session) : bool := is_seeding (se_tm s).
Definition total_bytes (s : Session) : Z := total_size (se_tf s).
Definition progress (s : Session) : double := percentage (se_downloaded s) (total_bytes s).

(** The body of the loop of the DHT callback. *)
Definition route_peer (hex : bytes) (pa : PeerAddress) (s : Session) : Session :=
  if negb (bool_decide (info_hash_hex s = hex)) then s
  else with_tm (snd (dht_add pa (se_tm s))) s.

(** The callback given to [set_peer_callback]. *)
Definition peer_callback (hex : bytes) (pa : PeerAddress) (m_sessions : list Session)
  : list Session := map (route_peer hex pa) m_sessions.

Definition add (manager : option Session) (m_sessions : list Session) : list Session :=
  match manager with
  | None => m_sessions
  | Some s => m_sessions ++ [s]
  end.

Definition session_count (m_sessions : list Session) : nat := length m_sessions.

Definition all_complete (m_sessions : list Session) : bool :=
  forallb is_complete m_sessions && negb (bool_decide (m_sessions = [])).

(** ** Summaries *)

Definition summary_of (now : Z) (s : Session) : result TorrentRunSummary :=
  build_run_summary now (se_tf s) (se_tm s) (se_downloaded s) (se_hash_failures s) (se_run s).

Definition collect_run_summaries (now : Z) (m_sessions : list Session) : result (list TorrentRunSummary) :=
  traverse (summary_of now) m_sessions.

(** [fs::path(m_metrics_dir) / (sanitized name + "_summary.json")] *)
Definition summary_path (m_metrics_dir : bytes) (s : Session) : bytes :=
  path_append m_metrics_dir (sanitize_filename (torrent_name (se_tf s)) ++ str "_summary.json").

Section files.
Context `{OutEnv}.

(** [write_run_summary_json(path, reference_match)] of a torrent. *)
Definition write_summary (now : Z) (m_metrics_dir : bytes) (reference_match : option bool) (s : Session)
    (out : OutFiles) : OutFiles * result unit :=
  match summary_of now s with
  | Ok summary => write_run_summary_json m_metrics_dir (summary_path m_metrics_dir s) summary reference_match out
  | Throw e => (out, Throw e)
  end.

(** A loop over the torrents that changes them and the files, up to an exception. *)
Fixpoint for_sessions {A} (body : A -> OutFiles -> A * (OutFiles * result unit)) (l : list A) (out : OutFiles)
  : list A * (OutFiles * result unit) :=
  match l with
  | [] => ([], (out, Ok ()))
  | s :: l' =>
      match body s out with
      | (s', (out', Ok _)) => let '(l'', r) := for_sessions body l' out' in (s' :: l'', r)
      | (s', (out', Throw e)) => (s' :: l', (out', Throw e))
      end
  end.

(** The body of the loop of [flush_torrent_summaries_locked]. *)
Definition flush_one (now : Z) (m_metrics_dir : bytes) (m_reference_match : option bool) (s : Session) (out : OutFiles)
  : Session * (OutFiles * result unit) :=
  match m_reference_match with
  | Some _ => (s, write_summary now m_metrics_dir m_reference_match s out)
  | None =>
      let '(b, m) := try_mark_summary_written (se_run s) in
      let s := with_run m s in
      (s, if b then write_summary now m_metrics_dir None s out else (out, Ok ()))
  end.

Definition flush_torrent_summaries_locked (now : Z) (m_metrics_dir : bytes) (m_reference_match : option bool)
    (l : list Session) (out : OutFiles) : list Session * (OutFiles * result unit) :=
  if bool_decide (m_metrics_dir = []) then (l, (out, Ok ()))
  else for_sessions (flush_one now m_metrics_dir m_reference_match) l out.

(** *** The batch summary *)

Definition batch_field (k : string) (v : bytes) : bytes := str "      " ++ key k ++ v.

(** One torrent of the batch; the strings are written as they are. *)
Definition batch_entry (s : TorrentRunSummary) : bytes :=
  str "    {" ++ NL
  ++ batch_field "torrent_name" (quoted (rs_torrent_name s)) ++ next
  ++ batch_field "info_hash_hex" (quoted (rs_info_hash_hex s)) ++ next
  ++ batch_field "complete" (bool_text (rs_complete s)) ++ next
  ++ batch_field "duration" (quoted (rs_duration s)) ++ next
  ++ batch_field "size" (quoted (rs_size s)) ++ next
  ++ batch_field "avg_speed" (quoted (format_byte_rate (rs_avg_speed_bps s))) ++ next
  ++ batch_field "peak_speed" (quoted (format_byte_rate (rs_peak_speed_bps s))) ++ NL
  ++ str "    }".

(** The loop over the summaries: a comma after each but the last. *)
Fixpoint batch_entries (l : list TorrentRunSummary) : bytes :=
  match l with
  | [] => []
  | s :: l' => batch_entry s ++ match l' with [] => [] | _ => str "," end ++ NL ++ batch_entries l'
  end.

Definition batch_json (torrent_count : nat) (summaries : list TorrentRunSummary) (all_complete : bool) : bytes :=
  str "{" ++ NL
  ++ num_field "torrent_count" (Z.of_nat torrent_count) ++ next
  ++ num_field "sessions_reported" (Z.of_nat (length summaries)) ++ next
  ++ bool_field "all_complete" all_complete ++ next
  ++ str "  " ++ key "torrents" ++ str "[" ++ NL
  ++ batch_entries summaries
  ++ str "  ]" ++ NL ++ str "}" ++ NL.

Definition batch_path (m_metrics_dir : bytes) : bytes := path_append m_metrics_dir (str "parallel_batch_summary.json").

Definition write_parallel_batch_summary_locked (now : Z) (m_metrics_dir : bytes) (l : list Session) (out : OutFiles)
  : OutFiles * result unit :=
  match collect_run_summaries now l with
  | Ok summaries =>
      (if can_open (batch_path m_metrics_dir)
       then <[batch_path m_metrics_dir := batch_json (session_count l) summaries (all_complete l)]> out
       else out, Ok ())
  | Throw e => (out, Throw e)
  end.

(** [set_metrics_output_dir]: the directory, and whether making it threw. *)
Definition set_metrics_output_dir (dir : bytes) : bytes * result unit :=
  (dir, if bool_decide (dir = []) then Ok ()
        else throw_if (negb (can_make_dirs dir)) (RuntimeError "filesystem_error")).

(** ** Speeds *)

(** The vectors parallel to [m_sessions], and the time of the last snapshot, 0 for a
    default [time_point]. *)
Record Speeds := mkSpeeds {
  m_prev_bytes : list Z;
  m_speeds_bps : list double;
  m_prev_up_bytes : list Z;
  m_up_speeds_bps : list double;
  m_last_snapshot : Z;
}.

Definition speeds_new : Speeds := mkSpeeds [] [] [] [] 0.

(** [v.resize(n, x)] *)
Definition resize {A} (n : nat) (x : A) (v : list A) : list A := take n v ++ replicate (n - length v) x.

(** [(curr >= prev) ? (curr - prev) : 0] *)
Definition delta (curr prev : Z) : Z := if prev <=? curr then curr - prev else 0.

(** [static_cast<double>(delta) / elapsed] *)
Definition rate (delta : Z) (elapsed : double) : double := ddiv (of_Z delta) elapsed.

(** A session and its entries of the four vectors. *)
Record Row := mkRow { r_session : Session; r_prev : Z; r_speed : double; r_prev_up : Z; r_up_speed : double }.

Definition with_session (s : Session) (r : Row) : Row :=
  mkRow s (r_prev r) (r_speed r) (r_prev_up r) (r_up_speed r).

(** The body of the sampling loop; [elapsed] since the last snapshot. *)
Definition sample_row (m_metrics_dir : bytes) (now : Z) (elapsed : double) (r : Row) (out : OutFiles)
  : Row * (OutFiles * result unit) :=
  let s := r_session r in
  if is_complete s then
    let s1 := with_run (mark_complete_at now (se_run s)) s in
    if bool_decide (m_metrics_dir = []) then (with_session s1 r, (out, Ok ()))
    else
      let '(b, m) := try_mark_summary_written (se_run s1) in
      let s2 := with_run m s1 in
      (with_session s2 r, if b then write_summary now m_metrics_dir None s2 out else (out, Ok ()))
  else
    let curr := se_downloaded s in
    let speed := rate (delta curr (r_prev r)) elapsed in
    let up_curr := uploaded_bytes (se_tm s) in
    (mkRow (with_run (record_download_sample speed (se_run s)) s) curr speed
       up_curr (rate (delta up_curr (r_prev_up r)) elapsed), (out, Ok ())).

(** The first call only takes the starting values. *)
Definition seed_row (r : Row) : Row :=
  mkRow (r_session r) (se_downloaded (r_session r)) (r_speed r)
    (uploaded_bytes (se_tm (r_session r))) (r_up_speed r).

Fixpoint rows (l : list Session) (p : list Z) (sp : list double) (u : list Z) (us : list double) : list Row :=
  match l, p, sp, u, us with
  | s :: l', a :: p', b :: sp', c :: u', d :: us' => mkRow s a b c d :: rows l' p' sp' u' us'
  | _, _, _, _, _ => []
  end.

Definition of_rows (rs : list Row) (last : Z) : list Session * Speeds :=
  (map r_session rs,
   mkSpeeds (map r_prev rs) (map r_speed rs) (map r_prev_up rs) (map r_up_speed rs) last).

(** The sampling part of [print_status_locked] at time [now]; an exception leaves the
    snapshot's time. *)
Definition sample (m_metrics_dir : bytes) (now : Z) (l : list Session) (v : Speeds) (out : OutFiles)
  : (list Session * Speeds) * (OutFiles * result unit) :=
  let n := length l in
  let rs := rows l (resize n 0 (m_prev_bytes v)) (resize n dzero (m_speeds_bps v))
              (resize n 0 (m_prev_up_bytes v)) (resize n dzero (m_up_speeds_bps v)) in
  if m_last_snapshot v =? 0 then (of_rows (map seed_row rs) now, (out, Ok ()))
  else
    let elapsed := sec_of_ns (now - m_last_snapshot v) in
    if dlt lit_0_05 elapsed then
      let '(rs', (out', r)) := for_sessions (sample_row m_metrics_dir now elapsed) rs out in
      (of_rows rs' (match r with Ok _ => now | Throw _ => m_last_snapshot v end), (out', r))
    else (of_rows rs (m_last_snapshot v), (out, Ok ())).

(** ** The status display *)

(** [std::setw(n)] with [std::left], with [std::right]. *)
Definition pad_left (n : nat) (s : bytes) : bytes := s ++ replicate (n - length s) 32.
Definition pad_right (n : nat) (s : bytes) : bytes := replicate (n - length s) 32 ++ s.

Context (sort_stats : list PeerStat -> list PeerStat).

(** [static_cast<uint64_t>(up_bytes / static_cast<double>(total) * 100.0)] *)
Definition piece_note (up_bytes total : Z) : result bytes :=
  if 0 <? total then
    p ← to_u64 (percentage up_bytes total);
    Ok (str "  (~" ++ to_string p ++ str "% of torrent size)")
  else Ok [].

Definition peer_line (p : PeerStat) : bytes :=
  str "      " ++ pad_left 26 (stat_address p) ++ str "  " ++ Double.format_byte_size (stat_bytes p) ++ NL.

(** The block of one torrent; [speed], [up_speed]: its entries of the vectors. *)
Definition session_status (s : Session) (speed up_speed : double) : result bytes :=
  let size_info := str "(" ++ Double.format_byte_size (se_downloaded s) ++ str " / "
                   ++ Double.format_byte_size (total_bytes s) ++ str ")" in
  let head := str "  " ++ pad_left 48 (take 48 (torrent_name (se_tf s))) ++ pad_right 7 (print_fixed2 (progress s))
    ++ str "%  " ++ pad_left 24 size_info ++ str "  " ++ pad_left 14 (format_byte_rate speed) ++ str "  "
    ++ str (if seeding s then "seeding" else "active") ++ NL
    ++ str "    DHT peers discovered: " ++ to_string (m_dht_peers_discovered (se_tm s)) ++ NL in
  let up_bytes := uploaded_bytes (se_tm s) in
  served ← (if seeding s then
              note ← piece_note up_bytes (total_bytes s);
              Ok (str "    seeded: " ++ Double.format_byte_size up_bytes ++ str " in "
                  ++ to_string (blocks_uploaded (se_tm s)) ++ str " blocks" ++ note ++ str "  up "
                  ++ format_byte_rate up_speed ++ NL)
            else Ok []);
  let peers := top_peers sort_stats 10 (se_tm s) in
  let up_peers := top_upload_peers sort_stats 10 (se_tm s) in
  Ok (head ++ served
      ++ (if negb (seeding s) && negb (bool_decide (peers = []))
          then str "    ---- top peers (download) ----" ++ NL ++ concat (map peer_line peers) else [])
      ++ (if negb (bool_decide (up_peers = []))
          then str "    ---- seeding to (" ++ to_string (Z.of_nat (length up_peers)) ++ str ") ----" ++ NL
               ++ concat (map peer_line up_peers)
          else [])).

(** The printing part of [print_status_locked]. *)
Definition status_text (l : list Session) (v : Speeds) : result bytes :=
  blocks ← traverse (fun '(i, s) => session_status s (default dzero (m_speeds_bps v !! i))
                                                     (default dzero (m_up_speeds_bps v !! i)))
             (imap (fun i s => (i, s)) l);
  Ok (str "---- sessions (" ++ to_string (Z.of_nat (session_count l)) ++ str ") ----" ++ NL ++ concat blocks).

(** ** The members, and the operations on them *)

Record SM := mkSM {
  sm_sessions : list Session;
  sm_speeds : Speeds;
  sm_metrics_dir : bytes;
  sm_reference_match : option bool;
}.

Definition sm_new : SM := mkSM [] speeds_new [] None.

Definition with_sessions (l : list Session) (s : SM) : SM :=
  mkSM l (sm_speeds s) (sm_metrics_dir s) (sm_reference_match s).

(** [print_status_locked]: the members and files it changes, and what it prints. *)
Definition print_status (now : Z) (s : SM) (out : OutFiles) : SM * OutFiles * result bytes :=
  let '((l, v), (out', r)) := sample (sm_metrics_dir s) now (sm_sessions s) (sm_speeds s) out in
  (mkSM l v (sm_metrics_dir s) (sm_reference_match s), out', _ ← r; status_text l v).

(** One part of a function that writes files, and the next unless it throws. *)
Definition and_then (r : OutFiles * result unit) (f : OutFiles -> OutFiles * result unit) : OutFiles * result unit :=
  match r with
  | (out, Ok _) => f out
  | (out, Throw e) => (out, Throw e)
  end.

Definition dht_path (m_metrics_dir : bytes) : bytes := path_append m_metrics_dir (str "dht_summary.json").

(** The region of [stop_all] that writes the summaries; [dht]: the summary of the DHT node,
    when there is one. *)
Definition write_summaries (now : Z) (dht : option DhtRunSummary) (s : SM) (out : OutFiles)
  : SM * (OutFiles * result unit) :=
  let dir := sm_metrics_dir s in
  let '(l, r) := flush_torrent_summaries_locked now dir (sm_reference_match s) (sm_sessions s) out in
  (with_sessions l s,
   and_then (and_then r (fun out =>
     if (1 <? session_count l)%nat && negb (bool_decide (dir = []))
     then write_parallel_batch_summary_locked now dir l out else (out, Ok ())))
     (fun out => match dht with
                 | Some d => if bool_decide (dir = []) then (out, Ok ())
                             else DhtReport.write_run_summary_json dir (dht_path dir) d out
                 | None => (out, Ok ())
                 end)).
End files.

(** ** What happens to a session *)

(** A torrent's own threads: the pool, and the pieces that arrive.  [start] notes its time
    when it is called first. *)
Definition torrent_step (now : Z) (a : TmAction) (s : Session) : Session :=
  let m := match a with
           | StartCall => if bool_decide (tm_start (se_tm s) = NotStarted) then note_start now (se_run s) else se_run s
           | _ => se_run s
           end in
  with_run m (with_tm (tm_exec (se_tm s) a) s).

Definition piece_step (downloaded failures : Z) (s : Session) : Session :=
  mkSession (se_tf s) (se_tm s) (u64 (se_downloaded s + downloaded)) (u64 (se_hash_failures s + failures)) (se_run s).

Definition session_new (tf : TorrentFile) : Session := mkSession tf tm_new 0 0 metrics_new.

Inductive sm_op :=
  | SAdd (tf : TorrentFile)
  | SPeer (hex : bytes) (pa : PeerAddress)
  | SPrint
  | SReferenceMatch (m : option bool)
  | SMetricsDir (dir : bytes)
  | SSummaries (dht : option DhtRunSummary)   (* that part of [stop_all] *)
  | STorrent (i : nat) (a : TmAction)
  | SPiece (i : nat) (downloaded failures : Z).

Definition sm_step `{OutEnv} (sort_stats : list PeerStat -> list PeerStat) (now : Z) (o : sm_op) (st : SM * OutFiles)
  : SM * OutFiles :=
  let '(s, out) := st in
  match o with
  | SAdd tf => (with_sessions (add (Some (session_new tf)) (sm_sessions s)) s, out)
  | SPeer hex pa => (with_sessions (peer_callback hex pa (sm_sessions s)) s, out)
  | SPrint => fst (print_status sort_stats now s out)
  | SReferenceMatch m => (mkSM (sm_sessions s) (sm_speeds s) (sm_metrics_dir s) m, out)
  | SMetricsDir dir =>
      (mkSM (sm_sessions s) (sm_speeds s) (fst (set_metrics_output_dir dir)) (sm_reference_match s), out)
  | SSummaries dht => let '(s', (out', _)) := write_summaries now dht s out in (s', out')
  | STorrent i a => (with_sessions (alter (torrent_step now a) i (sm_sessions s)) s, out)
  | SPiece i d f => (with_sessions (alter (piece_step d f) i (sm_sessions s)) s, out)
  end.

Definition sm_run `{OutEnv} (sort_stats : list PeerStat -> list PeerStat) (st : SM * OutFiles) (es : list (Z * sm_op)) : SM * OutFiles :=
  fold_left (fun st '(now, o) => sm_step sort_stats now o st) es st.

(** ** Speeds: facts *)

Lemma length_resize {A} n (x : A) v : length (resize n x v) = n.
Proof. unfold resize. rewrite length_app, length_take, length_replicate. lia. Qed.

Lemma rows_lookup l p sp u us i s :
  length p = length l -> length sp = length l -> length u = length l -> length us = length l ->
  l !! i = Some s ->
  exists a b c d, p !! i = Some a /\ sp !! i = Some b /\ u !! i = Some c /\ us !! i = Some d
    /\ rows l p sp u us !! i = Some (mkRow s a b c d).
Proof.
  revert p sp u us i. induction l as [|s0 l IH]; intros [|a p] [|b sp] [|c u] [|d us] i H1 H2 H3 H4 Hi;
    try discriminate; cbn [rows].
  destruct i as [|i].
  - injection Hi as ->. do 4 eexists. repeat (split; [reflexivity|]). reflexivity.
  - apply (IH p sp u us i); [by injection H1|by injection H2|by injection H3|by injection H4|exact Hi].
Qed.

Lemma rows_sessions l p sp u us :
  length p = length l -> length sp = length l -> length u = length l -> length us = length l ->
  map r_session (rows l p sp u us) = l.
Proof.
  revert p sp u us. induction l as [|s0 l IH]; intros [|a p] [|b sp] [|c u] [|d us] H1 H2 H3 H4; try done; cbn.
  injection H1 as H1. injection H2 as H2. injection H3 as H3. injection H4 as H4. f_equal. by apply IH.
Qed.

Lemma resize_lookup {A} (x : A) v n i y :
  resize n x v !! i = Some y -> (i < length v)%nat -> v !! i = Some y.
Proof.
  unfold resize. intros [Hl|[Hlen Hr]]%lookup_app_Some Hi.
  - by apply lookup_take_Some in Hl as [? _].
  - rewrite length_take in Hlen. apply lookup_lt_Some in Hr. rewrite length_replicate in Hr. lia.
Qed.

(** What the loop makes of an entry, when it gets through: nothing else touches it. *)
Lemma for_sessions_lookup `{OutEnv} {A} (body : A -> OutFiles -> A * (OutFiles * result unit)) l : forall out l' out' i a,
  for_sessions body l out = (l', (out', Ok ())) -> l !! i = Some a ->
  exists o1 a' r, body a o1 = (a', r) /\ l' !! i = Some a'.
Proof.
  induction l as [|b l IH]; intros out l' out' i a E Hi; [done|]. cbn [for_sessions] in E.
  destruct (body b out) as [b' [o [[]|e]]] eqn:Eb; [|done].
  destruct (for_sessions body l o) as [l1 r1] eqn:El. injection E as <- ->.
  destruct i as [|i]; [injection Hi as ->; by exists out, b', (o, Ok ())|]. exact (IH _ _ _ _ _ El Hi).
Qed.

Section sampling.
Context `{OutEnv}.

(** The row of torrent [i] that a sample starts from. *)
Lemma sample_row_of l v i s :
  l !! i = Some s ->
  exists a b c d,
    rows l (resize (length l) 0 (m_prev_bytes v)) (resize (length l) dzero (m_speeds_bps v))
      (resize (length l) 0 (m_prev_up_bytes v)) (resize (length l) dzero (m_up_speeds_bps v)) !! i
    = Some (mkRow s a b c d)
    /\ (forall x, m_prev_bytes v !! i = Some x -> a = x) /\ (forall x, m_prev_up_bytes v !! i = Some x -> c = x)
    /\ (forall x, m_up_speeds_bps v !! i = Some x -> d = x).
Proof.
  intros Hs.
  destruct (rows_lookup l (resize (length l) 0 (m_prev_bytes v)) (resize (length l) dzero (m_speeds_bps v))
    (resize (length l) 0 (m_prev_up_bytes v)) (resize (length l) dzero (m_up_speeds_bps v)) i s)
    as (a & b & c & d & Ha & _ & Hc & Hd & Hrow); [by rewrite length_resize..|done|].
  exists a, b, c, d. split; [exact Hrow|].
  split; [|split]; intros x Hx; [apply resize_lookup in Ha|apply resize_lookup in Hc|apply resize_lookup in Hd];
    try congruence; by eapply lookup_lt_Some.
Qed.

(** For a torrent still downloading, the next sample gives the rates since the last one. *)
Lemma sample_active dir now l v out out' i s a c :
  let elapsed := sec_of_ns (now - m_last_snapshot v) in
  m_last_snapshot v <> 0 -> dlt lit_0_05 elapsed = true -> l !! i = Some s -> is_complete s = false ->
  m_prev_bytes v !! i = Some a -> m_prev_up_bytes v !! i = Some c ->
  forall l' v', sample dir now l v out = ((l', v'), (out', Ok ())) ->
  m_speeds_bps v' !! i = Some (rate (delta (se_downloaded s) a) elapsed)
  /\ m_up_speeds_bps v' !! i = Some (rate (delta (uploaded_bytes (se_tm s)) c) elapsed).
Proof.
  intros elapsed Hl Hel Hs Hc Ha Hu l' v' E.
  destruct (sample_row_of l v i s Hs) as (a' & b & c' & d & Hrow & Ha' & Hc' & _).
  rewrite (Ha' a), (Hc' c) in Hrow by done. unfold sample in E. rewrite (proj2 (Z.eqb_neq _ _)) in E by done.
  fold elapsed in E. rewrite Hel in E. destruct (for_sessions _ _ _) as [rs' [o r]] eqn:Ef. unfold of_rows in E.
  assert (r = Ok ()) as -> by congruence. injection E as <- <- <-.
  destruct (for_sessions_lookup _ _ _ _ _ _ _ Ef Hrow) as (o1 & r' & x & Eb & Hr').
  unfold sample_row in Eb. cbn [r_session r_prev r_prev_up] in Eb. rewrite Hc in Eb. injection Eb as <- _.
  cbn [m_speeds_bps m_up_speeds_bps]. by rewrite !list_lookup_fmap, Hr'.
Qed.

(** Once a torrent is complete its upload rate is never computed again: the loop goes on
    to the next torrent before it, so the rate shown while seeding is the one of the last
    sample before completion. *)
Lemma sample_complete_frozen dir now l v out out' i s d :
  m_last_snapshot v <> 0 -> l !! i = Some s -> is_complete s = true -> m_up_speeds_bps v !! i = Some d ->
  forall l' v', sample dir now l v out = ((l', v'), (out', Ok ())) -> m_up_speeds_bps v' !! i = Some d.
Proof.
  intros Hl Hs Hc Hd l' v' E.
  destruct (sample_row_of l v i s Hs) as (a & b & c & d' & Hrow & _ & _ & Hd'). rewrite (Hd' d) in Hrow by done.
  unfold sample in E. rewrite (proj2 (Z.eqb_neq _ _)) in E by done. destruct (dlt _ _).
  - destruct (for_sessions _ _ _) as [rs' [o r]] eqn:Ef. unfold of_rows in E.
    assert (r = Ok ()) as -> by congruence. injection E as <- <- <-.
    destruct (for_sessions_lookup _ _ _ _ _ _ _ Ef Hrow) as (o1 & r' & x & Eb & Hr').
    cbn [m_up_speeds_bps]. rewrite list_lookup_fmap, Hr'. cbn. f_equal.
    unfold sample_row in Eb. cbn [r_session] in Eb. rewrite Hc in Eb.
    destruct (bool_decide _); by injection Eb as <- _.
  - unfold of_rows in E. injection E as <- <- _. cbn [m_up_speeds_bps]. by rewrite list_lookup_fmap, Hrow.
Qed.
End sampling.

(** ** Routing *)

(** A DHT peer reaches the torrents with its info hash, each of which then knows it, and
    no other torrent changes. *)
Lemma peer_callback_routes h pa l i s :
  ih_ok h -> l !! i = Some s -> ih_ok (se_info_hash s) ->
  exists s', peer_callback (ih_hex h) pa l !! i = Some s' /\ se_tf s' = se_tf s /\
  (se_info_hash s = h ->
     m_all_peers (se_tm s') = append_unique_peers [pa] (m_all_peers (se_tm s))) /\
  (se_info_hash s <> h -> s' = s).
Proof.
  intros [_ Hh] Hs [_ Hsh]. exists (route_peer (ih_hex h) pa s).
  split; [unfold peer_callback; rewrite list_lookup_fmap, Hs; done|].
  assert (Hiff : info_hash_hex s = ih_hex h <-> se_info_hash s = h).
  { unfold info_hash_hex, ih_hex. split; [|by intros ->]. intros E. apply to_hex_inj in E; [|done..].
    destruct (se_info_hash s), h. cbn in E. by rewrite E. }
  unfold route_peer. destruct (bool_decide (info_hash_hex s = ih_hex h)) eqn:E; b2p; cbn [negb].
  - apply Hiff in E. split; [done|]. split; [|done]. intros _. apply dht_add_peers.
  - split; [done|]. split; [|done]. intros Hc. by apply Hiff in Hc.
Qed.
