(* ===== verification/SessionSummaries.v ===== *)
(** * What a session leaves on disk
    (src/peer_wire/session_manager.cpp: the summary files)

    The files that the status display and [stop_all] write are read back as JSON: the batch
    summary, and the summaries of the torrents whatever happened before. *)

From S2P Require Import Prelude CxxLib Hash Addr TorrentFile Utils Double Json DhtReport TorrentManager RunSummary SessionManager.

(** ** The batch summary reads back *)

Definition batch_value (torrent_count : nat) (l : list TorrentRunSummary) (all_complete : bool) : json :=
  JObj [(str "torrent_count", JNum (to_string (Z.of_nat torrent_count)));
        (str "sessions_reported", JNum (to_string (Z.of_nat (length l))));
        (str "all_complete", JBool all_complete);
        (str "torrents", JArr (map (fun s =>
           JObj [(str "torrent_name", JStr (rs_torrent_name s));
                 (str "info_hash_hex", JStr (rs_info_hash_hex s));
                 (str "complete", JBool (rs_complete s));
                 (str "duration", JStr (rs_duration s));
                 (str "size", JStr (rs_size s));
                 (str "avg_speed", JStr (format_byte_rate (rs_avg_speed_bps s)));
                 (str "peak_speed", JStr (format_byte_rate (rs_peak_speed_bps s)))]) l))].

Definition texts_plain (s : TorrentRunSummary) : Prop :=
  Forall plain_char (rs_torrent_name s) /\ Forall plain_char (rs_info_hash_hex s)
  /\ Forall plain_char (rs_duration s) /\ Forall plain_char (rs_size s).

Definition entry_value (s : TorrentRunSummary) : json :=
  JObj [(str "torrent_name", JStr (rs_torrent_name s)); (str "info_hash_hex", JStr (rs_info_hash_hex s));
        (str "complete", JBool (rs_complete s)); (str "duration", JStr (rs_duration s));
        (str "size", JStr (rs_size s)); (str "avg_speed", JStr (format_byte_rate (rs_avg_speed_bps s)));
        (str "peak_speed", JStr (format_byte_rate (rs_peak_speed_bps s)))].

Lemma Lexes_batch_entry s : texts_plain s -> Lexes (batch_entry s) (tokens (entry_value s)).
Proof.
  intros (H1 & H2 & H3 & H4). unfold batch_entry, batch_field, next. rewrite <- !app_assoc.
  change (str "    {") with (str "    " ++ str "{"). change (str "    }") with (str "    " ++ [chr "}"]).
  rewrite <- !app_assoc, <- (app_nil_r [chr "}"]).
  eapply Lexes_eq; [lexes; try done; apply plain_rate|reflexivity].
Qed.

Lemma Lexes_batch_entries l : Forall texts_plain l ->
  Lexes (batch_entries l)
    match map entry_value l with [] => [] | x :: l' => tokens x ++ concat (map (fun y => comma :: tokens y) l') end.
Proof.
  induction 1 as [|s l Hs Hl IH]; [apply Lexes_nil|]. cbn [batch_entries map].
  apply Lexes_app; [by apply Lexes_batch_entry|]. destruct l as [|s' l].
  - cbn [batch_entries map concat]. rewrite app_nil_r. eapply Lexes_eq; [lexes|reflexivity].
  - eapply Lexes_eq; [lexes; exact IH|reflexivity].
Qed.

(** When no string needs an escape the batch summary is JSON. *)
Lemma batch_json_reads_back n l b : Forall texts_plain l -> read_json (batch_json n l b) = Some (batch_value n l b).
Proof.
  intros Hl. apply read_json_tokens.
  - apply Lexes_all. unfold batch_json, batch_value, num_field, bool_field, next. fold entry_value.
    change (map _ l) with (map entry_value l). set (js := map entry_value l).
    pose proof (Lexes_batch_entries l Hl) as He. fold js in He.
    assert (Lexes (batch_entries l ++ str "  ]" ++ NL ++ str "}" ++ NL)
              (match js with [] => [] | x :: l' => tokens x ++ concat (map (fun y => comma :: tokens y) l') end
               ++ [TSym (chr "]"); TSym (chr "}")])) as Htail.
    { apply Lexes_app; [done|]. change (str "  ]") with (str "  " ++ [chr "]"]). rewrite <- app_assoc.
      eapply Lexes_eq; [lexes|reflexivity]. }
    generalize dependent (batch_entries l ++ str "  ]" ++ NL ++ str "}" ++ NL). intros tail Htail.
    rewrite <- !app_assoc. clearbody js.
    eapply Lexes_eq; [lexes; try exact Htail; lia|]. cbn. rewrite app_nil_r, <- !app_assoc. reflexivity.
  - unfold batch_value. cbn -[valid_number]. rewrite !valid_to_string by lia. cbn [andb].
    induction l as [|s l IH]; [done|]. cbn. apply IH. by inversion Hl.
Qed.

(** A quote in a torrent's name ends the string early: the file is not JSON. *)
Definition quoted_name_summary : TorrentRunSummary :=
  mkSummary (str "a" ++ [QUOTE] ++ str "b") (str "ab") (str "0s") (str "1 B") dzero dzero 0 0 0 0 0 0 true.

Lemma batch_json_unescaped :
  read_json (batch_json 1 [quoted_name_summary] true) = None
  /\ is_Some (read_json (summary_json quoted_name_summary None)).
Proof. split; [|eexists]; vm_compute; reflexivity. Qed.

(** ** The summaries on disk *)

(** The metrics and the counters of a torrent are sound: what its summary needs. *)
Definition time_ok (t : Z) : Prop := 0 <= t < 2 ^ 53.

#[global] Instance time_ok_dec t : Decision (time_ok t).
Proof. unfold time_ok. apply _. Defined.

Record sess_ok (s : Session) : Prop := {
  so_name : Forall json_safe (torrent_name (se_tf s));
  so_hash : ih_ok (se_info_hash s);
  so_counters : tm_counters (se_tm s);
  so_failures : 0 <= se_hash_failures s;
  so_start : time_ok (m_start_steady (se_run s));
  so_complete : time_ok (m_complete_steady (se_run s));
}.

(** The file is JSON and says which torrent it is about and whether it is complete. *)
Definition says (tf : TorrentFile) (complete : bool) (file : option bytes) : Prop :=
  exists fields, (file ≫= read_json) = Some (JObj fields)
    /\ (str "torrent_name", JStr (torrent_name tf)) ∈ fields
    /\ (str "info_hash_hex", JStr (ih_hex (tf_info_hash tf))) ∈ fields
    /\ (str "complete", JBool complete) ∈ fields.

(** Every summary of [x] goes to the file of that name in one of the directories [D]. *)
Definition own (D : list bytes) (x : Session) (p : bytes) : Prop := exists d, d ∈ D /\ p = summary_path d x.

(** A torrent whose summary is marked as written has one in some directory.  What it says
    about completeness may be out of date, but not wrong the other way, and without an
    earlier [stop_all] ([stopped]) the torrent was complete when it was written. *)
Definition flag_ok (D : list bytes) (stopped : bool) (x : Session) (out : OutFiles) : Prop :=
  m_summary_written (se_run x) = true ->
  exists d c, d ∈ D /\ (c = true -> is_complete x = true) /\ (stopped = false -> c = true)
    /\ says (se_tf x) c (out !! summary_path d x).

Lemma flag_ok_frame D b x x' out out' :
  se_tf x' = se_tf x -> (is_complete x = true -> is_complete x' = true) ->
  m_summary_written (se_run x') = m_summary_written (se_run x) ->
  (forall p, own D x p -> out' !! p = out !! p) -> flag_ok D b x out -> flag_ok D b x' out'.
Proof.
  intros Ht Hc Hw Hout Hf Hw'. rewrite Hw in Hw'. destruct (Hf Hw') as (d & c & Hd & H1 & H2 & H3).
  exists d, c. split; [done|]. split; [auto|]. split; [done|]. unfold summary_path in *. rewrite Ht.
  rewrite Hout by (by exists d). exact H3.
Qed.

Lemma flag_ok_stopped D b x out : flag_ok D b x out -> flag_ok D true x out.
Proof. intros Hf Hw. destruct (Hf Hw) as (d & c & ? & ? & _ & ?). by exists d, c. Qed.

(** The files of the torrents of [l] in the directories [D] differ from each other and
    from the two files of the session. *)
Record differ (D : list bytes) (l : list Session) : Prop := {
  df_torrents : forall i j x y d d', l !! i = Some x -> l !! j = Some y -> d ∈ D -> d' ∈ D ->
    summary_path d x = summary_path d' y -> i = j /\ d = d';
  df_session : forall x d d', x ∈ l -> d ∈ D -> d' ∈ D ->
    summary_path d x <> batch_path d' /\ summary_path d x <> dht_path d';
}.

Lemma differ_sub D l l' :
  (forall i x, l' !! i = Some x -> exists x0, l !! i = Some x0 /\ se_tf x0 = se_tf x) -> differ D l -> differ D l'.
Proof.
  intros Hl [Hd Hs]. split.
  - intros i j x y d d' Hx Hy Hd1 Hd2 Hp. destruct (Hl i x Hx) as (x0 & Hx0 & E1). destruct (Hl j y Hy) as (y0 & Hy0 & E2).
    apply (Hd i j x0 y0 d d'); try done. unfold summary_path in *. by rewrite E1, E2.
  - intros x d d' [i Hi]%list_elem_of_lookup Hd1 Hd2. destruct (Hl i x Hi) as (x0 & Hx0 & E1).
    unfold summary_path. rewrite <- E1. apply (Hs x0); [by apply list_elem_of_lookup_2 in Hx0|done|done].
Qed.

Lemma differ_tf D l l' : map se_tf l' = map se_tf l -> differ D l -> differ D l'.
Proof.
  intros E. apply differ_sub. intros i x Hx.
  assert (map se_tf l !! i = Some (se_tf x)) as H by (rewrite <- E, list_lookup_fmap, Hx; done).
  rewrite list_lookup_fmap in H. destruct (l !! i) as [x0|]; [|done]. exists x0. split; [done|]. by injection H.
Qed.

(** What changes of a session when its summary is written: its metrics. *)
Definition same_torrent (s s' : Session) : Prop := se_tf s' = se_tf s /\ se_tm s' = se_tm s.

Lemma run_ok_times now m :
  time_ok now -> time_ok (m_start_steady m) -> time_ok (m_complete_steady m) -> run_ok now m.
Proof. unfold run_ok, run_ns, time_ok. intros H1 H2 H3. right. case_match; lia. Qed.

Section disk.
Context `{OutEnv} (D : list bytes).
Context (Hdirs : forall d, d ∈ D -> d <> [] /\ can_make_dirs d = true) (Hopen : forall p, can_open p = true).

(** Writing a summary: the torrent's own file, and no other. *)
Lemma write_summary_says dir now r s out :
  dir ∈ D -> time_ok now -> sess_ok s ->
  exists out', write_summary now dir r s out = (out', Ok ())
    /\ says (se_tf s) (is_complete s) (out' !! summary_path dir s)
    /\ forall p, p <> summary_path dir s -> out' !! p = out !! p.
Proof.
  intros Hdir Hnow [Hn Hh Hc Hf Hs He]. unfold write_summary, summary_of.
  destruct (build_run_summary_ok now (se_tf s) (se_tm s) (se_downloaded s) (se_hash_failures s) (se_run s))
    as (sm & -> & E1 & E2 & _ & E4 & Hj); [by apply run_ok_times|done..|].
  unfold write_run_summary_json, write_file. rewrite (proj2 (Hdirs dir Hdir)), Hopen. cbn [negb].
  eexists. split; [reflexivity|]. split; [|intros p Hp; by apply lookup_insert_ne].
  rewrite lookup_insert_eq. unfold says. cbn [mbind option_bind]. rewrite Hj.
  eexists. split; [reflexivity|]. rewrite <- E1, <- E2. unfold is_complete. rewrite <- E4.
  split; [by apply (list_elem_of_lookup_2 _ 0%nat)|]. split; [by apply (list_elem_of_lookup_2 _ 1%nat)|].
  by apply (list_elem_of_lookup_2 _ 12%nat).
Qed.

(** A loop whose rounds change no other files than their own. *)
Lemma for_sessions_own {A} (body : A -> OutFiles -> A * (OutFiles * result unit)) (owns : A -> bytes -> Prop)
    (Pre : A -> OutFiles -> Prop) (Post : A -> A -> OutFiles -> Prop) l : forall out,
  (forall i j a b p, l !! i = Some a -> l !! j = Some b -> owns a p -> owns b p -> i = j) ->
  (forall a o o', (forall p, owns a p -> o' !! p = o !! p) -> Pre a o -> Pre a o') ->
  (forall a a' o o', (forall p, owns a p -> o' !! p = o !! p) -> Post a a' o -> Post a a' o') ->
  (forall a o, a ∈ l -> Pre a o -> exists a' o', body a o = (a', (o', Ok ())) /\ Post a a' o'
     /\ forall p, ~ owns a p -> o' !! p = o !! p) ->
  (forall a, a ∈ l -> Pre a out) ->
  exists l' out', for_sessions body l out = (l', (out', Ok ())) /\ Forall2 (fun a a' => Post a a' out') l l'
    /\ forall p, (forall a, a ∈ l -> ~ owns a p) -> out' !! p = out !! p.
Proof.
  induction l as [|a l IH]; intros out Hd HPre HPost Hb Hpre; [by exists [], out|].
  assert (forall b p, b ∈ l -> owns a p -> ~ owns b p) as Hab.
  { intros b p Hbl Ha Hb'. apply list_elem_of_lookup in Hbl as [j Hj].
    pose proof (Hd 0%nat (S j) a b p eq_refl Hj Ha Hb'). lia. }
  destruct (Hb a out) as (a' & o1 & E & Hp & Hsame); [left|apply Hpre; left|].
  destruct (IH o1) as (l' & out' & E' & Hl & Hsame'); [|done|done| | |].
  - intros i j b c p Hi Hj H1 H2. pose proof (Hd (S i) (S j) b c p Hi Hj H1 H2). lia.
  - intros b o Hbl. apply Hb. by right.
  - intros b Hbl. apply (HPre b out); [|apply Hpre; by right]. intros p Hpb. apply Hsame. intros Hpa. by apply (Hab b p).
  - exists (a' :: l'), out'. cbn [for_sessions]. rewrite E, E'. split; [done|]. split.
    + constructor; [|done]. apply (HPost a a' o1); [|done]. intros p Hpa. apply Hsame'. intros b Hbl. by apply Hab.
    + intros p Hno. rewrite Hsame' by (intros b Hbl; apply Hno; by right). apply Hsame, Hno. left.
Qed.

Lemma differ_own l i j x y p : differ D l -> l !! i = Some x -> l !! j = Some y -> own D x p -> own D y p -> i = j.
Proof. intros Hd Hx Hy (d & Hd1 & ->) (d' & Hd2 & E). by destruct (df_torrents _ _ Hd i j x y d d' Hx Hy Hd1 Hd2 E). Qed.

(** A sample of a torrent: complete torrents get their file once. *)
Lemma sample_row_ok b dir now elapsed r out :
  (dir = [] \/ dir ∈ D) -> time_ok now -> sess_ok (r_session r) -> flag_ok D b (r_session r) out ->
  exists r' out', sample_row dir now elapsed r out = (r', (out', Ok ()))
    /\ flag_ok D b (r_session r') out'
    /\ forall p, ~ own D (r_session r) p -> out' !! p = out !! p.
Proof.
  intros Hdir Hnow Hok Hflag. destruct r as [s a u v w]. cbn [r_session] in *. unfold sample_row. cbn [r_session].
  destruct (is_complete s) eqn:Hc.
  - set (m1 := mark_complete_at now (se_run s)).
    assert (m_start_steady m1 = m_start_steady (se_run s) /\ m_summary_written m1 = m_summary_written (se_run s)
            /\ time_ok (m_complete_steady m1)) as (E1 & E2 & E3).
    { unfold m1, mark_complete_at. case_match; cbn; repeat split; try done; apply Hok || apply Hnow. }
    assert (flag_ok D b (with_run m1 s) out) as Hflag1 by (by apply (flag_ok_frame D b s _ out)).
    destruct (bool_decide (dir = [])) eqn:Edir.
    { eexists _, out. split; [reflexivity|]. split; [done|done]. }
    b2p. destruct Hdir as [|Hdir]; [done|]. unfold try_mark_summary_written. cbn [se_run with_run].
    set (s2 := with_run _ (with_run m1 s)).
    assert (sess_ok s2) as Hok2 by (destruct Hok; split; cbn; try done; by rewrite E1).
    destruct (m_summary_written m1) eqn:Ew; cbn [negb].
    + eexists _, out. split; [reflexivity|]. split; [|done]. cbn [r_session with_session].
      by apply (flag_ok_frame D b (with_run m1 s) s2 out).
    + destruct (write_summary_says dir now None s2 out Hdir Hnow Hok2) as (out' & Ew' & Hs & Hsame).
      eexists _, out'. rewrite Ew'. split; [reflexivity|]. change (is_complete s2) with (is_complete s) in Hs. split.
      * intros _. exists dir, true. cbn [r_session with_session]. rewrite Hc in Hs. by repeat split.
      * intros p Hp. apply Hsame. intros ->. apply Hp. by exists dir.
  - eexists _, out. split; [reflexivity|]. split; [|done]. cbn [r_session].
    apply (flag_ok_frame D b s _ out); try done. cbn. unfold record_download_sample. by case_match.
Qed.

Lemma for_sessions_Forall {A} (body : A -> OutFiles -> A * (OutFiles * result unit)) (P : A -> Prop) l : forall out,
  (forall a out, P a -> P (fst (body a out))) -> Forall P l -> Forall P (fst (for_sessions body l out)).
Proof.
  induction l as [|a l IH]; intros out Hb Hl; [done|]. apply Forall_cons in Hl as [Ha Hl]. cbn [for_sessions].
  pose proof (Hb a out Ha) as Ha'. destruct (body a out) as [a' [o [u|e]]]; cbn in Ha'.
  - specialize (IH o Hb Hl). destruct (for_sessions body l o). by constructor.
  - by constructor.
Qed.

Lemma for_sessions_map {A B : Type} (body : A -> OutFiles -> A * (OutFiles * result unit)) (f : A -> B) l : forall out,
  (forall a out, f (fst (body a out)) = f a) -> map f (fst (for_sessions body l out)) = map f l.
Proof.
  induction l as [|a l IH]; intros out Hb; [done|]. cbn [for_sessions].
  pose proof (Hb a out) as Ha. destruct (body a out) as [a' [o [u|e]]]; cbn in Ha.
  - specialize (IH o Hb). destruct (for_sessions body l o). cbn in *. by rewrite Ha, IH.
  - cbn. by rewrite Ha.
Qed.

Lemma sample_row_sess dir now elapsed r out :
  time_ok now -> sess_ok (r_session r) -> sess_ok (r_session (fst (sample_row dir now elapsed r out))).
Proof.
  intros Hnow Hok. destruct r as [s a u v w]. unfold sample_row, try_mark_summary_written. cbn [r_session] in *.
  destruct (is_complete s).
  - destruct Hok. case_match; cbn; split; cbn; try done; unfold mark_complete_at; case_match; done.
  - destruct Hok. split; cbn; try done; unfold record_download_sample; case_match; done.
Qed.

Lemma sample_row_path dir now elapsed r out :
  se_tf (r_session (fst (sample_row dir now elapsed r out))) = se_tf (r_session r).
Proof. unfold sample_row, try_mark_summary_written. repeat case_match; done. Qed.

(** Between two operations every torrent is sound, and those whose summary is marked as
    written have it on disk, if the torrents' files differ. *)
Definition disk_inv (b : bool) (st : SM * OutFiles) : Prop :=
  let '(s, out) := st in
  (sm_metrics_dir s = [] \/ sm_metrics_dir s ∈ D) /\ Forall sess_ok (sm_sessions s) /\
  (differ D (sm_sessions s) -> forall x, x ∈ sm_sessions s -> flag_ok D b x out).

(** What the other threads do to a torrent. *)
Record evolves (x x' : Session) : Prop := {
  ev_tf : se_tf x' = se_tf x;
  ev_written : m_summary_written (se_run x') = m_summary_written (se_run x);
  ev_complete : is_complete x = true -> is_complete x' = true;
  ev_ok : sess_ok x -> sess_ok x';
}.

Lemma session_evolves_refl x : evolves x x.
Proof. by split. Qed.

Lemma disk_inv_evolves b s out l' :
  Forall2 evolves (sm_sessions s) l' -> disk_inv b (s, out) -> disk_inv b (with_sessions l' s, out).
Proof.
  intros Hev (Hd & Hok & Hflag). cbn [disk_inv with_sessions sm_sessions sm_metrics_dir]. split; [done|].
  assert (map se_tf l' = map se_tf (sm_sessions s)) as Htf.
  { clear -Hev. induction Hev as [|x x' l l' Hx _ IH]; [done|]. cbn. rewrite (ev_tf _ _ Hx). by f_equal. }
  split.
  - clear -Hev Hok. induction Hev as [|x x' l l' Hx _ IH]; [done|]. apply Forall_cons in Hok as [H1 H2].
    apply Forall_cons. split; [by apply Hx|by apply IH].
  - intros Hnd x' Hx'. apply (differ_tf D l' (sm_sessions s)) in Hnd; [|done]. specialize (Hflag Hnd).
    apply list_elem_of_lookup in Hx' as [i Hi]. destruct (Forall2_lookup_r _ _ _ _ _ Hev Hi) as (x & Hx & He).
    apply (flag_ok_frame D b x x' out out); [apply He|apply He|apply He|done|].
    exact (Hflag x (list_elem_of_lookup_2 _ _ _ Hx)).
Qed.

Lemma Forall2_alter_evolves (f : Session -> Session) i l :
  (forall x, evolves x (f x)) -> Forall2 evolves l (alter f i l).
Proof.
  intros Hf. revert i. induction l as [|x l IH]; intros [|i]; cbn; constructor; auto using session_evolves_refl.
  clear. induction l; constructor; auto using session_evolves_refl.
Qed.

Lemma Forall2_map_evolves (f : Session -> Session) l : (forall x, evolves x (f x)) -> Forall2 evolves l (map f l).
Proof. intros Hf. induction l; constructor; auto. Qed.
End disk.

(** A torrent stays complete. *)
Lemma tm_exec_complete a s : tm_complete s = true -> tm_complete (tm_exec s a) = true.
Proof.
  intros Hc. assert (forall s', tm_step s a = Some s' -> tm_complete s' = true) as Hs;
    [|unfold tm_exec; destruct (tm_step s a); [by apply Hs|exact Hc]].
  intros s' E. destruct a as [tid o| | |ps|p| | | |]; cbn [tm_step] in E.
  - destruct (m_threads s !! tid) as [w|]; [|done].
    unfold worker_step, locked in E. repeat case_match; try done; injection E as <-; exact Hc.
  - unfold spawn_step, spawn_done, goto in E. repeat case_match; try done; injection E as <-; cbn; try done.
    all: destruct (tm_start _); cbn; done.
  - repeat case_match; injection E as <-; exact Hc.
  - unfold locked, start_peers in E. repeat case_match; try done; injection E as <-; exact Hc.
  - unfold locked, add_dht_peer in E. repeat case_match; try done; injection E as <-; exact Hc.
  - repeat case_match; injection E as <-; exact Hc.
  - unfold locked in E. repeat case_match; try done; injection E as <-; exact Hc.
  - repeat case_match; try done; injection E as <-; exact Hc.
  - injection E as <-; done.
Qed.

Lemma spawn_loop_counters fuel : forall s,
  tm_complete (spawn_loop fuel s) = tm_complete s /\ (tm_counters s -> tm_counters (spawn_loop fuel s)).
Proof.
  induction fuel as [|f IH]; intros s; [done|]. cbn [spawn_loop]. destruct (spawn_guard s); [|done].
  destruct (IH (spawn_one s)) as [H1 H2]. rewrite H1. split; [done|]. intros H. apply H2, H.
Qed.

Lemma dht_add_counters pa s :
  tm_complete (snd (dht_add pa s)) = tm_complete s /\ (tm_counters s -> tm_counters (snd (dht_add pa s))).
Proof.
  unfold dht_add, add_dht_peer. cbv zeta. destruct (_ =? _)%nat; cbn [snd]; [done|]. unfold spawn_peers_locked.
  set (s1 := set_lock (Some _) _). destruct (spawn_loop_counters (S k_max_concurrent_peers) s1) as [H1 H2].
  split; [exact H1|]. intros (Hd & Hr). pose proof (u64_nonneg (m_dht_peers_discovered s + 1)).
  assert (tm_counters s1) as Hs1 by (split; [done|exact Hr]). exact (H2 Hs1).
Qed.

Lemma evolves_route hex pa x : evolves x (route_peer hex pa x).
Proof.
  unfold route_peer. destruct (negb _); [apply session_evolves_refl|]. destruct (dht_add_counters pa (se_tm x)) as [H1 H2].
  split; try done; cbn.
  - unfold is_complete. cbn. by rewrite H1.
  - intros Hok. destruct Hok. split; try done. by apply H2.
Qed.

Lemma evolves_step now a x : time_ok now -> evolves x (torrent_step now a x).
Proof.
  intros Hnow. unfold torrent_step. set (m := match a with StartCall => _ | _ => _ end).
  assert (m_summary_written m = m_summary_written (se_run x)
    /\ (m_start_steady m = m_start_steady (se_run x) \/ m_start_steady m = now)
    /\ m_complete_steady m = m_complete_steady (se_run x)) as (E1 & E2 & E3).
  { unfold m. destruct a; try (by auto). case_match; by auto. }
  split; cbn; [done|done|apply tm_exec_complete|].
  intros Hok. destruct Hok. split; cbn; try done.
  - by apply tm_exec_counters.
  - by destruct E2 as [-> | ->].
  - by rewrite E3.
Qed.

Lemma evolves_piece d f x : evolves x (piece_step d f x).
Proof. split; try done. intros Hok. destruct Hok. split; try done. apply u64_nonneg. Qed.

Section session_disk.
Context `{OutEnv} (D : list bytes).
Context (Hdirs : forall d, d ∈ D -> d <> [] /\ can_make_dirs d = true) (Hopen : forall p, can_open p = true).
Context (sort_stats : list PeerStat -> list PeerStat).

Lemma rows_of_sessions l v :
  map r_session (rows l (resize (length l) 0 (m_prev_bytes v)) (resize (length l) dzero (m_speeds_bps v))
    (resize (length l) 0 (m_prev_up_bytes v)) (resize (length l) dzero (m_up_speeds_bps v))) = l.
Proof. apply rows_sessions; by rewrite length_resize. Qed.

Lemma disk_inv_same b s out l' v' :
  l' = sm_sessions s -> disk_inv D b (s, out) ->
  disk_inv D b (mkSM l' v' (sm_metrics_dir s) (sm_reference_match s), out).
Proof. by intros ->. Qed.

(** The sampling loop keeps the invariant. *)
Lemma sample_loop_inv b dir now elapsed rs out :
  (dir = [] \/ dir ∈ D) -> time_ok now -> Forall (fun r => sess_ok (r_session r)) rs ->
  let '(rs', (out', _)) := for_sessions (sample_row dir now elapsed) rs out in
  Forall sess_ok (map r_session rs') /\ map se_tf (map r_session rs') = map se_tf (map r_session rs)
  /\ (differ D (map r_session rs) -> (forall r, r ∈ rs -> flag_ok D b (r_session r) out) ->
      forall x, x ∈ map r_session rs' -> flag_ok D b x out').
Proof.
  intros Hdir Hnow Hok. destruct (for_sessions _ rs out) as [rs' [out' res]] eqn:E. split; [|split].
  - apply Forall_map. replace rs' with (fst (for_sessions (sample_row dir now elapsed) rs out)) by (by rewrite E).
    apply (for_sessions_Forall (sample_row dir now elapsed) (fun r => sess_ok (r_session r))); [|done].
    intros r o. by apply sample_row_sess.
  - replace rs' with (fst (for_sessions (sample_row dir now elapsed) rs out)) by (by rewrite E).
    rewrite !map_map. apply for_sessions_map. intros r o. apply sample_row_path.
  - intros Hnd Hflag x Hx.
    destruct (for_sessions_own (sample_row dir now elapsed) (fun r => own D (r_session r))
      (fun r o => sess_ok (r_session r) /\ flag_ok D b (r_session r) o)
      (fun r r' o => se_tf (r_session r') = se_tf (r_session r) /\ flag_ok D b (r_session r') o) rs out)
      as (l' & o' & E' & Hpost & _).
    + intros i j r r' q Hi Hj. apply (differ_own D (map r_session rs)); [done|by rewrite list_lookup_fmap, Hi|by rewrite list_lookup_fmap, Hj].
    + intros r o o' Ho [H1 H2]. split; [done|]. by apply (flag_ok_frame D b (r_session r) _ o).
    + intros r r' o o' Ho [Ht H2]. split; [done|]. apply (flag_ok_frame D b (r_session r') _ o); try done.
      intros q (d & Hd & ->). apply Ho. exists d. split; [done|]. unfold summary_path. by rewrite Ht.
    + intros r o Hr [H1 H2].
      destruct (sample_row_ok D Hdirs Hopen b dir now elapsed r o Hdir Hnow H1 H2) as (r' & o' & Er & Hf & Hs).
      exists r', o'. split; [done|]. split; [|exact Hs]. split; [|done].
      pose proof (sample_row_path dir now elapsed r o) as Hp. by rewrite Er in Hp.
    + intros r Hr. rewrite Forall_forall in Hok. split; [by apply Hok|by apply Hflag].
    + rewrite E in E'. assert (rs' = l') as -> by congruence. assert (out' = o') as -> by congruence.
      apply list_elem_of_fmap in Hx as (r & -> & Hr). apply list_elem_of_lookup in Hr as [i Hi].
      destruct (Forall2_lookup_r _ _ _ _ _ Hpost Hi) as (r0 & _ & _ & Hf). exact Hf.
Qed.

Lemma print_inv b now s out :
  time_ok now -> disk_inv D b (s, out) -> disk_inv D b (fst (print_status sort_stats now s out)).
Proof.
  intros Hnow Hinv. unfold print_status, sample. set (rs := rows _ _ _ _ _).
  pose proof (rows_of_sessions (sm_sessions s) (sm_speeds s)) as Hrs. fold rs in Hrs.
  destruct (m_last_snapshot (sm_speeds s) =? 0).
  { cbn [fst of_rows]. apply disk_inv_same; [|done]. rewrite map_map. exact Hrs. }
  destruct (dlt lit_0_05 _); [|cbn [fst of_rows]; by apply disk_inv_same].
  destruct Hinv as (Hd & Hok & Hflag).
  set (elapsed := sec_of_ns _). pose proof (sample_loop_inv b (sm_metrics_dir s) now elapsed rs out Hd Hnow) as Hl.
  assert (Forall (fun r => sess_ok (r_session r)) rs) as Hok'.
  { apply Forall_forall. intros r Hr. rewrite Forall_forall in Hok. apply Hok. rewrite <- Hrs. by apply list_elem_of_fmap_2. }
  specialize (Hl Hok').
  destruct (for_sessions _ rs out) as [rs' [out' res]]. destruct Hl as (H1 & H2 & H3). rewrite Hrs in *.
  cbn [fst of_rows disk_inv sm_sessions sm_metrics_dir]. split; [done|]. split; [done|].
  intros Hnd. apply (differ_tf D (map r_session rs') (sm_sessions s)) in Hnd; [|done].
  apply H3; [done|]. intros r Hr. apply Hflag; [done|]. rewrite <- Hrs. by apply list_elem_of_fmap_2.
Qed.

(** *** The summaries of [stop_all] *)

(** The torrent has a file in one of the directories: in the current one and up to date
    when it was due ([due]), and up to date without an earlier [stop_all]. *)
Definition report (stopped : bool) (due : Prop) (dir : bytes) (x : Session) (out : OutFiles) : Prop :=
  exists d c, d ∈ D /\ (c = true -> is_complete x = true) /\ (stopped = false -> c = is_complete x)
    /\ (due -> d = dir /\ c = is_complete x) /\ says (se_tf x) c (out !! summary_path d x).

Lemma report_frame b due dir x out out' :
  (forall p, own D x p -> out' !! p = out !! p) -> report b due dir x out -> report b due dir x out'.
Proof.
  intros Ho (d & c & Hd & H1 & H2 & H3 & H4). exists d, c. repeat (split; [done|]).
  rewrite Ho; [done|by exists d].
Qed.

Definition due (r : option bool) (x : Session) : Prop := m_summary_written (se_run x) = false \/ r <> None.

(** The round of one torrent. *)
Lemma flush_one_ok b dir now r x out :
  dir ∈ D -> time_ok now -> sess_ok x -> flag_ok D b x out ->
  exists x' out', flush_one now dir r x out = (x', (out', Ok ()))
    /\ (se_tf x' = se_tf x /\ flag_ok D true x' out' /\ report b (due r x) dir x' out')
    /\ forall p, ~ own D x p -> out' !! p = out !! p.
Proof.
  intros Hdir Hnow Hx Hf. unfold flush_one.
  assert (forall x' out', se_tf x' = se_tf x -> is_complete x' = is_complete x ->
    says (se_tf x) (is_complete x) (out' !! summary_path dir x) ->
    flag_ok D true x' out' /\ report b (due r x) dir x' out') as Hwritten.
  { intros x' out' Ht Hc Hs. unfold flag_ok, report, summary_path in *. rewrite Ht, Hc.
    split; [intros _|]; exists dir, (is_complete x); by repeat split. }
  destruct r as [m|].
  - destruct (write_summary_says D Hdirs Hopen dir now (Some m) x out Hdir Hnow Hx) as (o' & -> & H1 & H2).
    exists x, o'. split; [done|]. split; [split; [done|by apply Hwritten]|].
    intros p Hp. apply H2. intros ->. apply Hp. by exists dir.
  - unfold try_mark_summary_written. set (x2 := with_run _ x).
    assert (sess_ok x2) as Hx2 by (by destruct Hx; split).
    destruct (m_summary_written (se_run x)) eqn:Ew; cbn [negb].
    + exists x2, out. split; [done|]. split; [|done]. split; [done|].
      destruct (Hf Ew) as (d & c & H1 & H2 & H3 & H4). split; [intros _; by exists d, c|].
      exists d, c. split; [done|]. split; [done|]. change (is_complete x2) with (is_complete x).
      split; [intros Hb; rewrite (H3 Hb) in *; symmetry; by apply H2|]. split; [|done].
      unfold due. intros [?|?]; congruence.
    + destruct (write_summary_says D Hdirs Hopen dir now None x2 out Hdir Hnow Hx2) as (o' & -> & H1 & H2).
      exists x2, o'. split; [done|]. split; [split; [done|by apply Hwritten]|].
      intros p Hp. apply H2. intros ->. apply Hp. by exists dir.
Qed.

Lemma flush_one_same now dir r x out :
  let x' := fst (flush_one now dir r x out) in
  (se_tf x', se_tm x') = (se_tf x, se_tm x) /\ (sess_ok x -> sess_ok x').
Proof. unfold flush_one, try_mark_summary_written. destruct r; split; try done. by intros []; split. Qed.

(** The loop over the torrents. *)
Lemma flush_inv b dir now r l out :
  dir ∈ D -> time_ok now -> Forall sess_ok l -> differ D l -> (forall x, x ∈ l -> flag_ok D b x out) ->
  exists l' out', flush_torrent_summaries_locked now dir r l out = (l', (out', Ok ()))
    /\ Forall2 (fun x x' => se_tf x' = se_tf x /\ flag_ok D true x' out' /\ report b (due r x) dir x' out') l l'
    /\ forall p, (forall x, x ∈ l -> ~ own D x p) -> out' !! p = out !! p.
Proof.
  intros Hdir Hnow Hok Hnd Hflag. unfold flush_torrent_summaries_locked.
  rewrite bool_decide_false by (by apply Hdirs).
  apply (for_sessions_own _ (own D) (fun x o => sess_ok x /\ flag_ok D b x o)).
  - intros i j x y p. by apply differ_own.
  - intros x o o' Ho [H1 H2]. split; [done|]. by apply (flag_ok_frame D b x x o).
  - intros x x' o o' Ho (Ht & H2 & H3).
    assert (forall p, own D x' p -> o' !! p = o !! p) as Ho'.
    { intros q (d & Hd & ->). apply Ho. exists d. split; [done|]. unfold summary_path. by rewrite Ht. }
    split; [done|]. split; [by apply (flag_ok_frame D true x' x' o)|by apply (report_frame _ _ _ _ o)].
  - intros x o Hx [H1 H2]. by apply flush_one_ok.
  - intros x Hx. rewrite Forall_forall in Hok. split; [by apply Hok|by apply Hflag].
Qed.

Lemma flush_same now dir r l out :
  let l' := fst (flush_torrent_summaries_locked now dir r l out) in
  map (fun s => (se_tf s, se_tm s)) l' = map (fun s => (se_tf s, se_tm s)) l /\ (Forall sess_ok l -> Forall sess_ok l').
Proof.
  unfold flush_torrent_summaries_locked. case_match; [done|]. split.
  - apply (for_sessions_map (flush_one now dir r) (fun s => (se_tf s, se_tm s))). intros x o. apply flush_one_same.
  - intros Hok. apply for_sessions_Forall; [|done]. intros x o. apply flush_one_same.
Qed.

Lemma flush_without_dir now r l out : flush_torrent_summaries_locked now [] r l out = (l, (out, Ok ())).
Proof. done. Qed.

(** The torrents that are added are sound; a directory is one of [D] or none. *)
Definition op_ok (e : Z * sm_op) : Prop :=
  time_ok (fst e) /\ match snd e with
                     | SAdd tf => Forall json_safe (torrent_name tf) /\ ih_ok (tf_info_hash tf)
                     | _ => True
                     end.

#[global] Instance op_ok_dec e : Decision (op_ok e).
Proof. unfold op_ok. destruct (snd e); apply _. Defined.

Definition dir_ok (o : sm_op) : Prop := match o with SMetricsDir d => d = [] \/ d ∈ D | _ => True end.

Definition stops (o : sm_op) : bool := match o with SSummaries _ => true | _ => false end.

(** What the summaries of the session and of the DHT node leave alone. *)
Lemma session_files_frame now dht s out q :
  q <> batch_path (sm_metrics_dir s) -> q <> dht_path (sm_metrics_dir s) ->
  let '(l, (out1, _)) := flush_torrent_summaries_locked now (sm_metrics_dir s) (sm_reference_match s) (sm_sessions s) out in
  (write_summaries now dht s out).2.1 !! q = out1 !! q.
Proof.
  intros Hq1 Hq2. unfold write_summaries. destruct (flush_torrent_summaries_locked _ _ _ _ _) as [l [out1 [[]|e]]]; [|by destruct dht].
  cbn [and_then snd fst]. set (r2 := if _ && _ then _ else _).
  assert (r2.1 !! q = out1 !! q) as <-.
  { unfold r2. destruct (_ && _); [|done]. unfold write_parallel_batch_summary_locked.
    destruct (collect_run_summaries now l); [|done]. cbn [fst]. destruct (can_open _); [|done].
    by rewrite lookup_insert_ne by done. }
  destruct r2 as [out2 [[]|e]]; [|done]. cbn [and_then fst]. destruct dht as [d|]; [|done].
  destruct (bool_decide _); [done|]. unfold DhtReport.write_run_summary_json, write_file.
  destruct (negb _); [done|]. destruct (can_open _); [|done]. destruct (_ ≫= _); [|done]. cbn [fst].
  by rewrite lookup_insert_ne by done.
Qed.

Lemma write_summaries_sessions now dht s out :
  (write_summaries now dht s out).1
  = with_sessions (flush_torrent_summaries_locked now (sm_metrics_dir s) (sm_reference_match s) (sm_sessions s) out).1 s.
Proof. unfold write_summaries. by destruct (flush_torrent_summaries_locked _ _ _ _ _). Qed.

Lemma summaries_without_dir now dht s out :
  sm_metrics_dir s = [] -> write_summaries now dht s out = (with_sessions (sm_sessions s) s, (out, Ok ())).
Proof.
  intros Hd. unfold write_summaries. rewrite Hd, flush_without_dir. cbn [and_then]. rewrite andb_false_r. by destruct dht.
Qed.

Lemma summaries_inv b now dht s out :
  time_ok now -> disk_inv D b (s, out) ->
  disk_inv D true (let '(s', (out', _)) := write_summaries now dht s out in (s', out')).
Proof.
  intros Hnow (Hd & Hok & Hflag). destruct Hd as [Hd|Hd].
  { rewrite summaries_without_dir by done. split; [by left|]. split; [done|].
    intros Hnd x Hx. by eapply flag_ok_stopped, Hflag. }
  pose proof (write_summaries_sessions now dht s out) as Hs. pose proof (session_files_frame now dht s out) as Hframe.
  destruct (flush_same now (sm_metrics_dir s) (sm_reference_match s) (sm_sessions s) out) as [Hm Hok'].
  destruct (write_summaries now dht s out) as [s' [out' r]]. cbn [fst snd] in *. subst s'.
  set (l := (flush_torrent_summaries_locked _ _ _ _ _).1) in *.
  assert (map se_tf l = map se_tf (sm_sessions s)) as Htf.
  { apply (f_equal (map fst)) in Hm. by rewrite !map_map in Hm. }
  cbn [disk_inv with_sessions sm_metrics_dir sm_sessions]. split; [by right|]. split; [by apply Hok'|].
  intros Hnd. pose proof (differ_tf D l (sm_sessions s) (eq_sym Htf) Hnd) as Hnd0.
  destruct (flush_inv b (sm_metrics_dir s) now (sm_reference_match s) (sm_sessions s) out Hd Hnow Hok Hnd0 (Hflag Hnd0))
    as (l' & out1 & E & Hall & _).
  assert (l = l') as El by (unfold l; by rewrite E). clearbody l. subst l'.
  intros x' Hx'. apply list_elem_of_lookup in Hx' as [i Hi].
  destruct (Forall2_lookup_r _ _ _ _ _ Hall Hi) as (x & Hx & Ht & Hf & _).
  apply (flag_ok_frame D true x' x' out1 out'); try done. intros q (d & Hd' & ->).
  assert (x' ∈ l) as Hin by (by apply list_elem_of_lookup_2 in Hi).
  destruct (df_session _ _ Hnd x' d (sm_metrics_dir s) Hin Hd' Hd) as [H1 H2].
  specialize (Hframe _ H1 H2). by rewrite E in Hframe.
Qed.

Lemma sm_step_inv b now o st :
  op_ok (now, o) -> dir_ok o -> disk_inv D b st -> disk_inv D (b || stops o) (sm_step sort_stats now o st).
Proof.
  intros [Hnow Ho] Hdo Hinv. destruct st as [s out]. cbn [fst snd] in *.
  destruct o as [tf|hex pa| |m|d|dht|i a|i d f]; cbn [sm_step stops]; rewrite ?orb_false_r.
  - destruct Hinv as (Hd & Hok & Hflag). destruct Ho as [Hn Hh]. split; [done|]. cbn [add with_sessions sm_sessions].
    split.
    + apply Forall_app. split; [done|]. apply Forall_singleton. split; try done; unfold tm_counters, time_ok; cbn; lia.
    + intros Hnd x [Hx|Hx]%elem_of_app; [|by apply list_elem_of_singleton in Hx as ->].
      apply Hflag; [|done]. eapply differ_sub; [|exact Hnd]. intros i y Hy. exists y. split; [|done].
      by apply lookup_app_l_Some.
  - apply disk_inv_evolves; [|done]. apply Forall2_map_evolves. intros x. apply evolves_route.
  - by apply print_inv.
  - exact Hinv.
  - destruct Hinv as (_ & Hok & Hflag). split; [exact Hdo|done].
  - rewrite orb_true_r. by eapply summaries_inv.
  - apply disk_inv_evolves; [|done]. apply Forall2_alter_evolves. intros x. by apply evolves_step.
  - apply disk_inv_evolves; [|done]. apply Forall2_alter_evolves. intros x. apply evolves_piece.
Qed.

Lemma sm_run_inv es : forall b st, Forall op_ok es -> Forall (fun e => dir_ok e.2) es -> disk_inv D b st ->
  disk_inv D (b || existsb (fun e => stops e.2) es) (sm_run sort_stats st es).
Proof.
  induction es as [|[now o] es IH]; intros b st Hes Hds Hinv; [by rewrite orb_false_r|].
  apply Forall_cons in Hes as [He Hes]. apply Forall_cons in Hds as [Hd Hds].
  cbn. rewrite orb_assoc. apply IH; [done|done|]. by apply sm_step_inv.
Qed.

Lemma collect_ok now l :
  time_ok now -> Forall sess_ok l ->
  exists sums, collect_run_summaries now l = Ok sums /\ length sums = length l
    /\ (Forall (fun s => Forall plain_char (torrent_name (se_tf s))) l -> Forall texts_plain sums).
Proof.
  intros Hnow Hok. induction l as [|s l IH]; [by exists []|].
  apply Forall_cons in Hok as [[Hn Hh Hc Hf Hst He] Hok]. destruct (IH Hok) as (sums & E & Hlen & Hs). unfold collect_run_summaries in *. cbn [traverse].
  destruct (build_run_summary_ok now (se_tf s) (se_tm s) (se_downloaded s) (se_hash_failures s) (se_run s))
    as (sm & Es & E1 & E2 & E3 & _); [by apply run_ok_times|done..|].
  assert (summary_of now s = Ok sm) as -> by exact Es. cbn [mbind result_bind]. rewrite E. cbn [mbind result_bind].
  exists (sm :: sums). split; [done|]. split; [cbn; by rewrite Hlen|]. intros [Hp Hpl]%Forall_cons.
  apply Forall_cons. split; [|by apply Hs].
  split; [by rewrite E1|]. split; [rewrite E2; by apply plain_ih_hex|]. split; [rewrite E3; apply plain_duration|].
  unfold build_run_summary in Es. rewrite duration_text in Es by (by apply run_ok_times).
  cbn [mbind result_bind] in Es. apply (f_equal (fun r => match r with Ok x => Some x | _ => None end)) in Es.
  apply Some_inj in Es as <-. apply plain_size.
Qed.

Lemma session_lists_eq l l' :
  map (fun s => (se_tf s, se_tm s)) l = map (fun s => (se_tf s, se_tm s)) l' ->
  session_count l = session_count l' /\ all_complete l = all_complete l'
  /\ (Forall (fun x => Forall plain_char (torrent_name (se_tf x))) l' ->
      Forall (fun x => Forall plain_char (torrent_name (se_tf x))) l)
  /\ forall i x', l' !! i = Some x' -> exists x, l !! i = Some x /\ se_tf x = se_tf x' /\ se_tm x = se_tm x'.
Proof.
  intros E. assert (session_count l = session_count l') as Hlen.
  { unfold session_count. apply (f_equal length) in E. by rewrite !length_map in E. }
  split; [done|].
  assert (forallb is_complete l = forallb is_complete l' /\
    (Forall (fun x => Forall plain_char (torrent_name (se_tf x))) l' ->
     Forall (fun x => Forall plain_char (torrent_name (se_tf x))) l)) as [Hc Hp].
  { clear Hlen. revert l' E. induction l as [|x l IH]; intros [|y l'] E; try done. injection E as E1 E2 E3.
    destruct (IH l' E3) as [H1 H2]. cbn. unfold is_complete at 1 3. rewrite E2, H1. split; [done|].
    intros [H3 H4]%Forall_cons. apply Forall_cons. rewrite E1. auto. }
  split; [|split; [done|]].
  - unfold all_complete. rewrite Hc. f_equal. f_equal. apply bool_decide_ext. unfold session_count in Hlen.
    destruct l, l'; try done.
  - intros i x' Hx. assert (map (fun s => (se_tf s, se_tm s)) l !! i = Some (se_tf x', se_tm x')) as H1
      by (rewrite E, list_lookup_fmap, Hx; done).
    rewrite list_lookup_fmap in H1. destruct (l !! i) as [x|]; [|done]. exists x. split; [done|]. by injection H1.
Qed.

(** The batch summary, when there is one to write. *)
Lemma batch_step_ok dir now l out :
  time_ok now -> Forall sess_ok l ->
  exists out', (if (1 <? session_count l)%nat then write_parallel_batch_summary_locked now dir l out else (out, Ok ()))
      = (out', Ok ())
    /\ (forall p, p <> batch_path dir -> out' !! p = out !! p)
    /\ ((1 < session_count l)%nat -> Forall (fun x => Forall plain_char (torrent_name (se_tf x))) l ->
        exists fields, (out' !! batch_path dir ≫= read_json) = Some (JObj fields)
          /\ (str "torrent_count", JNum (to_string (Z.of_nat (session_count l)))) ∈ fields
          /\ (str "all_complete", JBool (all_complete l)) ∈ fields).
Proof.
  intros Hnow Hok. destruct (Nat.ltb_spec 1 (session_count l)) as [Hn|Hn].
  - destruct (collect_ok now l Hnow Hok) as (sums & E & _ & Hpl). unfold write_parallel_batch_summary_locked.
    rewrite E, Hopen. eexists. split; [reflexivity|]. split; [intros p Hp; by apply lookup_insert_ne|].
    intros _ Hnames. rewrite lookup_insert_eq. cbn [mbind option_bind]. rewrite batch_json_reads_back by auto.
    eexists. split; [reflexivity|]. split; rewrite !elem_of_cons; auto.
  - exists out. split; [done|]. split; [done|]. intros ?. lia.
Qed.
End session_disk.

Definition dht_summary_ok (d : DhtRunSummary) : Prop :=
  times_ok (ds_dht d) /\ Forall (Forall json_safe) (ds_bucket_lines d).

(** The file of the DHT node. *)
Lemma dht_step_ok `{OutEnv} dir dht out :
  can_make_dirs dir = true -> (forall p, can_open p = true) -> from_option dht_summary_ok True dht ->
  exists out', match dht with Some d => DhtReport.write_run_summary_json dir (dht_path dir) d out | None => (out, Ok ()) end
      = (out', Ok ())
    /\ (forall p, p <> dht_path dir -> out' !! p = out !! p)
    /\ forall d, dht = Some d -> (out' !! dht_path dir ≫= read_json) = Some (dht_value d).
Proof.
  intros Hm Ho Hd. destruct dht as [d|]; [|by exists out]. destruct Hd as [Ht Hl].
  destruct (dht_summary_reads_back d dir (dht_path dir) out) as (o & E & Hr & Hs); [done..|].
  exists o. split; [done|]. split; [done|]. by intros d' [= <-].
Qed.

(** The members when a session with a metrics directory begins. *)
Definition sm_start (dir : bytes) : SM := mkSM [] speeds_new dir None.

(** The directories summaries may have gone to, and whether there was a [stop_all]. *)
Definition metrics_dirs (dir : bytes) (es : list (Z * sm_op)) : list bytes :=
  dir :: omap (fun e => match snd e with SMetricsDir d => if bool_decide (d = []) then None else Some d | _ => None end) es.

Definition stopped_before (es : list (Z * sm_op)) : bool := existsb (fun e => stops e.2) es.

(** The files of the torrents, of the batch and of the DHT node in the directories [D] are
    different files. *)
Definition session_files (l : list Session) (d : bytes) : list bytes :=
  dht_path d :: batch_path d :: map (summary_path d) l.

Definition files_differ (D : list bytes) (l : list Session) : Prop := NoDup (concat (map (session_files l) D)).

Lemma NoDup_concat_lookup {A B} (f : A -> list B) D a a' i j p :
  NoDup (concat (map f D)) -> a ∈ D -> a' ∈ D -> f a !! i = Some p -> f a' !! j = Some p -> a = a' /\ i = j.
Proof.
  induction D as [|d D IH]; [by intros _ ?%not_elem_of_nil|]. cbn [map concat].
  intros (H1 & H2 & H3)%NoDup_app Ha Ha' Hi Hj.
  assert (forall x k, x ∈ D -> f x !! k = Some p -> p ∈ concat (map f D)) as Hin.
  { intros x k Hx Hk. apply list_elem_of_In, in_concat. exists (f x). split; apply list_elem_of_In.
    - by apply list_elem_of_fmap_2.
    - by apply list_elem_of_lookup_2 in Hk. }
  apply elem_of_cons in Ha as [->|Ha]; apply elem_of_cons in Ha' as [->|Ha'].
  - split; [done|]. exact (NoDup_lookup _ _ _ _ H1 Hi Hj).
  - exfalso. apply (H2 p); [by apply list_elem_of_lookup_2 in Hi|exact (Hin _ _ Ha' Hj)].
  - exfalso. apply (H2 p); [by apply list_elem_of_lookup_2 in Hj|exact (Hin _ _ Ha Hi)].
  - by apply IH.
Qed.

Lemma files_differ_sound D l :
  files_differ D l -> differ D l /\ forall d, d ∈ D -> dht_path d <> batch_path d.
Proof.
  intros Hnd. unfold files_differ in Hnd. pose proof (NoDup_concat_lookup (session_files l) D) as H.
  assert (forall d i x, l !! i = Some x -> session_files l d !! S (S i) = Some (summary_path d x)) as Hl.
  { intros d i x Hx. change ((summary_path d <$> l) !! i = Some (summary_path d x)). by rewrite list_lookup_fmap, Hx. }
  split; [split|].
  - intros i j x y d d' Hx Hy Hd Hd' E.
    destruct (H d d' (S (S i)) (S (S j)) (summary_path d x) Hnd Hd Hd') as [? ?]; [by apply Hl|rewrite E; by apply Hl|].
    split; [lia|done].
  - intros x d d' [i Hi]%list_elem_of_lookup Hd Hd'. split; intros E.
    + destruct (H d d' (S (S i)) 1%nat (summary_path d x) Hnd Hd Hd') as [_ ?]; [by apply Hl|by rewrite E|done].
    + destruct (H d d' (S (S i)) 0%nat (summary_path d x) Hnd Hd Hd') as [_ ?]; [by apply Hl|by rewrite E|done].
  - intros d Hd E. destruct (H d d 0%nat 1%nat (dht_path d) Hnd Hd Hd) as [_ ?]; [done|by rewrite E|done].
Qed.


(** Two torrents; the first completes and the status display writes its summary, the second
    is not complete when the session stops. *)
Definition other_torrent : TorrentFile :=
  mkTorrent (str "other") false 4096 16384 [] (mkInfoHash (repeat 205 20)) []
    (mkTracker UDP (str "t.example") 80 (str "/")) [].

Definition sample_events : list (Z * sm_op) :=
  [(10, SAdd sample_torrent); (11, SAdd other_torrent); (20, STorrent 0 StartCall); (21, STorrent 1 StartCall);
   (30, SPrint); (40, SPiece 0 1500000 0); (50, STorrent 0 Completes); (2000000000, SPrint); (3000000000, SPrint)].


(** A torrent that completes after a [stop_all] keeps the file that says it is not
    complete, and a directory that is set after its file was written gets none. *)
Definition late_events : list (Z * sm_op) :=
  [(10, SAdd other_torrent); (20, STorrent 0 StartCall); (30, SSummaries None); (40, STorrent 0 Completes);
   (50, SMetricsDir (str "n"))].

Lemma summary_out_of_date :
  let _ := mkOut (fun _ => true) (fun _ => true) in
  let '(s, out) := sm_run (fun l => l) (sm_start (str "m"), ∅) late_events in
  let out' := (write_summaries 60 None s out).2.1 in
  map is_complete (sm_sessions s) = [true]
  /\ out' !! str "n/other_summary.json" = None
  /\ exists fields, (out' !! str "m/other_summary.json" ≫= read_json) = Some (JObj fields)
       /\ (str "complete", JBool false) ∈ fields.
Proof.
  intros env. vm_compute. split; [reflexivity|]. split; [reflexivity|]. eexists. split; [reflexivity|].
  apply (list_elem_of_lookup_2 _ 12%nat). reflexivity.
Qed.
