(* ===== verification/Locking.v ===== *)
(** * Threads that lock, spawn and join
    (the use the client makes of std::mutex, std::lock_guard and std::thread)

    What a function does as far as other threads can be kept waiting by it: a small command
    language of locks, thread starts and joins, with every branch and every number of
    iterations open, and its interleaving semantics.  The type class [Ranked] orders the
    mutexes and the groups of threads that are joined; when every function takes its locks
    in that order, then whatever the threads have done, each of them can go on or waits,
    through a chain of others, for one that can. *)

From S2P Require Import Prelude.

Section commands.
Context (lock group flag : Type).

Inductive cmd :=
  | Skip
  | Work                          (* anything that waits for no other thread of the program *)
  | Acq (l : lock)
  | Rel (l : lock)
  | Put (f : flag) (b : bool)     (* an atomic flag *)
  | Seq (a b : cmd)
  | Any (f : nat -> cmd)          (* a branch, or a number of iterations *)
  | While (f : flag) (body : cmd) (* while (f) body *)
  | Spawn (g : group)             (* std::thread, into the threads of [g] *)
  | JoinAll (g : group).          (* join() of every thread of [g] *)
End commands.
Arguments Skip {_ _ _}.
Arguments Work {_ _ _}.
Arguments Acq {_ _ _} l.
Arguments Rel {_ _ _} l.
Arguments Put {_ _ _} f b.
Arguments Seq {_ _ _} a b.
Arguments Any {_ _ _} f.
Arguments While {_ _ _} f body.
Arguments Spawn {_ _ _} g.
Arguments JoinAll {_ _ _} g.

(** One after the other. *)
Definition seqs {lock group flag : Type} (l : list (cmd lock group flag)) : cmd lock group flag := foldr Seq Skip l.

(** The order of the mutexes, and where each group of threads stands in it: above the locks
    that may be held while it is joined, below those its threads take. *)
Class Ranked (lock group : Type) := {
  ranked_lock_dec :: EqDecision lock;
  ranked_group_dec :: EqDecision group;
  rank : lock -> nat;
  grank : group -> nat;
}.

Section semantics.
Context {lock group flag : Type} `{Ranked lock group, EqDecision flag} (body : group -> cmd lock group flag).
Abbreviation cmd := (cmd lock group flag).

(** ** Execution *)

(** A thread: its group, the locks it holds, and what it has still to do. *)
Record thread := mkThread { t_group : group; t_held : list lock; t_todo : list cmd }.

Record state := mkState { s_flags : flag -> bool; s_pool : list thread }.

Definition is_free (l : lock) (pool : list thread) : Prop := forall t, t ∈ pool -> l ∉ t_held t.

Definition finished (t : thread) : Prop := t_todo t = [].

(** Thread [i] goes on with [k], holding [h]. *)
Definition goes_on (i : nat) (g : group) (h : list lock) (k : list cmd) (s : state) : state :=
  mkState (s_flags s) (<[i := mkThread g h k]> (s_pool s)).

Definition set_flag (f : flag) (b : bool) (s : state) : state :=
  mkState (fun f' => if decide (f' = f) then b else s_flags s f') (s_pool s).

Definition start_thread (g : group) (s : state) : state :=
  mkState (s_flags s) (s_pool s ++ [mkThread g [] [body g]]).

(** One step of thread [i], whose next command is [c]. *)
Inductive exec (i : nat) (g : group) (h : list lock) (k : list cmd) (s : state) : cmd -> state -> Prop :=
  | EWork : exec i g h k s Work (goes_on i g h k s)
  | ESkip : exec i g h k s Skip (goes_on i g h k s)
  | EAcq l : is_free l (s_pool s) -> exec i g h k s (Acq l) (goes_on i g (l :: h) k s)
  | ERel l : exec i g h k s (Rel l) (goes_on i g (filter (fun x => x <> l) h) k s)
  | EPut f b : exec i g h k s (Put f b) (set_flag f b (goes_on i g h k s))
  | ESeq a b : exec i g h k s (Seq a b) (goes_on i g h (a :: b :: k) s)
  | EAny f n : exec i g h k s (Any f) (goes_on i g h (f n :: k) s)
  | EWhile f c : s_flags s f = true -> exec i g h k s (While f c) (goes_on i g h (c :: While f c :: k) s)
  | EExit f c : s_flags s f = false -> exec i g h k s (While f c) (goes_on i g h k s)
  | ESpawn g' : exec i g h k s (Spawn g') (start_thread g' (goes_on i g h k s))
  | EJoin g' : (forall t, t ∈ s_pool s -> t_group t = g' -> finished t) ->
      exec i g h k s (JoinAll g') (goes_on i g h k s).

Definition step (i : nat) (s s' : state) : Prop :=
  exists g h c k, s_pool s !! i = Some (mkThread g h (c :: k)) /\ exec i g h k s c s'.

Definition steps (s s' : state) : Prop := rtc (fun s s' => exists i, step i s s') s s'.

Definition can_go (i : nat) (s : state) : Prop := exists s', step i s s'.

(** Thread [i] waits for thread [j]: for a lock it holds, or for its end. *)
Definition waits (s : state) (i j : nat) : Prop :=
  exists ti tj c k, s_pool s !! i = Some ti /\ s_pool s !! j = Some tj /\ t_todo ti = c :: k /\
    match c with
    | Acq l => l ∈ t_held tj
    | JoinAll g => t_group tj = g /\ ~ finished tj
    | _ => False
    end.

(** ** The discipline *)

(** What a thread of group [g] does with [c], holding [h], and what it holds afterwards. *)
Inductive obeys (g : group) : list lock -> cmd -> list lock -> Prop :=
  | OSkip h : obeys g h Skip h
  | OWork h : obeys g h Work h
  | OAcq h l : (forall x, x ∈ h -> (rank x < rank l)%nat) -> (grank g < rank l)%nat -> obeys g h (Acq l) (l :: h)
  | ORel h l : l ∈ h -> obeys g h (Rel l) (filter (fun x => x <> l) h)
  | OPut h f b : obeys g h (Put f b) h
  | OSeq h1 h2 h3 a b : obeys g h1 a h2 -> obeys g h2 b h3 -> obeys g h1 (Seq a b) h3
  | OAny h h' f : (forall n, obeys g h (f n) h') -> obeys g h (Any f) h'
  | OWhile h f c : obeys g h c h -> obeys g h (While f c) h
  | OSpawn h g' : obeys g h (Spawn g') h
  | OJoin h g' : (forall x, x ∈ h -> (rank x < grank g')%nat) -> (grank g < grank g')%nat -> obeys g h (JoinAll g') h.

Fixpoint obeys_all (g : group) (h : list lock) (k : list cmd) : Prop :=
  match k with
  | [] => h = []
  | c :: k' => exists h', obeys g h c h' /\ obeys_all g h' k'
  end.

(** Every body gives its locks back, and takes them in order. *)
Definition disciplined : Prop := forall g, obeys g [] (body g) [].

Definition pool_ok (pool : list thread) : Prop := Forall (fun t => obeys_all (t_group t) (t_held t) (t_todo t)) pool.

(** No two threads hold the same lock. *)
Definition exclusive (pool : list thread) : Prop :=
  forall i j ti tj l, pool !! i = Some ti -> pool !! j = Some tj -> l ∈ t_held ti -> l ∈ t_held tj -> i = j.

Definition inv (s : state) : Prop := pool_ok (s_pool s) /\ exclusive (s_pool s).

Lemma pool_ok_insert i t pool :
  pool_ok pool -> obeys_all (t_group t) (t_held t) (t_todo t) -> pool_ok (<[i := t]> pool).
Proof. intros Hp Ht. by apply Forall_insert. Qed.

Lemma exclusive_insert i t t' pool :
  pool !! i = Some t -> exclusive pool ->
  (forall l, l ∈ t_held t' -> l ∈ t_held t \/ is_free l pool) -> exclusive (<[i := t']> pool).
Proof.
  intros Hi Hex Hh a b ta tb l Ha Hb La Lb.
  assert (forall n tn, <[i := t']> pool !! n = Some tn -> l ∈ t_held tn ->
    n = i /\ l ∈ t_held t' \/ n <> i /\ pool !! n = Some tn) as Hcase.
  { intros n tn Hn Ln. destruct (decide (n = i)) as [->|Hni].
    - rewrite list_lookup_insert_eq in Hn by (by eapply lookup_lt_Some). left. split; [done|]. by injection Hn as ->.
    - rewrite list_lookup_insert_ne in Hn by done. by right. }
  destruct (Hcase a ta Ha La) as [[-> Lt]|[Hai Ha']]; destruct (Hcase b tb Hb Lb) as [[-> Lt']|[Hbi Hb']]; [done|..].
  - destruct (Hh l Lt) as [Lo|Lf]; [by eapply Hex|]. exfalso. eapply Lf; [|exact Lb]. by eapply list_elem_of_lookup_2.
  - destruct (Hh l Lt') as [Lo|Lf]; [by eapply Hex|]. exfalso. eapply Lf; [|exact La]. by eapply list_elem_of_lookup_2.
  - by eapply Hex.
Qed.

Lemma exclusive_snoc g c pool : exclusive pool -> exclusive (pool ++ [mkThread g [] c]).
Proof.
  intros Hex a b ta tb l Ha Hb La Lb.
  assert (forall n tn, (pool ++ [mkThread g [] c]) !! n = Some tn -> l ∈ t_held tn -> pool !! n = Some tn) as Hc.
  { intros n tn [Hn|[_ Hn]]%lookup_app_Some Ln; [done|]. destruct (n - _)%nat; [|done]. injection Hn as <-.
    by apply not_elem_of_nil in Ln. }
  eapply Hex; eauto.
Qed.

Lemma step_inv i s s' : disciplined -> step i s s' -> inv s -> inv s'.
Proof.
  intros Hd (g & h & c & k & Hi & He) [Hp Hx].
  assert (exists h', obeys g h c h' /\ obeys_all g h' k) as (h' & Hc & Hk).
  { unfold pool_ok in Hp. rewrite Forall_forall in Hp. exact (Hp _ (list_elem_of_lookup_2 _ _ _ Hi)). }
  assert (forall h1 k1, obeys_all g h1 k1 -> (forall l, l ∈ h1 -> l ∈ h \/ is_free l (s_pool s)) ->
    inv (goes_on i g h1 k1 s)) as Hgo.
  { intros h1 k1 Hk1 Hh1. split; [by apply pool_ok_insert|]. by eapply exclusive_insert. }
  destruct He; inversion Hc; subst; try (by apply Hgo; auto).
  - apply Hgo; [done|]. intros x [->|Hxl]%elem_of_cons; auto.
  - apply Hgo; [done|]. intros x [_ Hxl]%list_elem_of_filter. auto.
  - apply Hgo; [|auto]. cbn. eauto.
  - apply Hgo; [|auto]. cbn. eauto.
  - apply Hgo; [|auto]. cbn. exists h'. split; [done|]. exists h'. split; [by constructor|done].
  - destruct (Hgo h' k Hk ltac:(auto)) as [H1 H2]. split.
    + apply Forall_app. split; [exact H1|]. apply Forall_singleton. cbn. exists []. split; [apply Hd|done].
    + by apply exclusive_snoc.
Qed.

Lemma steps_inv s s' : disciplined -> steps s s' -> inv s -> inv s'.
Proof. intros Hd. induction 1 as [|s1 s2 s3 [i Hs] _ IH]; [done|]. intros Hinv. apply IH. by eapply step_inv. Qed.

(** ** No deadlock *)

(** What the next command waits for. *)
Definition wait_rank (c : cmd) : nat :=
  match c with
  | Acq l => rank l
  | JoinAll g => grank g
  | _ => 0
  end.

Definition next_rank (t : thread) : nat := match t_todo t with c :: _ => wait_rank c | [] => 0 end.

Definition max_rank (pool : list thread) : nat := foldr (fun t n => max (next_rank t) n) O pool.

Lemma next_rank_max pool t : t ∈ pool -> (next_rank t <= max_rank pool)%nat.
Proof. unfold max_rank. induction 1; cbn [foldr]; lia. Qed.

Lemma held_unfinished g h k l : obeys_all g h k -> l ∈ h -> k <> [].
Proof. intros Hk Hl ->. cbn in Hk. subst. by apply not_elem_of_nil in Hl. Qed.

(** A thread goes on unless it waits for another. *)
Lemma go_or_wait i s g h c k :
  s_pool s !! i = Some (mkThread g h (c :: k)) ->
  can_go i s \/ exists j, waits s i j.
Proof.
  intros Hi. assert (forall s', exec i g h k s c s' -> can_go i s) as Hgo by (intros s' He; exists s'; unfold step; eauto 6).
  destruct c as [| |l|l|f b|a b|f|f cb|g'|g'].
  - left. eapply Hgo, ESkip.
  - left. eapply Hgo, EWork.
  - destruct (decide (Exists (fun t => l ∈ t_held t) (s_pool s))) as [Hex|Hno].
    + apply Exists_exists in Hex as (t & Ht & Hl). apply list_elem_of_lookup in Ht as [j Hj].
      right. exists j. unfold waits. eexists _, t, (Acq l), k. done.
    + left. eapply Hgo. constructor. intros t Ht Hl. apply Hno. apply Exists_exists. eauto.
  - left. eapply Hgo, ERel.
  - left. eapply Hgo, EPut.
  - left. eapply Hgo, ESeq.
  - left. eapply Hgo, (EAny _ _ _ _ _ f 0%nat).
  - left. destruct (s_flags s f) eqn:Ef; [eapply Hgo, EWhile, Ef|eapply Hgo, EExit, Ef].
  - left. eapply Hgo, ESpawn.
  - destruct (decide (Exists (fun t => t_group t = g' /\ t_todo t <> []) (s_pool s))) as [Hex|Hno].
    + apply Exists_exists in Hex as (t & Ht & Hg & Hf). apply list_elem_of_lookup in Ht as [j Hj].
      right. exists j. unfold waits. eexists _, t, (JoinAll g'), k. done.
    + left. eapply Hgo. constructor. intros t Ht Hg. destruct (t_todo t) eqn:E; [exact E|]. exfalso. apply Hno.
      apply Exists_exists. exists t. rewrite E. done.
Qed.

(** Whoever is waited for is not finished, and waits, if it does, for something further up. *)
Lemma waits_up s i j ti tj :
  inv s -> waits s i j -> s_pool s !! i = Some ti -> s_pool s !! j = Some tj ->
  ~ finished tj /\ ((exists l, waits s j l) -> (next_rank ti < next_rank tj)%nat).
Proof.
  intros [Hp _] (ti' & tj' & c & k & Hi & Hj & Hk & Hc) Hi' Hj'.
  assert (ti' = ti) as -> by congruence. assert (tj' = tj) as -> by congruence.
  unfold pool_ok in Hp. rewrite Forall_forall in Hp. pose proof (Hp _ (list_elem_of_lookup_2 _ _ _ Hj)) as Hoj.
  destruct c; try done.
  - split; [unfold finished; by eapply held_unfinished|]. intros (m & tj2 & tm & d & k' & Hj2 & _ & Hkd & Hd).
    assert (tj2 = tj) as -> by congruence. unfold next_rank. rewrite Hk, Hkd. cbn [wait_rank].
    rewrite Hkd in Hoj. destruct Hoj as (h' & Hd' & _). destruct d; try done; inversion Hd'; subst; cbn [wait_rank]; auto.
  - destruct Hc as [Hg Hf]. split; [done|]. intros (m & tj2 & tm & d & k' & Hj2 & _ & Hkd & Hd).
    assert (tj2 = tj) as -> by congruence. unfold next_rank. rewrite Hk, Hkd. cbn [wait_rank].
    rewrite Hkd in Hoj. destruct Hoj as (h' & Hd' & _). destruct d; try done; inversion Hd'; subst; cbn [wait_rank]; auto.
Qed.

Lemma no_wait_cycle s : inv s -> forall i t,
  s_pool s !! i = Some t -> ~ finished t -> exists j, rtc (waits s) i j /\ can_go j s.
Proof.
  intros Hinv i t. remember (max_rank (s_pool s) - next_rank t)%nat as n eqn:En. revert i t En.
  induction n as [n IH] using lt_wf_ind. intros i t En Hi Hf.
  destruct t as [g h [|c k]]; [done|]. destruct (go_or_wait i s g h c k Hi) as [Hgo|[j Hw]]; [by exists i|].
  pose proof Hw as (ti & tj & d & k' & Hi' & Hj & _). assert (ti = mkThread g h (c :: k)) as -> by congruence.
  destruct (waits_up s i j _ tj Hinv Hw Hi Hj) as [Hfj Hup].
  destruct tj as [gj hj [|cj kj]]; [done|].
  destruct (go_or_wait j s gj hj cj kj Hj) as [Hgo|Hwait]; [exists j; split; [by apply rtc_once|done]|].
  specialize (Hup Hwait). pose proof (next_rank_max _ _ (list_elem_of_lookup_2 _ _ _ Hj)).
  destruct (IH (max_rank (s_pool s) - next_rank (mkThread gj hj (cj :: kj)))%nat) with (i := j)
    (t := mkThread gj hj (cj :: kj)) as (m & Hm & Hgo); [lia|done|done|done|].
  exists m. split; [by eapply rtc_l|done].
Qed.

(** A program: its first threads. *)
Definition start (f : flag -> bool) (gs : list group) : state := mkState f (map (fun g => mkThread g [] [body g]) gs).

Lemma start_inv f gs : disciplined -> inv (start f gs).
Proof.
  intros Hd. split.
  - apply Forall_forall. intros t Ht. apply list_elem_of_fmap in Ht as (g & -> & _). cbn. exists []. split; [apply Hd|done].
  - intros i j ti tj l Hi Hj Li. apply list_elem_of_lookup_2, list_elem_of_fmap in Hi as (g & -> & _).
    by apply not_elem_of_nil in Li.
Qed.

(** Runs, a step at a time. *)
Lemma run_any i n g h k f s s' :
  s_pool s !! i = Some (mkThread g h (Any f :: k)) -> steps (goes_on i g h (f n :: k) s) s' -> steps s s'.
Proof. intros Hi Hr. eapply rtc_l; [exists i; do 4 eexists; split; [exact Hi|apply EAny]|exact Hr]. Qed.

Lemma run_seq i g h k a b s s' :
  s_pool s !! i = Some (mkThread g h (Seq a b :: k)) -> steps (goes_on i g h (a :: b :: k) s) s' -> steps s s'.
Proof. intros Hi Hr. eapply rtc_l; [exists i; do 4 eexists; split; [exact Hi|apply ESeq]|exact Hr]. Qed.

Lemma run_acq i g h k l s s' :
  s_pool s !! i = Some (mkThread g h (Acq l :: k)) -> is_free l (s_pool s) ->
  steps (goes_on i g (l :: h) k s) s' -> steps s s'.
Proof. intros Hi Hl Hr. eapply rtc_l; [exists i; do 4 eexists; split; [exact Hi|by apply EAcq]|exact Hr]. Qed.

(** ** Building programs *)

(** [c] can be done while holding locks of a rank below [n] only. *)
Definition uses (g : group) (n : nat) (c : cmd) : Prop :=
  forall h, (forall x, x ∈ h -> (rank x < n)%nat) -> obeys g h c h.

Lemma uses_mono g n m c : (m <= n)%nat -> uses g n c -> uses g m c.
Proof. intros Hm Hc h Hh. apply Hc. intros x Hx. specialize (Hh x Hx). lia. Qed.

Lemma uses_skip g n : uses g n Skip.
Proof. intros h _. constructor. Qed.
Lemma uses_work g n : uses g n Work.
Proof. intros h _. constructor. Qed.
Lemma uses_put g n f b : uses g n (Put f b).
Proof. intros h _. constructor. Qed.
Lemma uses_spawn g n g' : uses g n (Spawn g').
Proof. intros h _. constructor. Qed.
Lemma uses_seq g n a b : uses g n a -> uses g n b -> uses g n (Seq a b).
Proof. intros Ha Hb h Hh. econstructor; [by apply Ha|by apply Hb]. Qed.
Lemma uses_any g n f : (forall x, uses g n (f x)) -> uses g n (Any f).
Proof. intros Hf h Hh. constructor. intros x. by apply Hf. Qed.
Lemma uses_while g n f c : uses g n c -> uses g n (While f c).
Proof. intros Hc h Hh. constructor. by apply Hc. Qed.
Lemma uses_join g n g' : (n <= grank g')%nat -> (grank g < grank g')%nat -> uses g n (JoinAll g').
Proof. intros Hn Hg h Hh. constructor; [|done]. intros x Hx. specialize (Hh x Hx). lia. Qed.

(** [{ std::lock_guard lock(l); c }] *)
Definition locked (l : lock) (c : cmd) : cmd := Seq (Acq l) (Seq c (Rel l)).

Lemma uses_locked g n l c :
  (n <= rank l)%nat -> (grank g < rank l)%nat -> uses g (S (rank l)) c -> uses g n (locked l c).
Proof.
  intros Hn Hg Hc h Hh. assert (forall x, x ∈ h -> (rank x < rank l)%nat) as Hr by (intros x Hx; specialize (Hh x Hx); lia).
  apply (OSeq _ h (l :: h) h); [by constructor|]. apply (OSeq _ _ (l :: h)).
  - apply Hc. intros x [->|Hx]%elem_of_cons; [lia|]. specialize (Hr x Hx). lia.
  - assert (filter (fun x => x <> l) (l :: h) = h) as E; [|rewrite <- E at 2; constructor; left].
    cbn [filter]. unfold filter. cbn. rewrite decide_False by auto.
    assert (l ∉ h) as Hl by (intros Hl; specialize (Hr l Hl); lia). clear -Hl.
    induction h as [|x h IH]; [done|]. apply not_elem_of_cons in Hl as [H1 H2]. cbn. rewrite decide_True by auto.
    f_equal. by apply IH.
Qed.

Lemma uses_seqs g n l : Forall (uses g n) l -> uses g n (seqs l).
Proof. induction 1; [apply uses_skip|]. by apply uses_seq. Qed.

(** One of several; any number of times. *)
Definition choice (l : list cmd) : cmd := Any (fun n => nth n l Skip).
Definition star (c : cmd) : cmd := Any (fun n => seqs (replicate n c)).
Definition maybe (c : cmd) : cmd := choice [Skip; c].

(** The commands of a scope in order; an exception leaves out what follows it.  The guards
    outside give their locks back in both cases, and what an exception skips in the caller
    is left out by the caller's scope. *)
Definition scope (l : list cmd) : cmd := Any (fun n => seqs (take n l)).

Lemma uses_choice g n l : Forall (uses g n) l -> uses g n (choice l).
Proof.
  intros Hl. apply uses_any. intros i. revert i. induction Hl as [|c l Hc _ IH]; intros [|i]; cbn; auto using uses_skip.
Qed.

Lemma uses_scope g n l : Forall (uses g n) l -> uses g n (scope l).
Proof. intros Hl. apply uses_any. intros i. apply uses_seqs. by apply Forall_take. Qed.

Lemma uses_star g n c : uses g n c -> uses g n (star c).
Proof. intros Hc. apply uses_any. intros i. apply uses_seqs. apply Forall_replicate. exact Hc. Qed.

Lemma uses_maybe g n c : uses g n c -> uses g n (maybe c).
Proof. intros Hc. apply uses_choice. apply Forall_cons. split; [apply uses_skip|by apply Forall_singleton]. Qed.
End semantics.

Create HintDb locks.
#[export] Hint Resolve uses_skip uses_work uses_put uses_spawn uses_seq uses_while uses_star uses_maybe : locks.
