(* ===== verification/SessionThreads.v ===== *)
(** * The threads of a session
    (src/peer_wire/session_manager.cpp, src/peer_wire/torrent_manager.cpp, src/dht/)

    Every function that takes a mutex, starts or joins a thread, as a command of [Locking]:
    which mutexes it holds while it calls what.  Data is left out, so all branches are open
    and every loop can run any number of times; a wait on a socket, a timer or a tracker is
    [Work]: it is for no other thread of the program ([cancel] and the time-outs end it;
    that a tracker behind TLS has none is a matter of the tracker).  A [scope] may end after each of its
    parts, as with an exception; the guards around it release their mutexes.  The functions are named as in the source. *)

From S2P Require Import Prelude Locking.

(** ** Mutexes, groups of threads, flags *)

Inductive mutex :=
  | SessionMutex              (* SessionManager::m_mutex *)
  | SpawnMutex (t : nat)      (* TorrentManager::m_spawn_mu of torrent t *)
  | FileMutex (t i : nat)     (* DiskWriter::m_file_mutexes[i] *)
  | StopMutex                 (* DhtClient::stop_mutex_ *)
  | DhtLogMutex               (* DhtClient::dht_logger_mutex_ *)
  | LookupMutex               (* GetPeersLookupManager::mutex_ *)
  | TableMutex                (* RoutingTable::mutex_ *)
  | CoordMutex                (* AnnounceCoordinator::mutex_ *)
  | StoreMutex                (* DhtPeerStore::mutex_ *)
  | CallbackMutex             (* DhtClient::callback_mutex_ *)
  | LogMutex (n : nat).       (* Logger::m_log_mutex of logger n *)

Inductive threads :=
  | Main                      (* the caller of start_all and stop_all *)
  | Client                    (* other callers of the session's const functions *)
  | StatusThread              (* SessionManager::m_status_thread *)
  | RecvThread                (* DhtClient::recv_thread_ *)
  | MaintThread               (* DhtClient::maint_thread_ *)
  | Workers (t : nat).        (* TorrentManager::m_threads of torrent t *)

Inductive atomic_flag :=
  | StatusOn                  (* the negation of m_status_stop *)
  | Running                   (* DhtClient::running_ *)
  | StoppedFlag (t : nat).    (* TorrentManager::m_stopped *)

#[global] Instance atomic_flag_eq_dec : EqDecision atomic_flag.
Proof. solve_decision. Defined.

(** The order in which mutexes are taken and threads joined. *)
Definition mutex_rank (l : mutex) : nat :=
  match l with
  | SessionMutex => 2
  | StopMutex => 4
  | SpawnMutex _ => 5
  | DhtLogMutex => 6
  | LookupMutex => 7
  | TableMutex => 8
  | CoordMutex => 9
  | StoreMutex => 10
  | CallbackMutex => 11
  | LogMutex _ => 12
  | FileMutex _ i => 13 + i
  end.

Definition threads_rank (g : threads) : nat :=
  match g with
  | Main | Client => 0
  | StatusThread | RecvThread | MaintThread => 1
  | Workers _ => 3
  end.

#[global] Instance session_ranked : Ranked mutex threads.
Proof. refine {| rank := mutex_rank; grank := threads_rank |}; solve_decision. Defined.

Abbreviation command := (cmd mutex threads atomic_flag).

(** ** The logger and the DHT's parts *)

(** [Logger::log]: below the level it returns before it takes its mutex. *)
Definition log (n : nat) : command := maybe (locked (LogMutex n) Work).

Definition session_logger : nat := 0.
Definition dht_logger : nat := 1.
Definition torrent_logger (t : nat) : nat := 2 + t.

(** [log_dht_info], [log_dht_debug], [log_krpc] *)
Definition log_dht_info : command := locked DhtLogMutex (maybe (log dht_logger)).
Definition log_krpc : command := log_dht_info.

(** The operations of the routing table, of the coordinator, the store, and those of the
    lookup manager that only read its maps. *)
Definition table_op : command := locked TableMutex Work.
Definition table_add : command := maybe (locked TableMutex (star (log dht_logger))).
Definition coord_op : command := locked CoordMutex Work.
Definition store_op : command := locked StoreMutex Work.
Definition lookup_op : command := locked LookupMutex Work.

(** [advance_lookup], [finish_lookup], [lookup_should_finish], the expiry loops: they run
    under the lookup manager's mutex, log, and ask the routing table. *)
Definition lookup_step : command := choice [log dht_logger; table_op].

Definition start_or_advance : command :=
  scope [table_op; choice [log dht_logger; scope [locked LookupMutex (star lookup_step); log dht_logger]]].
Definition lookup_on_response : command := locked LookupMutex (star lookup_step).
Definition expire_active_lookups : command := locked LookupMutex (log dht_logger).
Definition tick : command := scope [locked LookupMutex (star lookup_step); log dht_logger].

(** ** The DHT node *)

Definition send_krpc : command := maybe (scope [log_krpc; Work; maybe log_dht_info]).
Definition send_all : command := star send_krpc.

Definition log_get_peers_lookup_completed : command := scope [store_op; log_dht_info].

Definition get_peers : command :=
  scope [store_op; start_or_advance;
        maybe (scope [coord_op; send_all; maybe log_get_peers_lookup_completed])].

Definition register_torrent : command := scope [coord_op; maybe get_peers].

Definition maybe_mark_bootstrap_complete : command :=
  maybe (scope [table_op; maybe (maybe (scope [table_op; log_dht_info]))]).

(** [spawn_peers_locked]: a worker for every peer it takes. *)
Definition spawn_peers_locked (t : nat) : command := star (Spawn (Workers t)).

Definition add_dht_peer (t : nat) : command :=
  locked (SpawnMutex t) (maybe (scope [log (torrent_logger t); spawn_peers_locked t])).

(** The callback of [SessionManager]: the torrents with the info hash. *)
Definition peer_callback : command :=
  locked SessionMutex (star (Any (fun t => scope [add_dht_peer t; log session_logger]))).

Definition invoke_peer_callback : command := scope [locked CallbackMutex Work; maybe peer_callback].

Definition try_pending_initial_lookups : command :=
  scope [table_op; maybe (scope [coord_op; star (scope [lookup_op; maybe get_peers])])].

Definition on_ping : command := send_krpc.
Definition on_find_node : command := scope [table_op; send_krpc].
Definition on_get_peers : command :=
  maybe (scope [store_op; store_op; choice [send_krpc; scope [table_op; send_krpc]]]).
Definition on_announce_peer : command :=
  maybe (choice [send_krpc; scope [store_op; invoke_peer_callback; send_krpc]]).

Definition on_response : command :=
  scope [star table_add; maybe maybe_mark_bootstrap_complete;
        maybe (scope [lookup_op; maybe coord_op]);
        lookup_on_response;
        choice [send_all;
                scope [star (maybe (scope [store_op; invoke_peer_callback])); send_all;
                      maybe log_get_peers_lookup_completed; send_all; try_pending_initial_lookups]]].

Definition handle_message : command :=
  scope [log_krpc; maybe (scope [table_add; maybe_mark_bootstrap_complete]);
        choice [Skip; on_ping; on_find_node; on_get_peers; on_announce_peer; on_response]].

Definition recv_loop : command :=
  While Running
    (scope [choice [Work; scope [Work; table_op; maybe log_dht_info]; scope [Work; handle_message]];
           maybe (scope [tick; send_all])]).

Definition refresh_buckets : command :=
  scope [table_op; maybe (star (scope [table_op; star send_krpc]))].

Definition maintain_registered_torrents : command :=
  scope [try_pending_initial_lookups; coord_op; star (scope [lookup_op; maybe (scope [get_peers; coord_op])])].

Definition save_persisted_routing_table : command :=
  maybe (scope [table_op; maybe (scope [table_op; maybe log_dht_info])]).

Definition ping_bootstrap : command := scope [Work; choice [log_dht_info; scope [log_dht_info; send_krpc; send_krpc]]].
Definition bootstrap : command := scope [log_dht_info; star ping_bootstrap].

(** [maintenance_loop]: it holds [stop_mutex_] except while it waits - [wait_for] gives the
    mutex back and ends after a minute or when it is notified - and while it works. *)
Definition maintenance : command :=
  scope [expire_active_lookups; tick; send_all; store_op; refresh_buckets; maintain_registered_torrents;
        maybe (scope [table_op; maybe save_persisted_routing_table]);
        maybe (scope [table_op; maybe (scope [table_op; log_dht_info; bootstrap; maybe log_dht_info])])].

Definition unlocked (l : mutex) (c : command) : command := seqs [Rel l; c; Acq l].

Definition maintenance_loop : command :=
  locked StopMutex (While Running (seqs [unlocked StopMutex Work; maybe (unlocked StopMutex maintenance)])).

Definition verify_loaded_routing_entries : command :=
  scope [table_op; maybe (scope [send_all; star (scope [table_op; Work])])].

Definition load_persisted_routing_table : command :=
  scope [Work; choice [log_dht_info; scope [star table_add; log_dht_info]]].

Definition dht_start : command :=
  maybe (scope [Work; Put Running true; Spawn RecvThread; Spawn MaintThread; log_dht_info;
               choice [Skip; scope [Work; log_dht_info];
                       scope [load_persisted_routing_table; table_op; maybe verify_loaded_routing_entries;
                             table_op; maybe log_dht_info]];
               choice [bootstrap; scope [table_op; maybe maybe_mark_bootstrap_complete]; Skip]]).

(** [DhtClient::stop], after [running_.exchange(false)]. *)
Definition dht_stop : command :=
  maybe (scope [Put Running false; save_persisted_routing_table; locked StopMutex Work; Work;
               JoinAll RecvThread; JoinAll MaintThread; coord_op]).

Definition set_dht_logger : command :=
  locked DhtLogMutex (scope [locked TableMutex Work; locked LookupMutex Work]).
Definition set_peer_callback : command := locked CallbackMutex Work.

(** [performance_snapshot] and the buckets' lines, for the summary. *)
Definition dht_summary : command := scope [table_op; table_op; table_op; table_op].

(** ** A torrent *)

(** The tracker's answer, with the lines it logs. *)
Definition announce (t : nat) : command := scope [Work; star (log (torrent_logger t))].

Definition torrent_start (t : nat) : command :=
  choice [log (torrent_logger t);
          scope [Work; announce t;
                locked (SpawnMutex t) (scope [star (log (torrent_logger t)); maybe (spawn_peers_locked t)])]].

Definition torrent_stop (t : nat) : command :=
  maybe (scope [Put (StoppedFlag t) true; locked (SpawnMutex t) Work; JoinAll (Workers t);
               maybe (scope [maybe (announce t); announce t])]).

(** [uploaded_bytes], [blocks_uploaded], [top_peers], [top_upload_peers] *)
Definition spawn_op (t : nat) : command := locked (SpawnMutex t) Work.

(** [write_piece], [read_piece]: the mutexes of [n] files in ascending order, given back from
    the first to the last when the vector [locks] dies; [held]: those taken. *)
Fixpoint with_files (t lo n : nat) (held : list nat) : command :=
  match n with
  | O => Seq Work (seqs (map (fun i => Rel (FileMutex t i)) held))
  | S n' => Any (fun k => Seq (Acq (FileMutex t (lo + k))) (with_files t (S (lo + k)) n' (held ++ [(lo + k)%nat])))
  end.

Definition disk_op (t : nat) : command := Any (fun n => with_files t 0 n []).

Definition on_peer_worker_finished (t : nat) : command := locked (SpawnMutex t) (spawn_peers_locked t).

(** [conn.connect()], [conn.run()]: the peer's messages, with a logger of its own; the
    piece manager, which they call, logs with the torrent's. *)
Definition conn_run (t : nat) : command :=
  Any (fun peer_logger => star (choice [Work; log peer_logger; log (torrent_logger t); disk_op t])).

Definition run_peer_worker (t : nat) : command :=
  scope [Work; spawn_op t;
        choice [Skip;                                        (* no such peer *)
                log (torrent_logger t);                      (* the constructor throws *)
                scope [spawn_op t; conn_run t; spawn_op t; log (torrent_logger t)];   (* connect() throws *)
                scope [spawn_op t; conn_run t; spawn_op t];                           (* stopped *)
                scope [spawn_op t; conn_run t; conn_run t; maybe (log (torrent_logger t)); spawn_op t]];
        on_peer_worker_finished t].

(** ** The session *)

Definition stop_status_refresh : command := scope [Put StatusOn false; maybe (JoinAll StatusThread)].

(** [print_status_locked] asks each torrent for its counters and peers, and writes files. *)
Definition print_status_locked : command := star (Any (fun t => choice [Work; spawn_op t])).

Definition print_status : command := locked SessionMutex print_status_locked.

Definition start_status_refresh : command :=
  locked SessionMutex (maybe (scope [Put StatusOn true; Spawn StatusThread])).

Definition status_thread_main : command :=
  While StatusOn (scope [locked SessionMutex (maybe (scope [Work; print_status_locked])); star Work]).

(** [add], [session_count], [all_complete], [collect_run_summaries], [set_metrics_output_dir],
    [set_reference_match] *)
Definition session_op : command := locked SessionMutex Work.

Definition start_dht : command :=
  scope [Work; set_peer_callback; locked SessionMutex (scope [Work; set_dht_logger]); Work;
        dht_start; log session_logger].

Definition start_all : command :=
  scope [Work; maybe (scope [Work; log session_logger]); maybe start_dht;
        locked SessionMutex (star (Any (fun t => scope [register_torrent; torrent_start t])))].

Definition stop_all : command :=
  scope [stop_status_refresh;
        locked SessionMutex (scope [Work; maybe dht_summary]);
        maybe dht_stop;
        locked SessionMutex (star (Any (fun t => torrent_stop t)))].

(** What other threads than the session's own may call. *)
Definition client_call : command := choice [session_op; print_status].

Definition session_call : command :=
  choice [client_call; start_all; stop_all; start_status_refresh; stop_status_refresh].

(** The bodies of the threads.  The main thread makes any calls, in any order, and ends with
    the destructor: [stop_status_refresh] and [stop_all]. *)
Definition thread_body (g : threads) : command :=
  match g with
  | Main => seqs [star session_call; stop_status_refresh; stop_all]
  | Client => star client_call
  | StatusThread => status_thread_main
  | RecvThread => recv_loop
  | MaintThread => maintenance_loop
  | Workers t => run_peer_worker t
  end.

(** ** Every function keeps the order *)

(** Goes through a command; a function is unfolded. *)
Ltac keeps_order :=
  repeat lazymatch goal with
  | |- Forall _ [] => apply Forall_nil_2
  | |- Forall _ (_ :: _) => apply Forall_cons; split
  | |- uses _ _ Skip => apply uses_skip
  | |- uses _ _ Work => apply uses_work
  | |- uses _ _ (Put _ _) => apply uses_put
  | |- uses _ _ (Spawn _) => apply uses_spawn
  | |- uses _ _ (Seq _ _) => apply uses_seq
  | |- uses _ _ (seqs _) => apply uses_seqs
  | |- uses _ _ (scope _) => apply uses_scope
  | |- uses _ _ (choice _) => apply uses_choice
  | |- uses _ _ (maybe _) => apply uses_maybe
  | |- uses _ _ (star _) => apply uses_star
  | |- uses _ _ (Any _) => apply uses_any; intros ?
  | |- uses _ _ (While _ _) => apply uses_while
  | |- uses _ _ (JoinAll _) => apply uses_join; cbn in *; lia
  | |- uses _ _ (locked _ _) => apply uses_locked; [cbn in *; lia|cbn in *; lia|]
  | |- uses _ _ (disk_op _) => fail
  | |- uses _ _ (?f _) => unfold f
  | |- uses _ _ ?f => unfold f
  end.

(** The functions of the DHT node take its mutexes only, from [DhtLogMutex] on, except the
    callback, which starts with the session's. *)
Lemma get_peers_order g : (threads_rank g <= 1)%nat -> uses g 6 get_peers.
Proof. intros Hg. keeps_order. Qed.

Lemma callback_order g : (threads_rank g <= 1)%nat -> uses g 2 invoke_peer_callback.
Proof. intros Hg. keeps_order. Qed.

Lemma recv_order g : (threads_rank g <= 1)%nat -> uses g 2 recv_loop.
Proof. intros Hg. keeps_order. Qed.

Lemma maintenance_order g : (threads_rank g <= 1)%nat -> uses g 2 maintenance.
Proof. intros Hg. keeps_order. Qed.

(** The maintenance loop's scopes: the mutex is given back and taken again. *)
Lemma unlocked_order g l c :
  (threads_rank g < mutex_rank l)%nat -> uses g 0 c -> obeys g [l] (unlocked l c) [l].
Proof.
  intros Hg Hc. unfold unlocked. cbn [seqs foldr].
  assert (filter (fun x => x <> l) [l] = []) as E by (unfold filter; cbn; by rewrite decide_False by auto).
  econstructor; [constructor; left|]. rewrite E. econstructor; [apply Hc; by intros x ?%not_elem_of_nil|].
  econstructor; [|constructor]. constructor; [by intros x ?%not_elem_of_nil|done].
Qed.

Lemma maintenance_loop_order g : (threads_rank g <= 1)%nat -> obeys g [] maintenance_loop [].
Proof.
  intros Hg. unfold maintenance_loop, locked.
  assert (filter (fun x => x <> StopMutex) [StopMutex] = []) as E by done.
  apply (OSeq _ [] [StopMutex]); [constructor; [by intros x ?%not_elem_of_nil|cbn; lia]|].
  apply (OSeq _ _ [StopMutex]); [|rewrite <- E at 2; constructor; left].
  constructor. cbn [seqs foldr]. apply (OSeq _ _ [StopMutex]); [apply unlocked_order; [cbn; lia|apply uses_work]|].
  econstructor; [|constructor]. constructor. intros [|[|[|n]]]; cbn [nth]; try constructor.
  apply unlocked_order; [cbn; lia|]. apply (uses_mono g 2); [lia|]. by apply maintenance_order.
Qed.

(** *** The files of a piece *)

Definition file_locks (t : nat) (held : list nat) : list mutex := map (FileMutex t) held.

Lemma filter_absent {A : Type} `{EqDecision A} (x : A) (l : list A) : x ∉ l -> filter (fun y => y <> x) l = l.
Proof.
  induction l as [|y l IH]; [done|]. intros [H1 H2]%not_elem_of_cons.
  rewrite filter_cons_True by auto. f_equal. by apply IH.
Qed.

Lemma filter_one {A : Type} `{EqDecision A} (x : A) (l l' : list A) : x ∉ l -> x ∉ l' -> filter (fun y => y <> x) (l ++ x :: l') = l ++ l'.
Proof.
  intros H1 H2. rewrite filter_app, filter_cons_False by auto. by rewrite !filter_absent.
Qed.

(** The mutexes are given back from the first to the last. *)
Lemma release_files g t held : forall h,
  NoDup held -> (forall i, FileMutex t i ∉ h) ->
  obeys g (reverse (file_locks t held) ++ h) (seqs (map (fun i => Rel (FileMutex t i)) held) : command) h.
Proof.
  induction held as [|i held IH]; intros h Hnd Hh; [apply OSkip|].
  apply NoDup_cons in Hnd as [Hi Hnd]. cbn [map seqs foldr file_locks]. rewrite reverse_cons, <- app_assoc. cbn [app].
  assert (FileMutex t i ∉ reverse (file_locks t held)) as Hn.
  { rewrite elem_of_reverse. intros Hin. apply list_elem_of_fmap in Hin as (j & E & Hj). by injection E as ->. }
  pose proof (filter_one (FileMutex t i) _ h Hn (Hh i)) as E.
  apply (OSeq _ _ (reverse (file_locks t held) ++ h)); [|by apply IH].
  rewrite <- E. constructor. rewrite elem_of_app. right. left.
Qed.

Lemma with_files_order g t n : forall lo held h,
  (threads_rank g <= 3)%nat -> NoDup held -> Forall (fun i => (i < lo)%nat) held ->
  (forall x, x ∈ h -> (mutex_rank x < 13)%nat) ->
  obeys g (reverse (file_locks t held) ++ h) (with_files t lo n held) h.
Proof.
  induction n as [|n IH]; intros lo held h Hg Hnd Hlo Hh; cbn [with_files].
  - econstructor; [constructor|]. apply release_files; [done|]. intros i Hi. specialize (Hh _ Hi). cbn in Hh. lia.
  - constructor. intros k. apply (OSeq _ _ (FileMutex t (lo + k) :: reverse (file_locks t held) ++ h)).
    + constructor; [|cbn; lia]. intros x [Hx|Hx]%elem_of_app; [|specialize (Hh x Hx); cbn; lia].
      apply elem_of_reverse, list_elem_of_fmap in Hx as (j & -> & Hj). rewrite Forall_forall in Hlo. specialize (Hlo j Hj).
      cbn. lia.
    + replace (FileMutex t (lo + k) :: reverse (file_locks t held) ++ h)
        with (reverse (file_locks t (held ++ [(lo + k)%nat])) ++ h).
      * apply IH; [done| | |done].
        -- apply NoDup_app. split; [done|]. split; [|apply NoDup_singleton].
           intros j Hj ->%list_elem_of_singleton. rewrite Forall_forall in Hlo. specialize (Hlo _ Hj). cbn in Hlo. lia.
        -- apply Forall_app. split; [|repeat constructor; lia]. eapply Forall_impl; [exact Hlo|]. cbn. lia.
      * unfold file_locks. rewrite map_app. cbn [map]. by rewrite reverse_snoc.
Qed.

Lemma disk_op_order g t : (threads_rank g <= 3)%nat -> uses g 13 (disk_op t).
Proof.
  intros Hg h Hh. constructor. intros n. apply (with_files_order g t n 0 [] h); [done|constructor|constructor|exact Hh].
Qed.

Lemma worker_order g t : (threads_rank g <= 3)%nat -> uses g 4 (run_peer_worker t).
Proof.
  intros Hg. keeps_order. all: apply (uses_mono g 13); [lia|]; by apply disk_op_order.
Qed.

(** *** The session *)

Lemma status_order g : (threads_rank g <= 1)%nat -> uses g 2 status_thread_main.
Proof. intros Hg. keeps_order. Qed.

Lemma client_order g : (threads_rank g <= 1)%nat -> uses g 2 client_call.
Proof. intros Hg. keeps_order. Qed.

Lemma start_order g : (threads_rank g <= 1)%nat -> uses g 2 start_all.
Proof. intros Hg. keeps_order. Qed.

(** The joins of [stop_all]: the DHT threads while nothing is held, the workers of a torrent
    under the session's mutex. *)
Lemma stop_order g : threads_rank g = 0%nat -> uses g 0 stop_all.
Proof. intros Hg. keeps_order. Qed.

Lemma main_order : uses Main 0 (seqs [star session_call; stop_status_refresh; stop_all]).
Proof. keeps_order. Qed.

Lemma session_disciplined : disciplined thread_body.
Proof.
  assert (forall g n (c : command), uses g n c -> obeys g [] c []) as H by (intros g n c Hc; apply Hc; by intros x ?%not_elem_of_nil).
  intros [| | | | |t]; cbn [thread_body].
  - eapply H, main_order.
  - eapply H, uses_star, client_order. cbn. lia.
  - eapply H, status_order. cbn. lia.
  - eapply H, recv_order. cbn. lia.
  - apply maintenance_loop_order. cbn. lia.
  - eapply H, worker_order. cbn. lia.
Qed.

(** ** Properties *)

(** A session: its main thread, and other threads that ask it for its state. *)
Definition session (f : atomic_flag -> bool) (clients : nat) : state (flag := atomic_flag) :=
  start thread_body f (Main :: replicate clients Client).

(** C5: the session never deadlocks.  Take any number of threads that ask a session for its
    state while its main thread adds torrents, starts and stops the session and the status
    display in any order; all the threads these start - the status display, the DHT's
    receiver and maintenance, the workers of every torrent, which start further workers -
    with every branch of their functions, exceptions included, and any number of iterations
    of their loops; and any interleaving.  Then in every state that can be reached, each thread that has not
    ended can take a step or waits, for a mutex or for the end of threads it joins, through
    a chain of threads at whose end one can take a step; no mutex is held twice.  The
    receiver's callback takes the session's mutex, the workers are joined under it, and the
    pieces lock their files: it is the order of these that makes it so. *)
Theorem session_never_deadlocks (f : atomic_flag -> bool) (clients : nat) (s : state) :
  steps thread_body (session f clients) s ->
  exclusive (s_pool s) /\
  forall i t, s_pool s !! i = Some t -> ~ finished t ->
    exists j, rtc (waits s) i j /\ can_go thread_body j s.
Proof.
  intros Hs. assert (inv s) as Hinv.
  { eapply steps_inv; [apply session_disciplined|exact Hs|apply start_inv, session_disciplined]. }
  split; [apply Hinv|]. intros i t. by apply no_wait_cycle.
Qed.

(** A client has the session's mutex, and another waits for it. *)
Lemma session_never_deadlocks_witness : exists s,
  steps thread_body (session (fun _ => false) 2) s /\ waits s 2 1 /\
  (exclusive (s_pool s) /\
   forall i t, s_pool s !! i = Some t -> ~ finished t -> exists j, rtc (waits s) i j /\ can_go thread_body j s).
Proof.
  assert (exists s, steps thread_body (session (fun _ => false) 2) s /\ waits s 2 1) as (s & Hs & Hw).
  { eexists. split.
    - do 2 (eapply (run_any _ 1 1); [reflexivity|]; eapply (run_seq _ 1); [reflexivity|]).
      eapply (run_acq _ 1); [reflexivity|unfold is_free; rewrite <- (Forall_forall (fun t => SessionMutex ∉ t_held t)); cbn; repeat constructor; apply not_elem_of_nil|].
      do 2 (eapply (run_any _ 2 1); [reflexivity|]; eapply (run_seq _ 2); [reflexivity|]).
      apply rtc_refl.
    - eexists _, _, _, _. repeat split; try reflexivity. left. }
  exists s. split; [exact Hs|]. split; [exact Hw|]. exact (session_never_deadlocks _ _ s Hs).
Defined.
