(* ===== verification/Upnp.v ===== *)
(** * The UPnP port mapping
    (inc/net/upnp.h, src/net/upnp.cpp)

    Discovery of the gateway, the reading of its description, the SOAP requests, and the
    life of the [UPnPPortMapping] objects that own a mapping.  The network is an
    environment ([UpnpEnv]): the datagrams that answer a search before its deadline, the
    bytes a TCP exchange returns or the exception it throws, and what the kernel says
    about the gateway and the local address. *)

From S2P Require Import Prelude CxxLib HttpTracker Net Ownership.

(** A double quote of the source's literals. *)
Definition DQ : bytes := [34].

Definition contains (pat s : bytes) : bool := bool_decide (is_Some (find pat s 0)).

(** ** Helpers *)

Definition to_str (n : Z) : bytes := to_string n.

(** [xml_tag]: the text between the first opening tag and the next closing tag. *)
Definition xml_tag (xml tag : bytes) : bytes :=
  let open := str "<" ++ tag ++ str ">" in
  let close := str "</" ++ tag ++ str ">" in
  match find open xml 0 with
  | None => []
  | Some a =>
      let a := (a + length open)%nat in
      match find close xml a with
      | None => []
      | Some b => slice a b xml
      end
  end.

(** The trailing carriage returns and blanks popped from a header value. *)
Definition strip_back (val : bytes) : bytes :=
  rev (skip (fun c => (c =? 13) || (c =? 32)) (rev val)).

(** One round of the loop of [http_header] over the two needles. *)
Definition header_value (resp needle : bytes) : option bytes :=
  match find (map tolower needle) (map tolower resp) 0 with
  | None => None
  | Some pos =>
      let pos := (pos + length needle)%nat in
      let val := match find [10] resp pos with
                 | None => drop pos resp
                 | Some end_ => slice pos end_ resp
                 end in
      Some (strip_back val)
  end.

Definition http_header (resp name : bytes) : bytes :=
  match header_value resp (name ++ str ": ") with
  | Some v => v
  | None => default [] (header_value resp (name ++ str ":"))
  end.

(** [struct Url] *)
Record Url := mkUrl { host : bytes; url_port : Z; path : bytes }.

(** [s.rfind(c)] *)
Fixpoint rfind (c : Z) (s : bytes) : option nat :=
  match s with
  | [] => None
  | x :: s' =>
      match rfind c s' with
      | Some i => Some (S i)
      | None => if x =? c then Some 0%nat else None
      end
  end.

(** [parse_url]; the port is cut to sixteen bits. *)
Definition parse_url (raw : bytes) : option Url :=
  let s := match find (str "://") raw 0 with
           | Some scheme_end => drop (scheme_end + 3) raw
           | None => raw
           end in
  let slash := find (str "/") s 0 in
  let host_part := match slash with None => s | Some i => take i s end in
  let p := match slash with None => str "/" | Some i => drop i s end in
  let u := match rfind (chr ":") host_part with
           | Some colon =>
               match stoul (drop (colon + 1) host_part) with
               | Ok n => Some (mkUrl (take colon host_part) (u16 n) p)
               | Throw _ => None
               end
           | None => Some (mkUrl host_part 80 p)
           end in
  u ← u; if bool_decide (host u = []) then None else Some u.

(** ** The environment *)

Record UpnpEnv := mkUpnpEnv {
  (** opening the search socket and choosing its interface *)
  ue_socket : result unit;
  (** a search sent to an address: the datagrams received before the deadline; [sendto]
      may throw *)
  ue_ssdp : bytes -> bytes -> result (list bytes);
  (** connect, send, receive until the peer closes *)
  ue_tcp : bytes -> Z -> bytes -> result bytes;
  ue_gateway : bytes;
  ue_local_ip : bytes -> bytes;
}.

Section upnp.
Context (env : UpnpEnv).

(** [tcp_request] with its handler. *)
Definition tcp_request (host : bytes) (port : Z) (request : bytes) : bytes :=
  match ue_tcp env host port request with Ok r => r | Throw _ => [] end.

(** ** Discovery *)

Definition msearch (host_hdr st : bytes) : bytes :=
  str "M-SEARCH * HTTP/1.1" ++ CRLF ++ str "HOST: " ++ host_hdr ++ CRLF
  ++ str "MAN: " ++ DQ ++ str "ssdp:discover" ++ DQ ++ CRLF
  ++ str "MX: 2" ++ CRLF ++ str "ST: " ++ st ++ CRLF ++ CRLF.

(** The receiving loop of [try_target]; the end of the list is the time-out. *)
Fixpoint first_location (replies : list bytes) : bytes :=
  match replies with
  | [] => []
  | resp :: rest =>
      if bool_decide (resp = []) then []
      else if negb (contains (str "200 OK") resp) && negb (contains (str "200 ok") resp)
      then first_location rest
      else
        let loc := http_header resp (str "LOCATION") in
        if bool_decide (loc = []) then first_location rest else loc
  end.

Definition try_target (dest st host_hdr : bytes) : result bytes :=
  replies ← ue_ssdp env dest (msearch host_hdr st); Ok (first_location replies).

Definition targets : list bytes :=
  [str "urn:schemas-upnp-org:device:InternetGatewayDevice:1";
   str "urn:schemas-upnp-org:device:InternetGatewayDevice:2";
   str "urn:schemas-upnp-org:service:WANIPConnection:1";
   str "urn:schemas-upnp-org:service:WANPPPConnection:1"; str "ssdp:all"].

(** Phases 1 and 2: the first target that yields a location. *)
Fixpoint try_targets (dest host_hdr : bytes) (ts : list bytes) : result bytes :=
  match ts with
  | [] => Ok []
  | st :: rest =>
      loc ← try_target dest st host_hdr;
      if bool_decide (loc = []) then try_targets dest host_hdr rest else Ok loc
  end.

Definition probe_ports : list Z := [52869; 49152; 49153; 5555; 8200; 1900].
Definition probe_paths : list bytes :=
  [str "/gatedesc.xml"; str "/description.xml"; str "/rootDesc.xml"; str "/upnp/IGD.xml";
   str "/igd.xml"; str "/InternetGatewayDevice.xml"; str "/BasicLevel_desc.xml"].

(** Phase 3: one probe. *)
Definition probe (gw_ip : bytes) (port : Z) (path : bytes) : bytes :=
  let req := str "GET " ++ path ++ str " HTTP/1.0" ++ CRLF ++ str "Host: " ++ gw_ip ++ str ":"
             ++ to_string port ++ CRLF ++ str "Connection: close" ++ CRLF ++ CRLF in
  let resp := tcp_request gw_ip port req in
  if contains (str "200") resp
     && (contains (str "upnp") resp || contains (str "UPnP") resp
         || contains (str "InternetGatewayDevice") resp || contains (str "WANIPConnection") resp
         || contains (str "WANPPPConnection") resp)
  then str "http://" ++ gw_ip ++ str ":" ++ to_string port ++ path
  else [].

Fixpoint first_nonempty (l : list bytes) : bytes :=
  match l with
  | [] => []
  | x :: l' => if bool_decide (x = []) then first_nonempty l' else x
  end.

Definition probe_gateway (gw_ip : bytes) : bytes :=
  first_nonempty (concat (map (fun port => map (probe gw_ip port) probe_paths) probe_ports)).

Definition ssdp_discover : result bytes :=
  let gw_ip := ue_gateway env in
  _ ← ue_socket env;
  loc1 ← try_targets (str "239.255.255.250") (str "239.255.255.250:1900") targets;
  if negb (bool_decide (loc1 = [])) then Ok loc1
  else if bool_decide (gw_ip = []) then Ok []
  else
    loc2 ← try_targets gw_ip (gw_ip ++ str ":1900") targets;
    if negb (bool_decide (loc2 = [])) then Ok loc2 else Ok (probe_gateway gw_ip).

(** ** The device description *)

(** What follows the empty line of a response. *)
Definition response_body (resp : bytes) : bytes :=
  match find (CRLF ++ CRLF) resp 0 with
  | None => []
  | Some sep => drop (sep + 4) resp
  end.

Definition http_get (url : Url) : bytes :=
  let req := str "GET " ++ path url ++ str " HTTP/1.0" ++ CRLF ++ str "Host: " ++ host url
             ++ str ":" ++ to_str (url_port url) ++ CRLF ++ str "Connection: close" ++ CRLF ++ CRLF in
  response_body (tcp_request (host url) (url_port url) req).

Record IgdInfo := mkIgd { control_url : bytes; service_type : bytes }.

Definition wanted_types : list bytes := [str "WANIPConnection"; str "WANPPPConnection"].

(** A [<service>] block: [None] is [continue]. *)
Definition read_service (loc_url : Url) (block : bytes) : option IgdInfo :=
  let stype := xml_tag block (str "serviceType") in
  let curl := xml_tag block (str "controlURL") in
  if bool_decide (stype = []) || bool_decide (curl = []) then None
  else if negb (existsb (fun w => contains w stype) wanted_types) then None
  else Some (mkIgd (if starts_with (str "http://") curl then curl
                    else str "http://" ++ host loc_url ++ str ":" ++ to_str (url_port loc_url) ++ curl)
                   stype).

(** The walk over the blocks from index [search_from], which grows each round. *)
Fixpoint service_loop (fuel : nat) (loc_url : Url) (xml : bytes) (search_from : nat)
  : option IgdInfo :=
  match fuel with
  | O => None
  | S f =>
      match find (str "<service>") xml search_from with
      | None => None
      | Some svc_start =>
          match find (str "</service>") xml svc_start with
          | None => None
          | Some svc_end =>
              match read_service loc_url (slice svc_start (svc_end + 10) xml) with
              | Some igd => Some igd
              | None => service_loop f loc_url xml (svc_end + 10)
              end
          end
      end
  end.

Definition fetch_igd_info (location : bytes) : option IgdInfo :=
  loc_url ← parse_url location;
  let xml := http_get loc_url in
  if bool_decide (xml = []) then None else service_loop (S (length xml)) loc_url xml 0.

(** ** SOAP *)

Definition soap_envelope (soap_body : bytes) : bytes :=
  str "<?xml version=" ++ DQ ++ str "1.0" ++ DQ ++ str "?>" ++ CRLF
  ++ str "<s:Envelope xmlns:s=" ++ DQ ++ str "http://schemas.xmlsoap.org/soap/envelope/" ++ DQ
  ++ str " s:encodingStyle=" ++ DQ ++ str "http://schemas.xmlsoap.org/soap/encoding/" ++ DQ
  ++ str "><s:Body>" ++ soap_body ++ str "</s:Body></s:Envelope>".

(** The request of a SOAP action. *)
Definition soap_request (url : Url) (stype action soap_body : bytes) : bytes :=
  let envelope := soap_envelope soap_body in
  str "POST " ++ path url ++ str " HTTP/1.0" ++ CRLF
  ++ str "Host: " ++ host url ++ str ":" ++ to_str (url_port url) ++ CRLF
  ++ str "Content-Type: text/xml; charset=" ++ DQ ++ str "utf-8" ++ DQ ++ CRLF
  ++ str "SOAPAction: " ++ DQ ++ stype ++ str "#" ++ action ++ DQ ++ CRLF
  ++ str "Content-Length: " ++ to_string (Z.of_nat (length envelope)) ++ CRLF
  ++ str "Connection: close" ++ CRLF ++ CRLF ++ envelope.

(** A TCP exchange the client attempts: the host, the port and what it sends. *)
Record TcpRequest := mkRequest { rq_host : bytes; rq_port : Z; rq_bytes : bytes }.

(** The exchange of [soap_action], none when the control URL cannot be read. *)
Definition soap_call (ctrl stype action soap_body : bytes) : option TcpRequest :=
  url ← parse_url ctrl;
  Some (mkRequest (host url) (url_port url) (soap_request url stype action soap_body)).

Definition soap_action (ctrl stype action soap_body : bytes) : bytes :=
  match soap_call ctrl stype action soap_body with
  | None => []
  | Some r => response_body (tcp_request (rq_host r) (rq_port r) (rq_bytes r))
  end.

Definition soap_add_port (ns ext_port int_port int_host lease_duration : bytes) : bytes :=
  str "<u:AddPortMapping xmlns:u=" ++ DQ ++ ns ++ DQ ++ str ">"
  ++ str "<NewRemoteHost></NewRemoteHost>"
  ++ str "<NewExternalPort>" ++ ext_port ++ str "</NewExternalPort>"
  ++ str "<NewProtocol>TCP</NewProtocol>"
  ++ str "<NewInternalPort>" ++ int_port ++ str "</NewInternalPort>"
  ++ str "<NewInternalClient>" ++ int_host ++ str "</NewInternalClient>"
  ++ str "<NewEnabled>1</NewEnabled>"
  ++ str "<NewPortMappingDescription>BitTorrent</NewPortMappingDescription>"
  ++ str "<NewLeaseDuration>" ++ lease_duration ++ str "</NewLeaseDuration>"
  ++ str "</u:AddPortMapping>".

Definition soap_delete_port (ns ext_port : bytes) : bytes :=
  str "<u:DeletePortMapping xmlns:u=" ++ DQ ++ ns ++ DQ ++ str ">"
  ++ str "<NewRemoteHost></NewRemoteHost>"
  ++ str "<NewExternalPort>" ++ ext_port ++ str "</NewExternalPort>"
  ++ str "<NewProtocol>TCP</NewProtocol>"
  ++ str "</u:DeletePortMapping>".

Definition get_external_ip (igd : IgdInfo) : bytes :=
  let b := str "<u:GetExternalIPAddress xmlns:u=" ++ DQ ++ service_type igd ++ DQ
           ++ str "></u:GetExternalIPAddress>" in
  xml_tag (soap_action (control_url igd) (service_type igd) (str "GetExternalIPAddress") b)
    (str "NewExternalIPAddress").

(** ** The mapping *)

Record UPnPPortMapping := mkMapping {
  m_control_url : bytes; m_service_type : bytes; m_external_port : Z; m_external_ip : bytes;
  m_valid : bool }.

(** How a round of the loop over the leases ends. *)
Inductive Round := Return_ (m : UPnPPortMapping) | Break_ | Continue_.

(** The body of that loop: a reply without the two error markers returns a mapping, any
    other reply reaches the [break]. *)
Definition add_port_round (igd : IgdInfo) (ext_port int_port : Z) (lan_ip ext_ip lease : bytes)
  : Round :=
  let b := soap_add_port (service_type igd) (to_str ext_port) (to_str int_port) lan_ip lease in
  let resp := soap_action (control_url igd) (service_type igd) (str "AddPortMapping") b in
  if negb (contains (str "errorCode") resp) && negb (contains (str "UPnPError") resp)
  then Return_ (mkMapping (control_url igd) (service_type igd) ext_port ext_ip true)
  else Break_.

Fixpoint add_port_loop (igd : IgdInfo) (ext_port int_port : Z) (lan_ip ext_ip : bytes)
    (leases : list bytes) : option UPnPPortMapping :=
  match leases with
  | [] => None
  | lease :: rest =>
      match add_port_round igd ext_port int_port lan_ip ext_ip lease with
      | Return_ m => Some m
      | Break_ => None
      | Continue_ => add_port_loop igd ext_port int_port lan_ip ext_ip rest
      end
  end.

Definition leases : list bytes := [str "0"; str "3600"].

(** [UPnPPortMapping::create] *)
Definition create (internal_port external_port : Z) : result (option UPnPPortMapping) :=
  location ← ssdp_discover;
  if bool_decide (location = []) then Ok None
  else match fetch_igd_info location with
  | None => Ok None
  | Some igd =>
      match parse_url location with
      | None => Ok None
      | Some loc_url =>
          let lan_ip := ue_local_ip env (host loc_url) in
          if bool_decide (lan_ip = []) then Ok None
          else
            let ext_ip := get_external_ip igd in
            let ext_port := if negb (external_port =? 0) then external_port else internal_port in
            Ok (add_port_loop igd ext_port internal_port lan_ip ext_ip leases)
      end
  end.

(** The body of the request that [release] sends. *)
Definition delete_request (m : UPnPPortMapping) : bytes :=
  soap_delete_port (m_service_type m) (to_str (m_external_port m)).
End upnp.

(** ** The life of a mapping

    A mapping is owned by the object whose [m_valid] is set; giving it back is one
    attempt at sending a DeletePortMapping request.  Nothing is done with the reply, and
    a failure of the attempt is swallowed, so neither shows in the object. *)

Definition invalidate (m : UPnPPortMapping) : UPnPPortMapping :=
  mkMapping (m_control_url m) (m_service_type m) (m_external_port m) (m_external_ip m) false.

(** [release]: the object afterwards, and the exchange it attempts. *)
Definition release (m : UPnPPortMapping) : UPnPPortMapping * list TcpRequest :=
  if negb (m_valid m) then (m, [])
  else (invalidate m,
        option_list (soap_call (m_control_url m) (m_service_type m) (str "DeletePortMapping") (delete_request m))).

(** The source of a move; its strings are left unspecified, and are never read again
    because it is not valid. *)
Definition moved_from (m : UPnPPortMapping) : UPnPPortMapping :=
  mkMapping [] [] (m_external_port m) [] false.

(** The request that is due for a mapping when its object goes. *)
Definition due_request (m : UPnPPortMapping) : list TcpRequest := (release m).2.

(** [release] is private: a mapping is given back by the destructor or when its object is
    assigned over. *)
#[global] Instance mapping_movable : Movable UPnPPortMapping TcpRequest := {|
  holds := due_request;
  give_back := release;
  after_move := moved_from;
  can_close := false |}.

#[global] Instance mapping_movable_ok : MovableOk UPnPPortMapping TcpRequest.
Proof.
  split; intros m; cbn; unfold due_request, release, invalidate, moved_from; destruct (m_valid m) eqn:E; cbn; by rewrite ?E.
Qed.

(** A reply to AddPortMapping that counts as success. *)
Definition accepts (resp : bytes) : bool :=
  negb (contains (str "errorCode") resp) && negb (contains (str "UPnPError") resp).

(** What [create] returns owns a mapping that the gateway was asked for and did not
    refuse. *)
Lemma create_valid env internal external m :
  create env internal external = Ok (Some m) ->
  m_valid m = true /\ exists lan_ip,
  accepts (soap_action env (m_control_url m) (m_service_type m) (str "AddPortMapping")
    (soap_add_port (m_service_type m) (to_str (m_external_port m)) (to_str internal) lan_ip (str "0"))) = true.
Proof.
  unfold create. intros E. apply bind_Ok in E as (loc & _ & E).
  destruct (bool_decide (loc = [])); [done|]. destruct (fetch_igd_info env loc) as [igd|]; [|done].
  destruct (parse_url loc) as [u|]; [|done]. cbv zeta in E.
  destruct (bool_decide (ue_local_ip env (host u) = [])); [done|].
  unfold leases, add_port_loop, add_port_round in E. cbv zeta in E.
  match type of E with context [if ?b then Return_ _ else _] => destruct b eqn:Hacc end; [|done].
  injection E as <-. split; [done|]. eexists. exact Hacc.
Qed.

(** ** Finding the service *)

Lemma starts_with_app_false pat s t :
  (length pat <= length s)%nat -> starts_with pat s = false -> starts_with pat (s ++ t) = false.
Proof.
  revert s. induction pat as [|p pat IH]; intros [|c s] Hl; cbn in *; try done; try lia.
  rewrite !andb_false_iff. intros [?|?]; [by left|right]. apply IH; [lia|done].
Qed.

(** The first occurrence does not depend on what follows it. *)
Lemma find_at_prefix pat p t i :
  pat <> [] -> find_at pat (p ++ pat) i = Some (i + length p)%nat ->
  find_at pat (p ++ pat ++ t) i = Some (i + length p)%nat.
Proof.
  intros Hne. revert i. induction p as [|c p IH]; intros i; cbn [app length].
  - intros _. destruct pat as [|x pat]; [done|]. cbn [app find_at].
    change (x :: pat ++ t) with ((x :: pat) ++ t). by rewrite starts_with_app, Nat.add_0_r.
  - cbn [find_at]. destruct (starts_with pat (c :: p ++ pat)) eqn:E.
    { intros [= ?]. lia. }
    change (c :: p ++ pat ++ t) with ((c :: p) ++ pat ++ t). rewrite app_assoc.
    change ((c :: p) ++ pat) with (c :: p ++ pat).
    rewrite starts_with_app_false; [|cbn; rewrite length_app; lia|done].
    intros H.
    replace (i + S (length p))%nat with (S i + length p)%nat in * by lia. by apply IH.
Qed.

(** [p] runs up to the first occurrence of [pat]. *)
Definition up_to (pat p : bytes) : Prop := find_at pat (p ++ pat) 0 = Some (length p).

#[global] Instance up_to_dec pat p : Decision (up_to pat p).
Proof. unfold up_to. apply _. Defined.

Lemma find_at_shift pat s i k : find_at pat s i = Some k -> (i <= k)%nat /\ forall j, find_at pat s j = Some (j + (k - i))%nat.
Proof.
  revert i. induction s as [|c s IH]; intros i; cbn [find_at].
  - destruct (starts_with pat []); [|done]. intros [= <-]. split; [lia|]. intros j. f_equal. lia.
  - destruct (starts_with pat (c :: s)).
    + intros [= <-]. split; [lia|]. intros j. f_equal. lia.
    + intros H. destruct (IH _ H) as [Hle Hj]. split; [lia|]. intros j. rewrite Hj. f_equal. lia.
Qed.

Lemma find_up_to pat pre p t :
  pat <> [] -> up_to pat p ->
  find pat (pre ++ p ++ pat ++ t) (length pre) = Some (length pre + length p)%nat.
Proof.
  intros Hne Hp. unfold find. rewrite (proj2 (Nat.leb_le _ _)) by (rewrite length_app; lia).
  rewrite drop_app_length. apply find_at_prefix; [done|].
  destruct (find_at_shift _ _ _ _ Hp) as [_ H]. rewrite H. f_equal. lia.
Qed.

Definition OPEN : bytes := str "<service>".
Definition CLOSE : bytes := str "</service>".

(** A piece of a description: text without an opening tag, then a service whose content
    holds no closing tag. *)
Record ServicePart := mkPart { sp_text : bytes; sp_content : bytes }.

Definition part_ok (p : ServicePart) : Prop :=
  up_to OPEN (sp_text p) /\ up_to CLOSE (OPEN ++ sp_content p).

Definition render_part (p : ServicePart) : bytes := sp_text p ++ OPEN ++ sp_content p ++ CLOSE.
Definition part_block (p : ServicePart) : bytes := OPEN ++ sp_content p ++ CLOSE.

(** The walk returns the first service it accepts, wherever it stands in the description. *)
Lemma service_loop_first fuel loc_url pre skipped p rest igd :
  Forall part_ok skipped -> Forall (fun q => read_service loc_url (part_block q) = None) skipped ->
  part_ok p -> read_service loc_url (part_block p) = Some igd ->
  (length skipped < fuel)%nat ->
  service_loop fuel loc_url (pre ++ concat (map render_part skipped) ++ render_part p ++ rest) (length pre)
  = Some igd.
Proof.
  intros Hok Hno Hp Hread. revert fuel pre.
  assert (Hround : forall fuel pre q t, part_ok q ->
    service_loop (S fuel) loc_url (pre ++ render_part q ++ t) (length pre)
    = match read_service loc_url (part_block q) with
      | Some igd => Some igd
      | None => service_loop fuel loc_url (pre ++ render_part q ++ t) (length (pre ++ render_part q))
      end).
  { intros fuel pre q t [Ho Hc]. cbn [service_loop]. unfold render_part at 1.
    rewrite <- !app_assoc. change (str "<service>") with OPEN. rewrite (find_up_to OPEN pre (sp_text q)) by done.
    assert (E : pre ++ render_part q ++ t
                = (pre ++ sp_text q) ++ (OPEN ++ sp_content q) ++ CLOSE ++ t)
      by (unfold render_part; by rewrite <- !app_assoc).
    rewrite <- length_app. change (str "</service>") with CLOSE. rewrite E.
    rewrite (find_up_to CLOSE _ (OPEN ++ sp_content q)) by done.
    change 10%nat with (length CLOSE).
    assert (slice (length (pre ++ sp_text q))
              (length (pre ++ sp_text q) + length (OPEN ++ sp_content q) + length CLOSE)
              ((pre ++ sp_text q) ++ (OPEN ++ sp_content q) ++ CLOSE ++ t) = part_block q) as ->.
    { unfold part_block. rewrite (app_assoc _ CLOSE t), <- Nat.add_assoc, <- (length_app _ CLOSE).
      rewrite slice_app_mid. by rewrite app_assoc. }
    destruct (read_service loc_url (part_block q)); [done|]. f_equal.
    unfold render_part. rewrite !length_app. lia. }
  induction skipped as [|q qs IH]; intros fuel pre Hf; (destruct fuel as [|f]; [cbn in Hf; lia|]).
  - cbn [map concat app]. by rewrite Hround, Hread.
  - inversion Hok as [|? ? Hq Hqs]; subst. inversion Hno as [|? ? Hn Hns]; subst.
    cbn [map concat]. rewrite <- app_assoc, Hround, Hn by done.
    specialize (IH Hqs Hns f (pre ++ render_part q)). rewrite <- app_assoc in IH.
    apply IH. cbn in Hf. lia.
Qed.

(** ** Reading back a SOAP body *)

(** The bytes between the tags of a text without ['<']. *)
Definition plain (s : bytes) : Prop := Forall (fun c => c <> 60) s.

Lemma starts_with_stop pat a x y :
  plain pat -> starts_with pat (a ++ 60 :: x) = starts_with pat (a ++ 60 :: y).
Proof.
  intros Hp. induction Hp as [|c pat Hc Hp IH] in a |- *; [by destruct a|].
  destruct a as [|b a]; cbn; [|by rewrite IH].
  rewrite (proj2 (Z.eqb_neq c 60)) by done. done.
Qed.

(** An occurrence of a tag does not cross into the next one. *)
Lemma up_to_app pat a b :
  plain pat -> up_to (60 :: pat) a -> (b = [] \/ exists b', b = 60 :: b') -> up_to (60 :: pat) b ->
  up_to (60 :: pat) (a ++ b).
Proof.
  intros Hpl Ha Hb Hub. unfold up_to in *. rewrite <- app_assoc.
  assert (exists s, b ++ 60 :: pat = 60 :: s) as [s Es] by (destruct Hb as [->|[b' ->]]; by eexists).
  rewrite Es in Hub |- *.
  assert (forall i, find_at (60 :: pat) (a ++ 60 :: pat) i = Some (i + length a)%nat ->
    find_at (60 :: pat) (a ++ 60 :: s) i = Some (i + length (a ++ b))%nat) as H; [|by apply (H 0%nat)].
  clear Ha. induction a as [|c a IH]; intros i Hi.
  - cbn [app length]. destruct (find_at_shift _ _ _ _ Hub) as [_ Hs]. rewrite (Hs i). f_equal. lia.
  - cbn [app find_at] in *. destruct (starts_with (60 :: pat) (c :: a ++ 60 :: pat)) eqn:E.
    { injection Hi as Hi. cbn in Hi. lia. }
    assert (starts_with (60 :: pat) (c :: a ++ 60 :: s) = false) as ->.
    { cbn [starts_with] in *. by rewrite (starts_with_stop pat a s pat). }
    cbn [length] in Hi |- *. rewrite IH; [f_equal; lia|]. rewrite Hi. f_equal. lia.
Qed.

(** A text without ['<'] in front of the tag looked for. *)
Lemma up_to_plain pat q : plain q -> up_to (60 :: pat) q.
Proof.
  intros Hq. unfold up_to.
  assert (forall i, find_at (60 :: pat) (q ++ 60 :: pat) i = Some (i + length q)%nat) as H; [|by rewrite H].
  induction Hq as [|c q Hc Hq IH]; intros i.
  - pose proof (starts_with_app (60 :: pat) []) as Hs. rewrite app_nil_r in Hs.
    cbn [app find_at]. rewrite Hs. f_equal. cbn. lia.
  - cbn [app find_at starts_with]. rewrite (proj2 (Z.eqb_neq 60 c)) by congruence. cbn [andb].
    rewrite IH. f_equal. cbn. lia.
Qed.

(** A tag other than [pat], with the text up to the next one. *)
Lemma up_to_tag pat q :
  plain q -> starts_with pat (q ++ 60 :: pat) = false -> up_to (60 :: pat) (60 :: q).
Proof.
  intros Hq Hne. unfold up_to. cbn [app find_at starts_with]. rewrite Z.eqb_refl, Hne. cbn [andb].
  destruct (find_at_shift _ _ _ _ (up_to_plain pat q Hq)) as [_ Hs]. rewrite (Hs 1%nat). f_equal. cbn. lia.
Qed.

Definition open_tag (tag : bytes) : bytes := str "<" ++ tag ++ str ">".
Definition close_tag (tag : bytes) : bytes := str "</" ++ tag ++ str ">".

Lemma xml_tag_spec tag p content t :
  up_to (open_tag tag) p -> plain content ->
  xml_tag (p ++ open_tag tag ++ content ++ close_tag tag ++ t) tag = content.
Proof.
  intros Hp Hc. unfold xml_tag. cbv zeta. fold (open_tag tag) (close_tag tag).
  pose proof (find_up_to (open_tag tag) [] p (content ++ close_tag tag ++ t) ltac:(done) Hp) as Hf.
  cbn [app length Nat.add] in Hf. rewrite Hf.
  assert (p ++ open_tag tag ++ content ++ close_tag tag ++ t
          = (p ++ open_tag tag) ++ content ++ close_tag tag ++ t) as -> by (by rewrite <- app_assoc).
  rewrite <- length_app, (find_up_to (close_tag tag)) by (done || by apply up_to_plain).
  apply slice_app_mid.
Qed.

(** What identifies a mapping in the body of a request. *)
Definition named (soap_body : bytes) : list bytes :=
  map (xml_tag soap_body) [str "NewRemoteHost"; str "NewExternalPort"; str "NewProtocol"].

Lemma plain_to_str n : plain (to_str n).
Proof.
  assert (forall m, 0 <= m -> plain (dec_loop (dec_fuel m) m [])) as Hd.
  { intros m Hm. destruct (dec_loop_spec (dec_fuel m) m) as (_ & Hd & _); [lia|apply dec_fuel_enough|].
    eapply Forall_impl; [exact Hd|]. intros c. unfold isdigit. intros; b2p. lia. }
  unfold to_str, to_string. case_if; b2p; [|apply Hd; lia]. apply Forall_cons_2; [done|]. apply Hd. lia.
Qed.

(** The common beginning of the bodies of AddPortMapping and DeletePortMapping. *)
Lemma named_body q ext rest :
  plain (chr "u" :: q) -> plain ext ->
  named ((60 :: chr "u" :: q) ++ (str "<NewRemoteHost>" ++ str "</NewRemoteHost>") ++ (str "<NewExternalPort>" ++ ext)
         ++ str "</NewExternalPort>" ++ str "<NewProtocol>TCP" ++ str "</NewProtocol>" ++ rest)
  = [[]; ext; str "TCP"].
Proof.
  intros Hq He. unfold named. cbn [map].
  assert (forall tag, up_to (60 :: chr "N" :: tag) (60 :: chr "u" :: q)) as H0 by (intros tag; by apply up_to_tag).
  f_equal; [|f_equal; [|f_equal]].
  - etransitivity; [|apply (xml_tag_spec (str "NewRemoteHost") (60 :: chr "u" :: q) []
      ((str "<NewExternalPort>" ++ ext) ++ str "</NewExternalPort>" ++ str "<NewProtocol>TCP" ++ str "</NewProtocol>" ++ rest));
      [apply H0|constructor]].
    f_equal; by rewrite <- ?app_assoc.
  - etransitivity; [|apply (xml_tag_spec (str "NewExternalPort")
      ((60 :: chr "u" :: q) ++ (str "<NewRemoteHost>" ++ str "</NewRemoteHost>")) ext
      (str "<NewProtocol>TCP" ++ str "</NewProtocol>" ++ rest)); [|done]].
    + f_equal; by rewrite <- ?app_assoc.
    + apply up_to_app; [by apply (bool_decide_unpack _)|apply H0|right; by eexists|by apply (bool_decide_unpack _)].
  - etransitivity; [|apply (xml_tag_spec (str "NewProtocol")
      ((60 :: chr "u" :: q) ++ (str "<NewRemoteHost>" ++ str "</NewRemoteHost>") ++ (str "<NewExternalPort>" ++ ext)
       ++ str "</NewExternalPort>") (str "TCP") rest)].
    + f_equal; by rewrite <- ?app_assoc.
    + assert (plain (tail (open_tag (str "NewProtocol")))) as Hpl by (by apply (bool_decide_unpack _)).
      apply up_to_app; [exact Hpl|apply H0|right; by eexists|].
      apply up_to_app; [exact Hpl|by apply (bool_decide_unpack _)|right; by eexists|].
      apply up_to_app; [exact Hpl| |right; by eexists|by apply (bool_decide_unpack _)].
      apply (up_to_tag _ (str "NewExternalPort>" ++ ext)); [|done].
      apply Forall_app_2; [by apply (bool_decide_unpack _)|done].
    + by apply (bool_decide_unpack _).
Qed.

Lemma plain_head action ns :
  plain action -> chr "<" ∉ ns -> plain (chr "u" :: str ":" ++ action ++ str " xmlns:u=" ++ DQ ++ ns ++ DQ ++ str ">").
Proof.
  intros Ha Hns. assert (plain ns) as Hp by (apply Forall_forall; intros c Hc ->; done).
  apply Forall_cons_2; [done|]. rewrite !Forall_app. split_and!; try exact Ha; try exact Hp; by apply (bool_decide_unpack _).
Qed.

Lemma named_del ns n : chr "<" ∉ ns -> named (soap_delete_port ns (to_str n)) = [[]; to_str n; str "TCP"].
Proof.
  intros Hns. rewrite <- (named_body _ (to_str n) (str "</u:DeletePortMapping>")
    (plain_head (str "DeletePortMapping") ns ltac:(by apply (bool_decide_unpack _)) Hns) (plain_to_str n)).
  f_equal. unfold soap_delete_port. cbn. by rewrite <- ?app_assoc.
Qed.

Lemma named_add ns n int_port lan lease :
  chr "<" ∉ ns -> named (soap_add_port ns (to_str n) int_port lan lease) = [[]; to_str n; str "TCP"].
Proof.
  intros Hns. rewrite <- (named_body _ (to_str n)
    (str "<NewInternalPort>" ++ int_port ++ str "</NewInternalPort>"
     ++ str "<NewInternalClient>" ++ lan ++ str "</NewInternalClient>" ++ str "<NewEnabled>1</NewEnabled>"
     ++ str "<NewPortMappingDescription>BitTorrent</NewPortMappingDescription>"
     ++ str "<NewLeaseDuration>" ++ lease ++ str "</NewLeaseDuration>" ++ str "</u:AddPortMapping>")
    (plain_head (str "AddPortMapping") ns ltac:(by apply (bool_decide_unpack _)) Hns) (plain_to_str n)).
  f_equal. unfold soap_add_port. cbn. by rewrite <- ?app_assoc.
Qed.

(** ** Behaviours of [create] *)

(** The second lease is never asked for. *)
Lemma second_lease_unused env igd ext_port int_port lan_ip ext_ip :
  add_port_loop env igd ext_port int_port lan_ip ext_ip leases
  = add_port_loop env igd ext_port int_port lan_ip ext_ip [str "0"].
Proof.
  unfold leases. cbn [add_port_loop]. unfold add_port_round. cbv zeta. by destruct (negb _ && negb _).
Qed.

(** A gateway that does not answer the AddPortMapping request counts as having accepted. *)
Lemma unanswered_mapping_succeeds env igd ext_port int_port lan_ip ext_ip e :
  (forall h p r, ue_tcp env h p r = Throw e) ->
  add_port_loop env igd ext_port int_port lan_ip ext_ip leases
  = Some (mkMapping (control_url igd) (service_type igd) ext_port ext_ip true).
Proof.
  intros He. assert (forall c t a b, soap_action env c t a b = []) as Hs.
  { intros c t a b. unfold soap_action, soap_call, tcp_request. destruct (parse_url c); cbn; [|done]. by rewrite He. }
  unfold leases. cbn [add_port_loop]. unfold add_port_round. cbv zeta. rewrite Hs. reflexivity.
Qed.

(** An exception of the search socket leaves [create]. *)
Lemma search_exception_escapes env internal external e :
  ue_socket env = Throw e -> create env internal external = Throw e.
Proof. intros E. unfold create, ssdp_discover. by rewrite E. Qed.

(** ** Properties *)

(** C33: a port mapping is deleted exactly once.  Whatever objects a program constructs
    from the results of [create], moves, assigns over each other and destroys, in any
    order: at every moment the DeletePortMapping requests sent so far, with those due for
    the live objects that own a mapping, are one for each mapping that was created (none
    for a control URL that cannot be read, where the AddPortMapping was not sent either),
    so with no object left each has been sent exactly once.  The request goes to the host
    and port the mapping was asked from, whose answer was not a refusal, and unless the
    service type contains a ['<'] it names the same mapping: the same remote host,
    external port and protocol.  (Whether the gateway obeys is not known: the reply is
    not read and a failure is swallowed.) *)
Theorem upnp_mapping_owned (ops : list (ObjectOp UPnPPortMapping)) :
  (forall x m, Created x m ∈ ops ->
     exists env internal external, create env internal external = Ok (Some m)) ->
  let st := object_run ops in
  created_by (∅, []) ops ≡ₚ owned st.1 ++ st.2
  /\ (st.1 = ∅ -> created_by (∅, []) ops ≡ₚ st.2)
  /\ (forall x m, Created x m ∈ ops ->
        exists env internal lan_ip,
          let add := soap_add_port (m_service_type m) (to_str (m_external_port m)) (to_str internal)
                       lan_ip (str "0") in
          let del := soap_delete_port (m_service_type m) (to_str (m_external_port m)) in
          accepts (soap_action env (m_control_url m) (m_service_type m) (str "AddPortMapping") add) = true
          /\ holds m = match parse_url (m_control_url m) with
                       | Some u => [mkRequest (host u) (url_port u)
                                      (soap_request u (m_service_type m) (str "DeletePortMapping") del)]
                       | None => []
                       end
          /\ (chr "<" ∉ m_service_type m -> named add = named del /\
               named del = [[]; to_str (m_external_port m); str "TCP"])).
Proof.
  intros Hops st. destruct (object_run_owned ops) as [H1 H2]. split; [exact H1|]. split; [exact H2|].
  intros x m Hin. destruct (Hops x m Hin) as (env & i & e & E).
  destruct (create_valid _ _ _ _ E) as [Hv [lan Hacc]]. exists env, i, lan. split; [exact Hacc|]. split.
  - change (holds m) with (due_request m). unfold due_request, release, soap_call. rewrite Hv. cbn [negb snd].
    by destruct (parse_url (m_control_url m)).
  - intros Hns. by rewrite named_add, named_del.
Qed.

(** A gateway that answers the first search, serves a description with two services, and
    accepts every SOAP action. *)
Definition sample_description : bytes :=
  str "<root><service><serviceType>urn:schemas-upnp-org:service:Layer3Forwarding:1</serviceType>"
  ++ str "<controlURL>/l3f</controlURL></service>"
  ++ str "<service><serviceType>urn:schemas-upnp-org:service:WANIPConnection:1</serviceType>"
  ++ str "<controlURL>/ctl/IPConn</controlURL></service></root>".

Definition sample_gateway : UpnpEnv := {|
  ue_socket := Ok ();
  ue_ssdp _ _ := Ok [str "NOTIFY * HTTP/1.1" ++ CRLF ++ CRLF;
                     str "HTTP/1.1 200 OK" ++ CRLF ++ str "Location: http://192.168.1.1:49000/igd.xml"
                     ++ CRLF ++ CRLF];
  ue_tcp _ _ req := Ok (str "HTTP/1.0 200 OK" ++ CRLF ++ CRLF
                        ++ (if starts_with (str "GET /igd.xml ") req then sample_description else []));
  ue_gateway := str "192.168.1.1";
  ue_local_ip _ := str "192.168.1.20" |}.

Definition sample_mapping : UPnPPortMapping :=
  mkMapping (str "http://192.168.1.1:49000/ctl/IPConn")
    (str "urn:schemas-upnp-org:service:WANIPConnection:1") 6881 [] true.

Lemma create_sample : create sample_gateway 6881 0 = Ok (Some sample_mapping).
Proof. vm_compute. reflexivity. Qed.

(** The mapping moves from the result of [create] into the session, which is destroyed. *)
Definition sample_life : list (ObjectOp UPnPPortMapping) :=
  [Created 0 sample_mapping; MoveConstruct 1 0; Destroy 0; Destroy 1].

Lemma upnp_mapping_owned_witness :
  map rq_host (snd (object_run sample_life)) = [str "192.168.1.1"] /\
  [mkRequest (str "192.168.1.1") 49000
     (soap_request (mkUrl (str "192.168.1.1") 49000 (str "/ctl/IPConn")) (m_service_type sample_mapping)
        (str "DeletePortMapping") (soap_delete_port (m_service_type sample_mapping) (str "6881")))]
  ≡ₚ snd (object_run sample_life).
Proof.
  split; [vm_compute; reflexivity|].
  refine (proj1 (proj2 (upnp_mapping_owned sample_life _)) _).
  - intros x m Hin. unfold sample_life in Hin. rewrite !elem_of_cons, elem_of_nil in Hin.
    destruct Hin as [E|[E|[E|[E|[]]]]]; try discriminate E. injection E as -> ->.
    exists sample_gateway, 6881, 0. exact create_sample.
  - vm_compute. reflexivity.
Defined.
