(* ===== verification/SessionNode.v ===== *)
(** * A session with its DHT node and its port mapping
    (src/peer_wire/session_manager.cpp: start_all, stop_all and the DHT callback)

    [SessionManager] puts the other parts together: the torrents, the DHT node, whose
    callback routes peers to them, and the port mapping.  A step is a region guarded by
    [m_mutex], one iteration of a thread of the DHT node with the callbacks it makes, or
    what the threads of a torrent do.  [start_all] waits inside [DhtClient::start] while the
    DHT's receiver runs already, so it is two steps; a torrent's tracker announce and the
    joins of its [stop] are steps of the torrent. *)

From S2P Require Import Prelude CxxLib Hash Addr NodeId TokenRotator RoutingTableStore AnnounceCoordinator Krpc.
From S2P Require Import KademliaLookup LookupManager DhtClient DhtKeeps TorrentFile TorrentManager RunSummary DhtReport.
From S2P Require Import Double SessionManager SessionSummaries Upnp.

(** ** What starting takes from outside *)

(** The environment variables, the gateway, the random draws of the constructor of
    [DhtClient], the port [bind] gave or its exception. *)
Record StartWorld := mkStartWorld {
  sw_getenv : string -> option bytes;
  sw_upnp : UpnpEnv;
  sw_self : NodeId;
  sw_rotator : TokenSecretRotator;
  sw_draws : nat;
  sw_bound : result (result Z);
}.

(** [v[0] != '\0' && v[0] != '0'] *)
Definition env_on (v : option bytes) : bool :=
  match v with
  | Some (c :: _) => negb (c =? chr "0")
  | _ => false
  end.

(** [RoutingTableStore::default_path] *)
Definition default_path (getenv : string -> option bytes) : bytes :=
  default (str "routing_table_store/routing_table.txt") (getenv "DHT_ROUTING_TABLE_PATH").

(** The client that [start_all] makes, with its callback and configuration. *)
Definition configured_client (w : StartWorld) (port : Z) (fs : files) : DhtClient :=
  let path := default_path (sw_getenv w) in
  let d := client_new (sw_self w) port path (sw_rotator w) fs (sw_draws w) in
  set_config (mkConfig true (default path (sw_getenv w "DHT_ROUTING_TABLE_PATH")) true
                (env_on (sw_getenv w "DHT_CLEAR_ROUTING")) true) d.

(** ** The members *)

(** [Starting fresh]: between the two steps of [start_all], with a new DHT node or not. *)
Inductive StartStep := Idle | Starting (fresh : bool).

Record Node := mkNode {
  nd_port : Z;                          (* m_listen_port *)
  nd_sm : SM;                           (* m_sessions and what the display keeps *)
  nd_upnp : option UPnPPortMapping;     (* m_upnp_mapping *)
  nd_dht : option DhtClient;            (* m_dht_client *)
  nd_phase : StartStep;
  nd_files : files;                     (* the routing table's file *)
  nd_out : OutFiles;                    (* the summaries *)
}.

Definition node_new (port : Z) (fs : files) : Node := mkNode port sm_new None None Idle fs ∅.

Definition nd_sessions (n : Node) : list Session := sm_sessions (nd_sm n).

Definition with_sm (sm : SM) (out : OutFiles) (n : Node) : Node :=
  mkNode (nd_port n) sm (nd_upnp n) (nd_dht n) (nd_phase n) (nd_files n) out.
Definition with_dht (d : option DhtClient) (p : StartStep) (fs : files) (n : Node) : Node :=
  mkNode (nd_port n) (nd_sm n) (nd_upnp n) d p fs (nd_out n).
Definition with_upnp (m : option UPnPPortMapping) (n : Node) : Node :=
  mkNode (nd_port n) (nd_sm n) m (nd_dht n) (nd_phase n) (nd_files n) (nd_out n).
Definition with_list (l : list Session) (n : Node) : Node := with_sm (with_sessions l (nd_sm n)) (nd_out n) n.

Section node.
Context {IN : Inet} {SH : Sha1} {PT : InetPton} {DS : DistanceSort} {EN : DhtEnv} {OE : OutEnv}.
Context (sort_stats : list PeerStat -> list PeerStat).

(** [start_all] up to the wait of [DhtClient::start]. *)
Definition start_all_begin (now : Z) (w : StartWorld) (n : Node) : Node * result unit :=
  match (match nd_upnp n with Some m => Ok (Some m) | None => Upnp.create (sw_upnp w) (nd_port n) 0 end) with
  | Throw e => (n, Throw e)
  | Ok m =>
      let n := with_upnp m n in
      match nd_dht n with
      | Some d => (with_dht (Some d) (Starting false) (nd_files n) n, Ok ())
      | None =>
          let '(d, r) := start_begin now (sw_bound w) (configured_client w (nd_port n) (nd_files n)) in
          (with_dht (Some d) (match r with Ok _ => Starting true | Throw _ => Idle end) (nd_files n) n, r)
      end
  end.

(** The loop over the torrents; the start of torrent [i] throws when [fails i], for its files
    could not be made. *)
Fixpoint start_torrents (now port : Z) (fails : nat -> bool) (i : nat) (l : list Session) (d : DhtClient)
  : list Session * DhtClient * result unit :=
  match l with
  | [] => ([], d, Ok ())
  | s :: l' =>
      let d := client_register now (se_info_hash s) port d in
      let first := bool_decide (tm_start (se_tm s) = NotStarted) in
      let s := torrent_step now StartCall s in
      if first && fails i then (s :: l', d, Throw (RuntimeError "Failed to open output file"))
      else let '(l'', d, r) := start_torrents now port fails (S i) l' d in (s :: l'', d, r)
  end.

(** The rest of [start_all]. *)
Definition start_all_finish (now : Z) (fails : nat -> bool) (n : Node) : Node * result unit :=
  match nd_phase n, nd_dht n with
  | Starting fresh, Some d =>
      let d := if fresh then start_finish now d else d in
      let '(l, d, r) := start_torrents now (nd_port n) fails 0 (nd_sessions n) d in
      (with_dht (Some d) Idle (nd_files n) (with_list l n), r)
  | _, _ => (n, Ok ())
  end.

(** The callbacks the DHT node made from [d] to [d']. *)
Definition made (d d' : DhtClient) : list (bytes * PeerAddress) := drop (length (callbacks d)) (callbacks d').

Definition deliver (cbs : list (bytes * PeerAddress)) (l : list Session) : list Session :=
  fold_left (fun l cb => peer_callback (fst cb) (snd cb) l) cbs l.

(** An iteration of a thread of the DHT node. *)
Definition dht_turn (f : DhtClient -> DhtClient * result unit) (n : Node) : Node * result unit :=
  match nd_dht n with
  | None => (n, Ok ())
  | Some d =>
      let '(d', r) := f d in
      (with_dht (Some d') (nd_phase n) (nd_files n) (with_list (deliver (made d d') (nd_sessions n)) n), r)
  end.

(** [stop_all]: the summaries, the DHT node, then [stop] of every torrent, here its first
    step; an exception of the first leaves the rest undone. *)
Definition stop_session (now : Z) (n : Node) : Node * result unit :=
  let dht := match nd_dht n with Some d => Some (DhtReport.build_run_summary now d) | None => None end in
  let '(sm, (out, r)) := write_summaries now dht (nd_sm n) (nd_out n) in
  let n := with_sm sm out n in
  match r with
  | Throw e => (n, Throw e)
  | Ok _ =>
      let n := match nd_dht n with
               | Some d => with_dht None Idle (dc_files (DhtClient.stop d)) n
               | None => n
               end in
      (with_list (map (torrent_step now StopFlag) (nd_sessions n)) n, Ok ())
  end.

Inductive node_op :=
  | NBegin (w : StartWorld)
  | NFinish (fails : nat -> bool)
  | NRecv (ev : RecvEvent)
  | NMaintenance
  | NStop
  | NMetricsDir (dir : bytes)
  | NSession (o : sm_op).          (* the torrents' threads and the other calls *)

Definition node_step (now : Z) (o : node_op) (n : Node) : Node * result unit :=
  match o with
  | NBegin w => start_all_begin now w n
  | NFinish fails => start_all_finish now fails n
  | NRecv ev => dht_turn (recv_iteration now ev) n
  | NMaintenance => dht_turn (maintenance_iteration now) n
  | NStop => stop_session now n
  | NMetricsDir dir =>
      let '(dir, r) := set_metrics_output_dir dir in
      (with_sm (mkSM (nd_sessions n) (sm_speeds (nd_sm n)) dir (sm_reference_match (nd_sm n))) (nd_out n) n, r)
  | NSession o => let '(sm, out) := sm_step sort_stats now o (nd_sm n, nd_out n) in (with_sm sm out n, Ok ())
  end.

Definition node_run (n : Node) (es : list (Z * node_op)) : Node :=
  fold_left (fun n e => fst (node_step (fst e) (snd e) n)) es n.
End node.


(** ** What happens to the torrents *)

(** Torrents stay what they are; they learn peers, stay started, and stay stopped.
    [going]: nothing stops them. *)
Record tm_grows (going : bool) (s s' : TM) : Prop := {
  tg_peers : m_all_peers s ⊆ m_all_peers s';
  tg_start : tm_start s <> NotStarted -> tm_start s' <> NotStarted;
  tg_stopped : m_stopped s = true -> m_stopped s' = true;
  tg_going : going = true -> m_stopped s = false -> m_stopped s' = false;
}.

#[global] Instance tm_grows_preorder b : PreOrder (tm_grows b).
Proof. split; [by split|]. intros x y z [] []. split; [by etransitivity|auto..]. Qed.

Definition grows (b : bool) (x x' : Session) : Prop := se_tf x' = se_tf x /\ tm_grows b (se_tm x) (se_tm x').

#[global] Instance grows_preorder b : PreOrder (grows b).
Proof. split; [by split|]. intros x y z [A1 B1] [A2 B2]. split; [congruence|by etransitivity]. Qed.

Definition grown (b : bool) (l l' : list Session) : Prop :=
  forall i x, l !! i = Some x -> exists x', l' !! i = Some x' /\ grows b x x'.

Lemma grown_false b l l' : grown b l l' -> grown false l l'.
Proof.
  intros H i x Hx. destruct (H i x Hx) as (x' & Hx' & Ht & []). exists x'. split; [done|]. by split.
Qed.

#[global] Instance grown_preorder b : PreOrder (grown b).
Proof.
  split; [intros l i x Hx; by exists x|]. intros l1 l2 l3 Hab Hbc i x Hx.
  destruct (Hab i x Hx) as (y & Hy & Hg). destruct (Hbc i y Hy) as (z & Hz & Hg'). exists z. split; [done|by etransitivity].
Qed.

Lemma append_unique_keeps ps all : all ⊆ append_unique_peers ps all.
Proof.
  unfold append_unique_peers. revert all. induction ps as [|p ps IH]; intros all; cbn [fold_left]; [done|].
  etransitivity; [|apply IH]. case_bool_decide; [done|]. set_solver.
Qed.

Lemma append_unique_has p all : p ∈ append_unique_peers [p] all.
Proof. unfold append_unique_peers. cbn [fold_left]. case_bool_decide; [done|]. set_solver. Qed.

Definition not_stop_flag (a : TmAction) : bool := match a with StopFlag => false | _ => true end.

Lemma tm_exec_grows a s : tm_grows (not_stop_flag a) s (tm_exec s a).
Proof.
  assert (forall s', tm_step s a = Some s' -> tm_grows (not_stop_flag a) s s') as Hs;
    [|unfold tm_exec; destruct (tm_step s a); [by apply Hs|done]].
  intros s' E. destruct a as [tid o| | |ps|p| | | |]; cbn [tm_step] in E.
  - destruct (m_threads s !! tid) as [w|]; [|done].
    unfold worker_step, locked in E. repeat case_match; try done; injection E as <-; done.
  - unfold spawn_step, spawn_done, goto in E. repeat case_match; try done; injection E as <-; cbn; try done.
    all: destruct (tm_start _) eqn:?; done.
  - repeat case_match; injection E as <-; done.
  - pose proof (append_unique_keeps ps (m_all_peers s)).
    unfold locked, start_peers in E. repeat case_match; try done; injection E as <-; done.
  - pose proof (append_unique_keeps [p] (m_all_peers s)).
    unfold locked, add_dht_peer in E. repeat case_match; try done; injection E as <-; done.
  - repeat case_match; injection E as <-; done.
  - unfold locked in E. repeat case_match; try done; injection E as <-; done.
  - repeat case_match; try done; injection E as <-; done.
  - injection E as <-; done.
Qed.

Lemma start_call_starts s : tm_start (tm_exec s StartCall) <> NotStarted.
Proof. unfold tm_exec. cbn [tm_step]. by destruct (tm_start s) eqn:E; cbn; rewrite ?E. Qed.

Lemma torrent_step_grows now a x : grows (not_stop_flag a) x (torrent_step now a x).
Proof. split; [done|]. apply tm_exec_grows. Qed.

Lemma spawn_loop_flags fuel : forall s,
  tm_start (spawn_loop fuel s) = tm_start s /\ m_stopped (spawn_loop fuel s) = m_stopped s.
Proof.
  induction fuel as [|f IH]; intros s; [done|]. cbn [spawn_loop]. case_if; [|done].
  by destruct (IH (spawn_one s)) as [-> ->].
Qed.

Lemma dht_add_flags pa s :
  tm_start (snd (dht_add pa s)) = tm_start s /\ m_stopped (snd (dht_add pa s)) = m_stopped s.
Proof.
  unfold dht_add, add_dht_peer. cbv zeta. case_if; [done|]. cbn [snd]. unfold spawn_peers_locked.
  change (tm_start (set_lock None ?x)) with (tm_start x). change (m_stopped (set_lock None ?x)) with (m_stopped x).
  by destruct (spawn_loop_flags (S k_max_concurrent_peers) (set_lock (Some (mkSpawner ByDht false))
    (set_discovered (u64 (m_dht_peers_discovered s + 1)) (set_peers (append_unique_peers [pa] (m_all_peers s)) s)))) as [-> ->].
Qed.

Lemma route_grows b hex pa x : grows b x (route_peer hex pa x).
Proof.
  unfold route_peer. case_if; [done|]. split; [done|]. destruct (dht_add_flags pa (se_tm x)) as [E1 E2].
  split; cbn [with_tm se_tm]; [rewrite dht_add_peers; apply append_unique_keeps|congruence..].
Qed.

Lemma grown_map b f l : (forall x, grows b x (f x)) -> grown b l (map f l).
Proof. intros Hf i x Hx. exists (f x). by rewrite list_lookup_fmap, Hx. Qed.

Lemma grown_alter b f i l : (forall x, grows b x (f x)) -> grown b l (alter f i l).
Proof.
  intros Hf j x Hx. destruct (decide (i = j)) as [->|Hne].
  - exists (f x). by rewrite list_lookup_alter_eq, Hx.
  - exists x. by rewrite list_lookup_alter_ne.
Qed.

Lemma grown_same b l l' :
  map (fun s => (se_tf s, se_tm s)) l' = map (fun s => (se_tf s, se_tm s)) l -> grown b l l'.
Proof.
  intros E i x Hx. destruct (session_lists_eq l' l E) as (_ & _ & _ & Hl). destruct (Hl i x Hx) as (x' & Hx' & E1 & E2).
  exists x'. split; [done|]. split; [done|]. by rewrite E2.
Qed.

Lemma deliver_lookup cbs l i :
  deliver cbs l !! i = fold_left (fun x cb => route_peer (fst cb) (snd cb) x) cbs <$> l !! i.
Proof.
  unfold deliver. revert l. induction cbs as [|cb cbs IH]; intros l; cbn [fold_left].
  - by destruct (l !! i).
  - rewrite IH. unfold peer_callback. rewrite list_lookup_fmap. by destruct (l !! i).
Qed.

Lemma deliver_grown b cbs l : grown b l (deliver cbs l).
Proof.
  intros i x Hx. rewrite deliver_lookup, Hx. eexists. split; [reflexivity|].
  apply (fold_left_rel (grows b)). intros. apply route_grows.
Qed.

(** The callbacks of one lookup reach the torrents with its info hash, and no other. *)
Lemma route_all_peers hex ps x :
  let x' := fold_left (fun x cb => route_peer (fst cb) (snd cb) x) (map (fun p => (hex, p)) ps) x in
  (info_hash_hex x = hex -> forall p, p ∈ ps -> p ∈ m_all_peers (se_tm x')) /\ (info_hash_hex x <> hex -> x' = x).
Proof.
  revert x. induction ps as [|p ps IH]; intros x; cbn [map fold_left fst snd].
  { split; [|done]. intros _ p Hp. by apply not_elem_of_nil in Hp. }
  set (y := route_peer hex p x). specialize (IH y). destruct IH as [IH1 IH2].
  assert (info_hash_hex y = info_hash_hex x) as Ey by (unfold y, route_peer; by case_if). rewrite Ey in *.
  split; [|intros Hne; rewrite IH2 by done; unfold y, route_peer; by rewrite bool_decide_false by done].
  intros Hhex q [Eq|Hq]%elem_of_cons; [|by apply IH1]. rewrite Eq.
  assert (p ∈ m_all_peers (se_tm y)) as Hy.
  { unfold y, route_peer. rewrite bool_decide_true by done. cbn. rewrite dht_add_peers. apply append_unique_has. }
  assert (grows true y (fold_left (fun x cb => route_peer (fst cb) (snd cb) x) (map (fun p => (hex, p)) ps) y)) as [_ [Hg _ _ _]]
    by (apply (fold_left_rel (grows true)); intros; apply route_grows).
  by apply Hg.
Qed.

Section histories.
Context {IN : Inet} {SH : Sha1} {PT : InetPton} {DS : DistanceSort} {EN : DhtEnv} {OE : OutEnv}.
Context (sort_stats : list PeerStat -> list PeerStat).
Abbreviation node_step := (node_step sort_stats).
Abbreviation node_run := (node_run sort_stats).

Lemma print_grown b now s out : grown b (sm_sessions s) (sm_sessions (fst (fst (print_status sort_stats now s out)))).
Proof.
  apply grown_same. unfold print_status, sample. set (rs := rows _ _ _ _ _).
  pose proof (rows_of_sessions (sm_sessions s) (sm_speeds s)) as Hrs. fold rs in Hrs.
  destruct (m_last_snapshot (sm_speeds s) =? 0); [cbn; by rewrite (map_map seed_row r_session), <- Hrs at 1|].
  destruct (dlt lit_0_05 _); [|cbn; by rewrite Hrs].
  pose proof (for_sessions_map (sample_row (sm_metrics_dir s) now (sec_of_ns (now - m_last_snapshot (sm_speeds s))))
    (fun r => (se_tf (r_session r), se_tm (r_session r))) rs out) as Hm.
  destruct (for_sessions _ rs out) as [rs' [out' res]]. cbn [fst] in *. cbn. rewrite map_map, Hm.
  - rewrite <- Hrs. by rewrite map_map.
  - intros r o. unfold sample_row, try_mark_summary_written. repeat case_match; done.
Qed.

Lemma write_summaries_grown b now dht s out :
  grown b (sm_sessions s) (sm_sessions (fst (write_summaries now dht s out))).
Proof.
  apply grown_same. unfold write_summaries, flush_torrent_summaries_locked. case_bool_decide; [done|].
  pose proof (for_sessions_map (flush_one now (sm_metrics_dir s) (sm_reference_match s)) (fun x => (se_tf x, se_tm x))
    (sm_sessions s) out) as Hm.
  destruct (for_sessions _ _ out) as [l r]. cbn in *. apply Hm.
  intros x o. unfold flush_one, try_mark_summary_written. by destruct (sm_reference_match s).
Qed.

Definition sm_going (o : sm_op) : bool := match o with STorrent _ a => not_stop_flag a | _ => true end.

Lemma sm_step_grown now o s out :
  grown (sm_going o) (sm_sessions s) (sm_sessions (fst (sm_step sort_stats now o (s, out)))).
Proof.
  destruct o as [tf|hex pa| |m|d|dht|i a|i d f]; cbn [sm_step fst with_sessions sm_sessions add sm_going].
  - intros i x Hx. exists x. split; [by apply lookup_app_l_Some|done].
  - apply grown_map. intros x. apply route_grows.
  - apply print_grown.
  - done.
  - done.
  - pose proof (write_summaries_grown true now dht s out) as H. by destruct (write_summaries _ _ _ _) as [s' [out' r]].
  - apply grown_alter. intros x. apply torrent_step_grows.
  - apply grown_alter. by intros x.
Qed.

(** The loop of [start_all] gets to torrent [k]: no torrent before it is started for the
    first time and throws. *)
Definition reached (fails : nat -> bool) (i : nat) (l : list Session) (k : nat) : Prop :=
  forall j y, (j < k)%nat -> l !! j = Some y -> tm_start (se_tm y) = NotStarted -> fails (i + j)%nat = false.

(** It registers and starts every torrent it gets to, and leaves the others alone. *)
Lemma start_torrents_spec now port fails l : forall i d,
  let '(l', d', r) := start_torrents now port fails i l d in
  grown true l l' /\ dc_config d' = dc_config d
  /\ (forall h, ports d !! h = Some port -> ports d' !! h = Some port)
  /\ (forall k x, l !! k = Some x -> reached fails i l k ->
      ports d' !! se_info_hash x = Some port /\ l' !! k = Some (torrent_step now StartCall x))
  /\ (forall k x, l !! k = Some x -> ~ reached fails i l k -> l' !! k = Some x).
Proof.
  induction l as [|s l IH]; intros i d; cbn [start_torrents]; [by split_and!|].
  set (d1 := client_register now (se_info_hash s) port d). set (s1 := torrent_step now StartCall s).
  assert (dc_config d1 = dc_config d /\ forall h, ports d1 !! h = if decide (h = se_info_hash s) then Some port else ports d !! h)
    as [Hc1 Hp1].
  { unfold d1, client_register. set (d0 := set_coord _ d).
    assert (forall h, ports d0 !! h = if decide (h = se_info_hash s) then Some port else ports d !! h) as H0.
    { intros h. unfold ports, d0. cbn. rewrite fmap_insert. cbn.
      case_decide as E; [by rewrite E, lookup_insert_eq|by rewrite lookup_insert_ne by auto]. }
    case_if; [|done]. destruct (get_peers_steady now (se_info_hash s) d0) as [(A & B & _) _]. rewrite A, B. done. }
  assert (grows true s s1) as Hg by apply (torrent_step_grows now StartCall).
  assert (forall lx, grown true l lx -> grown true (s :: l) (s1 :: lx)) as Hcons.
  { intros lx Hl [|k] x Hx; cbn in *; [injection Hx as <-; by exists s1|by apply Hl]. }
  specialize (IH (S i) d1). destruct (start_torrents now port fails (S i) l d1) as [[l'' d''] r].
  destruct IH as (H1 & H2 & H3 & H4 & H5).
  assert (forall h, ports d !! h = Some port -> ports d1 !! h = Some port) as Hk by (intros h Hh; rewrite Hp1; by case_decide).
  assert (ports d1 !! se_info_hash s = Some port) as Hs by (rewrite Hp1; by rewrite decide_True).
  assert (reached fails i (s :: l) 0) as R0 by (intros j y Hj; lia).
  destruct (bool_decide _ && fails i) eqn:Ef.
  - b2p. split; [by apply Hcons|]. split; [done|]. split; [exact Hk|].
    assert (forall k, ~ reached fails i (s :: l) (S k)) as Rn.
    { intros k Hr. specialize (Hr 0%nat s ltac:(lia) eq_refl). rewrite Nat.add_0_r in Hr. rewrite Hr in *; done. }
    split; intros [|k] x Hx Hr; cbn in Hx |- *; [injection Hx as <-; by split|by destruct (Rn k)|by destruct Hr|done].
  - assert (forall k, reached fails i (s :: l) (S k) <-> reached fails (S i) l k) as Rs.
    { intros k. split.
      - intros Hr j y Hj Hy Hn. rewrite Nat.add_succ_comm. apply (Hr (S j) y); [lia|done|done].
      - intros Hr [|j] y Hj Hy Hn; cbn in Hy.
        + injection Hy as <-. rewrite Nat.add_0_r. rewrite bool_decide_true in Ef by done. exact Ef.
        + rewrite <- Nat.add_succ_comm. apply (Hr j y); [lia|done|done]. }
    split; [by apply Hcons|]. split; [congruence|]. split; [auto|].
    split; intros [|k] x Hx Hr; cbn in Hx |- *.
    + injection Hx as <-. split; [by apply H3|done].
    + by apply H4; [|apply Rs].
    + by destruct Hr.
    + apply H5; [done|]. by rewrite <- Rs.
Qed.

(** The node of the session keeps its callback. *)
Definition node_inv (n : Node) : Prop := forall d, nd_dht n = Some d -> has_peer_cb (dc_config d) = true.

Lemma node_step_port now o n : nd_port (fst (node_step now o n)) = nd_port n.
Proof.
  destruct o as [w|fails|ev| | |dir|o]; cbn [SessionNode.node_step].
  - unfold start_all_begin. destruct (match nd_upnp n with Some m => _ | None => _ end); [|done]. cbn [nd_dht with_upnp].
    destruct (nd_dht n); [done|]. by destruct (start_begin _ _ _).
  - unfold start_all_finish. destruct (nd_phase n), (nd_dht n); try done.
    by destruct (start_torrents _ _ _ _ _ _) as [[l d'] r].
  - unfold dht_turn. destruct (nd_dht n); [|done]. by destruct (recv_iteration _ _ _).
  - unfold dht_turn. destruct (nd_dht n); [|done]. by destruct (maintenance_iteration _ _).
  - unfold stop_session. destruct (write_summaries _ _ _ _) as [sm [out [u|e]]]; [|done]. cbn. by destruct (nd_dht n).
  - done.
  - by destruct (sm_step _ _ _ _).
Qed.

Lemma dht_turn_spec f n d :
  nd_dht n = Some d ->
  nd_dht (fst (dht_turn f n)) = Some (fst (f d))
  /\ nd_sessions (fst (dht_turn f n)) = deliver (made d (fst (f d))) (nd_sessions n).
Proof. intros Hd. unfold dht_turn. rewrite Hd. by destruct (f d). Qed.

Lemma dht_turn_none f n : nd_dht n = None -> fst (dht_turn f n) = n.
Proof. intros Hd. unfold dht_turn. by rewrite Hd. Qed.

(** What [start_all] does to the members, up to its wait and after it. *)
Lemma start_all_begin_spec now w n :
  nd_sessions (fst (start_all_begin now w n)) = nd_sessions n
  /\ forall d', nd_dht (fst (start_all_begin now w n)) = Some d' ->
     nd_dht n = Some d' \/ carries (configured_client w (nd_port n) (nd_files n)) d' /\ nd_dht n = None.
Proof.
  unfold start_all_begin. destruct (match nd_upnp n with Some m => _ | None => _ end) as [m|e]; [|by split; [|left]].
  cbn [nd_dht with_upnp]. destruct (nd_dht n) as [d|]; [by split; [|left]|]. cbn [nd_port nd_files with_upnp].
  pose proof (start_begin_steady now (sw_bound w) (configured_client w (nd_port n) (nd_files n))) as H.
  destruct (start_begin _ _ _) as [d r]. split; [done|]. intros d' [= <-]. right. split; [apply H|done].
Qed.

Lemma start_all_finish_spec now fails n d fresh :
  nd_phase n = Starting fresh -> nd_dht n = Some d ->
  exists d', nd_dht (fst (start_all_finish now fails n)) = Some d' /\ dc_config d' = dc_config d
  /\ grown true (nd_sessions n) (nd_sessions (fst (start_all_finish now fails n)))
  /\ (forall h, ports d !! h = Some (nd_port n) -> ports d' !! h = Some (nd_port n))
  /\ (forall k x, nd_sessions n !! k = Some x -> reached fails 0 (nd_sessions n) k ->
      ports d' !! se_info_hash x = Some (nd_port n)
      /\ nd_sessions (fst (start_all_finish now fails n)) !! k = Some (torrent_step now StartCall x))
  /\ (forall k x, nd_sessions n !! k = Some x -> ~ reached fails 0 (nd_sessions n) k ->
      nd_sessions (fst (start_all_finish now fails n)) !! k = Some x).
Proof.
  intros Hp Hd. unfold start_all_finish. rewrite Hp, Hd. set (d1 := if fresh then _ else d).
  assert (carries d d1) as (Hc & Hpt & _) by (unfold d1; destruct fresh; [apply (start_finish_steady now d)|done]).
  pose proof (start_torrents_spec now (nd_port n) fails (nd_sessions n) 0 d1) as H.
  destruct (start_torrents _ _ _ _ _ _) as [[l d'] r]. destruct H as (H1 & H2 & H3 & H45). exists d'.
  split; [done|]. split; [congruence|]. split; [exact H1|]. rewrite Hpt in H3. done.
Qed.

Lemma start_all_finish_idle now fails n :
  (forall fresh d, nd_phase n = Starting fresh -> nd_dht n = Some d -> False) -> fst (start_all_finish now fails n) = n.
Proof.
  intros H. unfold start_all_finish. destruct (nd_phase n) as [|fresh] eqn:Ep; [done|].
  destruct (nd_dht n) as [d|] eqn:Ed; [|done]. by destruct (H fresh d).
Qed.

Lemma finish_cases n :
  (exists fresh d, nd_phase n = Starting fresh /\ nd_dht n = Some d)
  \/ forall fresh d, nd_phase n = Starting fresh -> nd_dht n = Some d -> False.
Proof. destruct (nd_phase n) as [|fresh], (nd_dht n) as [d|]; try (by right); left; by exists fresh, d. Qed.

(** Only [stop_all] stops torrents. *)
Definition going (o : node_op) : bool :=
  match o with NStop => false | NSession o => sm_going o | _ => true end.

Lemma node_step_grown now o n : grown (going o) (nd_sessions n) (nd_sessions (fst (node_step now o n))).
Proof.
  destruct o as [w|fails|ev| | |dir|o]; cbn [SessionNode.node_step going].
  - by rewrite (proj1 (start_all_begin_spec now w n)).
  - destruct (finish_cases n) as [(fresh & d & Hp & Hd)|H]; [|by rewrite start_all_finish_idle].
    by destruct (start_all_finish_spec now fails n d fresh Hp Hd) as (d' & _ & _ & Hg & _).
  - destruct (nd_dht n) as [d|] eqn:Hd; [|by rewrite dht_turn_none].
    rewrite (proj2 (dht_turn_spec _ n d Hd)). apply deliver_grown.
  - destruct (nd_dht n) as [d|] eqn:Hd; [|by rewrite dht_turn_none].
    rewrite (proj2 (dht_turn_spec _ n d Hd)). apply deliver_grown.
  - unfold stop_session. set (dht := match nd_dht n with Some d => _ | None => None end).
    pose proof (write_summaries_grown false now dht (nd_sm n) (nd_out n)) as H.
    destruct (write_summaries _ _ _ _) as [sm [out [u|e]]]; [|exact H]. cbn [fst] in *.
    etransitivity; [exact H|]. cbn. destruct (nd_dht n); apply grown_map; intros x; apply (torrent_step_grows now StopFlag).
  - done.
  - pose proof (sm_step_grown now o (nd_sm n) (nd_out n)) as H. by destruct (sm_step _ _ _ _).
Qed.

Lemma node_run_grown es n : grown false (nd_sessions n) (nd_sessions (node_run n es)).
Proof.
  apply (fold_left_pres (fun a => grown false (nd_sessions n) (nd_sessions a))); [done|].
  intros a e _ H. etransitivity; [exact H|]. eapply grown_false, node_step_grown.
Qed.

Lemma node_run_going es n :
  Forall (fun e => going e.2 = true) es -> grown true (nd_sessions n) (nd_sessions (node_run n es)).
Proof.
  intros Hes. apply (fold_left_pres (fun a => grown true (nd_sessions n) (nd_sessions a))); [done|].
  intros a e He H. etransitivity; [exact H|]. rewrite Forall_forall in Hes. rewrite <- (Hes e He). apply node_step_grown.
Qed.

Lemma node_run_snoc es e n : node_run n (es ++ [e]) = fst (node_step (fst e) (snd e) (node_run n es)).
Proof. unfold SessionNode.node_run. by rewrite fold_left_app. Qed.

Lemma node_run_port es n : nd_port (node_run n es) = nd_port n.
Proof. apply (fold_left_pres (fun a => nd_port a = nd_port n)); [done|]. intros a e _ H. by rewrite node_step_port. Qed.

Lemma node_step_inv now o n : node_inv n -> node_inv (fst (node_step now o n)).
Proof.
  intros Hi. assert (forall f, (forall d, carries d (fst (f d))) -> node_inv (fst (dht_turn f n))) as Hturn.
  { intros f Hf d' Hd'. destruct (nd_dht n) as [d|] eqn:Hd; [|rewrite dht_turn_none in Hd' by done; congruence].
    rewrite (proj1 (dht_turn_spec f n d Hd)) in Hd'. injection Hd' as <-. destruct (Hf d) as [-> _]. by apply Hi. }
  destruct o as [w|fails|ev| | |dir|o]; cbn [SessionNode.node_step].
  - intros d' Hd'. destruct (proj2 (start_all_begin_spec now w n) d' Hd') as [H|[[-> _] _]]; [by apply Hi|done].
  - destruct (finish_cases n) as [(fresh & d & Hp & Hd)|H]; [|by rewrite start_all_finish_idle].
    destruct (start_all_finish_spec now fails n d fresh Hp Hd) as (d' & Hd' & Hc & _).
    intros d'' Hd''. rewrite Hd' in Hd''. injection Hd'' as <-. rewrite Hc. by apply Hi.
  - apply Hturn. intros. apply recv_steady.
  - apply Hturn. intros. apply maintenance_carries.
  - unfold stop_session. destruct (write_summaries _ _ _ _) as [sm [out [u|e]]]; [|exact Hi]. cbn.
    intros d Hd. destruct (nd_dht n) eqn:E; cbn in Hd; congruence.
  - exact Hi.
  - destruct (sm_step _ _ _ _). exact Hi.
Qed.

Lemma node_run_inv port fs es : node_inv (node_run (node_new port fs) es).
Proof. apply (fold_left_pres node_inv); [done|]. intros n e _. apply node_step_inv. Qed.

Lemma lookup_tick_callbacks now d : callbacks (lookup_tick now d) = callbacks d.
Proof.
  unfold lookup_tick. case_if; [|done]. cbv zeta. destruct (tick _ _ _ _ _) as [out m].
  by destruct (sends_silent _ _ (send_all_sends out (set_mgr m (set_times now (last_routing_table_save d) d)))) as [-> _].
Qed.

(** Until [stop_all] the node stays, and what is registered with the session's port. *)
Definition not_stop (e : Z * node_op) : Prop := going e.2 = true.

Definition serves (h : InfoHash) (n : Node) : Prop := exists d, nd_dht n = Some d /\ ports d !! h = Some (nd_port n).

Lemma node_step_serves h now o n : not_stop (now, o) -> serves h n -> serves h (fst (node_step now o n)).
Proof.
  intros Ho (d & Hd & Hh). unfold serves. rewrite node_step_port.
  assert (forall f, (forall d, carries d (fst (f d))) -> exists d', nd_dht (fst (dht_turn f n)) = Some d'
    /\ ports d' !! h = Some (nd_port n)) as Hturn.
  { intros f Hf. rewrite (proj1 (dht_turn_spec f n d Hd)). eexists. split; [done|]. by destruct (Hf d) as (_ & -> & _). }
  destruct o as [w|fails|ev| | |dir|o]; cbn [SessionNode.node_step]; [..|done| |].
  - unfold start_all_begin. destruct (match nd_upnp n with Some m => _ | None => _ end) as [m|e]; [|by exists d].
    cbn [nd_dht with_upnp]. rewrite Hd. by exists d.
  - destruct (finish_cases n) as [(fresh & d0 & Hp & Hd0)|H]; [|rewrite start_all_finish_idle by done; by exists d].
    assert (d0 = d) as -> by congruence.
    destruct (start_all_finish_spec now fails n d fresh Hp Hd) as (d' & Hd' & _ & _ & H3 & _). exists d'. auto.
  - apply Hturn. intros. apply recv_steady.
  - apply Hturn. intros. apply maintenance_carries.
  - by exists d.
  - destruct (sm_step _ _ _ _). by exists d.
Qed.

Lemma node_run_serves h es n : Forall not_stop es -> serves h n -> serves h (node_run n es).
Proof.
  intros He Hs. apply (fold_left_pres (serves h)); [done|]. intros m [now o] Hin. apply node_step_serves.
  rewrite Forall_forall in He. by apply He.
Qed.
(** A reply to a query of a lookup delivers its peers to the torrents. *)
Lemma reply_delivered n now data from msg d h :
  node_inv n -> nd_dht n = Some d -> running d = true -> socket_open d = true ->
  parse_krpc now data = Ok (Some msg) -> m_type msg = Response -> info_hash_for_txn (m_txn msg) (dc_mgr d) = Some h ->
  let n1 := fst (node_step now (NRecv (Datagram data from)) n) in
  forall i x, nd_sessions n !! i = Some x ->
    (info_hash_hex x = ih_hex h -> forall later, exists x', nd_sessions (node_run n1 later) !! i = Some x'
       /\ se_tf x' = se_tf x /\ forall p, p ∈ reply_peers msg -> p ∈ m_all_peers (se_tm x'))
    /\ (info_hash_hex x <> ih_hex h -> nd_sessions n1 !! i = Some x).
Proof.
  intros Hinv Hd Hrun Hopen Hmsg Ht Hh n1 i x Hx.
  assert (has_peer_cb (dc_config d) = true) as Hcb by (by apply Hinv).
  assert (made d (fst (recv_iteration now (Datagram data from) d)) = map (fun p => (ih_hex h, p)) (reply_peers msg)) as Hm.
  { unfold made, recv_iteration. rewrite Hrun, Hopen, Hmsg. cbn [negb orb fst].
    pose proof (reply_peers_delivered IN SH PT DS EN now msg from d Ht) as Hr. cbv zeta in Hr. rewrite Hh, Hcb in Hr.
    rewrite (lookup_tick_callbacks now), Hr. apply drop_app_length. }
  assert (nd_sessions n1 = deliver (map (fun p => (ih_hex h, p)) (reply_peers msg)) (nd_sessions n)) as En.
  { unfold n1. cbn [SessionNode.node_step]. by rewrite (proj2 (dht_turn_spec _ n d Hd)), Hm. }
  destruct (route_all_peers (ih_hex h) (reply_peers msg) x) as [Hin Hout].
  set (x1 := fold_left _ _ x) in *. assert (nd_sessions n1 !! i = Some x1) as Hx1 by (by rewrite En, deliver_lookup, Hx).
  split; [|intros Hne; rewrite Hx1; by rewrite Hout].
  intros Hhex later. destruct (node_run_grown later n1 i x1 Hx1) as (x2 & Hx2 & [Etf [Hk _ _ _]]).
  exists x2. split; [exact Hx2|]. split.
  + rewrite Etf. unfold x1. apply (fold_left_pres (fun y => se_tf y = se_tf x)); [done|]. intros y cb _ <-.
    apply (route_grows true).
  + intros p Hp. by apply Hk, Hin.
Qed.
End histories.

(** C30: the peers the DHT finds reach the torrent they were asked for.  Whatever has
    happened to a session before - torrents were added, the session, its DHT node and its
    port mapping started and stopped, its threads took any steps in any order - two things
    hold.  When [start_all] comes to its end, every torrent up to the first whose start
    throws is registered with the DHT node under the session's listen port, and until
    [stop_all] this stays.  A torrent of these that was never started is being started now,
    and one that was not stopped before goes on until [stop_all]; one that an earlier
    [stop_all] stopped stays stopped for ever, for its start is ignored.  The torrents after
    the one that throws are as before.  And when a datagram arrives at a running node that
    parses as the reply to a query of the lookup of some info hash, every torrent of the
    session with that info hash knows all the peers the reply lists, from then on for ever,
    and no other torrent is touched by it. *)
Theorem dht_peers_reach_torrents (IN : Inet) (SH : Sha1) (PT : InetPton) (DS : DistanceSort) (EN : DhtEnv)
    (OE : OutEnv) (sort_stats : list PeerStat -> list PeerStat) (port : Z) (fs : files) (es : list (Z * node_op)) :
  let n := node_run sort_stats (node_new port fs) es in
  (forall now fails d fresh,
     nd_phase n = Starting fresh -> nd_dht n = Some d ->
     let n1 := fst (node_step sort_stats now (NFinish fails) n) in
     forall i x, nd_sessions n !! i = Some x ->
       (reached fails 0 (nd_sessions n) i ->
        (exists x1, nd_sessions n1 !! i = Some x1 /\ (tm_start (se_tm x) = NotStarted -> tm_start (se_tm x1) = Announcing))
        /\ forall later, Forall not_stop later -> let n2 := node_run sort_stats n1 later in
           exists x' d', nd_sessions n2 !! i = Some x' /\ se_tf x' = se_tf x
             /\ tm_start (se_tm x') <> NotStarted /\ m_stopped (se_tm x') = m_stopped (se_tm x)
             /\ nd_dht n2 = Some d' /\ ports d' !! se_info_hash x = Some port)
       /\ (~ reached fails 0 (nd_sessions n) i -> nd_sessions n1 !! i = Some x))
  /\ (forall now data from msg d h,
     nd_dht n = Some d -> running d = true -> socket_open d = true ->
     parse_krpc now data = Ok (Some msg) -> m_type msg = Response -> info_hash_for_txn (m_txn msg) (dc_mgr d) = Some h ->
     let n1 := fst (node_step sort_stats now (NRecv (Datagram data from)) n) in
     forall i x, nd_sessions n !! i = Some x ->
       (info_hash_hex x = ih_hex h -> forall later, exists x', nd_sessions (node_run sort_stats n1 later) !! i = Some x'
          /\ se_tf x' = se_tf x /\ forall p, p ∈ reply_peers msg -> p ∈ m_all_peers (se_tm x'))
       /\ (info_hash_hex x <> ih_hex h -> nd_sessions n1 !! i = Some x)).
Proof.
  intros n. assert (nd_port n = port) as Hport by (unfold n; by rewrite node_run_port).
  split.
  - intros now fails d fresh Hp Hd n1 i x Hx.
    destruct (start_all_finish_spec now fails n d fresh Hp Hd) as (d1 & Hd1 & _ & _ & _ & Hall & Hrest).
    split; [|intros Hr; exact (Hrest i x Hx Hr)]. intros Hr. destruct (Hall i x Hx Hr) as (Hreg & Hx1).
    set (x1 := torrent_step now StartCall x) in *. split.
    { exists x1. split; [exact Hx1|]. unfold x1, torrent_step. cbn. unfold tm_exec. cbn. by intros ->. }
    intros later Hl n2. destruct (node_run_going sort_stats later n1 Hl i x1 Hx1) as (x2 & Hx2 & [Etf2 Hg2]).
    destruct (torrent_step_grows now StartCall x) as [Etf Hg1]. fold x1 in Etf, Hg1.
    assert (serves (se_info_hash x) n1) as Hserve.
    { exists d1. split; [exact Hd1|]. unfold n1. by rewrite node_step_port. }
    destruct (node_run_serves sort_stats (se_info_hash x) later n1 Hl Hserve) as (d2 & Hd2 & Hr2).
    exists x2, d2. split; [exact Hx2|]. split; [congruence|]. split; [apply Hg2, start_call_starts|]. split.
    { destruct (m_stopped (se_tm x)) eqn:E; [by apply Hg2, Hg1|apply Hg2; [done|by apply Hg1]]. }
    split; [exact Hd2|]. unfold n2. rewrite Hr2, node_run_port. unfold n1. by rewrite node_step_port, Hport.
  - intros now data from msg d h. apply reply_delivered. by apply (node_run_inv sort_stats port fs es).
Qed.

Definition sample_world : StartWorld :=
  mkStartWorld (fun v => if bool_decide (v = "DHT_CLEAR_ROUTING"%string) then Some (str "1") else None)
    (mkUpnpEnv (Ok ()) (fun _ _ => Ok []) (fun _ _ _ => Throw (RuntimeError "connect() failed")) [] (fun _ => []))
    (sample_id 1) (mkRotator DEFAULT_ROTATION_INTERVAL (str "secret") [] 0 0) 0 (Ok (Ok 6881)).

(** Two torrents; while the session starts another node says hello. *)
Definition sample_start : list (Z * node_op) :=
  [(1, NSession (SAdd sample_torrent)); (2, NSession (SAdd other_torrent)); (3, NBegin sample_world);
   (4, NRecv (Datagram (make_ping (str "aa") (sample_id 2)) (mkPeer (str "10.0.0.2") 6881)))].

(** Both torrents are registered; the node answers the first query with a peer, which the
    first torrent knows after the session has stopped, and the second does not. *)
Lemma dht_peers_reach_torrents_witness :
  let IN := dotted_inet in let SH := sample_sha1 in let PT := sample_pton in let DS := merge_distance_sort in
  let EN := sample_client_env in let OE := mkOut (fun _ => true) (fun _ => true) in
  let n := node_run id (node_new 6881 ∅) sample_start in
  let n' := fst (node_step id 5 (NFinish (fun _ => false)) n) in
  let peer := mkPeer (str "10.0.0.5") 6881 in
  let reply := make_peers_response (txn_at txn_draw 20) (sample_id 2) (str "tok") [peer] in
  let n1 := fst (node_step id 6 (NRecv (Datagram reply (mkPeer (str "10.0.0.2") 6881))) n') in
  let n2 := node_run id n' [(6, NMaintenance)] in
  (exists x' d', nd_sessions n2 !! 1%nat = Some x' /\ tm_start (se_tm x') <> NotStarted
     /\ m_stopped (se_tm x') = false /\ nd_dht n2 = Some d' /\ ports d' !! tf_info_hash other_torrent = Some 6881)
  /\ (exists x', nd_sessions (node_run id n1 [(7, NStop)]) !! 0%nat = Some x' /\ peer ∈ m_all_peers (se_tm x'))
  /\ nd_sessions n1 !! 1%nat = nd_sessions n' !! 1%nat.
Proof.
  intros IN SH PT DS EN OE n n' peer reply n1 n2. split; [|split].
  - pose proof (dht_peers_reach_torrents IN SH PT DS EN OE id 6881 ∅ sample_start) as [H _].
    assert (is_Some (nd_dht n)) as [d Ed] by (vm_compute; by eexists).
    assert (is_Some (nd_sessions n !! 1%nat)) as [x Ex] by (vm_compute; by eexists).
    destruct (H 5 (fun _ => false) d true) with (i := 1%nat) (x := x) as [H1 _];
      [vm_compute; reflexivity|exact Ed|exact Ex|].
    destruct H1 as [_ H1]; [by intros j y _ _ _|].
    destruct (H1 [(6, NMaintenance)]) as (x' & d' & H2 & _ & H3 & H4 & H5 & H6); [by constructor|].
    assert (se_info_hash x = tf_info_hash other_torrent) as Eh.
    { vm_compute in Ex. injection Ex as <-. vm_compute. reflexivity. }
    exists x', d'. split; [exact H2|]. split; [exact H3|].
    split; [rewrite H4; vm_compute in Ex; by injection Ex as <-|]. split; [exact H5|]. rewrite <- Eh. exact H6.
  - pose proof (dht_peers_reach_torrents IN SH PT DS EN OE id 6881 ∅ (sample_start ++ [(5, NFinish (fun _ => false))]))
      as [_ H].
    assert (node_run id (node_new 6881 ∅) (sample_start ++ [(5, NFinish (fun _ => false))]) = n') as En
      by exact (node_run_snoc id sample_start (5, NFinish (fun _ => false)) (node_new 6881 ∅)). rewrite En in H.
    assert ((fun d => (running d, socket_open d, info_hash_for_txn (txn_at txn_draw 20) (dc_mgr d))) <$> nd_dht n'
      = Some (true, true, Some (tf_info_hash sample_torrent))) as Ed' by (vm_compute; reflexivity).
    destruct (fmap_Some_1 _ _ _ Ed') as (d & Ed & E3). injection E3 as E3 E4 E5. clear Ed'.
    assert (info_hash_hex <$> nd_sessions n' !! 0%nat = Some (ih_hex (tf_info_hash sample_torrent))) as Ex'
      by (vm_compute; reflexivity).
    destruct (fmap_Some_1 _ _ _ Ex') as (x & Ex & Ehex). clear Ex'.
    assert (exists msg, parse_krpc 6 reply = Ok (Some msg) /\ m_type msg = Response /\ m_txn msg = txn_at txn_draw 20
      /\ reply_peers msg = [peer]) as (msg & Em & Et & Etxn & Ep) by (vm_compute; eexists; repeat split; reflexivity).
    destruct (H 6 reply (mkPeer (str "10.0.0.2") 6881) msg d (tf_info_hash sample_torrent)) with (i := 0%nat) (x := x)
      as [H1 _]; [exact Ed|exact (eq_sym E3)|exact (eq_sym E4)|exact Em|exact Et|rewrite Etxn; exact (eq_sym E5)|exact Ex|].
    destruct (H1 (eq_sym Ehex) [(7, NStop)]) as (x' & Hx' & _ & Hp).
    exists x'. split; [exact Hx'|]. apply Hp. rewrite Ep. left.
  - vm_compute. reflexivity.
Defined.
