(* ===== verification/DhtExchange.v ===== *)
(** * Two DHT nodes and a torrent
    (src/dht/dht_client.cpp at both ends, src/peer_wire/session_manager.cpp)

    What one client stores for an info hash reaches the torrents of another that looks it
    up: the query of a lookup, the peer store behind [on_get_peers], the reply on the wire
    and the callback of the session, composed.  The two nodes have their own environments
    and clocks; what one sends is the datagram the other receives. *)

From S2P Require Import Prelude CxxLib Hash Addr Bencode NodeId RoutingTable TokenRotator RoutingTableStore DhtPeerStore Krpc KademliaLookup LookupManager DhtClient.
From S2P Require Import TorrentFile TorrentManager RunSummary DhtReport Double SessionManager SessionSummaries Upnp SessionNode.

(** The most a UDP datagram carries *)
Definition MAX_DATAGRAM : nat := Z.to_nat 65507.

Section serving.
Context {IN : Inet} {SH : Sha1} {PT : InetPton} {DS : DistanceSort} {EN : DhtEnv}.
Context (draws_ok : forall n, exists s, secret_draw n = Some s /\ s <> []).

Lemma lookup_tick_sends now d : exists rest, sent (lookup_tick now d) = sent d ++ rest.
Proof.
  unfold lookup_tick. case_if; [|exists []; by rewrite app_nil_r]. cbv zeta. destruct (tick _ _ _ _ _) as [out m].
  by destruct (send_all_sends out (set_mgr m (set_times now (last_routing_table_save d) d))) as (p & o & ->); exists o.
Qed.

(** A [get_peers] query for an info hash with live peers is answered with them. *)
Lemma get_peers_answered now q pa d h v :
  dht_ok now d -> socket_open d = true -> pton4 (ip pa) = Some v ->
  m_type q = Query -> m_query_type q = Some GetPeers -> m_info_hash q = Some h ->
  fst (live_peers now h (dc_store d)) <> [] ->
  exists token, sent (fst (handle_message now q pa d))
    = sent d ++ [LookupManager.mkOut (make_peers_response (m_txn q) (dc_self d) token (fst (live_peers now h (dc_store d)))) pa].
Proof.
  intros Hok Ho Hv Ht Hqt Hh Hne. unfold handle_message. rewrite Ht, Hqt.
  destruct (note_sender_fields now q pa d) as (Fs & Fc & Fself & Fo & _ & Fst).
  set (dn := note_sender now q pa d) in *. unfold on_get_peers. rewrite Hh.
  pose proof (client_rotate_Ok draws_ok now dn) as Hr. destruct (rotate_fields now dn) as (Rst & Rs & _ & Rself & Ro & _).
  assert (fst (live_peers now h (expire_stale now (dc_store (fst (client_rotate now dn))))) = fst (live_peers now h (dc_store d)))
    as Elive by (rewrite (expire_stale_live now) by (rewrite Rst, Fst; apply Hok); by rewrite Rst, Fst).
  destruct (client_rotate now dn) as [dr res]. cbn [fst snd] in *. rewrite Hr, <- Elive in *.
  destruct (live_peers now h _) as [known st]. cbn [fst] in *. exists (issue_token (dc_rotator dr) (ip pa)).
  destruct known as [|p known]; [done|]. cbn [fst].
  rewrite (send_krpc_open _ _ _ v) by (cbn; congruence). cbn. by rewrite Rs, Fs, Rself, Fself.
Qed.
End serving.

Section wire.
Context `{IN : Inet} `{!InetOk}.

(** The peers of a reply are those put in, where these have dotted addresses. *)
Lemma reply_peers_has now txn self token ps p :
  peer_ok p -> p ∈ ps -> p ∈ reply_peers (reply_msg now txn self (SRPeers token ps)).
Proof.
  intros Hp Hin. unfold reply_peers. cbn. apply list_elem_of_omap. exists (peer_to_compact (ip p) (port p)).
  split; [exact (list_elem_of_fmap_2 (fun p => peer_to_compact (ip p) (port p)) ps p Hin)|]. pose proof (compact_to_peer_app [] p [] Hp) as E. rewrite app_nil_r in E. cbn [app length] in E.
  rewrite E. by destruct p.
Qed.
End wire.

(** C25: a peer that one client stores reaches the torrents of another.  Take a session in
    any state it can reach, with a lookup for an info hash that waits for the answer to one
    of its queries, and a DHT node of another client in any state that satisfies the node's
    invariant, with its own clock and random draws.  When the query's datagram arrives
    there and a live peer is stored for the info hash, one datagram goes back to the
    querier; and when that one arrives, every torrent of the session with this info hash
    knows the peer, from then on for ever, and no other torrent is touched. *)
Theorem stored_peer_reaches_torrents (IN : Inet) (OK : InetOk) (SH : Sha1) (PT : InetPton) (DS : DistanceSort)
    (EA EB : DhtEnv) (OE : OutEnv) (sort_stats : list PeerStat -> list PeerStat) (port : Z) (fs : files)
    (es : list (Z * node_op)) (dA B : DhtClient) (tb : Z) (txn : bytes) (h : InfoHash) (pa p : PeerAddress) (v : bytes) :
  let n := node_run (EN := EA) sort_stats (node_new port fs) es in
  nd_dht n = Some dA -> running dA = true -> socket_open dA = true -> nid_ok (dc_self dA) -> ih_ok h ->
  info_hash_for_txn txn (dc_mgr dA) = Some h ->
  dht_ok tb B -> running B = true -> socket_open B = true -> pton4 (ip pa) = Some v ->
  (forall k, exists s, @secret_draw EB k = Some s /\ s <> []) ->
  peer_ok p -> p ∈ fst (live_peers tb h (dc_store B)) ->
  let query := make_get_peers txn (dc_self dA) h in
  (length query <= MAX_DATAGRAM)%nat ->
  let B' := fst (recv_iteration (EN := EB) tb (Datagram query pa) B) in
  exists reply rest, sent B' = sent B ++ LookupManager.mkOut reply pa :: rest /\
    ((length reply <= MAX_DATAGRAM)%nat -> forall ta pb,
     let n1 := fst (node_step (EN := EA) sort_stats ta (NRecv (Datagram reply pb)) n) in
     forall i x, nd_sessions n !! i = Some x ->
       (info_hash_hex x = ih_hex h -> forall later,
          exists x', nd_sessions (node_run (EN := EA) sort_stats n1 later) !! i = Some x'
          /\ se_tf x' = se_tf x /\ p ∈ m_all_peers (se_tm x'))
       /\ (info_hash_hex x <> ih_hex h -> nd_sessions n1 !! i = Some x)).
Proof.
  intros n Hd Hrun Hopen Hself Hh Htxn Hok HrunB HopenB Hv Hdraws Hp Hin query Hlq B'.
  assert (forall s : bytes, (length s <= MAX_DATAGRAM)%nat -> fits s) as Hfits.
  { intros s Hs. unfold fits, MAX_DATAGRAM in *. lia. }
  set (q := query_msg txn (dc_self dA) (SQGetPeers h)).
  assert (parse_krpc tb query = Ok (Some q)) as Eq.
  { apply (parse_query_bytes tb txn (dc_self dA) (SQGetPeers h)); [done..|]. by apply Hfits. }
  destruct (get_peers_answered (EN := EB) Hdraws tb q pa B h v) as (token & Es); try done.
  { intros E. rewrite E in Hin. by apply not_elem_of_nil in Hin. }
  destruct (lookup_tick_sends (EN := EB) tb (fst (handle_message (EN := EB) tb q pa B))) as (rest & Er).
  set (reply := make_peers_response txn (dc_self B) token (fst (live_peers tb h (dc_store B)))) in *.
  exists reply, rest. split.
  { unfold B', recv_iteration. rewrite HrunB, HopenB, Eq. cbn [negb orb fst]. rewrite Er, Es. by rewrite <- app_assoc. }
  intros Hlr ta pb n1 i x Hx. set (r := SRPeers token (fst (live_peers tb h (dc_store B)))).
  assert (parse_krpc ta reply = Ok (Some (reply_msg ta txn (dc_self B) r))) as Em.
  { apply (parse_reply_bytes ta txn (dc_self B) r); [apply Hok|done|]. by apply Hfits. }
  destruct (reply_delivered (EN := EA) sort_stats n ta reply pb (reply_msg ta txn (dc_self B) r) dA h) with (i := i) (x := x) as [H1 H2]; try done.
  { by apply (node_run_inv (EN := EA) sort_stats port fs es). }
  split; [|done]. intros Hhex later. destruct (H1 Hhex later) as (x' & Hx' & Etf & Hps).
  exists x'. split; [exact Hx'|]. split; [exact Etf|]. apply Hps. by apply reply_peers_has.
Qed.

(** A running node that stores a peer *)
Definition storing_node (h : InfoHash) (p : PeerAddress) : DhtClient :=
  let d := client_new (sample_id 2) 6881 (str "table.txt") (mkRotator DEFAULT_ROTATION_INTERVAL (str "secret") [] 0 0) ∅ 0 in
  set_store (upsert 5 h p (dc_store d)) (set_run 6881 true true d).

Lemma storing_node_ok h p : dht_ok 5 (storing_node h p).
Proof.
  constructor; [apply sample_id_ok|apply rt_new_ok, sample_id_ok|done|apply upsert_ok, store_new_ok|]. intros h' k. cbn. done.
Qed.

(** The first torrent of the sample session learns the peer that the other node stores, and
    still knows it after the session has stopped. *)
Lemma stored_peer_reaches_torrents_witness :
  let IN := dotted_inet in let SH := sample_sha1 in let PT := sample_pton in let DS := merge_distance_sort in
  let EN := sample_client_env in let OE := mkOut (fun _ => true) (fun _ => true) in
  let n := node_run id (node_new 6881 ∅) (sample_start ++ [(5, NFinish (fun _ => false))]) in
  let p := mkPeer (str "10.0.0.5") 6881 in
  let B := storing_node (tf_info_hash sample_torrent) p in
  let query := make_get_peers (txn_at txn_draw 20) (sample_id 1) (tf_info_hash sample_torrent) in
  let B' := fst (recv_iteration 5 (Datagram query (mkPeer (str "10.0.0.1") 6881)) B) in
  exists reply x', LookupManager.mkOut reply (mkPeer (str "10.0.0.1") 6881) ∈ sent B'
    /\ nd_sessions (node_run id (fst (node_step id 6 (NRecv (Datagram reply (mkPeer (str "10.0.0.2") 6881))) n)) [(7, NStop)])
       !! 0%nat = Some x' /\ p ∈ m_all_peers (se_tm x').
Proof.
  intros IN SH PT DS EN OE n p B query B'.
  assert ((fun d => (running d, socket_open d, dc_self d, info_hash_for_txn (txn_at txn_draw 20) (dc_mgr d))) <$> nd_dht n
    = Some (true, true, sample_id 1, Some (tf_info_hash sample_torrent))) as Ed' by (vm_compute; reflexivity).
  destruct (fmap_Some_1 _ _ _ Ed') as (d & Ed & E4). injection E4 as E1 E2 E3 E4. clear Ed'.
  assert (info_hash_hex <$> nd_sessions n !! 0%nat = Some (ih_hex (tf_info_hash sample_torrent))) as Ex' by (vm_compute; reflexivity).
  destruct (fmap_Some_1 _ _ _ Ex') as (x & Ex & Ehex). clear Ex'.
  destruct (stored_peer_reaches_torrents IN dotted_inet_ok SH PT DS EN EN OE id 6881 ∅ (sample_start ++ [(5, NFinish (fun _ => false))])
    d B 5 (txn_at txn_draw 20) (tf_info_hash sample_torrent) (mkPeer (str "10.0.0.1") 6881) p [49; 48; 46; 48])
    as (reply & rest & Es & H).
  - exact Ed.
  - exact (eq_sym E1).
  - exact (eq_sym E2).
  - rewrite <- E3. apply sample_id_ok.
  - apply (bool_decide_unpack _). vm_compute. exact I.
  - exact (eq_sym E4).
  - apply storing_node_ok.
  - reflexivity.
  - reflexivity.
  - vm_compute. reflexivity.
  - intros k. eexists. split; [reflexivity|discriminate].
  - split; [|cbn; lia]. exists [10; 0; 0; 5]. split; [apply (bool_decide_unpack _); vm_compute; exact I|vm_compute; reflexivity].
  - apply (bool_decide_unpack _). vm_compute. exact I.
  - rewrite <- E3. apply (bool_decide_unpack _). vm_compute. exact I.
  - rewrite <- E3 in Es. fold query in Es. fold B' in Es.
    assert ((fun o => bool_decide (length (out_msg o) <= MAX_DATAGRAM)%nat) <$> drop (length (sent B)) (sent B') !! 0%nat = Some true)
      as El by (vm_compute; reflexivity).
    rewrite Es, drop_app_length in El. cbn in El. injection El as El. apply bool_decide_eq_true in El.
    destruct (H El 6 (mkPeer (str "10.0.0.2") 6881) 0%nat x Ex) as [H1 _].
    destruct (H1 (eq_sym Ehex) [(7, NStop)]) as (x' & Hx' & _ & Hp).
    exists reply, x'. split; [rewrite Es; apply elem_of_app; right; left|]. split; [exact Hx'|exact Hp].
Defined.
