(* ===== verification/Socket.v ===== *)
(** * TCP and UDP sockets
    (inc/net/socket.h, src/net/socket.cpp, inc/net/socket_addresses.h; the receiving side
    of src/peer_wire/peer_connection.cpp)

    What the classes build from the system calls: loops over partial reads and writes,
    deadlines, the non-blocking connect, the ownership of the descriptor.  A system call is
    a function of the kernel's state [K] (class [Sys]); a member function is a program over
    it ([prog]), which ends with a value or an exception, or with the process: a write to a
    connection that is closed raises SIGPIPE, whose default action nothing in the client
    changes.  Times are nanoseconds of the steady clock.

    The theorems relate the loops to the byte stream the other components use
    ([TcpOk]): whatever the sizes in which the kernel delivers and accepts bytes,
    [recv_exact] is taking bytes off a list and [send] appending to one. *)

From S2P Require Import Prelude CxxLib ByteOrder Hash PeerMessage Ownership.

(** ** Programs *)

Inductive outcome (A : Type) :=
  | Done (r : result A)
  | Killed. (* by SIGPIPE *)
Arguments Done {A} r.
Arguments Killed {A}.

Section programs.
Context {K : Type}.

Definition prog (A : Type) : Type := K -> outcome A * K.

Definition ret {A} (a : A) : prog A := fun k => (Done (Ok a), k).
Definition throw {A} (e : exn) : prog A := fun k => (Done (Throw e), k).
Definition killed {A} : prog A := fun k => (Killed, k).
(** A system call. *)
Definition call {A} (f : K -> A * K) : prog A := fun k => let '(a, k') := f k in (Done (Ok a), k').
Definition bind {A B} (m : prog A) (f : A -> prog B) : prog B := fun k =>
  match m k with
  | (Done (Ok a), k') => f a k'
  | (Done (Throw e), k') => (Done (Throw e), k')
  | (Killed, k') => (Killed, k')
  end.
End programs.

Arguments prog : clear implicits.

Declare Scope prog_scope.
Delimit Scope prog_scope with prog.
Notation "x <- m ;; k" := (bind m (fun x => k)) (at level 100, m at next level, right associativity) : prog_scope.
Notation "m ;; k" := (bind m (fun _ => k)) (at level 100, right associativity) : prog_scope.
Local Open Scope prog_scope.

(** ** System calls *)

Inductive SendResult := Sent (n : nat) | SendFailed | BrokenPipe.
Inductive Events := POLLIN | POLLOUT.
(** [poll] returns a positive number, zero, or a negative one *)
Inductive PollResult := Ready | TimedOut | PollFailed.
Inductive ConnectResult := Connected | InProgress | Refused.
Inductive SockOpt := SO_REUSEADDR (v : Z) | IP_MULTICAST_TTL (v : Z) | IP_MULTICAST_IF (v : bytes).

(** Address families and flags of Linux *)
Definition AF_UNIX : Z := 1.
Definition AF_INET : Z := 2.
Definition AF_INET6 : Z := 10.
Definition O_NONBLOCK : Z := 2048.

(** [A]: what the calls take and return as an address.  [None] and [false] are the
    negative returns; the first argument is the descriptor. *)
Class Sys (A K : Type) := {
  sys_socket : Z -> bool -> K -> option Z * K;  (* domain, SOCK_STREAM? *)
  sys_send : Z -> bytes -> K -> SendResult * K;
  sys_recv : Z -> nat -> K -> option bytes * K;
  sys_poll : Z -> Events -> Z -> K -> PollResult * K;
  sys_now : K -> Z * K;
  sys_getfl : Z -> K -> option Z * K;
  sys_setfl : Z -> Z -> K -> bool * K;
  sys_connect : Z -> A -> K -> ConnectResult * K;
  sys_so_error : Z -> K -> option Z * K;
  sys_setsockopt : Z -> SockOpt -> K -> bool * K;
  sys_bind : Z -> A -> K -> bool * K;
  sys_listen : Z -> Z -> K -> bool * K;
  sys_accept : Z -> K -> option Z * K;
  sys_recvfrom : Z -> nat -> K -> option (bytes * A) * K;
  sys_sendto : Z -> bytes -> A -> K -> bool * K;
  sys_getsockname : Z -> K -> option A * K;
  sys_shutdown : Z -> K -> () * K;
  sys_close : Z -> K -> () * K;
  sys_inet_aton : bytes -> option bytes;
  addr_domain : A -> Z }.

Section sockets.
Context {A K : Type} {SY : Sys A K}.

(** ** TCP sockets *)

Record TCPSocket := mkTCP { s_sockfd : Z; s_domain : Z }.

Definition domain_ok (domain : Z) : bool :=
  (domain =? AF_UNIX) || (domain =? AF_INET) || (domain =? AF_INET6).

(** [TCPSocket(domain)] *)
Definition tcp_socket (domain : Z) : prog K TCPSocket :=
  if negb (domain_ok domain) then throw (RuntimeError "Domain has to be one of these three options")
  else ret (mkTCP (-1) domain).

(** [~TCPSocket] *)
Definition tcp_destroy (s : TCPSocket) : prog K () :=
  if s_sockfd s =? -1 then ret () else
  call (sys_shutdown (s_sockfd s));;
  call (sys_close (s_sockfd s)).

Definition poll_or_throw (fd : Z) (events : Events) (timeout_ms : Z) : prog K () :=
  r <- call (sys_poll fd events timeout_ms);;
  match r with
  | PollFailed => throw (RuntimeError "poll() failed")
  | TimedOut => throw (RuntimeError "timed out")
  | Ready => ret ()
  end.

(** [deadline] and [remaining_ms]: the difference is truncated to milliseconds and
    converted to [int]. *)
Definition deadline_after (timeout_ms : Z) : prog K Z :=
  now <- call sys_now;; ret (now + timeout_ms * 1000000).

Definition remaining (deadline : Z) : prog K Z :=
  now <- call sys_now;; ret (to_i32 (Z.quot (deadline - now) 1000000)).

(** The body of both sending loops: [send] some of the rest. *)
Definition send_some (fd : Z) (rest : bytes) : prog K nat :=
  r <- call (sys_send fd rest);;
  match r with
  | BrokenPipe => killed
  | Sent (S _ as n) => ret n
  | Sent O | SendFailed => throw (RuntimeError "send() failed")
  end.

(** Every round sends at least a byte. *)
Fixpoint send_loop (fuel : nat) (fd : Z) (buffer : bytes) (total_sent : nat) : prog K () :=
  if (total_sent <? length buffer)%nat then
    match fuel with
    | O => throw OutOfFuel
    | S fuel' =>
        n <- send_some fd (drop total_sent buffer);;
        send_loop fuel' fd buffer (total_sent + n)
    end
  else ret ().

Definition send (s : TCPSocket) (buffer : bytes) : prog K () :=
  send_loop (length buffer) (s_sockfd s) buffer 0.

Fixpoint send_timeout_loop (fuel : nat) (fd deadline : Z) (buffer : bytes) (total_sent : nat)
  : prog K () :=
  if (total_sent <? length buffer)%nat then
    match fuel with
    | O => throw OutOfFuel
    | S fuel' =>
        remaining_ms <- remaining deadline;;
        if remaining_ms <=? 0 then throw (RuntimeError "send() timed out") else
        poll_or_throw fd POLLOUT remaining_ms;;
        n <- send_some fd (drop total_sent buffer);;
        send_timeout_loop fuel' fd deadline buffer (total_sent + n)
    end
  else ret ().

Definition send_with_timeout (s : TCPSocket) (buffer : bytes) (timeout_ms : Z) : prog K () :=
  deadline <- deadline_after timeout_ms;;
  send_timeout_loop (length buffer) (s_sockfd s) deadline buffer 0.

(** The bytes written to the buffer. *)
Definition recv (s : TCPSocket) (size : nat) : prog K bytes :=
  r <- call (sys_recv (s_sockfd s) size);;
  match r with
  | None => throw (RuntimeError "recv() failed")
  | Some data => ret data
  end.

Definition recv_with_timeout (s : TCPSocket) (size : nat) (timeout_ms : Z) : prog K bytes :=
  poll_or_throw (s_sockfd s) POLLIN timeout_ms;;
  recv s size.

Definition RECV_BUFFER : nat := 4096.

(** The peer decides how long this loop runs. *)
Fixpoint recv_all_loop (fuel : nat) (s : TCPSocket) (result : bytes) : prog K bytes :=
  match fuel with
  | O => throw OutOfFuel
  | S fuel' =>
      data <- recv s RECV_BUFFER;;
      match data with
      | [] => ret result
      | _ => recv_all_loop fuel' s (result ++ data)
      end
  end.

Definition recv_all (fuel : nat) (s : TCPSocket) : prog K bytes := recv_all_loop fuel s [].

Fixpoint recv_all_timeout_loop (fuel : nat) (s : TCPSocket) (deadline : Z) (result : bytes)
  : prog K bytes :=
  match fuel with
  | O => throw OutOfFuel
  | S fuel' =>
      remaining_ms <- remaining deadline;;
      if remaining_ms <=? 0 then throw (RuntimeError "recv_all() timed out") else
      data <- recv_with_timeout s RECV_BUFFER remaining_ms;;
      match data with
      | [] => ret result
      | _ => recv_all_timeout_loop fuel' s deadline (result ++ data)
      end
  end.

Definition recv_all_with_timeout (fuel : nat) (s : TCPSocket) (timeout_ms : Z) : prog K bytes :=
  deadline <- deadline_after timeout_ms;;
  recv_all_timeout_loop fuel s deadline [].

(** [total] is the length of what has been received. *)
Fixpoint recv_exact_loop (fuel : nat) (s : TCPSocket) (n : nat) (buf : bytes) : prog K bytes :=
  if (length buf <? n)%nat then
    match fuel with
    | O => throw OutOfFuel
    | S fuel' =>
        got <- recv s (n - length buf);;
        match got with
        | [] => throw (RuntimeError "recv_exact: peer closed connection (EOF)")
        | _ => recv_exact_loop fuel' s n (buf ++ got)
        end
    end
  else ret buf.

Definition recv_exact (s : TCPSocket) (n : nat) : prog K bytes := recv_exact_loop n s n [].

Fixpoint recv_exact_timeout_loop (fuel : nat) (s : TCPSocket) (n : nat) (deadline : Z) (buf : bytes)
  : prog K bytes :=
  if (length buf <? n)%nat then
    match fuel with
    | O => throw OutOfFuel
    | S fuel' =>
        remaining_ms <- remaining deadline;;
        if remaining_ms <=? 0 then throw (RuntimeError "recv_exact_timeout: timed out") else
        got <- recv_with_timeout s (n - length buf) remaining_ms;;
        match got with
        | [] => throw (RuntimeError "recv_exact_timeout: peer closed connection (EOF)")
        | _ => recv_exact_timeout_loop fuel' s n deadline (buf ++ got)
        end
    end
  else ret buf.

Definition recv_exact_timeout (s : TCPSocket) (n : nat) (timeout_ms : Z) : prog K bytes :=
  deadline <- deadline_after timeout_ms;;
  recv_exact_timeout_loop n s n deadline [].

(** ** Servers and clients *)

(** The constructor of the base class has returned when [setsockopt] fails, so its
    destructor runs. *)
Definition server_socket (domain : Z) : prog K TCPSocket :=
  s <- tcp_socket domain;;
  fd <- call (sys_socket domain true);;
  match fd with
  | None => throw (RuntimeError "Failed to create socket")
  | Some fd =>
      ok <- call (sys_setsockopt fd (SO_REUSEADDR 1));;
      if negb ok then tcp_destroy (mkTCP fd (s_domain s));; throw (RuntimeError "setsockopt(SO_REUSEADDR) failed")
      else ret (mkTCP fd (s_domain s))
  end.

Definition tcp_bind (s : TCPSocket) (address : A) : prog K () :=
  if negb (addr_domain address =? s_domain s)
  then throw (RuntimeError "You are trying to bind to an address of wrong domain.") else
  ok <- call (sys_bind (s_sockfd s) address);;
  if negb ok then throw (RuntimeError "bind() failed") else ret ().

Definition listen (s : TCPSocket) (backlog : Z) : prog K () :=
  ok <- call (sys_listen (s_sockfd s) backlog);;
  if negb ok then throw (RuntimeError "listen() failed") else ret ().

Definition accept (s : TCPSocket) : prog K TCPSocket :=
  fd <- call (sys_accept (s_sockfd s));;
  match fd with
  | None => throw (RuntimeError "accept() failed")
  | Some fd => ret (mkTCP fd (s_domain s))
  end.

Definition client_socket (domain : Z) : prog K TCPSocket :=
  s <- tcp_socket domain;;
  fd <- call (sys_socket domain true);;
  match fd with
  | None => throw (RuntimeError "Failed to create socket")
  | Some fd => ret (mkTCP fd (s_domain s))
  end.

(** A blocking [connect] is never in progress. *)
Definition tcp_connect (s : TCPSocket) (address : A) : prog K () :=
  if negb (addr_domain address =? s_domain s)
  then throw (RuntimeError "You are trying to connect to an address of wrong domain.") else
  r <- call (sys_connect (s_sockfd s) address);;
  match r with
  | Connected => ret ()
  | InProgress | Refused => throw (RuntimeError "connect() failed")
  end.

(** [fcntl(fd, F_SETFL, flags)] with its result ignored *)
Definition restore (fd flags : Z) : prog K () :=
  call (sys_setfl fd flags);; ret ().

(** Steps 3 to 5 of [connect_with_timeout]: wait, ask for the error, restore. *)
Definition finish_connect (fd flags timeout_ms : Z) : prog K () :=
  p <- call (sys_poll fd POLLOUT timeout_ms);;
  match p with
  | PollFailed => restore fd flags;; throw (RuntimeError "poll() failed")
  | TimedOut => restore fd flags;; throw (RuntimeError "connect() timed out")
  | Ready =>
      so_error <- call (sys_so_error fd);;
      match so_error with
      | None => restore fd flags;; throw (RuntimeError "getsockopt(SO_ERROR) failed")
      | Some so_error =>
          restore fd flags;;
          if negb (so_error =? 0) then throw (RuntimeError "connect() failed") else ret ()
      end
  end.

Definition connect_with_timeout (s : TCPSocket) (address : A) (timeout_ms : Z) : prog K () :=
  if negb (addr_domain address =? s_domain s)
  then throw (RuntimeError "You are trying to connect to an address of wrong domain.") else
  let fd := s_sockfd s in
  flags <- call (sys_getfl fd);;
  match flags with
  | None => throw (RuntimeError "fcntl(F_GETFL) failed")
  | Some flags =>
      ok <- call (sys_setfl fd (Z.lor flags O_NONBLOCK));;
      if negb ok then throw (RuntimeError "fcntl(F_SETFL) failed") else
      r <- call (sys_connect fd address);;
      match r with
      | Refused => restore fd flags;; throw (RuntimeError "connect() failed")
      | Connected => restore fd flags
      | InProgress => finish_connect fd flags timeout_ms
      end
  end.

(** ** UDP sockets *)

Record UDPSocket := mkUDP { u_sockfd : Z; u_domain : Z }.

Definition MAX_UDP_PAYLOAD : nat := Z.to_nat 65507.

Definition udp_socket (domain : Z) : prog K UDPSocket :=
  if negb (domain_ok domain) then throw (RuntimeError "Domain has to be one of these three options") else
  fd <- call (sys_socket domain false);;
  match fd with
  | None => throw (RuntimeError "Failed to create socket")
  | Some fd => ret (mkUDP fd domain)
  end.

(** [close], which the destructor repeats *)
Definition udp_close (s : UDPSocket) : prog K UDPSocket :=
  if u_sockfd s =? -1 then ret s else
  call (sys_close (u_sockfd s));; ret (mkUDP (-1) (u_domain s)).

Definition recvfrom (s : UDPSocket) : prog K (bytes * A) :=
  r <- call (sys_recvfrom (u_sockfd s) MAX_UDP_PAYLOAD);;
  match r with
  | None => throw (RuntimeError "recvfrom() failed")
  | Some m => ret m
  end.

Definition recvfrom_with_timeout (s : UDPSocket) (timeout_ms : Z) : prog K (bytes * A) :=
  poll_or_throw (u_sockfd s) POLLIN timeout_ms;;
  recvfrom s.

Definition sendto (s : UDPSocket) (message : bytes) (dst_address : A) : prog K () :=
  ok <- call (sys_sendto (u_sockfd s) message dst_address);;
  if negb ok then throw (RuntimeError "sendto() failed") else ret ().

Definition local_address (s : UDPSocket) : prog K A :=
  if (u_domain s =? AF_INET) || (u_domain s =? AF_INET6) then
    r <- call (sys_getsockname (u_sockfd s));;
    match r with
    | None => throw (RuntimeError "getsockname() failed")
    | Some a => ret a
    end
  else throw (RuntimeError "local_address(): unsupported socket domain").

(** [set_multicast_ttl]: the value is cast to [u_char]. *)
Definition set_multicast_ttl (s : UDPSocket) (ttl : Z) : prog K () :=
  if negb (u_domain s =? AF_INET) then ret () else
  ok <- call (sys_setsockopt (u_sockfd s) (IP_MULTICAST_TTL (u8 ttl)));;
  if negb ok then throw (RuntimeError "setsockopt(IP_MULTICAST_TTL) failed") else ret ().

Definition set_multicast_if (s : UDPSocket) (iface : bytes) : prog K () :=
  if negb (u_domain s =? AF_INET) then ret () else
  ok <- call (sys_setsockopt (u_sockfd s) (IP_MULTICAST_IF iface));;
  if negb ok then throw (RuntimeError "setsockopt(IP_MULTICAST_IF) failed") else ret ().

Definition set_multicast_if_string (s : UDPSocket) (iface_ip : bytes) : prog K () :=
  match sys_inet_aton iface_ip with
  | None => throw (RuntimeError "set_multicast_if: invalid IP address")
  | Some addr => set_multicast_if s addr
  end.

Definition udp_bind (s : UDPSocket) (address : A) : prog K () :=
  if negb (addr_domain address =? u_domain s)
  then throw (RuntimeError "You are trying to bind to an address of wrong domain.") else
  opt <- call (sys_setsockopt (u_sockfd s) (SO_REUSEADDR 1));;
  if negb opt then throw (RuntimeError "setsockopt(SO_REUSEADDR) failed") else
  ok <- call (sys_bind (u_sockfd s) address);;
  if negb ok then throw (RuntimeError "bind() failed") else ret ().

Definition udp_connect (s : UDPSocket) (address : A) : prog K () :=
  if negb (addr_domain address =? u_domain s)
  then throw (RuntimeError "connect(): address domain does not match socket domain") else
  r <- call (sys_connect (u_sockfd s) address);;
  match r with
  | Connected => ret ()
  | InProgress | Refused => throw (RuntimeError "connect() failed")
  end.

(** ** The framing of a peer connection *)

(** The body of both receiving functions, over the way they read [n] bytes. *)
Definition recv_framed (recv_bytes : nat -> prog K bytes) : prog K (option PeerMessage) :=
  len_buf <- recv_bytes 4%nat;;
  let l := read_be32 len_buf in
  if l =? 0 then ret None else
  if 2 ^ 24 <? l then throw (RuntimeError "message length exceeds sanity limit") else
  body <- recv_bytes (Z.to_nat l);;
  match body with
  | b :: payload => ret (Some (mkPM (byte_id b) payload))
  | [] => throw (Undefined "body[0] of an empty vector")
  end.

(** [PeerConnection::recv_message] *)
Definition recv_message_blocking (s : TCPSocket) : prog K (option PeerMessage) := recv_framed (recv_exact s).

(** [PeerConnection::recv_message_timeout] *)
Definition recv_message_timeout (s : TCPSocket) (timeout_ms : Z) : prog K (option PeerMessage) :=
  recv_framed (fun n => recv_exact_timeout s n timeout_ms).
End sockets.

(** ** Who closes a descriptor *)

Definition descriptor (fd : Z) : list Z := if fd =? -1 then [] else [fd].

(** Only the destructor and the move assignment of a [TCPSocket] close its descriptor; the
    destructor shuts the connection down first. *)
#[global] Instance tcp_movable : Movable TCPSocket Z := {|
  holds s := descriptor (s_sockfd s);
  give_back s := (mkTCP (-1) (s_domain s), descriptor (s_sockfd s));
  after_move s := mkTCP (-1) (s_domain s);
  can_close := false |}.

#[global] Instance udp_movable : Movable UDPSocket Z := {|
  holds s := descriptor (u_sockfd s);
  give_back s := (mkUDP (-1) (u_domain s), descriptor (u_sockfd s));
  after_move s := mkUDP (-1) (u_domain s);
  can_close := true |}.

#[global] Instance tcp_movable_ok : MovableOk TCPSocket Z.
Proof. by split. Qed.
#[global] Instance udp_movable_ok : MovableOk UDPSocket Z.
Proof. by split. Qed.

(** Whatever sockets a program constructs, moves, closes and destroys, every descriptor
    that was opened belongs to one live socket or has been closed once. *)
Lemma descriptors_closed_once (tcp : list (ObjectOp TCPSocket)) (udp : list (ObjectOp UDPSocket)) :
  (let st := object_run tcp in created_by (∅, []) tcp ≡ₚ owned st.1 ++ st.2)
  /\ (let st := object_run udp in created_by (∅, []) udp ≡ₚ owned st.1 ++ st.2).
Proof. split; apply object_run_owned. Qed.

(** A socket is accepted, moved into a connection, and destroyed; a UDP socket is closed
    and then destroyed. *)
Example sample_sockets :
  (object_run [Created 0%nat (mkTCP 7 AF_INET); MoveConstruct 1%nat 0%nat; Destroy 0%nat; Destroy 1%nat]).2 = [7]
  /\ (object_run [Created 0%nat (mkUDP 9 AF_INET); Close 0%nat; Destroy 0%nat]).2 = [9].
Proof. split; reflexivity. Qed.

(** ** What a program ends with *)

Definition wp {K X} (m : prog K X) (k : K) (Q : outcome X -> K -> Prop) : Prop := Q (m k).1 (m k).2.

Lemma wp_mono {K X} (m : prog K X) k (Q R : outcome X -> K -> Prop) :
  wp m k Q -> (forall o k', Q o k' -> R o k') -> wp m k R.
Proof. unfold wp. auto. Qed.

Lemma wp_bind {K X Y} (m : prog K X) (f : X -> prog K Y) k Q :
  wp m k (fun o k' => match o with
                      | Done (Ok a) => wp (f a) k' Q
                      | Done (Throw e) => Q (Done (Throw e)) k'
                      | Killed => Q Killed k'
                      end) ->
  wp (bind m f) k Q.
Proof. unfold wp, bind. by destruct (m k) as [[[a|e]|] k']. Qed.

Lemma wp_call {K X} (f : K -> X * K) k (Q : outcome X -> K -> Prop) :
  (forall a k', f k = (a, k') -> Q (Done (Ok a)) k') -> wp (call f) k Q.
Proof. unfold wp, call. destruct (f k) as [a k']. cbn. auto. Qed.

Lemma wp_bind_assoc {K X Y Z} (m : prog K X) (f : X -> prog K Y) (g : Y -> prog K Z) k Q :
  wp (bind m (fun x => bind (f x) g)) k Q -> wp (bind (bind m f) g) k Q.
Proof. unfold wp, bind. by destruct (m k) as [[[a|e]|] k']. Qed.

Ltac wp_step :=
  match goal with
  | |- wp (bind _ _) _ _ => apply wp_bind
  | |- wp (call _) _ _ => apply wp_call; intros ? ? ?
  | |- wp (ret _) _ _ => red; cbn
  | |- wp (throw _) _ _ => red; cbn
  end.

(** ** TCP as a byte stream

    [arriving k] is what the peer will have sent before it closes the connection or the
    connection fails, less what has been received; [sent k] is what the kernel has
    accepted.  The kernel may deliver and accept any number of bytes at a time; an empty
    delivery is the end of the stream. *)
Class TcpOk {A K} {SY : Sys A K} (fd : Z) (arriving sent : K -> bytes) : Prop := {
  recv_delivers n k c k' : sys_recv fd n k = (Some c, k') ->
    arriving k = c ++ arriving k' /\ sent k' = sent k
    /\ (length c <= n)%nat /\ (c = [] -> (0 < n)%nat -> arriving k = []);
  recv_fails n k k' : sys_recv fd n k = (None, k') -> sent k' = sent k;
  send_accepts d k n k' : sys_send fd d k = (Sent n, k') ->
    (n <= length d)%nat /\ sent k' = sent k ++ take n d /\ arriving k' = arriving k;
  send_refuses d k r k' : sys_send fd d k = (r, k') -> (forall n, r <> Sent n) ->
    sent k' = sent k /\ arriving k' = arriving k;
  poll_keeps ev t k r k' : sys_poll fd ev t k = (r, k') -> sent k' = sent k /\ arriving k' = arriving k;
  now_keeps k t k' : sys_now k = (t, k') -> sent k' = sent k /\ arriving k' = arriving k }.

(** The exceptions of failing system calls and expired deadlines. *)
Definition system_failures : list exn :=
  [RuntimeError "recv() failed"; RuntimeError "poll() failed"; RuntimeError "timed out";
   RuntimeError "recv_exact_timeout: timed out"; RuntimeError "recv_all() timed out";
   RuntimeError "send() failed"; RuntimeError "send() timed out";
   RuntimeError "SSL_read() failed"; RuntimeError "SSL_write() failed"].
Definition system_failure (e : exn) : Prop := e ∈ system_failures.

#[global] Instance system_failure_dec e : Decision (system_failure e).
Proof. unfold system_failure. apply _. Defined.

Section stream.
Context {A K : Type} {SY : Sys A K} {arriving sent : K -> bytes}.
Context (s : TCPSocket) {OK : TcpOk (s_sockfd s) arriving sent}.

Lemma now_wp k Q :
  (forall t k', sent k' = sent k -> arriving k' = arriving k -> Q (Done (Ok t)) k') -> wp (call sys_now) k Q.
Proof. intros H. apply wp_call. intros t k' E. destruct (now_keeps _ _ _ E). auto. Qed.

Lemma deadline_wp t k Q :
  (forall d k', sent k' = sent k -> arriving k' = arriving k -> Q (Done (Ok d)) k') -> wp (deadline_after t) k Q.
Proof. intros H. unfold deadline_after. wp_step. apply now_wp. intros. wp_step. auto. Qed.

Lemma remaining_wp d k Q :
  (forall t k', sent k' = sent k -> arriving k' = arriving k -> Q (Done (Ok t)) k') -> wp (remaining d) k Q.
Proof. intros H. unfold remaining. wp_step. apply now_wp. intros. wp_step. auto. Qed.

Lemma poll_wp ev t k (Q : outcome () -> K -> Prop) :
  (forall k', sent k' = sent k -> arriving k' = arriving k ->
     Q (Done (Ok ())) k' /\ forall e, system_failure e -> Q (Done (Throw e)) k') ->
  wp (poll_or_throw (s_sockfd s) ev t) k Q.
Proof.
  intros H. unfold poll_or_throw. wp_step. apply wp_call. intros r k' E.
  destruct (poll_keeps _ _ _ _ _ E) as [Es Ea]. destruct (H k' Es Ea) as [Hok Hfail].
  destruct r; wp_step; [done|..]; apply Hfail; by apply (bool_decide_unpack _).
Qed.

(** *** Receiving *)

(** One delivery of at most [n] bytes. *)
Definition delivers (n : nat) (k : K) (o : outcome bytes) (k' : K) : Prop :=
  sent k' = sent k /\
  match o with
  | Done (Ok c) =>
      arriving k = c ++ arriving k' /\ (length c <= n)%nat /\ (c = [] -> (0 < n)%nat -> arriving k = [])
  | Done (Throw e) => system_failure e
  | Killed => False
  end.

Lemma recv_wp n k : wp (recv s n) k (delivers n k).
Proof.
  unfold recv. wp_step. apply wp_call. intros [c|] k' E; wp_step.
  - destruct (recv_delivers _ _ _ _ E) as (? & ? & ? & ?). done.
  - split; [by apply (recv_fails _ _ _ E)|by apply (bool_decide_unpack _)].
Qed.

Lemma recv_with_timeout_wp n t k : wp (recv_with_timeout s n t) k (delivers n k).
Proof.
  unfold recv_with_timeout. wp_step. apply poll_wp. intros k' Es Ea. split; [|by split].
  eapply wp_mono; [apply recv_wp|]. intros o k'' [Es' H]. split; [congruence|]. by rewrite <- Ea.
Qed.

(** Receiving exactly [n] bytes: what [PeerMessage.recv_exact] takes off the stream, or a
    failing system call, or a stream that ends first. *)
Definition eof (e : exn) : Prop :=
  e = RuntimeError "recv_exact: peer closed connection (EOF)"
  \/ e = RuntimeError "recv_exact_timeout: peer closed connection (EOF)".

Definition reads (n : nat) (k : K) (o : outcome bytes) (k' : K) : Prop :=
  sent k' = sent k /\
  match o with
  | Done (Ok b) => PeerMessage.recv_exact n (arriving k) = Ok (b, arriving k')
  | Done (Throw e) => system_failure e \/ (eof e /\ (length (arriving k) < n)%nat)
  | Killed => False
  end.

Lemma recv_exact_split n b rest :
  length b = n -> PeerMessage.recv_exact n (b ++ rest) = Ok (b, rest).
Proof. intros <-. apply recv_exact_app. Qed.

(** What has been received so far, with the rest. *)
Definition reads_on (n : nat) (buf : bytes) (k : K) (o : outcome bytes) (k' : K) : Prop :=
  sent k' = sent k /\
  match o with
  | Done (Ok b) => length b = n /\ buf ++ arriving k = b ++ arriving k'
  | Done (Throw e) => system_failure e \/ (eof e /\ (length (buf ++ arriving k) < n)%nat)
  | Killed => False
  end.

Lemma reads_on_nil n k o k' : reads_on n [] k o k' -> reads n k o k'.
Proof.
  intros [Es H]. split; [done|]. destruct o as [[b|e]|]; [|done..].
  destruct H as [Hl E]. cbn in E. rewrite E. by apply recv_exact_split.
Qed.

Lemma reads_on_step n buf k got k' o k'' :
  sent k' = sent k -> arriving k = got ++ arriving k' ->
  reads_on n (buf ++ got) k' o k'' -> reads_on n buf k o k''.
Proof.
  intros Es Ea [Es' H]. split; [congruence|]. rewrite Ea, app_assoc. by destruct o as [[]|].
Qed.

(** The two loops differ in how one delivery is awaited and in the message at the end of
    the stream. *)
Lemma exact_round_wp n buf k m e rest :
  (length buf < n)%nat -> eof e ->
  wp m k (delivers (n - length buf) k) ->
  (forall got k', got <> [] -> (length got <= n - length buf)%nat ->
     wp (rest got) k' (reads_on n (buf ++ got) k')) ->
  wp (bind m (fun got => match got with [] => throw e | _ => rest got end)) k (reads_on n buf k).
Proof.
  intros Hl He Hm Hrest. wp_step. eapply wp_mono; [exact Hm|]. clear Hm. intros o k' [Es H].
  destruct o as [[got|e']|]; [|by split; [|left]|done].
  destruct H as (Ea & Hgot & Hend). destruct got as [|x got].
  - wp_step. split; [done|]. right. split; [done|]. rewrite Hend, app_nil_r by (done || lia). done.
  - eapply wp_mono; [by apply Hrest|]. intros o' k''. by apply reads_on_step.
Qed.

Lemma recv_exact_loop_wp fuel n buf k :
  (length buf <= n)%nat -> (n - length buf <= fuel)%nat ->
  wp (recv_exact_loop fuel s n buf) k (reads_on n buf k).
Proof.
  revert buf k. induction fuel as [|fuel IH]; intros buf k Hl Hf; cbn [recv_exact_loop]; case_if; b2p;
    try lia; try (wp_step; split; [done|split; [lia|done]]).
  apply (exact_round_wp n buf k _ _ (fun got => recv_exact_loop fuel s n (buf ++ got)));
    [done|by left|apply recv_wp|].
  intros [|x got] k' Hne Hgot; [done|]. apply IH; rewrite length_app; cbn in *; lia.
Qed.

Lemma recv_exact_wp n k : wp (recv_exact s n) k (reads n k).
Proof.
  eapply wp_mono; [apply recv_exact_loop_wp; cbn; lia|]. intros o k'. apply reads_on_nil.
Qed.

Lemma recv_exact_timeout_loop_wp fuel n d buf k :
  (length buf <= n)%nat -> (n - length buf <= fuel)%nat ->
  wp (recv_exact_timeout_loop fuel s n d buf) k (reads_on n buf k).
Proof.
  revert buf k. induction fuel as [|fuel IH]; intros buf k Hl Hf; cbn [recv_exact_timeout_loop]; case_if; b2p;
    try lia; try (wp_step; split; [done|split; [lia|done]]).
  wp_step. apply remaining_wp. intros t k1 Es Ea. case_if.
  { wp_step. split; [done|]. left. by apply (bool_decide_unpack _). }
  eapply wp_mono; [apply (exact_round_wp n buf k1 _ _ (fun got => recv_exact_timeout_loop fuel s n d (buf ++ got)));
    [done|by right|apply recv_with_timeout_wp|]|].
  - intros [|x got] k' Hne Hgot; [done|]. apply IH; rewrite length_app; cbn in *; lia.
  - intros o k'. unfold reads_on. by rewrite Es, Ea.
Qed.

Lemma recv_exact_timeout_wp n t k : wp (recv_exact_timeout s n t) k (reads n k).
Proof.
  unfold recv_exact_timeout. wp_step. apply deadline_wp. intros d k1 Es Ea.
  eapply wp_mono; [apply recv_exact_timeout_loop_wp; cbn; lia|]. intros o k' H.
  apply reads_on_nil in H. unfold reads in *. by rewrite <- Es, <- Ea.
Qed.

(** Reading a message: what [PeerMessage.recv_message] reads from the stream, with the same
    refusals, unless a system call fails. *)
Definition reads_message (k : K) (o : outcome (option PeerMessage)) (k' : K) : Prop :=
  sent k' = sent k /\
  match o with
  | Done (Ok m) => recv_message (arriving k) = Ok (m, arriving k')
  | Done (Throw e) => system_failure e \/ is_ok (recv_message (arriving k)) = false
  | Killed => False
  end.

Lemma recv_exact_short n stream :
  (length stream < n)%nat -> PeerMessage.recv_exact n stream = Throw (RuntimeError "connection closed or timed out").
Proof. intros H. unfold PeerMessage.recv_exact. by rewrite (proj2 (Nat.ltb_lt _ _)). Qed.

Lemma recv_framed_wp rd k : (forall n k, wp (rd n) k (reads n k)) -> wp (recv_framed rd) k (reads_message k).
Proof.
  intros Hrd. unfold recv_framed. wp_step. eapply wp_mono; [apply Hrd|].
  intros o k1 [Es H]. unfold reads_message, recv_message.
  destruct o as [[b|e]|]; [| |done].
  2: { split; [done|]. destruct H as [H|[_ H]]; [by left|right]. by rewrite recv_exact_short. }
  rewrite H. cbn [mbind result_bind]. destruct (read_be32 b =? 0) eqn:E0; [by wp_step|].
  destruct (2 ^ 24 <? read_be32 b) eqn:E1; [wp_step; split; [done|by right]|]. cbn [throw_if mbind result_bind].
  wp_step. eapply wp_mono; [apply Hrd|]. intros o k2 [Es2 H2]. rewrite <- Es.
  destruct o as [[body|e]|]; [| |done].
  - rewrite H2. cbn [mbind result_bind]. destruct body; wp_step; split; try done. by right.
  - split; [done|]. destruct H2 as [H2|[_ H2]]; [by left|right]. by rewrite recv_exact_short.
Qed.

Lemma recv_message_timeout_wp t k : wp (recv_message_timeout s t) k (reads_message k).
Proof. apply recv_framed_wp. intros n k'. apply recv_exact_timeout_wp. Qed.

(** Without a time-out the same messages are read. *)
Lemma recv_message_blocking_wp k : wp (recv_message_blocking s) k (reads_message k).
Proof. apply recv_framed_wp. intros n k'. apply recv_exact_wp. Qed.

(** Receiving until the end of the stream. *)
Definition reads_all (fuel : nat) (k : K) (buf : bytes) (o : outcome bytes) (k' : K) : Prop :=
  sent k' = sent k /\
  match o with
  | Done (Ok b) => b = buf ++ arriving k /\ arriving k' = []
  | Done (Throw e) => system_failure e \/ (e = OutOfFuel /\ (fuel <= length (arriving k))%nat)
  | Killed => False
  end.

Lemma all_round_wp fuel buf k m rest :
  wp m k (delivers RECV_BUFFER k) ->
  (forall got k', got <> [] -> wp (rest got) k' (reads_all fuel k' (buf ++ got))) ->
  wp (bind m (fun got => match got with [] => ret buf | _ => rest got end)) k (reads_all (S fuel) k buf).
Proof.
  intros Hm Hrest. wp_step. eapply wp_mono; [exact Hm|]. clear Hm. intros o k' [Es H].
  destruct o as [[got|e]|]; [|by split; [|left]|done].
  destruct H as (Ea & Hgot & Hend). destruct got as [|x got].
  - wp_step. split; [done|]. specialize (Hend eq_refl ltac:(unfold RECV_BUFFER; lia)).
    cbn in Ea. rewrite <- Ea, Hend, app_nil_r. done.
  - eapply wp_mono; [by apply Hrest|]. intros o' k'' [Es' H']. split; [congruence|]. rewrite Ea.
    destruct o' as [[b|e]|]; [by rewrite app_assoc| |done].
    destruct H' as [H'|[H' Hf]]; [by left|right]. split; [done|]. rewrite length_app. cbn. lia.
Qed.

Lemma recv_all_loop_wp fuel buf k : wp (recv_all_loop fuel s buf) k (reads_all fuel k buf).
Proof.
  revert buf k. induction fuel as [|fuel IH]; intros buf k; cbn [recv_all_loop].
  { wp_step. split; [done|]. right. split; [done|lia]. }
  apply (all_round_wp fuel buf k _ (fun got => recv_all_loop fuel s (buf ++ got))); [apply recv_wp|auto].
Qed.

Lemma recv_all_timeout_loop_wp fuel d buf k :
  wp (recv_all_timeout_loop fuel s d buf) k (reads_all fuel k buf).
Proof.
  revert buf k. induction fuel as [|fuel IH]; intros buf k; cbn [recv_all_timeout_loop].
  { wp_step. split; [done|]. right. split; [done|lia]. }
  wp_step. apply remaining_wp. intros t k1 Es Ea. case_if.
  { wp_step. split; [done|]. left. by apply (bool_decide_unpack _). }
  eapply wp_mono; [apply (all_round_wp fuel buf k1 _ (fun got => recv_all_timeout_loop fuel s d (buf ++ got)));
    [apply recv_with_timeout_wp|auto]|].
  intros o k'. unfold reads_all. by rewrite Es, Ea.
Qed.

Lemma recv_all_with_timeout_wp fuel t k : wp (recv_all_with_timeout fuel s t) k (reads_all fuel k []).
Proof.
  unfold recv_all_with_timeout. wp_step. apply deadline_wp. intros d k1 Es Ea.
  eapply wp_mono; [apply recv_all_timeout_loop_wp|]. intros o k'. unfold reads_all. by rewrite Es, Ea.
Qed.

(** *** Sending *)

(** All of the buffer, or a proper prefix of it and no return. *)
Definition writes (buffer : bytes) (k : K) (o : outcome ()) (k' : K) : Prop :=
  arriving k' = arriving k /\
  match o with
  | Done (Ok _) => sent k' = sent k ++ buffer
  | Done (Throw e) => system_failure e /\ exists n, (n < length buffer)%nat /\ sent k' = sent k ++ take n buffer
  | Killed => exists n, (n < length buffer)%nat /\ sent k' = sent k ++ take n buffer
  end.

(** One [::send]. *)
Definition writes_some (rest : bytes) (k : K) (o : outcome nat) (k' : K) : Prop :=
  arriving k' = arriving k /\
  match o with
  | Done (Ok n) => (0 < n <= length rest)%nat /\ sent k' = sent k ++ take n rest
  | Done (Throw e) => system_failure e /\ sent k' = sent k
  | Killed => sent k' = sent k
  end.

Lemma send_some_wp rest k : wp (send_some (s_sockfd s) rest) k (writes_some rest k).
Proof.
  unfold send_some. wp_step. apply wp_call. intros r k' E. destruct r as [[|n]| |].
  - destruct (send_accepts _ _ _ _ E) as (_ & Es & Ea). cbn in Es. rewrite app_nil_r in Es.
    wp_step. split; [done|]. split; [by apply (bool_decide_unpack _)|done].
  - destruct (send_accepts _ _ _ _ E) as (Hn & Es & Ea). wp_step. split; [done|]. split; [lia|done].
  - destruct (send_refuses _ _ _ _ E ltac:(done)) as [Es Ea]. wp_step. split; [done|].
    split; [by apply (bool_decide_unpack _)|done].
  - destruct (send_refuses _ _ _ _ E ltac:(done)) as [Es Ea]. by split.
Qed.

(** From [total] on. *)
Definition writes_on (buffer : bytes) (total : nat) (k : K) (o : outcome ()) (k' : K) : Prop :=
  writes (drop total buffer) k o k'.

Lemma writes_step rest n k k' o k'' :
  (n <= length rest)%nat -> arriving k' = arriving k -> sent k' = sent k ++ take n rest ->
  writes (drop n rest) k' o k'' -> writes rest k o k''.
Proof.
  intros Hn Ea Es [Ea' H]. split; [congruence|].
  assert (forall m, sent k ++ take n rest ++ take m (drop n rest) = sent k ++ take (n + m) rest) as Et
    by (intros m; by rewrite take_take_drop).
  rewrite Es in H. destruct o as [[u|e]|].
  - by rewrite H, <- app_assoc, take_drop.
  - destruct H as (He & m & Hm & H). rewrite length_drop in Hm. split; [done|]. exists (n + m)%nat.
    split; [lia|]. by rewrite H, <- app_assoc.
  - destruct H as (m & Hm & H). rewrite length_drop in Hm. exists (n + m)%nat.
    split; [lia|]. by rewrite H, <- app_assoc.
Qed.

Lemma send_round_wp buffer total k m rest :
  (total < length buffer)%nat ->
  wp m k (writes_some (drop total buffer) k) ->
  (forall n k', (0 < n)%nat -> (total + n <= length buffer)%nat -> wp (rest n) k' (writes_on buffer (total + n) k')) ->
  wp (bind m rest) k (writes_on buffer total k).
Proof.
  intros Hl Hm Hrest. wp_step. eapply wp_mono; [exact Hm|]. clear Hm. intros o k' [Ea H].
  assert (0 < length (drop total buffer))%nat as Hpos by (rewrite length_drop; lia).
  destruct o as [[n|e]|].
  - destruct H as [Hn Es]. rewrite length_drop in Hn. eapply wp_mono; [apply Hrest; lia|].
    intros o k'' H. apply (writes_step _ n k k'); [rewrite length_drop; lia|done..|].
    by rewrite drop_drop.
  - destruct H as [He Es]. split; [done|]. split; [done|]. exists 0%nat. by rewrite app_nil_r.
  - split; [done|]. exists 0%nat. by rewrite app_nil_r.
Qed.

Lemma writes_done buffer total k : (length buffer <= total)%nat -> writes_on buffer total k (Done (Ok ())) k.
Proof. intros H. split; [done|]. by rewrite drop_ge, app_nil_r. Qed.

Lemma send_loop_wp fuel buffer total k :
  (length buffer - total <= fuel)%nat ->
  wp (send_loop fuel (s_sockfd s) buffer total) k (writes_on buffer total k).
Proof.
  revert total k. induction fuel as [|fuel IH]; intros total k Hf; cbn [send_loop]; case_if; b2p;
    try lia; try (wp_step; by apply writes_done).
  apply send_round_wp; [done|apply send_some_wp|]. intros n k' Hn Hl. apply IH. lia.
Qed.

Lemma send_wp buffer k : wp (send s buffer) k (writes buffer k).
Proof. exact (send_loop_wp (length buffer) buffer 0 k ltac:(lia)). Qed.

Lemma send_timeout_loop_wp fuel d buffer total k :
  (length buffer - total <= fuel)%nat ->
  wp (send_timeout_loop fuel (s_sockfd s) d buffer total) k (writes_on buffer total k).
Proof.
  revert total k. induction fuel as [|fuel IH]; intros total k Hf; cbn [send_timeout_loop]; case_if; b2p;
    try lia; try (wp_step; by apply writes_done).
  assert (forall k' e, sent k' = sent k -> arriving k' = arriving k -> system_failure e ->
    writes_on buffer total k (Done (Throw e)) k') as Hfail.
  { intros k' e Es Ea He. split; [done|]. split; [done|]. exists 0%nat. rewrite length_drop, app_nil_r. split; [lia|done]. }
  wp_step. apply remaining_wp. intros t k1 Es Ea. case_if.
  { wp_step. apply Hfail; [done..|]. by apply (bool_decide_unpack _). }
  wp_step. apply poll_wp. intros k2 Es2 Ea2. split; [|intros e He; apply Hfail; congruence].
  eapply wp_mono; [apply send_round_wp; [done|apply send_some_wp|]; intros n k' Hn Hl; apply IH; lia|].
  intros o k' H. unfold writes_on, writes in *. by rewrite Es2, Ea2, Es, Ea in H.
Qed.

Lemma send_with_timeout_wp buffer t k : wp (send_with_timeout s buffer t) k (writes buffer k).
Proof.
  unfold send_with_timeout. wp_step. apply deadline_wp. intros d k1 Es Ea.
  eapply wp_mono; [apply send_timeout_loop_wp; lia|]. intros o k' H.
  unfold writes_on, writes in *. by rewrite drop_0, Es, Ea in H.
Qed.
End stream.

(** *** Deadlines

    [clock k]: the time; only waiting takes time, and never more than was asked for. *)
Class TimeOk {A K} {SY : Sys A K} (fd : Z) (clock : K -> Z) : Prop := {
  now_tells k t k' : sys_now k = (t, k') -> t = clock k /\ clock k' = clock k;
  poll_waits ev t k r k' : 0 <= t -> sys_poll fd ev t k = (r, k') ->
    clock k <= clock k' <= clock k + t * 1000000;
  recv_instant n k r k' : sys_recv fd n k = (r, k') -> clock k' = clock k;
  send_instant d k r k' : sys_send fd d k = (r, k') -> clock k' = clock k }.

Section deadline.
Context {A K : Type} {SY : Sys A K} {clock : K -> Z}.
Context (s : TCPSocket) {OK : TimeOk (s_sockfd s) clock}.

Definition by_deadline {X} (d : Z) (o : outcome X) (k' : K) : Prop := clock k' <= d.

Lemma remaining_exact d k Q :
  clock k <= d < clock k + 2 ^ 31 * 1000000 ->
  (forall k', clock k' = clock k -> Q (Done (Ok ((d - clock k) / 1000000))) k') -> wp (remaining d) k Q.
Proof.
  intros Hd H. unfold remaining. wp_step. apply wp_call. intros t k' E.
  destruct (now_tells _ _ _ E) as [-> Ek]. wp_step. rewrite Z.quot_div_nonneg by lia.
  replace (to_i32 ((d - clock k) / 1000000)) with ((d - clock k) / 1000000); [auto|].
  assert (0 <= (d - clock k) / 1000000 < 2 ^ 31) as Hq.
  { split; [apply Z.div_pos; lia|]. apply Z.div_lt_upper_bound; lia. }
  unfold to_i32, to_signed. rewrite Z.mod_small by lia. by rewrite (proj2 (Z.ltb_lt _ _)) by lia.
Qed.

Definition in_time (d : Z) (k : K) : Prop := clock k <= d < clock k + 2 ^ 31 * 1000000.

(** A round of a loop with a deadline: compute what remains, give up ... *)
Lemma round_timed {X} d k e (m : Z -> prog K X) :
  in_time d k ->
  (forall t k', clock k' = clock k -> 0 < t -> clock k' + t * 1000000 <= d -> wp (m t) k' (by_deadline d)) ->
  wp (bind (remaining d) (fun t => if t <=? 0 then throw e else m t)) k (by_deadline d).
Proof.
  intros Hd Hm. wp_step. apply remaining_exact; [done|]. red in Hd.
  intros k1 E1. case_if; [wp_step; red; lia|]. b2p. apply Hm; [done|done|].
  pose proof (Z.mul_div_le (d - clock k) 1000000). lia.
Qed.

(** ... or wait that long. *)
Lemma poll_timed {X} ev t d k (rest : prog K X) :
  0 < t -> clock k + t * 1000000 <= d ->
  (forall k', clock k <= clock k' <= d -> wp rest k' (by_deadline d)) ->
  wp (bind (poll_or_throw (s_sockfd s) ev t) (fun _ => rest)) k (by_deadline d).
Proof.
  intros Ht Hd Hrest. wp_step. unfold poll_or_throw. wp_step. apply wp_call. intros r k2 E2.
  apply poll_waits in E2; [|lia]. destruct r; wp_step; [apply Hrest|red|red]; lia.
Qed.

Lemma recv_timed {X} n t d k (f : bytes -> prog K X) :
  0 < t -> clock k + t * 1000000 <= d ->
  (forall c k', clock k <= clock k' <= d -> wp (f c) k' (by_deadline d)) ->
  wp (bind (recv_with_timeout s n t) f) k (by_deadline d).
Proof.
  intros Ht Hd Hf. unfold recv_with_timeout. apply wp_bind_assoc, poll_timed; [done..|]. intros k1 E1.
  wp_step. unfold recv. wp_step. apply wp_call. intros r k' E. apply recv_instant in E.
  destruct r as [c|]; wp_step; [apply Hf|red]; lia.
Qed.

Lemma recv_exact_timeout_loop_timed fuel n d buf k :
  in_time d k -> wp (recv_exact_timeout_loop fuel s n d buf) k (by_deadline d).
Proof.
  revert buf k. induction fuel as [|fuel IH]; intros buf k Hd; cbn [recv_exact_timeout_loop];
    case_if; try (wp_step; red; red in Hd; lia).
  apply round_timed; [done|]. intros t k1 E1 Ht Hk. apply recv_timed; [done..|]. intros c k2 E2.
  red in Hd. destruct c; [wp_step; red; lia|]. apply IH. red. lia.
Qed.

Lemma recv_all_timeout_loop_timed fuel d buf k :
  in_time d k -> wp (recv_all_timeout_loop fuel s d buf) k (by_deadline d).
Proof.
  revert buf k. induction fuel as [|fuel IH]; intros buf k Hd; cbn [recv_all_timeout_loop];
    [wp_step; red; red in Hd; lia|].
  apply round_timed; [done|]. intros t k1 E1 Ht Hk. apply recv_timed; [done..|]. intros c k2 E2.
  red in Hd. destruct c; [wp_step; red; lia|]. apply IH. red. lia.
Qed.

Lemma send_timeout_loop_timed fuel d buffer total k :
  in_time d k -> wp (send_timeout_loop fuel (s_sockfd s) d buffer total) k (by_deadline d).
Proof.
  revert total k. induction fuel as [|fuel IH]; intros total k Hd; cbn [send_timeout_loop];
    case_if; try (wp_step; red; red in Hd; lia).
  apply round_timed; [done|]. intros t k1 E1 Ht Hk. apply poll_timed; [done..|]. intros k2 E2.
  wp_step. unfold send_some. wp_step. apply wp_call. intros r k3 E3. apply send_instant in E3.
  red in Hd. destruct r as [[|m]| |]; [wp_step; red; lia| |wp_step; red; lia|red; cbn; red; lia].
  wp_step. apply IH. red. lia.
Qed.

(** A call with a time-out takes no longer than the time-out, whatever the number of its
    rounds, and however it ends. *)
Lemma timeouts_kept n fuel buffer timeout_ms k :
  0 <= timeout_ms < 2 ^ 31 ->
  wp (recv_exact_timeout s n timeout_ms) k (by_deadline (clock k + timeout_ms * 1000000))
  /\ wp (recv_all_with_timeout fuel s timeout_ms) k (by_deadline (clock k + timeout_ms * 1000000))
  /\ wp (send_with_timeout s buffer timeout_ms) k (by_deadline (clock k + timeout_ms * 1000000)).
Proof.
  intros Ht.
  assert (forall X (f : Z -> prog K X), (forall k', clock k' = clock k ->
      wp (f (clock k + timeout_ms * 1000000)) k' (by_deadline (clock k + timeout_ms * 1000000))) ->
    wp (bind (deadline_after timeout_ms) f) k (by_deadline (clock k + timeout_ms * 1000000))) as Hdl.
  { intros X f Hf. wp_step. unfold deadline_after. wp_step. apply wp_call. intros t k' E.
    destruct (now_tells _ _ _ E) as [-> Ek]. wp_step. by apply Hf. }
  repeat split; apply Hdl; intros k' E.
  - apply recv_exact_timeout_loop_timed. red. lia.
  - apply recv_all_timeout_loop_timed. red. lia.
  - apply send_timeout_loop_timed. red. lia.
Qed.
End deadline.

(** *** The mode of the descriptor

    [flags k]: the status flags of the descriptor. *)
Class FlagsOk {A K} {SY : Sys A K} (fd : Z) (flags : K -> Z) : Prop := {
  getfl_reads k r k' : sys_getfl fd k = (r, k') -> flags k' = flags k /\ forall f, r = Some f -> f = flags k;
  setfl_writes v k ok k' : sys_setfl fd v k = (ok, k') -> ok = true /\ flags k' = v;
  poll_flags ev t k r k' : sys_poll fd ev t k = (r, k') -> flags k' = flags k }.

(** However [connect_with_timeout] ends, the descriptor is in the mode it was in. *)
Lemma connect_restores_mode {A K} {SY : Sys A K} {flags : K -> Z} (s : TCPSocket)
    {OK : FlagsOk (s_sockfd s) flags} address timeout_ms k :
  wp (connect_with_timeout s address timeout_ms) k (fun _ k' => flags k' = flags k).
Proof.
  assert (forall X (m : prog K X) v k1, (forall k2, flags k2 = v -> wp m k2 (fun _ k' => flags k' = v)) ->
    wp (bind (restore (s_sockfd s) v) (fun _ => m)) k1 (fun _ k' => flags k' = v)) as Hrest.
  { intros X m v k1 Hm. wp_step. unfold restore. wp_step. apply wp_call. intros b k2 E.
    destruct (setfl_writes _ _ _ _ E) as [_ E2]. wp_step. by apply Hm. }
  unfold connect_with_timeout. case_if; [by wp_step|]. wp_step. apply wp_call. intros r k1 E.
  destruct (getfl_reads _ _ _ E) as [Ef Hf]. destruct r as [fl|]; [|by wp_step].
  rewrite (Hf _ eq_refl). wp_step. apply wp_call. intros b k2 E2.
  destruct (setfl_writes _ _ _ _ E2) as [-> _]. cbn [negb]. wp_step. apply wp_call. intros c k3 E3.
  destruct c; [|unfold finish_connect|apply Hrest; by intros; wp_step].
  - unfold restore. wp_step. apply wp_call. intros b k4 E4. destruct (setfl_writes _ _ _ _ E4) as [_ E5]. by wp_step.
  - wp_step. apply wp_call. intros p k4 E4. destruct p; [|apply Hrest; by intros; wp_step..].
    wp_step. apply wp_call. intros so k5 E5. destruct so; [|apply Hrest; by intros; wp_step].
    apply Hrest. intros k6 E6. case_if; by wp_step.
Qed.

(** ** Conversations *)

Section conversation.
Context {A K : Type} {SY : Sys A K}.

(** A peer sends messages and keep-alives one after the other ... *)
Fixpoint send_items (s : TCPSocket) (items : list (option Typed)) : prog K () :=
  match items with
  | [] => ret ()
  | None :: items' => send s (write_be32 0);; send_items s items'
  | Some t :: items' =>
      match serialize (to_peer_message t) with
      | Ok wire => send s wire;; send_items s items'
      | Throw e => throw e
      end
  end.

(** ... and the other side receives so many. *)
Fixpoint receive_items (n : nat) (s : TCPSocket) (timeout_ms : Z) : prog K (list (option PeerMessage)) :=
  match n with
  | O => ret []
  | S n' =>
      m <- recv_message_timeout s timeout_ms;;
      ms <- receive_items n' s timeout_ms;;
      ret (m :: ms)
  end.
End conversation.

Lemma writes_app {K} {arriving sent : K -> bytes} a b k k1 o k2 :
  @writes K arriving sent a k (Done (Ok ())) k1 -> @writes K arriving sent b k1 o k2 ->
  @writes K arriving sent (a ++ b) k o k2.
Proof.
  intros [Ea Es] [Ea' H]. split; [congruence|]. rewrite Es in H. destruct o as [[u|e]|].
  - by rewrite H, <- app_assoc.
  - destruct H as (He & n & Hn & H). split; [done|]. exists (length a + n)%nat. rewrite length_app.
    split; [lia|]. by rewrite H, <- app_assoc, take_app_add.
  - destruct H as (n & Hn & H). exists (length a + n)%nat. rewrite length_app.
    split; [lia|]. by rewrite H, <- app_assoc, take_app_add.
Qed.

Section carried.
Context {A K : Type} {SY : Sys A K} {arriving sent : K -> bytes}.
Context (s : TCPSocket) {OK : TcpOk (s_sockfd s) arriving sent}.

Lemma send_then_wp a b k (m : prog K ()) :
  (forall k', wp m k' (@writes K arriving sent b k')) ->
  wp (bind (send s a) (fun _ => m)) k (@writes K arriving sent (a ++ b) k).
Proof.
  intros Hm. wp_step. eapply wp_mono; [by apply (send_wp (arriving:=arriving) (sent:=sent))|]. intros [[[]|e]|] k1 H.
  - eapply wp_mono; [apply Hm|]. intros o k2. by apply writes_app.
  - destruct H as (Ea & He & n & Hn & H). split; [done|]. split; [done|]. exists n.
    rewrite length_app, take_app_le by lia. split; [lia|done].
  - destruct H as (Ea & n & Hn & H). split; [done|]. exists n.
    rewrite length_app, take_app_le by lia. split; [lia|done].
Qed.

Lemma send_items_wp items stream k :
  send_stream items = Ok stream -> wp (send_items s items) k (@writes K arriving sent stream k).
Proof.
  revert stream k. induction items as [|[t|] items IH]; intros stream k; cbn [send_items send_stream].
  - intros [= <-]. wp_step. split; [done|by rewrite app_nil_r].
  - destruct (serialize (to_peer_message t)) as [wire|]; [|done]. cbn [mbind result_bind].
    destruct (send_stream items) as [rest|]; [|done]. intros [= <-]. apply send_then_wp. auto.
  - destruct (send_stream items) as [rest|]; [|done]. intros E. cbn [mbind result_bind] in E.
    assert (stream = write_be32 0 ++ rest) as -> by congruence. apply send_then_wp. auto.
Qed.

(** The pure counterpart of one item on the wire. *)
Lemma recv_item item items stream :
  (forall t, item = Some t -> typed_ok t) -> send_stream (item :: items) = Ok stream ->
  exists rest, send_stream items = Ok rest /\ recv_message stream = Ok (to_peer_message <$> item, rest).
Proof.
  intros Hi. cbn [send_stream]. destruct item as [t|]; cbn [fmap option_fmap option_map].
  - specialize (Hi t eq_refl). rewrite serialize_small by apply Hi. cbn [mbind result_bind].
    destruct (send_stream items) as [rest|]; [|done]. intros [= <-]. exists rest. split; [done|].
    apply recv_message_app; [apply Hi|by apply to_peer_id_roundtrip].
  - destruct (send_stream items) as [rest|]; [|done]. intros E. cbn [mbind result_bind] in E.
    assert (stream = write_be32 0 ++ rest) as -> by congruence. exists rest. split; [done|apply recv_keep_alive].
Qed.

Lemma receive_items_wp items stream t k :
  Forall (fun i => forall t, i = Some t -> typed_ok t) items ->
  send_stream items = Ok stream -> arriving k = stream ->
  wp (receive_items (length items) s t) k (fun o k' =>
    match o with
    | Done (Ok ms) => ms = map (fmap to_peer_message) items /\ arriving k' = []
    | Done (Throw e) => system_failure e
    | Killed => False
    end).
Proof.
  revert stream k. induction items as [|i items IH]; intros stream k Hi Hs Hk; cbn [receive_items length].
  { injection Hs as <-. by wp_step. }
  inversion Hi as [|? ? Hi1 Hi2]; subst. destruct (recv_item i items _ Hi1 Hs) as (rest & Hr & Em).
  wp_step. eapply wp_mono; [by apply (recv_message_timeout_wp (arriving:=arriving) (sent:=sent))|]. intros [[m|e]|] k1 [_ H].
  2: { destruct H as [H|H]; [done|]. by rewrite Em in H. }
  2: { done. }
  rewrite Em in H. injection H as <- Ek. wp_step. eapply wp_mono; [by eapply (IH rest)|].
  intros [[ms|e]|] k2 H2; [|done..]. destruct H2 as [-> E2]. by wp_step.
Qed.
End carried.

Lemma read_typed_sent items :
  Forall (fun i => forall t, i = Some t -> typed_ok t) items ->
  read_typed (omap id (map (fmap to_peer_message) items)) = Ok (omap id items).
Proof.
  induction 1 as [|i items Hi _ IH]; [done|]. destruct i as [t|]; [|exact IH].
  change (read_typed (to_peer_message t :: omap id (map (fmap to_peer_message) items)) = Ok (t :: omap id items)).
  cbn [read_typed]. rewrite typed_roundtrip by auto. cbn [mbind result_bind]. by rewrite IH.
Qed.

Lemma send_stream_total items :
  Forall (fun i => forall t, i = Some t -> typed_ok t) items -> exists stream, send_stream items = Ok stream.
Proof.
  induction 1 as [|i items Hi _ [rest IH]]; [by exists []|]. cbn [send_stream].
  destruct i as [t|]; rewrite ?(serialize_small (to_peer_message t)) by (apply Hi; done);
    cbn [mbind result_bind]; rewrite IH; by eexists.
Qed.

(** ** A kernel

    One connection that delivers at most [S pp_chunk] bytes per call and accepts no more;
    every wait takes a millisecond. *)
Record Pipe := mkPipe {
  pp_in : bytes; pp_out : bytes; pp_chunk : nat; pp_clock : Z; pp_flags : Z; pp_closed : bool }.

#[global] Instance pipe_sys : Sys Z Pipe := {|
  sys_socket _ _ k := (Some 3, k);
  sys_send _ d k :=
    if pp_closed k then (BrokenPipe, k) else
    let n := Nat.min (length d) (S (pp_chunk k)) in
    (Sent n, mkPipe (pp_in k) (pp_out k ++ take n d) (pp_chunk k) (pp_clock k) (pp_flags k) false);
  sys_recv _ n k :=
    let m := Nat.min n (S (pp_chunk k)) in
    (Some (take m (pp_in k)),
     mkPipe (drop m (pp_in k)) (pp_out k) (pp_chunk k) (pp_clock k) (pp_flags k) (pp_closed k));
  sys_poll _ _ t k :=
    (Ready, mkPipe (pp_in k) (pp_out k) (pp_chunk k) (pp_clock k + Z.min t 1 * 1000000) (pp_flags k) (pp_closed k));
  sys_now k := (pp_clock k, k);
  sys_getfl _ k := (Some (pp_flags k), k);
  sys_setfl _ v k := (true, mkPipe (pp_in k) (pp_out k) (pp_chunk k) (pp_clock k) v (pp_closed k));
  sys_connect _ _ k := (InProgress, k);
  sys_so_error _ k := (Some 0, k);
  sys_setsockopt _ _ k := (true, k);
  sys_bind _ _ k := (true, k);
  sys_listen _ _ k := (true, k);
  sys_accept _ k := (Some 4, k);
  sys_recvfrom _ _ k := (None, k);
  sys_sendto _ _ _ k := (true, k);
  sys_getsockname _ k := (Some AF_INET, k);
  sys_shutdown _ k := ((), k);
  sys_close _ k := ((), k);
  sys_inet_aton _ := None;
  addr_domain a := a |}.

#[global] Instance pipe_tcp fd : TcpOk fd pp_in pp_out.
Proof.
  split; cbn.
  - intros n k c k' [= <- <-]. cbn. rewrite take_drop. split; [done|]. split; [done|]. rewrite length_take.
    split; [lia|]. intros E Hn. apply (f_equal length) in E. rewrite length_take in E. cbn in E.
    destruct (pp_in k); [done|cbn in E; lia].
  - done.
  - intros d k n k'. destruct (pp_closed k); [done|]. intros [= <- <-]. cbn. split; [lia|done].
  - intros d k r k'. destruct (pp_closed k); [by intros [= <- <-]|]. intros [= <- <-] H. by destruct (H _ eq_refl).
  - by intros ev t k r k' [= <- <-].
  - by intros k t k' [= <- <-].
Qed.

#[global] Instance pipe_time fd : TimeOk fd pp_clock.
Proof.
  split; cbn.
  - by intros k t k' [= <- <-].
  - intros ev t k r k' Ht [= <- <-]. cbn. lia.
  - by intros n k r k' [= <- <-].
  - intros d k r k'. destruct (pp_closed k); by intros [= <- <-].
Qed.

#[global] Instance pipe_mode fd : FlagsOk fd pp_flags.
Proof.
  split; cbn.
  - intros k r k' [= <- <-]. split; [done|by intros f [= <-]].
  - by intros v k ok k' [= <- <-].
  - by intros ev t k r k' [= <- <-].
Qed.

(** A write to a connection that the other side has reset, or that [cancel] has shut down
    from another thread, ends the process: [send] passes no MSG_NOSIGNAL and no part of
    the client ignores SIGPIPE. *)
Lemma send_closed_kills buffer k :
  buffer <> [] -> pp_closed k = true -> (send (mkTCP 3 AF_INET) buffer k).1 = Killed.
Proof.
  intros Hb Hk. destruct buffer as [|x buffer]; [done|].
  unfold send. cbn [length send_loop Nat.ltb Nat.leb]. unfold bind, send_some, bind, call. cbn. by rewrite Hk.
Qed.

(** Connecting takes the descriptor through non-blocking mode and back. *)
Example connect_sample :
  connect_with_timeout (mkTCP 3 AF_INET) AF_INET 5000 (mkPipe [] [] 0 0 2 false)
  = (Done (Ok ()), mkPipe [] [] 0 1000000 2 false).
Proof. reflexivity. Qed.

(** ** Property *)

(** C8: the peer wire protocol survives TCP.  On any two kernels that carry a byte stream,
    in pieces of whatever sizes each likes to accept and deliver: if a client's [send]
    calls for a sequence of messages and keep-alives all return, then the other client's
    [recv_message_timeout] calls return exactly these, one by one, each message with the
    fields it was sent with, and nothing is left in the stream; the only other outcome is
    the exception of a failing system call or an expired deadline - never the end of the
    stream, a refused length or a message cut in the wrong place. *)
Theorem peer_wire_over_tcp {A1 K1 A2 K2} {S1 : Sys A1 K1} {S2 : Sys A2 K2}
    {arriving1 sent1 : K1 -> bytes} {arriving2 sent2 : K2 -> bytes}
    (s1 s2 : TCPSocket) items timeout_ms k1 k1' k2 :
  TcpOk (s_sockfd s1) arriving1 sent1 -> TcpOk (s_sockfd s2) arriving2 sent2 ->
  Forall (fun i => forall t, i = Some t -> typed_ok t) items ->
  sent1 k1 = [] -> send_items s1 items k1 = (Done (Ok ()), k1') -> arriving2 k2 = sent1 k1' ->
  let '(o, k2') := receive_items (length items) s2 timeout_ms k2 in
  match o with
  | Done (Ok ms) =>
      ms = map (fmap to_peer_message) items /\ read_typed (omap id ms) = Ok (omap id items) /\ arriving2 k2' = []
  | Done (Throw e) => system_failure e
  | Killed => False
  end.
Proof.
  intros O1 O2 Hi E0 Hsend E2. destruct (send_stream_total items Hi) as [stream Hs].
  pose proof (send_items_wp (arriving:=arriving1) (sent:=sent1) s1 items stream k1 Hs) as [_ W].
  rewrite Hsend in W. cbn in W. rewrite E0 in W. cbn [app] in W.
  pose proof (receive_items_wp (arriving:=arriving2) (sent:=sent2) s2 items stream timeout_ms k2 Hi Hs ltac:(congruence)) as R. red in R.
  destruct (receive_items (length items) s2 timeout_ms k2) as [[[ms|e]|] k2']; cbn in R; [|done..].
  destruct R as [-> R]. split; [done|]. split; [by apply read_typed_sent|done].
Qed.

(** The sender's kernel accepts five bytes at a time, the receiver's delivers two. *)
Definition sample_items : list (option Typed) :=
  [Some (TSimple Interested); None; Some (TRequest (mkRequest 3 16384 16384));
   Some (TPiece (mkPiece 3 16384 [1; 2; 3])); Some (THave (mkHave 3))].

Definition sample_sender : Pipe := mkPipe [] [] 4 0 0 false.
Definition sample_sent : Pipe := (send_items (mkTCP 3 AF_INET) sample_items sample_sender).2.
Definition sample_receiver : Pipe := mkPipe (pp_out sample_sent) [] 1 0 0 false.

Example sample_received :
  (receive_items 5 (mkTCP 4 AF_INET) 120000 sample_receiver).1
  = Done (Ok (map (fmap to_peer_message) sample_items)).
Proof. vm_compute. reflexivity. Qed.

Lemma peer_wire_over_tcp_witness :
  let '(o, k2') := receive_items 5 (mkTCP 4 AF_INET) 120000 sample_receiver in
  match o with
  | Done (Ok ms) =>
      ms = map (fmap to_peer_message) sample_items
      /\ read_typed (omap id ms) = Ok (omap id sample_items) /\ pp_in k2' = []
  | Done (Throw e) => system_failure e
  | Killed => False
  end.
Proof.
  apply (peer_wire_over_tcp (mkTCP 3 AF_INET) (mkTCP 4 AF_INET) sample_items 120000
           sample_sender sample_sent sample_receiver (pipe_tcp 3) (pipe_tcp 4)).
  - repeat (apply Forall_cons_2; [|]); [..|apply Forall_nil_2]; intros t [= <-]; vm_compute; intuition discriminate.
  - reflexivity.
  - vm_compute. reflexivity.
  - reflexivity.
Defined.
