(* ===== verification/Gateway.v ===== *)
(** * The gateway and the local address
    (src/net/upnp.cpp: default_gateway_ip, local_ip_for)

    Where the port mapping learns its neighbours: the default route in the text of
    /proc/net/route, read with [fgets] and [sscanf], and the address a connected UDP socket
    was given.  The results are the fields [ue_gateway] and [ue_local_ip] of [UpnpEnv]. *)

From S2P Require Import Prelude CxxLib ByteOrder Addr SockAddr Net Socket.

(** ** Reading lines and numbers *)

(** [fgets] into [room + 1] characters: up to [room] of them, not past a line feed. *)
Fixpoint take_line (room : nat) (s : bytes) : bytes * bytes :=
  match room, s with
  | S room', c :: s' =>
      if c =? 10 then ([c], s') else let '(l, rest) := take_line room' s' in (c :: l, rest)
  | _, _ => ([], s)
  end.

(** [None] at the end of the file *)
Definition fgets (size : nat) (s : bytes) : option (bytes * bytes) :=
  match s with [] => None | _ => Some (take_line (size - 1) s) end.

Definition non_space (c : Z) : bool := negb (isspace c).

(** [%31s]: the word and what follows it *)
Definition scan_word (width : nat) (s : bytes) : option (bytes * bytes) :=
  let s := skip isspace s in
  match take width (span non_space s) with
  | [] => None
  | w => Some (w, drop (length w) s)
  end.

(** [%lx]: as [strtoul] in base 16, saturated; a prefix [0x] without a digit does not match. *)
Definition scan_lx (s : bytes) : option (Z * bytes) :=
  let '(neg, s') := take_sign (skip isspace s) in
  let h := skip_0x s' in
  let ds := span isxdigit h in
  let rest := skip isxdigit h in
  let only_0x := bool_decide (ds = [48]) && match rest with c :: _ => (c =? 120) || (c =? 88) | [] => false end in
  if bool_decide (ds = []) || only_0x then None
  else
    let m := xdigits_val ds in
    Some (if 2 ^ 64 <=? m then 2 ^ 64 - 1 else if neg then u64 (- m) else m, rest).

(** [sscanf(line, "%31s %lx %lx %lx", ...)] when it returns 4: destination, gateway, flags *)
Definition scan_route (line : bytes) : option (Z * Z * Z) :=
  '(_, s) ← scan_word 31 (c_str line);
  '(dest, s) ← scan_lx s;
  '(gw, s) ← scan_lx s;
  '(flags, _) ← scan_lx s;
  Some (dest, gw, flags).

(** ** The default route *)

(** The four bytes of [s_addr] in the memory of a little-endian machine *)
Definition s_addr_bytes (gw : Z) : bytes := reverse (write_be32 (u32 gw)).

Section gateway.
Context `{Inet}.

(** Every round reads at least a character. *)
Fixpoint route_loop (fuel : nat) (s : bytes) : bytes :=
  match fuel with
  | O => []
  | S fuel' =>
      match fgets 256 s with
      | None => []
      | Some (line, rest) =>
          match scan_route line with
          | None => route_loop fuel' rest
          | Some (dest, gw, _) =>
              if (dest =? 0) && negb (gw =? 0) then inet_ntoa (s_addr_bytes gw) else route_loop fuel' rest
          end
      end
  end.

(** [file]: the text of /proc/net/route, [None] when it cannot be opened *)
Definition default_gateway_ip (file : option bytes) : bytes :=
  match file with
  | None => []
  | Some s =>
      match fgets 256 s with
      | None => []
      | Some (_, rest) => route_loop (length rest) rest
      end
  end.
End gateway.

(** ** The local address *)

Section local_address.
Context {K : Type} {SY : Sys Address K} `{Inet, Inet6}.
Local Open Scope prog_scope.

(** A block that owns a UDP socket, which is destroyed when the block is left. *)
Definition with_udp {X} (s : UDPSocket) (body : prog K X) : prog K X := fun k =>
  match body k with
  | (Killed, k') => (Killed, k')
  | (Done r, k') => (Done r, snd (udp_close s k'))
  end.

(** [catch (const std::exception&) { return {}; }] *)
Definition or_empty (m : prog K bytes) : prog K bytes := fun k =>
  match m k with
  | (Done (Throw e), k') => if catchable e then (Done (Ok []), k') else (Done (Throw e), k')
  | r => r
  end.

Definition of_result {X} (r : result X) : prog K X :=
  match r with Ok a => ret a | Throw e => throw e end.

Definition local_ip_for (gateway_host : bytes) : prog K bytes :=
  or_empty (
    sock <- udp_socket AF_INET;;
    with_udp sock (
      dest <- of_result (ipv4_of_text gateway_host 1900);;
      udp_connect sock dest;;
      local <- local_address sock;;
      match ip4 local with
      | Some ip => ret ip
      | None => throw (Undefined "static_cast of another class")
      end)).
End local_address.

(** ** The table as the kernel writes it *)

(** [%0nX] *)
Fixpoint HEX_word (n : nat) (v : Z) : bytes :=
  match n with O => [] | S m => HEX_word m (v / 16) ++ [HEX_DIGIT (v mod 16)] end.

Record Route := mkRoute { rt_iface : bytes; rt_dest : Z; rt_gw : Z; rt_flags : Z; rt_rest : bytes }.

Definition TAB : Z := 9.

(** A row: ["%s\t%08X\t%08X\t%04X\t"], the other columns and a line feed *)
Definition route_row (r : Route) : bytes :=
  rt_iface r ++ TAB :: HEX_word 8 (rt_dest r) ++ TAB :: HEX_word 8 (rt_gw r) ++ TAB :: HEX_word 4 (rt_flags r)
  ++ TAB :: rt_rest r ++ [10].

Definition in_line (c : Z) : Prop := c <> 0 /\ c <> 10.

(** Interface names have up to fifteen characters; rows are padded to 127. *)
Definition route_ok (r : Route) : Prop :=
  rt_iface r <> [] /\ (length (rt_iface r) <= 15)%nat /\ Forall (fun c => c <> 0 /\ isspace c = false) (rt_iface r)
  /\ 0 <= rt_dest r < 2 ^ 32 /\ 0 <= rt_gw r < 2 ^ 32 /\ 0 <= rt_flags r < 2 ^ 16
  /\ Forall in_line (rt_rest r) /\ (length (rt_rest r) <= 200)%nat.

Lemma HEX_DIGIT_facts d : 0 <= d < 16 ->
  hex_val (HEX_DIGIT d) = Some d /\ isspace (HEX_DIGIT d) = false /\ in_line (HEX_DIGIT d)
  /\ HEX_DIGIT d <> 45 /\ HEX_DIGIT d <> 43 /\ HEX_DIGIT d <> 120 /\ HEX_DIGIT d <> 88.
Proof.
  intros Hd. assert (d ∈ seqZ 0 16) as Hin by (apply elem_of_seqZ; lia). clear Hd. revert d Hin.
  apply Forall_forall. cbn. repeat constructor; discriminate.
Qed.

Lemma HEX_word_digits n v : Forall (fun c => exists d, 0 <= d < 16 /\ c = HEX_DIGIT d) (HEX_word n v).
Proof.
  revert v. induction n as [|n IH]; intros v; cbn [HEX_word]; [by apply Forall_nil_2|].
  apply Forall_app. split; [apply IH|]. repeat constructor. exists (v mod 16). split; [|done].
  apply Z.mod_pos_bound. lia.
Qed.

Lemma length_HEX_word n v : length (HEX_word n v) = n.
Proof. revert v. induction n as [|n IH]; intros v; cbn [HEX_word]; [done|]. rewrite length_app, IH. cbn. lia. Qed.

Lemma HEX_word_val n v : 0 <= v < 16 ^ Z.of_nat n -> xdigits_val (HEX_word n v) = v.
Proof.
  unfold xdigits_val. revert v. induction n as [|n IH]; intros v Hv; cbn [HEX_word].
  { change (16 ^ Z.of_nat 0) with 1 in Hv. cbn. lia. }
  rewrite Nat2Z.inj_succ, Z.pow_succ_r in Hv by lia. rewrite fold_left_app, IH.
  - cbn [fold_left]. rewrite (proj1 (HEX_DIGIT_facts (v mod 16) (Z.mod_pos_bound v 16 ltac:(lia)))). unfold default, id.
    pose proof (Z.div_mod v 16 ltac:(lia)). lia.
  - split; [apply Z.div_pos; lia|apply Z.div_lt_upper_bound; lia].
Qed.

Lemma span_through p s t : Forall (fun c => p c = true) s -> span p (s ++ t) = s ++ span p t.
Proof. induction 1 as [|c s Hc Hs IH]; [done|]. cbn. by rewrite Hc, IH. Qed.

Lemma skip_app_all p s t : Forall (fun c => p c = true) s -> skip p (s ++ t) = skip p t.
Proof. induction 1 as [|c s Hc Hs IH]; [done|]. cbn. by rewrite Hc, IH. Qed.

Lemma skip_0x_digits n v t : skip_0x (HEX_word n v ++ TAB :: t) = HEX_word n v ++ TAB :: t.
Proof.
  pose proof (HEX_word_digits n v) as Hd. destruct (HEX_word n v) as [|a [|b [|c w]]]; try done.
  - by destruct t as [|x [|d t]].
  - cbn. destruct t; [done|]. by destruct (a =? 48).
  - cbn. change (isxdigit TAB) with false. by rewrite andb_false_r.
  - cbn. rewrite !Forall_cons in Hd. destruct Hd as (_ & (d & Hr & ->) & _).
    destruct (HEX_DIGIT_facts d Hr) as (_ & _ & _ & _ & _ & H1 & H2).
    by rewrite (proj2 (Z.eqb_neq _ _) H1), (proj2 (Z.eqb_neq _ _) H2), andb_false_r.
Qed.

(** A column is read back. *)
Lemma scan_HEX_word n v t :
  (0 < n <= 15)%nat -> 0 <= v < 16 ^ Z.of_nat n -> scan_lx (TAB :: HEX_word n v ++ TAB :: t) = Some (v, TAB :: t).
Proof.
  intros Hn Hv. unfold scan_lx. pose proof (HEX_word_digits n v) as Hd.
  assert (Forall (fun c => isxdigit c = true) (HEX_word n v)) as Hx.
  { eapply Forall_impl; [exact Hd|]. intros c (d & Hr & ->). unfold isxdigit.
    rewrite (proj1 (HEX_DIGIT_facts d Hr)). by apply bool_decide_eq_true. }
  assert (skip isspace (TAB :: HEX_word n v ++ TAB :: t) = HEX_word n v ++ TAB :: t) as ->.
  { cbn [skip]. change (isspace TAB) with true. cbv iota. pose proof (length_HEX_word n v).
    destruct (HEX_word n v) as [|c w]; [cbn in *; lia|]. apply Forall_cons in Hd; destruct Hd as [(d & Hr & ->) _]. cbn.
    by rewrite (proj1 (proj2 (HEX_DIGIT_facts d Hr))). }
  assert (take_sign (HEX_word n v ++ TAB :: t) = (false, HEX_word n v ++ TAB :: t)) as ->.
  { pose proof (length_HEX_word n v). destruct (HEX_word n v) as [|c w]; [cbn in *; lia|].
    apply Forall_cons in Hd; destruct Hd as [(d & Hr & ->) _]. destruct (HEX_DIGIT_facts d Hr) as (_ & _ & _ & H1 & H2 & _). cbn.
    by rewrite (proj2 (Z.eqb_neq _ _) H1), (proj2 (Z.eqb_neq _ _) H2). }
  rewrite skip_0x_digits, (span_through _ _ _ Hx), (skip_app_all _ _ _ Hx). cbn [span skip].
  change (isxdigit TAB) with false. cbv iota. rewrite app_nil_r. pose proof (length_HEX_word n v).
  rewrite (HEX_word_val n v Hv). assert (16 ^ Z.of_nat n <= 16 ^ 15) by (apply Z.pow_le_mono_r; lia).
  rewrite (proj2 (Z.leb_gt _ _)) by lia. change (TAB =? 120) with false. change (TAB =? 88) with false.
  rewrite andb_false_r, orb_false_r, bool_decide_false; [done|].
  intros E. pose proof (length_HEX_word n v) as Hl. rewrite E in Hl. cbn in Hl. lia.
Qed.

Lemma take_line_app body rest room :
  Forall (fun c => c <> 10) body -> (length body < room)%nat ->
  take_line room (body ++ 10 :: rest) = (body ++ [10], rest).
Proof.
  intros Hb. revert room. induction Hb as [|c body Hc Hb IH]; intros [|room] Hl; cbn in Hl; try lia; [done|].
  cbn. by rewrite (proj2 (Z.eqb_neq _ _) Hc), IH by lia.
Qed.

Lemma c_str_app body : Forall (fun c => c <> 0) body -> c_str body = body.
Proof.
  intros Hb. unfold c_str. rewrite <- (app_nil_r body) at 1. rewrite span_through; [apply app_nil_r|].
  eapply Forall_impl; [exact Hb|]. intros c Hc. cbn. by rewrite (proj2 (Z.eqb_neq _ _) Hc).
Qed.

(** The row without its line feed *)
Definition row_body (r : Route) : bytes :=
  rt_iface r ++ TAB :: HEX_word 8 (rt_dest r) ++ TAB :: HEX_word 8 (rt_gw r) ++ TAB :: HEX_word 4 (rt_flags r)
  ++ TAB :: rt_rest r.

Lemma row_line r : route_row r = row_body r ++ [10].
Proof. unfold route_row, row_body. by rewrite <- !app_assoc, <- !app_comm_cons, <- !app_assoc. Qed.

Lemma row_in_line r : route_ok r -> Forall in_line (row_body r) /\ (length (row_body r) < 255)%nat.
Proof.
  intros (_ & Hl & Hi & _ & _ & _ & Hr & Hlr).
  assert (forall n v, Forall in_line (HEX_word n v)) as Hx.
  { intros n v. eapply Forall_impl; [apply HEX_word_digits|]. intros c (d & Hd & ->). apply (HEX_DIGIT_facts d Hd). }
  assert (in_line TAB) as Ht by done. split.
  - unfold row_body. apply Forall_app_2; [eapply Forall_impl; [exact Hi|]|].
    { intros c [H0 Hs]. split; [done|]. intros ->. done. }
    repeat first [apply Hx | exact Hr | apply Forall_app_2 | apply Forall_cons_2; [exact Ht|]].
  - unfold row_body. repeat (rewrite length_app || rewrite length_cons || rewrite length_HEX_word). lia.
Qed.

Lemma scan_row r : route_ok r -> scan_route (row_body r ++ [10]) = Some (rt_dest r, rt_gw r, rt_flags r).
Proof.
  intros Hr. pose proof (row_in_line r Hr) as [Hb _]. destruct Hr as (Hne & Hl & Hi & Hd & Hg & Hf & _ & _).
  unfold scan_route. rewrite c_str_app.
  2:{ apply Forall_app. split; [eapply Forall_impl; [exact Hb|by intros c []]|by repeat constructor]. }
  unfold row_body. rewrite <- app_assoc, <- app_comm_cons.
  assert (Forall (fun c => non_space c = true) (rt_iface r)) as Hn.
  { eapply Forall_impl; [exact Hi|]. intros c [_ Hs]. unfold non_space. by rewrite Hs. }
  set (t := _ ++ [10]).
  assert (scan_word 31 (rt_iface r ++ TAB :: t) = Some (rt_iface r, TAB :: t)) as ->.
  { unfold scan_word. assert (skip isspace (rt_iface r ++ TAB :: t) = rt_iface r ++ TAB :: t) as ->.
    { destruct (rt_iface r) as [|c w]; [done|]. apply Forall_cons in Hi. cbn. by rewrite (proj2 (proj1 Hi)). }
    rewrite span_through by done. cbn [span]. change (non_space TAB) with false. cbv iota.
    rewrite app_nil_r, take_ge by lia. destruct (rt_iface r) as [|c w] eqn:E; [done|]. by rewrite <- E, drop_app_length. }
  unfold t. cbn [mbind option_bind]. rewrite <- !app_assoc, <- !app_comm_cons.
  rewrite scan_HEX_word by (lia || (cbn; lia)). cbn [mbind option_bind]. rewrite <- !app_assoc, <- !app_comm_cons.
  rewrite scan_HEX_word by (lia || (cbn; lia)). cbn [mbind option_bind]. rewrite <- !app_assoc, <- !app_comm_cons.
  by rewrite scan_HEX_word by (lia || (cbn; lia)).
Qed.

(** What the code takes for a default route *)
Definition is_default (r : Route) : bool := (rt_dest r =? 0) && negb (rt_gw r =? 0).

(** The gateway is that of the first row whose destination is 0.0.0.0 and that has one. *)
Lemma default_gateway_found `{Inet} hdr rs :
  Forall in_line hdr -> (length hdr < 255)%nat -> Forall route_ok rs ->
  default_gateway_ip (Some (hdr ++ 10 :: concat (map route_row rs)))
  = match List.find is_default rs with Some r => inet_ntoa (s_addr_bytes (rt_gw r)) | None => [] end.
Proof.
  intros Hh Hl Hrs. assert (forall b, Forall in_line b -> Forall (fun c => c <> 10) b) as Hin.
  { intros b Hb. eapply Forall_impl; [exact Hb|]. by intros c []. }
  assert (forall b rest, Forall in_line b -> (length b < 255)%nat -> fgets 256 (b ++ 10 :: rest) = Some (b ++ [10], rest)) as Hf.
  { intros b rest Hb Hlb. unfold fgets. rewrite take_line_app by (auto; lia). by destruct b. }
  unfold default_gateway_ip. rewrite Hf by done. clear hdr Hh Hl.
  assert (forall fuel, (length (concat (map route_row rs)) <= fuel)%nat -> route_loop fuel (concat (map route_row rs))
    = match List.find is_default rs with Some r => inet_ntoa (s_addr_bytes (rt_gw r)) | None => [] end) as Hloop;
    [|by apply Hloop].
  induction Hrs as [|r rs Hr Hrs IH]; intros fuel Hfuel; [by destruct fuel|].
  pose proof (row_in_line r Hr) as [Hb Hlb]. cbn [map concat] in *. rewrite row_line, <- app_assoc in *. cbn [app] in *.
  rewrite length_app in Hfuel. cbn in Hfuel. destruct fuel as [|fuel]; [lia|]. cbn [route_loop].
  rewrite Hf, (scan_row r Hr) by done. cbn [List.find]. fold (is_default r).
  destruct (is_default r); [done|]. apply IH. lia.
Qed.

(** The kernel writes the address a.b.c.d as the integer its four bytes are in memory. *)
Lemma s_addr_of_bytes a b c d :
  byte_ok a -> byte_ok b -> byte_ok c -> byte_ok d -> s_addr_bytes (read_be32 [d; c; b; a]) = [a; b; c; d].
Proof.
  intros Ha Hb Hc Hd. unfold s_addr_bytes, u32.
  assert (bytes_ok [d; c; b; a]) as Hok by 
    (repeat (apply Forall_cons_2; [done|]); apply Forall_nil_2).
  rewrite Z.mod_small by (apply read_be32_range; exact Hok). by rewrite write_read_be32.
Qed.

(** The mask is not read: the route 0.0.0.0/1 that a VPN client adds counts as the default
    route, and its tunnel's peer as the gateway. *)
Definition sample_routes : bytes :=
  str "Iface	Destination	Gateway 	Flags	RefCnt	Use	Metric	Mask" ++ [10]
  ++ route_row (mkRoute (str "tun0") 0 (read_be32 [1; 0; 8; 10]) 3 (str "0	0	0	00000080"))
  ++ route_row (mkRoute (str "eth0") 0 (read_be32 [1; 1; 168; 192]) 3 (str "0	0	100	00000000"))
  ++ route_row (mkRoute (str "eth0") (read_be32 [0; 1; 168; 192]) 0 1 (str "0	0	100	00FFFFFF")).

Definition dotted : Inet := {|
  inet_aton _ := None;
  inet_ntoa b := concat (map (fun x => to_string x ++ str ".") (take 3 b)) ++ to_string (default 0 (b !! 3%nat)) |}.

Example default_route_mask_ignored : default_gateway_ip (H := dotted) (Some sample_routes) = str "10.8.0.1".
Proof. vm_compute. reflexivity. Qed.

(** ** The local address is asked for without leaving a socket behind *)

Section local.
Context {K : Type} {SY : Sys Address K} `{Inet, Inet6}.
#[local] Arguments udp_close : simpl never.

(** When a socket can be made, the last thing done is to close it, whatever throws; the
    answer is the address the kernel gave, or empty. *)
Lemma local_ip_socket_closed gateway_host k :
  match sys_socket AF_INET false k with
  | (None, k1) => local_ip_for gateway_host k = (Done (Ok []), k1)
  | (Some fd, k1) => fd <> -1 ->
      exists r k2, local_ip_for gateway_host k = (Done r, snd (sys_close fd k2))
      /\ (r = Ok [] \/ exists dest k3 a, ipv4_of_text gateway_host 1900 = Ok dest
          /\ sys_connect fd dest k1 = (Connected, k3) /\ sys_getsockname fd k3 = (Some a, k2)
          /\ forall ip, ip4 a = Some ip -> r = Ok ip)
  end.
Proof.
  unfold local_ip_for, or_empty, udp_socket, bind, call, with_udp.
  change (domain_ok AF_INET) with true. cbn [negb]. destruct (sys_socket AF_INET false k) as [[fd|] k1]; [|done].
  intros Hfd. cbn [ret].
  assert (forall k2, snd (udp_close (mkUDP fd AF_INET) k2) = snd (sys_close fd k2)) as Hclose.
  { intros k2. unfold udp_close. cbn. rewrite (proj2 (Z.eqb_neq _ _) Hfd). unfold bind, call. by destruct (sys_close fd k2). }
  destruct (ipv4_of_text gateway_host 1900) as [dest|e] eqn:Edest; cbn [of_result].
  2:{ unfold ipv4_of_text in Edest. destruct (inet_aton _); [done|]. injection Edest as <-. cbn.
      rewrite Hclose. eexists _, k1. split; [done|by left]. }
  unfold udp_connect, local_address, bind, call. cbn. destruct (addr_domain dest =? AF_INET); cbn.
  2:{ rewrite Hclose. eexists _, k1. split; [done|by left]. }
  destruct (sys_connect fd dest k1) as [[] k3] eqn:Econn; cbn.
  2,3: rewrite Hclose; eexists _, k3; split; [done|by left].
  destruct (sys_getsockname fd k3) as [[a|] k2] eqn:Esock; cbn.
  2:{ rewrite Hclose. eexists _, k2. split; [done|by left]. }
  destruct (ip4 a) as [ip|] eqn:Eip; cbn; rewrite Hclose; eexists _, k2; (split; [done|]); right;
    exists dest, k3, a; (split; [done|]); (split; [done|]); (split; [done|]); intros ip' E; congruence.
Qed.
End local.
