(* ===== verification/SslSocket.v ===== *)
(** * TLS sockets
    (inc/net/ssl_socket.h, src/net/ssl_socket.cpp)

    [SSLSocket] puts OpenSSL between the client and a TCP socket.  OpenSSL is a class of
    calls ([Ssl]) on the same state as the system calls; modelled are the construction with
    its clean-up on every failure, the loops over partial reads and writes, the calls with
    a time-out, which switch the descriptor to non-blocking mode, and the ownership of the
    three resources. *)

From S2P Require Import Prelude Ownership Socket.
Local Open Scope prog_scope.

(** [SSL_get_error] *)
Inductive SslError :=
  SSL_ERROR_WANT_READ | SSL_ERROR_WANT_WRITE | SSL_ERROR_ZERO_RETURN | SSL_ERROR_OTHER.

(** The return value with the error a value that is not positive stands for; writing may
    raise SIGPIPE. *)
Inductive WriteResult := Wrote (n : nat) | WriteError (err : SslError) | WriteKilled.
Inductive ReadResult := ReadSome (x : Z) (data : bytes) | ReadZero | ReadError (err : SslError).

(** Contexts and connection objects are pointers; [None] is a null return, [false] a
    failing one. *)
Class Ssl (K : Type) := {
  SSL_CTX_new : K -> option Z * K;
  SSL_new : Z -> K -> option Z * K;
  SSL_CTX_free : Z -> K -> () * K;
  SSL_free : Z -> K -> () * K;
  SSL_set_tlsext_host_name : Z -> bytes -> K -> bool * K;
  SSL_set_fd : Z -> Z -> K -> bool * K;
  SSL_CTX_use_certificate_file : Z -> bytes -> K -> bool * K;
  SSL_CTX_use_PrivateKey_file : Z -> bytes -> K -> bool * K;
  SSL_CTX_check_private_key : Z -> K -> bool * K;
  SSL_connect : Z -> K -> bool * K;
  SSL_accept : Z -> K -> bool * K;
  SSL_shutdown : Z -> K -> () * K;
  SSL_write : Z -> bytes -> K -> WriteResult * K;
  SSL_read : Z -> nat -> K -> ReadResult * K;
  SSL_pending : Z -> K -> nat * K }.

(** [_ctx] and [_ssl] are null in an object that was moved from. *)
Record SSLSocket := mkSSL { _socket : TCPSocket; _ctx : option Z; _ssl : option Z }.

Section ssl.
Context {A K : Type} {SY : Sys A K} {SS : Ssl K}.

(** ** Construction *)

Definition free_ssl (ssl : option Z) : prog K () := match ssl with Some p => call (SSL_free p) | None => ret () end.
Definition free_ctx (ctx : option Z) : prog K () := match ctx with Some p => call (SSL_CTX_free p) | None => ret () end.

(** What a failing step frees before it throws; the member [_socket] is destroyed when the
    exception leaves the constructor. *)
Definition fail_ctor {X} (s : SSLSocket) (what : string) : prog K X :=
  free_ssl (_ssl s);;
  free_ctx (_ctx s);;
  tcp_destroy (_socket s);;
  throw (RuntimeError what).

(** [if (!f(...)) { free; throw }], for a pointer and for a status. *)
Definition alloc_or {X} (f : K -> option Z * K) (s : SSLSocket) (what : string) (next : Z -> prog K X) : prog K X :=
  p <- call f;; match p with None => fail_ctor s what | Some p => next p end.
Definition step_or {X} (f : K -> bool * K) (s : SSLSocket) (what : string) (next : prog K X) : prog K X :=
  ok <- call f;; if negb ok then fail_ctor s what else next.

(** [SSLSocket(TCPClientSocket&&, hostname)] *)
Definition ssl_client (s : TCPSocket) (hostname : bytes) : prog K SSLSocket :=
  alloc_or SSL_CTX_new (mkSSL s None None) "SSL_CTX_new() failed" (fun ctx =>
  alloc_or (SSL_new ctx) (mkSSL s (Some ctx) None) "SSL_new() failed" (fun ssl =>
  let self := mkSSL s (Some ctx) (Some ssl) in
  step_or (SSL_set_tlsext_host_name ssl hostname) self "SSL_set_tlsext_host_name() failed" (
  step_or (SSL_set_fd ssl (s_sockfd s)) self "SSL_set_fd() failed" (
  step_or (SSL_connect ssl) self "SSL_connect() failed" (
  ret self))))).

(** [SSLSocket(TCPAcceptSocket&&, cert_file, key_file)] *)
Definition ssl_server (s : TCPSocket) (cert_file key_file : bytes) : prog K SSLSocket :=
  alloc_or SSL_CTX_new (mkSSL s None None) "SSL_CTX_new() failed" (fun ctx =>
  let partial := mkSSL s (Some ctx) None in
  step_or (SSL_CTX_use_certificate_file ctx cert_file) partial "SSL_CTX_use_certificate_file() failed" (
  step_or (SSL_CTX_use_PrivateKey_file ctx key_file) partial "SSL_CTX_use_PrivateKey_file() failed" (
  step_or (SSL_CTX_check_private_key ctx) partial "Private key does not match certificate" (
  alloc_or (SSL_new ctx) partial "SSL_new() failed" (fun ssl =>
  let self := mkSSL s (Some ctx) (Some ssl) in
  step_or (SSL_set_fd ssl (s_sockfd s)) self "SSL_set_fd() failed" (
  step_or (SSL_accept ssl) self "SSL_accept() failed" (
  ret self))))))).

(** The destructor. *)
Definition ssl_destroy (s : SSLSocket) : prog K () :=
  match _ssl s with
  | Some p => call (SSL_shutdown p);; call (SSL_free p)
  | None => ret ()
  end;;
  free_ctx (_ctx s);;
  tcp_destroy (_socket s).

(** ** Sending and receiving *)

Definition ssl_write_some (ssl : Z) (rest : bytes) : prog K nat :=
  r <- call (SSL_write ssl rest);;
  match r with
  | Wrote n => ret n
  | WriteError _ => throw (RuntimeError "SSL_write() failed")
  | WriteKilled => killed
  end.

Fixpoint ssl_send_loop (fuel : nat) (ssl : Z) (buffer : bytes) (total_written : nat) : prog K () :=
  if (total_written <? length buffer)%nat then
    match fuel with
    | O => throw OutOfFuel
    | S fuel' =>
        n <- ssl_write_some ssl (drop total_written buffer);;
        ssl_send_loop fuel' ssl buffer (total_written + n)
    end
  else ret ().

(** A member function of an object that was moved from uses a null pointer. *)
Definition with_ssl {X} (s : SSLSocket) (f : Z -> prog K X) : prog K X :=
  match _ssl s with Some p => f p | None => throw (Undefined "null SSL pointer") end.

Definition ssl_send (s : SSLSocket) (buffer : bytes) : prog K () :=
  with_ssl s (fun ssl => ssl_send_loop (length buffer) ssl buffer 0).

(** A return of zero and [SSL_ERROR_ZERO_RETURN] are the end of the stream. *)
Definition ssl_read_some (ssl : Z) (size : nat) : prog K bytes :=
  r <- call (SSL_read ssl size);;
  match r with
  | ReadSome x data => ret (x :: data)
  | ReadZero | ReadError SSL_ERROR_ZERO_RETURN => ret []
  | ReadError _ => throw (RuntimeError "SSL_read() failed")
  end.

Definition ssl_recv (s : SSLSocket) (size : nat) : prog K bytes :=
  with_ssl s (fun ssl => ssl_read_some ssl size).

Fixpoint ssl_recv_all_loop (fuel : nat) (s : SSLSocket) (result : bytes) : prog K bytes :=
  match fuel with
  | O => throw OutOfFuel
  | S fuel' =>
      data <- ssl_recv s RECV_BUFFER;;
      match data with
      | [] => ret result
      | _ => ssl_recv_all_loop fuel' s (result ++ data)
      end
  end.

Definition ssl_recv_all (fuel : nat) (s : SSLSocket) : prog K bytes := ssl_recv_all_loop fuel s [].

(** ** With a time-out *)

(** [F_GETFL] and [F_SETFL] around the loops; the flags to restore. *)
Definition enter_nonblocking (fd : Z) : prog K Z :=
  flags <- call (sys_getfl fd);;
  match flags with
  | None => throw (RuntimeError "fcntl(F_GETFL) failed")
  | Some flags =>
      ok <- call (sys_setfl fd (Z.lor flags O_NONBLOCK));;
      if negb ok then throw (RuntimeError "fcntl(F_SETFL) failed") else ret flags
  end.

(** OpenSSL and the other side decide how often this loop turns without progress. *)
Fixpoint ssl_send_timeout_loop (fuel : nat) (ssl fd flags timeout_ms : Z) (buffer : bytes) (total_written : nat)
  : prog K () :=
  if (total_written <? length buffer)%nat then
    match fuel with
    | O => throw OutOfFuel
    | S fuel' =>
        r <- call (SSL_write ssl (drop total_written buffer));;
        match r with
        | Wrote n => ssl_send_timeout_loop fuel' ssl fd flags timeout_ms buffer (total_written + n)
        | WriteKilled => killed
        | WriteError SSL_ERROR_WANT_WRITE =>
            poll_or_throw fd POLLOUT timeout_ms;;
            ssl_send_timeout_loop fuel' ssl fd flags timeout_ms buffer total_written
        | WriteError SSL_ERROR_WANT_READ =>
            poll_or_throw fd POLLIN timeout_ms;;
            ssl_send_timeout_loop fuel' ssl fd flags timeout_ms buffer total_written
        | WriteError _ => restore fd flags;; throw (RuntimeError "SSL_write() failed")
        end
    end
  else restore fd flags.

Definition ssl_send_with_timeout (fuel : nat) (s : SSLSocket) (buffer : bytes) (timeout_ms : Z) : prog K () :=
  let fd := s_sockfd (_socket s) in
  flags <- enter_nonblocking fd;;
  with_ssl s (fun ssl => ssl_send_timeout_loop fuel ssl fd flags timeout_ms buffer 0).

Fixpoint ssl_recv_timeout_loop (fuel : nat) (ssl fd flags timeout_ms : Z) (size : nat) : prog K bytes :=
  match fuel with
  | O => throw OutOfFuel
  | S fuel' =>
      pending <- call (SSL_pending ssl);;
      (if (pending =? 0)%nat then poll_or_throw fd POLLIN timeout_ms else ret ());;
      r <- call (SSL_read ssl size);;
      match r with
      | ReadSome x data => restore fd flags;; ret (x :: data)
      | ReadZero | ReadError SSL_ERROR_ZERO_RETURN => restore fd flags;; ret []
      | ReadError SSL_ERROR_WANT_READ => ssl_recv_timeout_loop fuel' ssl fd flags timeout_ms size
      | ReadError SSL_ERROR_WANT_WRITE =>
          poll_or_throw fd POLLOUT timeout_ms;;
          ssl_recv_timeout_loop fuel' ssl fd flags timeout_ms size
      | ReadError SSL_ERROR_OTHER => restore fd flags;; throw (RuntimeError "SSL_read() failed")
      end
  end.

Definition ssl_recv_with_timeout (fuel : nat) (s : SSLSocket) (size : nat) (timeout_ms : Z) : prog K bytes :=
  let fd := s_sockfd (_socket s) in
  flags <- enter_nonblocking fd;;
  with_ssl s (fun ssl => ssl_recv_timeout_loop fuel ssl fd flags timeout_ms size).
End ssl.

(** ** Who frees what *)

Inductive Resource := Descriptor (fd : Z) | Context_object (id : Z) | Connection_object (id : Z).

Definition ssl_holds (s : SSLSocket) : list Resource :=
  map Connection_object (option_list (_ssl s)) ++ map Context_object (option_list (_ctx s))
  ++ map Descriptor (holds (_socket s)).

(** A move leaves the source's pointers null and its socket moved from. *)
Definition ssl_moved (s : SSLSocket) : SSLSocket := mkSSL (after_move (_socket s)) None None.

#[global] Instance ssl_movable : Movable SSLSocket Resource := {|
  holds := ssl_holds;
  give_back s := (ssl_moved s, ssl_holds s);
  after_move := ssl_moved;
  can_close := false |}.

#[global] Instance ssl_movable_ok : MovableOk SSLSocket Resource.
Proof. by split. Qed.

(** Whatever TLS sockets a program constructs, moves and destroys, every descriptor,
    context and connection object belongs to one live socket or has been freed once. *)
Lemma ssl_resources_freed_once (ops : list (ObjectOp SSLSocket)) :
  let st := object_run ops in
  created_by (∅, []) ops ≡ₚ owned st.1 ++ st.2 /\ (st.1 = ∅ -> created_by (∅, []) ops ≡ₚ st.2).
Proof. apply object_run_owned. Qed.

(** *** Constructors that fail

    [live k]: how many contexts, connection objects and descriptors exist. *)
Definition changes {K X} (live : K -> Z * Z * Z) (f : K -> X * K) (by_ : X -> Z * Z * Z) : Prop :=
  forall k x k', f k = (x, k') ->
    live k' = ((live k).1.1 + (by_ x).1.1, (live k).1.2 + (by_ x).1.2, (live k).2 + (by_ x).2).

Definition unchanged {K X} (live : K -> Z * Z * Z) (f : K -> X * K) : Prop := changes live f (fun _ => (0, 0, 0)).

Definition one (p : option Z) : Z := match p with Some _ => 1 | None => 0 end.

Class SslHeap {A K} {SY : Sys A K} {SS : Ssl K} (live : K -> Z * Z * Z) : Prop := {
  live_ctx_new : changes live SSL_CTX_new (fun p => (one p, 0, 0));
  live_new ctx : changes live (SSL_new ctx) (fun p => (0, one p, 0));
  live_ctx_free p : changes live (SSL_CTX_free p) (fun _ => (-1, 0, 0));
  live_free p : changes live (SSL_free p) (fun _ => (0, -1, 0));
  live_close fd : changes live (sys_close fd) (fun _ => (0, 0, -1));
  live_shut fd : unchanged live (sys_shutdown fd);
  live_ssl_shutdown p : unchanged live (SSL_shutdown p);
  live_host p h : unchanged live (SSL_set_tlsext_host_name p h);
  live_fd p fd : unchanged live (SSL_set_fd p fd);
  live_cert p f : unchanged live (SSL_CTX_use_certificate_file p f);
  live_key p f : unchanged live (SSL_CTX_use_PrivateKey_file p f);
  live_check p : unchanged live (SSL_CTX_check_private_key p);
  live_connect p : unchanged live (SSL_connect p);
  live_accept p : unchanged live (SSL_accept p) }.

Definition count (s : SSLSocket) : Z * Z * Z :=
  (one (_ctx s), one (_ssl s), if s_sockfd (_socket s) =? -1 then 0 else 1).

Definition minus (a b : Z * Z * Z) : Z * Z * Z := (a.1.1 - b.1.1, a.1.2 - b.1.2, a.2 - b.2).

Definition plus (a b : Z * Z * Z) : Z * Z * Z := (a.1.1 + b.1.1, a.1.2 + b.1.2, a.2 + b.2).

Lemma triple_eq (a b : Z * Z * Z) : a.1.1 = b.1.1 -> a.1.2 = b.1.2 -> a.2 = b.2 -> a = b.
Proof. destruct a as [[??]?], b as [[??]?]. cbn. congruence. Qed.

(** Calculations with counts: componentwise. *)
Ltac triples := apply triple_eq; unfold minus, plus, count; cbn [fst snd one _ctx _ssl _socket]; lia.

Section construction.
Context {A K : Type} {SY : Sys A K} {SS : Ssl K} {live : K -> Z * Z * Z} {OK : SslHeap live}.

(** [base]: what exists besides the object under construction. *)
Definition owns (base : Z * Z * Z) (s : SSLSocket) (k : K) : Prop := minus (live k) (count s) = base.

(** The constructor returns an object that owns all it made, or has given everything back,
    its socket included. *)
Definition no_leak (base : Z * Z * Z) (o : outcome SSLSocket) (k' : K) : Prop :=
  match o with
  | Done (Ok s) => owns base s k'
  | Done (Throw _) => live k' = base
  | Killed => False
  end.

Lemma call_live_wp {X} (f : K -> X * K) d k (Q : outcome X -> K -> Prop) :
  changes live f d -> (forall x k', live k' = plus (live k) (d x) -> Q (Done (Ok x)) k') -> wp (call f) k Q.
Proof. intros H HQ. apply wp_call. intros x k' E. apply HQ, (H _ _ _ E). Qed.

Lemma free_ssl_wp p k :
  wp (free_ssl p) k (fun o k' => o = Done (Ok ()) /\ live k' = minus (live k) (0, one p, 0)).
Proof.
  destruct p as [p|]; cbn [free_ssl].
  - eapply call_live_wp; [apply live_free|]. intros [] k' E. split; [done|]. rewrite E. triples.
  - wp_step. split; [done|]. triples.
Qed.

Lemma free_ctx_wp p k :
  wp (free_ctx p) k (fun o k' => o = Done (Ok ()) /\ live k' = minus (live k) (one p, 0, 0)).
Proof.
  destruct p as [p|]; cbn [free_ctx].
  - eapply call_live_wp; [apply live_ctx_free|]. intros [] k' E. split; [done|]. rewrite E. triples.
  - wp_step. split; [done|]. triples.
Qed.

Lemma tcp_destroy_wp s k :
  wp (tcp_destroy s) k (fun o k' => o = Done (Ok ())
    /\ live k' = minus (live k) (0, 0, if s_sockfd s =? -1 then 0 else 1)).
Proof.
  unfold tcp_destroy. destruct (s_sockfd s =? -1).
  - wp_step. split; [done|]. triples.
  - wp_step. eapply call_live_wp; [apply live_shut|]. intros [] k1 E1.
    eapply call_live_wp; [apply live_close|]. intros [] k2 E2. split; [done|]. rewrite E2, E1.
    triples.
Qed.

(** Whatever is handed to [fail_ctor] is given back. *)
Lemma fail_ctor_wp {X} base s what k :
  owns base s k -> wp (fail_ctor (X:=X) s what) k (fun o k' => o = Done (Throw (RuntimeError what)) /\ live k' = base).
Proof.
  intros Hs. unfold fail_ctor. wp_step. eapply wp_mono; [apply free_ssl_wp|]. intros o k1 [-> E1].
  wp_step. eapply wp_mono; [apply free_ctx_wp|]. intros o k2 [-> E2].
  wp_step. eapply wp_mono; [apply tcp_destroy_wp|]. intros o k3 [-> E3]. wp_step. split; [done|].
  rewrite E3, E2, E1. unfold owns in Hs. rewrite <- Hs. triples.
Qed.

Lemma step_or_wp f base s what next k :
  unchanged live f -> owns base s k -> (forall k', owns base s k' -> wp next k' (no_leak base)) ->
  wp (step_or f s what next) k (no_leak base).
Proof.
  intros Hf Hs Hn. unfold step_or. wp_step. eapply call_live_wp; [exact Hf|]. intros b k1 E.
  assert (owns base s k1) as Hs1.
  { unfold owns in *. rewrite E, <- Hs. triples. }
  destruct b; cbn [negb]; [by apply Hn|].
  eapply wp_mono; [by apply fail_ctor_wp|]. by intros o k2 [-> ?].
Qed.

Lemma alloc_or_wp f d base s s' what next k :
  changes live f (fun p => match p with Some _ => d | None => (0, 0, 0) end) ->
  owns base s k ->
  (forall p, count (s' p) = plus (count s) d) ->
  (forall p k', owns base (s' p) k' -> wp (next p) k' (no_leak base)) ->
  wp (alloc_or f s what next) k (no_leak base).
Proof.
  intros Hf Hs Hc Hn. unfold alloc_or. wp_step. eapply call_live_wp; [exact Hf|]. intros p k1 E.
  destruct p as [p|].
  - apply Hn. unfold owns in *. rewrite E, Hc, <- Hs. triples.
  - eapply wp_mono; [apply fail_ctor_wp|by intros o k2 [-> ?]].
    unfold owns in *. rewrite E, <- Hs. triples.
Qed.

Lemma ctx_new_changes : changes live SSL_CTX_new (fun p => match p with Some _ => (1, 0, 0) | None => (0, 0, 0) end).
Proof. intros k [p|] k' E; exact (live_ctx_new _ _ _ E). Qed.

Lemma new_changes ctx : changes live (SSL_new ctx) (fun p => match p with Some _ => (0, 1, 0) | None => (0, 0, 0) end).
Proof. intros k [p|] k' E; exact (live_new ctx _ _ _ E). Qed.

(** The calls that neither make nor free an object. *)
Ltac live_call :=
  first [apply live_host | apply live_fd | apply live_cert | apply live_key | apply live_check
        | apply live_connect | apply live_accept].

(** Both constructors take over the socket they are given, and whichever step fails, leave
    no context, no connection object and no open descriptor behind. *)
Lemma constructors_do_not_leak s hostname cert_file key_file base k :
  owns base (mkSSL s None None) k ->
  wp (ssl_client s hostname) k (no_leak base) /\ wp (ssl_server s cert_file key_file) k (no_leak base).
Proof.
  intros Hs. split.
  - unfold ssl_client.
    eapply (alloc_or_wp _ _ _ _ (fun p => mkSSL s (Some p) None)); [apply ctx_new_changes|done|intros; triples|]. intros ctx k1 H1.
    eapply (alloc_or_wp _ _ _ _ (fun p => mkSSL s (Some ctx) (Some p))); [apply new_changes|done|intros; triples|]. intros ssl k2 H2.
    cbv zeta. repeat (eapply step_or_wp; [live_call|eassumption|intros]).
    wp_step. done.
  - unfold ssl_server.
    eapply (alloc_or_wp _ _ _ _ (fun p => mkSSL s (Some p) None)); [apply ctx_new_changes|done|intros; triples|]. intros ctx k1 H1.
    cbv zeta. do 3 (eapply step_or_wp; [live_call|eassumption|intros]).
    eapply (alloc_or_wp _ _ _ _ (fun p => mkSSL s (Some ctx) (Some p))); [apply new_changes|eassumption|intros; triples|]. intros ssl k5 H5.
    repeat (eapply step_or_wp; [live_call|eassumption|intros]).
    wp_step. done.
Qed.

(** The destructor gives back what the object owns. *)
Lemma ssl_destroy_wp base s k :
  owns base s k -> wp (ssl_destroy s) k (fun o k' => o = Done (Ok ()) /\ live k' = base).
Proof.
  intros Hs. unfold ssl_destroy. wp_step.
  apply (wp_mono _ _ (fun o k' => o = Done (Ok ()) /\ live k' = minus (live k) (0, one (_ssl s), 0))).
  - destruct (_ssl s) as [p|]; [|wp_step; split; [done|]; triples].
    wp_step. eapply call_live_wp; [apply live_ssl_shutdown|]. intros [] k1 E1.
    eapply call_live_wp; [apply live_free|]. intros [] k2 E2. split; [done|]. rewrite E2, E1. triples.
  - intros o k1 [-> E1]. wp_step. eapply wp_mono; [apply free_ctx_wp|]. intros o k2 [-> E2].
    eapply wp_mono; [apply tcp_destroy_wp|]. intros o k3 [-> E3]. split; [done|].
    rewrite E3, E2, E1. unfold owns in Hs. rewrite <- Hs. triples.
Qed.
End construction.

(** ** TLS as a byte stream *)

Class SslOk {K} {SS : Ssl K} (ssl : Z) (arriving sent : K -> bytes) : Prop := {
  read_delivers n k x c k' : SSL_read ssl n k = (ReadSome x c, k') ->
    arriving k = x :: c ++ arriving k' /\ sent k' = sent k /\ (length (x :: c) <= n)%nat;
  read_ends n k r k' : SSL_read ssl n k = (r, k') -> r = ReadZero \/ r = ReadError SSL_ERROR_ZERO_RETURN ->
    arriving k = [] /\ arriving k' = [] /\ sent k' = sent k;
  read_fails n k e k' : SSL_read ssl n k = (ReadError e, k') -> sent k' = sent k;
  write_accepts d k n k' : SSL_write ssl d k = (Wrote n, k') ->
    (0 < n <= length d)%nat /\ sent k' = sent k ++ take n d /\ arriving k' = arriving k;
  write_refuses d k r k' : SSL_write ssl d k = (r, k') -> (forall n, r <> Wrote n) ->
    sent k' = sent k /\ arriving k' = arriving k }.

Section tls_stream.
Context {K : Type} {SS : Ssl K} {arriving sent : K -> bytes}.
Context (ssl : Z) {OK : SslOk ssl arriving sent}.

Lemma ssl_read_some_wp n k : wp (ssl_read_some ssl n) k (@delivers K arriving sent n k).
Proof.
  unfold ssl_read_some. wp_step. apply wp_call. intros [x c| |e] k' E.
  - destruct (read_delivers _ _ _ _ _ E) as (Ea & Es & Hl). by wp_step.
  - destruct (read_ends _ _ _ _ E ltac:(by left)) as (Ea & Ea' & Es). wp_step.
    split; [done|]. rewrite Ea, Ea'. split; [done|]. cbn. split; [lia|done].
  - pose proof (read_fails _ _ _ _ E) as Es.
    destruct e; wp_step; try (split; [done|by apply (bool_decide_unpack _)]).
    destruct (read_ends _ _ _ _ E ltac:(by right)) as (Ea & Ea' & _).
    split; [done|]. rewrite Ea, Ea'. split; [done|]. cbn. split; [lia|done].
Qed.

Lemma ssl_write_some_wp rest k : wp (ssl_write_some ssl rest) k (@writes_some K arriving sent rest k).
Proof.
  unfold ssl_write_some. wp_step. apply wp_call. intros r k' E. destruct r as [n|e|].
  - destruct (write_accepts _ _ _ _ E) as (Hn & Es & Ea). by wp_step.
  - destruct (write_refuses _ _ _ _ E ltac:(done)) as [Es Ea]. wp_step. split; [done|].
    split; [by apply (bool_decide_unpack _)|done].
  - destruct (write_refuses _ _ _ _ E ltac:(done)) as [Es Ea]. by split.
Qed.

Lemma ssl_send_loop_wp fuel buffer total k :
  (length buffer - total <= fuel)%nat ->
  wp (ssl_send_loop fuel ssl buffer total) k (@writes_on K arriving sent buffer total k).
Proof.
  revert total k. induction fuel as [|fuel IH]; intros total k Hf; cbn [ssl_send_loop]; case_if; b2p;
    try lia; try (wp_step; by apply writes_done).
  apply send_round_wp; [done|apply ssl_write_some_wp|]. intros n k' Hn Hl. apply IH. lia.
Qed.

(** An object that holds this connection sends all of a buffer or a proper prefix, and
    reads up to the end of the stream. *)
Lemma ssl_stream s buffer fuel k :
  _ssl s = Some ssl ->
  wp (ssl_send s buffer) k (@writes K arriving sent buffer k)
  /\ wp (ssl_recv_all fuel s) k (@reads_all K arriving sent fuel k []).
Proof.
  intros Hs. split.
  - unfold ssl_send, with_ssl. rewrite Hs. exact (ssl_send_loop_wp (length buffer) buffer 0 k ltac:(lia)).
  - unfold ssl_recv_all. generalize (@nil Z) as buf. revert k.
    induction fuel as [|fuel IH]; intros k buf; cbn [ssl_recv_all_loop].
    { wp_step. split; [done|]. right. split; [done|lia]. }
    apply (all_round_wp fuel buf k _ (fun got => ssl_recv_all_loop fuel s (buf ++ got))); [|auto].
    unfold ssl_recv, with_ssl. rewrite Hs. apply ssl_read_some_wp.
Qed.
End tls_stream.

(** ** The mode of the descriptor *)

Section mode.
Context {A K : Type} {SY : Sys A K} {SS : Ssl K} {flags : K -> Z}.
Context (fd ssl : Z) {OK : FlagsOk fd flags}.
Hypothesis read_flags : forall n k r k', SSL_read ssl n k = (r, k') -> flags k' = flags k.
Hypothesis pending_flags : forall k r k', SSL_pending ssl k = (r, k') -> flags k' = flags k.

(** Restored whenever the loop itself ends the call; an exception of [poll_or_throw], on
    the other hand, leaves the descriptor in non-blocking mode. *)
Definition mode_after (f before : Z) {X} (o : outcome X) (k' : K) : Prop :=
  match o with
  | Done (Ok _) => flags k' = f
  | Done (Throw e) =>
      if decide (e = RuntimeError "timed out" \/ e = RuntimeError "poll() failed" \/ e = OutOfFuel)
      then flags k' = before else flags k' = f
  | Killed => True
  end.

#[local] Arguments mode_after : simpl never.

Lemma mode_left f before {X} e k' :
  e = RuntimeError "timed out" \/ e = RuntimeError "poll() failed" \/ e = OutOfFuel ->
  flags k' = before -> mode_after f before (X:=X) (Done (Throw e)) k'.
Proof. intros He Hf. unfold mode_after. by rewrite decide_True. Qed.

Lemma poll_mode ev t k f {X} (m : prog K X) :
  (forall k', flags k' = flags k -> wp m k' (mode_after f (flags k))) ->
  wp (bind (poll_or_throw fd ev t) (fun _ => m)) k (mode_after f (flags k)).
Proof.
  intros Hm. wp_step. unfold poll_or_throw. wp_step. apply wp_call. intros r k' E.
  apply poll_flags in E. destruct r; wp_step; [by apply Hm|..]; apply mode_left; auto.
Qed.

Lemma restore_mode f before {X} (r : result X) k :
  (forall e, r = Throw e -> ~ (e = RuntimeError "timed out" \/ e = RuntimeError "poll() failed" \/ e = OutOfFuel)) ->
  wp (bind (restore fd f) (fun _ => match r with Ok x => ret x | Throw e => throw e end)) k (mode_after f before).
Proof.
  intros Hr. wp_step. unfold restore. wp_step. apply wp_call. intros b k' E.
  destruct (setfl_writes _ _ _ _ E) as [_ Ef]. wp_step. destruct r as [x|e]; wp_step; [done|].
  unfold mode_after. rewrite decide_False; auto.
Qed.

Lemma ssl_recv_timeout_mode fuel f timeout_ms size k :
  wp (ssl_recv_timeout_loop fuel ssl fd f timeout_ms size) k (mode_after f (flags k)).
Proof.
  revert k. induction fuel as [|fuel IH]; intros k; cbn [ssl_recv_timeout_loop].
  { wp_step. apply mode_left; auto. }
  wp_step. apply wp_call. intros p k1 E1. apply pending_flags in E1. rewrite <- E1. clear E1 k.
  assert (forall k, flags k = flags k1 -> wp (bind (call (SSL_read ssl size)) (fun r =>
      match r with
      | ReadSome x data => restore fd f;; ret (x :: data)
      | ReadZero | ReadError SSL_ERROR_ZERO_RETURN => restore fd f;; ret []
      | ReadError SSL_ERROR_WANT_READ => ssl_recv_timeout_loop fuel ssl fd f timeout_ms size
      | ReadError SSL_ERROR_WANT_WRITE =>
          poll_or_throw fd POLLOUT timeout_ms;;
          ssl_recv_timeout_loop fuel ssl fd f timeout_ms size
      | ReadError SSL_ERROR_OTHER => restore fd f;; throw (RuntimeError "SSL_read() failed")
      end)) k (mode_after f (flags k1))) as Hread.
  { intros k <-. wp_step. apply wp_call. intros r k2 E2. apply read_flags in E2. rewrite <- E2.
    destruct r as [x data| |[]].
    - by apply (restore_mode f _ (Ok (x :: data))).
    - by apply (restore_mode f _ (Ok [])).
    - apply IH.
    - apply poll_mode. intros k3 <-. apply IH.
    - by apply (restore_mode f _ (Ok [])).
    - apply (restore_mode f _ (Throw (RuntimeError "SSL_read() failed"))).
      intros e [= <-]. intuition discriminate. }
  destruct (p =? 0)%nat.
  - apply poll_mode. intros k2 E2. by apply Hread.
  - wp_step. wp_step. by apply Hread.
Qed.
End mode.

(** ** A library

    One connection; [t_fail] allocations and steps of the handshake succeed; a silent
    connection never becomes ready, one that trickles delivers parts of a record only, a
    millisecond before each time-out. *)
Record Tls := mkTls {
  t_in : bytes; t_out : bytes; t_flags : Z; t_clock : Z; t_live : Z * Z * Z; t_fail : nat;
  t_silent : bool; t_trickles : bool }.

Definition tls_count (d : Z * Z * Z) (k : Tls) : Tls :=
  mkTls (t_in k) (t_out k) (t_flags k) (t_clock k) (plus (t_live k) d) (pred (t_fail k)) (t_silent k) (t_trickles k).
Definition tls_move (i o : bytes) (k : Tls) : Tls :=
  mkTls i o (t_flags k) (t_clock k) (t_live k) (t_fail k) (t_silent k) (t_trickles k).
Definition tls_wait (ms : Z) (k : Tls) : Tls :=
  mkTls (t_in k) (t_out k) (t_flags k) (t_clock k + ms * 1000000) (t_live k) (t_fail k) (t_silent k) (t_trickles k).
Definition tls_mode (v : Z) (k : Tls) : Tls :=
  mkTls (t_in k) (t_out k) v (t_clock k) (t_live k) (t_fail k) (t_silent k) (t_trickles k).

Definition tls_alloc (d : Z * Z * Z) (k : Tls) : option Z * Tls :=
  if (t_fail k =? 0)%nat then (None, k) else (Some 1, tls_count d k).
Definition tls_step (k : Tls) : bool * Tls :=
  if (t_fail k =? 0)%nat then (false, k) else (true, tls_count (0, 0, 0) k).

#[global] Instance tls_sys : Sys Z Tls := {|
  sys_socket _ _ k := (Some 3, k);
  sys_send _ _ k := (SendFailed, k);
  sys_recv _ _ k := (None, k);
  sys_poll _ _ t k := if t_silent k then (TimedOut, tls_wait t k) else (Ready, tls_wait (t - 1) k);
  sys_now k := (t_clock k, k);
  sys_getfl _ k := (Some (t_flags k), k);
  sys_setfl _ v k := (true, tls_mode v k);
  sys_connect _ _ k := (InProgress, k);
  sys_so_error _ k := (Some 0, k);
  sys_setsockopt _ _ k := (true, k);
  sys_bind _ _ k := (true, k);
  sys_listen _ _ k := (true, k);
  sys_accept _ k := (Some 4, k);
  sys_recvfrom _ _ k := (None, k);
  sys_sendto _ _ _ k := (true, k);
  sys_getsockname _ k := (Some AF_INET, k);
  sys_shutdown _ k := ((), k);
  sys_close _ k := ((), tls_count (0, 0, -1) k);
  sys_inet_aton _ := None;
  addr_domain a := a |}.

#[global] Instance tls_ssl : Ssl Tls := {|
  SSL_CTX_new := tls_alloc (1, 0, 0);
  SSL_new _ := tls_alloc (0, 1, 0);
  SSL_CTX_free _ k := ((), tls_count (-1, 0, 0) k);
  SSL_free _ k := ((), tls_count (0, -1, 0) k);
  SSL_set_tlsext_host_name _ _ := tls_step;
  SSL_set_fd _ _ := tls_step;
  SSL_CTX_use_certificate_file _ _ := tls_step;
  SSL_CTX_use_PrivateKey_file _ _ := tls_step;
  SSL_CTX_check_private_key _ := tls_step;
  SSL_connect _ := tls_step;
  SSL_accept _ := tls_step;
  SSL_shutdown _ k := ((), k);
  SSL_write _ d k :=
    match d with
    | x :: _ => (Wrote 1, tls_move (t_in k) (t_out k ++ [x]) k)
    | [] => (WriteError SSL_ERROR_OTHER, k)
    end;
  SSL_read _ n k :=
    if t_trickles k then (ReadError SSL_ERROR_WANT_READ, k) else
    match n, t_in k with
    | S _, x :: i => (ReadSome x [], tls_move i (t_out k) k)
    | O, _ => (ReadError SSL_ERROR_OTHER, k)
    | _, [] => (ReadError SSL_ERROR_ZERO_RETURN, k)
    end;
  SSL_pending _ k := (0%nat, k) |}.

#[global] Instance tls_heap : SslHeap t_live.
Proof.
  assert (unchanged t_live tls_step) as Hstep.
  { intros k b k'. unfold tls_step. case_if; intros [= <- <-]; apply triple_eq; cbn; lia. }
  assert (forall d, changes t_live (tls_alloc d) (fun p => (one p * d.1.1, one p * d.1.2, one p * d.2))) as Halloc.
  { intros d k p k'. unfold tls_alloc. case_if; intros [= <- <-]; apply triple_eq; cbn; lia. }
  split; try done.
  - intros k p k' E. rewrite (Halloc _ _ _ _ E). apply triple_eq; cbn; lia.
  - intros c k p k' E. rewrite (Halloc _ _ _ _ E). apply triple_eq; cbn; lia.
  - intros p k u k' [= <- <-]. apply triple_eq; cbn; lia.
  - intros p k u k' [= <- <-]. apply triple_eq; cbn; lia.
  - intros fd k u k' [= <- <-]. apply triple_eq; cbn; lia.
  - intros fd k u k' [= <- <-]. apply triple_eq; cbn; lia.
  - intros p k u k' [= <- <-]. apply triple_eq; cbn; lia.
Qed.

#[global] Instance tls_stream_ok p : SslOk p t_in t_out.
Proof.
  split; cbn.
  - intros n k x c k'. destruct (t_trickles k); [done|]. destruct n, (t_in k) eqn:E; try done.
    intros [= <- <- <-]. cbn. split; [done|]. split; [done|lia].
  - intros n k r k'. destruct (t_trickles k); [by intros [= <- <-] [?|?]|].
    destruct n, (t_in k) eqn:E; intros [= <- <-] [?|?]; try done.
  - intros n k e k'. destruct (t_trickles k); [by intros [= <- <-]|]. by destruct n, (t_in k); intros [= <- <-].
  - intros [|x d] k n k'; [done|]. intros [= <- <-]. cbn. split; [lia|]. split; [|done]. by destruct d.
  - intros [|x d] k r k'; [by intros [= <- <-]|]. intros [= <- <-] H. by destruct (H _ eq_refl).
Qed.

#[global] Instance tls_flags_ok fd : FlagsOk fd t_flags.
Proof.
  split; cbn.
  - intros k r k' [= <- <-]. split; [done|by intros f [= <-]].
  - by intros v k ok k' [= <- <-].
  - intros ev t k r k'. by destruct (t_silent k); intros [= <- <-].
Qed.

Definition tls_sample (silent trickles : bool) (fail : nat) : Tls :=
  mkTls (str "HTTP/1.1 200 OK") [] 2 0 (0, 0, 1) fail silent trickles.
Definition tls_socket : SSLSocket := mkSSL (mkTCP 3 AF_INET) (Some 1) (Some 1).

(** The client's constructor succeeds, or fails at its fourth step and leaves nothing. *)
Example client_sample :
  (ssl_client (mkTCP 3 AF_INET) (str "tracker") (tls_sample false false 5)).1 = Done (Ok tls_socket)
  /\ (let '(o, k) := ssl_client (mkTCP 3 AF_INET) (str "tracker") (tls_sample false false 3) in
      o = Done (Throw (RuntimeError "SSL_set_fd() failed")) /\ t_live k = (0, 0, 0)).
Proof. vm_compute. repeat split; reflexivity. Qed.

Example recv_all_sample :
  (ssl_recv_all 20 tls_socket (tls_sample false false 5)).1 = Done (Ok (str "HTTP/1.1 200 OK")).
Proof. vm_compute. reflexivity. Qed.

(** The exception of a wait that timed out leaves the function without restoring the mode:
    the descriptor of the socket, which lives on, stays non-blocking, and a later [send] or
    [recv] fails where it would have waited. *)
Lemma ssl_timeout_leaves_nonblocking :
  let '(o, k) := ssl_recv_with_timeout 1 tls_socket 4096 1000 (tls_sample true false 5) in
  o = Done (Throw (RuntimeError "timed out")) /\ t_flags (tls_sample true false 5) = 2 /\ t_flags k = Z.lor 2 O_NONBLOCK.
Proof. vm_compute. repeat split; reflexivity. Qed.

(** The time-out is that of one wait: a server that sends a part of a record every so often
    keeps the call waiting for any number of rounds. *)
Lemma trickle_loop fuel f k :
  t_trickles k = true -> t_silent k = false ->
  let '(o, k') := ssl_recv_timeout_loop fuel 1 3 f 1000 4096 k in
  o = Done (Throw OutOfFuel) /\ t_clock k' = t_clock k + Z.of_nat fuel * 999000000.
Proof.
  revert k. induction fuel as [|fuel IH]; intros k Ht Hs; [cbn [ssl_recv_timeout_loop throw]; split; [done|lia]|].
  cbn [ssl_recv_timeout_loop]. unfold bind at 1. cbn [call SSL_pending tls_ssl Nat.eqb].
  unfold bind at 1, poll_or_throw, bind at 1, call at 1. cbn [sys_poll tls_sys]. rewrite Hs.
  unfold ret at 1, bind at 1, call at 1. cbn [SSL_read tls_ssl t_trickles tls_wait]. rewrite Ht.
  specialize (IH (tls_wait 999 k) Ht Hs). change (1000 - 1) with 999.
  unfold tls_wait in IH |- *. destruct (ssl_recv_timeout_loop fuel 1 3 f 1000 4096 _) as [o k'].
  destruct IH as [-> IH]. split; [done|]. rewrite IH. cbn [t_clock]. lia.
Qed.

Lemma ssl_timeout_restarts fuel :
  let '(o, k) := ssl_recv_with_timeout fuel tls_socket 4096 1000 (tls_sample false true 5) in
  o = Done (Throw OutOfFuel) /\ t_clock k = Z.of_nat fuel * 999000000.
Proof. exact (trickle_loop fuel 2 (tls_mode (Z.lor 2 O_NONBLOCK) (tls_sample false true 5)) eq_refl eq_refl). Qed.
