(* ===== verification/HttpExchange.v ===== *)
(** * HTTP requests over sockets
    (src/trackers/http_tracker_communicator.cpp, [send_http_tracker_get])

    HttpTracker.v takes what happens at one address as a function from the request to the
    response.  Here the same loop runs on the sockets of Socket.v and SslSocket.v: it
    connects, wraps the socket for https, sends, reads to the end of the stream, and the
    destructors run on every path out of the [try] block.  The theorem relates the two. *)

From S2P Require Import Prelude CxxLib Hash Addr Bencode TorrentFile Net Tracker HttpTracker Ownership PeerMessage Socket SslSocket.
Local Open Scope prog_scope.

(** ** Objects and scopes *)

Section scopes.
Context {K : Type}.

(** The rest of a block in which an object lives: its destructor runs at the end, also on
    an exception, but not when the process is killed. *)
Definition scoped {X} (destroy : prog K ()) (body : prog K X) : prog K X := fun k =>
  match body k with
  | (Done r, k1) => match destroy k1 with (Done _, k2) => (Done r, k2) | (Killed, k2) => (Killed, k2) end
  | (Killed, k1) => (Killed, k1)
  end.

(** A part of it that may throw. *)
Definition unwinding {X} (destroy : prog K ()) (part : prog K X) : prog K X := fun k =>
  match part k with
  | (Done (Throw e), k1) => match destroy k1 with (Done _, k2) => (Done (Throw e), k2) | (Killed, k2) => (Killed, k2) end
  | r => r
  end.
End scopes.

Definition CONNECT_TIMEOUT_MS : Z := 10000.
Definition RECV_TIMEOUT_MS : Z := 15000.

Section exchange.
Context {A K : Type} {SY : Sys A K} {SS : Ssl K}.

(** The fuel of the reading loops; the tracker decides how long they run. *)
Context (fuel : nat) (use_tls : bool) (hostname request : bytes).

(** [TCPClientSocket tcp_sock(domain); tcp_sock.connect_with_timeout(...)] *)
Definition open_tcp (addr : A) : prog K TCPSocket :=
  let domain := if addr_domain addr =? Socket.AF_INET6 then Socket.AF_INET6 else Socket.AF_INET in
  tcp_sock <- client_socket domain;;
  unwinding (tcp_destroy tcp_sock) (connect_with_timeout tcp_sock addr CONNECT_TIMEOUT_MS);;
  ret tcp_sock.

(** The socket that was moved into [ssl_sock] holds nothing; if the constructor throws, its
    member is destroyed ([fail_ctor]). *)
Definition exchange (addr : A) : prog K bytes :=
  tcp_sock <- open_tcp addr;;
  if use_tls then
    ssl_sock <- ssl_client tcp_sock hostname;;
    scoped (ssl_destroy ssl_sock) (ssl_send ssl_sock request;; ssl_recv_all fuel ssl_sock)
  else
    scoped (tcp_destroy tcp_sock) (send tcp_sock request;; recv_all_with_timeout fuel tcp_sock RECV_TIMEOUT_MS).

(** The loop over the addresses with its [try]: what is done with the response is
    [try_address]. *)
Fixpoint get_over (addresses : list (Family * A)) : prog K bytes :=
  match addresses with
  | [] => throw (RuntimeError "HTTP tracker request failed: exhausted all addresses")
  | (f, addr) :: rest => fun k =>
      match exchange addr k with
      | (Killed, k1) => (Killed, k1)
      | (Done r, k1) =>
          match try_address use_tls request (f, fun _ _ => r) with
          | Ok (Some b) => (Done (Ok b), k1)
          | Ok None => get_over rest k1
          | Throw e => if catchable e then get_over rest k1 else (Done (Throw e), k1)
          end
      end
  end.
End exchange.

(** [send_http_tracker_get] *)
Definition http_get_over {A K} {SY : Sys A K} {SS : Ssl K} (fuel : nat) (tracker : TrackerDetails) (query_string : bytes)
    (res : option (list (Family * A))) : prog K bytes := fun k =>
  let request := build_http_request tracker query_string in
  match dns_lookup res with
  | Throw e => (Done (Throw e), k)
  | Ok [] => (Done (Throw (RuntimeError "DNS lookup failed")), k)
  | Ok addresses => get_over fuel (protocol_eqb (protocol tracker) HTTPS) (hostname tracker) request addresses k
  end.

(** [HTTPTrackerCommunicator::announce] *)
Definition http_announce_over `{Inet} {A K} {SY : Sys A K} {SS : Ssl K} (fuel : nat) (res : option (list (Family * A)))
    (tracker : TrackerDetails) (a : AnnounceArgs) : prog K (list PeerAddress) := fun k =>
  match http_get_over fuel tracker (build_query_string a) res k with
  | (Done r, k1) => (Done (mbind parse_tracker_response r), k1)
  | (Killed, k1) => (Killed, k1)
  end.

(** ** What a kernel guarantees

    A descriptor and a TLS connection carry a byte stream each; [live] counts contexts,
    connection objects and descriptors, and only the calls that make or free one change
    it. *)
Class HttpKernel {A K} {SY : Sys A K} {SS : Ssl K} (live : K -> Z * Z * Z)
    (arriving sent tls_arriving tls_sent : Z -> K -> bytes) : Prop := {
  hk_tcp fd :: TcpOk fd (arriving fd) (sent fd);
  hk_tls p :: SslOk p (tls_arriving p) (tls_sent p);
  hk_heap :: SslHeap live;
  hk_socket d s : changes live (sys_socket d s) (fun fd => (0, 0, one fd));
  hk_fd d s k fd k' : sys_socket d s k = (Some fd, k') -> fd <> -1;
  hk_connect fd a : unchanged live (sys_connect fd a);
  hk_getfl fd : unchanged live (sys_getfl fd);
  hk_setfl fd v : unchanged live (sys_setfl fd v);
  hk_poll fd ev t : unchanged live (sys_poll fd ev t);
  hk_so_error fd : unchanged live (sys_so_error fd);
  hk_send fd d : unchanged live (sys_send fd d);
  hk_recv fd n : unchanged live (sys_recv fd n);
  hk_now : unchanged live sys_now;
  hk_write p d : unchanged live (SSL_write p d);
  hk_read p n : unchanged live (SSL_read p n) }.

Section kernel.
Context {A K : Type} {SY : Sys A K} {SS : Ssl K} {live : K -> Z * Z * Z}.
Context {arriving sent tls_arriving tls_sent : Z -> K -> bytes}.
Context {HK : HttpKernel live arriving sent tls_arriving tls_sent}.

(** *** Calls that make and free nothing *)

Definition still {X} (m : prog K X) : Prop := forall k, live (m k).2 = live k.

Lemma still_ret {X} (x : X) : still (ret x).
Proof. done. Qed.
Lemma still_throw {X} e : still (throw (A:=X) e).
Proof. done. Qed.
Lemma still_killed {X} : still (killed (A:=X)).
Proof. done. Qed.

Lemma still_bind {X Y} (m : prog K X) (f : X -> prog K Y) : still m -> (forall x, still (f x)) -> still (bind m f).
Proof.
  intros Hm Hf k. unfold bind. specialize (Hm k). destruct (m k) as [[[x|e]|] k1]; cbn in *; [|done..]. by rewrite (Hf x k1).
Qed.

Lemma still_call {X} (f : K -> X * K) : unchanged live f -> still (call f).
Proof.
  intros Hf k. unfold call. destruct (f k) as [x k'] eqn:E. cbn. rewrite (Hf _ _ _ E). apply triple_eq; cbn; lia.
Qed.
End kernel.

Create HintDb still.
#[export] Hint Resolve still_ret still_throw still_killed : still.

(** Programs made of such calls. *)
Ltac still :=
  repeat first
    [ by auto with still
    | apply still_bind; [|intros ?]
    | apply still_call; first
        [ eapply hk_connect | eapply hk_getfl | eapply hk_setfl | eapply hk_poll | eapply hk_so_error | eapply hk_send
        | eapply hk_recv | eapply hk_now | eapply hk_write | eapply hk_read ]
    | match goal with
      | |- still (match ?x with _ => _ end) => destruct x
      | |- still (let _ := _ in _) => cbv zeta
      end ].

Section kernel.
Context {A K : Type} {SY : Sys A K} {SS : Ssl K} {live : K -> Z * Z * Z}.
Context {arriving sent tls_arriving tls_sent : Z -> K -> bytes}.
Context {HK : HttpKernel live arriving sent tls_arriving tls_sent}.

Lemma still_connect s a t : still (live := live) (connect_with_timeout s a t).
Proof. unfold connect_with_timeout, finish_connect, restore. still. Qed.

Lemma still_send s b : still (live := live) (send s b).
Proof.
  unfold send. generalize (length b) as fuel. generalize 0%nat as total. intros total fuel. revert total.
  induction fuel as [|fuel IH]; intros total; cbn [send_loop]; unfold send_some; still.
Qed.

Lemma still_recv_all fuel s t : still (live := live) (recv_all_with_timeout fuel s t).
Proof.
  unfold recv_all_with_timeout. apply still_bind; [unfold deadline_after; still|]. generalize (@nil Z) as buf.
  induction fuel as [|fuel IH]; intros buf d; cbn [recv_all_timeout_loop];
    unfold remaining, recv_with_timeout, poll_or_throw, recv; still.
Qed.

Lemma still_ssl_send s b : still (live := live) (ssl_send s b).
Proof.
  unfold ssl_send, with_ssl. destruct (_ssl s) as [p|]; [|still]. generalize 0%nat as total. generalize (length b) as fuel.
  induction fuel as [|fuel IH]; intros total; cbn [ssl_send_loop]; unfold ssl_write_some; still.
Qed.

Lemma still_ssl_recv_all fuel s : still (live := live) (ssl_recv_all fuel s).
Proof.
  unfold ssl_recv_all. generalize (@nil Z) as buf.
  induction fuel as [|fuel IH]; intros buf; cbn [ssl_recv_all_loop]; unfold ssl_recv, with_ssl, ssl_read_some; still.
Qed.

(** *** How the parts of an exchange end *)

Definition runtime (e : exn) : Prop := match e with RuntimeError _ => True | _ => False end.

Definition ends {X} (P : X -> Prop) (m : prog K X) : Prop := forall k,
  match (m k).1 with Done (Ok x) => P x | Done (Throw e) => runtime e | Killed => False end.

Lemma ends_ret {X} (P : X -> Prop) x : P x -> ends P (ret x).
Proof. by intros H k. Qed.
Lemma ends_throw {X} (P : X -> Prop) e : runtime e -> ends P (throw e).
Proof. by intros H k. Qed.
Lemma ends_call {X} (f : K -> X * K) : ends (fun _ => True) (call f).
Proof. intros k. unfold call. by destruct (f k). Qed.
Lemma ends_bind {X Y} (P : Y -> Prop) (m : prog K X) (f : X -> prog K Y) :
  ends (fun _ => True) m -> (forall x, ends P (f x)) -> ends P (bind m f).
Proof.
  intros Hm Hf k. unfold bind. specialize (Hm k). destruct (m k) as [[[x|e]|] k1]; cbn in *; [|done..]. apply (Hf x k1).
Qed.

Ltac ends :=
  repeat first
    [ by apply ends_ret; eauto | by apply ends_throw | apply ends_call
    | apply ends_bind; [|intros ?]
    | match goal with
      | |- ends _ (match ?x with _ => _ end) => destruct x
      | |- ends _ (let _ := _ in _) => cbv zeta
      end ].

Lemma connect_ends s a t : ends (fun _ => True) (connect_with_timeout s a t).
Proof. unfold connect_with_timeout, finish_connect, restore. ends. Qed.

Lemma ssl_client_ends s h : ends (fun t => exists p, _ssl t = Some p) (ssl_client s h).
Proof. unfold ssl_client, alloc_or, step_or, fail_ctor, free_ssl, free_ctx, tcp_destroy. ends. Qed.

Lemma system_runtime e : system_failure e -> runtime e.
Proof.
  intros H. unfold system_failure, system_failures in H. repeat (apply elem_of_cons in H as [->|H]; [done|]).
  by apply not_elem_of_nil in H.
Qed.

(** The socket is connected and counted, or everything is as before. *)
Lemma open_tcp_wp addr k :
  wp (open_tcp addr) k (fun o k' =>
    match o with
    | Done (Ok s) => s_sockfd s <> -1 /\ live k' = plus (live k) (0, 0, 1)
    | Done (Throw e) => runtime e /\ live k' = live k
    | Killed => False
    end).
Proof.
  unfold open_tcp. set (d := if _ =? _ then _ else _).
  assert (domain_ok d = true) as Hd by (unfold d; by case_if).
  wp_step. unfold client_socket, tcp_socket. rewrite Hd. cbn [negb]. wp_step. wp_step. wp_step. apply wp_call. intros [fd|] k1 E.
  2: { wp_step. split; [done|]. rewrite (hk_socket _ _ _ _ _ E). triples. }
  pose proof (hk_fd _ _ _ _ _ E) as Hfd. pose proof (hk_socket _ _ _ _ _ E) as El. cbn [one] in El.
  wp_step. cbn [s_domain]. wp_step. unfold wp, unwinding. set (s := mkTCP fd d).
  pose proof (connect_ends s addr CONNECT_TIMEOUT_MS k1) as He. pose proof (still_connect s addr CONNECT_TIMEOUT_MS k1) as Hs.
  destruct (connect_with_timeout s addr CONNECT_TIMEOUT_MS k1) as [[[u|e]|] k2]; cbn in He, Hs; [|clear El; pose proof (hk_socket _ _ _ _ _ E) as El|done].
  - cbn. split; [done|]. by rewrite Hs, El.
  - pose proof (tcp_destroy_wp (live := live) s k2) as Hdes. unfold wp in Hdes. destruct (tcp_destroy s k2) as [o k3]. cbn in Hdes.
    destruct Hdes as [-> Hl]. cbn. split; [done|]. rewrite Hl, Hs, El. cbn [s s_sockfd one]. rewrite (proj2 (Z.eqb_neq _ _)) by done. triples.
Qed.

(** *** One address *)

Context (fuel : nat) (use_tls : bool) (hostname request : bytes).

(** The connection and the streams of its two directions. *)
Inductive connected (addr : A) (k : K) : K -> (K -> bytes) -> (K -> bytes) -> Prop :=
  | over_tcp s k1 :
      use_tls = false -> open_tcp addr k = (Done (Ok s), k1) ->
      connected addr k k1 (arriving (s_sockfd s)) (sent (s_sockfd s))
  | over_tls s k1 t p k2 :
      use_tls = true -> open_tcp addr k = (Done (Ok s), k1) -> ssl_client s hostname k1 = (Done (Ok t), k2) -> _ssl t = Some p ->
      connected addr k k2 (tls_arriving p) (tls_sent p).

(** The response is all that arrives on a connection which has carried the request; an
    exception is one of the sockets', or the response is longer than the fuel. *)
Definition carried (addr : A) (k : K) (r : result bytes) : Prop :=
  match r with
  | Ok raw => exists k1 inp out k2, connected addr k k1 inp out /\ raw = inp k1 /\ out k2 = out k1 ++ request /\ inp k2 = []
  | Throw (RuntimeError _) => True
  | Throw OutOfFuel => exists k1 inp out, connected addr k k1 inp out /\ (fuel <= length (inp k1))%nat
  | Throw _ => False
  end.

(** Sending, then reading to the end. *)
Lemma talk_wp (inp out : K -> bytes) (snd_ : prog K ()) (rcv : prog K bytes) k :
  (forall k, wp snd_ k (@writes K inp out request k)) -> (forall k, wp rcv k (@reads_all K inp out fuel k [])) ->
  wp (bind snd_ (fun _ => rcv)) k (fun o k' =>
    match o with
    | Done (Ok raw) => raw = inp k /\ out k' = out k ++ request /\ inp k' = []
    | Done (Throw e) => runtime e \/ (e = OutOfFuel /\ (fuel <= length (inp k))%nat)
    | Killed => True
    end).
Proof.
  intros Hs Hr. wp_step. eapply wp_mono; [apply Hs|]. intros o k1 [Ei H]. destruct o as [[[]|e]|]; [|left; apply system_runtime, H|done].
  eapply wp_mono; [apply Hr|]. intros o k2 [Es H2]. destruct o as [[raw|e]|]; [|destruct H2 as [H2|H2]|done].
  - destruct H2 as [-> H2]. by rewrite Es, <- H, <- Ei.
  - left. by apply system_runtime.
  - right. by rewrite <- Ei.
Qed.

(** A scope whose body leaves the counts alone and whose destructor gives its object back. *)
Lemma scoped_wp base destroy (body : prog K bytes) k (Q : result bytes -> Prop) :
  still (live := live) body -> wp body k (fun o _ => match o with Done r => Q r | Killed => True end) ->
  (forall k', live k' = live k -> wp destroy k' (fun o k2 => o = Done (Ok ()) /\ live k2 = base)) ->
  wp (scoped destroy body) k (fun o k' => match o with Done r => live k' = base /\ Q r | Killed => True end).
Proof.
  unfold wp, scoped. intros Hs Hb Hd. specialize (Hs k). destruct (body k) as [[r|] k1]; cbn in *; [|done].
  specialize (Hd k1 Hs). destruct (destroy k1) as [o k2]. cbn in Hd. by destruct Hd as [-> Hd].
Qed.

Lemma carried_talk addr k k1 inp out (m : prog K bytes) :
  connected addr k k1 inp out ->
  wp m k1 (fun o k' =>
    match o with
    | Done (Ok raw) => raw = inp k1 /\ out k' = out k1 ++ request /\ inp k' = []
    | Done (Throw e) => runtime e \/ (e = OutOfFuel /\ (fuel <= length (inp k1))%nat)
    | Killed => True
    end) ->
  wp m k1 (fun o _ => match o with Done r => carried addr k r | Killed => True end).
Proof.
  intros Hc Hm. eapply wp_mono; [exact Hm|]. intros o k' H. destruct o as [[raw|e]|]; [| |done].
  - by exists k1, inp, out, k'.
  - destruct H as [H|[-> H]]; [by destruct e|]. by exists k1, inp, out.
Qed.

(** What was made for one address is gone when its block is left. *)
Lemma exchange_wp addr k :
  wp (exchange fuel use_tls hostname request addr) k (fun o k' =>
    match o with Done r => live k' = live k /\ carried addr k r | Killed => True end).
Proof.
  unfold exchange. wp_step. pose proof (open_tcp_wp addr k) as H. unfold wp in H |- *.
  destruct (open_tcp addr k) as [[[s|e]|] k1] eqn:E; cbn in H |- *; [|split; [apply H|by destruct e, H]|done].
  destruct H as [Hfd Hl]. assert (owns (live := live) (live k) (mkSSL s None None) k1) as Hown.
  { unfold owns. rewrite Hl. unfold count. cbn [_socket _ctx _ssl]. rewrite (proj2 (Z.eqb_neq _ _)) by done. triples. }
  destruct use_tls eqn:Et.
  - pose proof (constructors_do_not_leak s hostname [] [] _ _ Hown) as [H _]. pose proof (ssl_client_ends s hostname k1) as He.
    unfold bind. unfold wp in H. destruct (ssl_client s hostname k1) as [[[t|e]|] k2] eqn:E2; cbn in H, He |- *; [|split; [done|by destruct e]|done].
    destruct He as [p Hp]. pose proof (over_tls addr k s k1 t p k2 Et E E2 Hp) as Hc.
    apply (scoped_wp (live k) (ssl_destroy t) (ssl_send t request;; ssl_recv_all fuel t) k2 (carried addr k)).
    + apply still_bind; [eapply still_ssl_send|intros; eapply still_ssl_recv_all]; exact HK.
    + apply (carried_talk _ _ _ _ _ _ Hc). apply talk_wp; intros k'; by apply (ssl_stream (arriving := tls_arriving p) (sent := tls_sent p) p t request fuel k').
    + intros k' Hk. apply ssl_destroy_wp. unfold owns in *. by rewrite Hk.
  - pose proof (over_tcp addr k s k1 Et E) as Hc.
    apply (scoped_wp (live k) (tcp_destroy s) (send s request;; recv_all_with_timeout fuel s RECV_TIMEOUT_MS) k1 (carried addr k)).
    + apply still_bind; [eapply still_send|intros; eapply still_recv_all]; exact HK.
    + apply (carried_talk _ _ _ _ _ _ Hc). apply talk_wp; intros k'; [apply send_wp|apply recv_all_with_timeout_wp]; eapply hk_tcp; exact HK.
    + intros k' Hk. eapply wp_mono; [apply tcp_destroy_wp|]. intros o k2 [-> Hl2]. split; [done|].
      rewrite Hl2, Hk, Hl, (proj2 (Z.eqb_neq _ _)) by done. triples.
Qed.

(** *** The addresses in turn *)

(** What happened at each address that was tried. *)
Inductive visits : list (Family * A) -> list (result bytes) -> K -> K -> Prop :=
  | visits_none k : visits [] [] k k
  | visits_one p l r rs k k1 k2 :
      exchange fuel use_tls hostname request p.2 k = (Done r, k1) -> carried p.2 k r -> visits l rs k1 k2 ->
      visits (p :: l) (r :: rs) k k2.

Definition answers (tried : list (Family * A)) (rs : list (result bytes)) : list (Family * Exchange) :=
  zip_with (fun p r => (p.1, (fun _ _ => r) : Exchange)) tried rs.

Lemma answers_fst tried rs k k' : visits tried rs k k' -> map fst (answers tried rs) = map fst tried.
Proof. induction 1 as [|p l r rs k k1 k2 _ _ _ IH]; [done|]. cbn [answers zip_with map fst]. by f_equal. Qed.

Lemma get_over_wp addresses k :
  wp (get_over fuel use_tls hostname request addresses) k (fun o k' =>
    match o with
    | Done r => live k' = live k /\ exists tried rest rs, addresses = tried ++ rest /\ visits tried rs k k' /\
        forall later, map fst later = map fst rest -> r = get_addresses use_tls request (answers tried rs ++ later)
    | Killed => True
    end).
Proof.
  revert k. induction addresses as [|[f addr] addresses IH]; intros k; cbn [get_over].
  { wp_step. split; [done|]. exists [], [], []. split; [done|]. split; [constructor|]. by intros [|]. }
  pose proof (exchange_wp addr k) as H. unfold wp in H |- *.
  destruct (exchange fuel use_tls hostname request addr k) as [[r|] k1] eqn:E; cbn [fst snd] in H |- *; [|done].
  destruct H as [Hl Hc].
  assert (forall later, get_addresses use_tls request (answers [(f, addr)] [r] ++ later) =
    match try_address use_tls request (f, fun _ _ => r) with
    | Ok (Some b) => Ok b
    | Ok None => get_addresses use_tls request later
    | Throw e => if catchable e then get_addresses use_tls request later else Throw e
    end) as Hstep by done.
  assert (forall o, (forall later, o = get_addresses use_tls request (answers [(f, addr)] [r] ++ later)) ->
    live k1 = live k /\ exists tried rest rs, (f, addr) :: addresses = tried ++ rest /\ visits tried rs k k1 /\
      forall later, map fst later = map fst rest -> o = get_addresses use_tls request (answers tried rs ++ later)) as Hstop.
  { intros o Ho. split; [done|]. exists [(f, addr)], addresses, [r]. split; [done|].
    split; [|intros later _; apply Ho]. apply (visits_one (f, addr) [] r [] k k1 k1 E Hc). constructor. }
  assert ((forall later, get_addresses use_tls request (answers [(f, addr)] [r] ++ later) = get_addresses use_tls request later) ->
    match (get_over fuel use_tls hostname request addresses k1).1 with
    | Done o => live (get_over fuel use_tls hostname request addresses k1).2 = live k /\
        exists tried rest rs, (f, addr) :: addresses = tried ++ rest /\
          visits tried rs k (get_over fuel use_tls hostname request addresses k1).2 /\
          forall later, map fst later = map fst rest -> o = get_addresses use_tls request (answers tried rs ++ later)
    | Killed => True
    end) as Hgo.
  { intros Hskip. specialize (IH k1). unfold wp in IH. destruct (get_over fuel use_tls hostname request addresses k1) as [[o|] k2]; [|done].
    cbn [fst snd] in IH |- *. destruct IH as (Hl2 & tried & rest & rs & -> & Hv & Hr). split; [congruence|].
    exists ((f, addr) :: tried), rest, (r :: rs). split; [done|]. split; [by eapply (visits_one (f, addr))|].
    intros later Hlater. rewrite (Hr later Hlater). symmetry. exact (Hskip (answers tried rs ++ later)). }
  destruct (try_address use_tls request (f, fun _ _ => r)) as [[b|]|e]; [|by apply Hgo|destruct (catchable e); [by apply Hgo|]];
    cbn [fst snd]; by apply Hstop.
Qed.
End kernel.

Lemma dns_filter {B} (l : list (Family * B)) : Forall (fun p => p.1 <> AF_OTHER) l -> dns_lookup (Some l) = Ok l.
Proof.
  unfold dns_lookup. induction 1 as [|[fam b] l Hp Hl IH]; [done|]. injection IH as IH. cbn [List.filter].
  assert (usable (fam, b) = true) as -> by (by destruct fam). by rewrite IH.
Qed.

(** C40: an announce over sockets.  Take any kernel whose descriptors and TLS connections
    carry byte streams, in pieces of any size, and on which any call may fail.  The
    announce, run on its sockets with every constructor, exception and destructor, returns
    exactly what the model of HttpTracker.v returns when the exchange at each address that
    was tried is what happened there: the exception of a failing call, or all the bytes
    that arrived on a connection, plain or TLS, after the whole request had been sent on
    it.  Whether it returns peers or throws, every descriptor, TLS context and connection
    object made on the way is gone; only a SIGPIPE ends it without that. *)
Theorem http_announce_over_sockets (IN : Inet) (A K : Type) (SY : Sys A K) (SS : Ssl K) (live : K -> Z * Z * Z)
    (arriving sent tls_arriving tls_sent : Z -> K -> bytes) fuel tracker a res addresses k :
  HttpKernel live arriving sent tls_arriving tls_sent ->
  dns_lookup res = Ok addresses -> addresses <> [] ->
  let request := build_http_request tracker (build_query_string a) in
  let tls := protocol_eqb (protocol tracker) HTTPS in
  let '(o, k') := http_announce_over fuel res tracker a k in
  match o with
  | Killed => True
  | Done r =>
      live k' = live k /\
      exists tried rest rs, addresses = tried ++ rest /\
        visits (arriving := arriving) (sent := sent) (tls_arriving := tls_arriving) (tls_sent := tls_sent)
          fuel tls (hostname tracker) request tried rs k k' /\
        forall later, map fst later = map fst rest -> r = http_announce (Some (answers tried rs ++ later)) tracker a
  end.
Proof.
  intros HK Hdns Hne request tls. unfold http_announce_over, http_get_over. rewrite Hdns.
  destruct addresses as [|p addresses]; [done|]. clear Hne. fold request tls.
  pose proof (get_over_wp (HK := HK) fuel tls (hostname tracker) request (p :: addresses) k) as H. unfold wp in H.
  destruct (get_over fuel tls (hostname tracker) request (p :: addresses) k) as [[r|] k']; [|done]. cbn [fst snd] in H.
  destruct H as (Hl & tried & rest & rs & Ha & Hv & Hr). split; [done|]. exists tried, rest, rs. split; [done|]. split; [done|].
  intros later Hlater. pose proof (answers_fst _ _ _ _ _ _ _ _ Hv) as Hf. rewrite (Hr later Hlater).
  assert (map fst (answers tried rs ++ later) = map fst (p :: addresses)) as Hfst by (by rewrite map_app, Hf, Hlater, <- map_app, Ha).
  unfold http_announce, send_http_tracker_get. rewrite dns_filter.
  - cbn [mbind result_bind]. fold request tls. rewrite bool_decide_false; [done|].
    intros E. apply (f_equal length) in Hfst. by rewrite !length_map, E in Hfst.
  - apply Forall_forall. intros q Hq. apply (list_elem_of_fmap_2 fst) in Hq. change (fst <$> ?l) with (map fst l) in Hq. rewrite Hfst in Hq.
    apply list_elem_of_fmap in Hq as (x & -> & Hx). exact (dns_lookup_usable res _ x Hdns Hx).
Qed.

(** ** A kernel

    [h_next]: what the next connections deliver; [None] refuses. *)
Record Host := mkHost { h_next : list (option bytes); h_in : bytes; h_out : bytes; h_live : Z * Z * Z }.

Definition host_count (d : Z * Z * Z) (k : Host) : Host := mkHost (h_next k) (h_in k) (h_out k) (plus (h_live k) d).
Definition host_stream (i o : bytes) (k : Host) : Host := mkHost (h_next k) i o (h_live k).

(** Ten bytes at a time *)
#[global] Instance host_sys : Sys Z Host := {|
  sys_socket _ _ k := (Some 3, host_count (0, 0, 1) k);
  sys_send _ d k := (Sent (Nat.min (length d) 10), host_stream (h_in k) (h_out k ++ take (Nat.min (length d) 10) d) k);
  sys_recv _ n k := (Some (take (Nat.min n 10) (h_in k)), host_stream (drop (Nat.min n 10) (h_in k)) (h_out k) k);
  sys_poll _ _ _ k := (Ready, k);
  sys_now k := (0, k);
  sys_getfl _ k := (Some 2, k);
  sys_setfl _ _ k := (true, k);
  sys_connect _ _ k :=
    match h_next k with
    | Some i :: l => (Connected, mkHost l i [] (h_live k))
    | None :: l => (Refused, mkHost l [] [] (h_live k))
    | [] => (Refused, k)
    end;
  sys_so_error _ k := (Some 0, k);
  sys_setsockopt _ _ k := (true, k);
  sys_bind _ _ k := (true, k);
  sys_listen _ _ k := (true, k);
  sys_accept _ k := (None, k);
  sys_recvfrom _ _ k := (None, k);
  sys_sendto _ _ _ k := (false, k);
  sys_getsockname _ k := (None, k);
  sys_shutdown _ k := ((), k);
  sys_close _ k := ((), host_count (0, 0, -1) k);
  sys_inet_aton _ := None;
  addr_domain a := a |}.

#[global] Instance host_ssl : Ssl Host := {|
  SSL_CTX_new k := (Some 1, host_count (1, 0, 0) k);
  SSL_new _ k := (Some 1, host_count (0, 1, 0) k);
  SSL_CTX_free _ k := ((), host_count (-1, 0, 0) k);
  SSL_free _ k := ((), host_count (0, -1, 0) k);
  SSL_set_tlsext_host_name _ _ k := (true, k);
  SSL_set_fd _ _ k := (true, k);
  SSL_CTX_use_certificate_file _ _ k := (true, k);
  SSL_CTX_use_PrivateKey_file _ _ k := (true, k);
  SSL_CTX_check_private_key _ k := (true, k);
  SSL_connect _ k := (true, k);
  SSL_accept _ k := (true, k);
  SSL_shutdown _ k := ((), k);
  SSL_write _ d k :=
    match d with [] => (WriteError SSL_ERROR_OTHER, k) | x :: _ => (Wrote 1, host_stream (h_in k) (h_out k ++ [x]) k) end;
  SSL_read _ n k :=
    match n, h_in k with
    | O, _ => (ReadError SSL_ERROR_OTHER, k)
    | _, [] => (ReadZero, k)
    | _, x :: i => (ReadSome x [], host_stream i (h_out k) k)
    end;
  SSL_pending _ k := (0%nat, k) |}.

Lemma host_tcp_ok fd : TcpOk fd h_in h_out.
Proof.
  split; cbn.
  - intros n k c k' [= <- <-]. cbn. rewrite take_drop, length_take. split; [done|]. split; [done|]. split; [lia|].
    intros E Hn. apply (f_equal length) in E. rewrite length_take in E. destruct (h_in k); [done|]. cbn in E. lia.
  - done.
  - intros d k n k' [= <- <-]. cbn. split; [lia|done].
  - intros d k r k' [= <- <-] H. by destruct (H _ eq_refl).
  - by intros ev t k r k' [= <- <-].
  - by intros k t k' [= <- <-].
Qed.

Lemma host_tls_ok p : SslOk p h_in h_out.
Proof.
  split; cbn.
  - intros n k x c k'. destruct n, (h_in k) eqn:E; intros H; try done. injection H as <- <- <-. cbn. split; [done|]. split; [done|lia].
  - intros n k r k'. destruct n, (h_in k) eqn:E; intros H [Hr|Hr]; injection H as <- <-; done.
  - intros n k e k'. by destruct n, (h_in k); intros [= <- <-].
  - intros [|x d] k n k'; [done|]. intros [= <- <-]. cbn. split; [lia|]. by rewrite take_0.
  - intros [|x d] k r k'; [by intros [= <- <-]|]. intros [= <- <-] H. by destruct (H _ eq_refl).
Qed.

Ltac counted := intros; intros ? ? ? [= <- <-]; apply triple_eq; cbn; lia.

#[global] Instance host_kernel : HttpKernel h_live (fun _ => h_in) (fun _ => h_out) (fun _ => h_in) (fun _ => h_out).
Proof.
  split; try (by counted).
  - intros fd. apply host_tcp_ok.
  - intros p. apply host_tls_ok.
  - split; by counted.
  - by intros d s k fd k' [= <- <-].
  - intros fd a k r k'. cbn. destruct (h_next k) as [|[i|] l]; intros [= <- <-]; apply triple_eq; cbn; lia.
  - intros p [|x d] k r k' [= <- <-]; apply triple_eq; cbn; lia.
  - intros p n k r k'. cbn. destruct n, (h_in k); intros [= <- <-]; apply triple_eq; cbn; lia.
Qed.

(** Refused, out of service, and then the peers. *)
Definition sample_host : Host :=
  mkHost [None; Some (http_reply 503 (str "Service Unavailable") [str "Retry-After: 1"] []);
          Some (http_reply 200 (str "OK") [] (encode (BDict sample_response)))] [] [] (4, 4, 9).

Lemma http_announce_over_sockets_witness :
  let IN := dotted_inet in
  let '(o, k') := http_announce_over 100 (Some [(Net.AF_INET6, 10); (Net.AF_OTHER, 1); (Net.AF_INET, 2); (Net.AF_INET, 2); (Net.AF_INET, 2)])
                    sample_tracker sample_args sample_host in
  o = Done (Ok sample_peers) /\ h_live k' = (4, 4, 9).
Proof.
  intros IN.
  pose proof (http_announce_over_sockets IN Z Host host_sys host_ssl h_live (fun _ => h_in) (fun _ => h_out) (fun _ => h_in) (fun _ => h_out)
    100 sample_tracker sample_args (Some [(Net.AF_INET6, 10); (Net.AF_OTHER, 1); (Net.AF_INET, 2); (Net.AF_INET, 2); (Net.AF_INET, 2)])
    [(Net.AF_INET6, 10); (Net.AF_INET, 2); (Net.AF_INET, 2); (Net.AF_INET, 2)] sample_host host_kernel eq_refl) as H.
  assert ((http_announce_over 100 (Some [(Net.AF_INET6, 10); (Net.AF_OTHER, 1); (Net.AF_INET, 2); (Net.AF_INET, 2); (Net.AF_INET, 2)])
             sample_tracker sample_args sample_host).1 = Done (Ok sample_peers)) as E by (vm_compute; reflexivity).
  cbv zeta in H. destruct (http_announce_over 100 _ sample_tracker sample_args sample_host) as [o k'].
  cbn [fst] in E. subst o. split; [reflexivity|]. apply H. discriminate.
Defined.
